(* ===== verification/_CoqProject ===== *)
-Q . S2P
Prelude.v
Crypto.v
Shs.v
Handshake.v
Logging.v
Pieces.v
Driver.v
Agreement.v
Sizes.v
Protocol.v
Boxes.v
Streams.v
Channel.v
Attack.v
Secure.v
Link.v
Crouton.v
Connection.v
Wrapper.v
KjEnd.v
CroutonEnd.v
EndToEnd.v
RpcContext.v
RpcServer.v
RpcClient.v
RpcHandles.v
RpcLink.v
RpcTimeout.v
RpcProgram.v
CApi.v
CHandles.v
