(* ===== verification/Prelude.v ===== *)
(** A verification of secret-handshake-capnp.

    * The program

    The repository implements the Secret Handshake protocol: two peers that
    know an application ID agree on session keys over an insecure connection,
    the client knowing the server's public key beforehand, and then exchange
    encrypted data.

    - [impl::handshake] (src/shs.cc, include/shs.hh) makes and checks the four
      messages of the protocol and derives the session keys.
    - [Handshake], [ClientHandshake], [ServerHandshake] (src/SecretHandshake.cc,
      include/SecretHandshake.hh, include/SecretHandshakeTypes.hh) are a state
      machine around it, which an application drives with the bytes it receives
      and asks for the bytes to send.
    - [EncryptoBox] and [DecryptoBox] (src/SecretStream.cc,
      include/SecretStream.hh) encrypt and decrypt messages with the session
      keys, in a compact format or as BoxStream; [EncryptionStream] and
      [DecryptionStream] turn them into byte streams.
    - [SecretHandshakeStream] (crouton/) and [WrappedStream] with its factories
      (capnproto/SecretConnection.cc and .hh) put both under the stream
      interfaces of the Crouton and kj libraries: they run the handshake over a
      raw stream, then encrypt what is written and decrypt what is read.
    - [SecretRPCServer] and [SecretRPCClient] (capnproto/SecretRPC.cc and .hh)
      accept and make connections, wrap them and start the Cap'n Proto RPC
      system on them; [RPCContext] is the event loop that those of one thread
      share.
    - The C functions at the end of src/SecretHandshake.cc and
      src/SecretStream.cc are a C interface to handshakes and boxes.
    - [Log] and [LogCallback] (src/SecretHandshake_Internal.hh,
      src/SecretHandshake.cc) report what a handshake does.

    * The files

    - Prelude: bytes, 64-bit sizes, memory regions, [std::vector] operations,
      the monad [M] of a method of an object, with exceptions and undefined
      behaviour as [fault]s, [await] for asynchronous code, the tactics and
      hint databases, and the lemmas shared by all.
    - Crypto: the primitives of MonocypherCpp (a submodule) as the class
      [Primitives], what the program relies on as [PrimitivesLaws] and
      [NonceCounts], and an executable instance [Toy].
    - Shs: [impl::handshake]. [Spec] has the protocol's messages as formulas;
      the lemmas give the result of every member function in these terms.
    - Handshake: the state machine. [api_step] is any call an application may
      make, [reachable] the states it can bring about; [inv] is the invariant.
    - Logging: the log callback, and the handshake with its log statements, as
      a monad that collects messages over that of Handshake.
    - Pieces: the two ways to receive and to send a message are equivalent.
    - Driver: the moves of a loop that drives a handshake over a connection.
    - Agreement: the honest sessions of two parties and a hostile network.
    - Sizes: the sizes of keys, nonces, messages and sessions.
    - Protocol: two honest peers and the network, [net_step].
    - Boxes: messages, on a memory with addresses, so that overlapping input
      and output are covered; [Wire.seal] is the wire format.
    - Streams: the two byte streams, working inside their own buffer;
      [enc_view] and [dec_view] are their abstract states.
    - Channel: sender, network and receiver, [chan_step], refining the byte
      queue [pipe_step].
    - Attack: the same with a network that delivers whatever it likes,
      [line_step].
    - Secure: the streams made from the sessions of an honest handshake are
      such a channel in each direction.
    - Crouton, Connection: the two adapters over an abstract raw stream (the
      classes [IStream] and [AsyncIoStream], with laws), each with an
      executable instance that plays a script. An operation of the raw stream
      that stays pending is the fault [Unresolved], which everything that waits
      for it ends in; [IStreamResolves] and [AsyncIoStreamResolves] are streams
      whose operations resolve. Where turns are events (Wrapper, RpcServer and
      the files above them) such streams are used, and a turn that waits for a
      silent peer is an event that does not happen.
    - Wrapper: [StreamWrapper] with its connect timeout; a call of [wrap] as a
      promise that makes turns, [wrapping_step].
    - Link: what an adapter promises, as the classes [Adapter] and
      [AdapterLaws]; two of them at the ends of one byte connection,
      [link_step], with the invariant and its consequences proved against the
      interface.
    - KjEnd, CroutonEnd: the two adapters as instances of it. CroutonEnd cuts
      the coroutines into the turns between their waits, and shows that a
      coroutine is the iteration of its turns.
    - EndToEnd: any two of the adapters connected to each other.
    - RpcContext: the contexts of the threads and their reference counts,
      [system_step].
    - RpcServer, RpcClient: the event loops, as a set of tasks or a setup that
      events of the environment move on ([server_step], [client_step]).
    - RpcHandles: the client objects that an application holds, uses and moves.
    - RpcLink: a server and a client connected to each other, [rpc_step].
      RpcTimeout: the same with the server's timeouts, [timed_step].
    - RpcProgram: servers and clients on several threads, [program_step].
    - CApi: the C functions. CHandles: the objects behind the opaque pointers
      they pass around, and the erasure of keys; [c_step] is any correct call.

    Definitions have the names of the functions they model, with a prefix
    where C++ overloads or nests a name ([enc_push] and [dec_push],
    [client_receivedBytes] and [server_receivedBytes], [stream_open], ...).
    Members of classes are the fields of records.

    * What is shown

    - Handshake, one peer against any network: no call sequence reads an empty
      optional or overruns a buffer, and an assertion fails in one case only, a
      message reported as sent after the handshake has failed with it pending
      ([handshake_calls_safe], [buffers_bounded]); a peer finishes only after
      the other one has authenticated itself for this session
      ([server_finish_authentic], [client_finish_authentic]); failure is
      final and has the right code ([failed_is_final], [failure_code]).
      The caller makes its calls in any order; it only stays inside the buffer
      that [bytesToRead] returned.
    - Handshake, honest parties and a hostile network: a client that finishes
      agrees with a session of its server, a server that finishes agrees with a
      session of its client, or the last message it accepted has a forged
      signature inside ([client_agreement], [server_agreement]).
    - Handshake, two honest peers: they never fail, can always finish, and
      then hold mirrored sessions ([honest_peers_never_fail],
      [honest_peers_can_finish], [honest_sessions_mirror]); mismatched or
      unwelcome peers are refused ([wrong_app_id_rejected],
      [unwelcome_client_rejected]); whole and piecewise transfer agree
      ([receive_pieces_equiv], [send_pieces_equiv]).
    - Messages: [encrypt] writes the wire format for every overlap
      ([encrypt_seals]) or refuses without effect ([encrypt_refuses]);
      [decrypt] inverts it ([box_roundtrip]), waits for incomplete messages
      ([decrypt_waits], [peek_sizes]) and accepts only what authenticates
      ([decrypt_authentic]), with the exception of [compact_empty_forgery].
    - Streams and connections: each operation on its abstract state
      ([enc_stream_refines], [dec_push_honest], [dec_push_authentic],
      [pull_skip_fifo]); the channel is a byte queue that never fails, drains,
      delivers everything and gives the cipher no nonce twice, up to 2^64 of
      them ([channel_refines_pipe],
      [channel_never_fails], [channel_drains], [channel_delivers],
      [nonces_never_repeat]); [handshake_to_connection] joins this to the
      handshake.
    - Streams and a hostile network: unless a message is forged, what is read
      comes from the messages that were sent, in order, none twice and none
      changed; in the BoxStream protocol none is missing
      ([attacked_integrity]). In the compact protocol, the default, the network
      can delete messages without notice ([compact_messages_deletable]). The same
      of the adapters' reads are [tryRead_attacked] and [read_attacked].
    - Adapters: the handshake over a raw stream ends, unless an operation of
      that stream stays pending, and an open stream has an authenticated,
      authorized peer ([handshake_returns], [open_result], [wrap_result]); a
      client stream with a delegate cannot be opened; writes send exactly the sealed messages
      ([write_seals], [connection_write_seals]); reads return the plaintext in
      order, and those of the Crouton adapter fail exactly on data that does
      not authenticate or is cut off ([read_in_order], [tryRead_in_order]). With a connect timeout the
      same holds in any order of turns and timers, and left to itself [wrap]
      does what the one without timeout does ([timed_wrap_safe],
      [timed_wrap_equiv]).
    - Two adapters connected to each other, of the same library or of different
      ones, from the first byte of the handshake to the last byte of data:
      nothing is rejected, each end knows the other's key, and what is read is
      what was written ([adapters_end_to_end]); from every state they can
      connect and exchange everything ([adapters_can_join]). This joins
      Protocol, Channel, Connection and Crouton.
    - Logging: a handshake with its log statements does what it does without
      them, if the callback returns and leaves it alone, and the log says how it
      ended ([logging_transparent], [outcome_logged]).
    - RPC: whatever handshakes fail, a listening server goes on accepting as long
      as every accepted connection has a peer name, and its handlers fault in
      two cases only, a failed accept and a connection accepted without a
      wrapper ([server_keeps_accepting]); one that has no name stops it
      ([unnamed_accept_stops]), and every IPv4 peer gets the same name
      ([ipv4_peers_look_alike]). Tasks do not disturb each other
      ([server_isolates]); a connection that was accepted is out of its
      handshake after five turns or fifteen seconds ([server_handshake_ends]);
      whom it serves has been authenticated and authorized, and has an interface made
      for its key ([server_serves_authentic]). A client's capabilities come from
      the server it was told to connect to ([client_main_authentic]), and every
      call of [getMain] is answered unless the client object is moved meanwhile
      ([unmoved_getMain_answered], [moved_getMain_faults]; [client_answers_all]
      is about the inner [Impl::getMain]). The objects of one thread share a context that
      lives as long as they do ([program_contexts]).
    - A client connected to a server: neither handshake fails, the server's
      main interface is made for the client's key and the client's capabilities
      come from the server ([rpc_end_to_end]); from every state both get there,
      with every call of [getMain] answered ([rpc_can_connect]). With timeouts
      the same holds until the server gives up, and then the client's setup still
      comes to an end ([timeouts_safe], [timeouts_resolve]).
    - C interface: calls on live objects of the right kind, in any order, cause
      no undefined behaviour and fail no assertion but the one above, objects
      keep their types and do not disturb each other
      ([c_handles_typed]); erased keys leave nothing behind
      ([erasure_forgets]).
    - Sizes: messages, keys and sessions have the sizes of their C++ types
      ([sizes_typed]).

    "Authenticates" means that the primitive that checks a MAC or a signature
    accepted. That nobody else can make such a message is not assumed of the
    primitives, which are functions: the theorems on hostile networks have a
    forgery as the alternative, and say what it is ([forged],
    [signature_forged]).

    * Bounds

    Sizes are integers with the wrap-around of 64-bit [size_t] written out
    ([size_add], [size_sub]) where the code adds or subtracts. Loops that are
    not structural have fuel, and run out of it into the fault [OutOfFuel],
    which no theorem admits as a result ([Unresolved] is another matter, and
    the theorems that allow it say so):

    - the loop of [pushPartial] gets two more than the number of bytes pushed
      (every turn but the first consumes a byte) and the loop of
      [DecryptionStream::push] one more than the bytes in the buffer (every
      turn consumes a header);
    - a handshake has four messages, so that the Crouton loop has at most
      three rounds ([hs_rounds]) and [runHandshake] five turns
      ([handshake_turns]), the last one to find that it has finished;
    - a read on an adapter may wait for any number of raw reads, so that its
      fuel is a parameter, and the theorems hold for any fuel greater than the
      number of reads after which the raw stream ends, or the number of bytes
      that have arrived.

    Times are integers, in nanoseconds as kj counts them; the fifteen seconds
    that the server gives a handshake are [15 * kj_SECONDS].

    * What is not modelled

    - The primitives and the Crouton, kj and capnp libraries are not in the
      repository. Which cipher [box_key] selects (SHS_SCUTTLEBUTT_COMPATIBLE)
      is part of the primitives.
    - The text that [vasprintf] makes of a log message, and the log statements
      of the adapters, which belong to kj and Crouton.
    - The addresses of memory blocks: an object of the C interface is a number
      that is never used again, so that the use of a freed one is visible
      ([UseAfterFree]).
    - Random key generation: an ephemeral key is an argument of the
      constructors, the seed of a key pair one of [KeyPair_generate].
    - Two writes at the same time on one adapter, which its interface forbids.
    - Inside kj and capnp: the order in which continuations run is arbitrary;
      a continuation of a null promise dereferences a null pointer; capabilities
      are values that the RPC system makes for a stream.
    - Log callbacks that throw or that call the handshake back.
    - The RPC traffic of a connection, which is capnp's: in RpcLink the network
      carries the bytes of the handshakes. What the streams underneath do with
      the bytes of a connection is in EndToEnd.
    - The tests and the test framework. *)
From Stdlib Require Import ZArith Lia Strings.Byte.
From stdpp Require Import base list numbers option tactics.

Global Set Default Goal Selector "!".
#[export] Set Warnings "-clear-no-such-hyp".
Open Scope Z_scope.

(** * Bytes and sizes *)

(** A [uint8_t] is a [Byte.byte]; a [std::vector<uint8_t>], a [std::array]
    and a region of memory are lists of them. *)
Abbreviation byte := (Corelib.Init.Byte.byte : Type).
Abbreviation bytes := (list Corelib.Init.Byte.byte).

#[global] Instance byte_eq_dec : EqDecision Corelib.Init.Byte.byte := Byte.byte_eq_dec.

Definition b2z (b : byte) : Z := Z.of_N (Byte.to_N b).

(** Narrowing of an integer to [uint8_t]. *)
Definition z2b (z : Z) : byte :=
  match Byte.of_N (Z.to_N (z mod 256)) with Some b => b | None => x00 end.

(** Lengths are integers, as [size_t] values are compared and subtracted;
    a notation, so that [lia] sees the underlying [length]. *)
Abbreviation len l := (Z.of_nat (length l)).
Abbreviation ztake n l := (take (Z.to_nat n) l).
Abbreviation zdrop n l := (drop (Z.to_nat n) l).

(** [size_t] has 64 bits. Subtraction of a larger number wraps around;
    [size_add] is the wrapping sum. *)
Definition size_max : Z := 2 ^ 64 - 1.
Definition size_add (a b : Z) : Z := (a + b) mod 2 ^ 64.
Definition size_sub (a b : Z) : Z := if b <=? a then a - b else a - b + 2 ^ 64.

(** * Memory regions and vectors *)

(** A read or write of [n] bytes at address [a] is defined only inside the
    memory; outside, the C++ has undefined behaviour and the model has
    [None]. *)
Definition mread (mem : bytes) (a n : Z) : option bytes :=
  if (0 <=? a) && (0 <=? n) && (a + n <=? len mem)
  then Some (ztake n (zdrop a mem)) else None.

Definition mwrite (mem : bytes) (a : Z) (bs : bytes) : option bytes :=
  if (0 <=? a) && (a + len bs <=? len mem)
  then Some (ztake a mem ++ bs ++ zdrop (a + len bs) mem) else None.

(** [std::vector::resize]: truncates, or appends value-initialised bytes. *)
Definition vec_resize (n : Z) (v : bytes) : bytes :=
  ztake n v ++ replicate (Z.to_nat (n - len v)) x00.

(** [std::vector::erase(begin()+i, begin()+j)], defined for
    [0 <= i <= j <= size()]. *)
Definition vec_erase (v : bytes) (i j : Z) : option bytes :=
  if (0 <=? i) && (i <=? j) && (j <=? len v)
  then Some (ztake i v ++ zdrop j v) else None.

(** * Effects: state, exceptions and undefined behaviour *)

(** How a C++ call can end other than by returning. The first group are
    exceptions, the second are aborts and undefined behaviour; [Unresolved] is
    an asynchronous operation that does not resolve, and all that waits for
    it. *)
Inductive fault :=
| LogicError | InvalidArgument | RuntimeError | BadOptionalAccess | BadCast
| AssertFailed | NullDeref | OutOfBounds | UseAfterFree | IndeterminateRead | OutOfFuel
| Unresolved.

#[global] Instance fault_eq_dec : EqDecision fault.
Proof. solve_decision. Defined.

Inductive outcome (A : Type) := Ok (a : A) | Fault (f : fault).
Arguments Ok {A} a.
Arguments Fault {A} f.

(** A method of an object with state [S]: the state reached is kept when an
    exception leaves the method. *)
Definition M (S A : Type) : Type := S → outcome A * S.

#[global] Instance M_ret S : MRet (M S) := λ A a s, (Ok a, s).
#[global] Instance M_bind S : MBind (M S) := λ A B f m s,
  match m s with
  | (Ok a, s') => f a s'
  | (Fault e, s') => (Fault e, s')
  end.

Definition get {S} : M S S := λ s, (Ok s, s).
Definition gets {S A} (f : S → A) : M S A := λ s, (Ok (f s), s).
Definition modify {S} (f : S → S) : M S unit := λ s, (Ok tt, f s).
Definition throw {S A} (e : fault) : M S A := λ s, (Fault e, s).

(** [assert(b)], an abort when [b] is false. *)
Definition assert_ {S} (b : bool) : M S unit :=
  if b then mret tt else throw AssertFailed.

(** [opt.value()] throws [std::bad_optional_access] on an empty optional;
    [*opt] is undefined behaviour there. *)
Definition value_of {S A} (o : option A) : M S A :=
  match o with Some a => mret a | None => throw BadOptionalAccess end.
Definition deref {S A} (o : option A) : M S A :=
  match o with Some a => mret a | None => throw NullDeref end.

(** An access that is undefined behaviour when it is out of range. *)
Definition in_bounds {S A} (o : option A) : M S A :=
  match o with Some a => mret a | None => throw OutOfBounds end.

(** A call on a sub-object: [proj] selects it, [upd] stores it back. *)
Definition zoom {S T A} (proj : S → T) (upd : T → S → S) (m : M T A) : M S A :=
  λ s, match m (proj s) with (r, t) => (r, upd t s) end.

(** Asynchronous code whose result is a value or an error. [await] continues
    with the value of an awaited operation and ends with its error; [ret]
    returns a value; [plain] is a computation without errors. *)
Definition await {X A B E} (m : M X (A + E)) (f : A → M X (B + E)) : M X (B + E) :=
  r ← m; match r with inl a => f a | inr e => mret (inr e) end.
Definition ret {X A E} (a : A) : M X (A + E) := mret (inl a).
Definition plain {X A E} (m : M X A) : M X (A + E) := a ← m; ret a.

(** [wp m Q s]: the run of [m] from [s] ends in a result and state in [Q]. *)
Definition wp {S A} (m : M S A) (Q : outcome A → S → Prop) (s : S) : Prop :=
  Q (m s).1 (m s).2.

(** * Tactics and hint databases *)

(** [shs] resolves the side conditions on invariants; [shs_rw] rewrites the
    lengths of what the primitives and the wire format produce. *)
Create HintDb shs.
Create Rewrite HintDb shs_rw.

(** Turns boolean comparisons into propositions and calls [lia]. *)
Ltac zbool :=
  repeat match goal with
  | H : (_ && _) = true |- _ => apply andb_true_iff in H as [? ?]
  | H : (_ <=? _) = true |- _ => apply Z.leb_le in H
  | H : (_ <=? _) = false |- _ => apply Z.leb_gt in H
  | H : (_ <? _) = true |- _ => apply Z.ltb_lt in H
  | H : (_ <? _) = false |- _ => apply Z.ltb_ge in H
  | H : (_ =? _) = true |- _ => apply Z.eqb_eq in H
  | H : (_ =? _) = false |- _ => apply Z.eqb_neq in H
  end.

(** Length goals: normalise [length] of list operations, then [lia]. *)
Ltac len_simpl :=
  repeat rewrite ?length_app, ?length_take, ?length_drop, ?length_replicate,
    ?length_nil, ?length_cons in *.
Ltac len_lia := zbool; len_simpl; lia.

(** Decides a boolean test in the goal when arithmetic settles it. *)
Ltac ztest :=
  repeat match goal with
  | |- context [?a <=? ?b] =>
      first [rewrite (proj2 (Z.leb_le a b)) by len_lia
            |rewrite (proj2 (Z.leb_gt a b)) by len_lia]
  | |- context [?a <? ?b] =>
      first [rewrite (proj2 (Z.ltb_lt a b)) by len_lia
            |rewrite (proj2 (Z.ltb_ge a b)) by len_lia]
  | |- context [?a =? ?b] =>
      first [rewrite (proj2 (Z.eqb_eq a b)) by len_lia
            |rewrite (proj2 (Z.eqb_neq a b)) by len_lia]
  end; simpl andb.

(** Runs the monadic code in the goal on the state it is applied to. *)
Ltac mrun :=
  cbv [mbind M_bind mret M_ret get gets modify throw assert_ value_of deref in_bounds zoom];
  cbn.

Ltac mrun_in H :=
  cbv [mbind M_bind mret M_ret get gets modify throw assert_ value_of deref in_bounds zoom] in H;
  cbn in H.

(** Rewrites with an equation stated under [let]s. *)
Ltac rw_let H := let E := fresh "E" in pose proof H as E; cbv zeta in E; rewrite E; clear E.

(** * Lemmas *)

(** ** Bytes *)

Lemma b2z_range b : 0 <= b2z b < 256.
Proof.
  unfold b2z. pose proof (Byte.to_N_bounded b). lia.
Qed.

Lemma b2z_z2b z : b2z (z2b z) = z mod 256.
Proof.
  unfold b2z, z2b. pose proof (Z.mod_pos_bound z 256 eq_refl) as Hb.
  destruct (Byte.of_N _) as [b|] eqn:E.
  - apply Byte.to_of_N in E. rewrite E. lia.
  - apply Byte.of_N_None_iff in E. lia.
Qed.

Lemma b2z_inj b c : b2z b = b2z c → b = c.
Proof.
  unfold b2z. intros H%N2Z.inj.
  pose proof (Byte.of_to_N b) as Hb. pose proof (Byte.of_to_N c) as Hc.
  rewrite H in Hb. congruence.
Qed.

Lemma z2b_b2z b : z2b (b2z b) = b.
Proof.
  apply b2z_inj. rewrite b2z_z2b. apply Z.mod_small, b2z_range.
Qed.

(** ** Sizes *)

Lemma size_sub_exact a b : b <= a → size_sub a b = a - b.
Proof. unfold size_sub. intros. by ztest. Qed.

Lemma size_sub_wraps a b :
  0 <= a <= size_max → 0 <= b <= size_max → size_sub a b = (a - b) mod 2 ^ 64.
Proof.
  unfold size_sub, size_max. intros. destruct (b <=? a) eqn:E; zbool.
  - rewrite Z.mod_small; lia.
  - apply Z.mod_unique with (-1); lia.
Qed.

Lemma size_add_exact a b : 0 <= a + b <= size_max → size_add a b = a + b.
Proof. unfold size_add, size_max. intros. apply Z.mod_small. lia. Qed.

(** ** Slices *)

Lemma ztake_app_len {A} (l k : list A) : ztake (len l) (l ++ k) = l.
Proof. rewrite Nat2Z.id. apply take_app_length. Qed.

Lemma zdrop_app_len {A} (l k : list A) : zdrop (len l) (l ++ k) = k.
Proof. rewrite Nat2Z.id. apply drop_app_length. Qed.

(** The longer of two starts of a list. *)
Lemma app_eq_longer {A} (a b c d : list A) :
  a ++ b = c ++ d → len c <= len a → ∃ k, a = c ++ k ∧ k ++ b = d.
Proof.
  intros E Hl. apply app_eq_inv in E as [(k & -> & ->)|(k & -> & ->)]; [by exists k|].
  rewrite length_app in Hl. assert (k = []) as -> by (destruct k; [done|cbn in Hl; lia]).
  exists []. by rewrite !app_nil_r.
Qed.

Lemma ztake_app_exact {A} (l k : list A) n : n = len l → ztake n (l ++ k) = l.
Proof. intros ->. apply ztake_app_len. Qed.

Lemma zdrop_app_exact {A} (l k : list A) n : n = len l → zdrop n (l ++ k) = k.
Proof. intros ->. apply zdrop_app_len. Qed.

Lemma ztake_all {A} (l : list A) n : len l <= n → ztake n l = l.
Proof. intros. apply take_ge. lia. Qed.

Lemma zdrop_all {A} (l : list A) n : len l <= n → zdrop n l = [].
Proof. intros. apply drop_ge. lia. Qed.

Lemma len_ztake {A} (l : list A) n : 0 <= n <= len l → len (ztake n l) = n.
Proof. intros. len_lia. Qed.

Lemma len_zdrop {A} (l : list A) n : 0 <= n <= len l → len (zdrop n l) = len l - n.
Proof. intros. len_lia. Qed.

Lemma zdrop_zdrop {A} (l : list A) a b :
  0 <= a → 0 <= b → zdrop b (zdrop a l) = zdrop (a + b) l.
Proof. intros. rewrite drop_drop. f_equal. lia. Qed.

(** Dropping as many elements as were taken. *)
Lemma zdrop_ztake {A} (l : list A) n : 0 <= n → zdrop n l = zdrop (len (ztake n l)) l.
Proof.
  intros Hn. destruct (decide (n <= len l)).
  - by rewrite len_ztake by lia.
  - by rewrite (ztake_all l n), !zdrop_all by lia.
Qed.

(** A list splits at any index inside it. *)
Lemma zsplit {A} (l : list A) n :
  0 <= n <= len l → ∃ a b, l = a ++ b ∧ len a = n.
Proof.
  intros. exists (ztake n l), (zdrop n l). split.
  - by rewrite take_drop.
  - by apply len_ztake.
Qed.

(** ** Memory *)

(** Reading a region that the memory is known to contain. *)
Lemma mread_at pre bs post a n :
  a = len pre → n = len bs → mread (pre ++ bs ++ post) a n = Some bs.
Proof.
  intros -> ->. unfold mread. ztest.
  by rewrite zdrop_app_len, ztake_app_len.
Qed.

Lemma mread_end pre bs a n : a = len pre → n = len bs → mread (pre ++ bs) a n = Some bs.
Proof. rewrite <-(app_nil_r bs) at 2. apply mread_at. Qed.

(** Writing over a region of the same size. *)
Lemma mwrite_at pre old post a bs :
  a = len pre → length old = length bs →
  mwrite (pre ++ old ++ post) a bs = Some (pre ++ bs ++ post).
Proof.
  intros -> Hl. unfold mwrite. ztest. rewrite ztake_app_len.
  rewrite (app_assoc pre old post), zdrop_app_exact; [done|len_lia].
Qed.

Lemma mread_Some mem a n bs :
  mread mem a n = Some bs →
  0 <= a ∧ 0 <= n ∧ a + n <= len mem ∧ bs = ztake n (zdrop a mem) ∧ len bs = n.
Proof.
  unfold mread. destruct (_ && _) eqn:E; [|done].
  intros [= <-]. zbool. split_and!; try done. len_lia.
Qed.

(** A read of a concatenation is a read of its two parts. *)
Lemma mread_app mem a h b n :
  mread mem a n = Some (h ++ b) →
  mread mem a (len h) = Some h ∧ mread mem (a + len h) (len b) = Some b.
Proof.
  intros (? & ? & ? & E & Hl)%mread_Some.
  destruct (zsplit mem a) as (pre & q & -> & Hp); [lia|].
  rewrite zdrop_app_exact in E by done.
  destruct (zsplit q n) as (r & post & -> & Hr); [len_lia|].
  rewrite ztake_app_exact in E by done. subst r.
  rewrite <-app_assoc. split.
  - by apply mread_at.
  - rewrite app_assoc. apply mread_at; [len_lia|done].
Qed.

(** Reading a region in two pieces. *)
Lemma mread_split mem a n w m :
  mread mem a n = Some w → 0 <= m <= n →
  mread mem a m = Some (ztake m w) ∧ mread mem (a + m) (n - m) = Some (zdrop m w).
Proof.
  intros H Hm. destruct (mread_Some _ _ _ _ H) as (? & ? & ? & _ & Hl).
  rewrite <-(take_drop (Z.to_nat m) w) in H. apply mread_app in H as [Hl1 Hl2].
  rewrite len_ztake in Hl1, Hl2 by lia. rewrite len_zdrop in Hl2 by lia.
  split; [done|]. by rewrite <-Hl.
Qed.

Lemma mread_is_Some mem a n :
  0 <= a → 0 <= n → a + n <= len mem →
  mread mem a n = Some (ztake n (zdrop a mem)).
Proof. intros. unfold mread. by ztest. Qed.

Lemma mwrite_is_Some mem a bs :
  0 <= a → a + len bs <= len mem →
  mwrite mem a bs = Some (ztake a mem ++ bs ++ zdrop (a + len bs) mem).
Proof. intros. unfold mwrite. by ztest. Qed.

Lemma mwrite_length mem a bs mem' : mwrite mem a bs = Some mem' → length mem' = length mem.
Proof.
  unfold mwrite. destruct (_ && _) eqn:E; [|done].
  intros [= <-]. len_lia.
Qed.

(** Two writes, the second just below the first, are one write of both. *)
Lemma mwrite_mwrite_below mem a h c m1 :
  0 <= a →
  mwrite mem (a + len h) c = Some m1 →
  mwrite m1 a h = mwrite mem a (h ++ c).
Proof.
  intros Ha H1. pose proof (mwrite_length _ _ _ _ H1) as Hl.
  unfold mwrite in H1. destruct (_ && _) eqn:E; [|done]. simplify_eq. zbool.
  destruct (zsplit mem a) as (p & q & -> & Hp); [len_lia|].
  destruct (zsplit q (len h)) as (r & s & -> & Hr); [len_lia|].
  destruct (zsplit s (len c)) as (t & u & -> & Ht); [len_lia|].
  rewrite (app_assoc p r (t ++ u)), (ztake_app_exact (p ++ r)) by len_lia.
  rewrite (app_assoc (p ++ r) t u), (zdrop_app_exact ((p ++ r) ++ t)) by len_lia.
  rewrite <-!app_assoc.
  rewrite (mwrite_at p r _ a h) by len_lia.
  rewrite (app_assoc r t u), (mwrite_at p (r ++ t) u a (h ++ c)) by len_lia.
  by rewrite <-!app_assoc.
Qed.

(** ** Vectors *)

Lemma vec_resize_length n v : 0 <= n → len (vec_resize n v) = n.
Proof. intros. unfold vec_resize. len_lia. Qed.

Lemma vec_resize_grow n v :
  len v <= n → vec_resize n v = v ++ replicate (Z.to_nat (n - len v)) x00.
Proof. intros. unfold vec_resize. by rewrite ztake_all. Qed.

Lemma vec_resize_id v : vec_resize (len v) v = v.
Proof. rewrite vec_resize_grow by lia. rewrite Z.sub_diag. apply app_nil_r. Qed.

Lemma vec_resize_0 v : vec_resize 0 v = [].
Proof.
  unfold vec_resize. simpl. replace (Z.to_nat (0 - len v)) with O by lia. done.
Qed.

Lemma vec_erase_at pre gap post i j :
  i = len pre → j = i + len gap →
  vec_erase (pre ++ gap ++ post) i j = Some (pre ++ post).
Proof.
  intros -> ->. unfold vec_erase. ztest. rewrite ztake_app_len.
  rewrite app_assoc, zdrop_app_exact; [done|len_lia].
Qed.

(** ** The weakest precondition calculus *)

Section wp_rules.
Context {S : Type}.

Lemma wp_ret {A} (a : A) (Q : outcome A → S → Prop) s : Q (Ok a) s → wp (mret a) Q s.
Proof. done. Qed.

Lemma wp_bind {A B} (m : M S A) (f : A → M S B) (Q : outcome B → S → Prop) s :
  wp m (λ r s', match r with Ok a => wp (f a) Q s' | Fault e => Q (Fault e) s' end) s →
  wp (m ≫= f) Q s.
Proof. unfold wp, mbind, M_bind. by destruct (m s) as [[a|e] s']. Qed.

Lemma wp_mono {A} (m : M S A) (P Q : outcome A → S → Prop) s :
  (∀ r s', P r s' → Q r s') → wp m P s → wp m Q s.
Proof. unfold wp. auto. Qed.

Lemma wp_zoom {T A} (proj : S → T) (upd : T → S → S) (m : M T A) (Q : outcome A → S → Prop) s :
  wp m (λ r t, Q r (upd t s)) (proj s) → wp (zoom proj upd m) Q s.
Proof. unfold wp, zoom. by destruct (m (proj s)). Qed.

(** A run whose result is known. *)
Lemma bind_Ok {A B} (m : M S A) (f : A → M S B) s a s' :
  m s = (Ok a, s') → (m ≫= f) s = f a s'.
Proof. intros H. unfold mbind, M_bind. by rewrite H. Qed.

Lemma bind_get {B} (f : S → M S B) s : (get ≫= f) s = f s s.
Proof. reflexivity. Qed.

Lemma bind_modify {B} g (f : unit → M S B) s : (modify g ≫= f) s = f tt (g s).
Proof. reflexivity. Qed.

Lemma bind_ret {A B} (a : A) (f : A → M S B) s : (mret a ≫= f) s = f a s.
Proof. reflexivity. Qed.

Lemma bind_Fault {A B} (m : M S A) (f : A → M S B) s e s' :
  m s = (Fault e, s') → (m ≫= f) s = (Fault e, s').
Proof. intros H. unfold mbind, M_bind. by rewrite H. Qed.

Lemma bind_ext {A B} (m : M S A) (f g : A → M S B) s :
  (∀ a s1, f a s1 = g a s1) → (m ≫= f) s = (m ≫= g) s.
Proof. intros Hfg. unfold mbind, M_bind. destruct (m s) as [[a|e] s1]; [apply Hfg|done]. Qed.

Lemma bind_at {A B} (m m' : M S A) (f : A → M S B) s : m s = m' s → (m ≫= f) s = (m' ≫= f) s.
Proof. unfold mbind, M_bind. by intros ->. Qed.

Lemma bind_bind {A B C} (m : M S A) (f : A → M S B) (g : B → M S C) s :
  ((m ≫= f) ≫= g) s = (m ≫= λ a, f a ≫= g) s.
Proof. unfold mbind, M_bind. by destruct (m s) as [[a|e] s1]. Qed.

(** A run that returned: each of its parts did. *)
Lemma bind_Ok_inv {A B} (m : M S A) (f : A → M S B) s b s' :
  (m ≫= f) s = (Ok b, s') → ∃ a s1, m s = (Ok a, s1) ∧ f a s1 = (Ok b, s').
Proof. unfold mbind, M_bind. destruct (m s) as [[a|e] s1]; [eauto|done]. Qed.
End wp_rules.

Section await_rules.
Context {X A B E : Type}.

Lemma await_inl (m : M X (A + E)) (f : A → M X (B + E)) x a x' :
  m x = (Ok (inl a), x') → await m f x = f a x'.
Proof. intros Hm. unfold await. by rewrite (bind_Ok _ _ _ _ _ Hm). Qed.

Lemma await_inr (m : M X (A + E)) (f : A → M X (B + E)) x e x' :
  m x = (Ok (inr e), x') → await m f x = (Ok (inr e), x').
Proof. intros Hm. unfold await. by rewrite (bind_Ok _ _ _ _ _ Hm). Qed.

Lemma await_ext (m : M X (A + E)) (f g : A → M X (B + E)) x :
  (∀ a x1, f a x1 = g a x1) → await m f x = await m g x.
Proof.
  intros Hfg. unfold await, mbind, M_bind. destruct (m x) as [[[a|e]|f'] x1]; [apply Hfg|done..].
Qed.

Lemma await_await {C} (m : M X (A + E)) (f : A → M X (B + E)) (g : B → M X (C + E)) x :
  await (await m f) g x = await m (λ a, await (f a) g) x.
Proof. unfold await, mbind, M_bind. by destruct (m x) as [[[a|e]|f'] x1]. Qed.

Lemma await_bind {C} (m : M X C) (f : C → M X (A + E)) (g : A → M X (B + E)) x :
  await (c ← m; f c) g x = (c ← m; await (f c) g) x.
Proof. unfold await, mbind, M_bind. by destruct (m x) as [[c|f'] x1]. Qed.

Lemma bind_await {C} (m : M X (A + E)) (f : A → M X (B + E)) (g : B + E → M X C) x :
  (r ← await m f; g r) x
  = (r ← m; match r with inl a => r' ← f a; g r' | inr e => g (inr e) end) x.
Proof. unfold await, mbind, M_bind, mret, M_ret. by destruct (m x) as [[[a|e]|f'] x1]. Qed.

(** An operation whose value is passed on. *)
Lemma await_ret (m : M X (A + E)) x : await m ret x = m x.
Proof. unfold await, mbind, M_bind, ret. by destruct (m x) as [[[a|e]|f'] x1]. Qed.

Lemma plain_run (m : M X A) x a x' :
  m x = (Ok a, x') → plain m x = (Ok (inl a : A + E), x').
Proof. intros Hm. unfold plain. by rewrite (bind_Ok _ _ _ _ _ Hm). Qed.
End await_rules.

(** * Operations that stay pending *)

(** The result is in [Q], or the operation stays pending. *)
Definition settles {A} (Q : A → Prop) (r : outcome A) : Prop :=
  match r with Ok a => Q a | Fault f => f = Unresolved end.

(** [m], with the result [a] instead of no result. *)
Definition resolved_as {X A} (a : A) (m : M X A) : M X A := λ x,
  match m x with (Fault Unresolved, x') => (Ok a, x') | p => p end.

Lemma resolved_as_returns {X A} Q (a : A) (m : M X A) x :
  settles Q (m x).1 → Q a → ∃ r x', resolved_as a m x = (Ok r, x') ∧ Q r.
Proof.
  unfold resolved_as. destruct (m x) as [[b|f] x']; cbn; [by eauto|]. intros -> Ha. by eexists _, _.
Qed.

(** [m] does what [m'] does, or stays pending. *)
Definition same_or_pending {X A} (m m' : M X A) : Prop := ∀ x, (m x).1 = Fault Unresolved ∨ m x = m' x.

Lemma pending_refl {X A} (m : M X A) : same_or_pending m m.
Proof. intros x. by right. Qed.

Lemma pending_resolved {X A} (a : A) (m : M X A) : same_or_pending m (resolved_as a m).
Proof.
  intros x. unfold resolved_as. destruct (m x) as [[b|[]] x']; auto.
Qed.

Lemma pending_zoom {X Y A} proj upd (m m' : M Y A) :
  same_or_pending m m' → same_or_pending (zoom proj upd m : M X A) (zoom proj upd m').
Proof. intros Hm x. unfold zoom. destruct (Hm (proj x)) as [H| ->]; [|by right]. destruct (m _). by left. Qed.

Lemma pending_bind {X A B} (m m' : M X A) (f f' : A → M X B) :
  same_or_pending m m' → (∀ a, same_or_pending (f a) (f' a)) → same_or_pending (m ≫= f) (m' ≫= f').
Proof.
  intros Hm Hf x. unfold mbind, M_bind. destruct (Hm x) as [H| ->].
  - left. destruct (m x) as [r x']. cbn in H. by subst.
  - destruct (m' x) as [[a|e] x']; [apply Hf|by right].
Qed.

Lemma pending_await {X A B E} (m m' : M X (A + E)) (f f' : A → M X (B + E)) :
  same_or_pending m m' → (∀ a, same_or_pending (f a) (f' a)) →
  same_or_pending (await m f) (await m' f').
Proof. intros Hm Hf. apply pending_bind; [done|]. intros [a|e]; [apply Hf|apply pending_refl]. Qed.

