(* ===== verification/Crypto.v ===== *)
(** The cryptographic primitives the program calls.

    MonocypherCpp and Monocypher are git submodules whose code is not part of
    the repository. Their operations are the fields of the class
    [Primitives]; what the program relies on is the class [PrimitivesLaws].
    Every definition that calls a primitive takes a [Primitives] instance, and
    only theorems that need a law assume [PrimitivesLaws].

    All keys, nonces, signatures and digests are byte strings, as they are
    [byte_array<N>] in the source. A primitive is a function of the bytes its
    arguments hold when it is called, also when the caller passes the same
    memory as input and output.

    [Toy] at the end is a small executable instance that satisfies the laws;
    it is what the witnesses of the theorems run. *)
From Stdlib Require Import ZArith Lia Strings.Byte.
From stdpp Require Import base list numbers option tactics.
From S2P Require Import Prelude.

Open Scope Z_scope.

(** * Authenticated encryption *)

(** One authenticated cipher of [monocypher::session::encryption_key]:
    - [lock key nonce m] is the MAC and the ciphertext of [m];
      [unlock key nonce mac c] recovers [m], or fails;
    - [box key nonce m] and [unbox key nonce b] do the same with the MAC
      inside the output;
    - [unbox_failed_size] is the size of the [output_buffer] that a failed
      [unbox] call returns (a successful one returns the plaintext's size);
    - [residue old] is what a failed call leaves in an output region that held
      [old]. *)
Record Aead := {
  lock : bytes → bytes → bytes → bytes * bytes;
  unlock : bytes → bytes → bytes → bytes → option bytes;
  box : bytes → bytes → bytes → bytes;
  unbox : bytes → bytes → bytes → option bytes;
  unbox_failed_size : Z;
  residue : bytes → bytes;
}.

(** Sizes of the library's fixed-size types. *)
Definition sizeof_MAC : Z := 16.
Definition sizeof_nonce : Z := 24.

(** The size of the buffer an [unbox] call returns. *)
Definition unbox_size (a : Aead) (r : option bytes) : Z :=
  match r with Some m => len m | None => unbox_failed_size a end.

Class AeadLaws (a : Aead) := {
  lock_mac_len k n m : len (lock a k n m).1 = sizeof_MAC;
  lock_len k n m : length (lock a k n m).2 = length m;
  unlock_lock k n m : unlock a k n (lock a k n m).1 (lock a k n m).2 = Some m;
  unlock_len k n mac c m : unlock a k n mac c = Some m → length m = length c;
  box_len k n m : len (box a k n m) = len m + sizeof_MAC;
  unbox_box k n m : unbox a k n (box a k n m) = Some m;
  unbox_len k n b m : unbox a k n b = Some m → len b = len m + sizeof_MAC;
  unbox_failed_empty : unbox_failed_size a = 0;
  residue_len old : length (residue a old) = length old;
}.

(** * The primitives *)

Class Primitives := {
  (** [monocypher::ext::sha256::create] *)
  sha256 : bytes → bytes;
  (** [monocypher::hash<SHA512>::createMAC], key first *)
  hmac_sha512 : bytes → bytes → bytes;
  (** [signing_key<Ed25519>::get_public_key], [sign], [public_key::check] *)
  ed_public : bytes → bytes;
  ed_sign : bytes → bytes → bytes;
  ed_check : bytes → bytes → bytes → bool;
  (** [signing_key::as_key_exchange<X25519_Raw>] and
      [public_key::for_key_exchange<X25519_Raw>] *)
  as_key_exchange : bytes → bytes;
  for_key_exchange : bytes → bytes;
  (** [key_exchange<X25519_Raw>::get_public_key] and its product with a
      public key *)
  kx_public : bytes → bytes;
  kx_mult : bytes → bytes → bytes;
  (** [monocypher::ext::XSalsa20_Poly1305], and the cipher of
      [monocypher::session::key] *)
  xsalsa20 : Aead;
  xchacha20 : Aead;
  (** [++nonce] of [monocypher::session::nonce] *)
  nonce_incr : bytes → bytes;
  (** [monocypher::wipe]: what memory holds afterwards *)
  wipe : bytes → bytes;
  (** [byte_array<Size>::fillWithString] *)
  fillWithString : Z → bytes → bytes;
}.

(** [monocypher::session::nonce(0)], all zeroes. *)
Definition zero_nonce : bytes := replicate 24 x00.

Class PrimitivesLaws (P : Primitives) := {
  xsalsa20_laws :: AeadLaws xsalsa20;
  xchacha20_laws :: AeadLaws xchacha20;
  sha256_len m : len (sha256 m) = 32;
  hmac_sha512_len k m : len (hmac_sha512 k m) = 64;
  ed_public_len A : len (ed_public A) = 32;
  ed_sign_len A m : len (ed_sign A m) = 64;
  kx_public_len a : len (kx_public a) = 32;
  kx_mult_len a p : len (kx_mult a p) = 32;
  nonce_incr_len n : length (nonce_incr n) = length n;
  (** what is left does not depend on what was there *)
  wipe_len b : length (wipe b) = length b;
  wipe_forgets b b' : length b = length b' → wipe b = wipe b';
  (** the first bytes of the string, padded with zeroes *)
  fillWithString_pads n s : 0 <= n → fillWithString n s = vec_resize n s;
  (** a signature made with a key verifies under its public key *)
  ed_check_sign A m : ed_check (ed_public A) (ed_sign A m) m = true;
  (** Diffie-Hellman: both parties compute the same point *)
  kx_mult_comm a b : kx_mult a (kx_public b) = kx_mult b (kx_public a);
  (** the two conversions of an Ed25519 key pair give an X25519 key pair *)
  key_exchange_pair A : for_key_exchange (ed_public A) = kx_public (as_key_exchange A);
}.

#[export] Hint Rewrite @lock_len @lock_mac_len @box_len @residue_len @nonce_incr_len
  @ed_sign_len @ed_public_len @kx_public_len @unbox_failed_empty using (typeclasses eauto) : shs_rw.

(** The shared secret of a long-term and an ephemeral key, computed by the
    owner of the long-term key and by the owner of the ephemeral one. *)
Lemma mixed_dh {P : Primitives} {PL : PrimitivesLaws P} A b :
  kx_mult (as_key_exchange A) (kx_public b) = kx_mult b (for_key_exchange (ed_public A)).
Proof. by rewrite key_exchange_pair, kx_mult_comm. Qed.

(** [++] on a nonce that counts: for [n] up to [2^64] increments it never
    comes back to a value it had. *)
Class NonceCounts (P : Primitives) :=
  nonce_incr_fresh n i j :
    len n = sizeof_nonce → Z.of_nat i < Z.of_nat j → Z.of_nat j < 2 ^ 64 →
    Nat.iter i nonce_incr n ≠ Nat.iter j nonce_incr n.

(** * An executable instance *)

Module Toy.

(** [fit n l] is the first [n] bytes of [l], zero-padded. *)
Definition fit (n : nat) (l : bytes) : bytes := take n (l ++ replicate n x00).

#[global] Arguments fit : simpl never.

(** A checksum that depends on the position of each byte. *)
Fixpoint digest (acc : Z) (l : bytes) : Z :=
  match l with
  | [] => acc
  | b :: l => digest ((acc * 257 + b2z b + 1) mod 4294967291) l
  end.

Definition hash (n : nat) (l : bytes) : bytes :=
  let d := digest 1 l in (λ i, z2b (d / 2 ^ (Z.of_nat i mod 24) + Z.of_nat i)) <$> seq 0 n.

#[global] Arguments hash : simpl never.

Definition add (x y : byte) : byte := z2b (b2z x + b2z y).
Definition shift (d : Z) (l : bytes) : bytes := (λ b, z2b (b2z b + d)) <$> l.

Definition mac (k n m : bytes) : bytes := hash 16 (k ++ n ++ m).

#[global] Arguments mac : simpl never.

Definition toy_unlock (k n t c : bytes) : option bytes :=
  if bool_decide (t = mac k n (shift (-1) c)) then Some (shift (-1) c) else None.

Definition aead : Aead := {|
  lock k n m := (mac k n m, shift 1 m);
  unlock := toy_unlock;
  box k n m := mac k n m ++ shift 1 m;
  unbox k n b := if 16 <=? len b then toy_unlock k n (take 16 b) (drop 16 b) else None;
  unbox_failed_size := 0;
  residue old := old;
|}.

(** Little-endian increment. *)
Fixpoint incr (n : bytes) : bytes :=
  match n with
  | [] => []
  | b :: n => if b2z b =? 255 then x00 :: incr n else z2b (b2z b + 1) :: n
  end.

#[export] Instance prims : Primitives := {|
  sha256 := hash 32;
  hmac_sha512 k m := hash 64 (k ++ m);
  ed_public A := fit 32 A;
  ed_sign A m := hash 64 (fit 32 A ++ m);
  ed_check pk s m := bool_decide (s = hash 64 (pk ++ m));
  as_key_exchange A := A;
  for_key_exchange p := p;
  kx_public a := fit 32 a;
  kx_mult a p := zip_with add (fit 32 a) (fit 32 p);
  xsalsa20 := aead;
  xchacha20 := aead;
  nonce_incr := incr;
  wipe b := replicate (length b) x00;
  fillWithString n s := vec_resize n s;
|}.

(** The number a little-endian byte string stands for. *)
Fixpoint le_val (n : bytes) : Z :=
  match n with [] => 0 | b :: n => b2z b + 256 * le_val n end.

Lemma length_hash n l : length (hash n l) = n.
Proof. unfold hash. by rewrite length_fmap, length_seq. Qed.

Lemma length_fit n l : length (fit n l) = n.
Proof. unfold fit. len_lia. Qed.

Lemma fit_fit n l : fit n (fit n l) = fit n l.
Proof. unfold fit at 1. apply take_app_length'. by rewrite length_fit. Qed.

Lemma shift_shift l : shift (-1) (shift 1 l) = l.
Proof.
  unfold shift. rewrite <-list_fmap_compose. transitivity (id <$> l).
  - apply list_fmap_ext. intros i b _. simpl. apply b2z_inj.
    rewrite !b2z_z2b. pose proof (b2z_range b).
    rewrite Zplus_mod_idemp_l. rewrite Z.mod_small; lia.
  - apply list_fmap_id.
Qed.

Lemma length_shift d l : length (shift d l) = length l.
Proof. apply length_fmap. Qed.

Lemma toy_unlock_lock k n m : toy_unlock k n (mac k n m) (shift 1 m) = Some m.
Proof. unfold toy_unlock. rewrite shift_shift. by rewrite bool_decide_eq_true_2. Qed.

Lemma toy_unlock_len k n t c m : toy_unlock k n t c = Some m → length m = length c.
Proof. unfold toy_unlock. case_bool_decide; [|done]. intros [= <-]. apply length_shift. Qed.

#[export] Instance aead_laws : AeadLaws aead.
Proof.
  constructor; intros.
  - cbn. unfold mac. by rewrite length_hash.
  - apply length_shift.
  - apply toy_unlock_lock.
  - cbn in *. eauto using toy_unlock_len.
  - cbn. unfold mac, sizeof_MAC. rewrite length_app, length_hash, length_shift. lia.
  - cbn [aead box unbox]. unfold mac. rewrite length_app, length_hash, length_shift. ztest.
    rewrite take_app_length', drop_app_length' by (by rewrite length_hash).
    apply toy_unlock_lock.
  - cbn [aead unbox] in H. destruct (16 <=? len b) eqn:E; [|done]. zbool.
    apply toy_unlock_len in H. unfold sizeof_MAC. len_lia.
  - done.
  - done.
Qed.

Lemma length_incr n : length (incr n) = length n.
Proof. induction n as [|b n IH]; simpl; [done|]. destruct (_ =? _); simpl; lia. Qed.

#[export] Instance prims_laws : PrimitivesLaws prims.
Proof.
  assert (Hcomm : ∀ l k, zip_with add l k = zip_with add k l).
  { induction l as [|x l IH]; intros [|y k]; cbn; try done.
    f_equal; [|done]. unfold add. by rewrite Z.add_comm. }
  constructor; try apply _; intros; cbn;
    rewrite ?length_zip_with, ?length_hash, ?length_fit, ?length_incr, ?length_replicate; try done.
  all: try congruence.
  - by apply bool_decide_eq_true_2.
  - rewrite !fit_fit. apply Hcomm.
Qed.

Lemma le_val_range n : 0 <= le_val n < 256 ^ len n.
Proof.
  induction n as [|b n IH]; simpl le_val; [done|].
  rewrite length_cons, Nat2Z.inj_succ, Z.pow_succ_r by lia.
  pose proof (b2z_range b). lia.
Qed.

Lemma le_val_incr n : le_val (incr n) = (le_val n + 1) mod 256 ^ len n.
Proof.
  induction n as [|b n IH]; [done|].
  rewrite length_cons, Nat2Z.inj_succ, Z.pow_succ_r by lia.
  pose proof (b2z_range b) as Hb. pose proof (le_val_range n) as Hn.
  simpl. destruct (b2z b =? 255) eqn:E; zbool; simpl.
  - rewrite E, IH. change (b2z x00) with 0.
    replace (255 + 256 * le_val n + 1) with (256 * (le_val n + 1)) by lia.
    rewrite Z.mul_mod_distr_l; lia.
  - rewrite b2z_z2b, (Z.mod_small (b2z b + 1)) by lia.
    rewrite Z.mod_small; lia.
Qed.

Lemma length_iter_incr i n : length (Nat.iter i incr n) = length n.
Proof. induction i; simpl; [done|]. by rewrite length_incr. Qed.

Lemma le_val_iter_incr i n :
  le_val (Nat.iter i incr n) = (le_val n + Z.of_nat i) mod 256 ^ len n.
Proof.
  pose proof (le_val_range n). induction i as [|i IH].
  - change (Nat.iter 0 incr n) with n. rewrite Z.mod_small; lia.
  - change (Nat.iter (S i) incr n) with (incr (Nat.iter i incr n)).
    rewrite le_val_incr, length_iter_incr, IH, Zplus_mod_idemp_l.
    f_equal. lia.
Qed.

#[export] Instance nonce_counts : NonceCounts prims.
Proof.
  intros n i j Hn Hij Hj Heq%(f_equal le_val). simpl in Heq.
  rewrite !le_val_iter_incr, Hn in Heq. unfold sizeof_nonce in *.
  set (B := 256 ^ 24) in *. assert (2 ^ 64 < B) by done.
  apply Z.cong_iff_0 in Heq.
  replace (le_val n + Z.of_nat i - (le_val n + Z.of_nat j))
    with (- (Z.of_nat j - Z.of_nat i)) in Heq by lia.
  assert ((Z.of_nat j - Z.of_nat i) mod B = Z.of_nat j - Z.of_nat i) as Hd
    by (apply Z.mod_small; lia).
  rewrite Z.mod_opp_l_nz, Hd in Heq; lia.
Qed.

End Toy.
