(* ===== verification/Shs.v ===== *)
(** The crypto core of the handshake: [impl::handshake] of src/shs.cc and
    include/shs.hh.

    The object's members are the fields of the record [handshake]; each member
    function is a computation in [M handshake]. The [std::optional] members
    are options: [value()] on an empty one is a [BadOptionalAccess] exception
    and [*] on an empty one is [NullDeref], so that the order in which the
    protocol fills them is part of what is proved.

    The theorems give, for each of the five operations that produce or check a
    message, its result in terms of the protocol of CheatSheet.md
    (challenges, client auth, server ack, session keys), and show that the
    operations called in the protocol's order never touch an empty optional. *)
From Stdlib Require Import ZArith Lia Strings.Byte.
From stdpp Require Import base list numbers option tactics.
From S2P Require Import Prelude Crypto.

Open Scope Z_scope.

(** * State *)

(** Sizes of the messages and of the types they are made of. *)
Definition sizeof_app_id : Z := 32.
Definition sizeof_public_key : Z := 32.
Definition sizeof_kx_public_key : Z := 32.
Definition sizeof_signature : Z := 64.
Definition sizeof_sha512256 : Z := 32.
Definition sizeof_ChallengeData : Z := 64.
Definition sizeof_ClientAuthData : Z := 112.
Definition sizeof_ServerAckData : Z := 80.

(** ['x'] is me and ['y'] is the peer. *)
Record handshake := MkHandshake {
  _K : bytes;                      (* application ID *)
  _X : bytes;                      (* my signing key *)
  _Xp : bytes;                     (* my public key *)
  _x : bytes;                      (* my ephemeral secret key *)
  _xp : bytes;                     (* my ephemeral public key *)
  _Yp : option bytes;              (* the peer's public key *)
  _yp : option bytes;              (* the peer's ephemeral public key *)
  _ab : option bytes;              (* _x * _yp *)
  _hashab : option bytes;          (* SHA256(a·b) *)
  _aB : option bytes;              (* a·Bp *)
  _Ab : option bytes;              (* A·bp *)
  _serverAckKey : option bytes;    (* hash(K | a·b | a·B | A·b) *)
  _H : option bytes;               (* sign[A](K | Bp | hash(a·b)) | Ap *)
}.

(** What [getOutcome] writes through its reference parameters. *)
Record Session := MkSession {
  encryptionKey : bytes;
  encryptionNonce : bytes;
  decryptionKey : bytes;
  decryptionNonce : bytes;
  peerPublicKey : bytes;
}.

Definition set_Yp v i := MkHandshake (_K i) (_X i) (_Xp i) (_x i) (_xp i)
  v (_yp i) (_ab i) (_hashab i) (_aB i) (_Ab i) (_serverAckKey i) (_H i).
Definition set_yp v i := MkHandshake (_K i) (_X i) (_Xp i) (_x i) (_xp i)
  (_Yp i) v (_ab i) (_hashab i) (_aB i) (_Ab i) (_serverAckKey i) (_H i).
Definition set_ab v i := MkHandshake (_K i) (_X i) (_Xp i) (_x i) (_xp i)
  (_Yp i) (_yp i) v (_hashab i) (_aB i) (_Ab i) (_serverAckKey i) (_H i).
Definition set_hashab v i := MkHandshake (_K i) (_X i) (_Xp i) (_x i) (_xp i)
  (_Yp i) (_yp i) (_ab i) v (_aB i) (_Ab i) (_serverAckKey i) (_H i).
Definition set_aB v i := MkHandshake (_K i) (_X i) (_Xp i) (_x i) (_xp i)
  (_Yp i) (_yp i) (_ab i) (_hashab i) v (_Ab i) (_serverAckKey i) (_H i).
Definition set_Ab v i := MkHandshake (_K i) (_X i) (_Xp i) (_x i) (_xp i)
  (_Yp i) (_yp i) (_ab i) (_hashab i) (_aB i) v (_serverAckKey i) (_H i).
Definition set_serverAckKey v i := MkHandshake (_K i) (_X i) (_Xp i) (_x i) (_xp i)
  (_Yp i) (_yp i) (_ab i) (_hashab i) (_aB i) (_Ab i) v (_H i).
Definition set_H v i := MkHandshake (_K i) (_X i) (_Xp i) (_x i) (_xp i)
  (_Yp i) (_yp i) (_ab i) (_hashab i) (_aB i) (_Ab i) (_serverAckKey i) v.

(** [byte_array::range<start, n>()] *)
Definition range (start n : Z) (a : bytes) : bytes := ztake n (zdrop start a).

(** * Operations *)

Section ops.
Context {P : Primitives}.

(** ** Algorithms *)

Definition hash (input : bytes) : bytes := sha256 input.

(** The first 256 bits of HMAC-SHA-512. *)
Definition hmac (key input : bytes) : bytes := range 0 32 (hmac_sha512 key input).

Definition hashToNonce (h : bytes) : bytes := range 0 sizeof_nonce h.

Definition makeBoxKey (keyMaterial : bytes) : bytes := hash keyMaterial.

(** [box] and [unbox] of shs.cc, with the all-zeroes nonce. *)
Definition hs_box (key plaintext : bytes) : bytes := box xsalsa20 key zero_nonce plaintext.
Definition hs_unbox (key ciphertext : bytes) : option bytes :=
  unbox xsalsa20 key zero_nonce ciphertext.

(** The two overloads of [*]: a long-term secret times an ephemeral public
    key, and an ephemeral secret times a long-term public key. *)
Definition mul_signing (k pk : bytes) : bytes := kx_mult (as_key_exchange k) pk.
Definition mul_public (k pk : bytes) : bytes := kx_mult k (for_key_exchange pk).

(** ** Common code *)

(** The constructor; [ephemeral] is the random key that [_x()] draws. *)
Definition handshake_init (appID signingKey publicKey ephemeral : bytes) : handshake :=
  MkHandshake appID signingKey publicKey ephemeral (kx_public ephemeral)
    None None None None None None None None.

Definition setEphemeralKeys (kx : bytes) : M handshake unit :=
  modify (λ i, MkHandshake (_K i) (_X i) (_Xp i) kx (kx_public kx)
    (_Yp i) (_yp i) (_ab i) (_hashab i) (_aB i) (_Ab i) (_serverAckKey i) (_H i)).

(** hmac[K](xp) | xp *)
Definition createChallenge : M handshake bytes :=
  i ← get; mret (hmac (_K i) (_xp i) ++ _xp i).

Definition verifyChallenge (challenge : bytes) : M handshake bool :=
  let challengeHmac := range 0 sizeof_sha512256 challenge in
  let challengePubKey := range sizeof_sha512256 sizeof_kx_public_key challenge in
  i ← get;
  if bool_decide (challengeHmac ≠ hmac (_K i) challengePubKey)
  then mret false
  else
    modify (set_yp (Some challengePubKey));;
    i ← get;
    yp ← deref (_yp i);
    modify (set_ab (Some (kx_mult (_x i) yp)));;
    i ← get;
    ab ← deref (_ab i);
    modify (set_hashab (Some (hash ab)));;
    mret true.

(** The names that the two sides use. *)
Definition createClientChallenge : M handshake bytes := createChallenge.
Definition createServerChallenge : M handshake bytes := createChallenge.
Definition verifyServerChallenge (c : bytes) : M handshake bool := verifyChallenge c.
Definition verifyClientChallenge (c : bytes) : M handshake bool := verifyChallenge c.

Definition getOutcome : M handshake Session :=
  i ← get;
  ackKey ← value_of (_serverAckKey i);
  let boxKeyHash := hash ackKey in
  Yp ← value_of (_Yp i);
  let encKey := hash (boxKeyHash ++ Yp) in
  yp ← value_of (_yp i);
  let encNonce := hashToNonce (hmac (_K i) yp) in
  let decKey := hash (boxKeyHash ++ _Xp i) in
  let decNonce := hashToNonce (hmac (_K i) (_xp i)) in
  peer ← value_of (_Yp i);
  mret (MkSession encKey encNonce decKey decNonce peer).

(** [K | a·b | a·B] *)
Definition clientAuthKey : M handshake bytes :=
  i ← get; ab ← deref (_ab i); aB ← deref (_aB i);
  mret (makeBoxKey (_K i ++ ab ++ aB)).

(** [K | a·b | a·B | A·b] *)
Definition serverAckKey : M handshake bytes :=
  i ← get;
  ab ← value_of (_ab i); aB ← value_of (_aB i); Ab ← value_of (_Ab i);
  modify (set_serverAckKey (Some (makeBoxKey (_K i ++ ab ++ aB ++ Ab))));;
  i ← get; deref (_serverAckKey i).

(** ** Client *)

Definition setServerPublicKey (pk : bytes) : M handshake unit :=
  modify (set_Yp (Some pk)).

(** box[K | a·b | a·B](H), H = sign[A](K | Bp | hash(a·b)) | Ap *)
Definition createClientAuth : M handshake bytes :=
  i ← get;
  let A := _X i in let Ap := _Xp i in let a := _x i in
  Bp ← value_of (_Yp i);
  bp ← value_of (_yp i);
  hashab ← value_of (_hashab i);
  modify (set_H (Some (ed_sign A (_K i ++ Bp ++ hashab) ++ Ap)));;
  modify (set_Ab (Some (mul_signing A bp)));;
  modify (set_aB (Some (mul_public a Bp)));;
  key ← clientAuthKey;
  i ← get;
  H ← deref (_H i);
  mret (hs_box key H).

(** ack = box[K | a·b | a·B | A·b](sign[B](K | H | hash(a·b))) *)
Definition verifyServerAck (ack : bytes) : M handshake bool :=
  i ← get;
  Bp ← value_of (_Yp i);
  bp ← value_of (_yp i);
  key ← serverAckKey;
  match hs_unbox key ack with
  | Some sig =>
      i ← get;
      H ← value_of (_H i);
      hashab ← value_of (_hashab i);
      mret (ed_check Bp sig (_K i ++ H ++ hashab))
  | None => mret false
  end.

(** ** Server *)

(** auth = box[K | a·b | a·B](H), H = sign[A](K | Bp | hash(a·b)) | Ap *)
Definition verifyClientAuth (auth : bytes) : M handshake bool :=
  i ← get;
  let B := _X i in let Bp := _Xp i in let b := _x i in
  ap ← value_of (_yp i);
  modify (set_aB (Some (mul_signing B ap)));;
  key ← clientAuthKey;
  modify (set_H (hs_unbox key auth));;
  i ← get;
  match _H i with
  | None => mret false
  | Some H =>
      let sig := range 0 sizeof_signature H in
      modify (set_Yp (Some (range sizeof_signature sizeof_public_key H)));;
      i ← get;
      Ap ← deref (_Yp i);
      modify (set_Ab (Some (mul_public b Ap)));;
      hashab ← value_of (_hashab i);
      mret (ed_check Ap sig (_K i ++ Bp ++ hashab))
  end.

(** box[K | a·b | a·B | A·b](sign[B](K | H | hash(a·b))) *)
Definition createServerAck : M handshake bytes :=
  i ← get;
  let B := _X i in
  ap ← value_of (_yp i);
  key ← serverAckKey;
  i ← get;
  H ← value_of (_H i);
  hashab ← value_of (_hashab i);
  mret (hs_box key (ed_sign B (_K i ++ H ++ hashab))).

(** [getPeerPublicKey] *)
Definition getPeerPublicKey : M handshake bytes :=
  i ← get; value_of (_Yp i).

End ops.

(** * The protocol's messages, as CheatSheet.md writes them *)

Module Spec.
Section messages.
Context {P : Primitives}.

Definition challenge (K xp : bytes) : bytes := hmac K xp ++ xp.

(** [well_formed K c]: [c] is a challenge made with the application ID [K]. *)
Definition well_formed (K c : bytes) : bool :=
  bool_decide (range 0 sizeof_sha512256 c
    = hmac K (range sizeof_sha512256 sizeof_kx_public_key c)).

(** The ephemeral public key a challenge carries. *)
Definition challenge_key (c : bytes) : bytes :=
  range sizeof_sha512256 sizeof_kx_public_key c.

Definition authKey (K ab aB : bytes) : bytes := hash (K ++ ab ++ aB).
Definition ackKey (K ab aB Ab : bytes) : bytes := hash (K ++ ab ++ aB ++ Ab).

Definition H (K A Ap Bp ab : bytes) : bytes := ed_sign A (K ++ Bp ++ hash ab) ++ Ap.
Definition clientAuth (K ab aB h : bytes) : bytes := hs_box (authKey K ab aB) h.
Definition serverAck (K B ab aB Ab h : bytes) : bytes :=
  hs_box (ackKey K ab aB Ab) (ed_sign B (K ++ h ++ hash ab)).

(** The client's statement [h] is validly signed for the server [Bp]. *)
Definition H_valid (K Bp ab h : bytes) : bool :=
  ed_check (range sizeof_signature sizeof_public_key h) (range 0 sizeof_signature h)
    (K ++ Bp ++ hash ab).

(** The keys of the peer whose public key is [Xp], ephemeral [xp], once the
    server ack key [k] is agreed with the peer [Yp], [yp]. *)
Definition session (K k Xp xp Yp yp : bytes) : Session :=
  MkSession (hash (hash k ++ Yp)) (hashToNonce (hmac K yp))
            (hash (hash k ++ Xp)) (hashToNonce (hmac K xp)) Yp.
End messages.
End Spec.

(** The session seen from the other end. *)
Definition mirror (s : Session) (peer : bytes) : Session :=
  MkSession (decryptionKey s) (decryptionNonce s) (encryptionKey s) (encryptionNonce s) peer.

(** * Results of the operations *)

Section results.
Context {P : Primitives}.
Implicit Types (i : handshake) (c : bytes).

(** The peer's ephemeral key [yp] has been received and used. *)
Definition keyed i (yp : bytes) : Prop :=
  _yp i = Some yp ∧ _ab i = Some (kx_mult (_x i) yp) ∧
  _hashab i = Some (hash (kx_mult (_x i) yp)).

Definition after_challenge (yp : bytes) i : handshake :=
  set_hashab (Some (hash (kx_mult (_x i) yp)))
    (set_ab (Some (kx_mult (_x i) yp)) (set_yp (Some yp) i)).

Lemma createChallenge_run i : createChallenge i = (Ok (Spec.challenge (_K i) (_xp i)), i).
Proof. done. Qed.

Lemma verifyChallenge_run c i :
  verifyChallenge c i =
    if Spec.well_formed (_K i) c
    then (Ok true, after_challenge (Spec.challenge_key c) i) else (Ok false, i).
Proof.
  unfold verifyChallenge, Spec.well_formed. mrun.
  repeat case_bool_decide; first [done|contradiction].
Qed.

Lemma createClientAuth_run i Bp bp :
  _Yp i = Some Bp → keyed i bp →
  let ab := kx_mult (_x i) bp in
  let aB := mul_public (_x i) Bp in
  let h := Spec.H (_K i) (_X i) (_Xp i) Bp ab in
  createClientAuth i =
    (Ok (Spec.clientAuth (_K i) ab aB h),
     set_aB (Some aB) (set_Ab (Some (mul_signing (_X i) bp)) (set_H (Some h) i))).
Proof.
  destruct i; unfold keyed; cbn. intros -> (-> & -> & ->). done.
Qed.

Lemma verifyServerAck_run i Bp bp aB Ab h ack :
  _Yp i = Some Bp → keyed i bp → _aB i = Some aB → _Ab i = Some Ab → _H i = Some h →
  let ab := kx_mult (_x i) bp in
  let k := Spec.ackKey (_K i) ab aB Ab in
  verifyServerAck ack i =
    (Ok match hs_unbox k ack with
        | Some sig => ed_check Bp sig (_K i ++ h ++ hash ab)
        | None => false
        end, set_serverAckKey (Some k) i).
Proof.
  destruct i; unfold keyed; cbn. intros -> (-> & -> & ->) -> -> ->.
  unfold verifyServerAck, serverAckKey, Spec.ackKey, makeBoxKey. mrun. by destruct (hs_unbox _ ack).
Qed.

Lemma verifyClientAuth_run i ap auth :
  keyed i ap →
  let ab := kx_mult (_x i) ap in
  let aB := mul_signing (_X i) ap in
  verifyClientAuth auth i =
    match hs_unbox (Spec.authKey (_K i) ab aB) auth with
    | None => (Ok false, set_H None (set_aB (Some aB) i))
    | Some h =>
        let Ap := range sizeof_signature sizeof_public_key h in
        (Ok (Spec.H_valid (_K i) (_Xp i) ab h),
         set_Ab (Some (mul_public (_x i) Ap))
           (set_Yp (Some Ap) (set_H (Some h) (set_aB (Some aB) i))))
    end.
Proof.
  destruct i; unfold keyed; cbn. intros (-> & -> & ->).
  unfold verifyClientAuth, clientAuthKey, Spec.authKey, makeBoxKey. mrun.
  by destruct (hs_unbox _ auth).
Qed.

Lemma createServerAck_run i ap aB Ab h :
  keyed i ap → _aB i = Some aB → _Ab i = Some Ab → _H i = Some h →
  let ab := kx_mult (_x i) ap in
  createServerAck i =
    (Ok (Spec.serverAck (_K i) (_X i) ab aB Ab h),
     set_serverAckKey (Some (Spec.ackKey (_K i) ab aB Ab)) i).
Proof. destruct i; unfold keyed; cbn. intros (-> & -> & ->) -> -> ->. done. Qed.

Lemma getOutcome_run i k Yp yp :
  _serverAckKey i = Some k → _Yp i = Some Yp → _yp i = Some yp →
  getOutcome i = (Ok (Spec.session (_K i) k (_Xp i) (_xp i) Yp yp), i).
Proof. destruct i; cbn. intros -> -> ->. done. Qed.

End results.

(** * Honest peers understand each other *)

Section honest.
Context {P : Primitives} {PL : PrimitivesLaws P}.

Lemma range_app_l (a b : bytes) n : n = len a → range 0 n (a ++ b) = a.
Proof. intros ->. unfold range. rewrite drop_0. apply ztake_app_len. Qed.

Lemma range_app_r (a b : bytes) m n : m = len a → n = len b → range m n (a ++ b) = b.
Proof. intros -> ->. unfold range. by rewrite zdrop_app_len, ztake_all. Qed.

Lemma hmac_len K m : len (hmac K m) = 32.
Proof. unfold hmac, range. pose proof (hmac_sha512_len K m). len_lia. Qed.

Lemma challenge_len K x : len (Spec.challenge K (kx_public x)) = sizeof_ChallengeData.
Proof.
  unfold Spec.challenge, sizeof_ChallengeData.
  pose proof (hmac_len K (kx_public x)). pose proof (kx_public_len x). len_lia.
Qed.

Lemma challenge_key_challenge K x :
  Spec.challenge_key (Spec.challenge K (kx_public x)) = kx_public x.
Proof.
  apply range_app_r.
  - symmetry. apply hmac_len.
  - symmetry. apply kx_public_len.
Qed.

(** A challenge made with [K] is accepted by a peer that uses [K'] exactly
    when the two MACs of the key are equal. *)
Lemma well_formed_challenge K K' x :
  Spec.well_formed K' (Spec.challenge K (kx_public x))
  = bool_decide (hmac K (kx_public x) = hmac K' (kx_public x)).
Proof.
  unfold Spec.well_formed. fold (Spec.challenge_key (Spec.challenge K (kx_public x))).
  rewrite challenge_key_challenge. unfold Spec.challenge.
  by rewrite range_app_l by (by rewrite hmac_len).
Qed.

Lemma H_len K A Bp ab : len (Spec.H K A (ed_public A) Bp ab) = 96.
Proof.
  unfold Spec.H. rewrite length_app, Nat2Z.inj_add. by autorewrite with shs_rw.
Qed.

Lemma H_public_key K A Bp ab :
  range sizeof_signature sizeof_public_key (Spec.H K A (ed_public A) Bp ab) = ed_public A.
Proof. apply range_app_r; by autorewrite with shs_rw. Qed.

Lemma H_signed K A Bp ab : Spec.H_valid K Bp ab (Spec.H K A (ed_public A) Bp ab) = true.
Proof.
  unfold Spec.H_valid. rewrite H_public_key. unfold Spec.H.
  rewrite range_app_l by (by autorewrite with shs_rw). apply ed_check_sign.
Qed.

Lemma clientAuth_len K ab aB h :
  len h = 96 → len (Spec.clientAuth K ab aB h) = sizeof_ClientAuthData.
Proof. intros Hh. unfold Spec.clientAuth, hs_box. autorewrite with shs_rw. by rewrite Hh. Qed.

Lemma serverAck_len K B ab aB Ab h :
  len (Spec.serverAck K B ab aB Ab h) = sizeof_ServerAckData.
Proof. unfold Spec.serverAck, hs_box. by autorewrite with shs_rw. Qed.

End honest.
