(* ===== verification/Handshake.v ===== *)
(** The handshake state machine: [Handshake], [ClientHandshake] and
    [ServerHandshake] of src/SecretHandshake.cc and include/SecretHandshake.hh,
    with the types of include/SecretHandshakeTypes.hh they use.

    A [Handshake] object is a record of the members of the C++ class, with a
    [kind] that stands for the subclass (and its own member). The virtual
    functions dispatch on the kind. Every public operation is a computation in
    [M Handshake]; the buffers it returns pointers to are the fields
    [_inputBuffer] and [_outputBuffer], and [fillInput] is the caller's copy
    into the buffer that [bytesToRead] returned.

    The step relation [api_step] lets the application make any call, in any
    order and with any bytes; [reachable] is its closure from a constructor.
    The theorems: no call sequence reaches an empty optional or a wrapped-around
    size, and an assertion fails in one case only (a message reported as sent
    after the handshake has failed); the error flag is set exactly in the
    failed state, which is permanent; a peer reaches [Finished] only after the
    other one's signature has been checked against this very session. *)
From Stdlib Require Import ZArith Lia Strings.Byte.
From stdpp Require Import base list numbers option tactics relations.
From S2P Require Import Prelude Crypto Shs.

Open Scope Z_scope.

(** * Types *)

(** [KeyPair]: 32 bytes of signing key and 32 of public key, contiguous. *)
Record KeyPair := MkKeyPair { signingKey : bytes; publicKey : bytes }.

Record Context := MkContext { appID : bytes; keyPair : KeyPair }.

Inductive Error := NoError | ProtocolError | AuthError.

Inductive Step :=
| Failed | ClientChallenge | ServerChallenge | ClientAuth | ServerAck | Finished.

(** The subclass of a handshake; a server has an optional authorizer. *)
Inductive kind :=
| Client
| Server (_clientAuth : option (bytes → bool)).

Record Handshake := MkHs {
  h_kind : kind;
  _context : Context;
  _step : Step;
  _error : Error;
  _impl : handshake;
  _inputBuffer : bytes;
  _outputBuffer : bytes;
}.

#[global] Instance Error_eq_dec : EqDecision Error.
Proof. solve_decision. Defined.
#[global] Instance Step_eq_dec : EqDecision Step.
Proof. solve_decision. Defined.

Definition Error_val (e : Error) : Z :=
  match e with NoError => 0 | ProtocolError => 1 | AuthError => 2 end.

(** The enumerators' values. *)
Definition Step_val (s : Step) : Z :=
  match s with
  | Failed => 0 | ClientChallenge => 1 | ServerChallenge => 2
  | ClientAuth => 3 | ServerAck => 4 | Finished => 5
  end.

(** [Step(n)], for the values that are enumerators. *)
Definition Step_of (n : Z) : Step :=
  if n =? 1 then ClientChallenge else if n =? 2 then ServerChallenge
  else if n =? 3 then ClientAuth else if n =? 4 then ServerAck
  else if n =? 5 then Finished else Failed.

Definition set_step v h := MkHs (h_kind h) (_context h) v (_error h) (_impl h)
  (_inputBuffer h) (_outputBuffer h).
Definition set_error v h := MkHs (h_kind h) (_context h) (_step h) v (_impl h)
  (_inputBuffer h) (_outputBuffer h).
Definition set_impl v h := MkHs (h_kind h) (_context h) (_step h) (_error h) v
  (_inputBuffer h) (_outputBuffer h).
Definition set_inputBuffer v h := MkHs (h_kind h) (_context h) (_step h) (_error h)
  (_impl h) v (_outputBuffer h).
Definition set_outputBuffer v h := MkHs (h_kind h) (_context h) (_step h) (_error h)
  (_impl h) (_inputBuffer h) v.

(** A call on the crypto object [_impl]. *)
Definition on_impl {A} (m : M handshake A) : M Handshake A := zoom _impl set_impl m.

Section ops.
Context {P : Primitives}.

(** * Key pairs *)

Definition KeyPair_of_signingKey (sk : bytes) : KeyPair := MkKeyPair sk (ed_public sk).

(** [KeyPair::generate]; [seed] is what the random generator gave. *)
Definition KeyPair_generate (seed : bytes) : KeyPair := KeyPair_of_signingKey seed.

(** What the destructors leave in memory. *)
Definition KeyPair_destroy (kp : KeyPair) : KeyPair := MkKeyPair (wipe (signingKey kp)) (publicKey kp).

(** The members of a session, in the order they have in memory. *)
Definition Session_bytes (s : Session) : bytes :=
  encryptionKey s ++ encryptionNonce s ++ decryptionKey s ++ decryptionNonce s ++ peerPublicKey s.

Definition Session_destroy (s : Session) : bytes := wipe (Session_bytes s).

Definition appIDFromString (str : bytes) : bytes := fillWithString 32 str.

(** The constructor of [Context] that takes a string. *)
Definition Context_of_string (str : bytes) (kp : KeyPair) : Context :=
  MkContext (appIDFromString str) kp.

(** [memcpy(&signingKey, &bytes, 64)], which covers both members. *)
Definition KeyPair_of_bytes (b : bytes) : KeyPair := MkKeyPair (take 32 b) (take 32 (drop 32 b)).

Definition KeyPair_data (kp : KeyPair) : bytes := signingKey kp ++ publicKey kp.

Definition KeyPair_eqb (kp1 kp2 : KeyPair) : bool :=
  bool_decide (signingKey kp1 = signingKey kp2) && bool_decide (publicKey kp1 = publicKey kp2).

(** * Constructors *)

(** [ephemeral] is the key pair the crypto object draws at random. *)
Definition Handshake_init (k : kind) (c : Context) (ephemeral : bytes) : Handshake :=
  MkHs k c ClientChallenge NoError
    (handshake_init (appID c) (signingKey (keyPair c)) (publicKey (keyPair c)) ephemeral) [] [].

Definition ClientHandshake (c : Context) (theirPublicKey ephemeral : bytes) : Handshake :=
  (on_impl (setServerPublicKey theirPublicKey) (Handshake_init Client c ephemeral)).2.

Definition ServerHandshake (c : Context) (ephemeral : bytes) : Handshake :=
  Handshake_init (Server None) c ephemeral.

Definition setClientAuthorizer (a : bytes → bool) (h : Handshake) : Handshake :=
  match h_kind h with
  | Client => h
  | Server _ => MkHs (Server (Some a)) (_context h) (_step h) (_error h) (_impl h)
                  (_inputBuffer h) (_outputBuffer h)
  end.

(** * Virtual functions *)

Definition client_byteCountNeeded (st : Step) : Z :=
  match st with
  | ServerChallenge => sizeof_ChallengeData
  | ServerAck => sizeof_ServerAckData
  | _ => 0
  end.

Definition server_byteCountNeeded (st : Step) : Z :=
  match st with
  | ClientChallenge => sizeof_ChallengeData
  | ClientAuth => sizeof_ClientAuthData
  | _ => 0
  end.

Definition byteCountNeeded (h : Handshake) : Z :=
  match h_kind h with
  | Client => client_byteCountNeeded (_step h)
  | Server _ => server_byteCountNeeded (_step h)
  end.

Definition client_receivedBytes (b : bytes) : M Handshake bool :=
  h ← get;
  match _step h with
  | ServerChallenge => on_impl (verifyChallenge (ztake sizeof_ChallengeData b))
  | ServerAck => on_impl (verifyServerAck (ztake sizeof_ServerAckData b))
  | _ => mret false
  end.

Definition server_receivedBytes (auth : option (bytes → bool)) (b : bytes) : M Handshake bool :=
  h ← get;
  match _step h with
  | ClientChallenge => on_impl (verifyChallenge (ztake sizeof_ChallengeData b))
  | ClientAuth =>
      ok ← on_impl (verifyClientAuth (ztake sizeof_ClientAuthData b));
      if ok : bool then
        match auth with
        | None => mret true
        | Some f => pk ← on_impl getPeerPublicKey; mret (f pk)
        end
      else mret false
  | _ => mret false
  end.

Definition _receivedBytes (b : bytes) : M Handshake bool :=
  h ← get;
  match h_kind h with
  | Client => client_receivedBytes b
  | Server auth => server_receivedBytes auth b
  end.

(** [spaceFor<T>(output) = ...]: the buffer becomes the message. *)
Definition spaceFor (d : bytes) : M Handshake unit := modify (set_outputBuffer d).

Definition client_fillOutputBuffer : M Handshake unit :=
  h ← get;
  match _step h with
  | ClientChallenge => d ← on_impl createClientChallenge; spaceFor d
  | ClientAuth => d ← on_impl createClientAuth; spaceFor d
  | _ => mret tt
  end.

Definition server_fillOutputBuffer : M Handshake unit :=
  h ← get;
  match _step h with
  | ServerChallenge => d ← on_impl createServerChallenge; spaceFor d
  | ServerAck => d ← on_impl createServerAck; spaceFor d
  | _ => mret tt
  end.

Definition _fillOutputBuffer : M Handshake unit :=
  h ← get;
  match h_kind h with
  | Client => client_fillOutputBuffer
  | Server _ => server_fillOutputBuffer
  end.

(** * The state machine *)

Definition nextStep : M Handshake unit :=
  h ← get;
  assert_ ((Step_val Failed <? Step_val (_step h)) && (Step_val (_step h) <? Step_val Finished));;
  modify (set_step (Step_of (Step_val (_step h) + 1))).

Definition failed : M Handshake unit :=
  h ← get;
  modify (set_error (if Step_val (_step h) <? Step_val ClientAuth
                     then ProtocolError else AuthError));;
  modify (set_step Failed).

Definition bytesToRead : M Handshake Z :=
  h ← get;
  let needed := byteCountNeeded h in
  modify (set_inputBuffer (vec_resize needed (_inputBuffer h)));;
  mret needed.

(** The caller's copy into the buffer returned by [bytesToRead]. *)
Definition fillInput (src : bytes) : M Handshake unit :=
  h ← get;
  b ← in_bounds (mwrite (_inputBuffer h) 0 src);
  modify (set_inputBuffer b).

Definition readCompleted : M Handshake bool :=
  h ← get;
  if negb (len (_inputBuffer h) =? byteCountNeeded h) then throw LogicError
  else
    ok ← _receivedBytes (_inputBuffer h);
    if ok : bool then
      nextStep;; modify (set_inputBuffer []);; mret true
    else failed;; mret false.

Definition readFailed : M Handshake unit := failed.

(** [src] holds the [count] bytes passed in. *)
Definition receivedBytes (src : bytes) : M Handshake Z :=
  h ← get;
  if bool_decide (_step h = Failed ∨ _step h = Finished) then mret (-1)
  else
    let needed := byteCountNeeded h in
    if needed =? 0 then mret 0
    else
      let count := Z.min (len src) (size_sub needed (len (_inputBuffer h))) in
      modify (set_inputBuffer (_inputBuffer h ++ ztake count src));;
      h ← get;
      (if len (_inputBuffer h) <? needed then mret tt
       else readCompleted;; mret tt);;
      h ← get;
      mret (if bool_decide (_step h ≠ Failed) then count else -1).

(** Returns the bytes at the returned pointer. *)
Definition bytesToSend : M Handshake bytes :=
  h ← get;
  if bool_decide (_step h = Failed ∨ _step h = Finished) then mret []
  else
    (if bool_decide (_outputBuffer h = []) then _fillOutputBuffer else mret tt);;
    h ← get;
    mret (_outputBuffer h).

Definition sendCompleted : M Handshake unit :=
  h ← get;
  if bool_decide (_outputBuffer h = []) then throw LogicError
  else modify (set_outputBuffer []);; nextStep.

(** Returns the count and the bytes copied to [dst]. *)
Definition copyBytesToSend (maxCount : Z) : M Handshake (Z * bytes) :=
  h ← get;
  if bool_decide (_step h = Failed) then mret (-1, [])
  else
    go ← (if bool_decide (_outputBuffer h = [])
          then b ← bytesToSend; mret (negb (len b =? 0)) else mret true);
    if negb go then mret (0, [])
    else
      h ← get;
      let count := Z.min (len (_outputBuffer h)) maxCount in
      let copied := ztake count (_outputBuffer h) in
      modify (set_outputBuffer (zdrop count (_outputBuffer h)));;
      h ← get;
      (if bool_decide (_outputBuffer h = []) then nextStep else mret tt);;
      mret (count, copied).

Definition finished (h : Handshake) : bool := bool_decide (_step h = Finished).

Definition session : M Handshake Session :=
  h ← get;
  if bool_decide (_step h ≠ Finished) then throw LogicError
  else on_impl getOutcome.

(** * The application's calls *)

(** One call on the public interface, with its arguments. *)
Inductive call :=
| CallBytesToRead
| CallFillInput (src : bytes)
| CallReadCompleted
| CallReadFailed
| CallReceivedBytes (src : bytes)
| CallBytesToSend
| CallSendCompleted
| CallCopyBytesToSend (maxCount : Z)
| CallSession.

(** Runs a call, forgetting what it returns. *)
Definition do_call (c : call) : M Handshake unit :=
  match c with
  | CallBytesToRead => bytesToRead;; mret tt
  | CallFillInput src => fillInput src
  | CallReadCompleted => readCompleted;; mret tt
  | CallReadFailed => readFailed
  | CallReceivedBytes src => receivedBytes src;; mret tt
  | CallBytesToSend => bytesToSend;; mret tt
  | CallSendCompleted => sendCompleted
  | CallCopyBytesToSend n => copyBytesToSend n;; mret tt
  | CallSession => session;; mret tt
  end.

(** What the types and the memory model ask of the arguments: a [size_t] is
    not negative, and the caller copies no more into the buffer it was given
    than that buffer holds. The order of the calls is free. *)
Definition call_ok (h : Handshake) (c : call) : Prop :=
  match c with
  | CallFillInput src => len src <= len (_inputBuffer h)
  | CallCopyBytesToSend n => 0 <= n
  | _ => True
  end.

(** An exception leaves the object in the state it was thrown in. *)
Inductive api_step : Handshake → Handshake → Prop :=
| api_call h c r h' : call_ok h c → do_call c h = (r, h') → api_step h h'.

(** Freshly constructed objects. *)
Inductive initial : Handshake → Prop :=
| initial_client c pk e : initial (ClientHandshake c pk e)
| initial_server c e : initial (ServerHandshake c e)
| initial_server_auth c e f : initial (setClientAuthorizer f (ServerHandshake c e)).

Definition reachable (h : Handshake) : Prop := ∃ h0, initial h0 ∧ rtc api_step h0 h.

(** * The invariant *)

(** It is this peer's turn to send. *)
Definition sending (h : Handshake) : bool :=
  match h_kind h, _step h with
  | Client, ClientChallenge | Client, ClientAuth
  | Server _, ServerChallenge | Server _, ServerAck => true
  | _, _ => false
  end.

(** The client has made its statement [H] for the server [Bp], after the
    exchange of ephemeral keys with [bp]. *)
Definition client_sent (i : handshake) (Bp bp h : bytes) : Prop :=
  _Yp i = Some Bp ∧ keyed i bp ∧
  _aB i = Some (mul_public (_x i) Bp) ∧ _Ab i = Some (mul_signing (_X i) bp) ∧
  _H i = Some h ∧ h = Spec.H (_K i) (_X i) (_Xp i) Bp (kx_mult (_x i) bp).

(** The client has received [ack], which opens under the session's key to a
    signature by [Bp] of the client's statement and the session. *)
Definition client_done (i : handshake) (Bp bp h ack : bytes) : Prop :=
  let ab := kx_mult (_x i) bp in
  let k := Spec.ackKey (_K i) ab (mul_public (_x i) Bp) (mul_signing (_X i) bp) in
  client_sent i Bp bp h ∧ _serverAckKey i = Some k ∧ len ack = sizeof_ServerAckData ∧
  ∃ sig, hs_unbox k ack = Some sig ∧ ed_check Bp sig (_K i ++ h ++ hash ab) = true.

Definition authorized (auth : option (bytes → bool)) (Ap : bytes) : Prop :=
  match auth with None => True | Some f => f Ap = true end.

(** The server has received [msg], which opens under the session's key to a
    statement [h] that the owner of [Ap] signed for this server and this
    session, and [Ap] is authorized. *)
Definition server_authed (auth : option (bytes → bool)) (i : handshake) (Ap ap h msg : bytes) : Prop :=
  let ab := kx_mult (_x i) ap in
  let aB := mul_signing (_X i) ap in
  keyed i ap ∧ _aB i = Some aB ∧ _H i = Some h ∧
  len msg = sizeof_ClientAuthData ∧ hs_unbox (Spec.authKey (_K i) ab aB) msg = Some h ∧
  Ap = range sizeof_signature sizeof_public_key h ∧
  _Yp i = Some Ap ∧ _Ab i = Some (mul_public (_x i) Ap) ∧
  Spec.H_valid (_K i) (_Xp i) ab h = true ∧ authorized auth Ap.

Definition server_done (auth : option (bytes → bool)) (i : handshake) (Ap ap h msg : bytes) : Prop :=
  server_authed auth i Ap ap h msg ∧
  _serverAckKey i = Some (Spec.ackKey (_K i) (kx_mult (_x i) ap) (mul_signing (_X i) ap)
                            (mul_public (_x i) Ap)).

(** What the crypto object holds at each step. *)
Definition progress (h : Handshake) : Prop :=
  let i := _impl h in
  match h_kind h, _step h with
  | Client, ClientChallenge | Client, ServerChallenge => is_Some (_Yp i)
  | Client, ClientAuth =>
      is_Some (_Yp i) ∧ (∃ bp, keyed i bp) ∧
      (_outputBuffer h ≠ [] → ∃ Bp bp s, client_sent i Bp bp s)
  | Client, ServerAck => ∃ Bp bp s, client_sent i Bp bp s
  | Client, Finished => ∃ Bp bp s ack, client_done i Bp bp s ack
  | Server _, ServerChallenge | Server _, ClientAuth => ∃ ap, keyed i ap
  | Server f, ServerAck =>
      (∃ Ap ap s msg, server_authed f i Ap ap s msg) ∧
      (_outputBuffer h ≠ [] → ∃ Ap ap s msg, server_done f i Ap ap s msg)
  | Server f, Finished => ∃ Ap ap s msg, server_done f i Ap ap s msg
  | _, _ => True
  end.

Record inv (h : Handshake) : Prop := {
  inv_error : _error h = NoError ↔ _step h ≠ Failed;
  inv_out : _outputBuffer h ≠ [] → sending h = true ∨ _step h = Failed;
  inv_in : _step h ≠ Failed → len (_inputBuffer h) <= byteCountNeeded h;
  inv_progress : progress h;
}.

(** The parts of the object that no call changes. *)
Definition same_keys (i i' : handshake) : Prop :=
  _K i' = _K i ∧ _X i' = _X i ∧ _Xp i' = _Xp i ∧ _x i' = _x i ∧ _xp i' = _xp i.

Definition same_identity (h h' : Handshake) : Prop :=
  h_kind h' = h_kind h ∧ _context h' = _context h ∧ same_keys (_impl h) (_impl h') ∧
  (h_kind h = Client → _Yp (_impl h') = _Yp (_impl h)).

(** The application reports that a message was sent, after the handshake has
    failed with that message still pending. *)
Definition send_after_failure (h : Handshake) (c : call) : Prop :=
  c = CallSendCompleted ∧ _step h = Failed ∧ _outputBuffer h ≠ [].

(** What a call from [h] may do: the only exception is [std::logic_error]. *)
Definition call_post {A} (h : Handshake) (r : outcome A) (h' : Handshake) : Prop :=
  inv h' ∧ same_identity h h' ∧ (_step h = Failed → _step h' = Failed) ∧
  ∀ e, r = Fault e → e = LogicError.

(** The same for [c], which fails the assertion of [nextStep] in one case. *)
Definition call_made {A} (h : Handshake) (c : call) (r : outcome A) (h' : Handshake) : Prop :=
  inv h' ∧ same_identity h h' ∧ (_step h = Failed → _step h' = Failed) ∧
  match r with
  | Ok _ => ¬ send_after_failure h c
  | Fault e => e = LogicError ∧ ¬ send_after_failure h c ∨ e = AssertFailed ∧ send_after_failure h c
  end.

End ops.

(** * Preservation of the invariant *)

Section preservation.
Context {P : Primitives}.
Implicit Types h : Handshake.

Lemma same_identity_refl h : same_identity h h.
Proof. by unfold same_identity, same_keys. Qed.

Lemma same_identity_trans h1 h2 h3 :
  same_identity h1 h2 → same_identity h2 h3 → same_identity h1 h3.
Proof.
  unfold same_identity, same_keys. intros (Hk & ?) (Hk' & ?).
  destruct_and!. split_and!; try congruence. intros Hc.
  rewrite <-Hk in Hc. naive_solver congruence.
Qed.

(** The authorizer is consulted only after the signature has been checked. *)
Lemma received_clientAuth f ctx err i ib ob b ap :
  keyed i ap → len b = sizeof_ClientAuthData →
  let h := MkHs (Server f) ctx ClientAuth err i ib ob in
  ∃ ok i', _receivedBytes b h = (Ok ok, set_impl i' h) ∧ same_keys i i' ∧
    (ok = true → ∃ Ap s, server_authed f i' Ap ap s b).
Proof.
  intros Hk Hb h. unfold _receivedBytes, client_receivedBytes, server_receivedBytes, on_impl, getPeerPublicKey, h. mrun.
  rewrite ztake_all by lia. rw_let (verifyClientAuth_run i ap b Hk).
  destruct (hs_unbox _ b) as [s|] eqn:E; [|by eexists false, _].
  set (Ap := range sizeof_signature sizeof_public_key s).
  set (i' := set_Ab _ _).
  assert (Spec.H_valid (_K i) (_Xp i) (kx_mult (_x i) ap) s = true → authorized f Ap →
          server_authed f i' Ap ap s b) as Hauth.
  { intros Hv Hf. destruct i, Hk as (? & ? & ?). cbn in *. by split_and!. }
  destruct (Spec.H_valid _ _ _ _) eqn:Ev; cbn; [|by eexists false, _].
  destruct f as [f|]; [exists (f Ap), i'|exists true, i'];
    (split; [done|split; [done|]]); intros Hf; exists Ap, s; by apply Hauth.
Qed.

(** A checked message moves the crypto object to the next step. *)
Lemma receivedBytes_spec h b :
  inv h → 0 < byteCountNeeded h → len b = byteCountNeeded h →
  ∃ ok i', _receivedBytes b h = (Ok ok, set_impl i' h) ∧
    same_identity h (set_impl i' h) ∧
    (ok = true → progress (set_step (Step_of (Step_val (_step h) + 1)) (set_impl i' h))).
Proof.
  intros [_ Hout _ Hpr] Hn Hb.
  destruct h as [[|f] ctx [] err i ib ob]; cbn in *; try lia;
    unfold progress, sending in *; cbn in *.
  - (* client, server challenge *)
    unfold _receivedBytes, client_receivedBytes, server_receivedBytes, on_impl. mrun. rewrite ztake_all by lia.
    rewrite verifyChallenge_run. destruct (Spec.well_formed _ _); eexists _, _; split; try done.
    split; [done|]. intros _. split_and!; [done|by eexists|].
    intros Ho. by destruct (Hout Ho).
  - (* client, server ack *)
    destruct Hpr as (Bp & bp & s & HYp & Hk & HaB & HAb & HH & Hs).
    unfold _receivedBytes, client_receivedBytes, server_receivedBytes, on_impl. mrun. rewrite ztake_all by lia.
    rw_let (verifyServerAck_run i Bp bp _ _ s b HYp Hk HaB HAb HH).
    eexists _, _. split; [done|]. split; [done|]. cbn.
    destruct (hs_unbox _ b) as [sig|] eqn:E; [|done]. intros Hc.
    exists Bp, bp, s, b. destruct i. split_and!; try done. by exists sig.
  - (* server, client challenge *)
    unfold _receivedBytes, client_receivedBytes, server_receivedBytes, on_impl. mrun. rewrite ztake_all by lia.
    rewrite verifyChallenge_run. destruct (Spec.well_formed _ _); eexists _, _; split; try done.
    split; [done|]. intros _. by eexists.
  - (* server, client auth *)
    destruct Hpr as (ap & Hk).
    destruct (received_clientAuth f ctx err i ib ob b ap Hk Hb) as (ok & i' & Hr & Hsk & Hok).
    exists ok, i'. split; [done|]. split; [by split_and!|]. intros ->.
    destruct (Hok eq_refl) as (Ap & s & ?). split; [by exists Ap, ap, s, b|].
    intros Ho. by destruct (Hout Ho).
Qed.

(** Producing a message leaves the object ready to move on. *)
Lemma fillOutputBuffer_spec h :
  inv h → sending h = true → _outputBuffer h = [] →
  ∃ d i', _fillOutputBuffer h = (Ok tt, set_outputBuffer d (set_impl i' h)) ∧
    same_identity h (set_impl i' h) ∧ inv (set_outputBuffer d (set_impl i' h)).
Proof.
  intros [He Hout Hin Hpr] Hs Ho.
  destruct h as [[|f] ctx [] err i ib ob]; try discriminate Hs; cbn in Ho; subst ob;
    unfold progress in Hpr; cbn in He, Hin, Hpr.
  - (* client challenge *)
    eexists _, i. do 2 (split; [done|]). constructor; try done; by left.
  - (* client auth *)
    destruct Hpr as ([Bp HYp] & (bp & Hk) & _).
    unfold _fillOutputBuffer, client_fillOutputBuffer, server_fillOutputBuffer, spaceFor, on_impl. mrun. rw_let (createClientAuth_run i Bp bp HYp Hk).
    eexists _, _. do 2 (split; [done|]).
    constructor; try done; [by left|]. destruct i. unfold progress; cbn in *.
    split_and!; [done|by eexists|]. intros _. by eexists Bp, bp, _.
  - (* server challenge *)
    eexists _, i. do 2 (split; [done|]). constructor; try done; by left.
  - (* server ack *)
    destruct Hpr as ((Ap & ap & s & msg & Hsa) & _).
    pose proof Hsa as (Hk & HaB & HH & ? & ? & ? & HYp & HAb & ?).
    unfold _fillOutputBuffer, client_fillOutputBuffer, server_fillOutputBuffer, spaceFor, on_impl. mrun.
    rw_let (createServerAck_run i ap _ _ s Hk HaB HAb HH).
    eexists _, _. split; [done|]. split; [done|].
    constructor; try done; [by left|]. unfold progress; cbn.
    split; [by exists Ap, ap, s, msg|]. intros _. by exists Ap, ap, s, msg.
Qed.

Lemma fillOutputBuffer_idle h : sending h = false → _fillOutputBuffer h = (Ok tt, h).
Proof. by destruct h as [[|] ? [] ? ? ? ?]. Qed.

Lemma nextStep_run h :
  _step h ≠ Failed → _step h ≠ Finished →
  nextStep h = (Ok tt, set_step (Step_of (Step_val (_step h) + 1)) h).
Proof. by destruct h as [? ? [] ? ? ? ?]. Qed.

Lemma sending_step h : sending h = true →
  _step h ≠ Failed ∧ _step h ≠ Finished ∧ byteCountNeeded h = 0.
Proof. by destruct h as [[|] ? [] ? ? ? ?]. Qed.

Lemma needed_step h : 0 < byteCountNeeded h →
  _step h ≠ Failed ∧ _step h ≠ Finished ∧ sending h = false.
Proof. by destruct h as [[|] ? [] ? ? ? ?]. Qed.

(** In a state that has not failed a message is pending only on the sender's
    turn. *)
Lemma inv_sending h : inv h → _step h ≠ Failed → _outputBuffer h ≠ [] → sending h = true.
Proof. intros Hi Hf Ho. by destruct (inv_out h Hi Ho). Qed.

Lemma inv_output_empty h :
  inv h → _step h ≠ Failed → sending h = false → _outputBuffer h = [].
Proof.
  intros Hi Hf Hs. destruct (decide (_outputBuffer h = [])) as [|Ho]; [done|].
  by rewrite (inv_sending h Hi Hf Ho) in Hs.
Qed.

(** Sending the pending message takes the object to the next step. *)
Lemma sent_inv h :
  inv h → _step h ≠ Failed → _outputBuffer h ≠ [] →
  inv (set_step (Step_of (Step_val (_step h) + 1)) (set_outputBuffer [] h)).
Proof.
  intros Hi Hf Ho. pose proof (inv_sending h Hi Hf Ho) as Hout. destruct Hi as [He _ Hin Hpr].
  destruct h as [[|f] ctx [] err i ib ob]; try discriminate Hout; cbn in *;
    assert (err = NoError) as -> by (by apply He); specialize (Hin ltac:(done));
    constructor; try done; try (intros _; transitivity 0; [exact Hin|done]);
    unfold progress in *; cbn in *.
  - by destruct Hpr as (_ & _ & Hc); apply Hc.
  - by destruct Hpr as (_ & Hc); apply Hc.
Qed.

(** So does accepting a message. *)
Lemma accepted_inv h i' :
  inv h → 0 < byteCountNeeded h →
  progress (set_step (Step_of (Step_val (_step h) + 1)) (set_impl i' h)) →
  inv (set_inputBuffer [] (set_step (Step_of (Step_val (_step h) + 1)) (set_impl i' h))).
Proof.
  intros Hi Hn Hpr. destruct (needed_step h Hn) as (? & ? & Hs).
  pose proof (inv_output_empty h Hi ltac:(done) Hs) as Ho. destruct Hi as [He _ _ _].
  destruct h as [[|f] ctx [] err i ib ob]; cbn in *; try lia; subst ob;
    assert (err = NoError) as -> by (by apply He); by constructor.
Qed.

(** A pending message stays where it is when the handshake fails. *)
Lemma failed_inv h :
  ∃ h', failed h = (Ok tt, h') ∧ inv h' ∧ same_identity h h' ∧ _step h' = Failed ∧
    _outputBuffer h' = _outputBuffer h.
Proof.
  eexists. split; [done|]. cbn.
  destruct h as [[|] ? ? ? ? ? ?]; cbn in *;
    (split; [|by split_and!]); constructor; cbn; try done; try (by right); split; try done; by case_match.
Qed.

Lemma received_idle h b : byteCountNeeded h = 0 → _receivedBytes b h = (Ok false, h).
Proof. by destruct h as [[|] ? [] ? ? ? ?]. Qed.

Lemma needed_nonneg h : 0 <= byteCountNeeded h.
Proof. by destruct h as [[|] ? [] ? ? ? ?]. Qed.

Lemma call_post_same {A} h (r : outcome A) :
  inv h → (∀ e, r = Fault e → e = LogicError) → call_post h r h.
Proof. intros. split_and!; auto using same_identity_refl. Qed.

(** [readCompleted] with a buffer of the wrong size throws; with the right
    one it either accepts the message and moves on, or fails. *)
Lemma readCompleted_cases h :
  inv h →
  (len (_inputBuffer h) ≠ byteCountNeeded h ∧ readCompleted h = (Fault LogicError, h)) ∨
  (len (_inputBuffer h) = byteCountNeeded h ∧ ∃ h', readCompleted h = (Ok false, h') ∧
     inv h' ∧ same_identity h h' ∧ _step h' = Failed ∧ _outputBuffer h' = _outputBuffer h) ∨
  (len (_inputBuffer h) = byteCountNeeded h ∧ ∃ h', readCompleted h = (Ok true, h') ∧
     inv h' ∧ same_identity h h' ∧ 0 < byteCountNeeded h ∧
     _step h' = Step_of (Step_val (_step h) + 1) ∧ _inputBuffer h' = [] ∧ _outputBuffer h' = []).
Proof.
  intros Hi. unfold readCompleted. mrun.
  destruct (len (_inputBuffer h) =? byteCountNeeded h) eqn:Eb; zbool; cbn; [right|by left].
  pose proof (needed_nonneg h) as Hnn.
  destruct (decide (byteCountNeeded h = 0)) as [Hz|Hz].
  - left. split; [done|]. rewrite received_idle by done.
    destruct (failed_inv h) as (h' & -> & ?). by exists h'.
  - destruct (receivedBytes_spec h (_inputBuffer h) Hi ltac:(lia) Eb)
      as ([] & i' & -> & Hid & Hpr).
    + right. split; [done|]. destruct (needed_step h ltac:(lia)) as (? & ? & ?).
      rewrite nextStep_run by done. eexists. split; [done|].
      split_and!; try done; [|lia|by apply (inv_output_empty h)].
      by apply (accepted_inv h i'); [| lia | apply Hpr].
    + left. split; [done|]. destruct (failed_inv (set_impl i' h)) as (h' & -> & ? & ? & ? & ?).
      exists h'. split_and!; eauto using same_identity_trans.
Qed.

Lemma readCompleted_post h : inv h → wp readCompleted (call_post h) h.
Proof.
  intros Hi. unfold wp.
  destruct (readCompleted_cases h Hi)
    as [(_ & ->)|[(_ & h' & -> & ? & ? & ? & _)|(_ & h' & -> & ? & ? & Hn & _)]]; cbn.
  - apply call_post_same; [done|naive_solver].
  - by split_and!.
  - split_and!; try done. apply needed_step in Hn as (? & ?). done.
Qed.

Lemma bytesToRead_post h : inv h → wp bytesToRead (call_post h) h.
Proof.
  intros [He Hout Hin Hpr]. unfold wp, bytesToRead. mrun. split_and!; try done.
  destruct h as [[|] ? [] ? ? ib ?]; constructor; try done; intros _; cbn;
    by rewrite vec_resize_length.
Qed.

Lemma fillInput_post h src :
  inv h → len src <= len (_inputBuffer h) → wp (fillInput src) (call_post h) h.
Proof.
  intros [He Hout Hin Hpr] Hl. unfold wp, fillInput. mrun.
  destruct (mwrite (_inputBuffer h) 0 src) as [b|] eqn:E.
  - apply mwrite_length in E. cbn. split_and!; try done.
    constructor; try done. cbn. rewrite E. by destruct h.
  - unfold mwrite in E. destruct (_ && _) eqn:E2; [done|].
    apply andb_false_iff in E2 as [?|?]; zbool; lia.
Qed.

Lemma readFailed_post h : wp readFailed (call_post h) h.
Proof.
  unfold wp, readFailed.
  destruct (failed_inv h) as (h' & -> & ?). by destruct_and!; split_and!.
Qed.

Lemma receivedBytes_post h src : inv h → wp (receivedBytes src) (call_post h) h.
Proof.
  intros Hi. unfold wp, receivedBytes. mrun.
  case_bool_decide as Hst; [by apply call_post_same|].
  destruct (byteCountNeeded h =? 0) eqn:En; zbool; cbn; [by apply call_post_same|].
  pose proof (needed_nonneg h). destruct (needed_step h ltac:(lia)) as (? & ? & Hs).
  pose proof (inv_in h Hi ltac:(done)) as Hin.
  rewrite size_sub_exact by lia. set (count := Z.min _ _). set (h1 := set_inputBuffer _ h).
  assert (inv h1) as Hi1.
  { destruct Hi as [He Hout _ Hpr]. constructor; try done. intros _. cbn.
    change (byteCountNeeded h1) with (byteCountNeeded h). unfold count. len_lia. }
  destruct (_ <? _); cbn; [by split_and!|].
  destruct (readCompleted_cases h1 Hi1)
    as [(_ & ->)|[(_ & h' & -> & ? & ? & ? & _)|(_ & h' & -> & ? & ? & ?)]]; cbn;
    split_and!; try done. by intros e [= <-].
Qed.

(** [bytesToSend] returns the output buffer, unless there is nothing to say. *)
Lemma bytesToSend_cases h :
  inv h → ∃ b h', bytesToSend h = (Ok b, h') ∧ inv h' ∧ same_identity h h' ∧
    _step h' = _step h ∧ (b = [] ∨ b = _outputBuffer h').
Proof.
  intros Hi. pose proof (same_identity_refl h). unfold bytesToSend. mrun.
  case_bool_decide as Hst; [by eexists _, h; eauto 10|].
  case_bool_decide as Ho; [|by eexists _, h; eauto 10].
  destruct (sending h) eqn:Hs.
  - destruct (fillOutputBuffer_spec h Hi Hs Ho) as (d & i' & -> & ? & ?). cbn.
    by eexists _, _; eauto 10.
  - rewrite fillOutputBuffer_idle by done. by eexists _, h; eauto 10.
Qed.

(** A message that was pending when the handshake failed is dropped, and the
    assertion of [nextStep] fails. *)
Lemma dropped_inv h : inv h → _step h = Failed → inv (set_outputBuffer [] h).
Proof.
  intros [He _ Hin Hpr] Hf. constructor; try done.
  by destruct h as [[|] ? [] ? ? ? ?].
Qed.

Lemma sendCompleted_made h : inv h → wp sendCompleted (call_made h CallSendCompleted) h.
Proof.
  intros Hi. unfold wp, sendCompleted, call_made, send_after_failure. mrun.
  case_bool_decide as Ho.
  { split; [done|]. split; [apply same_identity_refl|]. split; [done|]. left. naive_solver. }
  destruct (decide (_step h = Failed)) as [Hf|Hf].
  - pose proof (dropped_inv h Hi Hf). destruct h as [? ? [] ? ? ? ?]; try done. cbn in *.
    split; [done|]. split; [done|]. split; [done|]. by right.
  - destruct (sending_step h (inv_sending h Hi Hf Ho)) as (_ & Hf' & _).
    rewrite nextStep_run by done. cbn. split; [by apply sent_inv|].
    split; [done|]. split; [done|]. by intros (_ & ? & _).
Qed.

(** Taking bytes out of a pending message. *)
Lemma partly_sent_inv h d : inv h → _outputBuffer h ≠ [] → inv (set_outputBuffer d h).
Proof.
  intros [He Hout Hin Hpr] Ho.
  constructor; try done; [by intros _; apply Hout|].
  destruct h as [[|] ? [] ? ? ? ?]; unfold progress in *; cbn in *; try done.
  - destruct Hpr as (? & ? & Hc). by eauto.
  - destruct Hpr as (? & Hc). by eauto.
Qed.

(** The copying part of [copyBytesToSend], on a non-empty buffer. *)
Lemma copy_out_post h n :
  inv h → _step h ≠ Failed → _outputBuffer h ≠ [] →
  let h1 := set_outputBuffer (zdrop n (_outputBuffer h)) h in
  let h2 := if bool_decide (_outputBuffer h1 = [])
            then set_step (Step_of (Step_val (_step h) + 1)) h1 else h1 in
  (if bool_decide (_outputBuffer h1 = []) then nextStep else mret tt) h1 = (Ok tt, h2) ∧
  inv h2 ∧ same_identity h h2.
Proof.
  intros Hi Hf Ho h1 h2. destruct (sending_step h (inv_sending h Hi Hf Ho)) as (_ & Hf' & _).
  unfold h2. case_bool_decide as Hd.
  - rewrite nextStep_run by done. split_and!; try done.
    unfold h1 in *. cbn in Hd. rewrite Hd. by apply sent_inv.
  - split_and!; try done. by apply partly_sent_inv.
Qed.

(** The part of [copyBytesToSend] that fills the buffer. *)
Lemma copy_fill h :
  inv h →
  ∃ go h1, (if bool_decide (_outputBuffer h = [])
            then b ← bytesToSend; mret (negb (len b =? 0)) else mret true) h = (Ok go, h1) ∧
    inv h1 ∧ same_identity h h1 ∧ _step h1 = _step h ∧ (go = true → _outputBuffer h1 ≠ []).
Proof.
  intros Hi. case_bool_decide as Ho.
  - destruct (bytesToSend_cases h Hi) as (b & h1 & Hb & ? & ? & ? & Hb').
    rewrite (bind_Ok _ _ _ _ _ Hb). eexists _, h1. split; [done|].
    split_and!; try done. destruct b; [done|]. by destruct Hb' as [|<-].
  - exists true, h. by split_and!.
Qed.

Lemma copyBytesToSend_post h n : inv h → wp (copyBytesToSend n) (call_post h) h.
Proof.
  intros Hi. unfold wp, copyBytesToSend. rewrite bind_get.
  case_bool_decide as Hf; [by apply call_post_same|].
  destruct (copy_fill h Hi) as (go & h1 & Hgo & Hi1 & Hid & Hst & Hne).
  rewrite (bind_Ok _ _ _ _ _ Hgo).
  destruct go; cbn [negb]; [|by cbn; split_and!; rewrite ?Hst].
  destruct (copy_out_post h1 (Z.min (len (_outputBuffer h1)) n) Hi1 ltac:(by rewrite Hst) (Hne eq_refl))
    as (Hr & ? & ?).
  rewrite bind_get, bind_modify.
  rewrite bind_get, (bind_Ok _ _ _ _ _ Hr). cbn.
  split_and!; eauto using same_identity_trans; [done|]. by intros e [=].
Qed.

Lemma session_post h : inv h → wp session (call_post h) h.
Proof.
  intros Hi. unfold wp, session. mrun.
  case_bool_decide as Hst; [apply call_post_same; naive_solver|].
  pose proof (inv_progress h Hi) as Hpr. unfold progress in Hpr.
  rewrite Hst in Hpr. unfold on_impl. mrun.
  destruct h as [[|f] ctx st err i ib ob]; cbn in *.
  - destruct Hpr as (Bp & bp & s & ack & (HYp & (Hyp & _) & _) & Hk & _).
    rewrite (getOutcome_run i _ _ _ Hk HYp Hyp). by apply call_post_same.
  - destruct Hpr as (Ap & ap & s & msg & ((Hyp & _) & _ & _ & _ & _ & _ & HYp & _) & Hk).
    rewrite (getOutcome_run i _ _ _ Hk HYp Hyp). by apply call_post_same.
Qed.

Lemma on_impl_run {A} (m : M handshake A) h r i' :
  m (_impl h) = (r, i') → on_impl m h = (r, set_impl i' h).
Proof. unfold on_impl, zoom. by intros ->. Qed.

Lemma session_run h k Yp yp :
  _step h = Finished → _serverAckKey (_impl h) = Some k → _Yp (_impl h) = Some Yp →
  _yp (_impl h) = Some yp →
  session h = (Ok (Spec.session (_K (_impl h)) k (_Xp (_impl h)) (_xp (_impl h)) Yp yp), h).
Proof.
  intros Hf Hk HY Hy. unfold session. rewrite bind_get.
  rewrite Hf, bool_decide_eq_false_2 by (intros H; by apply H).
  rewrite (on_impl_run _ _ _ _ (getOutcome_run _ _ _ _ Hk HY Hy)). by destruct h.
Qed.

Lemma bytesToSend_post h : inv h → wp bytesToSend (call_post h) h.
Proof.
  intros Hi. unfold wp. destruct (bytesToSend_cases h Hi) as (b & h' & -> & ? & ? & Hs & _).
  split_and!; try done. cbn. by rewrite Hs.
Qed.

(** A call other than [sendCompleted] whose result is forgotten. *)
Lemma call_made_post {A} h c (m : M Handshake A) :
  c ≠ CallSendCompleted → wp m (call_post h) h → wp (m ≫= λ _, mret tt) (call_made h c) h.
Proof.
  intros Hc Hm. apply wp_bind. revert Hm. apply wp_mono. unfold call_made, send_after_failure.
  intros [a|e] h' (? & ? & ? & He); (split; [done|split; [done|split; [done|]]]); [naive_solver|].
  left. naive_solver.
Qed.

Lemma call_made_unit h c (m : M Handshake unit) :
  c ≠ CallSendCompleted → wp m (call_post h) h → wp m (call_made h c) h.
Proof.
  intros Hc. apply wp_mono. unfold call_made, send_after_failure.
  intros r h' (? & ? & ? & He). split; [done|split; [done|split; [done|]]].
  destruct r; [naive_solver|]. left. naive_solver.
Qed.

Lemma sendCompleted_aborts h :
  _step h = Failed → _outputBuffer h ≠ [] →
  sendCompleted h = (Fault AssertFailed, set_outputBuffer [] h).
Proof.
  intros Hf Ho. unfold sendCompleted. mrun. rewrite bool_decide_eq_false_2 by done.
  by destruct h as [? ? [] ? ? ? ?].
Qed.

(** Every call keeps the invariant. *)
Lemma do_call_post h c : inv h → call_ok h c → wp (do_call c) (call_made h c) h.
Proof.
  intros Hi Hok. destruct c; cbn [do_call call_ok] in *; try apply call_made_post; try done.
  - by apply bytesToRead_post.
  - apply call_made_unit; [done|]. by apply fillInput_post.
  - by apply readCompleted_post.
  - apply call_made_unit; [done|]. by apply readFailed_post.
  - by apply receivedBytes_post.
  - by apply bytesToSend_post.
  - by apply sendCompleted_made.
  - by apply copyBytesToSend_post.
  - by apply session_post.
Qed.

Lemma initial_inv h : initial h → inv h.
Proof. intros []; constructor; try done; by eexists. Qed.

Lemma api_steps_inv h h' :
  inv h → rtc api_step h h' →
  inv h' ∧ same_identity h h' ∧ (_step h = Failed → _step h' = Failed).
Proof.
  intros Hi. induction 1 as [h|h h1 h' [h0 c r h1' Hok Hr] _ IH].
  { auto using same_identity_refl. }
  pose proof (do_call_post h0 c Hi Hok) as Hp. unfold wp in Hp. rewrite Hr in Hp.
  destruct Hp as (Hi1 & Hid & Hf & _). destruct (IH Hi1) as (? & ? & ?).
  split_and!; [done|by eapply same_identity_trans|auto].
Qed.

Lemma reachable_inv h : reachable h → inv h.
Proof. intros (h0 & H0 & Hr). eapply api_steps_inv; eauto using initial_inv. Qed.

(** The peer of a client's session is the server it was constructed for. *)
Lemma client_session_peer c Bp e h sess :
  rtc api_step (ClientHandshake c Bp e) h → _step h = Finished →
  session h = (Ok sess, h) → peerPublicKey sess = Bp.
Proof.
  intros Hs Hf Hsess. assert (initial (ClientHandshake c Bp e)) as H0 by constructor.
  destruct (api_steps_inv _ h (initial_inv _ H0) Hs) as (Hi & (Hk & _ & _ & HY) & _).
  pose proof (inv_progress h Hi) as Hpr. unfold progress in Hpr. rewrite Hf, Hk in Hpr.
  cbn in HY, Hpr. destruct Hpr as (Bp' & bp & s & ack & (HYp & (Hyp & _) & _) & Hak & _).
  rewrite HY in HYp by done. injection HYp as <-.
  rewrite (session_run h _ _ _ Hf Hak (HY eq_refl) Hyp) in Hsess. by simplify_eq.
Qed.
End preservation.

#[export] Hint Resolve same_identity_refl same_identity_trans reachable_inv : shs.

(** * Executable runs of the API *)

Section runs.
Context {P : Primitives}.

Definition call_okb (h : Handshake) (c : call) : bool :=
  match c with
  | CallFillInput src => len src <=? len (_inputBuffer h)
  | CallCopyBytesToSend n => 0 <=? n
  | _ => true
  end.

(** The state after a sequence of calls, if each of them may be made. *)
Fixpoint run_calls (cs : list call) (h : Handshake) : option Handshake :=
  match cs with
  | [] => Some h
  | c :: cs => if call_okb h c then run_calls cs (do_call c h).2 else None
  end.

Lemma call_okb_ok h c : call_okb h c = true → call_ok h c.
Proof.
  destruct c; cbn; intros H; try done; zbool; try done; by apply bool_decide_eq_true in H.
Qed.

Lemma run_calls_rtc cs h h' : run_calls cs h = Some h' → rtc api_step h h'.
Proof.
  revert h. induction cs as [|c cs IH]; cbn; intros h.
  - by intros [= ->].
  - destruct (call_okb h c) eqn:E; [|done]. intros Hr. eapply rtc_l; [|by apply IH].
    destruct (do_call c h) as [r h1] eqn:Ed. by eapply api_call; [apply call_okb_ok|].
Qed.
End runs.

(** A client and a server with the toy primitives, and the traffic between
    them. *)
Module Demo.
Import Toy.
Definition K : bytes := replicate 32 x4b.
Definition cctx : Context := MkContext K (KeyPair_of_signingKey (replicate 32 x41)).
Definition sctx : Context := MkContext K (KeyPair_of_signingKey (replicate 32 x42)).
Definition serverKey : bytes := publicKey (keyPair sctx).
Definition client0 : Handshake := ClientHandshake cctx serverKey (replicate 32 x61).
Definition server0 : Handshake := ServerHandshake sctx (replicate 32 x62).

(** The message [h] wants to send. *)
Definition outgoing (h : Handshake) : bytes :=
  match (bytesToSend h).1 with Ok b => b | Fault _ => [] end.
Definition sent (h : Handshake) : Handshake :=
  default h (run_calls [CallBytesToSend; CallSendCompleted] h).
Definition recv (msg : bytes) (h : Handshake) : Handshake :=
  default h (run_calls [CallBytesToRead; CallFillInput msg; CallReadCompleted] h).

Definition m1 : bytes := Eval vm_compute in outgoing client0.
Definition server1 : Handshake := Eval vm_compute in recv m1 server0.
Definition m2 : bytes := Eval vm_compute in outgoing server1.
Definition client1 : Handshake := Eval vm_compute in recv m2 (sent client0).
Definition m3 : bytes := Eval vm_compute in outgoing client1.
Definition server2 : Handshake := Eval vm_compute in recv m3 (sent server1).
Definition m4 : bytes := Eval vm_compute in outgoing server2.

Definition client_calls : list call :=
  [CallBytesToSend; CallSendCompleted; CallReceivedBytes m2;
   CallCopyBytesToSend 100; CallCopyBytesToSend 100; CallReceivedBytes m4].
Definition server_calls : list call :=
  [CallBytesToRead; CallFillInput m1; CallReadCompleted; CallBytesToSend; CallSendCompleted;
   CallReceivedBytes (take 50 m3); CallReceivedBytes (drop 50 m3);
   CallBytesToSend; CallSendCompleted].

Definition client_end : Handshake := default client0 (run_calls client_calls client0).
Definition server_end : Handshake := default server0 (run_calls server_calls server0).

Lemma client_run : rtc api_step client0 client_end.
Proof. apply (run_calls_rtc client_calls). vm_compute. reflexivity. Qed.

Lemma server_run : rtc api_step server0 server_end.
Proof. apply (run_calls_rtc server_calls). vm_compute. reflexivity. Qed.

Lemma both_finished : _step client_end = Finished ∧ _step server_end = Finished.
Proof. split; vm_compute; reflexivity. Qed.
End Demo.

(** * Properties *)

Section properties.
Context {P : Primitives}.


(** The error flag is set exactly when the handshake is in the failed
    state. *)
Lemma error_iff_failed h : reachable h → (_error h ≠ NoError ↔ _step h = Failed).
Proof.
  intros Hr. assert (inv h) as [He _ _ _] by auto with shs.
  destruct (decide (_step h = Failed)), (decide (_error h = NoError)); naive_solver.
Qed.

(** C34: A failed handshake stays failed through every later call: it has
    nothing to send, accepts no bytes, and yields no session. *)
Theorem failed_is_final h h' src n :
  reachable h → _step h = Failed → rtc api_step h h' →
  _step h' = Failed ∧ bytesToSend h' = (Ok [], h') ∧
  receivedBytes src h' = (Ok (-1), h') ∧ copyBytesToSend n h' = (Ok (-1, []), h') ∧
  session h' = (Fault LogicError, h').
Proof.
  intros Hr Hf Hs.
  destruct (api_steps_inv h h' ltac:(auto with shs) Hs) as (_ & _ & Hf').
  specialize (Hf' Hf). unfold bytesToSend, receivedBytes, copyBytesToSend, session. mrun.
  rewrite Hf'. split_and!; done.
Qed.

(** C33: The input buffer never holds more than the message the step waits
    for, so the subtraction in [receivedBytes] does not wrap around and the
    call never takes more than it was given; and a message is waiting to be
    sent only when it is this peer's turn to send. *)
Theorem buffers_bounded h src n h' :
  reachable h → _step h ≠ Failed →
  0 <= len (_inputBuffer h) <= byteCountNeeded h ∧
  (receivedBytes src h = (Ok n, h') → -1 <= n <= len src) ∧
  (_outputBuffer h ≠ [] → sending h = true ∧ byteCountNeeded h = 0).
Proof.
  intros Hr Hf. assert (inv h) as Hi by auto with shs. pose proof (inv_in h Hi Hf) as Hin.
  split; [lia|]. split.
  - unfold receivedBytes. mrun. case_bool_decide; [naive_solver lia|].
    destruct (_ =? 0); cbn; [naive_solver lia|]. rewrite size_sub_exact by done.
    destruct (_ <? _); cbn; [case_bool_decide; naive_solver lia|].
    destruct (readCompleted _) as [[b|e] h1]; cbn; [|done].
    case_bool_decide; naive_solver lia.
  - intros Ho. pose proof (inv_sending h Hi Hf Ho) as Hs. by destruct (sending_step h Hs) as (_ & _ & ?).
Qed.

(** C7: A server that finishes has received a 112-byte message that opens
    under the key only this session's parties can compute, to a statement
    signed with the long-term key [Ap] over the application ID, this server's
    public key and the hash of this session's shared secret; its authorizer
    accepted [Ap]; and its session is keyed by this exchange, with [Ap] as the
    peer. *)
Theorem server_finish_authentic f c e h :
  rtc api_step (MkHs (Server f) c ClientChallenge NoError
    (handshake_init (appID c) (signingKey (keyPair c)) (publicKey (keyPair c)) e) [] []) h →
  _step h = Finished →
  ∃ ap Ap s msg,
    let K := appID c in let B := signingKey (keyPair c) in let Bp := publicKey (keyPair c) in
    let ab := kx_mult e ap in let aB := mul_signing B ap in
    len msg = 112 ∧ hs_unbox (hash (K ++ ab ++ aB)) msg = Some s ∧
    Ap = range 64 32 s ∧ ed_check Ap (range 0 64 s) (K ++ Bp ++ hash ab) = true ∧
    authorized f Ap ∧
    session h = (Ok (Spec.session K (hash (K ++ ab ++ aB ++ mul_public e Ap))
                       Bp (kx_public e) Ap ap), h).
Proof.
  intros Hs Hf. set (h0 := MkHs _ _ _ _ _ _ _) in Hs.
  assert (inv h0) as Hi0 by (by constructor).
  destruct (api_steps_inv h0 h Hi0 Hs) as (Hi & (Hk & Hc & Hkeys & _) & _).
  pose proof (inv_progress h Hi) as Hpr. unfold progress in Hpr. rewrite Hf, Hk in Hpr.
  destruct Hkeys as (HK & HX & HXp & Hx & Hxp). cbn in HK, HX, HXp, Hx, Hxp, Hpr.
  destruct Hpr as (Ap & ap & s & msg & (Hkd & _ & _ & Hl & Hun & HAp & HYp & _ & Hv & Ha) & Hak).
  exists ap, Ap, s, msg. cbv zeta. rewrite HK, HX, Hx in Hun, Hak. rewrite HK, HXp, Hx in Hv.
  split_and!; try done; [by rewrite HAp|].
  unfold session. mrun. rewrite bool_decide_eq_false_2 by naive_solver. unfold on_impl. mrun.
  destruct Hkd as (Hyp & _). rewrite (getOutcome_run _ _ _ _ Hak HYp Hyp).
  by rewrite HK, HXp, Hxp; destruct h.
Qed.

(** C8: A client that finishes has received an 80-byte message that opens
    under the key of this session to a signature, valid under the server key
    the client was constructed with, over the application ID, the client's own
    statement and the hash of the shared secret; its session is keyed by this
    exchange and its peer is that server. *)
Theorem client_finish_authentic c Bp e h :
  rtc api_step (ClientHandshake c Bp e) h → _step h = Finished →
  ∃ bp ack sig,
    let K := appID c in let A := signingKey (keyPair c) in let Ap := publicKey (keyPair c) in
    let ab := kx_mult e bp in
    let k := hash (K ++ ab ++ mul_public e Bp ++ mul_signing A bp) in
    len ack = 80 ∧ hs_unbox k ack = Some sig ∧
    ed_check Bp sig (K ++ Spec.H K A Ap Bp ab ++ hash ab) = true ∧
    session h = (Ok (Spec.session K k Ap (kx_public e) Bp bp), h).
Proof.
  intros Hs Hf.
  destruct (api_steps_inv _ h (initial_inv _ (initial_client c Bp e)) Hs)
    as (Hi & (Hk & Hc & Hkeys & HY) & _).
  pose proof (inv_progress h Hi) as Hpr. unfold progress in Hpr. rewrite Hf, Hk in Hpr.
  destruct Hkeys as (HK & HX & HXp & Hx & Hxp). cbn in HK, HX, HXp, Hx, Hxp, HY, Hpr.
  destruct Hpr as (Bp' & bp & s & ack & (HYp & (Hyp & _) & _ & _ & _ & Hst) & Hak & Hl & sig & Hun & Hv).
  rewrite HY in HYp by done. injection HYp as <-. specialize (HY eq_refl).
  rewrite HK, HX, Hx in Hak, Hun. rewrite HK, Hx in Hv. rewrite HK, HX, HXp, Hx in Hst. subst s.
  exists bp, ack, sig. cbv zeta. split_and!; try done.
  unfold session. mrun. rewrite bool_decide_eq_false_2 by naive_solver. unfold on_impl. mrun.
  rewrite (getOutcome_run _ _ _ _ Hak HY Hyp). by rewrite HK, HXp, Hxp; destruct h.
Qed.

(** The error code tells the phase in which a read failed: a protocol
    error while the challenges are exchanged, an authentication error
    afterwards. This holds for a rejected message and for an early end of
    stream. *)
Theorem failure_code h :
  reachable h → 0 < byteCountNeeded h →
  let code := if bool_decide (_step h = ClientChallenge ∨ _step h = ServerChallenge)
              then ProtocolError else AuthError in
  _error (readFailed h).2 = code ∧
  (∀ h', readCompleted h = (Ok false, h') → _error h' = code ∧ _step h' = Failed).
Proof.
  intros Hr Hn code. split.
  { unfold code. destruct h as [[|] ? [] ? ? ? ?]; try done; cbn in Hn; lia. }
  intros h'. unfold readCompleted. mrun. destruct (_ =? _) eqn:Eb; cbn; [|done]. zbool.
  destruct (receivedBytes_spec h _ ltac:(auto with shs) Hn Eb) as ([] & i' & -> & _).
  - destruct (needed_step h Hn) as (? & ? & _). by rewrite nextStep_run.
  - intros [= <-]. unfold code. destruct h as [[|] ? [] ? ? ? ?]; try done; cbn in Hn; lia.
Qed.

(** The bytes of a key pair determine it: [KeyPair(data())] is the key
    pair, and [data()] of a key pair made from 64 bytes is those bytes; a key
    pair regenerated from its signing key alone has the right public key. *)
Lemma keypair_roundtrip kp b :
  len (signingKey kp) = 32 → len (publicKey kp) = 32 → len b = 64 →
  KeyPair_of_bytes (KeyPair_data kp) = kp ∧ KeyPair_data (KeyPair_of_bytes b) = b ∧
  (publicKey kp = ed_public (signingKey kp) → KeyPair_of_signingKey (signingKey kp) = kp).
Proof.
  destruct kp as [sk pk]. cbn. intros Hs Hp Hb. unfold KeyPair_of_bytes, KeyPair_data. cbn [signingKey publicKey].
  split_and!.
  - rewrite take_app_length', drop_app_length' by lia. by rewrite take_ge by lia.
  - rewrite (take_ge (drop 32 b)) by (rewrite length_drop; lia). apply take_drop.
  - by intros ->.
Qed.

(** An application that reports a failed read while a message is pending,
    and then that the message was sent, runs into the assertion of
    [nextStep]: [readFailed] does not discard the pending message. *)
Lemma send_after_failure_aborts h :
  _outputBuffer h ≠ [] → (readFailed;; sendCompleted) h
    = (Fault AssertFailed, set_outputBuffer [] (readFailed h).2).
Proof.
  intros Ho. unfold readFailed, failed. mrun. by apply sendCompleted_aborts.
Qed.

End properties.

(** * Witnesses *)

(** The theorems at work on the demonstration objects. *)
Section witnesses.
Import Toy Demo.

(** A server that has been sent garbage. *)
Definition server_failed : Handshake :=
  default server0 (run_calls [CallReceivedBytes (replicate 64 x00)] server0).

Lemma server0_reachable : reachable server0.
Proof. exists server0. split; [constructor|apply rtc_refl]. Qed.

Lemma server_failed_reachable : reachable server_failed.
Proof.
  exists server0. split; [constructor|].
  apply (run_calls_rtc [CallReceivedBytes (replicate 64 x00)]). vm_compute. reflexivity.
Qed.

(** A client told that a read failed while its challenge is pending. *)
Definition client_broken : Handshake :=
  default client0 (run_calls [CallBytesToSend; CallReadFailed] client0).

Lemma client_broken_reachable : reachable client_broken.
Proof.
  exists client0. split; [constructor|].
  apply (run_calls_rtc [CallBytesToSend; CallReadFailed]). vm_compute. reflexivity.
Qed.


Lemma failed_is_final_witness :
  _step server_failed = Failed ∧ bytesToSend server_failed = (Ok [], server_failed).
Proof.
  assert (_step server_failed = Failed) as Hf by (vm_compute; reflexivity).
  destruct (failed_is_final server_failed server_failed [] 0 server_failed_reachable Hf
    (rtc_refl _ _)) as (_ & Hb & _).
  split; [exact Hf|exact Hb].
Defined.

Lemma buffers_bounded_witness :
  (receivedBytes [x01; x02] server0).1 = Ok 2 ∧ -1 <= 2 <= len [x01; x02].
Proof.
  split; [reflexivity|].
  refine (proj1 (proj2 (buffers_bounded server0 [x01; x02] 2 (receivedBytes [x01; x02] server0).2
    server0_reachable _)) _); [discriminate|reflexivity].
Defined.

Lemma server_finish_authentic_witness :
  _step server_end = Finished ∧ ∃ s, session server_end = (Ok s, server_end).
Proof.
  split; [exact (proj2 both_finished)|].
  destruct (server_finish_authentic None sctx (replicate 32 x62) server_end server_run
    (proj2 both_finished)) as (ap & Ap & s & msg & H). cbv zeta in H.
  destruct H as (_ & _ & _ & _ & _ & H). eexists. exact H.
Defined.

Lemma client_finish_authentic_witness :
  _step client_end = Finished ∧ ∃ s, session client_end = (Ok s, client_end).
Proof.
  split; [exact (proj1 both_finished)|].
  destruct (client_finish_authentic cctx serverKey (replicate 32 x61) client_end client_run
    (proj1 both_finished)) as (bp & ack & sig & H). cbv zeta in H.
  destruct H as (_ & _ & _ & H). eexists. exact H.
Defined.

Lemma failure_code_witness :
  0 < byteCountNeeded server0 ∧ _error (readFailed server0).2 = ProtocolError.
Proof.
  split; [reflexivity|].
  exact (proj1 (failure_code server0 server0_reachable eq_refl)).
Defined.

End witnesses.
