(* ===== verification/Logging.v ===== *)
(** Logging: [LogCallback], [_Log] and the [Log] macro of
    src/SecretHandshake.cc and src/SecretHandshake_Internal.hh, the messages
    that the methods of [Handshake] log, and the callback [shslog] that the
    Crouton adapter installs.

    The other files leave the calls of [Log] out. Here are the methods with
    them, on a handshake and the state [L] that the callback works on, which
    is arbitrary; a message is its format string with its arguments. The model
    of a callback is a function on [L]: one that throws, or that calls the
    handshake it is called from, is not modelled.

    The theorems: with such a callback, or none, the methods do what they do in
    Handshake.v, which relates the two descriptions; a failure is
    reported at level [err] once, when it happens, and a success once at level
    [info]; and the adapter never replaces a callback that was there. *)
From Stdlib Require Import ZArith Lia Strings.Byte.
From stdpp Require Import base list numbers option tactics relations strings.
From S2P Require Import Prelude Crypto Shs Handshake.

Open Scope Z_scope.

Inductive LogLevel := trace | debug | info | warn | err | critical | off.

#[global] Instance LogLevel_eq_dec : EqDecision LogLevel.
Proof. solve_decision. Defined.

(** [int(level)]: "same values as spdlog or Crouton". *)
Definition LogLevel_val (l : LogLevel) : Z :=
  match l with
  | trace => 0 | debug => 1 | info => 2 | warn => 3 | err => 4 | critical => 5 | off => 6
  end.

(** The format strings and their arguments. *)
Inductive message :=
| SuccessfulHandshake
| AwaitingBytes (step needed : Z)
| StepOK (step : Z)
| ReceivedInvalidData (step : Z)
| UnexpectedEOF (step : Z)
| ReceivedWaiting (count : Z)
| SendingBytes (step size : Z)
| SendCompleted
| SentBytes (count : Z).

Section logging.
Context {P : Primitives} {L : Type}.

Definition callback : Type := LogLevel → message → L → L.

(** The global variable, and what the callback has done so far. *)
Record logs := MkLogs { LogCallback : option callback; sink : L }.

Definition _Log (level : LogLevel) (m : message) : M logs unit :=
  g ← get;
  match LogCallback g with
  | Some cb => modify (λ g, MkLogs (LogCallback g) (cb level m (sink g)))
  | None => mret tt
  end.

(** The macro tests the callback, too. *)
Definition Log (level : LogLevel) (m : message) : M logs unit :=
  g ← get;
  match LogCallback g with Some _ => _Log level m | None => mret tt end.

(** * The methods of a handshake, with their log *)

Record logged := MkLogged { l_hs : Handshake; l_log : logs }.

Definition lift {A} (m : M Handshake A) : M logged A :=
  zoom l_hs (λ h x, MkLogged h (l_log x)) m.
Definition log (level : LogLevel) (m : message) : M logged unit :=
  zoom l_log (λ g x, MkLogged (l_hs x) g) (Log level m).

(** The current step, as the messages show it. *)
Definition step_now : M logged Z := h ← lift get; mret (Step_val (_step h)).

Definition log_nextStep : M logged unit :=
  lift nextStep;;
  h ← lift get;
  if bool_decide (_step h = Finished) then log info SuccessfulHandshake else mret tt.

Definition log_bytesToRead : M logged Z :=
  h ← lift get;
  let needed := byteCountNeeded h in
  (if 0 <? needed then log debug (AwaitingBytes (Step_val (_step h)) needed) else mret tt);;
  lift (modify (set_inputBuffer (vec_resize needed (_inputBuffer h))));;
  mret needed.

Definition log_readCompleted : M logged bool :=
  h ← lift get;
  if negb (len (_inputBuffer h) =? byteCountNeeded h) then lift (throw LogicError)
  else
    ok ← lift (_receivedBytes (_inputBuffer h));
    if ok : bool then
      st ← step_now; log debug (StepOK st);;
      log_nextStep;; lift (modify (set_inputBuffer []));; mret true
    else
      st ← step_now; log err (ReceivedInvalidData st);;
      lift failed;; mret false.

Definition log_readFailed : M logged unit :=
  st ← step_now; log err (UnexpectedEOF st);; lift failed.

Definition log_receivedBytes (src : bytes) : M logged Z :=
  h ← lift get;
  if bool_decide (_step h = Failed ∨ _step h = Finished) then mret (-1)
  else
    let needed := byteCountNeeded h in
    if needed =? 0 then mret 0
    else
      let count := Z.min (len src) (size_sub needed (len (_inputBuffer h))) in
      lift (modify (set_inputBuffer (_inputBuffer h ++ ztake count src)));;
      h ← lift get;
      (if len (_inputBuffer h) <? needed then log debug (ReceivedWaiting count)
       else log_readCompleted;; mret tt);;
      h ← lift get;
      mret (if bool_decide (_step h ≠ Failed) then count else -1).

Definition log_bytesToSend : M logged bytes :=
  h ← lift get;
  if bool_decide (_step h = Failed ∨ _step h = Finished) then mret []
  else
    (if bool_decide (_outputBuffer h = []) then lift _fillOutputBuffer else mret tt);;
    h ← lift get;
    (if bool_decide (_outputBuffer h ≠ [])
     then log debug (SendingBytes (Step_val (_step h)) (len (_outputBuffer h))) else mret tt);;
    mret (_outputBuffer h).

Definition log_sendCompleted : M logged unit :=
  h ← lift get;
  if bool_decide (_outputBuffer h = []) then lift (throw LogicError)
  else log debug SendCompleted;; lift (modify (set_outputBuffer []));; log_nextStep.

Definition log_copyBytesToSend (maxCount : Z) : M logged (Z * bytes) :=
  h ← lift get;
  if bool_decide (_step h = Failed) then mret (-1, [])
  else
    go ← (if bool_decide (_outputBuffer h = [])
          then b ← log_bytesToSend; mret (negb (len b =? 0)) else mret true);
    if negb go then mret (0, [])
    else
      h ← lift get;
      let count := Z.min (len (_outputBuffer h)) maxCount in
      let copied := ztake count (_outputBuffer h) in
      lift (modify (set_outputBuffer (zdrop count (_outputBuffer h))));;
      h ← lift get;
      (if bool_decide (_outputBuffer h = []) then log debug SendCompleted;; log_nextStep
       else log debug (SentBytes count));;
      mret (count, copied).

(** The application's calls; the other two do not log. *)
Definition log_call (c : call) : M logged unit :=
  match c with
  | CallBytesToRead => log_bytesToRead;; mret tt
  | CallReadCompleted => log_readCompleted;; mret tt
  | CallReadFailed => log_readFailed
  | CallReceivedBytes src => log_receivedBytes src;; mret tt
  | CallBytesToSend => log_bytesToSend;; mret tt
  | CallSendCompleted => log_sendCompleted
  | CallCopyBytesToSend n => log_copyBytesToSend n;; mret tt
  | CallFillInput _ | CallSession => lift (do_call c)
  end.

(** Calls one after the other, with the outcome of each. *)
Fixpoint log_calls (cs : list call) (x : logged) : list (outcome unit) * logged :=
  match cs with
  | [] => ([], x)
  | c :: cs => let '(r, x1) := log_call c x in let '(rs, x2) := log_calls cs x1 in (r :: rs, x2)
  end.

Fixpoint do_calls (cs : list call) (h : Handshake) : list (outcome unit) * Handshake :=
  match cs with
  | [] => ([], h)
  | c :: cs => let '(r, h1) := do_call c h in let '(rs, h2) := do_calls cs h1 in (r :: rs, h2)
  end.

(** * The log does not matter *)

(** [m'] does what [m] does, and logs. *)
Definition erases {A} (m' : M logged A) (m : M Handshake A) : Prop :=
  ∀ x, (m' x).1 = (m (l_hs x)).1 ∧ l_hs (m' x).2 = (m (l_hs x)).2.

Lemma erases_lift {A} (m : M Handshake A) : erases (lift m) m.
Proof. intros x. unfold lift, zoom. by destruct (m (l_hs x)). Qed.

Lemma erases_ret {A} (a : A) : erases (mret a) (mret a).
Proof. done. Qed.

Lemma erases_bind {A B} m' m (f' : A → M logged B) f :
  erases m' m → (∀ a, erases (f' a) (f a)) → erases (m' ≫= f') (m ≫= f).
Proof.
  intros Hm Hf x. unfold mbind, M_bind. destruct (Hm x) as [Hr Hs].
  destruct (m' x) as [r x'], (m (l_hs x)) as [r0 h']. cbn in Hr, Hs. subst. destruct r0; [apply Hf|done].
Qed.

(** A message and the step in it leave the handshake alone. *)
Lemma log_run level m x :
  ∃ g, log level m x = (Ok tt, MkLogged (l_hs x) g) ∧ LogCallback g = LogCallback (l_log x).
Proof.
  unfold log, Log, _Log, zoom. rewrite bind_get.
  destruct (LogCallback (l_log x)) eqn:E; [|by exists (l_log x)].
  rewrite bind_get, E. by eexists.
Qed.

Lemma erases_log {A} level m (m' : M logged A) m0 :
  erases m' m0 → erases (log level m;; m') m0.
Proof.
  intros Hm x. destruct (log_run level m x) as (g & Hl & _).
  rewrite (bind_Ok _ _ _ _ _ Hl). apply (Hm (MkLogged (l_hs x) g)).
Qed.

Lemma erases_step {A} (f : Z → M logged A) m0 : (∀ st, erases (f st) m0) → erases (st ← step_now; f st) m0.
Proof. intros Hf []. apply (Hf _ (MkLogged _ _)). Qed.

Lemma erases_if {A} (b : bool) (m1 m2 : M logged A) n1 n2 :
  erases m1 n1 → erases m2 n2 → erases (if b then m1 else m2) (if b then n1 else n2).
Proof. intros. destruct b; assumption. Qed.

(** A log at the end, or in the middle, of a method. *)
Lemma erases_log_end level m : erases (log level m) (mret tt).
Proof. intros x. by destruct (log_run level m x) as (g & -> & _). Qed.

Lemma erases_log_opt {A} (b : bool) level m (f : unit → M logged A) m0 :
  erases (f tt) m0 → erases ((if b then log level m else mret tt) ≫= f) m0.
Proof.
  intros Hf. destruct b; [|intros x; apply Hf].
  intros x. destruct (log_run level m x) as (g & Hl & _).
  rewrite (bind_Ok _ _ _ _ _ Hl). apply (Hf (MkLogged (l_hs x) g)).
Qed.

Hint Resolve erases_lift erases_ret erases_log erases_log_end erases_step erases_log_opt : shs.

Ltac erase :=
  repeat first
    [ apply erases_log_opt | apply erases_if | apply erases_log | apply erases_step; intros ?
    | apply erases_bind; [|intros ?]
    | solve [auto with shs] ].

Lemma erases_peek {A} (f : Handshake → M logged A) m0 :
  (∀ h, erases (f h) m0) → erases (h ← lift get; f h) m0.
Proof. intros Hf []. apply (Hf _ (MkLogged _ _)). Qed.

Lemma erases_then m' m k : erases m' m → erases k (mret tt) → erases (m';; k) m.
Proof.
  intros Hm Hk x. destruct (Hm x) as [Hr Hs]. destruct (m' x) as [[[]|f] x1] eqn:E; cbn in Hr, Hs.
  - rewrite (bind_Ok _ _ _ _ _ E), <-Hr, <-Hs. apply Hk.
  - by rewrite (bind_Fault _ _ _ _ _ E).
Qed.

Lemma erases_nextStep : erases log_nextStep nextStep.
Proof.
  apply erases_then; [apply erases_lift|]. apply erases_peek. intros h.
  case_bool_decide; auto with shs.
Qed.
Hint Resolve erases_nextStep : shs.

Lemma erases_bytesToRead : erases log_bytesToRead bytesToRead.
Proof. unfold log_bytesToRead, bytesToRead. erase. Qed.

Lemma erases_readCompleted : erases log_readCompleted readCompleted.
Proof. unfold log_readCompleted, readCompleted. erase. Qed.

Lemma erases_readFailed : erases log_readFailed readFailed.
Proof. unfold log_readFailed, readFailed. erase. Qed.
Hint Resolve erases_bytesToRead erases_readCompleted erases_readFailed : shs.

Lemma erases_receivedBytes src : erases (log_receivedBytes src) (receivedBytes src).
Proof. unfold log_receivedBytes, receivedBytes. erase. Qed.

Lemma erases_bytesToSend : erases log_bytesToSend bytesToSend.
Proof. unfold log_bytesToSend, bytesToSend. erase. Qed.

Lemma erases_sendCompleted : erases log_sendCompleted sendCompleted.
Proof. unfold log_sendCompleted, sendCompleted. erase. Qed.
Hint Resolve erases_receivedBytes erases_bytesToSend erases_sendCompleted : shs.

Lemma erases_copyBytesToSend n : erases (log_copyBytesToSend n) (copyBytesToSend n).
Proof. unfold log_copyBytesToSend, copyBytesToSend. erase. Qed.
Hint Resolve erases_copyBytesToSend : shs.

Lemma erases_call c : erases (log_call c) (do_call c).
Proof. destruct c; cbn [log_call do_call]; erase. Qed.

End logging.

(** * What the log says *)

Section reports.
Context {P : Primitives}.

Definition entry : Type := LogLevel * message.

(** A callback that keeps the messages. *)
Definition keep : callback (L := list entry) := λ level m l, l ++ [(level, m)].

Definition recording (h : Handshake) (l : list entry) : logged := MkLogged h (MkLogs (Some keep) l).

(** The messages of a call. *)
Definition log_of (c : call) (h : Handshake) : list entry := sink (l_log (log_call c (recording h [])).2).

Definition at_level (level : LogLevel) (l : list entry) : nat := length (filter (λ e, e.1 = level) l).

(** The messages [l] of a call that leads from [h] to [h']: an error if it
    fails, an announcement if it finishes. *)
Definition reported (h h' : Handshake) (l : list entry) : Prop :=
  at_level err l = (if bool_decide (_step h' = Failed) then 1 else 0)%nat ∧
  at_level info l = (if bool_decide (_step h ≠ Finished ∧ _step h' = Finished) then 1 else 0)%nat.

(** A part of a call that stays in its step. *)
Definition same_step {A} (m : M Handshake A) : Prop := ∀ h, _step (m h).2 = _step h.

Lemma same_step_ret {A} (a : A) : same_step (mret a).
Proof. done. Qed.

Lemma same_step_modify f : (∀ h, _step (f h) = _step h) → same_step (modify f).
Proof. by intros. Qed.

Lemma same_step_bind {A B} (m : M Handshake A) (f : A → M Handshake B) :
  same_step m → (∀ a, same_step (f a)) → same_step (m ≫= f).
Proof.
  intros Hm Hf h. specialize (Hm h). unfold mbind, M_bind.
  destruct (m h) as [[a|e] h1]; cbn in Hm; [|done]. rewrite <-Hm. apply Hf.
Qed.

Lemma same_step_get {B} (f : Handshake → M Handshake B) :
  (∀ h, same_step (f h)) → same_step (get ≫= f).
Proof. intros Hf h. apply (Hf h h). Qed.

Lemma same_step_impl {A} (m : M handshake A) : same_step (on_impl m).
Proof. intros h. unfold on_impl, zoom. by destruct (m (_impl h)). Qed.

Hint Resolve same_step_ret same_step_modify same_step_bind same_step_impl : shs.

Lemma received_same_step b : same_step (_receivedBytes b).
Proof.
  apply same_step_get. intros h. destruct (h_kind h) as [|auth];
    (apply same_step_get; intros h'; destruct (_step h'); auto with shs).
  apply same_step_bind; [auto with shs|]. intros []; [|auto with shs]. destruct auth; auto with shs.
Qed.

Lemma fill_same_step : same_step _fillOutputBuffer.
Proof.
  apply same_step_get. intros h. destruct (h_kind h) as [|auth];
    (apply same_step_get; intros h'; destruct (_step h'); unfold spaceFor; auto with shs).
Qed.

(** How the parts of a logged method run. *)
Lemma lift_run {A} (m : M Handshake A) h l r h' :
  m h = (r, h') → lift m (recording h l) = (r, recording h' l).
Proof. unfold lift, zoom. cbn. by intros ->. Qed.

Lemma log_kept level m h l : log level m (recording h l) = (Ok tt, recording h (l ++ [(level, m)])).
Proof. done. Qed.

Lemma step_now_run h l : step_now (recording h l) = (Ok (Step_val (_step h)), recording h l).
Proof. done. Qed.

(** The run of a logged method on [recording h l], and what it reports. *)
Definition run_reports {A} (m : M logged A) (h : Handshake) : Prop :=
  _step h ≠ Failed → ∀ l, ∃ r h' l', m (recording h l) = (r, recording h' (l ++ l')) ∧ reported h h' l'.

Lemma reports_nothing {A} h l (m : M logged A) r h' :
  _step h ≠ Failed → _step h' = _step h → m (recording h l) = (r, recording h' l) →
  ∃ r h' l', m (recording h l) = (r, recording h' (l ++ l')) ∧ reported h h' l'.
Proof.
  intros Hf Hs Hm. exists r, h', []. rewrite app_nil_r. split; [done|].
  unfold reported. rewrite Hs, !bool_decide_eq_false_2 by tauto. done.
Qed.

Lemma step_logged_run h :
  _step h ≠ Failed →
  nextStep h = (Fault AssertFailed, h) ∧ _step h = Finished ∨
  ∃ st, nextStep h = (Ok tt, set_step st h) ∧ _step h ≠ Finished ∧ st ≠ Failed.
Proof.
  intros Hf. unfold nextStep. rewrite bind_get.
  destruct (_step h) eqn:E; try done; [right; eexists; split; [reflexivity|done]..|by left].
Qed.

Lemma reports_nextStep h : run_reports log_nextStep h.
Proof.
  intros Hf l. unfold log_nextStep.
  destruct (step_logged_run h Hf) as [[Hn Hfin]|(st & Hn & Hnf & Hst)].
  - apply (reports_nothing h l _ (Fault AssertFailed) h Hf eq_refl).
    by rewrite (bind_Fault _ _ _ _ _ (lift_run _ _ l _ _ Hn)).
  - rewrite (bind_Ok _ _ _ _ _ (lift_run _ _ l _ _ Hn)).
    rewrite (bind_Ok _ _ _ _ _ (lift_run get _ l _ _ eq_refl)). cbn [_step set_step].
    case_bool_decide as Hd.
    + rewrite log_kept. eexists _, _, _. split; [done|]. subst st. split; cbn; [done|].
      by rewrite bool_decide_eq_true_2.
    + eexists _, (set_step st h), []. rewrite app_nil_r. split; [done|].
      unfold reported. cbn. rewrite !bool_decide_eq_false_2 by naive_solver. done.
Qed.

Lemma at_level_app level l l' : at_level level (l ++ l') = (at_level level l + at_level level l')%nat.
Proof. unfold at_level. by rewrite filter_app, length_app. Qed.

(** Debug messages and work inside the step, before what is reported. *)
Lemma reports_after {A B} (m : M logged A) (f : A → M logged B) h a h1 l1 :
  (∀ l, m (recording h l) = (Ok a, recording h1 (l ++ l1))) → _step h1 = _step h →
  at_level err l1 = 0%nat → at_level info l1 = 0%nat → run_reports (f a) h1 → run_reports (m ≫= f) h.
Proof.
  intros Hm Hs He Hi Hf Hnf l. destruct (Hf ltac:(by rewrite Hs) (l ++ l1)) as (r & h' & l' & Hr & Hrep).
  exists r, h', (l1 ++ l'). rewrite (bind_Ok _ _ _ _ _ (Hm l)), Hr, <-app_assoc. split; [done|].
  destruct Hrep as [H1 H2]. rewrite Hs in H2. split; by rewrite at_level_app, ?He, ?Hi.
Qed.

(** Work inside the step after it. *)
Lemma reports_before {A B} (m : M logged A) (f : A → M Handshake B) (f' : A → M logged B) h :
  run_reports m h → (∀ a, same_step (f a)) →
  (∀ a h1 l, f' a (recording h1 l) = ((f a h1).1, recording (f a h1).2 l)) →
  run_reports (m ≫= f') h.
Proof.
  intros Hm Hs Hf Hnf l. destruct (Hm Hnf l) as ([a|e] & h1 & l1 & Hr & Hrep).
  - rewrite (bind_Ok _ _ _ _ _ Hr), Hf. eexists _, _, _. split; [done|].
    unfold reported. by rewrite (Hs a h1).
  - rewrite (bind_Fault _ _ _ _ _ Hr). by eexists _, _, _.
Qed.

Lemma reports_forget {A} (m : M logged A) h : run_reports m h → run_reports (m;; mret tt) h.
Proof. intros Hm. by apply (reports_before m (λ _, mret tt) _ h Hm). Qed.

Lemma reports_lift {A} (m : M Handshake A) h : _step (m h).2 = _step h → run_reports (lift m) h.
Proof.
  intros Hs Hnf l. destruct (m h) as [r h'] eqn:E.
  exact (reports_nothing h l _ r h' Hnf Hs (lift_run _ _ l _ _ E)).
Qed.

(** A failure, after its message. *)
Lemma reports_failure {A} m h (a : A) : run_reports (log err m;; lift failed;; mret a) h.
Proof.
  intros Hnf l. rewrite (bind_Ok _ _ _ _ _ (log_kept _ _ _ _)).
  erewrite bind_Ok; [|apply lift_run; reflexivity]. eexists _, _, _. split; [done|].
  split; [done|]. cbn. rewrite bool_decide_eq_false_2 by naive_solver. done.
Qed.

Lemma reports_peek {A} (f : Handshake → M logged A) h : run_reports (f h) h → run_reports (h ← lift get; f h) h.
Proof. done. Qed.

Lemma reports_ret {A} (a : A) h : run_reports (mret a) h.
Proof. intros Hnf l. by apply (reports_nothing h l _ (Ok a) h). Qed.

Lemma reports_debug m h : run_reports (log debug m) h.
Proof.
  intros Hnf l. eexists _, h, [(debug, m)]. split; [apply log_kept|].
  split; cbn; by rewrite bool_decide_eq_false_2 by tauto.
Qed.
Hint Resolve reports_ret reports_lift reports_debug reports_nextStep : shs.

Lemma reports_readCompleted h : run_reports log_readCompleted h.
Proof.
  apply reports_peek. destruct (negb _); [by apply reports_lift|].
  destruct (_receivedBytes (_inputBuffer h) h) as [r h1] eqn:E.
  pose proof (received_same_step (_inputBuffer h) h) as Hs. rewrite E in Hs. cbn in Hs.
  destruct r as [[]|e].
  - eapply (reports_after _ _ h true h1 []); [intros l; rewrite app_nil_r; by apply lift_run|done..|].
    eapply (reports_after _ _ h1 _ h1 []); [intros l; rewrite app_nil_r; apply step_now_run|done..|].
    eapply (reports_after _ _ h1 _ h1 [_]); [intros l; apply log_kept|done..|].
    by apply (reports_before _ (λ _, modify (set_inputBuffer []);; mret true) _ h1 (reports_nextStep h1)).
  - eapply (reports_after _ _ h false h1 []); [intros l; rewrite app_nil_r; by apply lift_run|done..|].
    eapply (reports_after _ _ h1 _ h1 []); [intros l; rewrite app_nil_r; apply step_now_run|done..|].
    apply reports_failure.
  - intros Hnf l. eapply (reports_nothing h l); [done|exact Hs|].
    eapply bind_Fault. by apply lift_run.
Qed.

Lemma reports_receivedBytes src h : run_reports (log_receivedBytes src) h.
Proof.
  apply reports_peek. case_bool_decide; [apply reports_ret|]. cbv zeta.
  destruct (byteCountNeeded h =? 0); [apply reports_ret|].
  set (count := Z.min _ _). set (h1 := set_inputBuffer (_inputBuffer h ++ ztake count src) h).
  eapply (reports_after _ _ h tt h1 []); [intros l; rewrite app_nil_r; by apply lift_run|done..|].
  apply reports_peek.
  eapply (reports_before _ (λ _, h ← get; mret (if bool_decide (_step h ≠ Failed) then count else -1)));
    [|done|done].
  destruct (len (_inputBuffer h1) <? byteCountNeeded h);
    [apply reports_debug|apply reports_forget, reports_readCompleted].
Qed.

(** Getting the bytes to send stays in the step and has nothing to report. *)
Lemma bytesToSend_quiet h :
  ∃ r h1 l1, (∀ l, log_bytesToSend (recording h l) = (r, recording h1 (l ++ l1))) ∧
    _step h1 = _step h ∧ at_level err l1 = 0%nat ∧ at_level info l1 = 0%nat.
Proof.
  unfold log_bytesToSend.
  destruct (bool_decide (_step h = Failed ∨ _step h = Finished)) eqn:Ed.
  { exists (Ok []), h, []. split_and!; [|done..]. intros l. rewrite app_nil_r.
    erewrite bind_Ok; [|by apply lift_run]. by rewrite Ed. }
  destruct ((if bool_decide (_outputBuffer h = []) then _fillOutputBuffer else mret tt) h)
    as [r h1] eqn:E.
  assert (_step h1 = _step h) as Hs.
  { change h1 with (r, h1).2. rewrite <-E. case_bool_decide; [apply fill_same_step|done]. }
  assert (∀ l, (if bool_decide (_outputBuffer h = []) then lift _fillOutputBuffer else mret tt)
    (recording h l) = (r, recording h1 l)) as Hrun.
  { intros l. case_bool_decide; [by apply lift_run|by injection E as <- <-]. }
  destruct r as [[]|e].
  - exists (Ok (_outputBuffer h1)), h1, (if bool_decide (_outputBuffer h1 ≠ [])
      then [(debug, SendingBytes (Step_val (_step h1)) (len (_outputBuffer h1)))] else []).
    split_and!; [|done|by destruct (bool_decide (_outputBuffer h1 ≠ []))..]. intros l. erewrite bind_Ok; [|by apply lift_run].
    rewrite Ed, (bind_Ok _ _ _ _ _ (Hrun l)). erewrite bind_Ok; [|by apply lift_run].
    destruct (bool_decide (_outputBuffer h1 ≠ [])); [done|by rewrite app_nil_r].
  - exists (Fault e), h1, []. split_and!; [|done..]. intros l. rewrite app_nil_r.
    erewrite bind_Ok; [|by apply lift_run]. by rewrite Ed, (bind_Fault _ _ _ _ _ (Hrun l)).
Qed.

Lemma reports_quiet {A} (m : M logged A) h r h1 l1 :
  (∀ l, m (recording h l) = (r, recording h1 (l ++ l1))) → _step h1 = _step h →
  at_level err l1 = 0%nat → at_level info l1 = 0%nat → run_reports m h.
Proof.
  intros Hm Hs He Hi Hnf l. exists r, h1, l1. split; [done|]. split; rewrite Hs, ?He, ?Hi.
  - by rewrite bool_decide_eq_false_2.
  - by rewrite bool_decide_eq_false_2 by tauto.
Qed.

Lemma reports_bytesToSend h : run_reports log_bytesToSend h.
Proof. destruct (bytesToSend_quiet h) as (r & h1 & l1 & ? & ? & ? & ?). by eapply reports_quiet. Qed.

Lemma reports_sendCompleted h : run_reports log_sendCompleted h.
Proof.
  apply reports_peek. case_bool_decide; [by apply reports_lift|].
  eapply (reports_after _ _ h _ h [_]); [intros l; apply log_kept|done..|].
  eapply (reports_after _ _ h tt _ []); [intros l; rewrite app_nil_r; by apply lift_run|done..|].
  apply reports_nextStep.
Qed.

(** The part of [copyBytesToSend] after the buffer has been filled. *)
Lemma reports_copy n h :
  run_reports (h ← lift get;
    let count := Z.min (len (_outputBuffer h)) n in
    let copied := ztake count (_outputBuffer h) in
    lift (modify (set_outputBuffer (zdrop count (_outputBuffer h))));;
    h ← lift get;
    (if bool_decide (_outputBuffer h = []) then log debug SendCompleted;; log_nextStep
     else log debug (SentBytes count));;
    mret (count, copied)) h.
Proof.
  apply reports_peek. cbv zeta. set (count := Z.min _ _).
  eapply (reports_after _ _ h tt _ []); [intros l; rewrite app_nil_r; by apply lift_run|done..|].
  apply reports_peek. eapply (reports_before _ (λ _, mret (count, _))); [|done|done].
  case_bool_decide; [|apply reports_debug].
  eapply (reports_after _ _ _ _ _ [_]); [intros l; apply log_kept|done..|]. apply reports_nextStep.
Qed.

Lemma reports_copyBytesToSend n h : run_reports (log_copyBytesToSend n) h.
Proof.
  apply reports_peek. case_bool_decide; [apply reports_ret|]. case_bool_decide.
  2: { eapply (reports_after _ _ h true h []); [intros l; by rewrite app_nil_r|done..|].
       apply reports_copy. }
  destruct (bytesToSend_quiet h) as ([b|e] & h1 & l1 & Hr & Hs & He & Hi).
  - eapply (reports_after _ _ h (negb (len b =? 0)) h1 l1); [|done..|].
    { intros l. by rewrite (bind_Ok _ _ _ _ _ (Hr l)). }
    destruct (negb (negb (len b =? 0))); [apply reports_ret|apply reports_copy].
  - eapply (reports_quiet _ h (Fault e) h1 l1); [|done..]. intros l.
    apply bind_Fault. by apply bind_Fault.
Qed.

Lemma reports_call c h : run_reports (log_call c) h.
Proof.
  destruct c; cbn [log_call].
  - apply reports_forget, reports_peek.
    apply (reports_before _ (λ _, modify (set_inputBuffer (vec_resize (byteCountNeeded h) (_inputBuffer h)));;
      mret (byteCountNeeded h))); [|done|done].
    destruct (0 <? byteCountNeeded h); auto with shs.
  - apply reports_lift. unfold do_call, fillInput, in_bounds. rewrite bind_get. by destruct (mwrite _ _ _).
  - apply reports_forget, reports_readCompleted.
  - intros Hnf l. destruct (reports_failure (UnexpectedEOF (Step_val (_step h))) h tt Hnf l)
      as (r & h' & l' & Hr & Hrep). exists r, h', l'. split; [|done]. rewrite <-Hr. done.
  - apply reports_forget, reports_receivedBytes.
  - apply reports_forget, reports_bytesToSend.
  - apply reports_sendCompleted.
  - apply reports_forget, reports_copyBytesToSend.
  - apply reports_lift. unfold do_call, session. apply same_step_bind; [|auto with shs].
    apply same_step_get. intros h'. case_bool_decide; [done|apply same_step_impl].
Qed.

End reports.

(** * The callback of the Crouton adapter *)

(** [vasprintf] makes the text of a message, or fails; [LNet_log] is the
    logger of the Crouton library, with its level, format and argument. *)
Section crouton.
Context {N : Type} (vasprintf : message → option bytes) (LNet_log : Z → string → bytes → N → N).

Definition shslog : callback (L := N) := λ level m net,
  match vasprintf m with
  | Some text => LNet_log (LogLevel_val level) "SecretHandshake: {}" text net
  | None => net
  end.

(** The global variables: the callback, and the flag [sOnce] in the
    constructor of [SecretHandshake]. *)
Record process := MkProcess { p_logs : logs (L := N); sOnce : bool }.

Definition set_LogCallback (cb : option (callback (L := N))) (p : process) : process :=
  MkProcess (MkLogs cb (sink (p_logs p))) (sOnce p).

(** The [call_once] in the constructor. *)
Definition install_shslog (p : process) : process :=
  if sOnce p then p
  else MkProcess (match LogCallback (p_logs p) with
                  | None => MkLogs (Some shslog) (sink (p_logs p))
                  | Some _ => p_logs p
                  end) true.

(** A constructor, or an assignment by the application. *)
Inductive process_step : process → process → Prop :=
| step_construct p : process_step p (install_shslog p)
| step_assign p cb : process_step p (set_LogCallback cb p).

(** Constructors only. *)
Definition constructs : process → process → Prop := rtc (λ p p', p' = install_shslog p).

(** The callback of the application stays, whatever is constructed. *)
Lemma callback_kept p p' cb :
  constructs p p' → LogCallback (p_logs p) = Some cb → LogCallback (p_logs p') = Some cb.
Proof.
  induction 1 as [|p p1 p2 -> _ IH]; [done|]. intros Hc. apply IH. unfold install_shslog.
  destruct (sOnce p); [done|]. cbn. by rewrite Hc.
Qed.

(** The adapter assigns the callback at most once: after the first
    constructor, also a callback that the application has taken away stays
    away. *)
Lemma installed_once p p' : constructs (install_shslog p) p' → p' = install_shslog p.
Proof.
  assert (sOnce (install_shslog p) = true) as Hs
    by (unfold install_shslog; by destruct (sOnce p) eqn:E).
  induction 1 as [|p1 p2 p3 -> _ IH]; [done|].
  assert (install_shslog p1 = p1) as E by (unfold install_shslog at 1; by rewrite Hs).
  rewrite E in IH. by apply IH.
Qed.

End crouton.

(** * Properties *)

Section properties.
Context {P : Primitives}.

(** The methods with their log statements are those of Handshake.v: with a
    callback that returns and leaves the handshake alone, and with none, every
    sequence of calls has the outcomes and the states it has there. *)
Theorem logging_transparent {L} (cs : list call) (g : logs (L := L)) h :
  (log_calls cs (MkLogged h g)).1 = (do_calls cs h).1 ∧
  l_hs (log_calls cs (MkLogged h g)).2 = (do_calls cs h).2.
Proof.
  revert h g. induction cs as [|c cs IH]; intros h g; [done|]. cbn [log_calls do_calls].
  destruct (erases_call c (MkLogged h g)) as [Hr Hs]. cbn [l_hs] in Hr, Hs.
  destruct (log_call c _) as [r [h1 g1]], (do_call c h) as [r0 h0]. cbn in Hr, Hs. subst.
  destruct (IH h0 g1) as [Hr2 Hs2].
  destruct (log_calls cs _) as [rs x2], (do_calls cs h0) as [rs0 h2]. cbn in *. by subst.
Qed.

(** The log tells how a handshake ends: a call that makes it fail logs one
    message at level [err], a call that finishes it logs one at level [info],
    and no other call on a handshake that has not failed logs at these
    levels. *)
Theorem outcome_logged c h :
  _step h ≠ Failed → reported h (do_call c h).2 (log_of c h).
Proof.
  intros Hnf. destruct (reports_call c h Hnf []) as (r & h' & l & Hr & Hrep).
  destruct (erases_call c (recording h [])) as [_ Hs]. cbn [l_hs recording] in Hs.
  unfold log_of. rewrite <-Hs, Hr. exact Hrep.
Qed.

End properties.

Module Demo.
Import Toy Handshake.Demo.

(** A server that receives garbage says so. *)
Lemma outcome_logged_witness :
  reported server0 (do_call (CallReceivedBytes (replicate 64 x00)) server0).2
    (log_of (CallReceivedBytes (replicate 64 x00)) server0) ∧
  log_of (CallReceivedBytes (replicate 64 x00)) server0 = [(err, ReceivedInvalidData 1)].
Proof. split; [apply outcome_logged; discriminate|vm_compute; reflexivity]. Defined.
End Demo.
