(* ===== verification/Pieces.v ===== *)
(** The two ways to move a message through a [Handshake]: whole, with
    [bytesToRead] / [readCompleted] and [bytesToSend] / [sendCompleted], or in
    pieces, with [receivedBytes] and [copyBytesToSend]. For every division of
    the message into pieces they lead to the same state and carry the same
    bytes. *)
From Stdlib Require Import ZArith Lia Strings.Byte.
From stdpp Require Import base list numbers option tactics relations.
From S2P Require Import Prelude Crypto Shs Handshake.

Open Scope Z_scope.

Section ops.
Context {P : Primitives}.

(** A message that arrives in pieces. *)
Fixpoint receive_pieces (cs : list bytes) : M Handshake unit :=
  match cs with
  | [] => mret tt
  | c :: cs => receivedBytes c;; receive_pieces cs
  end.

(** A message that arrives at once. *)
Definition receive_whole (msg : bytes) : M Handshake bool :=
  bytesToRead;; fillInput msg;; readCompleted.

(** Repeated [copyBytesToSend] with buffers of the given sizes; the bytes
    are collected. *)
Fixpoint send_pieces (ns : list Z) : M Handshake bytes :=
  match ns with
  | [] => mret []
  | n :: ns => '(_, b) ← copyBytesToSend n; rest ← send_pieces ns; mret (b ++ rest)
  end.

Definition send_whole : M Handshake bytes :=
  b ← bytesToSend; sendCompleted;; mret b.

End ops.

Section lemmas.
Context {P : Primitives}.
Implicit Types (h : Handshake).

(** A peer whose turn it is not to send. *)
Lemma idle_calls h n :
  sending h = false → _outputBuffer h = [] → _step h ≠ Failed →
  bytesToSend h = (Ok [], h) ∧ copyBytesToSend n h = (Ok (0, []), h).
Proof.
  intros Hs Ho Hf.
  assert (bytesToSend h = (Ok [], h)) as Hb.
  { unfold bytesToSend. mrun. case_bool_decide; [done|]. rewrite Ho.
    rewrite bool_decide_eq_true_2 by done. rewrite fillOutputBuffer_idle by done. by rewrite Ho. }
  split; [done|]. unfold copyBytesToSend. rewrite bind_get.
  rewrite bool_decide_eq_false_2 by done. rewrite Ho, bool_decide_eq_true_2 by done.
  by rewrite (bind_Ok (bytesToSend ≫= _) _ h false h)
    by (by rewrite (bind_Ok _ _ _ _ _ Hb)).
Qed.


Lemma receive_some h chunk :
  0 < byteCountNeeded h → len (_inputBuffer h) + len chunk < byteCountNeeded h →
  receivedBytes chunk h = (Ok (len chunk), set_inputBuffer (_inputBuffer h ++ chunk) h).
Proof.
  intros Hn Hl. destruct (needed_step h Hn) as (? & ? & _). unfold receivedBytes.
  rewrite bind_get, bool_decide_eq_false_2 by (intros []; done).
  ztest. rewrite size_sub_exact, Z.min_l, ztake_all by lia.
  rewrite bind_modify, bind_get.
  cbn [_inputBuffer set_inputBuffer]. ztest.
  rewrite bind_ret, bind_get.
  by rewrite bool_decide_eq_true_2.
Qed.

Lemma receive_last h chunk :
  0 < byteCountNeeded h → len (_inputBuffer h) + len chunk = byteCountNeeded h →
  (receivedBytes chunk h).2 = (readCompleted (set_inputBuffer (_inputBuffer h ++ chunk) h)).2.
Proof.
  intros Hn Hl. destruct (needed_step h Hn) as (? & ? & _). unfold receivedBytes.
  rewrite bind_get, bool_decide_eq_false_2 by (intros []; done).
  ztest. rewrite size_sub_exact, Z.min_l, ztake_all by lia.
  rewrite bind_modify, bind_get.
  cbn [_inputBuffer set_inputBuffer]. ztest. mrun. by destruct (readCompleted _) as [[] ?].
Qed.

Lemma receive_pieces_run cs h :
  0 < byteCountNeeded h → cs ≠ [] → Forall (λ c, c ≠ []) cs →
  len (_inputBuffer h) + len (concat cs) = byteCountNeeded h →
  (receive_pieces cs h).2
  = (readCompleted (set_inputBuffer (_inputBuffer h ++ concat cs) h)).2.
Proof.
  revert h. induction cs as [|c cs IH]; intros h Hn Hne Hf Hl; [done|].
  apply Forall_cons_1 in Hf as [Hc Hf]. cbn [receive_pieces concat] in *.
  destruct cs as [|c' cs].
  - cbn [concat receive_pieces] in *. rewrite app_nil_r in *.
    rewrite <-(receive_last h c Hn Hl). mrun. by destruct (receivedBytes c h) as [[] ?].
  - assert (0 < len (concat (c' :: cs))) as Hp.
    { apply Forall_cons_1 in Hf as [Hc' _]. cbn [concat].
      destruct c'; [done|len_lia]. }
    rewrite (bind_Ok _ _ _ _ _ (receive_some h c Hn ltac:(len_lia))).
    rewrite IH; [|done|done|done|].
    2: { change (byteCountNeeded _) with (byteCountNeeded h). cbn [_inputBuffer set_inputBuffer]. len_lia. }
    cbn [_inputBuffer set_inputBuffer]. by rewrite <-app_assoc.
Qed.

Lemma receive_whole_run h msg :
  _inputBuffer h = [] → len msg = byteCountNeeded h →
  receive_whole msg h = readCompleted (set_inputBuffer msg h).
Proof.
  intros Hi Hl. unfold receive_whole.
  rewrite (bind_Ok bytesToRead _ h (byteCountNeeded h)
    (set_inputBuffer (vec_resize (byteCountNeeded h) []) h)) by (unfold bytesToRead; mrun; by rewrite Hi).
  assert (mwrite (vec_resize (byteCountNeeded h) []) 0 msg = Some msg) as Hw.
  { rewrite <-(app_nil_l (vec_resize _ _)), <-(app_nil_r (vec_resize _ _)).
    rewrite mwrite_at; [by rewrite app_nil_r|done|].
    pose proof (vec_resize_length (byteCountNeeded h) [] ltac:(lia)). lia. }
  rewrite (bind_Ok (fillInput msg) _ _ tt (set_inputBuffer msg h)); [done|].
  unfold fillInput. mrun. by rewrite Hw.
Qed.

(** ** Sending *)

(** The state after the pending message has been sent. *)
Definition sent h : Handshake :=
  set_step (Step_of (Step_val (_step h) + 1)) (set_outputBuffer [] h).

(** [copyBytesToSend] from a filled buffer. *)
Lemma copy_filled h n :
  _step h ≠ Failed → _step h ≠ Finished → _outputBuffer h ≠ [] →
  copyBytesToSend n h =
    (Ok (Z.min (len (_outputBuffer h)) n, ztake n (_outputBuffer h)),
     if bool_decide (zdrop n (_outputBuffer h) = []) then sent h
     else set_outputBuffer (zdrop n (_outputBuffer h)) h).
Proof.
  intros Hf Hf' Ho. set (out := _outputBuffer h) in *. unfold copyBytesToSend.
  rewrite bind_get. rewrite bool_decide_eq_false_2 by done. fold out.
  rewrite bool_decide_eq_false_2 by done. rewrite bind_ret.
  cbn [negb]. rewrite bind_get, bind_modify.
  rewrite bind_get. cbn [_outputBuffer set_outputBuffer]. fold out.
  assert (ztake (Z.min (len out) n) out = ztake n out) as ->.
  { destruct (decide (n <= len out)); [f_equal; lia|]. by rewrite !ztake_all by lia. }
  assert (zdrop (Z.min (len out) n) out = zdrop n out) as ->.
  { destruct (decide (n <= len out)); [f_equal; lia|]. by rewrite !zdrop_all by lia. }
  case_bool_decide as Hd; mrun; [|done]. rewrite nextStep_run by done. by rewrite Hd.
Qed.

(** [copyBytesToSend] from an empty buffer first prepares the message. *)
Lemma copy_unfilled h h1 b n :
  _step h ≠ Failed → _outputBuffer h = [] → bytesToSend h = (Ok b, h1) →
  b ≠ [] → _outputBuffer h1 ≠ [] → _step h1 ≠ Failed →
  copyBytesToSend n h = copyBytesToSend n h1.
Proof.
  intros Hf Ho Hb Hne Ho1 Hf1. unfold copyBytesToSend. rewrite !bind_get.
  rewrite (bool_decide_eq_false_2 (_step h = Failed)), (bool_decide_eq_false_2 (_step h1 = Failed)) by done.
  rewrite Ho, bool_decide_eq_true_2, (bool_decide_eq_false_2 (_outputBuffer h1 = [])) by done.
  rewrite (bind_Ok (bytesToSend ≫= _) _ h true h1); [done|].
  rewrite (bind_Ok _ _ _ _ _ Hb). destruct b; [done|]. by ztest.
Qed.

Lemma send_pieces_idle ns h :
  sending h = false → _outputBuffer h = [] → _step h ≠ Failed → send_pieces ns h = (Ok [], h).
Proof.
  intros Hs Ho Hf. induction ns as [|n ns IH]; [done|]. cbn [send_pieces].
  destruct (idle_calls h n Hs Ho Hf) as (_ & Hc). rewrite (bind_Ok _ _ _ _ _ Hc).
  by rewrite (bind_Ok _ _ _ _ _ IH).
Qed.

Lemma sent_idle h :
  sending h = true → sending (sent h) = false ∧ _outputBuffer (sent h) = [] ∧ _step (sent h) ≠ Failed.
Proof. by destruct h as [[|] ? [] ? ? ? ?]. Qed.

(** Enough room in all: the whole message goes out. *)
Lemma send_pieces_run ns h :
  sending h = true → Forall (λ n, 0 <= n) ns → _outputBuffer h ≠ [] →
  len (_outputBuffer h) <= foldr Z.add 0 ns →
  send_pieces ns h = (Ok (_outputBuffer h), sent h).
Proof.
  revert h. induction ns as [|n ns IH]; intros h Hs Hns Ho Hl.
  { destruct (_outputBuffer h); [done|]. cbn [foldr] in Hl. len_lia. }
  apply Forall_cons_1 in Hns as [Hn Hns]. cbn [send_pieces foldr] in *.
  destruct (sending_step h Hs) as (Hf & Hf' & _).
  rewrite (bind_Ok _ _ _ _ _ (copy_filled h n Hf Hf' Ho)). case_bool_decide as Hd.
  - destruct (sent_idle h Hs) as (? & ? & ?).
    rewrite (bind_Ok _ _ _ _ _ (send_pieces_idle ns (sent h) ltac:(done) ltac:(done) ltac:(done))).
    cbn. rewrite app_nil_r. rewrite <-(take_drop (Z.to_nat n) (_outputBuffer h)) at 2.
    by rewrite Hd, app_nil_r.
  - assert (n < len (_outputBuffer h)) as Hlt.
    { destruct (decide (n < len (_outputBuffer h))); [done|]. by rewrite zdrop_all in Hd by lia. }
    rewrite (bind_Ok _ _ _ _ _ (IH (set_outputBuffer (zdrop n (_outputBuffer h)) h)
      Hs Hns Hd ltac:(cbn [_outputBuffer set_outputBuffer]; cbn beta in Hn; len_lia))).
    cbn. by rewrite take_drop.
Qed.

End lemmas.

(** * Properties *)

Section properties.
Context {P : Primitives}.

(** C31: A message that is received in pieces, however it is divided, leaves
    the handshake in the same state as one received whole. *)
Theorem receive_pieces_equiv h cs :
  0 < byteCountNeeded h → _inputBuffer h = [] →
  Forall (λ c, c ≠ []) cs → len (concat cs) = byteCountNeeded h →
  (receive_pieces cs h).2 = (receive_whole (concat cs) h).2.
Proof.
  intros Hn Hi Hf Hl. rewrite (receive_whole_run h _ Hi Hl).
  rewrite receive_pieces_run; [by rewrite Hi|done| |done|by rewrite Hi].
  intros ->. cbn in Hl. lia.
Qed.

(** C32: A message that is sent in pieces, into buffers of any sizes that
    together have room for it, carries the same bytes as one sent whole and
    leaves the handshake in the same state. *)
Theorem send_pieces_equiv h b h1 ns :
  reachable h → bytesToSend h = (Ok b, h1) → b ≠ [] →
  Forall (λ n, 0 <= n) ns → len b <= foldr Z.add 0 ns →
  send_pieces ns h = send_whole h ∧ (send_whole h).1 = Ok b.
Proof.
  intros Hr Hb1 Hne Hns Hl. assert (inv h) as Hi by auto with shs.
  destruct (bytesToSend_cases h Hi) as (b' & h1' & Hb1' & Hi1 & Hid & Hst & Hout).
  rewrite Hb1 in Hb1'. symmetry in Hb1'. simplify_eq.
  destruct Hout as [->|Hout]; [done|]. rewrite Hout in *.
  assert (_step h1 ≠ Failed) as Hnf.
  { rewrite Hst. intros Hf. unfold bytesToSend in Hb1. mrun_in Hb1.
    rewrite bool_decide_eq_true_2 in Hb1 by auto. congruence. }
  pose proof (inv_sending h1 Hi1 Hnf Hne) as Hs1.
  destruct (sending_step h1 Hs1) as (Hf1 & Hf1' & _).
  assert (_step h ≠ Failed ∧ _step h ≠ Finished) as [Hf Hf'] by (by rewrite <-Hst).
  unfold send_whole. rewrite (bind_Ok _ _ _ _ _ Hb1).
  assert (sendCompleted h1 = (Ok tt, sent h1)) as Hc.
  { unfold sendCompleted. mrun. rewrite bool_decide_eq_false_2 by done.
    by rewrite nextStep_run. }
  rewrite (bind_Ok _ _ _ _ _ Hc). split; [|done].
  transitivity (send_pieces ns h1); [|by rewrite send_pieces_run].
  destruct ns as [|n ns]; [cbn in Hl; destruct (_outputBuffer h1); [done|len_lia]|].
  cbn [send_pieces]. assert (copyBytesToSend n h = copyBytesToSend n h1) as Hcp.
  { destruct (decide (_outputBuffer h = [])) as [Ho|Ho].
    - by eapply copy_unfilled.
    - unfold bytesToSend in Hb1. mrun_in Hb1.
      rewrite bool_decide_eq_false_2 in Hb1 by (intros []; done).
      rewrite bool_decide_eq_false_2 in Hb1 by done. by simplify_eq. }
  unfold mbind, M_bind. by rewrite Hcp.
Qed.

End properties.

(** * Witnesses *)

Section witnesses.
Import Toy Demo.

Lemma receive_pieces_equiv_witness :
  (receive_pieces [take 10 m1; drop 10 m1] server0).2
  = (receive_whole (concat [take 10 m1; drop 10 m1]) server0).2.
Proof.
  apply (receive_pieces_equiv server0 [take 10 m1; drop 10 m1]); try reflexivity.
  repeat constructor; discriminate.
Defined.

Lemma send_pieces_equiv_witness :
  send_pieces [50; 0; 50] client0 = send_whole client0 ∧ (send_whole client0).1 = Ok m1.
Proof.
  apply (send_pieces_equiv client0 m1 (bytesToSend client0).2 [50; 0; 50]).
  - exists client0. split; [constructor|apply rtc_refl].
  - vm_compute. reflexivity.
  - discriminate.
  - repeat constructor; discriminate.
  - discriminate.
Defined.

End witnesses.
