(* ===== verification/Driver.v ===== *)
(** What a program that drives a handshake over a connection relies on: the
    two moves of the loops in crouton/SecretHandshakeStream.cc and
    capnproto/SecretConnection.cc. [send_turn] is [bytesToSend] and
    [sendCompleted]; [read_turn] is [bytesToRead], the connection's read into
    the returned buffer, and [readCompleted] or [readFailed]. Each is a
    sequence of calls of the interface, so that everything proved of reachable
    handshakes applies to these programs; [moves_left] bounds the number of
    moves. *)
From Stdlib Require Import ZArith Lia Strings.Byte.
From stdpp Require Import base list numbers option tactics relations.
From S2P Require Import Prelude Crypto Shs Handshake Pieces.

Open Scope Z_scope.

(** A handshake between two moves. *)
Record settled {P : Primitives} (h : Handshake) : Prop := {
  settled_inv : inv h;
  settled_out : _outputBuffer h = [];
}.

(** The number of messages still to be sent or received. *)
Definition moves_left (h : Handshake) : nat :=
  match _step h with
  | ClientChallenge => 4 | ServerChallenge => 3 | ClientAuth => 2 | ServerAck => 1
  | Failed | Finished => 0
  end.

Section driver.
Context {P : Primitives} {PL : PrimitivesLaws P}.
Implicit Types (h : Handshake).

Lemma hmac_not_nil K m rest : hmac K m ++ rest ≠ [].
Proof. pose proof (hmac_len K m) as Hl. by destruct (hmac K m). Qed.

Lemma hs_box_not_nil k m : hs_box k m ≠ [].
Proof.
  unfold hs_box. pose proof (box_len (a := xsalsa20) k zero_nonce m) as Hl.
  unfold sizeof_MAC in Hl. intros E. rewrite E in Hl. cbn in Hl. lia.
Qed.

(** On its turn a peer always has something to say. *)
Lemma outgoing_not_nil h d i' :
  inv h → sending h = true → _fillOutputBuffer h = (Ok tt, set_outputBuffer d (set_impl i' h)) →
  d ≠ [].
Proof.
  intros [_ _ _ Hpr] Hs Hf.
  destruct h as [[|f] ctx [] err i ib ob]; try discriminate Hs; unfold progress in Hpr; cbn in Hpr;
    unfold _fillOutputBuffer, client_fillOutputBuffer, server_fillOutputBuffer, spaceFor, on_impl in Hf; mrun_in Hf.
  - injection Hf as _ <-. apply hmac_not_nil.
  - destruct Hpr as ([Bp HYp] & (bp & Hk) & _).
    rewrite (createClientAuth_run i Bp bp HYp Hk) in Hf. injection Hf as _ <-. apply hs_box_not_nil.
  - injection Hf as _ <-. apply hmac_not_nil.
  - destruct Hpr as ((Ap & ap & s & msg & (Hk & HaB & HH & _ & _ & _ & _ & HAb & _)) & _).
    rewrite (createServerAck_run i ap _ _ s Hk HaB HAb HH) in Hf.
    injection Hf as _ <-. apply hs_box_not_nil.
Qed.

Lemma call_step h c r h' :
  inv h → call_ok h c → do_call c h = (r, h') →
  rtc api_step h h' ∧ inv h' ∧ same_identity h h'.
Proof.
  intros Hi Hok Hr. pose proof (do_call_post h c Hi Hok) as Hp. unfold wp in Hp.
  rewrite Hr in Hp. destruct Hp as (? & ? & _). split; [by apply rtc_once; econstructor|done].
Qed.

(** One message out. *)
Lemma send_turn h :
  settled h → sending h = true →
  ∃ b h1, bytesToSend h = (Ok b, h1) ∧ b ≠ [] ∧ sendCompleted h1 = (Ok tt, sent h1) ∧
    settled (sent h1) ∧ rtc api_step h h1 ∧ rtc api_step h (sent h1) ∧ inv h1 ∧
    h_kind (sent h1) = h_kind h ∧ _step (sent h1) = Step_of (Step_val (_step h) + 1).
Proof.
  intros [Hi Ho] Hs. destruct (sending_step h Hs) as (Hf & Hf' & _).
  destruct (fillOutputBuffer_spec h Hi Hs Ho) as (d & i' & Hfill & Hid & Hi1).
  pose proof (outgoing_not_nil h d i' Hi Hs Hfill) as Hd.
  set (h1 := set_outputBuffer d (set_impl i' h)) in *.
  assert (bytesToSend h = (Ok d, h1)) as Hb.
  { unfold bytesToSend. mrun. rewrite bool_decide_eq_false_2 by (intros []; done).
    rewrite Ho, bool_decide_eq_true_2 by done. by rewrite Hfill. }
  assert (sendCompleted h1 = (Ok tt, sent h1)) as Hc.
  { unfold sendCompleted. mrun. rewrite bool_decide_eq_false_2 by done.
    by rewrite nextStep_run. }
  destruct (call_step h CallBytesToSend (Ok tt) h1 Hi I) as (Hr1 & _).
  { cbn [do_call]. by rewrite (bind_Ok _ _ _ _ _ Hb). }
  destruct (call_step h1 CallSendCompleted (Ok tt) (sent h1) Hi1 I Hc) as (Hr2 & Hi2 & _).
  exists d, h1. split_and!; try done. by etrans.
Qed.

(** One message in. [b] is what the connection put into the buffer. *)
Lemma read_turn h b :
  settled h → 0 < byteCountNeeded h → len b <= byteCountNeeded h →
  ∃ h1 h2, bytesToRead h = (Ok (byteCountNeeded h), h1) ∧ fillInput b h1 = (Ok tt, h2) ∧
    rtc api_step h h1 ∧ settled h1 ∧ _step h1 = _step h ∧
    (len b = byteCountNeeded h →
     ∃ ok h3, readCompleted h2 = (Ok ok, h3) ∧ settled h3 ∧ rtc api_step h h3 ∧
       h_kind h3 = h_kind h ∧
       _step h3 = if ok : bool then Step_of (Step_val (_step h) + 1) else Failed) ∧
    (∃ h3, readFailed h2 = (Ok tt, h3) ∧ settled h3 ∧ rtc api_step h h3 ∧ _step h3 = Failed).
Proof.
  intros [Hi Ho] Hn Hb.
  set (h1 := set_inputBuffer (vec_resize (byteCountNeeded h) (_inputBuffer h)) h).
  assert (bytesToRead h = (Ok (byteCountNeeded h), h1)) as Hbr by done.
  destruct (call_step h CallBytesToRead (Ok tt) h1 Hi I eq_refl) as (Hr1 & Hi1 & _).
  assert (len (_inputBuffer h1) = byteCountNeeded h) as Hl1 by (cbn; apply vec_resize_length; lia).
  destruct (mwrite (_inputBuffer h1) 0 b) as [buf|] eqn:Hw; [|by rewrite mwrite_is_Some in Hw by lia].
  set (h2 := set_inputBuffer buf h1).
  assert (fillInput b h1 = (Ok tt, h2)) as Hf by (unfold fillInput; rewrite bind_get, Hw; done).
  destruct (call_step h1 (CallFillInput b) (Ok tt) h2 Hi1 ltac:(unfold call_ok; lia) Hf) as (Hr2 & Hi2 & _).
  assert (rtc api_step h h2) as Hr by (by etrans).
  exists h1, h2. split_and!; try done.
  - intros _. apply mwrite_length in Hw.
    destruct (readCompleted_cases h2 Hi2)
      as [(Hbad & _)|[(_ & h3 & Hc & Hi3 & Hid & Hst & Ho3)|(_ & h3 & Hc & Hi3 & Hid & _ & Hst & _ & Ho3)]].
    + destruct Hbad. change (byteCountNeeded h2) with (byteCountNeeded h). cbn. lia.
    + destruct (call_step h2 CallReadCompleted (Ok tt) h3 Hi2 I) as (Hr3 & _).
      { cbn [do_call]. by rewrite (bind_Ok _ _ _ _ _ Hc). }
      exists false, h3. split_and!; try done; [constructor; [done|]|by etrans|apply Hid].
      by rewrite Ho3.
    + destruct (call_step h2 CallReadCompleted (Ok tt) h3 Hi2 I) as (Hr3 & _).
      { cbn [do_call]. by rewrite (bind_Ok _ _ _ _ _ Hc). }
      exists true, h3. split_and!; try done; [by etrans|apply Hid].
  - destruct (failed_inv h2) as (h3 & Hc & Hi3 & _ & Hst & Ho3).
    destruct (call_step h2 CallReadFailed (Ok tt) h3 Hi2 I Hc) as (Hr3 & _).
    exists h3. split_and!; try done; [constructor; [done|]|by etrans].
    by rewrite Ho3.
Qed.

Lemma bytesToRead_run h :
  bytesToRead h =
    (Ok (byteCountNeeded h), set_inputBuffer (vec_resize (byteCountNeeded h) (_inputBuffer h)) h).
Proof. done. Qed.

(** Every move brings the handshake closer to its end. *)
Lemma moves_next h st :
  _step h ≠ Failed → _step h ≠ Finished → st = Failed ∨ st = Step_of (Step_val (_step h) + 1) →
  ∀ h', _step h' = st → (moves_left h' < moves_left h)%nat.
Proof.
  intros ? ? Hst h' E. unfold moves_left. rewrite E.
  destruct Hst as [Hst|Hst]; rewrite Hst; destruct (_step h); try done; vm_compute; lia.
Qed.

Lemma session_of_finished h :
  inv h → _step h = Finished → ∃ sess, session h = (Ok sess, h).
Proof.
  intros Hi Hst. pose proof (inv_progress h Hi) as Hpr. unfold progress in Hpr.
  rewrite Hst in Hpr. destruct (h_kind h) as [|f].
  - destruct Hpr as (Bp & bp & t & ack & (HYp & (Hyp & _) & _) & Hk & _).
    eexists. by eapply session_run.
  - destruct Hpr as (Ap & ap & t & msg & ((Hyp & _) & _ & _ & _ & _ & _ & HYp & _) & Hk).
    eexists. by eapply session_run.
Qed.

End driver.
