(* ===== verification/Agreement.v ===== *)
(** Agreement: what a finished handshake says about the other side, when the
    network is hostile.

    Handshake.v shows that a peer that finishes has checked a signature. Here
    the other party is honest too and runs any number of sessions with the same
    long-term key, each of them driven by an arbitrary list of calls with
    arbitrary bytes ([life]). [signing] is the message that a session has
    signed, and [accepted] are the messages from the network that a session has
    accepted. The theorems: a client that finishes agrees with a session of its
    server on the application ID, the client's statement and the hash of the
    shared secret, and this session has checked that statement and authorized
    the client; a server that finishes agrees with a session of the client on
    the application ID, the server's key and the hash of the shared secret.
    Otherwise the last message it accepted has a forged signature inside. *)
From Stdlib Require Import ZArith Lia Strings.Byte.
From stdpp Require Import base list numbers option tactics relations.
From S2P Require Import Prelude Crypto Shs Handshake Driver.

Open Scope Z_scope.

Section sessions.
Context {P : Primitives}.

(** * Signatures *)

(** What [createClientAuth] and [createServerAck] sign. *)
Definition client_signs (i : handshake) : option bytes :=
  Bp ← _Yp i; hashab ← _hashab i; Some (_K i ++ Bp ++ hashab).
Definition server_signs (i : handshake) : option bytes :=
  H ← _H i; hashab ← _hashab i; Some (_K i ++ H ++ hashab).

(** The message a session has signed: the signature is made when the output
    buffer is filled with the client's third, or the server's fourth, message. *)
Definition signing (h : Handshake) : option bytes :=
  match h_kind h, _step h with
  | Client, ClientAuth => if bool_decide (_outputBuffer h = []) then None else client_signs (_impl h)
  | Client, ServerAck | Client, Finished => client_signs (_impl h)
  | Server _, ServerAck => if bool_decide (_outputBuffer h = []) then None else server_signs (_impl h)
  | Server _, Finished => server_signs (_impl h)
  | _, _ => None
  end.

(** A session: the object as it was constructed, and the calls made on it. *)
Record life := MkLife { born : Handshake; calls : list call }.

(** The states an object goes through. *)
Fixpoint states (cs : list call) (h : Handshake) : list Handshake :=
  h :: match cs with
       | [] => []
       | c :: cs => if call_okb h c then states cs (do_call c h).2 else []
       end.

Definition was (r : life) (h : Handshake) : Prop := h ∈ states (calls r) (born r).

Definition has_signed (r : life) (m : bytes) : Prop :=
  Exists (λ h, signing h = Some m) (states (calls r) (born r)).

#[global] Instance has_signed_dec r m : Decision (has_signed r m).
Proof. unfold has_signed. apply _. Defined.

(** The message that a call hands to the crypto object, when it is accepted. *)
Definition accepts (c : call) (h : Handshake) : option bytes :=
  match c with
  | CallReadCompleted =>
      match readCompleted h with (Ok true, _) => Some (_inputBuffer h) | _ => None end
  | CallReceivedBytes src =>
      match receivedBytes src h with
      | (Ok n, h') =>
          if bool_decide (_step h' ≠ _step h ∧ _step h' ≠ Failed)
          then Some (_inputBuffer h ++ ztake n src) else None
      | _ => None
      end
  | _ => None
  end.

(** The messages an object has accepted, in order. *)
Fixpoint accepted (cs : list call) (h : Handshake) : list bytes :=
  match cs with
  | [] => []
  | c :: cs =>
      if call_okb h c then option_list (accepts c h) ++ accepted cs (do_call c h).2 else []
  end.

(** [sig] is a valid signature of a message that none of the key's sessions
    has signed. *)
Definition signature_forged (pk m sig : bytes) (rs : list life) : Prop :=
  ed_check pk sig m = true ∧ Forall (λ r, ¬ has_signed r m) rs.

(** The sessions of one server, with its authorizer, and of one client, with
    whatever servers. *)
Definition server_start (f : option (bytes → bool)) (c : Context) (ephemeral : bytes) : Handshake :=
  Handshake_init (Server f) c ephemeral.

Definition server_life f c (r : life) : Prop := ∃ b, born r = server_start f c b.
Definition client_life c (r : life) : Prop := ∃ Bp a, born r = ClientHandshake c Bp a.

(** The server's session has accepted the client's statement [H], for the
    shared secret with hash [hashab], and has authorized the client [Ap]. *)
Definition server_agrees (f : option (bytes → bool)) (K H hashab Ap : bytes) (r : life) : Prop :=
  ∃ h ap msg, was r h ∧ _K (_impl h) = K ∧ _hashab (_impl h) = Some hashab ∧
    server_authed f (_impl h) Ap ap H msg.

(** The client's session has made its statement for the server [Bp] and the
    shared secret with hash [hashab]. *)
Definition client_agrees (K Bp hashab : bytes) (r : life) : Prop :=
  ∃ h bp H, was r h ∧ _K (_impl h) = K ∧ _hashab (_impl h) = Some hashab ∧
    client_sent (_impl h) Bp bp H.
End sessions.

(** * What a signed message says *)

Section agreement.
Context {P : Primitives} {PL : PrimitivesLaws P}.
Implicit Types (h : Handshake) (r : life).

Lemma hash_len m : len (hash m) = 32.
Proof. apply sha256_len. Qed.

(** Messages with parts of fixed sizes at both ends. *)
Lemma parts_inj (K K' m m' x x' : bytes) :
  len K = 32 → len K' = 32 → len x = 32 → len x' = 32 →
  K ++ m ++ x = K' ++ m' ++ x' → K = K' ∧ m = m' ∧ x = x'.
Proof.
  intros HK HK' Hx Hx' He. apply app_inj_1 in He as [-> He]; [|lia].
  apply app_inj_2 in He as [-> ->]; [done|lia].
Qed.

Lemma client_signing h m :
  inv h → h_kind h = Client → signing h = Some m →
  ∃ Bp bp H, client_sent (_impl h) Bp bp H ∧ m = _K (_impl h) ++ Bp ++ hash (kx_mult (_x (_impl h)) bp).
Proof.
  intros Hi Hk Hs. pose proof (inv_progress h Hi) as Hp. unfold progress, signing in *. rewrite Hk in *.
  assert (∃ Bp bp H, client_sent (_impl h) Bp bp H) as (Bp & bp & H & Hc).
  { destruct (_step h); try done.
    - case_bool_decide; [done|]. by apply Hp.
    - destruct Hp as (Bp & bp & H & ack & Hc & _). by exists Bp, bp, H. }
  exists Bp, bp, H. split; [done|]. destruct Hc as (HY & (_ & _ & Hab) & _).
  assert (client_signs (_impl h) = Some m) as Hm by (destruct (_step h); try done; by case_bool_decide).
  unfold client_signs in Hm. rewrite HY, Hab in Hm. by injection Hm as <-.
Qed.

Lemma server_signing f h m :
  inv h → h_kind h = Server f → signing h = Some m →
  ∃ Ap ap H msg, server_authed f (_impl h) Ap ap H msg ∧
    m = _K (_impl h) ++ H ++ hash (kx_mult (_x (_impl h)) ap).
Proof.
  intros Hi Hk Hs. pose proof (inv_progress h Hi) as Hp. unfold progress, signing in *. rewrite Hk in *.
  assert (∃ Ap ap H msg, server_authed f (_impl h) Ap ap H msg) as (Ap & ap & H & msg & Hc).
  { destruct (_step h); try done; [by apply Hp|].
    destruct Hp as (Ap & ap & H & msg & Hc & _). by exists Ap, ap, H, msg. }
  exists Ap, ap, H, msg. split; [done|]. destruct Hc as ((_ & _ & Hab) & _ & HH & _).
  assert (server_signs (_impl h) = Some m) as Hm by (destruct (_step h); try done; by case_bool_decide).
  unfold server_signs in Hm. rewrite HH, Hab in Hm. by injection Hm as <-.
Qed.

(** When an object makes a signature, [signing] is the message it signs. *)
Lemma fill_signs h :
  inv h → _outputBuffer h = [] →
  match h_kind h, _step h with
  | Client, ClientAuth => ∃ m k h', _fillOutputBuffer h = (Ok tt, h') ∧ signing h' = Some m ∧
      _outputBuffer h' = hs_box k (ed_sign (_X (_impl h)) m ++ _Xp (_impl h))
  | Server _, ServerAck => ∃ m k h', _fillOutputBuffer h = (Ok tt, h') ∧ signing h' = Some m ∧
      _outputBuffer h' = hs_box k (ed_sign (_X (_impl h)) m)
  | _, _ => True
  end.
Proof.
  intros Hi Ho. pose proof (inv_progress h Hi) as Hp.
  destruct h as [[|f] ctx [] err i ib ob]; try done; unfold progress in Hp; cbn in Hp, Ho; subst ob;
    unfold _fillOutputBuffer, client_fillOutputBuffer, server_fillOutputBuffer, spaceFor, on_impl; mrun.
  - destruct Hp as ([Bp HYp] & (bp & Hk) & _). rw_let (createClientAuth_run i Bp bp HYp Hk).
    destruct Hk as (Hyp & Hab & Hh). eexists _, _, _. split; [done|]. split; [|done].
    unfold signing. cbn. rewrite bool_decide_eq_false_2 by apply hs_box_not_nil.
    destruct i; cbn in *. unfold client_signs. cbn. by rewrite HYp, Hh.
  - destruct Hp as ((Ap & ap & s & msg & Hsa) & _).
    pose proof Hsa as (Hk & HaB & HH & ? & ? & ? & HYp & HAb & ?).
    rw_let (createServerAck_run i ap _ _ s Hk HaB HAb HH).
    destruct Hk as (Hyp & Hab & Hh). eexists _, _, _. split; [done|]. split; [|done].
    unfold signing. cbn. rewrite bool_decide_eq_false_2 by apply hs_box_not_nil.
    destruct i; cbn in *. unfold server_signs. cbn. by rewrite HH, Hh.
Qed.

(** States that a session has been in. *)
Lemma states_rtc cs h0 h : h ∈ states cs h0 → rtc api_step h0 h.
Proof.
  revert h0. induction cs as [|c cs IH]; cbn; intros h0; rewrite elem_of_cons.
  { intros [->|Hn]; [done|]. by apply elem_of_nil in Hn. }
  intros [->|Hn]; [done|]. destruct (call_okb h0 c) eqn:E; [|by apply elem_of_nil in Hn].
  eapply rtc_l; [|by apply IH]. destruct (do_call c h0) as [r h1] eqn:Ed.
  by eapply api_call; [apply call_okb_ok|].
Qed.

Lemma server_was f c r h :
  server_life f c r → was r h → inv h ∧ h_kind h = Server f ∧ _K (_impl h) = appID c.
Proof.
  intros [b Hb] Hs%states_rtc. rewrite Hb in Hs. assert (inv (server_start f c b)) as Hi by (by constructor).
  destruct (api_steps_inv _ _ Hi Hs) as (? & (Hk & _ & (HK & _) & _) & _). by rewrite Hk, HK.
Qed.

Lemma client_was c r h :
  client_life c r → was r h → inv h ∧ h_kind h = Client ∧ _K (_impl h) = appID c.
Proof.
  intros (Bp & a & Hb) Hs%states_rtc. rewrite Hb in Hs.
  destruct (api_steps_inv _ _ (initial_inv _ (initial_client c Bp a)) Hs) as (? & (Hk & _ & (HK & _) & _) & _).
  by rewrite Hk, HK.
Qed.

(** A session that has signed the message agrees on what is in it. *)
Lemma server_signed_agrees f c r K H x Ap :
  server_life f c r → len (appID c) = 32 → len K = 32 → len x = 32 →
  Ap = range sizeof_signature sizeof_public_key H →
  has_signed r (K ++ H ++ x) → server_agrees f K H x Ap r.
Proof.
  intros Hr Hc HK Hx -> (h & Hw & Hs)%Exists_exists. destruct (server_was _ _ _ _ Hr Hw) as (Hi & Hk & HK').
  destruct (server_signing f h _ Hi Hk Hs) as (Ap & ap & H' & msg & Ha & He).
  apply parts_inj in He as (HKe & <- & ->); [|done|by rewrite HK'|done|apply hash_len].
  exists h, ap, msg. pose proof Ha as ((_ & _ & Hab) & _ & _ & _ & _ & HAp & _).
  split_and!; [exact Hw|done|done|]. by rewrite <-HAp.
Qed.

Lemma client_signed_agrees c r K Bp x :
  client_life c r → len (appID c) = 32 → len K = 32 → len x = 32 →
  has_signed r (K ++ Bp ++ x) → client_agrees K Bp x r.
Proof.
  intros Hr Hc HK Hx (h & Hw & Hs)%Exists_exists. destruct (client_was _ _ _ Hr Hw) as (Hi & Hk & HK').
  destruct (client_signing h _ Hi Hk Hs) as (Bp' & bp & H' & Ha & He).
  apply parts_inj in He as (HKe & <- & ->); [|done|by rewrite HK'|done|apply hash_len].
  exists h, bp, H'. pose proof Ha as (_ & (_ & _ & Hab) & _). by split_and!.
Qed.

(** One of the sessions agrees, or else none of them has signed. *)
Lemma agreed_or_forged (agrees : life → Prop) rs m :
  (∀ r, r ∈ rs → has_signed r m → agrees r) →
  (∃ r, r ∈ rs ∧ agrees r) ∨ Forall (λ r, ¬ has_signed r m) rs.
Proof.
  intros Ha. destruct (decide (Forall (λ r, ¬ has_signed r m) rs)) as [|Hn]; [by right|left].
  apply not_Forall_Exists in Hn; [|apply _]. apply Exists_exists in Hn as (r & Hr & Hs).
  exists r. split; [done|]. apply Ha; [done|]. by apply dec_stable.
Qed.

(** * The accepted messages *)

(** A peer that is past the check of a signature has the message it checked. *)
Definition checked (h : Handshake) (msgs : list bytes) : Prop :=
  match h_kind h, _step h with
  | Client, Finished => ∃ Bp bp s ack, last msgs = Some ack ∧ client_done (_impl h) Bp bp s ack
  | Server f, ServerAck | Server f, Finished =>
      ∃ Ap ap s msg, last msgs = Some msg ∧ server_authed f (_impl h) Ap ap s msg
  | _, _ => True
  end.

(** A message that the crypto object accepts is the one that was checked. *)
Lemma received_checked h b h' msgs :
  inv h → len b = byteCountNeeded h → _receivedBytes b h = (Ok true, h') →
  checked (set_inputBuffer [] (set_step (Step_of (Step_val (_step h) + 1)) h')) (msgs ++ [b]).
Proof.
  intros [_ _ _ Hpr] Hb Hr. unfold checked.
  destruct h as [[|f] ctx [] err i ib ob]; cbn in *; try done; unfold progress in Hpr; cbn in Hpr.
  - unfold _receivedBytes, client_receivedBytes, on_impl in Hr. mrun_in Hr.
    rewrite verifyChallenge_run in Hr. by destruct (Spec.well_formed _ _); simplify_eq.
  - destruct Hpr as (Bp & bp & s & HYp & Hk & HaB & HAb & HH & Hs).
    unfold _receivedBytes, client_receivedBytes, on_impl in Hr. mrun_in Hr.
    rewrite ztake_all in Hr by lia.
    rewrite (verifyServerAck_run i Bp bp _ _ s b HYp Hk HaB HAb HH) in Hr. cbv zeta in Hr.
    destruct (hs_unbox _ b) as [sig|] eqn:E; injection Hr as Hc <-; [|done]. cbn.
    exists Bp, bp, s, b. split; [by rewrite last_snoc|]. destruct i. split_and!; try done. by exists sig.
  - unfold _receivedBytes, server_receivedBytes, on_impl in Hr. mrun_in Hr.
    rewrite verifyChallenge_run in Hr. by destruct (Spec.well_formed _ _); simplify_eq.
  - destruct Hpr as (ap & Hk).
    destruct (received_clientAuth f ctx err i ib ob b ap Hk Hb) as (ok & i' & Hr' & _ & Hok).
    rewrite Hr' in Hr. injection Hr as -> <-. destruct (Hok eq_refl) as (Ap & s & Ha).
    cbn. exists Ap, ap, s, b. by rewrite last_snoc.
Qed.

(** Filling the output buffer keeps what was checked. *)
Lemma fill_checked h d i' msgs :
  inv h → checked h msgs → _fillOutputBuffer h = (Ok tt, set_outputBuffer d (set_impl i' h)) →
  checked (set_outputBuffer d (set_impl i' h)) msgs.
Proof.
  intros [_ _ _ Hpr] Hc Hf. unfold checked in *.
  destruct h as [[|f] ctx [] err i ib ob]; cbn in *; try done; unfold progress in Hpr; cbn in Hpr;
    unfold _fillOutputBuffer, client_fillOutputBuffer, server_fillOutputBuffer, spaceFor, on_impl in Hf;
    mrun_in Hf; try (by injection Hf as <- _).
  destruct Hc as (Ap & ap & s & msg & Hl & Ha). pose proof Ha as (Hk & HaB & HH & _ & _ & _ & _ & HAb & _).
  rewrite (createServerAck_run i ap _ _ s Hk HaB HAb HH) in Hf. injection Hf as Hi _.
  exists Ap, ap, s, msg. split; [done|]. subst i'. exact Ha.
Qed.

(** So does sending the message in it. *)
Lemma next_checked h msgs d :
  sending h = true → checked h msgs →
  checked (set_step (Step_of (Step_val (_step h) + 1)) (set_outputBuffer d h)) msgs.
Proof. by destruct h as [[|f] ctx [] err i ib ob]. Qed.

Lemma failed_checked h msgs : _step h = Failed → checked h msgs.
Proof. intros Hf. unfold checked. rewrite Hf. by destruct (h_kind h). Qed.

(** [readCompleted] accepts what is in the input buffer. *)
Lemma readCompleted_checked h (r : outcome bool) h' msgs :
  inv h → checked h msgs → readCompleted h = (r, h') →
  checked h' (match r with Ok true => msgs ++ [_inputBuffer h] | _ => msgs end) ∧
  (r = Ok true ↔ _step h' ≠ _step h ∧ _step h' ≠ Failed).
Proof.
  intros Hi Hc Hr.
  destruct (readCompleted_cases h Hi)
    as [(_ & Hr')|[(_ & h1 & Hr' & _ & _ & Hst & _)|(Hl & h1 & Hr' & _ & _ & Hn & Hst & _)]];
    rewrite Hr' in Hr; injection Hr as <- <-.
  - naive_solver.
  - split; [by apply failed_checked|]. naive_solver.
  - destruct (needed_step h Hn) as (Hf & Hf' & _).
    split; [|split; [intros _|done]; rewrite Hst; by destruct (_step h)].
    unfold readCompleted in Hr'. rewrite bind_get, Hl, Z.eqb_refl in Hr'. cbn [negb] in Hr'.
    destruct (receivedBytes_spec h _ Hi Hn Hl) as (ok & i' & Hrb & _ & _).
    pose proof (received_checked h (_inputBuffer h) (set_impl i' h) msgs Hi Hl) as Hck.
    rewrite (bind_Ok _ _ _ _ _ Hrb) in Hr'. destruct ok; [|done].
    rewrite (bind_Ok _ _ _ _ _ (nextStep_run (set_impl i' h) Hf Hf')) in Hr'. mrun_in Hr'.
    injection Hr' as <-. by apply Hck.
Qed.

Lemma receivedBytes_checked h src msgs :
  inv h → checked h msgs →
  checked (receivedBytes src h).2 (msgs ++ option_list (accepts (CallReceivedBytes src) h)).
Proof.
  intros Hi Hc. cbn [accepts]. unfold receivedBytes. mrun.
  case_bool_decide as Hst; [cbn; rewrite bool_decide_eq_false_2 by naive_solver; by rewrite app_nil_r|].
  destruct (byteCountNeeded h =? 0) eqn:En; zbool; cbn.
  { rewrite bool_decide_eq_false_2 by naive_solver. by rewrite app_nil_r. }
  pose proof (inv_in h Hi ltac:(naive_solver)) as Hin. pose proof (needed_nonneg h) as Hnn.
  rewrite size_sub_exact by lia. set (count := Z.min _ _). set (h1 := set_inputBuffer _ h).
  assert (inv h1) as Hi1.
  { destruct Hi as [He Hout _ Hpr]. constructor; try done. intros _. cbn.
    change (byteCountNeeded h1) with (byteCountNeeded h). unfold count. len_lia. }
  assert (checked h1 msgs) as Hc1 by exact Hc.
  destruct (_ <? _); cbn.
  { rewrite bool_decide_eq_false_2 by naive_solver. by rewrite app_nil_r. }
  destruct (readCompleted h1) as [r h2] eqn:Er.
  destruct (readCompleted_checked h1 r h2 msgs Hi1 Hc1 Er) as [Hck Hacc].
  destruct r as [ok|e]; cbn; [|by rewrite app_nil_r]. cbn in Hacc.
  destruct (decide (_step h2 ≠ _step h ∧ _step h2 ≠ Failed)) as [Hs|Hs].
  - rewrite bool_decide_eq_true_2 by done. apply Hacc in Hs as Hok. injection Hok as ->.
    rewrite bool_decide_eq_true_2 by apply Hs. exact Hck.
  - rewrite bool_decide_eq_false_2 by done. rewrite app_nil_r.
    destruct ok; [|exact Hck]. by destruct Hs; apply Hacc.
Qed.

Lemma bytesToSend_checked h msgs :
  inv h → checked h msgs → checked (bytesToSend h).2 msgs.
Proof.
  intros Hi Hc. unfold bytesToSend. mrun. case_bool_decide; [done|]. case_bool_decide as Ho; [|done].
  destruct (sending h) eqn:Hs; [|by rewrite fillOutputBuffer_idle].
  destruct (fillOutputBuffer_spec h Hi Hs Ho) as (d & i' & Hf & _ & _).
  pose proof (fill_checked h d i' msgs Hi Hc Hf) as Hck. by rewrite Hf.
Qed.

Lemma copyBytesToSend_checked h n msgs :
  inv h → checked h msgs → checked (copyBytesToSend n h).2 msgs.
Proof.
  intros Hi Hc. unfold copyBytesToSend. rewrite bind_get. case_bool_decide as Hf; [done|].
  destruct (copy_fill h Hi) as (go & h1 & Hgo & Hi1 & _ & Hst & Hne).
  assert (checked h1 msgs) as Hc1.
  { case_bool_decide as Ho; [|by injection Hgo as _ <-].
    pose proof (bytesToSend_checked h msgs Hi Hc) as Hb. unfold mbind, M_bind in Hgo.
    destruct (bytesToSend h) as [[b|e] h2]; cbn in Hb, Hgo; [by injection Hgo as _ <-|done]. }
  rewrite (bind_Ok _ _ _ _ _ Hgo). destruct go; cbn [negb]; [|done].
  assert (_step h1 ≠ Failed) as Hf1 by (by rewrite Hst).
  destruct (copy_out_post h1 (Z.min (len (_outputBuffer h1)) n) Hi1 Hf1 (Hne eq_refl)) as (Hr & _).
  rewrite bind_get, bind_modify. rewrite bind_get, (bind_Ok _ _ _ _ _ Hr). cbn [snd mret M_ret].
  case_bool_decide; [|done]. apply (next_checked h1 msgs); [|done].
  by apply inv_sending; [| |apply Hne].
Qed.

Lemma sendCompleted_checked h msgs :
  inv h → checked h msgs → checked (sendCompleted h).2 msgs.
Proof.
  intros Hi Hc. destruct (decide (_outputBuffer h = [])) as [Ho|Ho].
  { unfold sendCompleted. mrun. by rewrite bool_decide_eq_true_2. }
  destruct (decide (_step h = Failed)) as [Hf|Hf].
  { rewrite sendCompleted_aborts by done. by apply failed_checked. }
  pose proof (inv_sending h Hi Hf Ho) as Hs. destruct (sending_step h Hs) as (_ & Hf' & _).
  unfold sendCompleted. mrun. rewrite bool_decide_eq_false_2 by done.
  rewrite nextStep_run by done. by apply (next_checked h msgs []).
Qed.

Lemma getOutcome_state i : (getOutcome i).2 = i.
Proof.
  unfold getOutcome, value_of. rewrite bind_get.
  destruct (_serverAckKey i); [|done]. destruct (_Yp i); [|done]. by destruct (_yp i).
Qed.

Lemma session_state h : (session h).2 = h.
Proof.
  unfold session. rewrite bind_get. case_bool_decide; [done|]. unfold on_impl, zoom.
  pose proof (getOutcome_state (_impl h)) as Hg. destruct (getOutcome _) as [r i']. cbn in *.
  subst i'. by destruct h.
Qed.

Lemma unit_state {A} (m : M Handshake A) h : ((m ≫= λ _, mret tt) h : outcome unit * _).2 = (m h).2.
Proof. unfold mbind, M_bind. by destruct (m h) as [[]]. Qed.

Lemma readCompleted_accepts h msgs :
  inv h → checked h msgs →
  checked (readCompleted h).2 (msgs ++ option_list (accepts CallReadCompleted h)).
Proof.
  intros Hi Hc. cbn [accepts]. destruct (readCompleted h) as [r h'] eqn:Er.
  destruct (readCompleted_checked h r h' msgs Hi Hc Er) as [Hck _]. cbn [snd].
  destruct r as [[]|e]; cbn; rewrite ?app_nil_r; exact Hck.
Qed.

(** Every call keeps what was checked. *)
Lemma do_call_checked h c msgs :
  inv h → call_ok h c → checked h msgs →
  checked (do_call c h).2 (msgs ++ option_list (accepts c h)).
Proof.
  intros Hi Hok Hc.
  destruct c as [|src| | |src| | |n|]; cbn [do_call]; rewrite ?unit_state;
    try (cbn [accepts option_list]; rewrite app_nil_r).
  - exact Hc.
  - unfold fillInput. mrun. by destruct (mwrite _ _ _).
  - by apply readCompleted_accepts.
  - by apply failed_checked.
  - by apply receivedBytes_checked.
  - by apply bytesToSend_checked.
  - by apply sendCompleted_checked.
  - by apply copyBytesToSend_checked.
  - by rewrite session_state.
Qed.

Lemma run_calls_checked cs h0 h msgs :
  inv h0 → checked h0 msgs → run_calls cs h0 = Some h → checked h (msgs ++ accepted cs h0).
Proof.
  revert h0 msgs. induction cs as [|c cs IH]; cbn; intros h0 msgs Hi Hc.
  { intros [= ->]. by rewrite app_nil_r. }
  destruct (call_okb h0 c) eqn:E; [|done]. apply call_okb_ok in E. rewrite app_assoc.
  pose proof (do_call_post h0 c Hi E) as (Hi1 & _). apply IH; [exact Hi1|].
  by apply do_call_checked.
Qed.

(** * Properties *)

(** C4: A client that finishes with the server key of an honest server, whatever
    the network did: the last message it accepted opens, under the key of its
    session, to a signature that is valid under the server's key for the
    application ID, the client's own statement (which names both long-term
    keys) and the hash of the shared secret; and either one of the server's
    sessions agrees with the client on all three, has checked the statement and
    authorized the client's key, or this very signature is a forgery: none of
    the server's sessions ever signed what it signs. *)
Theorem client_agreement A cA a cs h f cB servers :
  keyPair cA = KeyPair_of_signingKey A → len (appID cA) = 32 → len (appID cB) = 32 →
  Forall (server_life f cB) servers →
  let Bp := publicKey (keyPair cB) in
  run_calls cs (ClientHandshake cA Bp a) = Some h → _step h = Finished →
  ∃ bp ack sig,
    let K := appID cA in let ab := kx_mult a bp in
    let H := Spec.H K A (ed_public A) Bp ab in
    _yp (_impl h) = Some bp ∧ last (accepted cs (ClientHandshake cA Bp a)) = Some ack ∧
    hs_unbox (hash (K ++ ab ++ mul_public a Bp ++ mul_signing A bp)) ack = Some sig ∧
    ed_check Bp sig (K ++ H ++ hash ab) = true ∧
    ((∃ r, r ∈ servers ∧ server_agrees f K H (hash ab) (ed_public A) r) ∨
     signature_forged Bp (K ++ H ++ hash ab) sig servers).
Proof.
  intros HA HKA HKB Hrs Bp Hs Hf. pose proof (initial_inv _ (initial_client cA Bp a)) as Hi0.
  pose proof (run_calls_checked cs _ h [] Hi0 I Hs) as Hck.
  destruct (api_steps_inv _ h Hi0 (run_calls_rtc _ _ _ Hs)) as (Hi & (Hk & _ & Hkeys & HY) & _).
  unfold checked in Hck. rewrite Hf, Hk in Hck. destruct Hkeys as (HK & HX & HXp & Hx & _).
  cbn in HK, HX, HXp, Hx, HY, Hck. rewrite HA in HX, HXp. cbn in HX, HXp.
  destruct Hck as (Bp' & bp & s & ack & Hl & (HYp & (Hyp & _) & _ & _ & _ & Hst) & _ & _ & sig & Hu & Hv).
  rewrite HY in HYp by done. injection HYp as <-. rewrite HK, Hx in Hv.
  rewrite HK, HX, HXp, Hx in Hst. subst s. unfold Spec.ackKey in Hu. rewrite HK, HX, Hx in Hu.
  exists bp, ack, sig. intros K ab H. split_and!; try done.
  destruct (agreed_or_forged (server_agrees f K H (hash ab) (ed_public A)) servers (K ++ H ++ hash ab))
    as [|Hno]; [|by left|by right].
  intros r Hr Hsig. rewrite Forall_forall in Hrs.
  eapply server_signed_agrees; [by apply Hrs|done|done|apply hash_len| |done]. symmetry. apply H_public_key.
Qed.

(** C5: A server that finishes with the key of an honest client as its peer,
    whatever the network did: the last message it accepted opens, under the key
    of its session, to a statement whose signature is valid under the client's
    key for the application ID, this server's key and the hash of the shared
    secret; and either one of the client's sessions, which meant this very
    server, agrees with it on all three, or this very signature is a forgery:
    none of the client's sessions ever signed what it signs. *)
Theorem server_agreement f cB b cs h cA clients :
  len (appID cA) = 32 → len (appID cB) = 32 → Forall (client_life cA) clients →
  run_calls cs (server_start f cB b) = Some h → _step h = Finished →
  ∃ ap sess msg s,
    let K := appID cB in let ab := kx_mult b ap in let Bp := publicKey (keyPair cB) in
    let Ap := peerPublicKey sess in let sig := range 0 64 s in
    _yp (_impl h) = Some ap ∧ session h = (Ok sess, h) ∧
    last (accepted cs (server_start f cB b)) = Some msg ∧
    hs_unbox (hash (K ++ ab ++ mul_signing (signingKey (keyPair cB)) ap)) msg = Some s ∧
    Ap = range 64 32 s ∧ ed_check Ap sig (K ++ Bp ++ hash ab) = true ∧
    (Ap = publicKey (keyPair cA) →
     (∃ r, r ∈ clients ∧ client_agrees K Bp (hash ab) r) ∨
     signature_forged Ap (K ++ Bp ++ hash ab) sig clients).
Proof.
  intros HKA HKB Hrs Hs Hf. assert (inv (server_start f cB b)) as Hi0 by (by constructor).
  pose proof (run_calls_checked cs _ h [] Hi0 I Hs) as Hck.
  destruct (api_steps_inv _ h Hi0 (run_calls_rtc _ _ _ Hs)) as (Hi & (Hk & _ & Hkeys & _) & _).
  pose proof (inv_progress h Hi) as Hp. unfold progress in Hp. unfold checked in Hck.
  rewrite Hf, Hk in Hp, Hck. destruct Hkeys as (HK & HX & HXp & Hx & _). cbn in HK, HX, HXp, Hx, Hp, Hck.
  destruct Hp as (Ap' & ap' & s' & msg' & ((Hyp' & _) & _ & _ & _ & _ & _ & HYp' & _) & Hak).
  destruct Hck as (Ap & ap & s & msg & Hl & ((Hyp & _) & _ & _ & _ & Hu & HAp & HYp & _ & Hv & _)).
  assert (ap' = ap) as -> by congruence. assert (Ap' = Ap) as -> by congruence.
  unfold Spec.H_valid in Hv. rewrite <-HAp, HK, HXp, Hx in Hv. unfold Spec.authKey in Hu. rewrite HK, HX, Hx in Hu.
  eexists ap, _, msg, s. intros K ab Bp Ap0 sig.
  split; [done|]. split; [by apply (session_run h _ _ _ Hf Hak HYp Hyp)|].
  subst Ap0. cbn [peerPublicKey Spec.session]. split_and!; try done. intros _.
  destruct (agreed_or_forged (client_agrees K Bp (hash ab)) clients (K ++ Bp ++ hash ab))
    as [|Hno]; [|by left|by right].
  intros r Hr Hsig. rewrite Forall_forall in Hrs.
  eapply client_signed_agrees; [by apply Hrs|done|done|apply hash_len|done].
Qed.
End agreement.

(** * Witnesses *)

Module Demo.
Import Toy Handshake.Demo.

(** The honest run: each side has one session. *)
Definition server_session : life := MkLife server0 server_calls.
Definition client_session : life := MkLife client0 client_calls.

Lemma client_agreement_witness :
  last (accepted client_calls client0) = Some m4 ∧
  ∃ bp, _yp (_impl client_end) = Some bp ∧
    let ab := kx_mult (replicate 32 x61) bp in
    let H := Spec.H K (replicate 32 x41) (ed_public (replicate 32 x41)) serverKey ab in
    ∃ r, r ∈ [server_session] ∧
      server_agrees None K H (Shs.hash ab) (ed_public (replicate 32 x41)) r.
Proof.
  split; [vm_compute; reflexivity|].
  destruct (client_agreement (replicate 32 x41) cctx (replicate 32 x61) client_calls client_end None sctx
    [server_session]) as (bp & ack & sig & Hbp & _ & _ & _ & Hag).
  - reflexivity.
  - reflexivity.
  - reflexivity.
  - constructor; [|constructor]. exists (replicate 32 x62). reflexivity.
  - vm_compute. reflexivity.
  - exact (proj1 both_finished).
  - exists bp. split; [exact Hbp|]. destruct Hag as [Hag|[_ Hf]]; [exact Hag|].
    exfalso. apply Forall_inv in Hf. apply Hf.
    assert (Some bp = _yp (_impl client_end)) as Hb by (rewrite Hbp; reflexivity).
    vm_compute in Hb. injection Hb as ->. apply (bool_decide_unpack _). vm_compute. exact I.
Defined.

Lemma server_agreement_witness :
  last (accepted server_calls server0) = Some m3 ∧
  ∃ ap, _yp (_impl server_end) = Some ap ∧
    ∃ r, r ∈ [client_session] ∧
      client_agrees K serverKey (Shs.hash (kx_mult (replicate 32 x62) ap)) r.
Proof.
  split; [vm_compute; reflexivity|].
  destruct (server_agreement None sctx (replicate 32 x62) server_calls server_end cctx [client_session])
    as (ap & sess & msg & s & Hap & Hs & _ & _ & _ & _ & Hag).
  - reflexivity.
  - reflexivity.
  - constructor; [|constructor]. exists serverKey, (replicate 32 x61). reflexivity.
  - vm_compute. reflexivity.
  - exact (proj2 both_finished).
  - exists ap. split; [exact Hap|].
    assert (peerPublicKey sess = publicKey (keyPair cctx)) as Hpeer.
    { assert ((session server_end).1 = Ok sess) as He by (rewrite Hs; reflexivity).
      vm_compute in He. injection He as <-. vm_compute. reflexivity. }
    destruct (Hag Hpeer) as [Hagr|[_ Hf]]; [exact Hagr|].
    exfalso. apply Forall_inv in Hf. apply Hf.
    assert (Some ap = _yp (_impl server_end)) as Hb by (rewrite Hap; reflexivity).
    vm_compute in Hb. injection Hb as ->. apply (bool_decide_unpack _). vm_compute. exact I.
Defined.
End Demo.
