(* ===== verification/Sizes.v ===== *)
(** The sizes of the fixed-size types.

    The source has [std::array] and [byte_array] types of fixed sizes for keys,
    nonces and messages (include/SecretHandshakeTypes.hh, include/shs.hh), and
    [static_assert]s and casts that rely on them. The model has byte strings, so
    that their sizes are a theorem: with a context and server key of the right
    sizes, every message a peer sends and the session it ends with have the
    sizes of their types, and a session fits the C structure [SHSSession]. *)
From Stdlib Require Import ZArith Lia Strings.Byte.
From stdpp Require Import base list numbers option tactics relations.
From S2P Require Import Prelude Crypto Shs Handshake Pieces Driver.

Open Scope Z_scope.

(** [PublicKey] is an array of 32 bytes. *)
Definition is_PublicKey (b : bytes) : Prop := len b = 32.

(** [Session], [SessionKey] and [Nonce]. *)
Record is_Session (s : Session) : Prop := {
  is_encryptionKey : len (encryptionKey s) = 32;
  is_encryptionNonce : len (encryptionNonce s) = 24;
  is_decryptionKey : len (decryptionKey s) = 32;
  is_decryptionNonce : len (decryptionNonce s) = 24;
  is_peerPublicKey : is_PublicKey (peerPublicKey s);
}.

(** The size of the message a peer has to send at each step. *)
Definition message_size (st : Step) : Z :=
  match st with
  | ClientChallenge | ServerChallenge => sizeof_ChallengeData
  | ClientAuth => sizeof_ClientAuthData
  | ServerAck => sizeof_ServerAckData
  | Failed | Finished => 0
  end.

(** A peer whose keys have the right sizes: its own public key, as the library
    computes it, and for a client the server's. *)
Definition typed_peer `{Primitives} (h : Handshake) : Prop :=
  (∃ A, _Xp (_impl h) = ed_public A) ∧ (∃ x, _xp (_impl h) = kx_public x) ∧
  (h_kind h = Client → ∃ pk, _Yp (_impl h) = Some pk ∧ is_PublicKey pk).

Section sizes.
Context {P : Primitives} {PL : PrimitivesLaws P}.
Implicit Types (h : Handshake).

Lemma hashToNonce_len K m : len (hashToNonce (hmac K m)) = 24.
Proof. unfold hashToNonce, range, sizeof_nonce. pose proof (hmac_len K m). len_lia. Qed.

Lemma session_typed K k Xp xp Yp yp : is_PublicKey Yp → is_Session (Spec.session K k Xp xp Yp yp).
Proof.
  intros HY. constructor; cbn; [apply sha256_len|apply hashToNonce_len|apply sha256_len|
    apply hashToNonce_len|done].
Qed.

(** The key in a client's statement. *)
Lemma unboxed_key_typed k msg s :
  len msg = sizeof_ClientAuthData → hs_unbox k msg = Some s →
  is_PublicKey (range sizeof_signature sizeof_public_key s).
Proof.
  intros Hl Hu. apply unbox_len in Hu. unfold is_PublicKey, range, sizeof_signature,
    sizeof_public_key, sizeof_ClientAuthData, sizeof_MAC in *. len_lia.
Qed.

Lemma finished_typed h sess :
  inv h → typed_peer h → session h = (Ok sess, h) → is_Session sess.
Proof.
  intros Hi (_ & _ & Hpk) Hs. pose proof (inv_progress h Hi) as Hpr. unfold progress in Hpr.
  destruct (decide (_step h = Finished)) as [Hf|Hf].
  2: { unfold session in Hs. mrun_in Hs. by rewrite bool_decide_eq_true_2 in Hs. }
  rewrite Hf in Hpr. destruct (h_kind h) as [|f].
  - destruct Hpr as (Bp & bp & t & ack & (HYp & (Hyp & _) & _) & Hk & _).
    rewrite (session_run h _ _ _ Hf Hk HYp Hyp) in Hs. simplify_eq. apply session_typed.
    destruct (Hpk eq_refl) as (pk & ? & ?). congruence.
  - destruct Hpr as (Ap & ap & t & msg & ((Hyp & _) & _ & _ & Hl & Hu & HAp & HYp & _) & Hk).
    rewrite (session_run h _ _ _ Hf Hk HYp Hyp) in Hs. simplify_eq.
    apply session_typed. by eapply unboxed_key_typed.
Qed.

Lemma typed_peer_steps h h' :
  inv h → typed_peer h → rtc api_step h h' → inv h' ∧ typed_peer h'.
Proof.
  intros Hi (HX & Hx & HY) Hs. destruct (api_steps_inv h h' Hi Hs) as (Hi' & (Hk & _ & Hkeys & HY') & _).
  split; [done|]. destruct Hkeys as (_ & _ & HXp & _ & Hxp). unfold typed_peer.
  rewrite HXp, Hxp, Hk. split_and!; [done..|]. intros E. rewrite HY' by done. auto.
Qed.

(** What a peer has to send has the size of its type. *)
Lemma message_typed h d i' :
  inv h → typed_peer h → sending h = true →
  (h_kind h = Client → ∃ A, _X (_impl h) = A ∧ _Xp (_impl h) = ed_public A) →
  _fillOutputBuffer h = (Ok tt, set_outputBuffer d (set_impl i' h)) →
  len d = message_size (_step h).
Proof.
  intros [_ _ _ Hpr] (_ & (x & Hx) & _) Hs HA Hf.
  destruct h as [[|f] ctx [] err i ib ob]; try discriminate Hs; unfold progress in Hpr; cbn in *;
    unfold _fillOutputBuffer, client_fillOutputBuffer, server_fillOutputBuffer, spaceFor, on_impl in Hf;
    mrun_in Hf.
  - injection Hf as _ <-. rewrite Hx. apply challenge_len.
  - destruct Hpr as ([Bp HYp] & (bp & Hk) & _).
    rewrite (createClientAuth_run i Bp bp HYp Hk) in Hf. injection Hf as _ <-.
    destruct (HA eq_refl) as (A & HX & HXp). apply clientAuth_len. rewrite HX, HXp. apply H_len.
  - injection Hf as _ <-. rewrite Hx. apply challenge_len.
  - destruct Hpr as ((Ap & ap & s & msg & (Hk & HaB & HH & _ & _ & _ & _ & HAb & _)) & _).
    rewrite (createServerAck_run i ap _ _ s Hk HaB HAb HH) in Hf.
    injection Hf as _ <-. apply serverAck_len.
Qed.

(** Peers whose keys come from a signing key; a client is given a public key of
    the server. *)
Inductive typed_start : Handshake → Prop :=
| typed_client K A pk e :
    is_PublicKey pk → typed_start (ClientHandshake (MkContext K (KeyPair_of_signingKey A)) pk e)
| typed_server K A e : typed_start (ServerHandshake (MkContext K (KeyPair_of_signingKey A)) e)
| typed_server_auth K A e f :
    typed_start (setClientAuthorizer f (ServerHandshake (MkContext K (KeyPair_of_signingKey A)) e)).

Lemma typed_start_peer h :
  typed_start h →
  inv h ∧ typed_peer h ∧ ∃ A, _X (_impl h) = A ∧ _Xp (_impl h) = ed_public A.
Proof.
  intros H. split; [destruct H; apply initial_inv; constructor|].
  split; [|destruct H as [? A|? A|? A]; exists A; done].
  destruct H as [? ? pk|?|?]; (split; [by eexists|]); (split; [by eexists|]); intros E;
    try discriminate E.
  by exists pk.
Qed.
End sizes.

(** * Properties *)

Section properties.
Context {P : Primitives} {PL : PrimitivesLaws P}.

(** C40: Keys, nonces and messages have the sizes of their types. Whatever a
    peer has gone through, a message it has to send has the 64, 112 or 80 bytes
    of its step, and the session it gets has 32-byte keys, 24-byte nonces and a
    32-byte peer key, and so the 144 bytes of the C structure. *)
Theorem sizes_typed h0 h :
  typed_start h0 → rtc api_step h0 h →
  (∀ sess, session h = (Ok sess, h) → is_Session sess ∧ len (Session_bytes sess) = 144) ∧
  (∀ b h', _outputBuffer h = [] → bytesToSend h = (Ok b, h') →
     b = [] ∨ len b = message_size (_step h)).
Proof.
  intros H0 Hs. destruct (typed_start_peer h0 H0) as (Hi0 & Ht0 & A & HX & HXp).
  destruct (typed_peer_steps h0 h Hi0 Ht0 Hs) as (Hi & Ht).
  destruct (api_steps_inv h0 h Hi0 Hs) as (_ & (_ & _ & (_ & HX' & HXp' & _) & _) & _). split.
  - intros sess Hsess. pose proof (finished_typed h sess Hi Ht Hsess) as Hok. split; [done|].
    destruct Hok as [? ? ? ? ?]. unfold Session_bytes, is_PublicKey in *. len_lia.
  - intros b h' Ho Hb. unfold bytesToSend in Hb. mrun_in Hb.
    case_bool_decide as Hst; [left; by simplify_eq|]. rewrite Ho, bool_decide_eq_true_2 in Hb by done.
    destruct (sending h) eqn:Es.
    + destruct (fillOutputBuffer_spec h Hi Es Ho) as (d & i' & Hfill & _). rewrite Hfill in Hb.
      cbn in Hb. injection Hb as <- _. right. eapply message_typed; try done.
      intros _. exists A. by rewrite HX', HXp'.
    + rewrite fillOutputBuffer_idle in Hb by naive_solver. left. by simplify_eq.
Qed.

End properties.

(** * Witnesses *)

Section witnesses.
Import Toy Handshake.Demo.

Lemma sizes_typed_witness :
  ∃ sess, session client_end = (Ok sess, client_end) ∧ len (Session_bytes sess) = 144.
Proof.
  destruct (sizes_typed client0 client_end) as [Hs _].
  - constructor. vm_compute. reflexivity.
  - exact client_run.
  - eexists. split; [vm_compute; reflexivity|]. apply Hs. vm_compute. reflexivity.
Defined.
End witnesses.
