(* ===== verification/Boxes.v ===== *)
(** Message encryption: [CryptoBox], [EncryptoBox] and [DecryptoBox] of
    src/SecretStream.cc and include/SecretStream.hh.

    A box works on the caller's memory through pointers: [input_data] and
    [output_buffer] are an address and a size in a memory [mem], which is part
    of the state. Input and output regions may overlap, as they do when
    [EncryptionStream] and [DecryptionStream] work inside their buffer. Reads
    and writes outside the memory are [OutOfBounds].

    [Wire.seal] is the wire format of one message. The theorems: [encrypt]
    writes exactly the sealed message, whatever the overlap; [decrypt] undoes
    it and consumes exactly the message; a prefix of a message is reported as
    incomplete and changes nothing; nothing outside the output region is
    written; and what [decrypt] accepts is authentic, with one exception that
    [compact_empty_forgery] pins down. *)
From Stdlib Require Import ZArith Lia Strings.Byte.
From stdpp Require Import base list numbers option tactics.
From S2P Require Import Prelude Crypto Shs.

Open Scope Z_scope.

(** * Types *)

Record input_data := MkIn { in_data : Z; in_size : Z }.
Record output_buffer := MkOut { out_data : Z; out_size : Z }.

Inductive status_t := Success | OutTooSmall | IncompleteInput | CorruptData.

Inductive Protocol := Compact | BoxStream.

#[global] Instance status_eq_dec : EqDecision status_t.
Proof. solve_decision. Defined.
#[global] Instance Protocol_eq_dec : EqDecision Protocol.
Proof. solve_decision. Defined.

Record CryptoBox := MkBox { _key : bytes; _nonce : bytes; _protocol : Protocol }.

Record PeekResult := MkPeek {
  pr_status : status_t; pr_decryptedSize : Z; pr_encryptedSize : Z }.

(** [BoxStreamHeader]: two bytes of size and a MAC. *)
Record BoxStreamHeader := MkHeader { size_be : bytes; header_mac : bytes }.

Definition sizeof_BoxStreamHeader : Z := 2 + sizeof_MAC.
Definition header_bytes (h : BoxStreamHeader) : bytes := size_be h ++ header_mac h.
Definition header_of (b : bytes) : BoxStreamHeader := MkHeader (take 2 b) (drop 2 b).

Definition kMaxMessageSize : Z := 0xFFFF.

(** The constructors from a session; the default protocol is [Compact]. *)
Definition EncryptoBox_of_session (s : Session) (p : Protocol) : CryptoBox :=
  MkBox (encryptionKey s) (encryptionNonce s) p.
Definition DecryptoBox_of_session (s : Session) (p : Protocol) : CryptoBox :=
  MkBox (decryptionKey s) (decryptionNonce s) p.

(** A box and the memory its caller's pointers point into. *)
Record boxenv := MkEnv { the_box : CryptoBox; mem : bytes }.

Definition set_nonce n (e : boxenv) :=
  MkEnv (MkBox (_key (the_box e)) n (_protocol (the_box e))) (mem e).
Definition set_mem m (e : boxenv) := MkEnv (the_box e) m.

(** [*a .. *(a+n)], and the assignment of bytes there. *)
Definition load (a n : Z) : M boxenv bytes := e ← get; in_bounds (mread (mem e) a n).
Definition store (a : Z) (bs : bytes) : M boxenv unit :=
  e ← get; m ← in_bounds (mwrite (mem e) a bs); modify (set_mem m).

(** * Operations *)

(** The two bytes [writeUint16At] stores; it asserts that the size fits. *)
Definition uint16_be (size : Z) : bytes :=
  [z2b (Z.land (Z.shiftr size 8) 0xFF); z2b (Z.land size 0xFF)].

Definition writeUint16At (size : Z) : M boxenv bytes :=
  assert_ (size <=? 0xFFFF);; mret (uint16_be size).

Definition readUint16At (src : bytes) : Z :=
  match src with
  | b0 :: b1 :: _ => Z.lor (Z.shiftl (b2z b0) 8) (b2z b1)
  | _ => 0
  end.

(** How the calls of the cipher and the rest of the code run on a state [X]:
    [direct] calls the primitives, and [logging] also writes down the nonce of
    every call of [lock] and [box]. *)
Record machine (X : Type) := MkMachine {
  on_env : ∀ A, M boxenv A → M X A;
  call_lock : Aead → bytes → bytes → bytes → M X (bytes * bytes);
  call_box : Aead → bytes → bytes → bytes → M X bytes;
}.
Arguments on_env {X} _ {A} _.
Arguments call_lock {X}.
Arguments call_box {X}.

Section ops.
Context {P : Primitives}.

Definition encryptedSize (p : Protocol) (inputSize : Z) : Z :=
  match p with
  | BoxStream => size_add (sizeof_BoxStreamHeader + sizeof_MAC) inputSize
  | Compact => size_add (2 + sizeof_MAC) inputSize
  end.

(** [++nonce] on the session's nonce. *)
Definition incr_nonce : M boxenv unit :=
  e ← get; modify (set_nonce (nonce_incr (_nonce (the_box e)))).

Definition direct : machine boxenv :=
  MkMachine _ (λ A m, m) (λ a k n plain, mret (lock a k n plain)) (λ a k n plain, mret (box a k n plain)).

Definition logging : machine (boxenv * list bytes) :=
  MkMachine _
    (λ A m '(e, l), let '(r, e') := m e in (r, (e', l)))
    (λ a k n plain '(e, l), (Ok (lock a k n plain), (e, l ++ [n])))
    (λ a k n plain '(e, l), (Ok (box a k n plain), (e, l ++ [n]))).

(** [EncryptoBox::encrypt]. *)
Definition encrypt_on {X} (C : machine X) (inp : input_data) (out : output_buffer)
  : M X (status_t * output_buffer) :=
  if 0xFFFF <? in_size inp then throw InvalidArgument
  else
    e ← on_env C get;
    let encSize := encryptedSize (_protocol (the_box e)) (in_size inp) in
    if out_size out <? encSize then mret (OutTooSmall, out)
    else
      let out := MkOut (out_data out) encSize in
      let dst := out_data out in
      let key := _key (the_box e) in
      match _protocol (the_box e) with
      | BoxStream =>
          size ← on_env C (writeUint16At (in_size inp));
          let ciphertextp := dst + sizeof_BoxStreamHeader + sizeof_MAC in
          plain ← on_env C (load (in_data inp) (in_size inp));
          locked ← call_lock C xsalsa20 key (_nonce (the_box e)) plain;
          on_env C (store ciphertextp locked.2);;
          let header := MkHeader size locked.1 in
          on_env C incr_nonce;;
          e ← on_env C get;
          boxed ← call_box C xsalsa20 key (_nonce (the_box e)) (header_bytes header);
          on_env C (store dst boxed);;
          on_env C incr_nonce;;
          mret (Success, out)
      | Compact =>
          plain ← on_env C (load (in_data inp) (in_size inp));
          boxed ← call_box C xchacha20 key (_nonce (the_box e)) plain;
          on_env C (store (dst + 2) boxed);;
          on_env C incr_nonce;;
          size ← on_env C (writeUint16At (in_size inp));
          on_env C (store dst size);;
          mret (Success, out)
      end.

Definition encrypt (inp : input_data) (out : output_buffer) : M boxenv (status_t * output_buffer) :=
  encrypt_on direct inp out.

(** The same call, with the nonces it gives to the cipher. *)
Definition encrypt_logged (inp : input_data) (out : output_buffer)
  : M (boxenv * list bytes) (status_t * output_buffer) :=
  encrypt_on logging inp out.

(** Returns the header it decrypts with the peek result; the header is
    meaningful only on [Success]. *)
Definition decryptBoxStreamHeader (inp : input_data) : M boxenv (PeekResult * BoxStreamHeader) :=
  let kPrefixSize := sizeof_MAC + sizeof_BoxStreamHeader in
  let noHeader := MkHeader [] [] in
  if in_size inp <? kPrefixSize then mret (MkPeek IncompleteInput 0 kPrefixSize, noHeader)
  else
    e ← get;
    let key := _key (the_box e) in
    let nonce := nonce_incr (_nonce (the_box e)) in
    boxed ← load (in_data inp) kPrefixSize;
    let out := unbox xsalsa20 key nonce boxed in
    if negb (unbox_size xsalsa20 out =? sizeof_BoxStreamHeader)
    then mret (MkPeek CorruptData 0 0, noHeader)
    else
      match out with
      | None => throw IndeterminateRead
      | Some hb =>
          let header := header_of hb in
          let decryptedSize := readUint16At (size_be header) in
          mret (MkPeek Success decryptedSize (kPrefixSize + decryptedSize), header)
      end.

Definition minPeekSize (b : CryptoBox) : Z :=
  match _protocol b with
  | BoxStream => sizeof_MAC + sizeof_BoxStreamHeader
  | Compact => 2
  end.

Definition peek (inp : input_data) : M boxenv PeekResult :=
  e ← get;
  match _protocol (the_box e) with
  | BoxStream => '(r, _) ← decryptBoxStreamHeader inp; mret r
  | Compact =>
      if in_size inp <? 2 then mret (MkPeek IncompleteInput 0 2)
      else
        b ← load (in_data inp) 2;
        let decryptedSize := readUint16At b in
        mret (MkPeek Success decryptedSize (encryptedSize Compact decryptedSize))
  end.

Definition getDecryptedSize (inp : input_data) : M boxenv (status_t * Z) :=
  r ← peek inp; mret (pr_status r, pr_decryptedSize r).

(** What a failed decryption leaves in the output region. *)
Definition spoil (a : Aead) (addr n : Z) : M boxenv unit :=
  old ← load addr n; store addr (residue a old).

(** The common end of [decrypt]: advance the nonce, shrink the output, step
    over the input. *)
Definition decrypt_done (inp : input_data) (out : output_buffer) (r : PeekResult)
  : M boxenv (status_t * input_data * output_buffer) :=
  incr_nonce;;
  mret (Success,
        MkIn (in_data inp + pr_encryptedSize r) (size_sub (in_size inp) (pr_encryptedSize r)),
        MkOut (out_data out) (pr_decryptedSize r)).

Definition decrypt (inp : input_data) (out : output_buffer)
  : M boxenv (status_t * input_data * output_buffer) :=
  e ← get;
  let src := in_data inp in
  let key := _key (the_box e) in
  let nonce := _nonce (the_box e) in
  match _protocol (the_box e) with
  | BoxStream =>
      '(r, header) ← decryptBoxStreamHeader inp;
      if negb (bool_decide (pr_status r = Success)) then mret (pr_status r, inp, out)
      else if in_size inp <? pr_encryptedSize r then mret (IncompleteInput, inp, out)
      else if out_size out <? pr_decryptedSize r then mret (OutTooSmall, inp, out)
      else
        ciphertext ← load (src + sizeof_MAC + sizeof_BoxStreamHeader) (pr_decryptedSize r);
        match unlock xsalsa20 key nonce (header_mac header) ciphertext with
        | None =>
            spoil xsalsa20 (out_data out) (pr_decryptedSize r);; mret (CorruptData, inp, out)
        | Some plain =>
            store (out_data out) plain;;
            incr_nonce;;
            decrypt_done inp out r
        end
  | Compact =>
      r ← peek inp;
      if negb (bool_decide (pr_status r = Success)) then mret (pr_status r, inp, out)
      else if in_size inp <? pr_encryptedSize r then mret (IncompleteInput, inp, out)
      else if out_size out <? pr_decryptedSize r then mret (OutTooSmall, inp, out)
      else
        boxed ← load (src + 2) (size_sub (pr_encryptedSize r) 2);
        let res := unbox xchacha20 key nonce boxed in
        match res with
        | Some plain => store (out_data out) plain
        | None => spoil xchacha20 (out_data out) (pr_decryptedSize r)
        end;;
        if negb (unbox_size xchacha20 res =? pr_decryptedSize r)
        then mret (CorruptData, inp, out)
        else decrypt_done inp out r
  end.

End ops.

(** * The wire format *)

Module Wire.
Section wire.
Context {P : Primitives}.

(** One encrypted message. *)
Definition seal (p : Protocol) (key nonce msg : bytes) : bytes :=
  match p with
  | Compact => uint16_be (len msg) ++ box xchacha20 key nonce msg
  | BoxStream =>
      box xsalsa20 key (nonce_incr nonce)
        (uint16_be (len msg) ++ (lock xsalsa20 key nonce msg).1)
      ++ (lock xsalsa20 key nonce msg).2
  end.

(** The nonce after one message. *)
Definition next (p : Protocol) (nonce : bytes) : bytes :=
  match p with Compact => nonce_incr nonce | BoxStream => nonce_incr (nonce_incr nonce) end.

(** [opens p key nonce w msg]: the bytes [w] authenticate, under the key and
    nonce, as the message [msg]. *)
Definition opens (p : Protocol) (key nonce w msg : bytes) : Prop :=
  match p with
  | Compact =>
      readUint16At (take 2 w) = len msg ∧ unbox xchacha20 key nonce (drop 2 w) = Some msg
  | BoxStream =>
      ∃ header, unbox xsalsa20 key (nonce_incr nonce) (take 34 w) = Some header ∧
        readUint16At (take 2 header) = len msg ∧
        unlock xsalsa20 key nonce (drop 2 header) (drop 34 w) = Some msg
  end.

(** What can be said of the message at the front of the bytes [d]: it is
    complete and accepted ([Success]), it is not complete and what there is of
    it is in order ([IncompleteInput]), or it does not authenticate
    ([CorruptData]). An empty compact message is accepted unauthenticated. *)
Definition front (p : Protocol) (key nonce d : bytes) : status_t :=
  match p with
  | Compact =>
      let n := readUint16At (take 2 d) in
      if (len d <? 2) || (len d <? 18 + n) then IncompleteInput
      else match unbox xchacha20 key nonce (ztake (16 + n) (drop 2 d)) with
           | Some _ => Success
           | None => if n =? 0 then Success else CorruptData
           end
  | BoxStream =>
      if len d <? 34 then IncompleteInput
      else match unbox xsalsa20 key (nonce_incr nonce) (take 34 d) with
           | None => CorruptData
           | Some header =>
               let n := readUint16At (take 2 header) in
               if len d <? 34 + n then IncompleteInput
               else match unlock xsalsa20 key nonce (drop 2 header) (ztake n (drop 34 d)) with
                    | Some _ => Success
                    | None => CorruptData
                    end
           end
  end.

(** The number of bytes a message grows by, and the length of the part that
    announces its size. *)
Definition overhead (p : Protocol) : Z := match p with Compact => 18 | BoxStream => 34 end.
Definition prefix (p : Protocol) : Z := match p with Compact => 2 | BoxStream => 34 end.
End wire.
End Wire.

(** * Sixteen-bit sizes *)

Lemma lor_shiftl_8 a b : 0 <= b < 256 → Z.lor (Z.shiftl a 8) b = 256 * a + b.
Proof.
  intros Hb. assert (Z.land (Z.shiftl a 8) b = 0) as Hl.
  { apply Z.bits_inj'. intros i Hi. rewrite Z.land_spec, Z.bits_0, Z.shiftl_spec by lia.
    destruct (decide (i < 8)); [by rewrite Z.testbit_neg_r by lia|].
    destruct (decide (b = 0)) as [->|]; [by rewrite Z.bits_0, andb_false_r|].
    rewrite (Z.bits_above_log2 b i), andb_false_r; [done|lia|].
    assert (Z.log2 b < 8) by (apply Z.log2_lt_pow2; lia). lia. }
  rewrite <-Z.lxor_lor, <-Z.add_nocarry_lxor by done.
  rewrite Z.shiftl_mul_pow2 by lia. lia.
Qed.

Lemma uint16_be_length n : length (uint16_be n) = 2%nat.
Proof. done. Qed.
#[export] Hint Rewrite uint16_be_length : shs_rw.

(** What [writeUint16At] stores, [readUint16At] reads back. *)
Lemma readUint16At_uint16_be n rest :
  0 <= n <= 0xFFFF → readUint16At (uint16_be n ++ rest) = n.
Proof.
  intros Hn. unfold uint16_be, readUint16At. cbn [app].
  change 0xFF with (Z.ones 8). rewrite !Z.land_ones, !b2z_z2b by lia.
  rewrite Z.shiftr_div_pow2 by lia. change (2 ^ 8) with 256.
  rewrite !Z.mod_mod by lia. rewrite lor_shiftl_8 by (apply Z.mod_pos_bound; lia).
  rewrite (Z.mod_small (n / 256)) by (split; [apply Z.div_pos; lia|apply Z.div_lt_upper_bound; lia]).
  symmetry. apply Z.div_mod. lia.
Qed.

Lemma readUint16At_range b : 0 <= readUint16At b <= 0xFFFF.
Proof.
  destruct b as [|b0 [|b1 b]]; cbn; try lia.
  pose proof (b2z_range b0). pose proof (b2z_range b1). rewrite lor_shiftl_8; lia.
Qed.

(** * Runs of the operations *)

Section runs.
Context {P : Primitives} {PL : PrimitivesLaws P}.
Implicit Types (e : boxenv) (p : Protocol) (msg : bytes).

Lemma load_run e a n bs : mread (mem e) a n = Some bs → load a n e = (Ok bs, e).
Proof. intros H. unfold load. mrun. by rewrite H. Qed.

Lemma store_run e a bs m : mwrite (mem e) a bs = Some m → store a bs e = (Ok tt, set_mem m e).
Proof. intros H. unfold store. mrun. by rewrite H. Qed.

Lemma writeUint16At_run e n : n <= 0xFFFF → writeUint16At n e = (Ok (uint16_be n), e).
Proof. intros H. unfold writeUint16At. by ztest. Qed.

Lemma encryptedSize_exact p n :
  0 <= n → n <= size_max - Wire.overhead p → encryptedSize p n = Wire.overhead p + n.
Proof.
  unfold size_max, encryptedSize, sizeof_BoxStreamHeader, sizeof_MAC.
  destruct p; cbn; intros; rewrite size_add_exact; unfold size_max; lia.
Qed.

Lemma seal_len p k n msg : len (Wire.seal p k n msg) = Wire.overhead p + len msg.
Proof.
  destruct p; cbn [Wire.seal Wire.overhead];
    repeat (rewrite length_app, Nat2Z.inj_add; autorewrite with shs_rw);
    unfold sizeof_MAC; lia.
Qed.

(** The part of a sealed message that is written last. *)
Definition seal_head p k n msg : bytes :=
  match p with
  | Compact => uint16_be (len msg)
  | BoxStream => box xsalsa20 k (nonce_incr n) (uint16_be (len msg) ++ (lock xsalsa20 k n msg).1)
  end.
Definition seal_body p k n msg : bytes :=
  match p with
  | Compact => box xchacha20 k n msg
  | BoxStream => (lock xsalsa20 k n msg).2
  end.

Lemma seal_split p k n msg : Wire.seal p k n msg = seal_head p k n msg ++ seal_body p k n msg.
Proof. by destruct p. Qed.

Lemma seal_head_len p k n msg : len (seal_head p k n msg) = Wire.prefix p.
Proof.
  destruct p; cbn [seal_head]; [done|].
  autorewrite with shs_rw. rewrite length_app, Nat2Z.inj_add. by autorewrite with shs_rw.
Qed.

(** Writing the body above and then the head below is one write of the
    sealed message. *)
Lemma seal_writes e p k n msg a m' :
  mwrite (mem e) a (Wire.seal p k n msg) = Some m' →
  ∃ m1, mwrite (mem e) (a + Wire.prefix p) (seal_body p k n msg) = Some m1 ∧
        mwrite m1 a (seal_head p k n msg) = Some m'.
Proof.
  intros Hw. pose proof (seal_head_len p k n msg) as Hh.
  pose proof Hw as Hw'. unfold mwrite in Hw'. destruct (_ && _) eqn:E; [|done]. zbool.
  rewrite seal_split in *.
  assert (∃ m1, mwrite (mem e) (a + len (seal_head p k n msg)) (seal_body p k n msg) = Some m1)
    as [m1 Hm1].
  { rewrite mwrite_is_Some by len_lia. by eexists. }
  exists m1. rewrite <-Hh. split; [done|]. 
  by rewrite (mwrite_mwrite_below (mem e) a _ (seal_body p k n msg)) by done.
Qed.

(** [encrypt] writes the sealed message at the output address, for any
    placement of input and output. *)
Lemma encrypt_run e inp out msg m' :
  let b := the_box e in
  let p := _protocol b in
  mread (mem e) (in_data inp) (in_size inp) = Some msg →
  in_size inp <= kMaxMessageSize →
  Wire.overhead p + in_size inp <= out_size out →
  mwrite (mem e) (out_data out) (Wire.seal p (_key b) (_nonce b) msg) = Some m' →
  encrypt inp out e =
    (Ok (Success, MkOut (out_data out) (Wire.overhead p + in_size inp)),
     MkEnv (MkBox (_key b) (Wire.next p (_nonce b)) p) m').
Proof.
  destruct e as [[k n p] mm]; cbn. intros Hr Hmax Hout Hw.
  destruct (mread_Some _ _ _ _ Hr) as (_ & Hn0 & _ & _ & Hlen).
  destruct (seal_writes (MkEnv (MkBox k n p) mm) _ _ _ _ _ _ Hw) as (m1 & H1 & H2).
  unfold kMaxMessageSize in Hmax.
  unfold encrypt, encrypt_on. cbn [direct on_env call_lock call_box]. ztest. rewrite bind_get.
  cbn [the_box _protocol _key _nonce].
  rewrite encryptedSize_exact by (unfold size_max; destruct p; cbn; lia). ztest.
  destruct p; cbn [the_box _protocol _nonce _key Wire.overhead out_data] in *.
  - rewrite (bind_Ok _ _ _ _ _ (load_run (MkEnv _ mm) _ _ _ Hr)).
    rewrite bind_ret, (bind_Ok _ _ _ _ _ (store_run (MkEnv _ mm) _ _ _ H1)).
    rewrite (bind_Ok incr_nonce _ _ _ _ eq_refl).
    rewrite (bind_Ok _ _ _ _ _ (writeUint16At_run _ _ Hmax)). unfold store. mrun.
    cbn in H2. rewrite Hlen in H2. by rewrite H2.
  - rewrite (bind_Ok _ _ _ _ _ (writeUint16At_run _ _ Hmax)).
    rewrite (bind_Ok _ _ _ _ _ (load_run (MkEnv _ mm) _ _ _ Hr)).
    cbn [seal_head seal_body] in *.
    destruct (lock xsalsa20 k n msg) as [mac ct] eqn:El. cbn [fst snd] in *.
    unfold sizeof_BoxStreamHeader, sizeof_MAC. rewrite <-Z.add_assoc, bind_ret. cbn [fst snd].
    rewrite (bind_Ok _ _ _ _ _ (store_run (MkEnv _ mm) _ _ _ H1)).
    rewrite (bind_Ok incr_nonce _ _ _ _ eq_refl), bind_get, bind_ret.
    unfold store. mrun. unfold header_bytes. cbn. cbn in H2. rewrite Hlen in H2. by rewrite H2.
Qed.


(** The message size that the head of a sealed message announces. *)
Lemma header_run e inp msg :
  let b := the_box e in
  _protocol b = BoxStream → len msg <= kMaxMessageSize →
  mread (mem e) (in_data inp) 34 = Some (seal_head BoxStream (_key b) (_nonce b) msg) →
  34 <= in_size inp →
  decryptBoxStreamHeader inp e =
    (Ok (MkPeek Success (len msg) (34 + len msg),
         MkHeader (uint16_be (len msg)) (lock xsalsa20 (_key b) (_nonce b) msg).1), e).
Proof.
  destruct e as [[k n p] mm]; cbn -[seal_head]. intros -> Hmax Hr Hin.
  unfold decryptBoxStreamHeader, sizeof_BoxStreamHeader, sizeof_MAC. ztest.
  rewrite bind_get. change (16 + (2 + 16)) with 34.
  rewrite (bind_Ok _ _ _ _ _ (load_run (MkEnv _ mm) _ _ _ Hr)).
  cbn [seal_head the_box _key _nonce]. rewrite unbox_box. cbn [unbox_size].
  pose proof (lock_mac_len (a := xsalsa20) k n msg) as Hm. unfold sizeof_MAC in Hm.
  rewrite length_app, uint16_be_length. ztest. cbn [negb].
  unfold header_of, kMaxMessageSize in *.
  rewrite take_app_length', drop_app_length' by done. cbn [size_be].
  rewrite <-(app_nil_r (uint16_be (len msg))), readUint16At_uint16_be by lia.
  by rewrite app_nil_r.
Qed.

Lemma peek_compact_run e inp msg :
  let b := the_box e in
  _protocol b = Compact → len msg <= kMaxMessageSize →
  mread (mem e) (in_data inp) 2 = Some (uint16_be (len msg)) → 2 <= in_size inp →
  peek inp e = (Ok (MkPeek Success (len msg) (18 + len msg)), e).
Proof.
  destruct e as [[k n p] mm]; cbn -[uint16_be]. unfold kMaxMessageSize. intros -> Hmax Hr Hin.
  unfold peek. rewrite bind_get. cbn [the_box _protocol]. ztest.
  rewrite (bind_Ok _ _ _ _ _ (load_run (MkEnv _ mm) _ _ _ Hr)).
  rewrite <-(app_nil_r (uint16_be (len msg))), readUint16At_uint16_be by lia.
  by rewrite encryptedSize_exact by (unfold size_max; cbn; lia).
Qed.

(** [decrypt] on a sealed message recovers it, and consumes exactly it. *)
Lemma decrypt_run e inp out msg m' :
  let b := the_box e in
  let p := _protocol b in
  let total := Wire.overhead p + len msg in
  mread (mem e) (in_data inp) total = Some (Wire.seal p (_key b) (_nonce b) msg) →
  len msg <= kMaxMessageSize → total <= in_size inp → len msg <= out_size out →
  mwrite (mem e) (out_data out) msg = Some m' →
  decrypt inp out e =
    (Ok (Success, MkIn (in_data inp + total) (in_size inp - total), MkOut (out_data out) (len msg)),
     MkEnv (MkBox (_key b) (Wire.next p (_nonce b)) p) m').
Proof.
  destruct e as [[k n p] mm]. cbn -[Wire.seal Wire.overhead]. intros Hr Hmax Hin Hout Hw.
  rewrite seal_split in Hr. apply mread_app in Hr as [Hh Hb]. rewrite seal_head_len in Hh, Hb.
  unfold decrypt. rewrite bind_get. cbn [the_box _protocol _key _nonce].
  destruct p; cbn [Wire.prefix Wire.overhead] in *.
  - rewrite (bind_Ok _ _ _ _ _
      (peek_compact_run (MkEnv (MkBox k n Compact) mm) inp msg eq_refl Hmax Hh ltac:(lia))).
    cbn [pr_status pr_decryptedSize pr_encryptedSize negb bool_decide]. 
    rewrite bool_decide_eq_true_2 by done. cbn [negb]. ztest.
    cbn [seal_body] in Hb. rewrite box_len in Hb. unfold sizeof_MAC in Hb.
    rewrite size_sub_exact by lia. replace (18 + len msg - 2) with (len msg + 16) by lia.
    rewrite (bind_Ok _ _ _ _ _ (load_run (MkEnv _ mm) _ _ _ Hb)). rewrite unbox_box.
    rewrite (bind_Ok _ _ _ _ _ (store_run (MkEnv _ mm) _ _ _ Hw)).
    cbn [unbox_size]. ztest. cbn [negb]. unfold decrypt_done, incr_nonce. mrun.
    by rewrite size_sub_exact by lia.
  - rewrite (bind_Ok _ _ _ _ _
      (header_run (MkEnv (MkBox k n BoxStream) mm) inp msg eq_refl Hmax Hh ltac:(lia))).
    cbn [pr_status pr_decryptedSize pr_encryptedSize the_box _key _nonce header_mac].
    rewrite bool_decide_eq_true_2 by done. cbn [negb]. ztest.
    cbn [seal_body] in Hb. rewrite lock_len in Hb.
    unfold sizeof_BoxStreamHeader, sizeof_MAC. rewrite <-Z.add_assoc.
    rewrite (bind_Ok _ _ _ _ _ (load_run (MkEnv _ mm) _ _ _ Hb)). rewrite unlock_lock.
    rewrite (bind_Ok _ _ _ _ _ (store_run (MkEnv _ mm) _ _ _ Hw)).
    unfold decrypt_done, incr_nonce. mrun. by rewrite size_sub_exact by lia.
Qed.

(** A proper prefix of a sealed message is incomplete, and nothing changes. *)
Lemma decrypt_prefix e inp out msg d rest :
  let b := the_box e in
  mread (mem e) (in_data inp) (in_size inp) = Some d →
  d ++ rest = Wire.seal (_protocol b) (_key b) (_nonce b) msg → rest ≠ [] →
  len msg <= kMaxMessageSize →
  decrypt inp out e = (Ok (IncompleteInput, inp, out), e).
Proof.
  destruct e as [[k n p] mm]. cbn -[Wire.seal]. intros Hr Hd Hrest Hmax.
  assert (in_size inp < Wire.overhead p + len msg) as Hlt.
  { apply mread_Some in Hr as (_ & _ & _ & _ & <-). rewrite <-(seal_len p k n msg), <-Hd.
    destruct rest; [done|]. len_lia. }
  assert (Wire.prefix p <= in_size inp →
    mread mm (in_data inp) (Wire.prefix p) = Some (seal_head p k n msg)) as Hh.
  { intros Hp. destruct (mread_split _ _ _ _ (Wire.prefix p) Hr) as [-> _];
      [destruct p; cbn in *; lia|]. f_equal. apply mread_Some in Hr as (_ & _ & _ & _ & Hl).
    rewrite seal_split in Hd. apply (f_equal (take (Z.to_nat (Wire.prefix p)))) in Hd.
    rewrite (ztake_app_exact (seal_head p k n msg)) in Hd by (by rewrite seal_head_len).
    rewrite <-Hd, take_app_le by lia. done. }
  unfold decrypt. rewrite bind_get. cbn [the_box _protocol].
  destruct p; cbn [Wire.prefix Wire.overhead] in *.
  - destruct (decide (2 <= in_size inp)) as [H2|H2].
    + rewrite (bind_Ok _ _ _ _ _
        (peek_compact_run (MkEnv (MkBox k n Compact) mm) inp msg eq_refl Hmax (Hh H2) H2)).
      cbn [pr_status pr_encryptedSize]. rewrite bool_decide_eq_true_2 by done. cbn [negb]. by ztest.
    + unfold peek. mrun. by ztest.
  - destruct (decide (34 <= in_size inp)) as [H2|H2].
    + rewrite (bind_Ok _ _ _ _ _
        (header_run (MkEnv (MkBox k n BoxStream) mm) inp msg eq_refl Hmax (Hh H2) H2)).
      cbn [pr_status pr_encryptedSize]. rewrite bool_decide_eq_true_2 by done. cbn [negb]. by ztest.
    + unfold decryptBoxStreamHeader, sizeof_BoxStreamHeader, sizeof_MAC. mrun. by ztest.
Qed.


(** The caller's regions are valid. *)
Definition regions_ok e (inp : input_data) (out : output_buffer) : Prop :=
  0 <= in_data inp ∧ 0 <= in_size inp ∧ in_data inp + in_size inp <= len (mem e) ∧
  0 <= out_data out ∧ 0 <= out_size out ∧ out_data out + out_size out <= len (mem e).

Lemma mwrite_nil m a : 0 <= a <= len m → mwrite m a [] = Some m.
Proof.
  intros H. rewrite mwrite_is_Some by (cbn; lia). cbn.
  by rewrite Z.add_0_r, take_drop.
Qed.

Lemma spoil_run a `{!AeadLaws a} e addr n :
  0 <= addr → 0 <= n → addr + n <= len (mem e) →
  ∃ junk m', len junk = n ∧ mwrite (mem e) addr junk = Some m' ∧
    spoil a addr n e = (Ok tt, set_mem m' e).
Proof.
  intros Ha Hn Hb. pose proof (mread_is_Some _ _ _ Ha Hn Hb) as Hr.
  set (old := ztake n (zdrop addr (mem e))) in *.
  assert (len (residue a old) = n) as Hl.
  { rewrite residue_len. by apply mread_Some in Hr as (_ & _ & _ & _ & ?). }
  destruct (mwrite (mem e) addr (residue a old)) as [m'|] eqn:Hw.
  - exists (residue a old), m'. split_and!; [done..|].
    unfold spoil. rewrite (bind_Ok _ _ _ _ _ (load_run _ _ _ _ Hr)). by apply store_run.
  - rewrite mwrite_is_Some in Hw by lia. done.
Qed.

(** All the ways a header can be read. *)
Lemma header_cases e inp out :
  regions_ok e inp out →
  (in_size inp < 34 ∧
   ∃ hd, decryptBoxStreamHeader inp e = (Ok (MkPeek IncompleteInput 0 34, hd), e)) ∨
  (34 <= in_size inp ∧ ∃ boxed hd, mread (mem e) (in_data inp) 34 = Some boxed ∧
   unbox xsalsa20 (_key (the_box e)) (nonce_incr (_nonce (the_box e))) boxed = None ∧
   decryptBoxStreamHeader inp e = (Ok (MkPeek CorruptData 0 0, hd), e)) ∨
  (34 <= in_size inp ∧ ∃ boxed hb, mread (mem e) (in_data inp) 34 = Some boxed ∧
   unbox xsalsa20 (_key (the_box e)) (nonce_incr (_nonce (the_box e))) boxed = Some hb ∧
   let d := readUint16At (take 2 hb) in
   decryptBoxStreamHeader inp e = (Ok (MkPeek Success d (34 + d), header_of hb), e)).
Proof.
  intros (? & ? & ? & _). unfold decryptBoxStreamHeader, sizeof_BoxStreamHeader, sizeof_MAC.
  change (16 + (2 + 16)) with 34. destruct (in_size inp <? 34) eqn:E; zbool.
  { left. split; [done|]. by eexists. }
  right. rewrite bind_get.
  assert (∃ boxed, mread (mem e) (in_data inp) 34 = Some boxed) as [boxed Hr].
  { eexists. apply mread_is_Some; lia. }
  rewrite (bind_Ok _ _ _ _ _ (load_run _ _ _ _ Hr)).
  destruct (unbox xsalsa20 _ _ boxed) as [hb|] eqn:Eu.
  - right. split; [lia|]. exists boxed, hb. split_and!; [done..|].
    apply unbox_len in Eu. apply mread_Some in Hr as (_ & _ & _ & _ & Hl).
    unfold sizeof_MAC in Eu. cbn [unbox_size]. by ztest.
  - left. split; [lia|]. cbn [unbox_size]. rewrite unbox_failed_empty. by eexists _, _.
Qed.

(** What [decrypt] can do, when the caller's regions are valid. *)
Definition decrypt_spec e inp out (st : status_t) inp' out' e' : Prop :=
  let b := the_box e in
  let p := _protocol b in
  let n := out_size out' in
  match st with
  | Success =>
      the_box e' = MkBox (_key b) (Wire.next p (_nonce b)) p ∧
      0 <= n <= out_size out ∧ n <= kMaxMessageSize ∧ Wire.overhead p + n <= in_size inp ∧
      inp' = MkIn (in_data inp + (Wire.overhead p + n)) (in_size inp - (Wire.overhead p + n)) ∧
      out_data out' = out_data out ∧
      ∃ w msg, mread (mem e) (in_data inp) (Wire.overhead p + n) = Some w ∧
        mwrite (mem e) (out_data out) msg = Some (mem e') ∧ len msg = n ∧
        (Wire.opens p (_key b) (_nonce b) w msg ∨
         p = Compact ∧ n = 0 ∧ readUint16At (take 2 w) = 0 ∧
         unbox xchacha20 (_key b) (_nonce b) (drop 2 w) = None)
  | CorruptData =>
      the_box e' = b ∧ inp' = inp ∧ out' = out ∧
      ∃ junk, len junk <= out_size out ∧ mwrite (mem e) (out_data out) junk = Some (mem e')
  | OutTooSmall => e' = e ∧ inp' = inp ∧ out' = out ∧ out_size out < in_size inp
  | IncompleteInput => e' = e ∧ inp' = inp ∧ out' = out
  end.

Lemma decrypt_cases_compact e inp out :
  _protocol (the_box e) = Compact → regions_ok e inp out →
  ∃ st inp' out' e', decrypt inp out e = (Ok (st, inp', out'), e') ∧
    decrypt_spec e inp out st inp' out' e'.
Proof.
  destruct e as [[k n p] mm]. cbn [the_box _protocol].
  intros -> (Ha & Hz & Hin & Hoa & Hoz & Hout).
  cbn [mem] in *. unfold decrypt. rewrite bind_get.
  cbn [the_box _protocol _key _nonce]. destruct (decide (2 <= in_size inp)) as [H2|H2].
  2: { unfold peek. mrun. ztest. mrun. by eexists _, _, _, _. }
  pose proof (mread_is_Some mm (in_data inp) 2 Ha ltac:(done) ltac:(lia)) as Hs.
  set (sz := ztake 2 _) in Hs. set (d := readUint16At sz).
  pose proof (readUint16At_range sz) as Hd. fold d in Hd.
  assert (peek inp (MkEnv (MkBox k n Compact) mm)
          = (Ok (MkPeek Success d (18 + d)), MkEnv (MkBox k n Compact) mm)) as Hp.
  { unfold peek. rewrite bind_get. cbn [the_box _protocol]. ztest.
    rewrite (bind_Ok _ _ _ _ _ (load_run (MkEnv _ mm) _ _ _ Hs)). fold d.
    by rewrite encryptedSize_exact by (unfold size_max; cbn; lia). }
  rewrite (bind_Ok _ _ _ _ _ Hp). cbn [pr_status pr_decryptedSize pr_encryptedSize].
  rewrite bool_decide_eq_true_2 by done. cbn [negb].
  destruct (in_size inp <? 18 + d) eqn:E1; zbool; [by eexists _, _, _, _|].
  destruct (out_size out <? d) eqn:E2; zbool;
    [eexists _, _, _, _; split; [done|]; cbn; split_and!; [done..|lia]|].
  pose proof (mread_is_Some mm (in_data inp) (18 + d) Ha ltac:(lia) ltac:(lia)) as Hw.
  set (w := ztake (18 + d) _) in Hw. destruct (mread_split _ _ _ _ 2 Hw) as [Hw1 Hw2]; [lia|].
  rewrite Hs in Hw1. injection Hw1 as Hw1.
  rewrite size_sub_exact by lia. rewrite (bind_Ok _ _ _ _ _ (load_run (MkEnv _ mm) _ _ _ Hw2)).
  change (zdrop 2 w) with (drop 2 w) in *.
  destruct (unbox xchacha20 k n (drop 2 w)) as [msg|] eqn:Eu.
  - assert (len msg = d) as Hmsg.
    { apply unbox_len in Eu. apply mread_Some in Hw2 as (_ & _ & _ & _ & Hl).
      unfold sizeof_MAC in Eu. lia. }
    destruct (mwrite mm (out_data out) msg) as [m'|] eqn:Hm;
      [|by rewrite mwrite_is_Some in Hm by lia].
    rewrite (bind_Ok _ _ _ _ _ (store_run (MkEnv _ mm) _ _ _ Hm)). cbn [unbox_size]. ztest.
    cbn [negb]. unfold decrypt_done, incr_nonce. mrun. eexists _, _, _, _. split; [done|].
    unfold decrypt_spec, kMaxMessageSize. cbn. rewrite size_sub_exact by lia.
    split_and!; try done; try lia. exists w, msg. split_and!; try done. left. split; [|done].
    change (take 2 w) with (ztake 2 w). rewrite <-Hw1. by rewrite Hmsg.
  - destruct (spoil_run xchacha20 (MkEnv (MkBox k n Compact) mm) (out_data out) d)
      as (junk & m' & Hj & Hm & Hsp); [cbn; lia..|].
    rewrite (bind_Ok _ _ _ _ _ Hsp). cbn [unbox_size]. rewrite unbox_failed_empty.
    destruct (0 =? d) eqn:E0; zbool; cbn [negb]; mrun.
    + unfold decrypt_done, incr_nonce. mrun. eexists _, _, _, _. split; [done|].
      unfold decrypt_spec, kMaxMessageSize. cbn. rewrite size_sub_exact by lia.
      split_and!; try done; try lia. exists w, junk. split_and!; try done. right.
      split_and!; try done. change (take 2 w) with (ztake 2 w). by rewrite <-Hw1.
    + eexists _, _, _, _. split; [done|]. unfold decrypt_spec; cbn. split_and!; try done.
      exists junk. split; [lia|done].
Qed.

Lemma decrypt_cases_boxstream e inp out :
  _protocol (the_box e) = BoxStream → regions_ok e inp out →
  ∃ st inp' out' e', decrypt inp out e = (Ok (st, inp', out'), e') ∧
    decrypt_spec e inp out st inp' out' e'.
Proof.
  destruct e as [[k n p] mm]. cbn [the_box _protocol].
  intros -> Hreg. pose proof Hreg as (Ha & Hz & Hin & Hoa & Hoz & Hout).
  cbn [mem] in *. unfold decrypt. rewrite bind_get.
  cbn [the_box _protocol _key _nonce].
  destruct (header_cases _ inp out Hreg)
    as [(_ & hd & Hh)|[(_ & ? & hd & _ & _ & Hh)|(H34 & boxed & hb & Hr & Hu & Hh)]]; cbv zeta in Hh;
    rewrite (bind_Ok _ _ _ _ _ Hh); cbn [pr_status pr_decryptedSize pr_encryptedSize];
    [by eexists _, _, _, _| |].
  { cbn. eexists _, _, _, _. split; [done|]. split_and!; try done. exists [].
    split; [cbn; lia|]. apply mwrite_nil. cbn. lia. }
  cbn [the_box _key _nonce mem] in *. set (d := readUint16At (take 2 hb)) in *.
  pose proof (readUint16At_range (take 2 hb)) as Hd. fold d in Hd.
  rewrite bool_decide_eq_true_2 by done. cbn [negb].
  destruct (in_size inp <? 34 + d) eqn:E1; zbool; [by eexists _, _, _, _|].
  destruct (out_size out <? d) eqn:E2; zbool;
    [eexists _, _, _, _; split; [done|]; cbn; split_and!; [done..|lia]|].
  pose proof (mread_is_Some mm (in_data inp) (34 + d) Ha ltac:(lia) ltac:(lia)) as Hw.
  set (w := ztake (34 + d) _) in Hw. destruct (mread_split _ _ _ _ 34 Hw) as [Hw1 Hw2]; [lia|].
  rewrite Hr in Hw1. injection Hw1 as ->. replace (34 + d - 34) with d in Hw2 by lia.
  unfold sizeof_BoxStreamHeader, sizeof_MAC. rewrite <-Z.add_assoc.
  rewrite (bind_Ok _ _ _ _ _ (load_run (MkEnv _ mm) _ _ _ Hw2)).
  change (zdrop 34 w) with (drop 34 w) in *. cbn [header_of header_mac].
  destruct (unlock xsalsa20 k n (drop 2 hb) (drop 34 w)) as [msg|] eqn:Eu.
  - assert (len msg = d) as Hmsg.
    { apply unlock_len in Eu. apply mread_Some in Hw2 as (_ & _ & _ & _ & Hl). lia. }
    destruct (mwrite mm (out_data out) msg) as [m'|] eqn:Hm;
      [|by rewrite mwrite_is_Some in Hm by lia].
    rewrite (bind_Ok _ _ _ _ _ (store_run (MkEnv _ mm) _ _ _ Hm)).
    unfold decrypt_done, incr_nonce. mrun. eexists _, _, _, _. split; [done|].
    unfold decrypt_spec, kMaxMessageSize. cbn. rewrite size_sub_exact by lia.
    split_and!; try done; try lia. exists w, msg. split_and!; try done. left. exists hb.
    by rewrite Hmsg.
  - destruct (spoil_run xsalsa20 (MkEnv (MkBox k n BoxStream) mm) (out_data out) d)
      as (junk & m' & Hj & Hm & Hsp); [cbn; lia..|].
    rewrite (bind_Ok _ _ _ _ _ Hsp). mrun. eexists _, _, _, _. split; [done|].
    unfold decrypt_spec; cbn. split_and!; try done. exists junk. split; [lia|done].
Qed.

Lemma decrypt_cases e inp out :
  regions_ok e inp out →
  ∃ st inp' out' e', decrypt inp out e = (Ok (st, inp', out'), e') ∧
    decrypt_spec e inp out st inp' out' e'.
Proof.
  destruct (_protocol (the_box e)) eqn:E.
  - by apply decrypt_cases_compact.
  - by apply decrypt_cases_boxstream.
Qed.

(** ** The status of [decrypt] *)

Lemma take_inside {A} (l : list A) a n : (a <= n)%nat → drop a (take n l) = take (n - a) (drop a l).
Proof. intros H. rewrite take_drop_commute. do 2 f_equal. lia. Qed.

Lemma decrypt_front_compact k n mm inp out st inp' out' e' D :
  mread mm (in_data inp) (in_size inp) = Some D →
  decrypt inp out (MkEnv (MkBox k n Compact) mm) = (Ok (st, inp', out'), e') →
  st ≠ OutTooSmall → Wire.front Compact k n D = st.
Proof.
  intros Hr Hd Hst. destruct (mread_Some _ _ _ _ Hr) as (_ & Hz & _ & _ & Hl).
  unfold decrypt in Hd. rewrite bind_get in Hd. cbn [the_box _protocol _key _nonce] in Hd.
  unfold Wire.front. rewrite Hl. destruct (decide (2 <= in_size inp)) as [H2|H2].
  2: { ztest. cbn [orb]. unfold peek in Hd. mrun_in Hd. rewrite (proj2 (Z.ltb_lt _ _)) in Hd by lia.
       mrun_in Hd. by injection Hd as <-. }
  destruct (mread_split _ _ _ _ 2 Hr ltac:(lia)) as [Hs _]. change (ztake 2 D) with (take 2 D) in Hs.
  pose proof (readUint16At_range (take 2 D)) as Hrange. set (d := readUint16At (take 2 D)) in *.
  assert (peek inp (MkEnv (MkBox k n Compact) mm)
          = (Ok (MkPeek Success d (18 + d)), MkEnv (MkBox k n Compact) mm)) as Hp.
  { unfold peek. rewrite bind_get. cbn [the_box _protocol]. ztest.
    rewrite (bind_Ok _ _ _ _ _ (load_run (MkEnv _ mm) _ _ _ Hs)). fold d.
    by rewrite encryptedSize_exact by (unfold size_max; cbn; lia). }
  rewrite (bind_Ok _ _ _ _ _ Hp) in Hd. cbn [pr_status pr_decryptedSize pr_encryptedSize] in Hd.
  rewrite bool_decide_eq_true_2 in Hd by done. cbn [negb] in Hd.
  rewrite (proj2 (Z.ltb_ge (in_size inp) 2)) by lia. cbn [orb].
  destruct (in_size inp <? 18 + d) eqn:E1; zbool; [by injection Hd as <-|].
  destruct (out_size out <? d); [by injection Hd as <-|].
  destruct (mread_split _ _ _ _ (18 + d) Hr ltac:(lia)) as [Hw _].
  destruct (mread_split _ _ _ _ 2 Hw ltac:(lia)) as [_ Hw2].
  rewrite size_sub_exact in Hd by lia. rewrite (bind_Ok _ _ _ _ _ (load_run (MkEnv _ mm) _ _ _ Hw2)) in Hd.
  change (Z.to_nat 2) with 2%nat in Hd. rewrite take_inside in Hd by lia.
  replace (Z.to_nat (18 + d) - 2)%nat with (Z.to_nat (16 + d)) in Hd by lia.
  destruct (unbox xchacha20 k n _) as [msg|] eqn:Eu; apply bind_Ok_inv in Hd as (? & ? & _ & Hd);
    cbn [unbox_size] in Hd.
  - assert (len msg = d) as Hmsg.
    { apply unbox_len in Eu. rewrite length_take, length_drop in Eu. unfold sizeof_MAC in Eu. lia. }
    rewrite Hmsg, Z.eqb_refl in Hd. cbn [negb] in Hd. unfold decrypt_done in Hd. mrun_in Hd.
    by injection Hd as <-.
  - rewrite unbox_failed_empty, Z.eqb_sym in Hd. destruct (d =? 0); cbn [negb] in Hd;
      [unfold decrypt_done in Hd; mrun_in Hd|]; by injection Hd as <-.
Qed.

Lemma decrypt_front_boxstream k n mm inp out st inp' out' e' D :
  mread mm (in_data inp) (in_size inp) = Some D → regions_ok (MkEnv (MkBox k n BoxStream) mm) inp out →
  decrypt inp out (MkEnv (MkBox k n BoxStream) mm) = (Ok (st, inp', out'), e') →
  st ≠ OutTooSmall → Wire.front BoxStream k n D = st.
Proof.
  intros Hr Hreg Hd Hst. destruct (mread_Some _ _ _ _ Hr) as (_ & Hz & _ & _ & Hl).
  unfold decrypt in Hd. rewrite bind_get in Hd. cbn [the_box _protocol _key _nonce] in Hd.
  unfold Wire.front. rewrite Hl.
  destruct (decide (34 <= in_size inp)) as [H34|H34].
  2: { ztest. destruct (header_cases _ inp out Hreg) as [(_ & hd & Hh)|[(? & _)|(? & _)]]; [|lia..].
       rewrite (bind_Ok _ _ _ _ _ Hh) in Hd. by injection Hd as <-. }
  rewrite (proj2 (Z.ltb_ge (in_size inp) 34)) by lia.
  destruct (mread_split _ _ _ _ 34 Hr ltac:(lia)) as [Hs _]. change (ztake 34 D) with (take 34 D) in Hs.
  destruct (header_cases _ inp out Hreg)
    as [(? & _)|[(_ & boxed & hd & Hb & Hu & Hh)|(_ & boxed & hb & Hb & Hu & Hh)]]; [lia|..];
    cbn [the_box mem _key _nonce] in Hb, Hu; rewrite Hs in Hb; injection Hb as <-; rewrite Hu;
    rewrite (bind_Ok _ _ _ _ _ Hh) in Hd; cbn [pr_status pr_decryptedSize pr_encryptedSize] in Hd;
    [by injection Hd as <-|].
  pose proof (readUint16At_range (take 2 hb)) as Hrange. set (d := readUint16At (take 2 hb)) in *.
  rewrite bool_decide_eq_true_2 in Hd by done. cbn [negb] in Hd.
  destruct (in_size inp <? 34 + d) eqn:E1; zbool; [by injection Hd as <-|].
  destruct (out_size out <? d); [by injection Hd as <-|].
  destruct (mread_split _ _ _ _ (34 + d) Hr ltac:(lia)) as [Hw _].
  destruct (mread_split _ _ _ _ 34 Hw ltac:(lia)) as [_ Hw2].
  replace (34 + d - 34) with d in Hw2 by lia. change (Z.to_nat 34) with 34%nat in Hw2.
  rewrite take_inside in Hw2 by lia.
  replace (Z.to_nat (34 + d) - 34)%nat with (Z.to_nat d) in Hw2 by lia.
  unfold sizeof_BoxStreamHeader, sizeof_MAC in Hd. rewrite <-Z.add_assoc in Hd.
  rewrite (bind_Ok _ _ _ _ _ (load_run (MkEnv _ mm) _ _ _ Hw2)) in Hd. cbn [header_of header_mac] in Hd.
  destruct (unlock xsalsa20 k n _ _); apply bind_Ok_inv in Hd as (? & ? & _ & Hd);
    [|by injection Hd as <-].
  apply bind_Ok_inv in Hd as (? & ? & _ & Hd). unfold decrypt_done in Hd. mrun_in Hd.
  by injection Hd as <-.
Qed.

(** The status that [decrypt] returns is what can be said of its input. *)
Lemma decrypt_front e inp out st inp' out' e' D :
  let b := the_box e in
  mread (mem e) (in_data inp) (in_size inp) = Some D → regions_ok e inp out →
  decrypt inp out e = (Ok (st, inp', out'), e') → st ≠ OutTooSmall →
  Wire.front (_protocol b) (_key b) (_nonce b) D = st.
Proof.
  destruct e as [[k n []] mm]; cbn [the_box mem _protocol _key _nonce]; intros.
  - by eapply decrypt_front_compact.
  - by eapply decrypt_front_boxstream.
Qed.

(** The inputs [encrypt] refuses. *)
Lemma encrypt_too_large e inp out :
  kMaxMessageSize < in_size inp → encrypt inp out e = (Fault InvalidArgument, e).
Proof. unfold kMaxMessageSize. intros H. unfold encrypt, encrypt_on. by ztest. Qed.

Lemma encrypt_small_out e inp out :
  0 <= in_size inp <= kMaxMessageSize →
  out_size out < Wire.overhead (_protocol (the_box e)) + in_size inp →
  encrypt inp out e = (Ok (OutTooSmall, out), e).
Proof.
  unfold kMaxMessageSize. intros H Ho. unfold encrypt, encrypt_on. cbn [direct on_env]. ztest.
  rewrite bind_get, encryptedSize_exact;
    [by ztest|lia|unfold size_max; destruct (_protocol _); cbn; lia].
Qed.

(** [encrypt] with valid regions and sizes. *)
Lemma encrypt_ok e inp out :
  let b := the_box e in
  let p := _protocol b in
  regions_ok e inp out → in_size inp <= kMaxMessageSize →
  encryptedSize p (in_size inp) <= out_size out →
  ∃ msg m', mread (mem e) (in_data inp) (in_size inp) = Some msg ∧
    mwrite (mem e) (out_data out) (Wire.seal p (_key b) (_nonce b) msg) = Some m' ∧
    encrypt inp out e =
      (Ok (Success, MkOut (out_data out) (Wire.overhead p + len msg)),
       MkEnv (MkBox (_key b) (Wire.next p (_nonce b)) p) m').
Proof.
  intros b p (Ha & Hz & Hin & Hoa & Hoz & Hout) Hmax Hsz.
  rewrite encryptedSize_exact in Hsz
    by (unfold size_max, kMaxMessageSize in *; destruct p; cbn; lia).
  pose proof (mread_is_Some _ _ _ Ha Hz Hin) as Hr. set (msg := ztake _ _) in Hr.
  destruct (mread_Some _ _ _ _ Hr) as (_ & _ & _ & _ & Hl).
  assert (∃ m', mwrite (mem e) (out_data out) (Wire.seal p (_key b) (_nonce b) msg) = Some m')
    as [m' Hw].
  { eexists. apply mwrite_is_Some; [done|]. rewrite seal_len. lia. }
  exists msg, m'. split_and!; [done..|]. rewrite Hl. by apply encrypt_run with msg.
Qed.

(** Reading back what was written. *)
Lemma mread_mwrite m a bs m' : mwrite m a bs = Some m' → mread m' a (len bs) = Some bs.
Proof.
  unfold mwrite. destruct (_ && _) eqn:E; [|done]. intros [= <-]. zbool.
  apply mread_at; [len_lia|done].
Qed.

(** An empty compact message that does not authenticate. *)
Lemma decrypt_empty_run e inp out junk :
  let b := the_box e in
  _protocol b = Compact → regions_ok e inp out → 18 <= in_size inp → len junk = 16 →
  mread (mem e) (in_data inp) 18 = Some (x00 :: x00 :: junk) →
  unbox xchacha20 (_key b) (_nonce b) junk = None →
  decrypt inp out e =
    (Ok (Success, MkIn (in_data inp + 18) (in_size inp - 18), MkOut (out_data out) 0),
     MkEnv (MkBox (_key b) (nonce_incr (_nonce b)) Compact) (mem e)).
Proof.
  destruct e as [[k n p] mm]. cbn. intros -> (Ha & Hz & Hin & Hoa & Hoz & Hout) H18 Hj Hr Hu.
  cbn [mem] in *. destruct (mread_split _ _ _ _ 2 Hr) as [Hr1 Hr2]; [lia|].
  assert (peek inp (MkEnv (MkBox k n Compact) mm)
          = (Ok (MkPeek Success 0 18), MkEnv (MkBox k n Compact) mm)) as Hp.
  { unfold peek. rewrite bind_get. cbn [the_box _protocol]. ztest.
    by rewrite (bind_Ok _ _ _ _ _ (load_run (MkEnv _ mm) _ _ _ Hr1)). }
  unfold decrypt. rewrite bind_get. cbn [the_box _protocol _key _nonce].
  rewrite (bind_Ok _ _ _ _ _ Hp). cbn [pr_status pr_decryptedSize pr_encryptedSize].
  rewrite bool_decide_eq_true_2 by done. cbn [negb]. ztest.
  rewrite size_sub_exact by lia.
  rewrite (bind_Ok _ _ _ _ _ (load_run (MkEnv _ mm) _ _ _ Hr2)).
  change (zdrop 2 (x00 :: x00 :: junk)) with junk. rewrite Hu.
  destruct (spoil_run xchacha20 (MkEnv (MkBox k n Compact) mm) (out_data out) 0)
    as (old & m' & Hl & Hw & Hsp); [cbn; lia..|].
  rewrite (bind_Ok _ _ _ _ _ Hsp). destruct old; [|cbn in Hl; lia].
  cbn in Hw. rewrite mwrite_nil in Hw by lia. simplify_eq.
  cbn [unbox_size]. rewrite unbox_failed_empty. unfold decrypt_done, incr_nonce. mrun.
  by rewrite size_sub_exact by lia.
Qed.

End runs.

(** * Properties *)

Section properties.
Context {P : Primitives} {PL : PrimitivesLaws P}.

(** C11: [encrypt] of a message of at most 65535 bytes into a large enough
    buffer succeeds, for any placement of input and output in memory, also
    overlapping: the output region then starts with the sealed message and no
    other byte of memory has changed, the reported size is the message's size
    plus the protocol's overhead, and the nonce has advanced. *)
Theorem encrypt_seals e inp out :
  let b := the_box e in
  let p := _protocol b in
  regions_ok e inp out → in_size inp <= kMaxMessageSize →
  encryptedSize p (in_size inp) <= out_size out →
  ∃ msg m', mread (mem e) (in_data inp) (in_size inp) = Some msg ∧
    mwrite (mem e) (out_data out) (Wire.seal p (_key b) (_nonce b) msg) = Some m' ∧
    encrypt inp out e =
      (Ok (Success, MkOut (out_data out) (Wire.overhead p + len msg)),
       MkEnv (MkBox (_key b) (Wire.next p (_nonce b)) p) m').
Proof. apply encrypt_ok. Qed.

(** A message of more than 65535 bytes is refused with
    [std::invalid_argument], and too small an output buffer with
    [OutTooSmall]; in both cases nothing is written and no nonce is used. *)
Theorem encrypt_refuses e inp out :
  0 <= in_size inp →
  (kMaxMessageSize < in_size inp → encrypt inp out e = (Fault InvalidArgument, e)) ∧
  (in_size inp <= kMaxMessageSize →
   out_size out < Wire.overhead (_protocol (the_box e)) + in_size inp →
   encrypt inp out e = (Ok (OutTooSmall, out), e)).
Proof. eauto using encrypt_too_large, encrypt_small_out. Qed.

(** C13: A message sealed by one box is recovered by a box with the same key,
    nonce and protocol, wherever the bytes are and even when the output
    overlaps them; exactly the sealed bytes are consumed, extra input is left,
    and the two boxes' nonces agree again afterwards. *)
Theorem box_roundtrip enc inp out msg outE enc' sealed dec inpD outD :
  regions_ok enc inp out →
  mread (mem enc) (in_data inp) (in_size inp) = Some msg → len msg <= kMaxMessageSize →
  encryptedSize (_protocol (the_box enc)) (in_size inp) <= out_size out →
  encrypt inp out enc = (Ok (Success, outE), enc') →
  mread (mem enc') (out_data outE) (out_size outE) = Some sealed →
  the_box dec = the_box enc → regions_ok dec inpD outD →
  mread (mem dec) (in_data inpD) (len sealed) = Some sealed →
  len sealed <= in_size inpD → len msg <= out_size outD →
  ∃ m', mwrite (mem dec) (out_data outD) msg = Some m' ∧
    decrypt inpD outD dec =
      (Ok (Success, MkIn (in_data inpD + len sealed) (in_size inpD - len sealed),
           MkOut (out_data outD) (len msg)), MkEnv (the_box enc') m').
Proof.
  intros Hreg Hmsg Hmax Hsz Henc Hsealed Hb (Ha & Hz & Hin & Hoa & Hoz & Hout) Hr Hi Ho.
  pose proof (mread_Some _ _ _ _ Hmsg) as (_ & _ & _ & _ & Hl).
  destruct (encrypt_ok enc inp out Hreg ltac:(lia) Hsz) as (msg' & m1 & Hmsg' & Hw & Henc').
  rewrite Hmsg in Hmsg'. injection Hmsg' as <-. rewrite Henc in Henc'. simplify_eq.
  apply mread_mwrite in Hw. rewrite seal_len in Hw. cbn in Hsealed. rewrite Hsealed in Hw.
  simplify_eq. rewrite seal_len in *.
  destruct (mwrite (mem dec) (out_data outD) msg) as [m'|] eqn:Hm;
    [|by rewrite mwrite_is_Some in Hm by lia].
  exists m'. split; [done|]. rewrite <-Hb in *. by apply decrypt_run.
Qed.

(** C12: [decrypt] always returns when the caller's regions are valid. On
    [Success] the consumed bytes authenticate under the session key and the
    current nonce as the message that was written out, of which no byte lies
    outside the output buffer, and the nonce advances by one message; the only
    exception is an empty message in the compact protocol. On any other status
    the box and both descriptors are unchanged, and unless the data is corrupt
    so is memory. *)
Theorem decrypt_authentic e inp out :
  regions_ok e inp out →
  ∃ st inp' out' e', decrypt inp out e = (Ok (st, inp', out'), e') ∧
    decrypt_spec e inp out st inp' out' e'.
Proof. apply decrypt_cases. Qed.

(** Given any proper prefix of a sealed message, [decrypt] reports
    [IncompleteInput] and changes nothing: no byte of memory, not the nonce,
    not the descriptors. *)
Theorem decrypt_waits e inp out msg d rest :
  let b := the_box e in
  mread (mem e) (in_data inp) (in_size inp) = Some d →
  d ++ rest = Wire.seal (_protocol b) (_key b) (_nonce b) msg → rest ≠ [] →
  len msg <= kMaxMessageSize →
  decrypt inp out e = (Ok (IncompleteInput, inp, out), e).
Proof. apply decrypt_prefix. Qed.

(** [peek] on the start of a sealed message tells the sizes [encrypt] and
    [decrypt] work with; with fewer than [minPeekSize] bytes it reports
    [IncompleteInput], with the number of bytes it needs in [encryptedSize]
    and zero in [decryptedSize]. It never changes box or memory. *)
Theorem peek_sizes e inp msg :
  let b := the_box e in
  let p := _protocol b in
  len msg <= kMaxMessageSize →
  (in_size inp < minPeekSize b →
   peek inp e = (Ok (MkPeek IncompleteInput 0 (minPeekSize b)), e)) ∧
  (minPeekSize b <= in_size inp →
   mread (mem e) (in_data inp) (minPeekSize b)
     = Some (ztake (minPeekSize b) (Wire.seal p (_key b) (_nonce b) msg)) →
   peek inp e = (Ok (MkPeek Success (len msg) (encryptedSize p (len msg))), e)).
Proof.
  intros b p Hmax.
  assert (minPeekSize b = Wire.prefix p) as -> by (unfold minPeekSize; fold p; by destruct p).
  assert (ztake (Wire.prefix p) (Wire.seal p (_key b) (_nonce b) msg)
          = seal_head p (_key b) (_nonce b) msg) as ->.
  { rewrite seal_split. apply ztake_app_exact. by rewrite seal_head_len. }
  rewrite encryptedSize_exact
    by (unfold size_max, kMaxMessageSize in *; destruct p; cbn; lia).
  unfold p in *. clear p. destruct e as [[k n []] mm]; cbn in b; subst b; cbn -[seal_head].
  - split; [|by intros; apply peek_compact_run]. intros. unfold peek. mrun. by ztest.
  - split.
    + intros. unfold peek, decryptBoxStreamHeader, sizeof_BoxStreamHeader, sizeof_MAC. mrun.
      by ztest.
    + intros Hi Hr. unfold peek. rewrite bind_get. cbn [the_box _protocol].
      by rewrite (bind_Ok _ _ _ _ _ 
        (header_run (MkEnv (MkBox k n BoxStream) mm) inp msg eq_refl Hmax Hr Hi)).
Qed.

(** In the compact protocol a forged empty message is accepted: two zero
    bytes followed by any sixteen bytes that do not authenticate make [decrypt]
    return [Success] with an empty message and advance the nonce, as if the
    sender had sent a message. *)
Theorem compact_empty_forgery e inp out junk :
  let b := the_box e in
  _protocol b = Compact → regions_ok e inp out → 18 <= in_size inp → len junk = 16 →
  mread (mem e) (in_data inp) 18 = Some (x00 :: x00 :: junk) →
  unbox xchacha20 (_key b) (_nonce b) junk = None →
  decrypt inp out e =
    (Ok (Success, MkIn (in_data inp + 18) (in_size inp - 18), MkOut (out_data out) 0),
     MkEnv (MkBox (_key b) (nonce_incr (_nonce b)) Compact) (mem e)).
Proof. apply decrypt_empty_run. Qed.

End properties.

(** * Witnesses *)

(** A box of each protocol with the toy primitives, and a memory of 64
    bytes. *)
Module Demo.
Import Toy.
Definition cbox : CryptoBox := MkBox (replicate 32 x07) zero_nonce Compact.
Definition sbox : CryptoBox := MkBox (replicate 32 x07) zero_nonce BoxStream.
Definition msg : bytes := [x68; x69; x21].
Definition memory : bytes := msg ++ replicate 61 x00.

(** The message at address 0, output over it from address 0 on. *)
Definition env : boxenv := MkEnv sbox memory.
Definition inp : input_data := MkIn 0 3.
Definition out : output_buffer := MkOut 0 64.

(** The sealed message as [encrypt] leaves it in memory. *)
Definition sealed : bytes := Eval vm_compute in Wire.seal BoxStream (replicate 32 x07) zero_nonce msg.
Definition env' : boxenv := Eval vm_compute in (encrypt inp out env).2.
Definition dec : boxenv := MkEnv sbox (sealed ++ replicate 20 x00).
Definition forged : bytes := x00 :: x00 :: replicate 16 x55.

Lemma regions : regions_ok env inp out.
Proof. repeat split; cbn; lia. Qed.

Lemma encrypt_seals_witness : ∃ m', encrypt inp out env = (Ok (Success, MkOut 0 37), m').
Proof.
  destruct (encrypt_seals env inp out regions) as (w & m' & Hr & _ & He); [cbn; unfold kMaxMessageSize; lia|vm_compute; discriminate|].
  vm_compute in Hr. injection Hr as <-. eexists. exact He.
Defined.

Lemma encrypt_refuses_witness :
  encrypt (MkIn 0 70000) out env = (Fault InvalidArgument, env) ∧
  encrypt inp (MkOut 0 36) env = (Ok (OutTooSmall, MkOut 0 36), env).
Proof.
  split.
  - apply (encrypt_refuses env (MkIn 0 70000) out); cbn; unfold kMaxMessageSize; lia.
  - apply (encrypt_refuses env inp (MkOut 0 36)); cbn; unfold kMaxMessageSize; lia.
Defined.

Lemma box_roundtrip_witness : ∃ m', mwrite (mem dec) 0 msg = Some m' ∧
  decrypt (MkIn 0 57) (MkOut 0 57) dec
  = (Ok (Success, MkIn 37 20, MkOut 0 3), MkEnv (the_box env') m').
Proof.
  apply (box_roundtrip env inp out msg (MkOut 0 37) env' sealed dec (MkIn 0 57) (MkOut 0 57));
    try (vm_compute; reflexivity); try (vm_compute; discriminate).
  - exact regions.
  - repeat split; vm_compute; discriminate.
Defined.

Lemma decrypt_authentic_witness :
  ∃ st inp' out' e', decrypt (MkIn 0 57) (MkOut 0 57) dec = (Ok (st, inp', out'), e') ∧
    decrypt_spec dec (MkIn 0 57) (MkOut 0 57) st inp' out' e'.
Proof.
  apply (decrypt_authentic dec (MkIn 0 57) (MkOut 0 57)). repeat split; vm_compute; discriminate.
Defined.

Lemma decrypt_waits_witness :
  decrypt (MkIn 0 36) (MkOut 0 36) dec = (Ok (IncompleteInput, MkIn 0 36, MkOut 0 36), dec).
Proof.
  apply (decrypt_waits dec (MkIn 0 36) (MkOut 0 36) msg (take 36 sealed) (drop 36 sealed));
    vm_compute; first [reflexivity|discriminate].
Defined.

Lemma peek_sizes_witness : peek (MkIn 0 40) dec = (Ok (MkPeek Success 3 37), dec).
Proof.
  refine (proj2 (peek_sizes dec (MkIn 0 40) msg _) _ _); vm_compute; first [reflexivity|discriminate].
Defined.

Lemma compact_empty_forgery_witness :
  decrypt (MkIn 0 18) (MkOut 0 18) (MkEnv cbox forged)
  = (Ok (Success, MkIn 18 0, MkOut 0 0),
     MkEnv (MkBox (replicate 32 x07) (nonce_incr zero_nonce) Compact) forged).
Proof.
  apply (compact_empty_forgery (MkEnv cbox forged) (MkIn 0 18) (MkOut 0 18) (replicate 16 x55));
    try (vm_compute; first [reflexivity|discriminate]). repeat split; vm_compute; discriminate.
Defined.
End Demo.
