(* ===== verification/Streams.v ===== *)
(** Byte-stream encryption: [CryptoStream], [EncryptionStream] and
    [DecryptionStream] of src/SecretStream.cc and include/SecretStream.hh.

    A stream is its buffer (processed bytes, then unprocessed ones), the count
    of processed bytes, and a box. The boxes work inside the buffer, in place:
    the memory of the calls to [encrypt] and [decrypt] is the buffer itself,
    and the pointers are indices into it.

    The abstract view of a stream ([enc_view], [dec_view]) is its box, the
    bytes ready to be pulled and the bytes still to be processed. The theorems
    describe each operation on the views for every input: what [pushPartial]
    and [flush] seal, how [push] of a [DecryptionStream] behaves on honest
    traffic cut at any point and on arbitrary bytes, that both loops end, and
    that the streams' internal errors cannot happen. *)
From Stdlib Require Import ZArith Lia Strings.Byte.
From stdpp Require Import base list numbers option tactics.
From S2P Require Import Prelude Crypto Shs Boxes.

Open Scope Z_scope.

(** * State *)

Record CryptoStream := MkStream { _buffer : bytes; _processedBytes : Z }.
Record EncryptionStream := MkEnc { es : CryptoStream; _encryptor : CryptoBox }.
Record DecryptionStream := MkDec { ds : CryptoStream; _decryptor : CryptoBox }.

Definition set_buffer b (s : CryptoStream) := MkStream b (_processedBytes s).
Definition set_processed n (s : CryptoStream) := MkStream (_buffer s) n.

Definition set_es c (s : EncryptionStream) := MkEnc c (_encryptor s).
Definition set_ds c (s : DecryptionStream) := MkDec c (_decryptor s).

(** A call of the base class on a stream. *)
Definition on_es {A} (m : M CryptoStream A) : M EncryptionStream A := zoom es set_es m.
Definition on_ds {A} (m : M CryptoStream A) : M DecryptionStream A := zoom ds set_ds m.

(** A call of the box, with pointers into the stream's buffer. *)
Definition on_encryptor {A} (m : M boxenv A) : M EncryptionStream A :=
  zoom (λ s, MkEnv (_encryptor s) (_buffer (es s)))
       (λ e s, MkEnc (set_buffer (mem e) (es s)) (the_box e)) m.
Definition on_decryptor {A} (m : M boxenv A) : M DecryptionStream A :=
  zoom (λ s, MkEnv (_decryptor s) (_buffer (ds s)))
       (λ e s, MkDec (set_buffer (mem e) (ds s)) (the_box e)) m.

(** The bytes waiting to be encrypted or decrypted:
    [_buffer.size() - _processedBytes]. *)
Definition unprocessed (s : CryptoStream) : Z := size_sub (len (_buffer s)) (_processedBytes s).

(** * Operations *)

(** The bytes at the pointer [availableData] returns. *)
Definition availableData (s : CryptoStream) : bytes := ztake (_processedBytes s) (_buffer s).
Definition bytesAvailable (s : CryptoStream) : Z := _processedBytes s.

Definition skip (maxSize : Z) : M CryptoStream Z :=
  s ← get;
  let n := Z.min maxSize (_processedBytes s) in
  (if 0 <? n then
     b ← in_bounds (vec_erase (_buffer s) 0 n);
     modify (set_buffer b);;
     modify (set_processed (_processedBytes s - n))
   else mret tt);;
  mret n.

(** Returns the bytes copied to [dst]. *)
Definition pull (dstSize : Z) : M CryptoStream bytes :=
  s ← get;
  let n := Z.min (len (availableData s)) dstSize in
  (if 0 <? n then skip n;; mret tt else mret tt);;
  mret (ztake n (availableData s)).

Section ops.
Context {P : Primitives}.

Definition EncryptionStream_init (key nonce : bytes) (p : Protocol) : EncryptionStream :=
  MkEnc (MkStream [] 0) (MkBox key nonce p).
Definition DecryptionStream_init (key nonce : bytes) (p : Protocol) : DecryptionStream :=
  MkDec (MkStream [] 0) (MkBox key nonce p).

Definition EncryptionStream_of_session (s : Session) (p : Protocol) : EncryptionStream :=
  EncryptionStream_init (encryptionKey s) (encryptionNonce s) p.
Definition DecryptionStream_of_session (s : Session) (p : Protocol) : DecryptionStream :=
  DecryptionStream_init (decryptionKey s) (decryptionNonce s) p.

Definition flush : M EncryptionStream unit :=
  s ← get;
  let msgSize := unprocessed (es s) in
  if 0 <? msgSize then
    on_es (modify (λ c, set_buffer
      (vec_resize (_processedBytes c + encryptedSize (_protocol (_encryptor s)) msgSize)
                  (_buffer c)) c));;
    s ← get;
    let inp := MkIn (_processedBytes (es s)) msgSize in
    let out := MkOut (in_data inp) (unprocessed (es s)) in
    '(status, out) ← on_encryptor (encrypt inp out);
    assert_ (bool_decide (status = Success));;
    on_es (modify (λ c, set_processed (_processedBytes c + out_size out) c));;
    on_es (modify (λ c, set_buffer (vec_resize (_processedBytes c) (_buffer c)) c))
  else mret tt.

(** The [while] loop of [pushPartial]; [data] is what is left from [begin]. *)
Fixpoint pushPartial_loop (fuel : nat) (data : bytes) : M EncryptionStream unit :=
  match fuel with
  | O => throw OutOfFuel
  | S fuel =>
      if 0 <? len data then
        s ← get;
        let maxSize := size_sub kMaxMessageSize (unprocessed (es s)) in
        let chunk := Z.min (len data) maxSize in
        on_es (modify (λ c, set_buffer (_buffer c ++ ztake chunk data) c));;
        let data := zdrop chunk data in
        (if 0 <? len data then flush else mret tt);;
        pushPartial_loop fuel data
      else mret tt
  end.

Definition pushPartial (data : bytes) : M EncryptionStream unit :=
  pushPartial_loop (S (S (length data))) data.

Definition enc_push (data : bytes) : M EncryptionStream unit :=
  pushPartial data;; flush.

(** The callers' loops over the pieces of a message. *)
Fixpoint push_parts (parts : list bytes) : M EncryptionStream unit :=
  match parts with
  | [] => mret tt
  | b :: parts => pushPartial b;; push_parts parts
  end.

(** The [while] loop of [DecryptionStream::push]. *)
Fixpoint dec_push_loop (fuel : nat) : M DecryptionStream bool :=
  match fuel with
  | O => throw OutOfFuel
  | S fuel =>
      s ← get;
      let size := unprocessed (ds s) in
      let addr := if 0 <? size then _processedBytes (ds s) else 0 in
      '(st, inp, out) ← on_decryptor (decrypt (MkIn addr size) (MkOut addr size));
      match st with
      | Success =>
          on_ds (modify (λ c, set_processed (_processedBytes c + out_size out) c));;
          s ← get;
          b ← in_bounds (vec_erase (_buffer (ds s)) (_processedBytes (ds s)) (in_data inp));
          on_ds (modify (set_buffer b));;
          dec_push_loop fuel
      | IncompleteInput => mret true
      | CorruptData => mret false
      | OutTooSmall => throw LogicError
      end
  end.

Definition dec_push (data : bytes) : M DecryptionStream bool :=
  on_ds (modify (λ c, set_buffer (_buffer c ++ data) c));;
  s ← get;
  dec_push_loop (S (length (_buffer (ds s)))).

Definition dec_close : M DecryptionStream bool :=
  s ← get;
  let ok := len (_buffer (ds s)) =? _processedBytes (ds s) in
  on_ds (modify (λ _, MkStream [] 0));;
  mret ok.

End ops.

(** * Abstract views *)

(** The stream's buffer is [ready ++ todo]. *)
Definition view (s : CryptoStream) (ready todo : bytes) : Prop :=
  _buffer s = ready ++ todo ∧ _processedBytes s = len ready.

Definition enc_view (s : EncryptionStream) (b : CryptoBox) (ready todo : bytes) : Prop :=
  _encryptor s = b ∧ view (es s) ready todo ∧ len todo <= kMaxMessageSize.

Definition dec_view (s : DecryptionStream) (b : CryptoBox) (ready todo : bytes) : Prop :=
  _decryptor s = b ∧ view (ds s) ready todo.

Section abstract.
Context {P : Primitives}.

(** The nonce after [i] messages. *)
Definition advance (p : Protocol) (n : bytes) (i : nat) : bytes := Nat.iter i (Wire.next p) n.

(** A box after [i] messages. *)
Definition box_after (b : CryptoBox) (i : nat) : CryptoBox :=
  MkBox (_key b) (advance (_protocol b) (_nonce b) i) (_protocol b).

(** The traffic of a sequence of messages from nonce [n] on. *)
Fixpoint seal_all (p : Protocol) (k n : bytes) (msgs : list bytes) : bytes :=
  match msgs with
  | [] => []
  | m :: msgs => Wire.seal p k n m ++ seal_all p k (Wire.next p n) msgs
  end.

Definition box_seal (b : CryptoBox) (msgs : list bytes) : bytes :=
  seal_all (_protocol b) (_key b) (_nonce b) msgs.

(** What can be said of the message at the front of [d]. *)
Definition box_front (b : CryptoBox) (d : bytes) : status_t :=
  Wire.front (_protocol b) (_key b) (_nonce b) d.

(** [w] is accepted as the encoding of [m]: it authenticates, or it is a
    compact encoding of the empty message that does not. *)
Definition accepts1 (b : CryptoBox) (w m : bytes) : Prop :=
  len w = Wire.overhead (_protocol b) + len m ∧
  (Wire.opens (_protocol b) (_key b) (_nonce b) w m ∨
   _protocol b = Compact ∧ m = [] ∧ readUint16At (take 2 w) = 0 ∧
   unbox xchacha20 (_key b) (_nonce b) (drop 2 w) = None).

(** The bytes are accepted as a sequence of messages, with a rest. *)
Inductive accepts : CryptoBox → bytes → list bytes → bytes → Prop :=
| accepts_nil b rest : accepts b rest [] rest
| accepts_cons b w m todo msgs rest :
    accepts1 b w m → accepts (box_after b 1) todo msgs rest →
    accepts b (w ++ todo) (m :: msgs) rest.

(** After all the messages that are accepted there is one that does not
    authenticate; or there is a part of one. *)
Definition corrupted (b : CryptoBox) (d : bytes) : Prop :=
  ∃ msgs rest, accepts b d msgs rest ∧ box_front (box_after b (length msgs)) rest = CorruptData.
Definition truncated (b : CryptoBox) (d : bytes) : Prop :=
  ∃ msgs rest, accepts b d msgs rest ∧
    box_front (box_after b (length msgs)) rest = IncompleteInput ∧ rest ≠ [].

(** How [pushPartial] cuts its input: full messages of [kMaxMessageSize]
    bytes as long as more remains, then the rest, which stays buffered. *)
Fixpoint cut (fuel : nat) (all : bytes) : list bytes * bytes :=
  match fuel with
  | O => ([], all)
  | S fuel =>
      if len all <=? kMaxMessageSize then ([], all)
      else let '(ms, rest) := cut fuel (zdrop kMaxMessageSize all) in
           (ztake kMaxMessageSize all :: ms, rest)
  end.

Definition cut_messages (all : bytes) : list bytes * bytes := cut (length all) all.

(** The messages that [push] sends for its input: the cut ones, and the rest
    as a last message. *)
Definition push_messages (all : bytes) : list bytes :=
  let '(ms, rest) := cut_messages all in
  ms ++ (if bool_decide (rest = []) then [] else [rest]).

(** The same as a relation. *)
Inductive cuts : bytes → list bytes → bytes → Prop :=
| cuts_rest all : len all <= kMaxMessageSize → cuts all [] all
| cuts_full all ms rest :
    kMaxMessageSize < len all → cuts (zdrop kMaxMessageSize all) ms rest →
    cuts all (ztake kMaxMessageSize all :: ms) rest.

End abstract.

(** * Lemmas on the views *)

Section lemmas.
Context {P : Primitives} {PL : PrimitivesLaws P}.
Implicit Types (b : CryptoBox) (ready todo data m : bytes) (msgs : list bytes).

Lemma view_intro ready todo n : n = len ready → view (MkStream (ready ++ todo) n) ready todo.
Proof. by intros ->. Qed.

Lemma view_unprocessed s ready todo : view s ready todo → unprocessed s = len todo.
Proof.
  intros [Hb Hp]. unfold unprocessed. rewrite Hb, Hp, size_sub_exact by len_lia. len_lia.
Qed.

Lemma view_available s ready todo : view s ready todo → availableData s = ready.
Proof. intros [Hb Hp]. unfold availableData. rewrite Hb, Hp. apply ztake_app_len. Qed.

(** [skip] drops bytes from the front of the processed ones. *)
Lemma skip_run s ready todo n :
  view s ready todo → 0 <= n →
  ∃ s', skip n s = (Ok (Z.min n (len ready)), s') ∧ view s' (zdrop n ready) todo.
Proof.
  intros [Hb Hp] Hn. unfold skip. mrun. rewrite Hp, Hb.
  destruct (0 <? Z.min n (len ready)) eqn:E; zbool.
  - assert (∃ a c, ready = a ++ c ∧ len a = Z.min n (len ready)) as (a & c & -> & Ha)
      by (apply zsplit; lia).
    rewrite <-(app_assoc a c todo).
    assert (vec_erase (a ++ c ++ todo) 0 (Z.min n (len (a ++ c))) = Some (c ++ todo)) as ->.
    { rewrite <-(app_nil_l (c ++ todo)). by apply (vec_erase_at [] a (c ++ todo)). }
    eexists. split; [done|]. cbn.
    assert (zdrop n (a ++ c) = c) as ->.
    { destruct (decide (n <= len (a ++ c))).
      - apply zdrop_app_exact. lia.
      - rewrite zdrop_all by lia. destruct c; [done|]. len_lia. }
    apply view_intro. len_lia.
  - exists s. split; [done|]. assert (zdrop n ready = ready) as ->; [|done].
    destruct ready; [by rewrite drop_nil|]. by replace n with 0 by len_lia.
Qed.

(** [pull] hands out processed bytes, in order. *)
Lemma pull_run s ready todo n :
  view s ready todo → 0 <= n →
  ∃ s', pull n s = (Ok (ztake n ready), s') ∧ view s' (zdrop n ready) todo.
Proof.
  intros Hv Hn. unfold pull. mrun. rewrite (view_available _ _ _ Hv).
  assert (ztake (Z.min (len ready) n) ready = ztake n ready) as ->.
  { destruct (decide (n <= len ready)); [f_equal; lia|].
    rewrite !ztake_all by lia. done. }
  destruct (skip_run s ready todo (Z.min (len ready) n) Hv ltac:(lia)) as (s' & Hs & Hv').
  assert (zdrop (Z.min (len ready) n) ready = zdrop n ready) as Hd.
  { destruct (decide (n <= len ready)); [f_equal; lia|].
    rewrite !zdrop_all by lia. done. }
  rewrite Hd in Hv'. destruct (0 <? _) eqn:E; zbool.
  - rewrite Hs. by exists s'.
  - exists s. split; [done|]. destruct ready; [by rewrite drop_nil|].
    by replace n with 0 by len_lia.
Qed.

(** [flush] seals everything that is pending, in place. *)
Lemma flush_run s b ready todo :
  enc_view s b ready todo → 0 < len todo →
  ∃ s', flush s = (Ok tt, s') ∧ enc_view s' (box_after b 1) (ready ++ box_seal b [todo]) [].
Proof.
  destruct s as [[buf n] b']. intros (Hb & [Hbuf Hn] & Hmax) Ht. cbn in Hb, Hbuf, Hn. subst.
  unfold flush. rewrite bind_get. cbn [es _encryptor].
  rewrite (view_unprocessed _ ready todo) by done. ztest.
  rewrite encryptedSize_exact
    by (unfold size_max, kMaxMessageSize in *; destruct (_protocol b); cbn; lia).
  unfold on_es at 1. mrun.
  set (ov := Wire.overhead (_protocol b)).
  assert (0 <= ov) by (unfold ov; by destruct (_protocol b)).
  assert (vec_resize (len ready + (ov + len todo)) (ready ++ todo)
          = ready ++ todo ++ replicate (Z.to_nat ov) x00) as Hrs.
  { rewrite vec_resize_grow by len_lia. rewrite <-app_assoc. do 3 f_equal. len_lia. }
  rewrite Hrs. set (buf := ready ++ todo ++ _).
  assert (unprocessed (MkStream buf (len ready)) = ov + len todo) as Hu.
  { rewrite (view_unprocessed _ ready (todo ++ replicate (Z.to_nat ov) x00)) by done. len_lia. }
  cbn [set_es set_buffer es _processedBytes _encryptor]. unfold set_buffer. cbn. rewrite Hu.
  unfold on_encryptor. mrun.
  assert (mread buf (len ready) (len todo) = Some todo) as Hr by (by apply mread_at).
  assert (mwrite buf (len ready) (Wire.seal (_protocol b) (_key b) (_nonce b) todo)
          = Some (ready ++ Wire.seal (_protocol b) (_key b) (_nonce b) todo)) as Hw.
  { rewrite <-(app_nil_r (ready ++ Wire.seal _ _ _ _)), <-app_assoc.
    unfold buf. rewrite <-(app_nil_r (todo ++ _)). apply mwrite_at; [done|].
    pose proof (seal_len (_protocol b) (_key b) (_nonce b) todo) as Hl. fold ov in Hl. len_lia. }
  rw_let (encrypt_run (MkEnv b buf) (MkIn (len ready) (len todo))
    (MkOut (len ready) (ov + len todo)) todo _ Hr Hmax ltac:(cbn; fold ov; lia) Hw).
  cbn. fold ov. rewrite bool_decide_eq_true_2 by done. cbn.
  eexists. split; [done|]. unfold enc_view, box_seal, kMaxMessageSize. cbn.
  rewrite app_nil_r. split; [by destruct b|]. split; [|lia]. unfold set_buffer. cbn.
  assert (len ready + (ov + len todo)
          = len (ready ++ Wire.seal (_protocol b) (_key b) (_nonce b) todo)) as ->.
  { rewrite length_app, Nat2Z.inj_add, seal_len. done. }
  rewrite vec_resize_id. split; cbn; [by rewrite app_nil_r|done].
Qed.

Lemma flush_idle s b ready : enc_view s b ready [] → flush s = (Ok tt, s).
Proof.
  intros (_ & Hv & _). unfold flush. mrun. by rewrite (view_unprocessed _ _ _ Hv).
Qed.

(** ** Sequences of messages *)

Lemma advance_next p n i : advance p (Wire.next p n) i = advance p n (S i).
Proof. unfold advance. by rewrite Nat.iter_succ_r. Qed.

Lemma box_after_0 b : box_after b 0 = b.
Proof. by destruct b. Qed.

Lemma box_after_after b i j : box_after (box_after b i) j = box_after b (i + j).
Proof.
  unfold box_after, advance. cbn. f_equal. rewrite Nat.add_comm. by rewrite Nat.iter_add.
Qed.

Lemma seal_all_app p k n ms1 ms2 :
  seal_all p k n (ms1 ++ ms2) = seal_all p k n ms1 ++ seal_all p k (advance p n (length ms1)) ms2.
Proof.
  revert n. induction ms1 as [|m ms1 IH]; intros n; cbn [app seal_all length]; [done|].
  by rewrite IH, <-app_assoc, advance_next.
Qed.

Lemma box_seal_app b ms1 ms2 :
  box_seal b (ms1 ++ ms2) = box_seal b ms1 ++ box_seal (box_after b (length ms1)) ms2.
Proof. apply seal_all_app. Qed.

Lemma box_seal_cons b m msgs :
  box_seal b (m :: msgs) = box_seal b [m] ++ box_seal (box_after b 1) msgs.
Proof. apply (seal_all_app _ _ _ [m] msgs). Qed.

(** ** Cutting input into messages *)

Lemma cut_cuts fuel all ms rest :
  (length all <= fuel)%nat → cut fuel all = (ms, rest) → cuts all ms rest.
Proof.
  revert all ms rest. induction fuel as [|fuel IH]; cbn [cut]; intros all ms rest Hf.
  { intros [= <- <-]. constructor. unfold kMaxMessageSize. lia. }
  destruct (len all <=? kMaxMessageSize) eqn:E; zbool.
  { intros [= <- <-]. by constructor. }
  destruct (cut fuel _) as [ms' rest'] eqn:Ec. intros [= <- <-]. constructor; [done|].
  apply IH; [|done]. unfold kMaxMessageSize in *. len_lia.
Qed.

Lemma cuts_det all ms1 r1 ms2 r2 : cuts all ms1 r1 → cuts all ms2 r2 → ms1 = ms2 ∧ r1 = r2.
Proof.
  intros H1. revert ms2 r2. induction H1 as [all Hl|all ms r Hl H1 IH]; intros ms2 r2 H2;
    inversion H2; subst; try lia; [done|]. by edestruct IH as [-> ->].
Qed.

Lemma cuts_cut_messages all ms rest : cuts all ms rest → cut_messages all = (ms, rest).
Proof.
  intros H. destruct (cut_messages all) as [ms' rest'] eqn:E.
  apply cut_cuts in E; [|done]. by destruct (cuts_det _ _ _ _ _ H E) as [-> ->].
Qed.

(** Nothing is lost or reordered, full messages have the maximal size, and
    what stays buffered still fits in a message. *)
Lemma cuts_concat all ms rest :
  cuts all ms rest →
  all = concat ms ++ rest ∧ Forall (λ m, len m = kMaxMessageSize) ms ∧
  len rest <= kMaxMessageSize ∧ (all ≠ [] → rest ≠ []).
Proof.
  induction 1 as [all Hl|all ms rest Hl _ (IH1 & IH2 & IH3 & IH4)]; [done|].
  split_and!; [| | done |].
  - cbn [concat]. rewrite <-app_assoc, <-IH1. by rewrite take_drop.
  - constructor; [|done]. apply len_ztake. unfold kMaxMessageSize in *. lia.
  - intros _. apply IH4. intros Hn. apply (f_equal length) in Hn. rewrite length_drop in Hn.
    unfold kMaxMessageSize in *. cbn in Hn. lia.
Qed.

(** Cutting in two steps is cutting at once. *)
Lemma cuts_app a ms1 r1 c ms2 r2 :
  cuts a ms1 r1 → cuts (r1 ++ c) ms2 r2 → cuts (a ++ c) (ms1 ++ ms2) r2.
Proof.
  intros H1. revert c ms2 r2. induction H1 as [a Hl|a ms r Hl H1 IH]; intros c ms2 r2 H2; [done|].
  cbn [app].
  assert (ztake kMaxMessageSize a = ztake kMaxMessageSize (a ++ c)) as ->
    by (rewrite take_app_le; [done|lia]).
  constructor; [len_lia|]. rewrite drop_app_le by lia. by apply IH.
Qed.

Lemma pushPartial_loop_run fuel data s b ready todo :
  enc_view s b ready todo →
  (length data + (if bool_decide (len todo < kMaxMessageSize)%Z then 1 else 2) <= fuel)%nat →
  ∃ s' ms rest, pushPartial_loop fuel data s = (Ok tt, s') ∧ cuts (todo ++ data) ms rest ∧
    enc_view s' (box_after b (length ms)) (ready ++ box_seal b ms) rest.
Proof.
  revert data s b ready todo. induction fuel as [|fuel IH]; intros data s b ready todo Hv Hf.
  { exfalso. case_bool_decide; lia. }
  pose proof Hv as (Hb & Hv' & Hmax). cbn [pushPartial_loop].
  destruct (0 <? len data) eqn:E; zbool.
  2: { destruct data; [|len_lia]. exists s, [], todo. split; [done|].
       rewrite !app_nil_r. split; [by constructor|]. by rewrite box_after_0. }
  rewrite bind_get, (view_unprocessed _ _ _ Hv'), size_sub_exact by done.
  set (chunk := Z.min _ _). rewrite (bind_Ok (on_es (modify _)) _ s tt _ eq_refl). set (s1 := set_es _ s).
  assert (0 <= chunk <= len data) as Hch by (unfold chunk; lia).
  assert (enc_view s1 b ready (todo ++ ztake chunk data)) as Hv1.
  { destruct s as [[buf n] b'], Hv' as [Hbuf Hn]. cbn in *. subst. split_and!; try done.
    - unfold view, set_buffer. cbn. by rewrite app_assoc.
    - unfold chunk. len_lia. }
  destruct (0 <? len (zdrop chunk data)) eqn:E2; zbool.
  - (* a full message *)
    assert (chunk = kMaxMessageSize - len todo) as Hfull by (unfold chunk in *; len_lia).
    destruct (flush_run s1 b ready (todo ++ ztake chunk data) Hv1) as (s2 & Hfl & Hv2).
    { unfold kMaxMessageSize in *. len_lia. }
    rewrite (bind_Ok _ _ _ _ _ Hfl).
    edestruct (IH (zdrop chunk data) s2) as (s' & ms & rest & Hl & Hc & Hv3); [exact Hv2| |].
    { rewrite bool_decide_eq_true_2 by (cbn; unfold kMaxMessageSize; lia).
      case_bool_decide; len_lia. }
    assert (todo ++ ztake chunk data = ztake kMaxMessageSize (todo ++ data)) as Ht.
    { rewrite take_app, (take_ge todo) by lia. do 2 f_equal. lia. }
    assert (zdrop chunk data = zdrop kMaxMessageSize (todo ++ data)) as Hd.
    { rewrite drop_app, (drop_ge todo) by lia. cbn. f_equal. lia. }
    exists s', (ztake kMaxMessageSize (todo ++ data) :: ms), rest. split; [done|]. split.
    + constructor; [len_lia|]. by rewrite <-Hd.
    + rewrite box_after_after in Hv3. rewrite <-app_assoc, Ht in Hv3.
      by rewrite box_seal_cons.
  - (* the rest *)
    rewrite bind_ret.
    assert (ztake chunk data = data) as Ht by (apply ztake_all; len_lia).
    assert (zdrop chunk data = []) as -> by (apply zdrop_all; len_lia). rewrite Ht in Hv1.
    destruct fuel as [|fuel]; [case_bool_decide; len_lia|]. cbn [pushPartial_loop].
    exists s1, [], (todo ++ data). split; [done|]. rewrite box_after_0, app_nil_r.
    split; [|done]. constructor. by destruct Hv1 as (_ & _ & ?).
Qed.

(** [pushPartial] seals the full messages and keeps the rest. *)
Lemma pushPartial_run data s b ready todo :
  enc_view s b ready todo →
  ∃ s', pushPartial data s = (Ok tt, s') ∧
    let '(ms, rest) := cut_messages (todo ++ data) in
    enc_view s' (box_after b (length ms)) (ready ++ box_seal b ms) rest.
Proof.
  intros Hv. edestruct (pushPartial_loop_run (S (S (length data))) data s)
    as (s' & ms & rest & Hl & Hc & Hv'); [done|case_bool_decide; lia|].
  exists s'. split; [done|]. by rewrite (cuts_cut_messages _ _ _ Hc).
Qed.

(** [push] seals everything it is given. *)
Lemma enc_push_run data s b ready todo :
  enc_view s b ready todo →
  ∃ s', enc_push data s = (Ok tt, s') ∧
    let ms := push_messages (todo ++ data) in
    enc_view s' (box_after b (length ms)) (ready ++ box_seal b ms) [].
Proof.
  intros Hv. destruct (pushPartial_run data s b ready todo Hv) as (s1 & Hp & Hv1).
  unfold enc_push, push_messages. rewrite (bind_Ok _ _ _ _ _ Hp).
  destruct (cut_messages (todo ++ data)) as [ms rest]. case_bool_decide as Hr.
  - subst rest. exists s1. split; [by eapply flush_idle|]. cbv zeta. by rewrite app_nil_r.
  - destruct (flush_run _ _ _ _ Hv1) as (s2 & Hf & Hv2); [destruct rest; [done|len_lia]|].
    exists s2. split; [done|]. cbv zeta.
    rewrite box_after_after in Hv2. by rewrite box_seal_app, length_app, app_assoc.
Qed.

Lemma push_messages_concat all :
  concat (push_messages all) = all ∧
  Forall (λ m, 0 < len m <= kMaxMessageSize) (push_messages all).
Proof.
  unfold push_messages. destruct (cut_messages all) as [ms rest] eqn:E.
  apply cut_cuts in E; [|done]. apply cuts_concat in E as (-> & Hf & Hr & _).
  rewrite concat_app, Forall_app. split.
  - case_bool_decide as Hn; [by rewrite Hn, !app_nil_r|]. cbn. by rewrite app_nil_r.
  - split; [revert Hf; apply Forall_impl; unfold kMaxMessageSize; cbn; lia|].
    case_bool_decide as Hn; [done|]. constructor; [|done]. destruct rest; [done|len_lia].
Qed.

Lemma push_parts_run parts s b ready todo :
  enc_view s b ready todo →
  ∃ s' ms rest, push_parts parts s = (Ok tt, s') ∧ cuts (todo ++ concat parts) ms rest ∧
    enc_view s' (box_after b (length ms)) (ready ++ box_seal b ms) rest.
Proof.
  revert s b ready todo. induction parts as [|d parts IH]; intros s b ready todo Hv.
  - exists s, [], todo. cbn [concat]. rewrite !app_nil_r, box_after_0. split; [done|].
    split; [|done]. constructor. by destruct Hv as (_ & _ & ?).
  - cbn [push_parts concat]. destruct (pushPartial_run d s b ready todo Hv) as (s1 & Hp & Hv1).
    destruct (cut_messages (todo ++ d)) as [ms1 r1] eqn:Ec. apply cut_cuts in Ec; [|done].
    rewrite (bind_Ok _ _ _ _ _ Hp).
    destruct (IH _ _ _ _ Hv1) as (s' & ms2 & r2 & Hp2 & Hc2 & Hv2).
    exists s', (ms1 ++ ms2), r2. split; [done|].
    split; [rewrite app_assoc; by eapply cuts_app|].
    by rewrite length_app, <-box_after_after, box_seal_app, app_assoc.
Qed.

(** Pushing parts and flushing is one [push] of the whole. *)
Lemma push_parts_flush parts s b ready :
  enc_view s b ready [] →
  ∃ s1 s2, push_parts parts s = (Ok tt, s1) ∧ flush s1 = (Ok tt, s2) ∧
    let ms := push_messages (concat parts) in
    enc_view s2 (box_after b (length ms)) (ready ++ box_seal b ms) [].
Proof.
  intros Hv. destruct (push_parts_run parts s b ready [] Hv) as (s1 & ms & rest & Hp & Hc & Hv1).
  cbn [app] in Hc. unfold push_messages. rewrite (cuts_cut_messages _ _ _ Hc).
  case_bool_decide as Hr.
  - subst rest. exists s1, s1. split; [done|]. split; [by eapply flush_idle|].
    cbv zeta. by rewrite app_nil_r.
  - destruct (flush_run _ _ _ _ Hv1) as (s2 & Hf & Hv2); [destruct rest; [done|len_lia]|].
    exists s1, s2. split; [done|]. split; [done|]. cbv zeta.
    rewrite box_after_after in Hv2. by rewrite box_seal_app, length_app, app_assoc.
Qed.

(** Accepted bytes, continued. *)
Lemma accepts_app b x ms1 r1 y ms2 r2 :
  accepts b x ms1 r1 → accepts (box_after b (length ms1)) (r1 ++ y) ms2 r2 →
  accepts b (x ++ y) (ms1 ++ ms2) r2.
Proof.
  induction 1 as [b r1|b w m todo msgs rest Hw _ IH]; cbn [length app]; intros H2.
  - by rewrite box_after_0 in H2.
  - rewrite <-app_assoc. constructor; [done|]. apply IH. by rewrite box_after_after.
Qed.

(** The bytes say where a message ends, and what it is. *)
Lemma accepts1_front b w m y : accepts1 b w m → box_front b (w ++ y) = Success.
Proof.
  intros [Hl Ho]. unfold box_front, Wire.front. destruct (_protocol b); cbn [Wire.overhead] in Hl.
  - assert (take 2 (w ++ y) = take 2 w) as E by (apply take_app_le; lia). rewrite E.
    assert (readUint16At (take 2 w) = len m) as Hn by (by destruct Ho as [[? _]|(_ & -> & ? & _)]).
    rewrite Hn. rewrite !(proj2 (Z.ltb_ge _ _)) by len_lia. cbn [orb].
    rewrite drop_app_le, (ztake_app_exact (drop 2 w)) by (rewrite ?length_drop; lia).
    destruct Ho as [[_ ->]|(_ & -> & _ & ->)]; done.
  - destruct Ho as [(header & Hu & Hn & Hk)|[? _]]; [|done].
    rewrite (proj2 (Z.ltb_ge _ 34)) by len_lia. rewrite take_app_le, Hu by lia. rewrite Hn.
    rewrite (proj2 (Z.ltb_ge _ _)) by len_lia.
    rewrite drop_app_le, (ztake_app_exact (drop 34 w)) by (rewrite ?length_drop; lia). by rewrite Hk.
Qed.

Lemma accepts1_unique b w w' m m' y y' :
  accepts1 b w m → accepts1 b w' m' → w ++ y = w' ++ y' → w = w' ∧ m = m' ∧ y = y'.
Proof.
  intros [Hl Ho] [Hl' Ho'] He.
  assert (len m = len m') as Hm.
  { assert (∀ n, (n <= length w)%nat → (n <= length w')%nat → take n w = take n w') as Ht.
    { intros n H1 H2. rewrite <-(take_app_le w y), <-(take_app_le w' y') by done. by rewrite He. }
    destruct (_protocol b); cbn [Wire.overhead] in *.
    - specialize (Ht 2%nat ltac:(lia) ltac:(lia)).
      assert (∀ w m, Wire.opens Compact (_key b) (_nonce b) w m ∨ Compact = Compact ∧ m = [] ∧
        readUint16At (take 2 w) = 0 ∧ unbox xchacha20 (_key b) (_nonce b) (drop 2 w) = None →
        readUint16At (take 2 w) = len m) as Hs by (intros ? ? [[? _]|(_ & -> & ? & _)]; done).
      rewrite <-(Hs w m Ho), <-(Hs w' m' Ho'). by rewrite Ht.
    - specialize (Ht 34%nat ltac:(lia) ltac:(lia)).
      destruct Ho as [(h & Hu & <- & _)|[? _]]; [|done].
      destruct Ho' as [(h' & Hu' & <- & _)|[? _]]; [|done]. rewrite Ht in Hu. by simplify_eq. }
  apply app_inj_1 in He as [-> ->]; [|lia]. split; [done|]. split; [|done].
  destruct Ho as [Ho|(Hp & -> & _ & Ho)]; [|destruct m'; [done|len_lia]].
  destruct Ho' as [Ho'|(Hp & -> & _ & Ho')]; [|destruct m; [done|len_lia]].
  unfold Wire.opens in *. destruct (_protocol b); [naive_solver congruence|].
  destruct Ho as (h & Hu & _ & Hk), Ho' as (h' & Hu' & _ & Hk'). rewrite Hu in Hu'. by simplify_eq.
Qed.

(** There is one way to accept as much as can be accepted. *)
Lemma accepts_unique b d ms r ms' r' :
  accepts b d ms r → box_front (box_after b (length ms)) r ≠ Success →
  accepts b d ms' r' → box_front (box_after b (length ms')) r' ≠ Success →
  ms = ms' ∧ r = r'.
Proof.
  intros Ha. revert ms' r'. induction Ha as [b r|b w m todo msgs rest Hw Ht IH]; intros ms' r' Hr Ha' Hr'.
  - inversion Ha' as [|? w' m' todo' ? ? Hw' _]; subst; [done|].
    rewrite box_after_0 in Hr. by destruct Hr; eapply accepts1_front.
  - remember (w ++ todo) as d eqn:Ed. destruct Ha' as [b d|b w' m' todo' msgs' rest' Hw' Ht'].
    { subst d. rewrite box_after_0 in Hr'. by destruct Hr'; eapply accepts1_front. }
    symmetry in Ed. destruct (accepts1_unique _ _ _ _ _ _ _ Hw Hw' Ed) as (<- & <- & <-).
    destruct (IH msgs' rest') as [-> ->]; [by rewrite box_after_after|done|by rewrite box_after_after|done].
Qed.

(** ** The decryption loop *)

Lemma on_decryptor_run {A} (c : M boxenv A) s r e :
  c (MkEnv (_decryptor s) (_buffer (ds s))) = (r, e) →
  on_decryptor c s = (r, MkDec (set_buffer (mem e) (ds s)) (the_box e)).
Proof. unfold on_decryptor, zoom. by intros ->. Qed.

(** Putting the plaintext over the start of the ciphertext and closing the
    gap replaces the ciphertext by the plaintext. *)
Lemma replace_in_place ready w rest m m' :
  len m <= len w → mwrite (ready ++ w ++ rest) (len ready) m = Some m' →
  vec_erase m' (len ready + len m) (len ready + len w) = Some ((ready ++ m) ++ rest).
Proof.
  intros Hl Hw. destruct (zsplit w (len m)) as (w1 & w2 & -> & Hw1); [lia|].
  rewrite <-(app_assoc w1 w2 rest), mwrite_at in Hw by (done || lia). injection Hw as <-.
  rewrite (app_assoc ready m). apply vec_erase_at; len_lia.
Qed.

(** What one turn of the loop does with bytes that [decrypt] accepts. *)
Lemma dec_loop_success fuel s b ready w rest m m' :
  dec_view s b ready (w ++ rest) → accepts1 b w m →
  mwrite (_buffer (ds s)) (len ready) m = Some m' →
  decrypt (MkIn (len ready) (len (w ++ rest))) (MkOut (len ready) (len (w ++ rest)))
    (MkEnv b (_buffer (ds s))) =
    (Ok (Success, MkIn (len ready + len w) (len (w ++ rest) - len w), MkOut (len ready) (len m)),
     MkEnv (box_after b 1) m') →
  ∃ s', dec_push_loop (S fuel) s = dec_push_loop fuel s' ∧
    dec_view s' (box_after b 1) (ready ++ m) rest.
Proof.
  destruct s as [[buf n] b']. intros (Hb & Hv) (Hl & _) Hw Hd. pose proof Hv as [Hbuf Hn].
  cbn in Hb, Hbuf, Hn, Hw, Hd, Hv. subst b' n.
  assert (0 < Wire.overhead (_protocol b)) by (by destruct (_protocol b)).
  cbn [dec_push_loop]. rewrite bind_get. cbn [ds _processedBytes].
  rewrite (view_unprocessed _ _ _ Hv). ztest.
  rewrite (bind_Ok _ _ _ _ _
    (on_decryptor_run _ (MkDec (MkStream buf (len ready)) b) _ _ Hd)).
  rewrite (bind_Ok (on_ds (modify _)) _ _ tt _ eq_refl), bind_get.
  cbn [in_data out_size ds set_ds set_processed set_buffer _processedBytes _buffer the_box mem].
  rewrite Hbuf in Hw.
  assert (len m <= len w) as Hlm by lia.
  rewrite (replace_in_place ready w rest m m' Hlm Hw).
  eexists. split; [done|]. split; [done|]. split; [done|]. cbn. len_lia.
Qed.

Lemma accepts1_seal b m : accepts1 b (box_seal b [m]) m ∨ kMaxMessageSize < len m.
Proof.
  destruct (decide (kMaxMessageSize < len m)) as [|Hm]; [by right|left].
  unfold box_seal. cbn [seal_all]. rewrite app_nil_r. split; [apply seal_len|]. left.
  unfold kMaxMessageSize in Hm. destruct b as [k n []]; cbn [Wire.seal Wire.opens _protocol _key _nonce].
  - rewrite take_app_length', drop_app_length', unbox_box by done. split; [|done].
    rewrite <-(app_nil_r (uint16_be _)). apply readUint16At_uint16_be. lia.
  - pose proof (seal_head_len BoxStream k n m) as Hh. cbn [seal_head Wire.prefix] in Hh.
    exists (uint16_be (len m) ++ (lock xsalsa20 k n m).1).
    rewrite (take_app_length' (box _ _ _ _)), (drop_app_length' (box _ _ _ _)) by lia.
    split; [apply unbox_box|].
    rewrite take_app_length', drop_app_length', unlock_lock by done. split; [|done].
    rewrite <-(app_nil_r (uint16_be _)). apply readUint16At_uint16_be. lia.
Qed.

(** Honest traffic: complete messages are decrypted, an incomplete one waits. *)
Lemma dec_loop_honest msgs fuel s b ready tail m' more :
  dec_view s b ready (box_seal b msgs ++ tail) →
  Forall (λ m, len m <= kMaxMessageSize) msgs →
  tail ++ more = box_seal (box_after b (length msgs)) [m'] → more ≠ [] →
  len m' <= kMaxMessageSize → (length msgs < fuel)%nat →
  ∃ s', dec_push_loop fuel s = (Ok true, s') ∧
    dec_view s' (box_after b (length msgs)) (ready ++ concat msgs) tail.
Proof.
  revert fuel s b ready. induction msgs as [|m msgs IH]; intros fuel s b ready Hv Hm Ht Hmore Hm' Hf;
    (destruct fuel as [|fuel]; [cbn in Hf; lia|]).
  - cbn [length] in *. rewrite box_after_0 in *. rewrite app_nil_r. exists s. split; [|done].
    destruct Hv as (Hb & Hv). cbn [box_seal seal_all app] in Hv.
    cbn [dec_push_loop]. rewrite bind_get.
    rewrite (view_unprocessed _ _ _ Hv). pose proof Hv as [Hbuf Hn].
    set (addr := if 0 <? len tail then _processedBytes (ds s) else 0).
    assert (mread (_buffer (ds s)) addr (len tail) = Some tail) as Hr.
    { rewrite Hbuf. unfold addr. destruct (0 <? len tail) eqn:E; zbool.
      - by apply mread_end.
      - destruct tail; [|len_lia]. rewrite mread_is_Some by (cbn; lia). done. }
    unfold box_seal in Ht. cbn [seal_all] in Ht. rewrite app_nil_r in Ht.
    pose proof (decrypt_prefix (MkEnv b (_buffer (ds s))) (MkIn addr (len tail))
      (MkOut addr (len tail)) m' tail more Hr Ht Hmore Hm') as Hd.
    cbv zeta in Hd. destruct s as [[buf n] b']. cbn in Hd, Hb. subst b'.
    by rewrite (bind_Ok _ _ _ _ _ (on_decryptor_run _ (MkDec (MkStream buf n) b) _ _ Hd)).
  - apply Forall_cons_1 in Hm as [Hm Hms].
    rewrite box_seal_cons, <-app_assoc in Hv. set (rest := box_seal _ msgs ++ tail) in Hv.
    destruct (accepts1_seal b m) as [Hacc|]; [|lia].
    set (w := box_seal b [m]) in *.
    pose proof Hv as (Hb & [Hbuf Hn]). pose proof Hacc as (Hlw & _).
    assert (0 <= Wire.overhead (_protocol b)) by (by destruct (_protocol b)).
    assert (∃ mm, mwrite (_buffer (ds s)) (len ready) m = Some mm) as [mm Hmm].
    { eexists. apply mwrite_is_Some; [lia|]. rewrite Hbuf. len_lia. }
    pose proof (decrypt_run (MkEnv b (_buffer (ds s))) (MkIn (len ready) (len (w ++ rest)))
      (MkOut (len ready) (len (w ++ rest))) m mm) as Hd. cbn [the_box mem in_data in_size out_data out_size] in Hd.
    destruct (dec_loop_success fuel s b ready w rest m mm Hv Hacc Hmm) as (s' & Hl & Hv').
    { rewrite Hlw. apply Hd; [|done|len_lia|len_lia|done].
      assert (w = Wire.seal (_protocol b) (_key b) (_nonce b) m) as <-
        by (unfold w, box_seal; cbn [seal_all]; by rewrite app_nil_r).
      rewrite Hbuf. by apply mread_at. }
    rewrite Hl. cbn [concat length] in *.
    destruct (IH fuel s' (box_after b 1) (ready ++ m)) as (s2 & Hl2 & Hv2); try done; try lia.
    { by rewrite box_after_after. }
    exists s2. rewrite Hl2. split; [done|]. rewrite box_after_after in Hv2.
    by rewrite app_assoc.
Qed.

(** Where the loop has [decrypt] work: at the end of the plaintext, or nowhere
    when there is nothing left. *)
Definition dec_region s (todo : bytes) : Z := if 0 <? len todo then _processedBytes (ds s) else 0.

Lemma dec_region_at s b ready todo :
  dec_view s b ready todo → dec_region s todo = len ready ∨ dec_region s todo = 0 ∧ todo = [].
Proof.
  intros (_ & _ & Hn). unfold dec_region. destruct (0 <? len todo) eqn:E; zbool; [by left|right].
  destruct todo; [done|len_lia].
Qed.

Lemma dec_loop_unfold fuel s b ready todo a st inp' out' e' :
  dec_view s b ready todo → a = dec_region s todo →
  decrypt (MkIn a (len todo)) (MkOut a (len todo)) (MkEnv b (_buffer (ds s))) = (Ok (st, inp', out'), e') →
  dec_push_loop (S fuel) s = (match st with
      | Success =>
          on_ds (modify (λ c, set_processed (_processedBytes c + out_size out') c));;
          s ← get;
          b ← in_bounds (vec_erase (_buffer (ds s)) (_processedBytes (ds s)) (in_data inp'));
          on_ds (modify (set_buffer b));;
          dec_push_loop fuel
      | IncompleteInput => mret true
      | CorruptData => mret false
      | OutTooSmall => throw LogicError
      end) (MkDec (set_buffer (mem e') (ds s)) (the_box e')).
Proof.
  intros (Hb & Hv) -> Hd. cbn [dec_push_loop]. rewrite bind_get, (view_unprocessed _ _ _ Hv).
  rewrite <-Hb in Hd. fold (dec_region s todo).
  by rewrite (bind_Ok _ _ _ _ _ (on_decryptor_run _ s _ _ Hd)).
Qed.

(** What [decrypt] scribbles over a corrupt message leaves the plaintext. *)
Lemma scribble_keeps a ready todo junk m :
  (a = len ready ∨ a = 0 ∧ todo = []) → len junk ≤ len todo →
  mwrite (ready ++ todo) a junk = Some m →
  ∃ todo', m = ready ++ todo' ∧ len todo' = len todo.
Proof.
  intros [->|[-> ->]] Hj Hm.
  - destruct (zsplit todo (len junk)) as (t1 & t2 & -> & Ht1); [lia|].
    rewrite mwrite_at in Hm by (done || lia). injection Hm as <-.
    exists (junk ++ t2). split; [done|]. len_lia.
  - destruct junk; [|len_lia]. rewrite mwrite_nil in Hm by lia. injection Hm as <-. by exists [].
Qed.

(** Arbitrary bytes: the loop always ends, never with an internal error, and
    everything it adds to the plaintext has been accepted in order. *)
Lemma dec_loop_any fuel s b ready todo :
  dec_view s b ready todo → (length todo < fuel)%nat →
  ∃ r s' msgs rest rest', dec_push_loop fuel s = (Ok r, s') ∧ accepts b todo msgs rest ∧
    dec_view s' (box_after b (length msgs)) (ready ++ concat msgs) rest' ∧
    len rest' = len rest ∧ (r = true → rest' = rest) ∧
    box_front (box_after b (length msgs)) rest = (if r then IncompleteInput else CorruptData).
Proof.
  revert s b ready todo. induction fuel as [|fuel IH]; intros s b ready todo Hv Hf; [lia|].
  pose proof Hv as (Hb & Hv'). pose proof Hv' as [Hbuf Hn].
  pose proof (dec_region_at s b ready todo Hv) as Haddr. set (addr := dec_region s todo) in *.
  set (inp := MkIn addr (len todo)). set (out := MkOut addr (len todo)).
  assert (regions_ok (MkEnv b (_buffer (ds s))) inp out) as Hreg.
  { unfold regions_ok, inp, out. cbn. rewrite Hbuf.
    destruct Haddr as [->|[-> ->]]; len_lia. }
  destruct (decrypt_cases (MkEnv b (_buffer (ds s))) inp out Hreg) as (st & inp' & out' & e' & Hd & Hsp).
  assert (mread (_buffer (ds s)) addr (len todo) = Some todo) as Hmr.
  { rewrite Hbuf. destruct Haddr as [->|[-> ->]].
    - rewrite <-(app_nil_r todo) at 1. by rewrite mread_at.
    - rewrite mread_is_Some by len_lia. done. }
  pose proof (decrypt_front (MkEnv b (_buffer (ds s))) inp out st inp' out' e' todo Hmr Hreg Hd) as Hfr.
  cbn [the_box] in Hfr.
  pose proof (dec_loop_unfold fuel s b ready todo addr _ _ _ _ Hv eq_refl Hd) as Hl.
  unfold decrypt_spec in Hsp. cbn [the_box mem] in Hsp. destruct st.
  - (* a message *)
    destruct Hsp as (Hbox & Hn' & _ & Hov & -> & Ho & w & m & Hw & Hm & Hlm & Hop).
    destruct out' as [oa on]. cbn [in_data in_size inp out_data out_size out] in *.
    assert (0 < Wire.overhead (_protocol b)) by (by destruct (_protocol b)).
    destruct Haddr as [Haddr|[_ ->]]; [|len_lia]. rewrite Haddr in *.
    assert (∃ rest, todo = w ++ rest) as [rest ->].
    { rewrite Hbuf in Hw. apply mread_Some in Hw as (_ & _ & _ & -> & _).
      rewrite zdrop_app_len. eexists. symmetry. apply take_drop. }
    apply mread_Some in Hw as (_ & _ & _ & _ & Hlw).
    assert (accepts1 b w m) as Hacc.
    { split; [lia|]. destruct Hop as [Hop|(? & ? & ? & ?)]; [by left|right].
      split_and!; [done| |done..]. destruct m; [done|len_lia]. }
    destruct (dec_loop_success fuel s b ready w rest m (mem e') Hv Hacc Hm) as (s1 & Hl1 & Hv1).
    { unfold inp, out in Hd. rewrite Haddr in Hd. rewrite Hd, Ho, <-Hlw, <-Hlm. destruct e'; cbn in *. by rewrite Hbox. }
    rewrite Hl1. destruct (IH s1 _ _ _ Hv1) as (r & s2 & msgs & rest1 & rest2 & Hl2 & Hac & Hv2 & Hr).
    { len_lia. }
    exists r, s2, (m :: msgs), rest1, rest2. split; [done|]. split; [by econstructor|].
    cbn [length concat]. rewrite box_after_after, <-app_assoc in Hv2. rewrite box_after_after in Hr. done.
  - (* impossible: the output region is as large as the input *)
    unfold inp, out in Hsp. cbn in Hsp. lia.
  - destruct Hsp as (-> & -> & ->). rewrite Hl. exists true, s, [], todo, todo.
    rewrite box_after_0, app_nil_r. split; [by destruct s as [[]]; cbn in *; subst|].
    split_and!; try done; [constructor|by apply Hfr].
  - destruct Hsp as (Hbox & _ & _ & junk & Hj & Hm). cbn [out_size out_data out] in *.
    rewrite Hbuf in Hm. destruct (scribble_keeps _ _ _ _ _ Haddr Hj Hm) as (todo' & Hmem & Hlt).
    rewrite Hl. eexists false, _, [], todo, todo'. split; [done|].
    rewrite box_after_0, app_nil_r. split; [constructor|]. split; [by split; [|split]|].
    split_and!; try done. by apply Hfr.
Qed.

(** [push]: first the bytes are appended. *)
Lemma dec_push_unfold data s b ready todo :
  dec_view s b ready todo →
  ∃ s1, dec_push data s = dec_push_loop (S (length (ready ++ todo ++ data))) s1 ∧
    dec_view s1 b ready (todo ++ data).
Proof.
  destruct s as [[buf n] b']. intros (Hb & [Hbuf Hn]). cbn in Hb, Hbuf, Hn. subst.
  eexists (MkDec (MkStream ((ready ++ todo) ++ data) (len ready)) b). split.
  - unfold dec_push. mrun. by rewrite <-app_assoc.
  - split; [done|]. split; [|done]. cbn. by rewrite <-app_assoc.
Qed.

(** [push] of arbitrary bytes. *)
Lemma dec_push_run data s b ready todo :
  dec_view s b ready todo →
  ∃ r s' msgs rest rest', dec_push data s = (Ok r, s') ∧
    accepts b (todo ++ data) msgs rest ∧
    dec_view s' (box_after b (length msgs)) (ready ++ concat msgs) rest' ∧
    len rest' = len rest ∧ (r = true → rest' = rest) ∧
    box_front (box_after b (length msgs)) rest = (if r then IncompleteInput else CorruptData).
Proof.
  intros Hv. destruct (dec_push_unfold data s b ready todo Hv) as (s1 & -> & Hv1).
  apply dec_loop_any; [done|len_lia].
Qed.

Lemma dec_close_run s b ready todo :
  dec_view s b ready todo →
  ∃ s', dec_close s = (Ok (bool_decide (todo = [])), s') ∧ dec_view s' b [] [].
Proof.
  destruct s as [[buf n] b']. intros (Hb & [Hbuf Hn]). cbn in Hb, Hbuf, Hn. subst.
  exists (MkDec (MkStream [] 0) b). unfold dec_close. mrun. split; [|done].
  unfold set_ds. cbn. do 2 f_equal. case_bool_decide as Ht.
  - subst todo. rewrite app_nil_r. apply Z.eqb_refl.
  - apply Z.eqb_neq. destruct todo; [done|len_lia].
Qed.

(** Every message takes room on the wire. *)
Lemma box_seal_len b msgs : (length msgs <= length (box_seal b msgs))%nat.
Proof.
  revert b. induction msgs as [|m msgs IH]; intros b; [cbn; lia|].
  rewrite box_seal_cons, length_app. specialize (IH (box_after b 1)).
  assert (0 < len (box_seal b [m])); [|cbn [length]; lia].
  unfold box_seal. cbn [seal_all]. rewrite app_nil_r, seal_len. destruct (_protocol b); cbn; lia.
Qed.

End lemmas.

(** * Properties *)

Section properties.
Context {P : Primitives} {PL : PrimitivesLaws P}.

(** C25: [pushPartial] and [push] refine their abstract description on the
    view of the stream, for input of any length: the pending bytes and the new
    ones are cut into maximal messages, which are sealed in order behind the
    ready bytes; the rest stays pending ([pushPartial]) or becomes a last
    message ([push]). Nothing is lost: the messages are not empty, have at most
    65535 bytes each, and their concatenation is the input. The loops end, no
    exception or assertion is raised, and never more than 65535 bytes are
    pending. *)
Theorem enc_stream_refines s b ready todo data :
  enc_view s b ready todo →
  (∃ s', pushPartial data s = (Ok tt, s') ∧
    let '(ms, rest) := cut_messages (todo ++ data) in
    enc_view s' (box_after b (length ms)) (ready ++ box_seal b ms) rest) ∧
  (∃ s', enc_push data s = (Ok tt, s') ∧
    let ms := push_messages (todo ++ data) in
    enc_view s' (box_after b (length ms)) (ready ++ box_seal b ms) [] ∧
    concat ms = todo ++ data ∧ Forall (λ m, 0 < len m <= kMaxMessageSize) ms).
Proof.
  intros Hv. split; [by apply pushPartial_run|].
  destruct (enc_push_run data s b ready todo Hv) as (s' & Hp & Hv'). exists s'.
  split; [done|]. cbv zeta. split; [done|]. apply push_messages_concat.
Qed.

(** A decryption stream that receives honest traffic returns true
    whatever the point at which the traffic is cut: the complete messages join
    the plaintext in order, the incomplete one waits in the buffer, and the
    nonce stays in step with the sender's. *)
Theorem dec_push_honest s b ready todo data msgs tail m' more :
  dec_view s b ready todo → todo ++ data = box_seal b msgs ++ tail →
  Forall (λ m, len m <= kMaxMessageSize) msgs →
  tail ++ more = box_seal (box_after b (length msgs)) [m'] → more ≠ [] →
  len m' <= kMaxMessageSize →
  ∃ s', dec_push data s = (Ok true, s') ∧
    dec_view s' (box_after b (length msgs)) (ready ++ concat msgs) tail.
Proof.
  intros Hv Htd Hm Ht Hmore Hm'. destruct (dec_push_unfold data s b ready todo Hv) as (s1 & -> & Hv1).
  rewrite Htd in *. apply (dec_loop_honest msgs _ s1 b ready tail m' more); try done.
  pose proof (box_seal_len b msgs). len_lia.
Qed.

(** C24: On arbitrary bytes [DecryptionStream::push] always returns: its loop
    ends, no exception is thrown (the case marked impossible in the source is)
    and no byte outside the buffer is touched. Whatever it adds to the
    plaintext is a sequence of messages accepted under consecutive nonces,
    cut from the front of the received bytes; plaintext from before is kept. It
    returns true when what is left is not yet a whole message, and false when
    it is one that does not authenticate. *)
Theorem dec_push_authentic s b ready todo data :
  dec_view s b ready todo →
  ∃ r s' msgs rest rest', dec_push data s = (Ok r, s') ∧
    accepts b (todo ++ data) msgs rest ∧
    dec_view s' (box_after b (length msgs)) (ready ++ concat msgs) rest' ∧
    len rest' = len rest ∧ (r = true → rest' = rest) ∧
    box_front (box_after b (length msgs)) rest = (if r then IncompleteInput else CorruptData).
Proof. apply dec_push_run. Qed.

(** [pull] returns the oldest processed bytes, at most as many as asked
    for, and removes exactly them; [skip] removes the same bytes. Pending
    bytes are not affected. *)
Theorem pull_skip_fifo s ready todo n :
  view s ready todo → 0 <= n →
  ∃ s', pull n s = (Ok (ztake n ready), s') ∧
    skip n s = (Ok (len (ztake n ready)), s') ∧
    availableData s' = zdrop n ready ∧ view s' (zdrop n ready) todo.
Proof.
  intros Hv Hn. destruct (pull_run s ready todo n Hv Hn) as (s' & Hp & Hv').
  destruct (skip_run s ready todo n Hv Hn) as (s2 & Hs & Hv2).
  assert (s2 = s') as -> by (destruct s2, s', Hv' as [??], Hv2 as [??]; cbn in *; congruence).
  exists s'. split_and!; [done| |by eapply view_available|done].
  rewrite Hs. do 2 f_equal. len_lia.
Qed.

End properties.

(** * Witnesses *)

Module Demo.
Import Toy.
Definition b0 : CryptoBox := MkBox (replicate 32 x07) zero_nonce Compact.
Definition enc0 : EncryptionStream := EncryptionStream_init (replicate 32 x07) zero_nonce Compact.
Definition dec0 : DecryptionStream := DecryptionStream_init (replicate 32 x07) zero_nonce Compact.
Definition hello : bytes := [x68; x65; x6c; x6c; x6f].
Definition traffic : bytes := Eval vm_compute in box_seal b0 [hello].
Definition next_message : bytes := Eval vm_compute in box_seal (box_after b0 1) [[x21]].

Lemma enc_stream_refines_witness :
  ∃ s', enc_push hello enc0 = (Ok tt, s') ∧ enc_view s' (box_after b0 1) traffic [].
Proof.
  destruct (enc_stream_refines enc0 b0 [] [] hello) as (_ & s' & Hp & Hv & _).
  { repeat split. discriminate. }
  exists s'. split; [exact Hp|exact Hv].
Defined.

Lemma dec_push_honest_witness :
  ∃ s', dec_push (traffic ++ take 7 next_message) dec0 = (Ok true, s') ∧
    dec_view s' (box_after b0 1) hello (take 7 next_message).
Proof.
  apply (dec_push_honest dec0 b0 [] [] _ [hello] (take 7 next_message) [x21] (drop 7 next_message)).
  - repeat split.
  - reflexivity.
  - constructor; [discriminate|constructor].
  - vm_compute. reflexivity.
  - discriminate.
  - discriminate.
Defined.

(** Forged bytes. *)
Lemma dec_push_authentic_witness :
  ∃ r s' msgs rest rest', dec_push (replicate 40 x01) dec0 = (Ok r, s') ∧
    accepts b0 ([] ++ replicate 40 x01) msgs rest ∧
    dec_view s' (box_after b0 (length msgs)) ([] ++ concat msgs) rest' ∧
    len rest' = len rest ∧ (r = true → rest' = rest) ∧
    box_front (box_after b0 (length msgs)) rest = (if r then IncompleteInput else CorruptData).
Proof. apply (dec_push_authentic dec0 b0 [] [] (replicate 40 x01)). repeat split. Defined.

Lemma pull_skip_fifo_witness :
  ∃ s', pull 3 (MkStream (hello ++ [x00]) 5) = (Ok [x68; x65; x6c], s') ∧
    availableData s' = [x6c; x6f].
Proof.
  destruct (pull_skip_fifo (MkStream (hello ++ [x00]) 5) hello [x00] 3) as (s' & Hp & _ & Ha & _).
  - repeat split.
  - discriminate.
  - exists s'. split; [exact Hp|exact Ha].
Defined.
End Demo.
