(* ===== verification/Channel.v ===== *)
(** An encrypted one-way connection: an [EncryptionStream], the network, and a
    [DecryptionStream] with the same key, nonce and protocol.

    [chan_step] interleaves the calls of the two applications with deliveries
    of the network, which may cut the byte stream anywhere. The abstract
    specification is a byte queue: [pipe_step] writes bytes at one end and
    reads them at the other. The theorems: the connection refines the queue
    (what the receiver reads is always a prefix of what the sender wrote), no
    step ever fails, once everything has been flushed and delivered the
    receiver has everything and sees a clean end, and [encrypt] gives the
    cipher no nonce twice: the nonces are recorded at its calls of [lock] and
    [box], by [logging] of Boxes.v, and are counted up to 2^64. *)
From Stdlib Require Import ZArith Lia Strings.Byte.
From stdpp Require Import base list numbers option tactics relations.
From S2P Require Import Prelude Crypto Shs Boxes Streams.

Open Scope Z_scope.

(** * The system *)

Record chan := MkChan {
  sender : EncryptionStream;
  receiver : DecryptionStream;
  wire : bytes;               (* bytes sent and not yet delivered *)
  written : bytes;            (* everything the sender's application wrote *)
  got : bytes;                (* everything the receiver's application read *)
}.

Section system.
Context {P : Primitives}.

Inductive chan_step : chan → chan → Prop :=
| step_pushPartial s s' r w wr g data :
    pushPartial data s = (Ok tt, s') →
    chan_step (MkChan s r w wr g) (MkChan s' r w (wr ++ data) g)
| step_push s s' r w wr g data :
    enc_push data s = (Ok tt, s') →
    chan_step (MkChan s r w wr g) (MkChan s' r w (wr ++ data) g)
| step_flush s s' r w wr g :
    flush s = (Ok tt, s') →
    chan_step (MkChan s r w wr g) (MkChan s' r w wr g)
| step_send s s' r w wr g n b :
    0 <= n → on_es (pull n) s = (Ok b, s') →
    chan_step (MkChan s r w wr g) (MkChan s' r (w ++ b) wr g)
| step_deliver s r r' w wr g chunk ok :
    dec_push chunk r = (Ok ok, r') →
    chan_step (MkChan s r (chunk ++ w) wr g) (MkChan s r' w wr g)
| step_read s r r' w wr g n b :
    0 <= n → on_ds (pull n) r = (Ok b, r') →
    chan_step (MkChan s r w wr g) (MkChan s r' w wr (g ++ b)).

Definition chan_init (key nonce : bytes) (p : Protocol) : chan :=
  MkChan (EncryptionStream_init key nonce p) (DecryptionStream_init key nonce p) [] [] [].

(** ** The specification: a queue of bytes *)

Record pipe := MkPipe { p_written : bytes; p_got : bytes }.

Inductive pipe_step : pipe → pipe → Prop :=
| pipe_write w g data : pipe_step (MkPipe w g) (MkPipe (w ++ data) g)
| pipe_read w g more rest :
    w = g ++ more ++ rest → pipe_step (MkPipe w g) (MkPipe w (g ++ more)).

Definition chan_pipe (c : chan) : pipe := MkPipe (written c) (got c).

(** ** The invariant *)

(** [part] holds no complete message of [msgs]. *)
Definition incomplete (b : CryptoBox) (part : bytes) (msgs : list bytes) : Prop :=
  match msgs with
  | [] => part = []
  | m :: _ => len part < len (box_seal b [m])
  end.

(** [msgs] are the sealed messages not yet decrypted: their bytes are in the
    receiver's buffer ([part]), on the wire, and ready at the sender
    ([out]). *)
Definition chan_inv_with (c : chan) (b : CryptoBox) (msgs : list bytes)
    (out todo avail part : bytes) : Prop :=
  enc_view (sender c) (box_after b (length msgs)) out todo ∧
  dec_view (receiver c) b avail part ∧
  part ++ wire c ++ out = box_seal b msgs ∧
  Forall (λ m, 0 < len m <= kMaxMessageSize) msgs ∧
  incomplete b part msgs ∧
  written c = got c ++ avail ++ concat msgs ++ todo.

Definition chan_inv (c : chan) : Prop :=
  ∃ b msgs out todo avail part, chan_inv_with c b msgs out todo avail part.

End system.

(** * Preservation *)

Section preservation.
Context {P : Primitives} {PL : PrimitivesLaws P}.
Implicit Types (b : CryptoBox) (m : bytes) (msgs : list bytes) (c : chan).

Lemma box_seal_1_pos b m : 0 < len (box_seal b [m]).
Proof.
  unfold box_seal. cbn [seal_all]. rewrite app_nil_r, seal_len. destruct (_protocol b); cbn; lia.
Qed.

Lemma incomplete_app b part ms1 ms2 :
  ms1 ≠ [] → incomplete b part ms1 → incomplete b part (ms1 ++ ms2).
Proof. by destruct ms1. Qed.

(** Any prefix of the traffic is some complete messages and a part of the
    next one. *)
Lemma traffic_prefix b msgs d rest :
  d ++ rest = box_seal b msgs →
  ∃ ms1 ms2 tail, msgs = ms1 ++ ms2 ∧ d = box_seal b ms1 ++ tail ∧
    tail ++ rest = box_seal (box_after b (length ms1)) ms2 ∧
    incomplete (box_after b (length ms1)) tail ms2.
Proof.
  revert b d. induction msgs as [|m msgs IH]; intros b d Hd.
  { exists [], [], []. apply app_eq_nil in Hd as [-> ->]. by rewrite box_after_0. }
  rewrite box_seal_cons in Hd.
  destruct (decide (len d < len (box_seal b [m]))) as [Hlt|Hge].
  { exists [], (m :: msgs), d. cbn [length]. rewrite box_after_0.
    split_and!; try done. by rewrite box_seal_cons. }
  assert (∃ d', d = box_seal b [m] ++ d' ∧ d' ++ rest = box_seal (box_after b 1) msgs)
    as (d' & -> & Hd').
  { exists (zdrop (len (box_seal b [m])) d). 
    assert (ztake (len (box_seal b [m])) d = box_seal b [m]) as Ht.
    { apply (f_equal (take (length (box_seal b [m])))) in Hd.
      rewrite take_app_length, take_app_le in Hd by lia. by rewrite Nat2Z.id. }
    split; [by rewrite <-Ht at 1; rewrite take_drop|].
    apply (f_equal (drop (length (box_seal b [m])))) in Hd.
    rewrite drop_app_length, drop_app_le in Hd by lia. by rewrite Nat2Z.id. }
  destruct (IH _ _ Hd') as (ms1 & ms2 & tail & -> & -> & Ht & Hi).
  exists (m :: ms1), ms2, tail. rewrite box_after_after in Ht, Hi. cbn [length].
  rewrite (box_seal_cons b m ms1), <-app_assoc. done.
Qed.

(** Sealing more messages at the sender's end. *)
Lemma inv_seal b msgs out todo avail part ms rest s s' r w wr wr' g :
  chan_inv_with (MkChan s r w wr g) b msgs out todo avail part →
  enc_view s' (box_after (box_after b (length msgs)) (length ms))
    (out ++ box_seal (box_after b (length msgs)) ms) rest →
  Forall (λ m, 0 < len m <= kMaxMessageSize) ms →
  wr' = g ++ avail ++ concat msgs ++ concat ms ++ rest →
  chan_inv_with (MkChan s' r w wr' g) b (msgs ++ ms)
    (out ++ box_seal (box_after b (length msgs)) ms) rest avail part.
Proof.
  intros (_ & Hr & Hw & Hm & Hi & _) Hs Hms ->. cbn in Hr, Hw.
  split_and!; cbn; try done.
  - by rewrite length_app, <-box_after_after.
  - rewrite box_seal_app, <-Hw. by rewrite <-!app_assoc.
  - by apply Forall_app.
  - destruct msgs as [|m msgs]; [|by apply incomplete_app].
    cbn in Hi. subst part. destruct ms; cbn; [done|]. apply box_seal_1_pos.
  - by rewrite concat_app, <-!app_assoc.
Qed.

Lemma cut_messages_spec all ms rest :
  cut_messages all = (ms, rest) →
  all = concat ms ++ rest ∧ Forall (λ m, 0 < len m <= kMaxMessageSize) ms.
Proof.
  intros E. apply cut_cuts in E; [|done]. apply cuts_concat in E as (-> & Hf & _).
  split; [done|]. eapply Forall_impl; [done|]. unfold kMaxMessageSize; cbn; lia.
Qed.

Lemma on_es_run {A} (m : M CryptoStream A) s r t :
  m (es s) = (r, t) → on_es m s = (r, MkEnc t (_encryptor s)).
Proof. unfold on_es, zoom. by intros ->. Qed.

Lemma on_ds_run {A} (m : M CryptoStream A) s r t :
  m (ds s) = (r, t) → on_ds m s = (r, MkDec t (_decryptor s)).
Proof. unfold on_ds, zoom. by intros ->. Qed.

(** ** The steps *)

Lemma enc_step b msgs out todo avail part ms rest s s' r w wr wr' g :
  chan_inv_with (MkChan s r w wr g) b msgs out todo avail part →
  enc_view s' (box_after (box_after b (length msgs)) (length ms))
    (out ++ box_seal (box_after b (length msgs)) ms) rest →
  Forall (λ m, 0 < len m <= kMaxMessageSize) ms →
  (∃ data, wr' = wr ++ data ∧ todo ++ data = concat ms ++ rest) →
  chan_inv (MkChan s' r w wr' g).
Proof.
  intros Hi Hs Hm (data & -> & Htd). pose proof Hi as (_ & _ & _ & _ & _ & Hwr). cbn in Hwr.
  eexists _, _, _, _, _, _. eapply (inv_seal _ _ _ _ _ _ _ _ s s' r w wr); [done..|].
  by rewrite Hwr, <-!app_assoc, Htd.
Qed.

Lemma pushPartial_step s r w wr g data b msgs out todo avail part :
  chan_inv_with (MkChan s r w wr g) b msgs out todo avail part →
  ∃ s', pushPartial data s = (Ok tt, s') ∧ chan_inv (MkChan s' r w (wr ++ data) g).
Proof.
  intros Hi. destruct (pushPartial_run data s _ _ _ (proj1 Hi)) as (s' & Hp & Hv).
  exists s'. split; [done|]. destruct (cut_messages _) as [ms rest] eqn:E.
  apply cut_messages_spec in E as (Hc & Hf). eapply enc_step; eauto.
Qed.

Lemma enc_push_step s r w wr g data b msgs out todo avail part :
  chan_inv_with (MkChan s r w wr g) b msgs out todo avail part →
  ∃ s', enc_push data s = (Ok tt, s') ∧ chan_inv (MkChan s' r w (wr ++ data) g).
Proof.
  intros Hi. destruct (enc_push_run data s _ _ _ (proj1 Hi)) as (s' & Hp & Hv).
  exists s'. split; [done|]. destruct (push_messages_concat (todo ++ data)) as (Hc & Hf).
  eapply enc_step; eauto. exists data. by rewrite Hc, app_nil_r.
Qed.

Lemma flush_step s r w wr g b msgs out todo avail part :
  chan_inv_with (MkChan s r w wr g) b msgs out todo avail part →
  ∃ s', flush s = (Ok tt, s') ∧ chan_inv (MkChan s' r w wr g).
Proof.
  intros Hi. pose proof (proj1 Hi) as Hv. destruct (decide (todo = [])) as [->|Ht].
  - exists s. split; [by eapply flush_idle|]. by eexists _, _, _, _, _, _.
  - assert (0 < len todo) by (destruct todo; [done|len_lia]).
    destruct (flush_run s _ _ _ Hv) as (s' & Hf & Hv'); [done|].
    exists s'. split; [done|]. eapply (enc_step b msgs out todo avail part [todo] []); eauto.
    + constructor; [|done]. by destruct Hv as (_ & _ & ?).
    + exists []. cbn. by rewrite !app_nil_r.
Qed.

(** The network takes bytes from the sender. *)
Lemma send_step s r w wr g n b msgs out todo avail part :
  0 <= n → chan_inv_with (MkChan s r w wr g) b msgs out todo avail part →
  ∃ o s', on_es (pull n) s = (Ok o, s') ∧ chan_inv (MkChan s' r (w ++ o) wr g).
Proof.
  intros Hn ((Hb & Hv & Hm) & Hr & Hw & Hrest). cbn in *.
  destruct (pull_run (es s) out todo n Hv Hn) as (c' & Hp & Hv').
  eexists _, _. split; [by apply on_es_run|].
  exists b, msgs, (zdrop n out), todo, avail, part. split_and!; cbn; try done.
  - by rewrite <-Hw, <-!app_assoc, take_drop.
  - apply Hrest.
  - apply Hrest.
  - apply Hrest.
Qed.

(** The receiver's application reads. *)
Lemma read_step s r w wr g n b msgs out todo avail part :
  0 <= n → chan_inv_with (MkChan s r w wr g) b msgs out todo avail part →
  ∃ o r', on_ds (pull n) r = (Ok o, r') ∧ chan_inv (MkChan s r' w wr (g ++ o)) ∧
    avail = o ++ zdrop n avail.
Proof.
  intros Hn (Hs & (Hb & Hv) & Hw & Hf & Hi & Hwr). cbn in *.
  destruct (pull_run (ds r) avail part n Hv Hn) as (c' & Hp & Hv').
  eexists _, _. split; [by apply on_ds_run|]. split; [|by rewrite take_drop].
  exists b, msgs, out, todo, (zdrop n avail), part. split_and!; cbn; try done.
  rewrite Hwr, <-!app_assoc. f_equal. by rewrite (app_assoc (ztake n avail)), take_drop.
Qed.

(** A message that is still to come, of which [tail] is a proper prefix. *)
Lemma next_message b tail ms2 rest :
  tail ++ rest = box_seal b ms2 → incomplete b tail ms2 →
  Forall (λ m, 0 < len m <= kMaxMessageSize) ms2 →
  ∃ m' more, tail ++ more = box_seal b [m'] ∧ more ≠ [] ∧ len m' <= kMaxMessageSize.
Proof.
  intros Ht Hi Hf. destruct ms2 as [|m ms2]; unfold incomplete in Hi.
  - subst tail. exists [], (box_seal b [[]]). split_and!; [done| |done].
    intros Hn. pose proof (box_seal_1_pos b []) as Hp. rewrite Hn in Hp. cbn in Hp. lia.
  - apply Forall_cons_1 in Hf as [Hm _]. cbn beta in Hm. rewrite box_seal_cons in Ht.
    exists m, (zdrop (len tail) (box_seal b [m])).
    assert (tail = ztake (len tail) (box_seal b [m])) as Ht1.
    { apply (f_equal (take (length tail))) in Ht.
      rewrite take_app_length, take_app_le in Ht by lia. by rewrite Nat2Z.id. }
    split_and!; [by rewrite Ht1 at 1; rewrite take_drop| |apply Hm].
    intros Hn. apply (f_equal length) in Hn. rewrite length_drop, length_nil in Hn. lia.
Qed.

(** The network delivers bytes to the receiver, cut anywhere. *)
Lemma deliver_step s r w wr g chunk b msgs out todo avail part :
  chan_inv_with (MkChan s r (chunk ++ w) wr g) b msgs out todo avail part →
  ∃ r', dec_push chunk r = (Ok true, r') ∧ chan_inv (MkChan s r' w wr g).
Proof.
  intros (Hs & Hr & Hw & Hf & Hi & Hwr). cbn in Hs, Hr, Hw, Hwr.
  destruct (traffic_prefix b msgs (part ++ chunk) (w ++ out)) as (ms1 & ms2 & tail & -> & Hd & Ht & Hi2).
  { by rewrite <-Hw, <-!app_assoc. }
  apply Forall_app in Hf as [Hf1 Hf2].
  destruct (next_message _ _ _ _ Ht Hi2 Hf2) as (m' & more & Hmore & Hne & Hm').
  destruct (dec_push_unfold chunk r b avail part Hr) as (r1 & Hp & Hv1).
  rewrite Hd in Hv1, Hp.
  destruct (dec_loop_honest ms1 (S (length (avail ++ box_seal b ms1 ++ tail))) r1 b avail tail m' more)
    as (r' & Hl & Hv'); try done.
  { eapply Forall_impl; [done|]. cbn; lia. }
  { pose proof (box_seal_len b ms1). len_lia. }
  exists r'. split; [by rewrite Hp|].
  exists (box_after b (length ms1)), ms2, out, todo, (avail ++ concat ms1), tail.
  split_and!; cbn; try done.
  - by rewrite box_after_after, <-length_app.
  - by rewrite Hwr, concat_app, <-!app_assoc.
Qed.

Lemma chan_init_inv key nonce p : chan_inv (chan_init key nonce p).
Proof. by exists (MkBox key nonce p), [], [], [], [], []. Qed.

Lemma chan_step_inv c c' : chan_inv c → chan_step c c' → chan_inv c'.
Proof.
  intros (b & msgs & out & todo & avail & part & Hi) Hs.
  destruct Hs as [s s' r w wr g data H|s s' r w wr g data H|s s' r w wr g H
                 |s s' r w wr g n o Hn H|s r r' w wr g chunk ok H|s r r' w wr g n o Hn H].
  - destruct (pushPartial_step _ _ _ _ _ data _ _ _ _ _ _ Hi) as (? & H' & ?). by rewrite H in H'; simplify_eq.
  - destruct (enc_push_step _ _ _ _ _ data _ _ _ _ _ _ Hi) as (? & H' & ?). by rewrite H in H'; simplify_eq.
  - destruct (flush_step _ _ _ _ _ _ _ _ _ _ _ Hi) as (? & H' & ?). by rewrite H in H'; simplify_eq.
  - destruct (send_step _ _ _ _ _ _ _ _ _ _ _ _ Hn Hi) as (? & ? & H' & ?). by rewrite H in H'; simplify_eq.
  - destruct (deliver_step _ _ _ _ _ _ _ _ _ _ _ _ Hi) as (? & H' & ?). by rewrite H in H'; simplify_eq.
  - destruct (read_step _ _ _ _ _ _ _ _ _ _ _ _ Hn Hi) as (? & ? & H' & ? & _). by rewrite H in H'; simplify_eq.
Qed.

Lemma chan_steps_inv c c' : chan_inv c → rtc chan_step c c' → chan_inv c'.
Proof. intros Hi. induction 1; eauto using chan_step_inv. Qed.

End preservation.

(** * Nonces *)

Section nonces.
Context {P : Primitives}.

(** Any sequence of [encrypt] calls on one box, on any memory and with any
    result, with the nonces that the calls passed to the cipher. Only an access
    outside the memory, which is undefined behaviour, is left out. *)
Inductive encrypt_calls : CryptoBox → list bytes → CryptoBox → Prop :=
| calls_nil b : encrypt_calls b [] b
| calls_call b m inp out r e ns ns' b' :
    encrypt_logged inp out (MkEnv b m, []) = (r, (e, ns)) → r ≠ Fault OutOfBounds →
    encrypt_calls (the_box e) ns' b' → encrypt_calls b (ns ++ ns') b'.

(** Writing down the nonces does not change what a computation does. *)
Definition unlogged {A} (m' : M (boxenv * list bytes) A) (m : M boxenv A) : Prop :=
  ∀ e l, (m' (e, l)).1 = (m e).1 ∧ (m' (e, l)).2.1 = (m e).2.

Lemma unlogged_bind {A B} m' (m : M boxenv A) f' (f : A → M boxenv B) :
  unlogged m' m → (∀ a, unlogged (f' a) (f a)) → unlogged (m' ≫= f') (m ≫= f).
Proof.
  intros Hm Hf e l. unfold mbind, M_bind. specialize (Hm e l).
  destruct (m' (e, l)) as [r' [e1 l1]], (m e) as [r e1']. cbn in Hm. destruct Hm as [-> ->].
  destruct r; [apply Hf|done].
Qed.

Lemma unlogged_env {A} (m : M boxenv A) : unlogged (on_env logging m) m.
Proof. intros e l. cbn. by destruct (m e). Qed.

Lemma encrypt_logged_same inp out : unlogged (encrypt_logged inp out) (encrypt inp out).
Proof.
  unfold encrypt, encrypt_logged, encrypt_on. destruct (_ <? _); [done|].
  apply unlogged_bind; [apply unlogged_env|]. intros e. destruct (_ <? _); [done|].
  destruct (_protocol _);
    repeat (first [done | apply unlogged_bind; [first [apply unlogged_env | done]|intros ?]]).
Qed.

(** The log of an operation that is not a call of the cipher. *)
Lemma logged_env {A B} (m : M boxenv A) (f : A → M (boxenv * list bytes) B) e l r s :
  (on_env logging m ≫= f) (e, l) = (r, s) →
  (∃ x e', m e = (Ok x, e') ∧ f x (e', l) = (r, s)) ∨
  (∃ x e', m e = (Fault x, e') ∧ r = Fault x ∧ s = (e', l)).
Proof.
  unfold mbind, M_bind. cbn. destruct (m e) as [[x|x] e']; [left; eauto|].
  intros [= <- <-]. right. by eexists _, _.
Qed.

Lemma load_box a n e r e' :
  load a n e = (r, e') → e' = e ∧ (r = Fault OutOfBounds ∨ ∃ bs, r = Ok bs).
Proof. unfold load. mrun. destruct (mread _ _ _); intros [= <- <-]; eauto. Qed.

Lemma store_box a bs e r e' :
  store a bs e = (r, e') → the_box e' = the_box e ∧ (r = Fault OutOfBounds ∨ r = Ok tt).
Proof. unfold store. mrun. destruct (mwrite _ _ _); intros [= <- <-]; eauto. Qed.

(** A call passes the box's nonce to the cipher, and the one after it for the
    header of a box stream, and steps over them; or it passes none. *)
Lemma encrypt_logs b m inp out r e l ns :
  encrypt_logged inp out (MkEnv b m, l) = (r, (e, ns)) → r ≠ Fault OutOfBounds →
  (ns = l ∧ the_box e = b) ∨
  (ns = l ++ match _protocol b with
             | Compact => [_nonce b]
             | BoxStream => [_nonce b; nonce_incr (_nonce b)]
             end ∧
   the_box e = MkBox (_key b) (Wire.next (_protocol b) (_nonce b)) (_protocol b)).
Proof.
  intros H Hr. unfold encrypt_logged, encrypt_on in H.
  destruct (0xFFFF <? in_size inp) eqn:Emax; [injection H as <- <- <-; by left|]. zbool.
  apply logged_env in H as [(e0 & e1 & [= <- <-] & H)|(x & e' & [=] & _)].
  destruct (_ <? _); [injection H as <- <- <-; by left|]. cbn [the_box] in H.
  pose proof (λ e, writeUint16At_run e (in_size inp) Emax) as Hw.
  destruct b as [k n []]; cbn [_protocol _key _nonce Wire.next the_box] in *.
  - apply logged_env in H as [(x & e1 & [-> _]%load_box & H)|(x & e1 & Hx & -> & _)];
      [|apply load_box in Hx as [_ [[= ->]|[? [=]]]]; done].
    unfold mbind at 1, M_bind at 1 in H. cbn [call_box logging] in H.
    apply logged_env in H as [(y & e1 & [Hb _]%store_box & H)|(y & e1 & Hx & -> & _)];
      [|apply store_box in Hx as [_ [[= ->]|[=]]]; done].
    apply logged_env in H as [(y' & e2 & [= <- <-] & H)|(z & e' & [=] & _)].
    apply logged_env in H as [(z & e2 & Hz & H)|(z & e2 & Hz & _)]; rewrite Hw in Hz; [|done].
    injection Hz as <- <-.
    apply logged_env in H as [(z & e2 & [Hb' _]%store_box & [= <- <- <-])|(z & e2 & Hx & -> & _)];
      [|apply store_box in Hx as [_ [[= ->]|[=]]]; done].
    right. split; [done|]. rewrite Hb'. cbn. by rewrite Hb.
  - apply logged_env in H as [(x & e1 & Hx & H)|(x & e1 & Hx & _)]; rewrite Hw in Hx; [|done].
    injection Hx as <- <-.
    apply logged_env in H as [(x & e1 & [-> _]%load_box & H)|(x & e1 & Hx & -> & _)];
      [|apply load_box in Hx as [_ [[= ->]|[? [=]]]]; done].
    unfold mbind at 1, M_bind at 1 in H. cbn [call_lock logging] in H.
    apply logged_env in H as [(y & e1 & [Hb _]%store_box & H)|(y & e1 & Hx & -> & _)];
      [|apply store_box in Hx as [_ [[= ->]|[=]]]; done].
    apply logged_env in H as [(y' & e2 & [= <- <-] & H)|(z & e' & [=] & _)].
    apply logged_env in H as [(y' & e2 & [= <- <-] & H)|(z & e' & [=] & _)].
    unfold mbind at 1, M_bind at 1 in H. cbn [call_box logging] in H.
    apply logged_env in H as [(z & e2 & [Hb' _]%store_box & H)|(z & e2 & Hx & -> & _)];
      [|apply store_box in Hx as [_ [[= ->]|[=]]]; done].
    apply logged_env in H as [(y' & e3 & [= <- <-] & [= <- <- <-])|(z' & e' & [=] & _)].
    right. cbn. rewrite Hb'. cbn. rewrite Hb. by rewrite <-app_assoc.
Qed.

Lemma encrypt_calls_iter b ns b' :
  encrypt_calls b ns b' →
  ns = (λ i, Nat.iter i nonce_incr (_nonce b)) <$> seq 0 (length ns).
Proof.
  assert (∀ n j m, (λ i, Nat.iter i nonce_incr (Nat.iter j nonce_incr n)) <$> seq 0 m
                   = (λ i, Nat.iter i nonce_incr n) <$> seq j m) as Hsh.
  { intros n j m. pose proof (fmap_add_seq j 0 m) as E. rewrite Nat.add_0_r in E.
    rewrite <-E, <-list_fmap_compose.
    apply list_fmap_ext. intros i x _. cbn. by rewrite Nat.add_comm, Nat.iter_add. }
  induction 1 as [b|b m inp out r e ns ns' b' He Hr _ IH]; [done|].
  destruct (encrypt_logs _ _ _ _ _ _ _ _ He Hr) as [[-> Hb]|[-> Hb]]; rewrite Hb in IH; [exact IH|].
  cbn [_nonce] in IH.
  destruct (_protocol b); cbn [app length seq fmap list_fmap Wire.next] in *; rewrite IH at 1.
  - f_equal. apply (Hsh _ 1%nat).
  - do 2 f_equal. apply (Hsh _ 2%nat).
Qed.
End nonces.

(** * Properties *)

Section properties.
Context {P : Primitives} {PL : PrimitivesLaws P}.

(** One step of the connection is a step of the queue, or none. *)
Lemma chan_step_simulated c c' :
  chan_inv c → chan_step c c' → rtc pipe_step (chan_pipe c) (chan_pipe c').
Proof.
  intros (b & msgs & out & todo & avail & part & Hi) Hs.
  destruct Hs as [s s' r w wr g data H|s s' r w wr g data H| | |
                 |s r r' w wr g n o Hn H]; try apply rtc_refl.
  - apply rtc_once. constructor.
  - apply rtc_once. constructor.
  - destruct (read_step _ _ _ _ _ _ _ _ _ _ _ _ Hn Hi) as (? & ? & H' & _ & Ha).
    rewrite H in H'. simplify_eq. destruct Hi as (_ & _ & _ & _ & _ & Hw). cbn in Hw.
    apply rtc_once. econstructor. rewrite Hw, Ha at 1. by rewrite <-app_assoc.
Qed.

Lemma chan_reaches key nonce p c :
  rtc chan_step (chan_init key nonce p) c → chan_inv c.
Proof. apply chan_steps_inv, chan_init_inv. Qed.

(** With nothing at the sender and nothing on the wire, all has arrived. *)
Lemma quiet_delivered c :
  chan_inv c → _buffer (es (sender c)) = [] → wire c = [] →
  written c = got c ++ availableData (ds (receiver c)) ∧ (dec_close (receiver c)).1 = Ok true.
Proof.
  intros (b & msgs & out & todo & avail & part & Hi) Hb Hw.
  destruct Hi as ((_ & [Hbuf _] & _) & (_ & Hv) & Htr & _ & Hinc & Hwr).
  rewrite Hbuf in Hb. apply app_eq_nil in Hb as [-> ->]. rewrite Hw, !app_nil_r in Htr.
  destruct msgs as [|m msgs].
  - cbn in Hinc. subst part. rewrite (view_available _ _ _ Hv).
    split; [by rewrite Hwr, !app_nil_r|]. unfold dec_close. mrun.
    destruct Hv as [-> ->]. by rewrite app_nil_r, Z.eqb_refl.
  - exfalso. unfold incomplete in Hinc. rewrite Htr, box_seal_cons in Hinc. len_lia.
Qed.

(** Flushing and sending everything empties the sender. *)
Lemma sender_drains c :
  chan_inv c →
  ∃ c', rtc chan_step c c' ∧ chan_inv c' ∧ _buffer (es (sender c')) = [] ∧
    written c' = written c ∧ got c' = got c ∧ receiver c' = receiver c.
Proof.
  destruct c as [s r w wr g]. intros (b & msgs & out & todo & avail & part & Hi).
  destruct (flush_step _ _ _ _ _ _ _ _ _ _ _ Hi) as (s1 & Hf & Hi1).
  assert (∃ b1 ready, enc_view s1 b1 ready []) as (b1 & ready & Hb1 & Hv1 & _).
  { pose proof (proj1 Hi) as Hv. cbn in Hv. destruct (decide (todo = [])) as [->|Ht].
    - rewrite (flush_idle _ _ _ Hv) in Hf. injection Hf as <-. eauto.
    - destruct (flush_run s _ _ _ Hv) as (s2 & Hf2 & Hv2); [destruct todo; [done|len_lia]|].
      rewrite Hf in Hf2. simplify_eq. eauto. }
  destruct (pull_run (es s1) ready [] (len ready) Hv1 ltac:(lia)) as (c2 & Hp & Hv2).
  pose proof (on_es_run _ s1 _ _ Hp) as Hp'. rewrite ztake_all, zdrop_all in * by lia.
  assert (rtc chan_step (MkChan s r w wr g)
            (MkChan (MkEnc c2 (_encryptor s1)) r (w ++ ready) wr g)) as Hr.
  { eapply rtc_l; [by apply step_flush|]. apply rtc_once. apply (step_send _ _ _ _ _ _ (len ready)); [lia|exact Hp']. }
  eexists. split; [exact Hr|]. split_and!; try done; [|apply (proj1 Hv2)].
  eapply chan_steps_inv; [|exact Hr]. by eexists _, _, _, _, _, _.
Qed.

(** C9: The encrypted connection is a byte queue. Every run of it, with any
    interleaving of writes, flushes, network transfers of any size and reads,
    is a run of the specification [pipe_step]; so what the receiver has read
    is always a prefix of what the sender has written. *)
Theorem channel_refines_pipe key nonce p c :
  rtc chan_step (chan_init key nonce p) c →
  rtc pipe_step (MkPipe [] []) (chan_pipe c) ∧ got c `prefix_of` written c.
Proof.
  intros Hs. split.
  - revert c Hs. apply rtc_ind_r; [done|]. intros c c' Hc Hs IH.
    etrans; [exact IH|]. eauto using chan_step_simulated, chan_reaches.
  - destruct (chan_reaches _ _ _ _ Hs) as (b & msgs & out & todo & avail & part & Hi).
    destruct Hi as (_ & _ & _ & _ & _ & ->). by eexists.
Qed.

(** In every reachable state of the connection every call succeeds: the
    sender can write any bytes and flush, the network can take any number of
    bytes, whatever part of the bytes on the wire is delivered is accepted,
    and the receiver can read. *)
Theorem channel_never_fails key nonce p s r w wr g data n chunk rest :
  rtc chan_step (chan_init key nonce p) (MkChan s r w wr g) → 0 <= n → w = chunk ++ rest →
  (pushPartial data s).1 = Ok tt ∧ (enc_push data s).1 = Ok tt ∧ (flush s).1 = Ok tt ∧
  (∃ o, (on_es (pull n) s).1 = Ok o) ∧ (dec_push chunk r).1 = Ok true ∧
  (∃ o, (on_ds (pull n) r).1 = Ok o).
Proof.
  intros Hs Hn ->.
  destruct (chan_reaches _ _ _ _ Hs) as (b & msgs & out & todo & avail & part & Hi).
  destruct (pushPartial_step _ _ _ _ _ data _ _ _ _ _ _ Hi) as (? & -> & _).
  destruct (enc_push_step _ _ _ _ _ data _ _ _ _ _ _ Hi) as (? & -> & _).
  destruct (flush_step _ _ _ _ _ _ _ _ _ _ _ Hi) as (? & -> & _).
  destruct (send_step _ _ _ _ _ n _ _ _ _ _ _ Hn Hi) as (o & ? & -> & _).
  destruct (deliver_step _ _ _ _ _ _ _ _ _ _ _ _ Hi) as (? & -> & _).
  destruct (read_step _ _ _ _ _ n _ _ _ _ _ _ Hn Hi) as (o' & ? & -> & _).
  split_and!; eauto.
Qed.

(** Nothing is lost: once the sender has nothing pending or ready and the
    wire is empty, the receiver has read or has available every byte that was
    written, and its [close] reports a clean end. *)
Theorem channel_delivers key nonce p c :
  rtc chan_step (chan_init key nonce p) c →
  _buffer (es (sender c)) = [] → wire c = [] →
  written c = got c ++ availableData (ds (receiver c)) ∧
  (dec_close (receiver c)).1 = Ok true.
Proof. intros Hs. by apply quiet_delivered, (chan_reaches key nonce p). Qed.

(** Nothing gets stuck: from every reachable state the connection can run
    on, without any further write, until the receiver has read everything that
    was written. *)
Theorem channel_drains key nonce p c :
  rtc chan_step (chan_init key nonce p) c →
  ∃ c', rtc chan_step c c' ∧ written c' = written c ∧ got c' = written c.
Proof.
  intros Hs. destruct (sender_drains c (chan_reaches _ _ _ _ Hs)) as (c1 & Hr1 & Hi1 & Hb & Hwr & _).
  destruct c1 as [s r w wr g]. cbn in Hb, Hwr.
  pose proof Hi1 as (b & msgs & out & todo & avail & part & Hi).
  rewrite <-(app_nil_r w) in Hi.
  destruct (deliver_step _ _ _ _ _ _ _ _ _ _ _ _ Hi) as (r2 & Hd & Hi2).
  destruct (quiet_delivered _ Hi2 Hb eq_refl) as (Hall & _). cbn in Hall.
  destruct Hi2 as (b2 & msgs2 & out2 & todo2 & avail2 & part2 & _ & (_ & Hv2) & _). cbn in Hv2.
  destruct (pull_run (ds r2) avail2 part2 (len avail2) Hv2 ltac:(lia)) as (c3 & Hp & _).
  pose proof (on_ds_run _ r2 _ _ Hp) as Hp'. rewrite (view_available _ _ _ Hv2) in Hall.
  rewrite ztake_all in Hp' by lia.
  exists (MkChan s (MkDec c3 (_decryptor r2)) [] wr (g ++ avail2)). split_and!; [|done|by rewrite <-Hwr].
  etrans; [exact Hr1|]. rewrite <-(app_nil_r w).
  eapply rtc_l; [by apply step_deliver with (ok := true)|].
  apply rtc_once. apply (step_read _ _ _ _ _ _ (len avail2)); [lia|exact Hp'].
Qed.

(** C26: A session's key is never used twice with the same nonce: over any
    sequence of [encrypt] calls on one box, whether they succeed, refuse or
    throw, all the nonces that the calls passed to the cipher are different, as
    long as they are fewer than 2^64. The nonces are those that the code gave
    to [lock] and [box], written down at the call. *)
Theorem nonces_never_repeat {NC : NonceCounts P} b ns b' :
  encrypt_calls b ns b' → len (_nonce b) = sizeof_nonce → len ns < 2 ^ 64 → NoDup ns.
Proof.
  intros Hc Hl Hn. rewrite (encrypt_calls_iter _ _ _ Hc).
  set (f := λ i, Nat.iter i nonce_incr (_nonce b)).
  assert (∀ i j, (i < j)%nat → (j < length ns)%nat → f i ≠ f j) as Hf
    by (intros; apply nonce_incr_fresh; lia).
  clear Hc Hl. generalize (length ns) Hf. clear. intros k Hf.
  apply NoDup_fmap_2_strong; [|apply NoDup_seq].
  intros i j Hi%elem_of_seq Hj%elem_of_seq Hij.
  destruct (Nat.lt_trichotomy i j) as [?|[?|?]]; [|done|].
  - by destruct (Hf i j); lia || done.
  - by destruct (Hf j i); lia || done.
Qed.

End properties.

(** * Witnesses *)

(** A connection with the toy primitives that carries one message. *)
Module Demo.
Import Toy.
Definition key : bytes := replicate 32 x07.
Definition c0 : chan := chan_init key zero_nonce Compact.
Definition text : bytes := [x68; x69].
Definition s1 : EncryptionStream := Eval vm_compute in (enc_push text (sender c0)).2.
Definition c1 : chan := MkChan s1 (receiver c0) [] text [].
Definition packet : bytes := Eval vm_compute in availableData (es s1).
Definition s2 : EncryptionStream := Eval vm_compute in (on_es (pull 100) s1).2.
Definition c2 : chan := MkChan s2 (receiver c0) packet text [].
Definition r3 : DecryptionStream := Eval vm_compute in (dec_push packet (receiver c0)).2.
Definition c3 : chan := MkChan s2 r3 [] text [].

Lemma run2 : rtc chan_step c0 c2.
Proof.
  apply (rtc_l _ _ c1).
  - apply (step_push (sender c0) s1 (receiver c0) [] [] [] text). vm_compute. reflexivity.
  - apply rtc_once. apply (step_send s1 s2 (receiver c0) [] text [] 100 packet); [discriminate|].
    vm_compute. reflexivity.
Qed.

Lemma run3 : rtc chan_step c0 c3.
Proof.
  eapply rtc_r; [exact run2|].
  apply (step_deliver s2 (receiver c0) r3 [] text [] packet true). vm_compute. reflexivity.
Qed.

Lemma channel_refines_pipe_witness :
  rtc pipe_step (MkPipe [] []) (MkPipe text []) ∧ [] `prefix_of` text.
Proof. exact (channel_refines_pipe key zero_nonce Compact c3 run3). Defined.

Lemma channel_never_fails_witness :
  (enc_push text s2).1 = Ok tt ∧ (dec_push (take 5 packet) (receiver c0)).1 = Ok true.
Proof.
  destruct (channel_never_fails key zero_nonce Compact s2 (receiver c0) packet text [] text 3
    (take 5 packet) (drop 5 packet) run2) as (_ & He & _ & _ & Hd & _).
  - discriminate.
  - reflexivity.
  - split; [exact He|exact Hd].
Defined.

Lemma channel_delivers_witness :
  text = [] ++ availableData (ds r3) ∧ (dec_close r3).1 = Ok true.
Proof. exact (channel_delivers key zero_nonce Compact c3 run3 eq_refl eq_refl). Defined.

Lemma channel_drains_witness :
  ∃ c', rtc chan_step c2 c' ∧ written c' = text ∧ got c' = text.
Proof. exact (channel_drains key zero_nonce Compact c2 run2). Defined.

Definition b0 : CryptoBox := MkBox key zero_nonce BoxStream.
Definition e1 : boxenv :=
  Eval vm_compute in (encrypt (MkIn 0 2) (MkOut 0 40) (MkEnv b0 (replicate 40 x00))).2.

(** A call that throws, and one that succeeds. *)
Lemma nonces_never_repeat_witness : NoDup [zero_nonce; nonce_incr zero_nonce].
Proof.
  apply (nonces_never_repeat b0 _ (the_box e1)).
  - apply (calls_call b0 [] (MkIn 0 70000) (MkOut 0 0) (Fault InvalidArgument) (MkEnv b0 []) []).
    + vm_compute. reflexivity.
    + discriminate.
    + apply (calls_call b0 (replicate 40 x00) (MkIn 0 2) (MkOut 0 40) (Ok (Success, MkOut 0 36)) e1
               [zero_nonce; nonce_incr zero_nonce] []).
      * vm_compute. reflexivity.
      * discriminate.
      * constructor.
  - reflexivity.
  - reflexivity.
Defined.
End Demo.
