(* ===== verification/Attack.v ===== *)
(** An encrypted one-way connection through a hostile network.

    The two streams are those of Channel.v, with the same key, nonce and
    protocol, but the network delivers whatever it likes: it may drop, delay,
    repeat, reorder and cut what the sender sends, and make up bytes of its own.
    The receiver stops pushing bytes after the first [push] that returns false.

    What can be shown is relative to the cipher. A forgery ([forged]) is a piece
    of the delivered bytes that authenticates under the key and the nonce of the
    i-th message as something that the sender did not seal as its i-th message.
    The theorems: unless there is a forgery, what a receiver of the BoxStream
    protocol reads is a prefix of what the sender wrote; in the compact protocol
    it is so up to messages that are missing; and they can really go missing
    without a forgery: the network replaces a message by an empty one that does
    not authenticate, which the receiver accepts, and both ends stay in step. *)
From Stdlib Require Import ZArith Lia Strings.Byte.
From stdpp Require Import base list numbers option tactics relations.
From S2P Require Import Prelude Crypto Shs Boxes Streams Channel.

Open Scope Z_scope.

(** * The system *)

Record line := MkLine {
  source : EncryptionStream;
  sink : DecryptionStream;
  seen : bytes;               (* what the network has got from the sender *)
  given : bytes;              (* what it has delivered *)
  up : bool;                  (* no [push] has failed *)
  put : bytes;                (* what the sender's application has written *)
  taken : bytes;              (* what the receiver's application has read *)
}.

Section system.
Context {P : Primitives}.

Inductive line_step : line → line → Prop :=
| line_pushPartial s s' r o d u w g data :
    pushPartial data s = (Ok tt, s') →
    line_step (MkLine s r o d u w g) (MkLine s' r o d u (w ++ data) g)
| line_push s s' r o d u w g data :
    enc_push data s = (Ok tt, s') →
    line_step (MkLine s r o d u w g) (MkLine s' r o d u (w ++ data) g)
| line_flush s s' r o d u w g :
    flush s = (Ok tt, s') →
    line_step (MkLine s r o d u w g) (MkLine s' r o d u w g)
| line_send s s' r o d u w g n b :
    0 <= n → on_es (pull n) s = (Ok b, s') →
    line_step (MkLine s r o d u w g) (MkLine s' r (o ++ b) d u w g)
| line_inject s r r' o d w g chunk ok :
    dec_push chunk r = (Ok ok, r') →
    line_step (MkLine s r o d true w g) (MkLine s r' o (d ++ chunk) ok w g)
| line_read s r r' o d u w g n b :
    0 <= n → on_ds (pull n) r = (Ok b, r') →
    line_step (MkLine s r o d u w g) (MkLine s r' o d u w (g ++ b)).

Definition line_start (key nonce : bytes) (p : Protocol) : line :=
  MkLine (EncryptionStream_init key nonce p) (DecryptionStream_init key nonce p) [] [] true [] [].

(** Everything the sender has encrypted: what it has sent and what is ready. *)
Definition traffic (s : line) : bytes := seen s ++ availableData (es (source s)).

(** The delivered bytes have, behind the first messages, one that opens as a
    message other than the sender's at this place. *)
Definition forged (b : CryptoBox) (sent : list bytes) (delivered : bytes) : Prop :=
  ∃ x msgs w m y, delivered = x ++ w ++ y ∧ accepts b x msgs [] ∧
    (let b' := box_after b (length msgs) in Wire.opens (_protocol b') (_key b') (_nonce b') w m) ∧
    sent !! length msgs ≠ Some m.

(** The messages of [msgs] are those of [sent], or empty ones in the compact
    protocol. *)
Definition blanked (p : Protocol) (sent msgs : list bytes) : Prop :=
  ∀ i m, msgs !! i = Some m → sent !! i = Some m ∨ p = Compact ∧ m = [].

(** ** The invariant *)

Record line_inv (b : CryptoBox) (s : line) (sent msgs : list bytes) : Prop := {
  li_sender : ∃ out todo, enc_view (source s) (box_after b (length sent)) out todo ∧
    seen s ++ out = box_seal b sent ∧ put s = concat sent ++ todo;
  li_sizes : Forall (λ m, 0 < len m <= kMaxMessageSize) sent;
  li_receiver : ∃ rest rest' avail, accepts b (given s) msgs rest ∧
    dec_view (sink s) (box_after b (length msgs)) avail rest' ∧
    (up s = true → rest' = rest) ∧ taken s ++ avail = concat msgs;
}.
End system.

(** * Accepted bytes and sent messages *)

Section accepted.
Context {P : Primitives} {PL : PrimitivesLaws P}.
Implicit Types (b : CryptoBox) (sent msgs : list bytes).

(** Bytes behind accepted ones. *)
Lemma forged_later b w m sent delivered :
  accepts1 b w m → forged (box_after b 1) (drop 1 sent) delivered → forged b sent (w ++ delivered).
Proof.
  intros Hw (x & msgs & v & m' & y & -> & Hx & Ho & Hs).
  exists (w ++ x), (m :: msgs), v, m', y. rewrite <-app_assoc. split; [done|].
  split; [by constructor|]. cbn [length]. rewrite box_after_after in Ho. split; [exact Ho|].
  by rewrite lookup_drop in Hs.
Qed.

(** What is accepted is what was sent, but for blanks, or there is a forgery. *)
Lemma accepted_blanked b delivered msgs rest sent :
  accepts b delivered msgs rest → forged b sent delivered ∨ blanked (_protocol b) sent msgs.
Proof.
  intros Ha. revert sent. induction Ha as [b rest|b w m todo msgs rest Hw Ha IH]; intros sent.
  { right. by intros i m. }
  destruct (IH (drop 1 sent)) as [Hf|Hb]; [left; by eapply forged_later|].
  assert (sent !! 0%nat = Some m ∨ _protocol b = Compact ∧ m = [] ∨ forged b sent (w ++ todo)) as Hm.
  { destruct Hw as [_ [Ho|(? & ? & _)]]; [|by right; left].
    destruct (decide (sent !! 0%nat = Some m)) as [|Hne]; [by left|right; right].
    exists [], [], w, m, todo. split; [done|]. split; [constructor|]. by rewrite box_after_0. }
  destruct Hm as [Hm|[Hm|Hm]]; [right..|by left]; intros [|i] m' Hi;
    try (injection Hi as <-; by auto); destruct (Hb i m' Hi) as [Hs|Hs]; auto;
    left; by rewrite lookup_drop in Hs.
Qed.

(** Without blanks that is a prefix. *)
Lemma blanked_prefix sent msgs : blanked BoxStream sent msgs → msgs `prefix_of` sent.
Proof.
  revert sent. induction msgs as [|m msgs IH]; intros sent Hb; [apply prefix_nil|].
  destruct (Hb 0%nat m eq_refl) as [Hm|[? _]]; [|done]. destruct sent as [|m' sent]; [done|].
  injection Hm as ->. apply prefix_cons, IH. intros i m' Hi. destruct (Hb (S i) m' Hi); by auto.
Qed.

Lemma prefix_concat (l1 l2 : list bytes) : l1 `prefix_of` l2 → concat l1 `prefix_of` concat l2.
Proof. intros [k ->]. rewrite concat_app. by exists (concat k). Qed.

(** The messages that were not blanked. *)
Lemma blanked_sublist p sent msgs :
  blanked p sent msgs →
  ∃ kept, kept `sublist_of` sent ∧ concat kept = concat msgs ∧ (p = BoxStream → kept `prefix_of` sent).
Proof.
  intros Hb. destruct p.
  2: { exists msgs. apply blanked_prefix in Hb. split_and!; [|done..].
       destruct Hb as [rest ->]. by apply sublist_inserts_r. }
  cut (∃ kept, kept `sublist_of` sent ∧ concat kept = concat msgs); [by intros (kept & ? & ?); exists kept|].
  revert sent Hb. induction msgs as [|m msgs IH]; intros sent Hb.
  { exists []. split; [apply sublist_nil_l|done]. }
  destruct (IH (drop 1 sent)) as (kept & Hk & Hc).
  { intros i m' Hi. rewrite lookup_drop. by apply (Hb (S i)). }
  destruct (Hb 0%nat m eq_refl) as [Hm|[_ ->]].
  - destruct sent as [|m' sent]; [done|]. injection Hm as ->. cbn in Hk. rewrite drop_0 in Hk.
    exists (m :: kept). split; [by constructor|]. cbn. by rewrite Hc.
  - exists kept. split; [|done]. etrans; [exact Hk|]. apply sublist_drop.
Qed.

(** What has been read of accepted bytes comes from messages that were sent. *)
Lemma accepted_reads b delivered msgs rest sent read more :
  accepts b delivered msgs rest → read ++ more = concat msgs →
  forged b sent delivered ∨
  ∃ kept, kept `sublist_of` sent ∧ read `prefix_of` concat kept ∧
    (_protocol b = BoxStream → kept `prefix_of` sent).
Proof.
  intros Ha Hr. destruct (accepted_blanked _ _ _ _ sent Ha) as [|Hb]; [by left|right].
  destruct (blanked_sublist _ _ _ Hb) as (kept & Hk & Hc & Hall). exists kept.
  split_and!; try done. rewrite Hc, <-Hr. by apply prefix_app_r.
Qed.

End accepted.

(** * Preservation *)

Section preservation.
Context {P : Primitives} {PL : PrimitivesLaws P}.
Implicit Types (b : CryptoBox) (sent msgs : list bytes) (s : line).

(** The sender seals some more messages. *)
Lemma sender_step b s sent msgs out todo ms rest e' data :
  line_inv b s sent msgs → enc_view (source s) (box_after b (length sent)) out todo →
  seen s ++ out = box_seal b sent → put s = concat sent ++ todo →
  enc_view e' (box_after (box_after b (length sent)) (length ms))
    (out ++ box_seal (box_after b (length sent)) ms) rest →
  todo ++ data = concat ms ++ rest → Forall (λ m, 0 < len m <= kMaxMessageSize) ms →
  line_inv b (MkLine e' (sink s) (seen s) (given s) (up s) (put s ++ data) (taken s)) (sent ++ ms) msgs.
Proof.
  intros [_ Hz Hr] Hv Ho Hp Hv' Htd Hms. constructor; cbn.
  - exists (out ++ box_seal (box_after b (length sent)) ms), rest.
    rewrite length_app, <-box_after_after, box_seal_app, <-Ho, concat_app, Hp, <-!app_assoc, Htd.
    done.
  - by apply Forall_app.
  - exact Hr.
Qed.

Lemma line_step_inv b s s' sent msgs :
  line_inv b s sent msgs → line_step s s' → ∃ sent' msgs', line_inv b s' sent' msgs'.
Proof.
  intros Hi Hs. pose proof Hi as [(out & todo & Hv & Ho & Hp) Hz (rest & rest' & avail & Ha & Hd & Hu & Ht)].
  destruct Hs as [e e' r o d u w g data H|e e' r o d u w g data H|e e' r o d u w g H
                 |e e' r o d u w g n c Hn H|e r r' o d w g chunk ok H|e r r' o d u w g n c Hn H]; cbn [source sink seen given up put taken] in *.
  - destruct (pushPartial_run data e _ _ _ Hv) as (e1 & H' & Hv'). rewrite H in H'. simplify_eq.
    destruct (cut_messages _) as [ms tail] eqn:E. apply cut_messages_spec in E as (Hc & Hf).
    eexists _, _. by eapply (sender_step b _ sent msgs out todo ms tail _ data Hi).
  - destruct (enc_push_run data e _ _ _ Hv) as (e1 & H' & Hv'). rewrite H in H'. simplify_eq.
    destruct (push_messages_concat (todo ++ data)) as (Hc & Hf). eexists _, _.
    eapply (sender_step b _ sent msgs out todo _ [] _ data Hi); try done. by rewrite Hc, app_nil_r.
  - destruct (decide (todo = [])) as [->|Hne].
    { rewrite (flush_idle _ _ _ Hv) in H. simplify_eq. by eexists _, _. }
    assert (0 < len todo) by (destruct todo; [done|len_lia]).
    destruct (flush_run e _ _ _ Hv) as (e1 & H' & Hv'); [done|]. rewrite H in H'. simplify_eq.
    eexists _, _. rewrite <-(app_nil_r (concat sent ++ todo)).
    eapply (sender_step b _ sent msgs out todo [todo] [] _ [] Hi); try done.
    + cbn. by rewrite !app_nil_r.
    + constructor; [|done]. by destruct Hv as (_ & _ & ?).
  - destruct Hv as (Hb & Hv & Hm). destruct (pull_run (es e) out todo n Hv Hn) as (c' & Hpull & Hv').
    rewrite (on_es_run _ _ _ _ Hpull) in H. simplify_eq. exists sent, msgs. constructor; cbn; [|done|by eauto 10].
    exists (zdrop n out), todo. split; [done|]. by rewrite <-app_assoc, take_drop.
  - destruct (dec_push_run chunk r _ _ _ Hd) as (ok' & r1 & ms & tail & tail' & H' & Hacc & Hd' & _ & Hok & _).
    rewrite H in H'. simplify_eq. rewrite (Hu eq_refl) in Hacc.
    exists sent, (msgs ++ ms). constructor; cbn; [by eauto 10|done|].
    exists tail, tail', (avail ++ concat ms). rewrite length_app, <-box_after_after, concat_app, app_assoc, Ht.
    split_and!; try done. by eapply accepts_app.
  - destruct Hd as (Hb & Hd). destruct (pull_run (ds r) avail rest' n Hd Hn) as (c' & Hpull & Hd').
    rewrite (on_ds_run _ _ _ _ Hpull) in H. simplify_eq. exists sent, msgs. constructor; cbn; [by eauto 10|done|].
    exists rest, rest', (zdrop n avail). split_and!; try done. by rewrite <-app_assoc, take_drop.
Qed.

Lemma line_steps_inv b s s' sent msgs :
  line_inv b s sent msgs → rtc line_step s s' → ∃ sent' msgs', line_inv b s' sent' msgs'.
Proof.
  intros Hi Hs. revert sent msgs Hi. induction Hs as [|? ? ? H _ IH]; intros; [by eexists _, _|].
  destruct (line_step_inv _ _ _ _ _ Hi H) as (? & ? & ?). eauto.
Qed.

Lemma line_start_inv key nonce p : line_inv (MkBox key nonce p) (line_start key nonce p) [] [].
Proof.
  constructor; cbn; [by exists [], []|constructor|]. exists [], [], []. split; [constructor|done].
Qed.
End preservation.

(** * Deleting a message *)

Section deletion.
Context {P : Primitives} {PL : PrimitivesLaws P}.
Implicit Types (b : CryptoBox) (m w : bytes).

(** An empty message that does not authenticate. *)
Definition blank (junk : bytes) : bytes := x00 :: x00 :: junk.

Lemma accepts1_blank b junk :
  _protocol b = Compact → len junk = 16 → unbox xchacha20 (_key b) (_nonce b) junk = None →
  accepts1 b (blank junk) [].
Proof. intros Hp Hj Hu. split; [rewrite Hp; unfold blank; cbn; len_lia|]. by right. Qed.

Lemma opens_accepts b w m :
  _protocol b = Compact → Wire.opens (_protocol b) (_key b) (_nonce b) w m → accepts1 b w m.
Proof.
  intros Hp Ho. split; [|by left]. rewrite Hp in *. destruct Ho as [_ Hu]. apply unbox_len in Hu.
  unfold sizeof_MAC in Hu. cbn [Wire.overhead]. rewrite length_drop in Hu. lia.
Qed.

Lemma accepts1_size b w m :
  _protocol b = Compact → accepts1 b w m → len w = 18 + len m ∧ readUint16At (take 2 w) = len m.
Proof.
  intros Hp [Hl Ho]. rewrite Hp in *. split; [done|]. by destruct Ho as [[? _]|(_ & -> & ? & _)].
Qed.

(** The blank in the place of the first message is not a forgery. *)
Lemma blank_not_forged b junk m1 m2 :
  _protocol b = Compact → len junk = 16 → unbox xchacha20 (_key b) (_nonce b) junk = None →
  len m2 <= kMaxMessageSize →
  ¬ forged b [m1; m2] (blank junk ++ box_seal (box_after b 1) [m2]).
Proof.
  intros Hp Hj Hu Hm2 (x & msgs & w & m & y & He & Hx & Ho & Hs). cbv zeta in Ho.
  pose proof (opens_accepts (box_after b (length msgs)) w m Hp Ho) as Hw.
  pose proof (accepts1_blank b junk Hp Hj Hu) as Hb.
  destruct (accepts1_seal (box_after b 1) m2) as [Hm|]; [|lia].
  inversion Hx as [|? w1 m1' x1 msgs1 ? Hw1 Hx1]; subst.
  { rewrite box_after_0 in *. destruct (accepts1_unique b _ _ _ _ _ _ Hb Hw He) as (<- & <- & _).
    rewrite Hp in Ho. destruct Ho as [_ Ho]. change (drop 2 (blank junk)) with junk in Ho. congruence. }
  rewrite <-app_assoc in He. destruct (accepts1_unique b _ _ _ _ _ _ Hb Hw1 He) as (_ & _ & He1).
  inversion Hx1 as [|? w2 m2' x2 msgs2 ? Hw2 Hx2]; subst; cbn [length] in *.
  { cbn [app] in He1. rewrite <-(app_nil_r (box_seal _ _)) in He1.
    destruct (accepts1_unique (box_after b 1) _ _ _ _ _ _ Hm Hw He1) as (_ & <- & _). by apply Hs. }
  rewrite <-app_assoc, <-(app_nil_r (box_seal _ _)) in He1.
  destruct (accepts1_unique (box_after b 1) _ _ _ _ _ _ Hm Hw2 He1) as (_ & _ & He2).
  symmetry in He2. apply app_eq_nil in He2 as [_ [-> _]%app_eq_nil].
  destruct (accepts1_size (box_after b (S (S (length msgs2)))) _ _ Hp Hw) as [Hl _]. len_lia.
Qed.

(** [push] of the blank and the second message. *)
Lemma push_blank r b junk m2 :
  dec_view r b [] [] → _protocol b = Compact → len junk = 16 →
  unbox xchacha20 (_key b) (_nonce b) junk = None → len m2 <= kMaxMessageSize →
  ∃ r', dec_push (blank junk ++ box_seal (box_after b 1) [m2]) r = (Ok true, r') ∧
    dec_view r' (box_after b 2) m2 [].
Proof.
  intros Hv Hp Hj Hu Hm2. set (rest := box_seal (box_after b 1) [m2]).
  destruct (dec_push_unfold (blank junk ++ rest) r b [] [] Hv) as (s1 & -> & Hv1). cbn [app] in Hv1 |- *.
  pose proof Hv1 as (_ & Hbuf & _). cbn [app] in Hbuf.
  assert (len (blank junk) = 18) as Hlb by (unfold blank; len_lia).
  destruct (dec_loop_success (length (blank junk ++ rest)) s1 b [] (blank junk) rest [] (_buffer (ds s1)))
    as (s2 & Hl2 & Hv2); [done|by apply accepts1_blank| | |].
  - rewrite mwrite_nil; [done|len_lia..].
  - destruct b as [k n p]. cbn in Hp. subst p. rewrite Hlb.
    apply (decrypt_empty_run (MkEnv (MkBox k n Compact) _) (MkIn 0 _) (MkOut 0 _) junk);
      cbn [the_box mem in_data in_size out_data out_size]; try done.
    + unfold regions_ok. cbn [mem in_data in_size out_data out_size]. rewrite Hbuf. len_lia.
    + len_lia.
    + rewrite Hbuf. apply (mread_at [] (blank junk) rest); [done|by rewrite Hlb].
  - unfold blank in Hl2 |- *. cbn [app] in Hl2 |- *. rewrite Hl2.
    destruct (dec_loop_honest [m2] (length (x00 :: x00 :: junk ++ rest)) s2 (box_after b 1) [] [] []
      (box_seal (box_after (box_after b 1) 1) [[]])) as (r' & Hl & Hv').
    + by rewrite app_nil_r.
    + by constructor.
    + done.
    + intros Hn. pose proof (box_seal_1_pos (box_after (box_after b 1) 1) []). rewrite Hn in *. cbn in *. lia.
    + done.
    + cbn. lia.
    + exists r'. split; [done|]. cbn in Hv'. by rewrite app_nil_r in Hv'.
Qed.
End deletion.

(** * Properties *)

Section properties.
Context {P : Primitives} {PL : PrimitivesLaws P}.

(** C3: Against a network that delivers whatever it likes: the sender's traffic
    is the sealed form of messages whose concatenation is a prefix of what was
    written; and unless the network has delivered a forgery, what the receiver
    has read comes from some of these messages, in the order in which they were
    sent, none of them twice and none changed. In the BoxStream protocol none is
    left out either: the receiver has read a prefix of what was written. *)
Theorem attacked_integrity key nonce p s :
  rtc line_step (line_start key nonce p) s →
  ∃ sent, traffic s = box_seal (MkBox key nonce p) sent ∧
    Forall (λ m, 0 < len m <= kMaxMessageSize) sent ∧ concat sent `prefix_of` put s ∧
    (forged (MkBox key nonce p) sent (given s) ∨
     ∃ kept, kept `sublist_of` sent ∧ taken s `prefix_of` concat kept ∧
       (p = BoxStream → taken s `prefix_of` put s)).
Proof.
  intros Hs. destruct (line_steps_inv _ _ _ _ _ (line_start_inv key nonce p) Hs) as (sent & msgs & Hi).
  destruct Hi as [(out & todo & Hv & Ho & Hp) Hz (rest & rest' & avail & Ha & _ & _ & Ht)].
  exists sent. unfold traffic. destruct Hv as (_ & Hv & _). rewrite (view_available _ _ _ Hv).
  assert (concat sent `prefix_of` put s) as Hpre by (rewrite Hp; by apply prefix_app_r).
  split_and!; try done.
  destruct (accepted_reads _ _ _ _ sent _ _ Ha Ht) as [|(kept & Hk & Htk & Hall)]; [by left|right].
  exists kept. split_and!; try done. intros Hbs. etrans; [exact Htk|]. etrans; [by apply prefix_concat, Hall|done].
Qed.

(** A message of moderate size is pushed as one message. *)
Lemma push_one e b ready m :
  enc_view e b ready [] → 0 < len m <= kMaxMessageSize →
  ∃ e', enc_push m e = (Ok tt, e') ∧ enc_view e' (box_after b 1) (ready ++ box_seal b [m]) [].
Proof.
  intros Hv Hm. destruct (enc_push_run m e b ready [] Hv) as (e' & Hp & Hv'). exists e'. split; [done|].
  assert (push_messages ([] ++ m) = [m]) as Heq; [|by rewrite Heq in Hv'].
  cbn [app]. unfold push_messages, cut_messages.
  assert (∀ n, cut n m = ([], m)) as -> by (intros [|n]; cbn [cut]; [done|by ztest]).
  rewrite bool_decide_eq_false_2; [done|]. intros ->. cbn in Hm. lia.
Qed.

(** C19: In the compact protocol, the default, the network can delete messages
    and nobody notices: for any two messages and any sixteen bytes that do not
    authenticate under the first nonce, the sender writes both messages, the
    network withholds the first one and delivers in its place an empty one made
    of the sixteen bytes; the receiver then reads the second message alone, no
    [push] fails, the stream ends cleanly, and there is no forgery. *)
Theorem compact_messages_deletable key nonce m1 m2 junk :
  0 < len m1 <= kMaxMessageSize → 0 < len m2 <= kMaxMessageSize → len junk = 16 →
  unbox xchacha20 key nonce junk = None →
  let b := MkBox key nonce Compact in
  ∃ s, rtc line_step (line_start key nonce Compact) s ∧ put s = m1 ++ m2 ∧
    seen s = box_seal b [m1; m2] ∧ taken s = m2 ∧ up s = true ∧
    (dec_close (sink s)).1 = Ok true ∧ ¬ forged b [m1; m2] (given s).
Proof.
  intros Hm1 Hm2 Hj Hu b.
  assert (enc_view (EncryptionStream_init key nonce Compact) b [] []) as Hv0 by (by split_and!).
  destruct (push_one _ b [] m1 Hv0 Hm1) as (e1 & Hp1 & Hv1).
  destruct (push_one e1 (box_after b 1) _ m2 Hv1 Hm2) as (e2 & Hp2 & Hv2).
  destruct Hv2 as (_ & Hv2 & _). cbn [app] in Hv2. rewrite <-box_seal_cons in Hv2.
  set (all := box_seal b [m1; m2]) in *.
  destruct (pull_run (es e2) all [] (len all) Hv2 ltac:(lia)) as (c & Hpull & _).
  rewrite ztake_all in Hpull by lia.
  destruct (push_blank (DecryptionStream_init key nonce Compact) b junk m2)
    as (r & Hr & Hvr); [by split|done..|lia|].
  destruct Hvr as (Hbox & Hvr). destruct (pull_run (ds r) m2 [] (len m2) Hvr ltac:(lia)) as (d & Hd & Hvd).
  rewrite ztake_all in Hd by lia. rewrite zdrop_all in Hvd by lia.
  eexists. split; [|split; [|split; [|split; [|split; [|split]]]]].
  - eapply rtc_l; [by apply line_push|]. eapply rtc_l; [by apply line_push|].
    eapply rtc_l; [eapply (line_send _ _ _ _ _ _ _ _ (len all)); [lia|by apply on_es_run]|].
    eapply rtc_l; [by apply line_inject|].
    eapply rtc_l; [eapply (line_read _ _ _ _ _ _ _ _ (len m2)); [lia|by apply on_ds_run]|]. reflexivity.
  - done.
  - done.
  - done.
  - done.
  - destruct (dec_close_run (MkDec d (_decryptor r)) (box_after b 2) [] []) as (r' & Hc & _); [done|].
    cbn [sink]. by rewrite Hc.
  - apply blank_not_forged; try done. lia.
Qed.
End properties.

(** * Witnesses *)

Module Demo.
Import Toy.
Definition key : bytes := replicate 32 x07.
Definition yes : bytes := [x79; x65; x73].
Definition no : bytes := [x6e; x6f].
Definition junk : bytes := replicate 16 x41.

(** The sender writes, the network delivers sixteen bytes of its own. *)
Definition hostile : line :=
  let e := (enc_push yes (EncryptionStream_init key zero_nonce BoxStream)).2 in
  let r := (dec_push (replicate 40 x41) (DecryptionStream_init key zero_nonce BoxStream)).2 in
  MkLine e r [] (replicate 40 x41) false yes [].

Lemma hostile_reached : rtc line_step (line_start key zero_nonce BoxStream) hostile.
Proof.
  eapply rtc_l; [apply (line_push _ (source hostile) _ _ _ _ _ _ yes); vm_compute; reflexivity|].
  eapply rtc_l; [apply (line_inject _ _ (sink hostile) _ _ _ _ (replicate 40 x41) false); vm_compute; reflexivity|].
  reflexivity.
Qed.

Lemma attacked_integrity_witness :
  ∃ sent, traffic hostile = box_seal (MkBox key zero_nonce BoxStream) sent ∧
    (forged (MkBox key zero_nonce BoxStream) sent (given hostile) ∨ taken hostile `prefix_of` put hostile).
Proof.
  destruct (attacked_integrity key zero_nonce BoxStream hostile hostile_reached)
    as (sent & Ht & _ & _ & [Hf|(kept & _ & _ & Hp)]);
    exists sent; (split; [exact Ht|]); [left; exact Hf|right; apply Hp; reflexivity].
Defined.

Lemma compact_messages_deletable_witness :
  unbox xchacha20 key zero_nonce junk = None ∧
  ∃ s, rtc line_step (line_start key zero_nonce Compact) s ∧ put s = no ++ yes ∧ taken s = yes.
Proof.
  split; [vm_compute; reflexivity|].
  destruct (compact_messages_deletable key zero_nonce no yes junk) as (s & Hs & Hp & _ & Ht & _);
    [vm_compute; split; congruence|vm_compute; split; congruence|reflexivity|vm_compute; reflexivity|].
  exists s. split; [exact Hs|]. split; [exact Hp|exact Ht].
Defined.
End Demo.
