(* ===== verification/Secure.v ===== *)
(** From the handshake to the encrypted connection: the streams that the two
    peers of an honest handshake build from their sessions are the two ends of
    a connection of Channel.v, in each direction. *)
From Stdlib Require Import ZArith Lia Strings.Byte.
From stdpp Require Import base list numbers option tactics relations.
From S2P Require Import Prelude Crypto Shs Handshake Protocol Boxes Streams Channel.

Open Scope Z_scope.

(** The connection from the owner of session [s] to the owner of [s']. *)
Definition connection {P : Primitives} (s s' : Session) (p : Protocol) : chan :=
  MkChan (EncryptionStream_of_session s p) (DecryptionStream_of_session s' p) [] [] [].

Section secure.
Context {P : Primitives} {PL : PrimitivesLaws P}.

(** Mirrored sessions make matching ends. *)
Lemma connection_mirror s pk p :
  connection s (mirror s pk) p = chan_init (encryptionKey s) (encryptionNonce s) p ∧
  connection (mirror s pk) s p = chan_init (decryptionKey s) (decryptionNonce s) p.
Proof. done. Qed.

Lemma sessions_of_finished q n sc ss n1 n2 :
  authorized (p_auth q) (Ap q) → rtc net_step (net_start q) n →
  session (client n) = (Ok sc, n1) → session (server n) = (Ok ss, n2) →
  ss = mirror sc (Ap q).
Proof.
  intros Ha Hr Hc Hs. pose proof (net_reaches q Ha n Hr) as Hi.
  assert (_step (client n) = Finished) as Hf.
  { unfold session in Hc. mrun_in Hc. case_bool_decide as E; [done|].
    destruct (decide (_step (client n) = Finished)); [done|by destruct E]. }
  rewrite (finished_client q n Hi Hf) in Hc, Hs. cbn [client server] in Hc, Hs.
  destruct (final_sessions q) as [Hcs Hss]; [done..|].
  rewrite Hcs in Hc. rewrite Hss in Hs. by simplify_eq.
Qed.

(** End to end: when the two peers of an honest handshake have their
    sessions and exchange data through encryption and decryption streams made
    from them, in either protocol and in both directions, then on every run
    what one peer has read is a prefix of what the other has written, and
    every delivery of bytes from the network is accepted. *)
Theorem handshake_to_connection q n sc ss n1 n2 p :
  authorized (p_auth q) (Ap q) → rtc net_step (net_start q) n →
  session (client n) = (Ok sc, n1) → session (server n) = (Ok ss, n2) →
  ∀ c, rtc chan_step (connection sc ss p) c ∨ rtc chan_step (connection ss sc p) c →
    got c `prefix_of` written c ∧
    ∀ chunk rest, wire c = chunk ++ rest → (dec_push chunk (receiver c)).1 = Ok true.
Proof.
  intros Ha Hr Hc Hs c Hrun. rewrite (sessions_of_finished q n sc ss n1 n2 Ha Hr Hc Hs) in Hrun.
  destruct (connection_mirror sc (Ap q) p) as [E1 E2]. rewrite E1, E2 in Hrun.
  assert (chan_inv c) as (b & msgs & out & todo & avail & part & Hi)
    by (destruct Hrun as [Hrun|Hrun]; by apply chan_reaches in Hrun).
  split.
  - destruct Hi as (_ & _ & _ & _ & _ & ->). by eexists.
  - intros chunk rest Hw. destruct c as [s r w wr g]. cbn in Hw. subst w.
    cbn [receiver]. by destruct (deliver_step _ _ _ _ _ _ _ _ _ _ _ _ Hi) as (? & -> & _).
Qed.

End secure.

(** * Witnesses *)

Section witnesses.
Import Toy Protocol.Demo.

Lemma handshake_to_connection_witness :
  ∃ sc ss, session (client final) = (Ok sc, client final) ∧
    session (server final) = (Ok ss, server final) ∧
    (dec_push [] (receiver (connection sc ss Compact))).1 = Ok true.
Proof.
  destruct (final_sessions q) as [Hc Hs].
  eexists _, _. split; [exact Hc|]. split; [exact Hs|].
  apply (handshake_to_connection q final _ _ _ _ Compact q_authorized q_run Hc Hs _
    (or_introl (rtc_refl _ _))) with (rest := []). reflexivity.
Defined.

End witnesses.
