(* ===== verification/Link.v ===== *)
(** Two adapters at the ends of one byte connection, whatever adapters they
    are.

    [Adapter] is what a stream adapter looks like from outside: how far it has
    got ([stage]: in the handshake, or joined with a peer and two streams),
    the bytes that have arrived and those to be sent, a turn of its connecting,
    its writes, and a turn of its reads. [AdapterLaws] is what it promises, in
    terms of the handshake's messages (the [turn]s of Protocol.v), the sealed
    messages (Boxes.v) and the streams (Streams.v). KjEnd.v and CroutonEnd.v
    have the two adapters of the program as instances.

    The system is two such ends and the network, which moves any number of bytes
    from one to the other. Each end takes turns of connecting and, once joined,
    writes and reads at any time, also while the other one has still to receive
    its last handshake message.

    The invariant splits the bytes in transit in each direction into what is
    left of a handshake message and what belongs to the connection, whose
    streams and bytes satisfy the invariant of Channel.v from the beginning.
    Everything is proved against the interface, and for one side: the other one
    is the same with the two adapters exchanged. *)
From Stdlib Require Import ZArith Lia Strings.Byte.
From stdpp Require Import base list numbers option tactics relations.
From S2P Require Import Prelude Crypto Shs Handshake Pieces Driver Protocol Boxes Streams Channel.

Open Scope Z_scope.

(** * The interface *)

(** How far an end has got: in the handshake, or joined with the peer that has
    the key [pk], with a stream in each direction, or neither. *)
Inductive stage :=
| Shaking (h : Handshake)
| Joined (pk : bytes) (e : EncryptionStream) (d : DecryptionStream)
| Down.

(** The two ways to write. *)
Inductive write_call := WriteBytes (data : bytes) | WritePieces (pieces : list bytes).

Definition payload (c : write_call) : bytes :=
  match c with WriteBytes data => data | WritePieces pieces => concat pieces end.

(** An adapter with state [X], whose reads have arguments [R]. A turn, write or
    read that fails is [None]; a turn of a read that has no result yet has the
    result [None]. *)
Class Adapter (X R : Type) := {
  a_stage : X → stage;
  a_in : X → bytes;
  a_out : X → bytes;
  a_net : bytes → bytes → X → X;
  a_ready : X → bool;
  a_turn : X → option X;
  a_turns : X → nat;
  a_write : write_call → X → option X;
  a_read_ready : R → X → bool;
  a_read : R → X → option (option bytes * X);
  (** in good order, and would accept a peer with this key *)
  a_ok : bytes → X → Prop;
}.

Section laws.
Context {P : Primitives}.

(** A joined end before it has written or read. *)
Definition joined_with (sess : Session) : stage :=
  Joined (peerPublicKey sess) (EncryptionStream_init (encryptionKey sess) (encryptionNonce sess) Compact)
    (DecryptionStream_init (decryptionKey sess) (decryptionNonce sess) Compact).

(** Where an end may be when its handshake has got to [h]: an adapter may join
    at once when it has finished. *)
Definition settles (sess : Session) (h : Handshake) (st : stage) : Prop :=
  st = Shaking h ∨ _step h = Finished ∧ st = joined_with sess.

(** The stream is in order, and accepts every part of [b]. *)
Definition readable (d : DecryptionStream) (b : bytes) : Prop :=
  (∃ bx avail part, dec_view d bx avail part) ∧
  ∀ c rest, b = c ++ rest → ∃ d', dec_push c d = (Ok true, d').

Class AdapterLaws (X R : Type) `{Adapter X R} := {
  (** the network changes nothing but the bytes *)
  a_net_spec i o (x : X) :
    a_in (a_net i o x) = i ∧ a_out (a_net i o x) = o ∧ a_stage (a_net i o x) = a_stage x ∧
    a_turns (a_net i o x) = a_turns x ∧ ∀ pk, a_ok pk x → a_ok pk (a_net i o x);
  a_ready_shaking (x : X) : a_ready x = true → ∃ h, a_stage x = Shaking h;
  (** the turns of the handshake *)
  a_sends t pk (x : X) :
    turn_ok t → a_ok pk x → a_stage x = Shaking (snd_pre t) →
    a_ready x = true ∧
    ∃ x', a_turn x = Some x' ∧ a_ok pk x' ∧ (a_turns x' < a_turns x)%nat ∧
      a_in x' = a_in x ∧ a_out x' = a_out x ++ t_msg t ∧ a_stage x' = Shaking (snd_post t);
  a_receive_ready t pk (x : X) :
    turn_ok t → a_ok pk x → a_stage x = Shaking (rcv_pre t) → len (t_msg t) <= len (a_in x) →
    a_ready x = true;
  (** a turn without effect, or one that takes the message *)
  a_receives t sess (x : X) :
    turn_ok t → a_ok (peerPublicKey sess) x → a_stage x = Shaking (rcv_pre t) → a_ready x = true →
    (len (t_msg t) <= len (a_in x) → ∃ rest, a_in x = t_msg t ++ rest) →
    (_step (rcv_post t) = Finished → session (rcv_post t) = (Ok sess, rcv_post t)) →
    ∃ x', a_turn x = Some x' ∧ a_ok (peerPublicKey sess) x' ∧ (a_turns x' < a_turns x)%nat ∧
      a_out x' = a_out x ∧
      (a_in x' = a_in x ∧ a_stage x' = a_stage x ∨
       a_in x = t_msg t ++ a_in x' ∧ settles sess (rcv_post t) (a_stage x'));
  a_joins h sess (x : X) :
    a_ok (peerPublicKey sess) x → a_stage x = Shaking h →
    _step h = Finished → _error h = NoError → _inputBuffer h = [] → session h = (Ok sess, h) →
    a_ready x = true ∧
    ∃ x', a_turn x = Some x' ∧ a_ok (peerPublicKey sess) x' ∧ (a_turns x' < a_turns x)%nat ∧
      a_in x' = a_in x ∧ a_out x' = a_out x ∧ a_stage x' = joined_with sess;
  (** a write seals its messages and sends them, and leaves nothing behind *)
  a_write_joined c pk (x x' : X) :
    a_ok pk x → a_write c x = Some x' → ∃ e d, a_stage x = Joined pk e d;
  a_writes c pk e d (x : X) :
    a_ok pk x → a_stage x = Joined pk e d → enc_view e (_encryptor e) [] [] →
    let ms := push_messages (payload c) in
    ∃ x' e', a_write c x = Some x' ∧ a_ok pk x' ∧ a_in x' = a_in x ∧
      a_out x' = a_out x ++ box_seal (_encryptor e) ms ∧ a_stage x' = Joined pk e' d ∧
      enc_view e' (box_after (_encryptor e) (length ms)) [] [];
  (** a read takes bytes that have arrived, or returns what is available *)
  a_read_joined r pk (x : X) :
    a_ok pk x → a_read_ready r x = true → ∃ e d, a_stage x = Joined pk e d;
  a_reads r pk e d (x : X) :
    a_ok pk x → a_stage x = Joined pk e d → readable d (a_in x) → a_read_ready r x = true →
    ∃ o x' d', a_read r x = Some (o, x') ∧ a_ok pk x' ∧ a_out x' = a_out x ∧
      a_stage x' = Joined pk e d' ∧
      match o with
      | None => ∃ c, c ≠ [] ∧ a_in x = c ++ a_in x' ∧ dec_push c d = (Ok true, d')
      | Some b => a_in x' = a_in x ∧ ∃ n, 0 <= n ∧ on_ds (pull n) d = (Ok b, d')
      end;
  (** and there is one that gets on *)
  a_can_read pk e d (x : X) :
    a_ok pk x → a_stage x = Joined pk e d → readable d (a_in x) →
    a_in x ≠ [] ∨ availableData (ds d) ≠ [] →
    ∃ r, a_read_ready r x = true ∧ ∀ b x', a_read r x = Some (Some b, x') → b ≠ [];
}.
End laws.

(** * The system *)

Section system.
Context {X R : Type} `{Adapter X R}.

(** An end, and what its application has written and read. *)
Record Peer := MkPeer { ep : X; wrote : bytes; heard : bytes }.

Inductive peer_act : Peer → Peer → Prop :=
| act_turn x wr g x' :
    a_ready x = true → a_turn x = Some x' → peer_act (MkPeer x wr g) (MkPeer x' wr g)
| act_write c x wr g x' :
    a_write c x = Some x' → peer_act (MkPeer x wr g) (MkPeer x' (wr ++ payload c) g)
| act_read r x wr g o x' :
    a_read_ready r x = true → a_read r x = Some (o, x') →
    peer_act (MkPeer x wr g) (MkPeer x' wr (g ++ default [] o)).

Definition inbox (p : Peer) : bytes := a_in (ep p).
Definition outbox (p : Peer) : bytes := a_out (ep p).
Definition set_inbox (b : bytes) (p : Peer) : Peer :=
  MkPeer (a_net b (outbox p) (ep p)) (wrote p) (heard p).
Definition set_outbox (b : bytes) (p : Peer) : Peer :=
  MkPeer (a_net (inbox p) b (ep p)) (wrote p) (heard p).

Definition new_peer (x : X) : Peer := MkPeer x [] [].
End system.
Arguments Peer X : clear implicits.

Section link.
Context {X R Y Q : Type} `{Adapter X R} `{Adapter Y Q}.

(** The network takes [b] from one end to the other. *)
Inductive transfer : Peer X → Peer Y → Peer X → Peer Y → Prop :=
| transfer_bytes p p' b rest :
    outbox p = b ++ rest → transfer p p' (set_outbox rest p) (set_inbox (inbox p' ++ b) p').
End link.

Section links.
Context {X R Y Q : Type} `{Adapter X R} `{Adapter Y Q}.

Record link := MkLink { left : Peer X; right : Peer Y }.

Inductive link_step : link → link → Prop :=
| link_left l l' r : peer_act l l' → link_step (MkLink l r) (MkLink l' r)
| link_right l r r' : peer_act r r' → link_step (MkLink l r) (MkLink l r')
| link_up l r l' r' : transfer l r l' r' → link_step (MkLink l r) (MkLink l' r')
| link_down l r l' r' : transfer r l r' l' → link_step (MkLink l r) (MkLink l' r').
End links.
Arguments link X Y : clear implicits.

(** * Turns *)

Section moves.
Context {P : Primitives}.

(** A message moves both handshakes on. *)
Lemma snd_moves t : turn_ok t → (moves_left (snd_post t) < moves_left (snd_pre t))%nat.
Proof. intros Ht. destruct (snd_pre_facts t Ht). by eapply moves_next; [done..|right|]. Qed.

Lemma rcv_moves_on t : turn_ok t → (moves_left (rcv_post t) < moves_left (rcv_pre t))%nat.
Proof. intros Ht. destruct (rcv_pre_facts t [] Ht) as (_ & ? & ? & _). by eapply moves_next; [done..|right|]. Qed.

(** A finished handshake waits for nothing. *)
Lemma finished_needs_nothing h : _step h = Finished → byteCountNeeded h = 0.
Proof.
  intros Hf. unfold byteCountNeeded, client_byteCountNeeded, server_byteCountNeeded.
  rewrite Hf. by destruct (h_kind h).
Qed.

End moves.

(** * One direction of the data *)

Section flow.
Context {P : Primitives} {PL : PrimitivesLaws P}.

(** The bytes [w] are in transit from [e] to [d]; nothing is left in [e]. *)
Definition flow (e : EncryptionStream) (d : DecryptionStream) (w wr g : bytes) : Prop :=
  chan_inv (MkChan e d w wr g) ∧ _buffer (es e) = [].

Lemma flow_idle e d w wr g : flow e d w wr g → enc_view e (_encryptor e) [] [].
Proof.
  intros ((b & msgs & out & todo & avail & part & (_ & [Hb Hn] & _) & _) & Hnil).
  cbn in Hb, Hn. rewrite Hnil in Hb. symmetry in Hb. apply app_eq_nil in Hb as [-> ->]. done.
Qed.

(** A write seals its messages and puts them all on the way. *)
Lemma flow_write e e' d w wr g data :
  let ms := push_messages data in
  flow e d w wr g → enc_view e' (box_after (_encryptor e) (length ms)) [] [] →
  flow e' d (w ++ box_seal (_encryptor e) ms) (wr ++ data) g.
Proof.
  intros ms Hfl (Hb' & Hv' & _). split; [|apply (proj1 Hv')].
  destruct (flow_idle _ _ _ _ _ Hfl) as (_ & [Hbuf _] & _). cbn in Hbuf.
  destruct Hfl as ((b & msgs & out & todo & avail & part & Hi) & _).
  destruct (push_messages_concat data) as [Hc Hf]. fold ms in Hc, Hf.
  pose proof Hi as ((Hb & [Hbuf2 _] & _) & _ & _ & _ & _ & Hwr). cbn in Hb, Hbuf2, Hwr.
  rewrite Hbuf in Hbuf2. symmetry in Hbuf2. apply app_eq_nil in Hbuf2 as [-> ->].
  rewrite Hb in Hb' |- *.
  set (mid := MkEnc (MkStream (box_seal (box_after b (length msgs)) ms)
    (len (box_seal (box_after b (length msgs)) ms))) (_encryptor e')).
  assert (chan_inv_with (MkChan mid d w (wr ++ data) g) b (msgs ++ ms)
    ([] ++ box_seal (box_after b (length msgs)) ms) [] avail part)
    as (_ & Hr & Htr & Hms & Hinc & Hw2).
  { eapply inv_seal; [exact Hi| |exact Hf|].
    - split_and!; [exact Hb'|split; cbn; by rewrite ?app_nil_r|done].
    - by rewrite Hwr, app_nil_r, <-Hc, <-!app_assoc, !app_nil_r. }
  exists b, (msgs ++ ms), [], [], avail, part. cbn in Hr, Htr, Hw2. split_and!; try done.
  - split_and!; [|done..]. cbn [sender]. by rewrite Hb', length_app, box_after_after.
  - cbn. by rewrite app_nil_r.
Qed.

(** What is on its way is accepted, in any portions. *)
Lemma flow_push e d c w wr g :
  flow e d (c ++ w) wr g → ∃ d', dec_push c d = (Ok true, d') ∧ flow e d' w wr g.
Proof.
  intros [(b & msgs & out & todo & avail & part & Hi) Hbuf].
  destruct (deliver_step _ _ _ _ _ _ _ _ _ _ _ _ Hi) as (d' & Hp & Hi'). exists d'. by split.
Qed.

Lemma flow_readable e d b w wr g : flow e d (b ++ w) wr g → readable d b.
Proof.
  intros Hfl. split.
  - destruct Hfl as [(bx & msgs & out & todo & avail & part & _ & Hd & _) _]. by exists bx, avail, part.
  - intros c rest ->. rewrite <-app_assoc in Hfl.
    destruct (flow_push _ _ _ _ _ _ Hfl) as (d' & ? & _). by exists d'.
Qed.

(** What is returned comes next. *)
Lemma flow_pull e d d' b n w wr g :
  0 <= n → on_ds (pull n) d = (Ok b, d') → flow e d w wr g → flow e d' w wr (g ++ b).
Proof.
  intros Hn Hp [(bx & msgs & out & todo & avail & part & Hi) Hbuf].
  destruct (read_step _ _ _ _ _ n _ _ _ _ _ _ Hn Hi) as (o & d1 & Hp1 & Hi' & _).
  rewrite Hp in Hp1. injection Hp1 as <- <-. by split.
Qed.

Lemma flow_prefix e d w wr g : flow e d w wr g → g `prefix_of` wr.
Proof.
  intros [(? & ? & ? & ? & ? & ? & _ & _ & _ & _ & _ & Hw) _]. cbn in Hw. rewrite Hw. by eexists.
Qed.

(** When nothing is on its way or available, everything has been read. *)
Lemma flow_drained e d wr g : flow e d [] wr g → availableData (ds d) = [] → g = wr.
Proof.
  intros [Hi Hbuf] Ha. destruct (quiet_delivered _ Hi Hbuf eq_refl) as [Hq _]. cbn in Hq.
  by rewrite Hq, Ha, app_nil_r.
Qed.

Lemma flow_init sess sess' :
  encryptionKey sess = decryptionKey sess' → encryptionNonce sess = decryptionNonce sess' →
  flow (EncryptionStream_init (encryptionKey sess) (encryptionNonce sess) Compact)
    (DecryptionStream_init (decryptionKey sess') (decryptionNonce sess') Compact) [] [] [].
Proof. intros <- <-. split; [apply chan_init_inv|done]. Qed.
End flow.

(** * Both ends *)

Section both.
Context {P : Primitives} {PL : PrimitivesLaws P}.

(** An end whose handshake is [h], and which is going to have the session
    [sess]: it is in the handshake still, or it has joined and has streams [e]
    and [d]. The streams of the session stand for those that are not there
    yet. *)
Definition end_ok {X R} `{Adapter X R} (sess : Session) (x : X) (h : Handshake)
    (e : EncryptionStream) (d : DecryptionStream) : Prop :=
  a_ok (peerPublicKey sess) x ∧
  (a_stage x = Shaking h ∧ Joined (peerPublicKey sess) e d = joined_with sess ∨
   _step h = Finished ∧ a_stage x = Joined (peerPublicKey sess) e d).

(** One direction: what has been sent and not been received is the rest of the
    handshake [m], followed by the connection's bytes, of which there are none
    before the sender has joined. *)
Definition way {X R Y Q} `{Adapter X R} `{Adapter Y Q} (from : Peer X) (to : Peer Y) (m : bytes)
    (e : EncryptionStream) (d : DecryptionStream) : Prop :=
  ∃ w, inbox to ++ outbox from = m ++ w ∧ flow e d w (wrote from) (heard to) ∧
    ((∃ h, a_stage (ep from) = Shaking h) → w = []).

Definition ends {X R Y Q} `{Adapter X R} `{Adapter Y Q} (sl sr : Session) (hl hr : Handshake)
    (ml mr : bytes) (l : Peer X) (r : Peer Y) : Prop :=
  ∃ el dl er dr, end_ok sl (ep l) hl el dl ∧ end_ok sr (ep r) hr er dr ∧
    way l r ml el dr ∧ way r l mr er dl.

Lemma ends_swap {X R Y Q} `{Adapter X R} `{Adapter Y Q} sl sr hl hr ml mr (l : Peer X) (r : Peer Y) :
  ends sl sr hl hr ml mr l r → ends sr sl hr hl mr ml r l.
Proof. intros (el & dl & er & dr & ? & ? & ? & ?). by exists er, dr, el, dl. Qed.

Context {X R Y Q : Type} `{AX : Adapter X R} `{AY : Adapter Y Q}.
Context {LX : AdapterLaws X R} {LY : AdapterLaws Y Q}.
Implicit Types (x : X) (l : Peer X) (r : Peer Y) (h : Handshake) (sl sr : Session).

(** An unfinished end is in the handshake still. *)
Lemma end_shaking {Z S} `{Adapter Z S} sess (x : Z) h e d :
  end_ok sess x h e d → _step h ≠ Finished →
  a_stage x = Shaking h ∧ Joined (peerPublicKey sess) e d = joined_with sess.
Proof. intros (_ & [?|[? _]]); done. Qed.

Lemma end_ready sess x h e d :
  end_ok sess x h e d → a_ready x = true →
  a_stage x = Shaking h ∧ Joined (peerPublicKey sess) e d = joined_with sess.
Proof. intros (_ & [?|(_ & Hj)]) Hr; [done|]. apply a_ready_shaking in Hr as [h' Hr]. congruence. Qed.

(** ** Turns of the handshake *)

Lemma ends_send t sl sr hr mr l r :
  turn_ok t → ends sl sr (snd_pre t) hr [] mr l r →
  a_ready (ep l) = true ∧
  ∃ x', a_turn (ep l) = Some x' ∧ (a_turns x' < a_turns (ep l))%nat ∧
    ends sl sr (snd_post t) hr (t_msg t) mr (MkPeer x' (wrote l) (heard l)) r.
Proof.
  intros Ht (el & dl & er & dr & Hl & Hr & (w & Hw & Hfl & Hnone) & (w2 & Hw2 & Hfl2 & Hnone2)).
  destruct (end_shaking _ _ _ _ _ Hl (proj2 (snd_pre_facts t Ht))) as [Hst Hj].
  destruct (a_sends t _ (ep l) Ht (proj1 Hl) Hst) as (Hrdy & x' & Hx & Hok & Hlt & Hin & Hout & Hst').
  split; [done|]. exists x'. split; [done|]. split; [done|].
  exists el, dl, er, dr. split; [split; [done|by left]|]. split; [done|].
  rewrite (Hnone ltac:(by eexists)) in Hw, Hfl. unfold inbox, outbox in *. cbn in Hw. split.
  - exists []. unfold inbox, outbox. cbn. rewrite Hout, app_assoc, Hw, app_nil_r. by split_and!.
  - exists w2. unfold inbox, outbox. cbn. rewrite Hin. by split_and!.
Qed.

(** An end that waits for a message: it takes it, or goes on waiting. *)
Lemma ends_receive t m sl sr hr ml l r :
  turn_ok t → ends sl sr (rcv_pre t) hr ml m l r → a_ready (ep l) = true →
  m = t_msg t ∨ m = [] ∧ _step hr ≠ Finished →
  (_step (rcv_post t) = Finished → session (rcv_post t) = (Ok sl, rcv_post t)) →
  ∃ x', a_turn (ep l) = Some x' ∧ (a_turns x' < a_turns (ep l))%nat ∧
    (ends sl sr (rcv_pre t) hr ml m (MkPeer x' (wrote l) (heard l)) r ∨
     m = t_msg t ∧ ends sl sr (rcv_post t) hr ml [] (MkPeer x' (wrote l) (heard l)) r).
Proof.
  intros Ht (el & dl & er & dr & Hl & Hr & (w & Hw & Hfl & Hnone) & (w2 & Hw2 & Hfl2 & Hnone2)) Hrdy Hm Hs.
  destruct (end_ready _ _ _ _ _ Hl Hrdy) as [Hst Hj]. unfold inbox, outbox in *. pose proof (ok_pos t Ht).
  assert (len (t_msg t) <= len (a_in (ep l)) → m = t_msg t ∧ ∃ rest, a_in (ep l) = t_msg t ++ rest) as Hlong.
  { intros Hlen. destruct Hm as [->|[-> Hnf]].
    - destruct (app_eq_longer _ _ _ _ Hw2) as (rest & Hin & _); [lia|]. split; [done|by exists rest].
    - destruct (end_shaking _ _ _ _ _ Hr Hnf) as [Hst2 _].
      rewrite (Hnone2 ltac:(by eexists)) in Hw2. apply app_eq_nil in Hw2 as [Hin _].
      rewrite Hin in Hlen. cbn in Hlen. lia. }
  destruct (a_receives t sl (ep l) Ht (proj1 Hl) Hst Hrdy) as (x' & Hx & Hok & Hlt & Hout & Hcase);
    [intros Hlen; apply (Hlong Hlen)|done|].
  exists x'. split; [done|]. split; [done|]. destruct Hcase as [[Hin Hst']|[Hin Hset]].
  - left. exists el, dl, er, dr. split; [split; [done|left; cbn [ep]; by rewrite Hst']|]. split; [done|].
    split; [exists w|exists w2]; unfold inbox, outbox; cbn; rewrite ?Hout, ?Hin, ?Hst'; by split_and!.
  - right. destruct Hlong as [-> _]; [rewrite Hin; len_lia|]. split; [done|].
    exists el, dl, er, dr. split; [split; [done|]|].
    { cbn [ep]. destruct Hset as [->|[Hf ->]]; [by left|right; by rewrite Hj]. }
    split; [done|]. split.
    + exists w. unfold inbox, outbox; cbn. rewrite Hout. split_and!; [done..|].
      intros _. apply Hnone. by eexists.
    + exists w2. unfold inbox, outbox; cbn. rewrite Hin, <-app_assoc in Hw2.
      apply app_inv_head in Hw2. by split_and!.
Qed.

(** The last turn. *)
Lemma ends_join sl sr hl hr ml mr l r :
  _step hl = Finished → _error hl = NoError → _inputBuffer hl = [] → session hl = (Ok sl, hl) →
  ends sl sr hl hr ml mr l r →
  a_stage (ep l) = Shaking hl ∧ a_ready (ep l) = true ∧
    (∃ x', a_turn (ep l) = Some x' ∧ (a_turns x' < a_turns (ep l))%nat ∧
      ends sl sr hl hr ml mr (MkPeer x' (wrote l) (heard l)) r) ∨
  (∃ e d, a_stage (ep l) = Joined (peerPublicKey sl) e d) ∧ a_ready (ep l) = false.
Proof.
  intros Hf Her Hib Hs (el & dl & er & dr & Hl & Hr & (w & Hw & Hfl & Hnone) & (w2 & Hw2 & Hfl2 & Hnone2)).
  destruct Hl as (Hok & [[Hst Hj]|[_ Hst]]); [left|right].
  - destruct (a_joins hl sl (ep l) Hok Hst Hf Her Hib Hs) as (Hrdy & x' & Hx & Hok' & Hlt & Hin & Hout & Hst').
    split_and!; [done..|]. exists x'. split_and!; [done..|].
    exists el, dl, er, dr. split; [split; [done|right; cbn [ep]; by rewrite Hj]|]. split; [done|].
    split; [exists w|exists w2]; unfold inbox, outbox in *; cbn; rewrite ?Hout, ?Hin; split_and!; try done.
    intros _. apply Hnone. by eexists.
  - split; [by eexists _, _|]. destruct (a_ready (ep l)) eqn:E; [|done].
    apply a_ready_shaking in E as [h E]. congruence.
Qed.

(** ** Data *)

Lemma end_joined sess x h e d pk e' d' :
  end_ok sess x h e d → a_stage x = Joined pk e' d' → _step h = Finished ∧ e' = e ∧ d' = d.
Proof. intros (_ & [[Hst _]|[? Hst]]) Hj; rewrite Hst in Hj; [done|]. by injection Hj as <- <- <-. Qed.

Lemma ends_write c sl sr hl hr ml mr l r x' :
  ends sl sr hl hr ml mr l r → a_write c (ep l) = Some x' →
  ends sl sr hl hr ml mr (MkPeer x' (wrote l ++ payload c) (heard l)) r.
Proof.
  intros (el & dl & er & dr & Hl & Hr & (w & Hw & Hfl & _) & (w2 & Hw2 & Hfl2 & Hnone2)) Hc.
  destruct (a_write_joined c _ _ _ (proj1 Hl) Hc) as (e & d & Hst).
  destruct (end_joined _ _ _ _ _ _ _ _ Hl Hst) as (Hf & -> & ->).
  destruct (a_writes c _ _ _ _ (proj1 Hl) Hst (flow_idle _ _ _ _ _ Hfl))
    as (x1 & e' & Hc1 & Hok & Hin & Hout & Hst' & Hv).
  rewrite Hc in Hc1. apply Some_inj in Hc1 as <-.
  exists e', dl, er, dr. split; [split; [done|by right]|]. split; [done|].
  unfold way, inbox, outbox in *. cbn. rewrite Hin, Hout, Hst'. split; [|by exists w2].
  eexists. split_and!; [by rewrite app_assoc, Hw, <-app_assoc|by apply flow_write|by intros [? ?]].
Qed.

(** A read that is ready does not fail; it returns the next bytes, or takes
    some that have arrived. *)
Lemma ends_read q sl sr hl hr ml mr l r :
  ends sl sr hl hr ml mr l r → (_step hl = Finished → mr = []) → a_read_ready q (ep l) = true →
  ∃ o x', a_read q (ep l) = Some (o, x') ∧ a_out x' = a_out (ep l) ∧
    (∃ e d, a_stage x' = Joined (peerPublicKey sl) e d) ∧
    ends sl sr hl hr ml mr (MkPeer x' (wrote l) (heard l ++ default [] o)) r ∧
    (o = None → (length (a_in x') < length (inbox l))%nat) ∧ (is_Some o → a_in x' = inbox l).
Proof.
  intros (el & dl & er & dr & Hl & Hr & Hway & (w2 & Hw2 & Hfl2 & Hnone2)) Hm Hrdy.
  destruct (a_read_joined q _ _ (proj1 Hl) Hrdy) as (e & d & Hst).
  destruct (end_joined _ _ _ _ _ _ _ _ Hl Hst) as (Hf & -> & ->).
  rewrite (Hm Hf) in *. cbn [app] in Hw2. rewrite <-Hw2 in Hfl2. unfold inbox, outbox in *.
  destruct (a_reads q _ _ _ _ (proj1 Hl) Hst (flow_readable _ _ _ _ _ _ Hfl2) Hrdy)
    as (o & x' & d' & Hq & Hok & Hout & Hst' & Hcase).
  exists o, x'. split_and!; [done|done|by eexists _, _| | |].
  - exists el, d', er, dr. split; [split; [done|by right]|]. split; [done|].
    unfold way, inbox, outbox in *. cbn. rewrite Hout, Hst'. split.
    { destruct Hway as (w & ? & ? & _). exists w. split_and!; [done..|]. by intros [? ?]. }
    exists (a_in x' ++ a_out (ep r)). split; [done|]. split.
    + destruct o as [b|]; cbn [default].
      * destruct Hcase as [Hin (n & Hn & Hp)]. rewrite Hin. by eapply flow_pull.
      * destruct Hcase as (c & Hc & Hin & Hp). rewrite Hin, <-app_assoc in Hfl2.
        destruct (flow_push _ _ _ _ _ _ Hfl2) as (d1 & Hp1 & Hfl'). rewrite Hp in Hp1.
        injection Hp1 as <-. by rewrite app_nil_r.
    + intros Hsh. rewrite (Hnone2 Hsh) in Hw2. apply app_eq_nil in Hw2 as [Hin Hout2].
      rewrite Hout2, app_nil_r. destruct o as [b|]; [by destruct Hcase as [-> _]|].
      destruct Hcase as (c & Hc & Hin' & _). rewrite Hin in Hin'. by destruct c.
  - intros ->. destruct Hcase as (c & Hc & -> & _). rewrite length_app. destruct c; [done|cbn; lia].
  - intros [b ->]. by destruct Hcase.
Qed.

(** What an end does is a turn of the handshake, or keeps both ends as they
    are. *)
Lemma ends_act sl sr hl hr ml mr l r l' :
  ends sl sr hl hr ml mr l r → (_step hl = Finished → mr = []) → peer_act l l' →
  (∃ x', a_ready (ep l) = true ∧ a_turn (ep l) = Some x' ∧ l' = MkPeer x' (wrote l) (heard l)) ∨
  ends sl sr hl hr ml mr l' r.
Proof.
  intros He Hm Hact.
  destruct Hact as [x wr g x' Hr Hc|c x wr g x' Hw|q x wr g o x' Hq Hr].
  - left. by exists x'.
  - right. by apply (ends_write c _ _ _ _ _ _ _ _ x' He).
  - right. destruct (ends_read q _ _ _ _ _ _ _ _ He Hm Hq) as (o' & x1 & Hr' & _ & _ & He' & _).
    cbn [ep] in *. rewrite Hr in Hr'. apply Some_inj in Hr'. by simplify_eq.
Qed.

(** The network moves bytes, which stay on their way. *)
Lemma ends_transfer sl sr hl hr ml mr l r l' r' :
  ends sl sr hl hr ml mr l r → transfer l r l' r' → ends sl sr hl hr ml mr l' r'.
Proof.
  intros (el & dl & er & dr & Hl & Hr & Hup & Hdown) Ht. destruct Ht as [p p' b rest Ho].
  unfold set_inbox, set_outbox, ends, end_ok, way, inbox, outbox in *. cbn.
  destruct (a_net_spec (a_in (ep p)) rest (ep p)) as (-> & -> & -> & _ & Hokl).
  destruct (a_net_spec (a_in (ep p') ++ b) (a_out (ep p')) (ep p')) as (-> & -> & -> & _ & Hokr).
  exists el, dl, er, dr. destruct Hl as [Hl1 Hl2], Hr as [Hr1 Hr2]. split_and!; [by apply Hokl|done|by apply Hokr|done| |done].
  destruct Hup as (w & Hw & Hup). exists w. split; [|done]. by rewrite <-app_assoc, <-Ho.
Qed.

(** With everything delivered, the receiver of a message can take it. *)
Lemma ends_ready_receive t sl sr hr ml l r :
  turn_ok t → ends sl sr (rcv_pre t) hr ml (t_msg t) l r → outbox r = [] → a_ready (ep l) = true.
Proof.
  intros Ht (el & dl & er & dr & Hl & _ & _ & (w & Hw & _)) Ho. rewrite Ho, app_nil_r in Hw.
  destruct (rcv_pre_facts t [] Ht) as (_ & _ & Hnf & _).
  destruct (end_shaking _ _ _ _ _ Hl Hnf) as [Hst _].
  apply (a_receive_ready t _ _ Ht (proj1 Hl) Hst). unfold inbox in Hw. rewrite Hw. len_lia.
Qed.

(** What each end has heard is a prefix of what the other one wrote. *)
Lemma ends_prefix sl sr hl hr ml mr l r :
  ends sl sr hl hr ml mr l r → heard r `prefix_of` wrote l ∧ heard l `prefix_of` wrote r.
Proof.
  intros (el & dl & er & dr & _ & _ & (w & _ & H1 & _) & (w2 & _ & H2 & _)).
  split; by eapply flow_prefix.
Qed.

(** Whoever has joined has joined the right peer. *)
Lemma ends_peer sl sr hl hr ml mr l r pk e d :
  ends sl sr hl hr ml mr l r → a_stage (ep l) = Joined pk e d → pk = peerPublicKey sl.
Proof.
  intros (el & dl & er & dr & Hl & _) Hj. destruct Hl as (_ & [[Hst _]|[_ Hst]]); congruence.
Qed.

(** A joined end, whose peer has been delivered everything, can read on until
    it has heard all. *)
Lemma hears sl sr hl hr ml mr l r :
  ends sl sr hl hr ml mr l r → (_step hl = Finished → mr = []) → outbox r = [] →
  (∃ e d, a_stage (ep l) = Joined (peerPublicKey sl) e d) →
  ∃ l', rtc peer_act l l' ∧ ends sl sr hl hr ml mr l' r ∧ heard l' = wrote r ∧ wrote l' = wrote l ∧
    outbox l' = outbox l ∧ ∃ e d, a_stage (ep l') = Joined (peerPublicKey sl) e d.
Proof.
  intros He Hm Ho. remember (length (inbox l) + (length (wrote r) - length (heard l)))%nat as n eqn:En.
  revert l En He. induction (lt_wf n) as [n _ IH]. intros l En He (e & d & Hst).
  pose proof He as (el & dl & er & dr & Hl & Hr & _ & (w2 & Hw2 & Hfl2 & _)).
  destruct (end_joined _ _ _ _ _ _ _ _ Hl Hst) as (Hf & -> & ->).
  rewrite (Hm Hf), Ho, app_nil_r in Hw2. cbn [app] in Hw2. rewrite <-Hw2 in Hfl2.
  destruct (decide (inbox l = [] ∧ availableData (ds dl) = [])) as [[Hin Hav]|Hmore].
  { exists l. rewrite Hin in Hfl2. pose proof (flow_drained _ _ _ _ Hfl2 Hav). split_and!; try done. by eexists _, _. }
  pose proof Hfl2 as Hfl3. rewrite <-(app_nil_r (inbox l)) in Hfl3. unfold inbox in Hfl3.
  destruct (a_can_read _ _ _ _ (proj1 Hl) Hst (flow_readable _ _ _ _ _ _ Hfl3)) as (q & Hq & Hgets).
  { unfold inbox in Hmore. destruct (decide (a_in (ep l) = [])); [right; by intros ?; destruct Hmore|by left]. }
  destruct (ends_read q _ _ _ _ _ _ _ _ He Hm Hq) as (o & x' & Hrd & Hout & Hj & He' & Hnone & Hsome).
  pose proof (proj2 (ends_prefix _ _ _ _ _ _ _ _ He')) as Hpre%prefix_length. cbn in Hpre.
  edestruct (IH (length (a_in x') + (length (wrote r) - length (heard l ++ default [] o)))%nat)
    with (l := MkPeer x' (wrote l) (heard l ++ default [] o)) as (l' & Hs & He2 & Hh & Hwr & Hout2 & Hj2).
  - rewrite length_app in Hpre |- *. destruct o as [b|]; cbn [default] in *.
    + rewrite (Hsome ltac:(by eexists)). specialize (Hgets b x' Hrd). destruct b; [done|cbn in *; lia].
    + specialize (Hnone eq_refl). cbn. lia.
  - done.
  - exact He'.
  - exact Hj.
  - exists l'. split_and!; try done; [|unfold outbox in *; cbn in *; congruence].
    eapply rtc_l; [|exact Hs]. destruct l as [x wr g]. by apply (act_read q).
Qed.
End both.

(** * The handshake *)

Section phases.
Context {P : Primitives} {PL : PrimitivesLaws P} (q : parties).
Context {X R Y Q : Type} `{AX : Adapter X R} `{AY : Adapter Y Q}.
Context {LX : AdapterLaws X R} {LY : AdapterLaws Y Q}.
Hypothesis Hauth : authorized (p_auth q) (Ap q).
Implicit Types (l : Peer X) (r : Peer Y) (s : link X Y).

Abbreviation t1 := (turn1 q).
Abbreviation t2 := (turn2 q).
Abbreviation t3 := (turn3 q).
Abbreviation t4 := (turn4 q).
Abbreviation client_fin := (cst q Finished (ci3 q)).
Abbreviation server_fin := (sst q Finished (si3 q)).

(** The two handshakes, and the message that is under way in each
    direction. *)
Inductive phase : Handshake → Handshake → bytes → bytes → Prop :=
| ph_c1 : phase (snd_pre t1) (rcv_pre t1) [] []
| ph_u1 : phase (rcv_pre t2) (rcv_pre t1) (t_msg t1) []
| ph_s2 : phase (rcv_pre t2) (snd_pre t2) [] []
| ph_d2 : phase (rcv_pre t2) (rcv_pre t3) [] (t_msg t2)
| ph_c3 : phase (snd_pre t3) (rcv_pre t3) [] []
| ph_u3 : phase (rcv_pre t4) (rcv_pre t3) (t_msg t3) []
| ph_s4 : phase (rcv_pre t4) (snd_pre t4) [] []
| ph_d4 : phase (rcv_pre t4) server_fin [] (t_msg t4)
| ph_fin : phase client_fin server_fin [] [].

Definition client_session : Session := Spec.session (p_K q) (ack_key q) (Ap q) (ap q) (Bp q) (bp q).
Definition server_session : Session := Spec.session (p_K q) (ack_key q) (Bp q) (bp q) (Ap q) (ap q).

Definition link_inv s : Prop :=
  ∃ hc hs mu md, phase hc hs mu md ∧
    ends client_session server_session hc hs mu md (left s) (right s).

Lemma all_turns : turn_ok t1 ∧ turn_ok t2 ∧ turn_ok t3 ∧ turn_ok t4.
Proof. split_and!; [apply turn1_ok|apply turn2_ok|by apply turn3_ok|apply turn4_ok]. Qed.

(** Who has finished waits for no message. *)
Lemma phase_client_done hc hs mu md : phase hc hs mu md → _step hc = Finished → md = [].
Proof. by destruct 1. Qed.

Lemma phase_server_done hc hs mu md : phase hc hs mu md → _step hs = Finished → mu = [].
Proof. by destruct 1. Qed.

(** The session that comes with the last message. *)
Definition yields (t : turn) (sess : Session) : Prop :=
  _step (rcv_post t) = Finished → session (rcv_post t) = (Ok sess, rcv_post t).

Lemma all_yield :
  yields t1 server_session ∧ yields t2 client_session ∧ yields t3 server_session ∧
  yields t4 client_session.
Proof. split_and!; [by intros [=]..|]. intros _. exact (proj1 (final_sessions q)). Qed.

(** The turn [Hx] leads to the phase [ph], or leaves the two ends in [ph0]. *)
Ltac to_phase ph He :=
  eexists; split; [eassumption|]; split; [eassumption|];
  eexists _, _, _, _; split; [apply ph|cbn [left right]; first [exact He|apply ends_swap; exact He]].

Ltac send_turn turn handoff ph :=
  destruct turn as (_ & ? & ? & ? & He'); rewrite handoff in He'; to_phase ph He'.

Ltac wait_turn turn T Y ph0 :=
  destruct turn as (? & ? & ? & [He'|[Hm _]]);
    [by right|exact Y|to_phase ph0 He'|destruct (msg_not_nil _ T); by symmetry].

Ltac receive_turn turn Y handoff ph0 ph :=
  destruct turn as (? & ? & ? & [He'|[_ He']]);
    [by left|exact Y|to_phase ph0 He'|rewrite handoff in He'; to_phase ph He'].

Ltac join_turn turn ph Hrdy :=
  destruct turn as [(_ & _ & (? & ? & ? & He'))|[_ Hn]]; [to_phase ph He'|by rewrite Hn in Hrdy].

(** A turn of the client's succeeds and keeps the invariant. *)
Lemma client_turn_ok hc hs mu md l r :
  phase hc hs mu md → ends client_session server_session hc hs mu md l r → a_ready (ep l) = true →
  ∃ x', a_turn (ep l) = Some x' ∧ (a_turns x' < a_turns (ep l))%nat ∧
    link_inv (MkLink (MkPeer x' (wrote l) (heard l)) r).
Proof.
  destruct (handoffs q) as (h1 & h2 & h3 & h4 & h5 & h6 & h7 & h8).
  destruct all_turns as (T1 & T2 & T3 & T4). destruct all_yield as (_ & Y2 & _ & Y4).
  intros Hph He Hrdy. destruct Hph.
  - send_turn (ends_send _ _ _ _ _ _ _ T1 He) h1 ph_u1.
  - wait_turn (ends_receive _ _ _ _ _ _ _ _ T2 He Hrdy) T2 Y2 ph_u1.
  - wait_turn (ends_receive _ _ _ _ _ _ _ _ T2 He Hrdy) T2 Y2 ph_s2.
  - receive_turn (ends_receive _ _ _ _ _ _ _ _ T2 He Hrdy) Y2 h4 ph_d2 ph_c3.
  - send_turn (ends_send _ _ _ _ _ _ _ T3 He) h5 ph_u3.
  - wait_turn (ends_receive _ _ _ _ _ _ _ _ T4 He Hrdy) T4 Y4 ph_u3.
  - wait_turn (ends_receive _ _ _ _ _ _ _ _ T4 He Hrdy) T4 Y4 ph_s4.
  - receive_turn (ends_receive _ _ _ _ _ _ _ _ T4 He Hrdy) Y4 h8 ph_d4 ph_fin.
  - join_turn (ends_join _ _ client_fin _ _ _ _ _ eq_refl eq_refl eq_refl
      (proj1 (final_sessions q)) He) ph_fin Hrdy.
Qed.

Lemma server_turn_ok hc hs mu md l r :
  phase hc hs mu md → ends client_session server_session hc hs mu md l r → a_ready (ep r) = true →
  ∃ x', a_turn (ep r) = Some x' ∧ (a_turns x' < a_turns (ep r))%nat ∧
    link_inv (MkLink l (MkPeer x' (wrote r) (heard r))).
Proof.
  destruct (handoffs q) as (h1 & h2 & h3 & h4 & h5 & h6 & h7 & h8).
  destruct all_turns as (T1 & T2 & T3 & T4). destruct all_yield as (Y1 & _ & Y3 & _).
  intros Hph He%ends_swap Hrdy. destruct Hph.
  - wait_turn (ends_receive _ _ _ _ _ _ _ _ T1 He Hrdy) T1 Y1 ph_c1.
  - receive_turn (ends_receive _ _ _ _ _ _ _ _ T1 He Hrdy) Y1 h2 ph_u1 ph_s2.
  - send_turn (ends_send _ _ _ _ _ _ _ T2 He) h3 ph_d2.
  - wait_turn (ends_receive _ _ _ _ _ _ _ _ T3 He Hrdy) T3 Y3 ph_d2.
  - wait_turn (ends_receive _ _ _ _ _ _ _ _ T3 He Hrdy) T3 Y3 ph_c3.
  - receive_turn (ends_receive _ _ _ _ _ _ _ _ T3 He Hrdy) Y3 h6 ph_u3 ph_s4.
  - send_turn (ends_send _ _ _ _ _ _ _ T4 He) h7 ph_d4.
  - join_turn (ends_join _ _ server_fin _ _ _ _ _ eq_refl eq_refl eq_refl
      (proj2 (final_sessions q)) He) ph_d4 Hrdy.
  - join_turn (ends_join _ _ server_fin _ _ _ _ _ eq_refl eq_refl eq_refl
      (proj2 (final_sessions q)) He) ph_fin Hrdy.
Qed.

Lemma link_inv_step s s' : link_inv s → link_step s s' → link_inv s'.
Proof.
  intros (hc & hs & mu & md & Hph & He) Hs. destruct Hs as [l l' r Ha|l r r' Ha|l r l' r' Ht|l r l' r' Ht].
  - destruct (ends_act _ _ _ _ _ _ _ _ _ He (phase_client_done _ _ _ _ Hph) Ha)
      as [(x' & Hr & Hc & ->)|He']; [|by exists hc, hs, mu, md].
    destruct (client_turn_ok _ _ _ _ _ _ Hph He Hr) as (x1 & Hc2 & _ & ?).
    cbn [left] in *. rewrite Hc in Hc2. by apply Some_inj in Hc2 as <-.
  - destruct (ends_act _ _ _ _ _ _ _ _ _ (ends_swap _ _ _ _ _ _ _ _ He)
      (phase_server_done _ _ _ _ Hph) Ha) as [(x' & Hr & Hc & ->)|He'%ends_swap];
      [|by exists hc, hs, mu, md].
    destruct (server_turn_ok _ _ _ _ _ _ Hph He Hr) as (x1 & Hc2 & _ & ?).
    cbn [right] in *. rewrite Hc in Hc2. by apply Some_inj in Hc2 as <-.
  - exists hc, hs, mu, md. split; [done|]. by eapply ends_transfer.
  - exists hc, hs, mu, md. split; [done|]. apply ends_swap.
    eapply ends_transfer; [by apply ends_swap|done].
Qed.

Lemma link_inv_steps s s' : link_inv s → rtc link_step s s' → link_inv s'.
Proof. intros Hi Hs. induction Hs; eauto using link_inv_step. Qed.

(** Two ends that begin the handshake. *)
Record begins (x : X) (y : Y) : Prop := {
  b_client : a_ok (Bp q) x ∧ a_stage x = Shaking (snd_pre t1) ∧ a_in x = [] ∧ a_out x = [];
  b_server : a_ok (Ap q) y ∧ a_stage y = Shaking (rcv_pre t1) ∧ a_in y = [] ∧ a_out y = [];
}.

Lemma link_begins x y : begins x y → link_inv (MkLink (new_peer x) (new_peer y)).
Proof.
  intros [(Hox & Hx & Hix & Hux) (Hoy & Hy & Hiy & Huy)].
  eexists _, _, _, _. split; [apply ph_c1|]. eexists _, _, _, _.
  split; [split; [exact Hox|left; split; [exact Hx|reflexivity]]|].
  split; [split; [exact Hoy|left; split; [exact Hy|reflexivity]]|].
  unfold way, inbox, outbox. cbn. rewrite Hix, Hux, Hiy, Huy.
  split; (exists []; split; [done|]; split; [|done]).
  - by apply (flow_init client_session server_session).
  - by apply (flow_init server_session client_session).
Qed.

(** ** Progress *)

Definition both_joined s : Prop :=
  (∃ e d, a_stage (ep (left s)) = Joined (Bp q) e d) ∧
  (∃ e d, a_stage (ep (right s)) = Joined (Ap q) e d).

(** With everything delivered, an end can take a turn, or both have joined. *)
Lemma someone_ready s :
  link_inv s → outbox (left s) = [] → outbox (right s) = [] →
  a_ready (ep (left s)) = true ∨ a_ready (ep (right s)) = true ∨ both_joined s.
Proof.
  intros (hc & hs & mu & md & Hph & He) Hl Hr. pose proof (ends_swap _ _ _ _ _ _ _ _ He) as He'.
  destruct all_turns as (T1 & T2 & T3 & T4). destruct (final_sessions q) as [F1 F2]. destruct Hph.
  - left. by destruct (ends_send t1 _ _ _ _ _ _ T1 He).
  - right; left. exact (ends_ready_receive t1 _ _ _ _ _ _ T1 He' Hl).
  - right; left. by destruct (ends_send t2 _ _ _ _ _ _ T2 He').
  - left. exact (ends_ready_receive t2 _ _ _ _ _ _ T2 He Hr).
  - left. by destruct (ends_send t3 _ _ _ _ _ _ T3 He).
  - right; left. exact (ends_ready_receive t3 _ _ _ _ _ _ T3 He' Hl).
  - right; left. by destruct (ends_send t4 _ _ _ _ _ _ T4 He').
  - left. exact (ends_ready_receive t4 _ _ _ _ _ _ T4 He Hr).
  - destruct (ends_join _ _ client_fin _ _ _ _ _ eq_refl eq_refl eq_refl F1 He) as [(_ & ? & _)|[Hj _]];
      [by left|].
    destruct (ends_join _ _ server_fin _ _ _ _ _ eq_refl eq_refl eq_refl F2 He') as [(_ & ? & _)|[Hj' _]];
      [by right; left|].
    right; right. by split.
Qed.

(** The network delivers what has been sent. *)
Lemma delivers s :
  ∃ s', rtc link_step s s' ∧ outbox (left s') = [] ∧ outbox (right s') = [] ∧
    wrote (left s') = wrote (left s) ∧ wrote (right s') = wrote (right s) ∧
    a_turns (ep (left s')) = a_turns (ep (left s)) ∧ a_turns (ep (right s')) = a_turns (ep (right s)).
Proof.
  destruct s as [l r].
  set (l1 := set_outbox [] l). set (r1 := set_inbox (inbox r ++ outbox l) r).
  set (r2 := set_outbox [] r1). set (l2 := set_inbox (inbox l1 ++ outbox r1) l1).
  exists (MkLink l2 r2). split.
  { eapply rtc_l; [apply link_up, (transfer_bytes l r (outbox l) []); by rewrite app_nil_r|].
    apply rtc_once, link_down, (transfer_bytes r1 l1 (outbox r1) []). by rewrite app_nil_r. }
  unfold l2, r2, l1, r1, set_inbox, set_outbox, inbox, outbox. cbn.
  split_and!; try done; rewrite ?(proj1 (proj2 (a_net_spec _ _ _))); try done.
  - by rewrite !(proj1 (proj2 (proj2 (proj2 (a_net_spec _ _ _))))).
  - by rewrite !(proj1 (proj2 (proj2 (proj2 (a_net_spec _ _ _))))).
Qed.

Lemma joins s :
  link_inv s →
  ∃ s', rtc link_step s s' ∧ both_joined s' ∧ outbox (left s') = [] ∧ outbox (right s') = [] ∧
    wrote (left s') = wrote (left s) ∧ wrote (right s') = wrote (right s).
Proof.
  remember (a_turns (ep (left s)) + a_turns (ep (right s)))%nat as n eqn:En.
  revert s En. induction (lt_wf n) as [n _ IH]. intros s En Hi.
  destruct (delivers s) as (s1 & Hs1 & Hl & Hr & Hwl & Hwr & Htl & Htr).
  pose proof (link_inv_steps _ _ Hi Hs1) as Hi1.
  destruct (someone_ready s1 Hi1 Hl Hr) as [Hrdy|[Hrdy|Hj]]; [..|by exists s1; split_and!].
  - destruct Hi1 as (hc & hs & mu & md & Hph & He).
    destruct (client_turn_ok _ _ _ _ _ _ Hph He Hrdy) as (x' & Hc & Hm & Hi2).
    edestruct (IH _ ltac:(rewrite En, <-Htl, <-Htr; apply Nat.add_lt_mono_r, Hm)
      (MkLink (MkPeer x' _ _) _) eq_refl Hi2) as (s' & Hs' & Hj & ? & ? & Hw1 & Hw2).
    cbn in Hw1, Hw2. exists s'. split_and!; [|done|done|done|congruence..].
    etrans; [done|]. eapply rtc_l; [|exact Hs']. destruct s1 as [[x wr g] r1]. by apply link_left, act_turn.
  - destruct Hi1 as (hc & hs & mu & md & Hph & He).
    destruct (server_turn_ok _ _ _ _ _ _ Hph He Hrdy) as (x' & Hc & Hm & Hi2).
    edestruct (IH _ ltac:(rewrite En, <-Htl, <-Htr; apply Nat.add_lt_mono_l, Hm)
      (MkLink _ (MkPeer x' _ _)) eq_refl Hi2) as (s' & Hs' & Hj & ? & ? & Hw1 & Hw2).
    cbn in Hw1, Hw2. exists s'. split_and!; [|done|done|done|congruence..].
    etrans; [done|]. eapply rtc_l; [|exact Hs']. destruct s1 as [l1 [x wr g]]. by apply link_right, act_turn.
Qed.

(** Steps of one end are steps of the system. *)
Lemma link_lefts l l' r : rtc peer_act l l' → rtc link_step (MkLink l r) (MkLink l' r).
Proof. induction 1; [done|]. eapply rtc_l; [by apply link_left|done]. Qed.

Lemma link_rights l r r' : rtc peer_act r r' → rtc link_step (MkLink l r) (MkLink l r').
Proof. induction 1; [done|]. eapply rtc_l; [by apply link_right|done]. Qed.

(** Both ends can join and hear everything. *)
Lemma joins_and_hears s :
  link_inv s →
  ∃ s', rtc link_step s s' ∧ both_joined s' ∧
    heard (right s') = wrote (left s) ∧ heard (left s') = wrote (right s).
Proof.
  intros Hi. destruct (joins s Hi) as (s1 & Hs1 & Hj & Hl & Hr & Hwl & Hwr).
  pose proof (link_inv_steps _ _ Hi Hs1) as (hc & hs & mu & md & Hph & He). destruct s1 as [l r].
  cbn [left right] in *. destruct Hj as [Hj1 Hj2]. cbn [left right] in *.
  destruct (hears _ _ _ _ _ _ _ _ He (phase_client_done _ _ _ _ Hph) Hr Hj1)
    as (l' & Hact & He' & Hh & Hw & Ho & Hjl).
  destruct (hears _ _ _ _ _ _ _ _ (ends_swap _ _ _ _ _ _ _ _ He') (phase_server_done _ _ _ _ Hph)
    ltac:(congruence) Hj2) as (r' & Hact2 & He2 & Hh2 & Hw2 & Ho2 & Hjr).
  exists (MkLink l' r'). split_and!; [|by split|cbn; congruence|cbn; congruence].
  etrans; [exact Hs1|]. etrans; [by apply link_lefts|by apply link_rights].
Qed.

(** ** Safety *)

(** No turn that can be taken fails, and no read. *)
Lemma ends_safe s :
  link_inv s →
  (a_ready (ep (left s)) = true → is_Some (a_turn (ep (left s)))) ∧
  (a_ready (ep (right s)) = true → is_Some (a_turn (ep (right s)))) ∧
  (∀ c, a_read_ready c (ep (left s)) = true → is_Some (a_read c (ep (left s)))) ∧
  (∀ c, a_read_ready c (ep (right s)) = true → is_Some (a_read c (ep (right s)))).
Proof.
  intros (hc & hs & mu & md & Hph & He). pose proof (ends_swap _ _ _ _ _ _ _ _ He) as He'.
  split_and!; [intros Hr|intros Hr|intros c Hr|intros c Hr].
  - destruct (client_turn_ok _ _ _ _ _ _ Hph He Hr) as (x' & Hc & _). by eexists.
  - destruct (server_turn_ok _ _ _ _ _ _ Hph He Hr) as (x' & Hc & _). by eexists.
  - destruct (ends_read c _ _ _ _ _ _ _ _ He (phase_client_done _ _ _ _ Hph) Hr) as (o & x' & Hc & _).
    by eexists.
  - destruct (ends_read c _ _ _ _ _ _ _ _ He' (phase_server_done _ _ _ _ Hph) Hr) as (o & x' & Hc & _).
    by eexists.
Qed.

(** Nor does a write of an end that has joined. *)
Lemma ends_writes s c :
  link_inv s →
  ((∃ e d, a_stage (ep (left s)) = Joined (Bp q) e d) → is_Some (a_write c (ep (left s)))) ∧
  ((∃ e d, a_stage (ep (right s)) = Joined (Ap q) e d) → is_Some (a_write c (ep (right s)))).
Proof.
  intros (hc & hs & mu & md & Hph & (el & dl & er & dr & Hl & Hr & (w & _ & Hfl & _) & (w2 & _ & Hfl2 & _))).
  split; intros (e & d & Hst).
  - destruct (end_joined _ _ _ _ _ _ _ _ Hl Hst) as (_ & -> & ->).
    destruct (a_writes c _ _ _ _ (proj1 Hl) Hst (flow_idle _ _ _ _ _ Hfl)) as (x' & ? & Hc & _). by eexists.
  - destruct (end_joined _ _ _ _ _ _ _ _ Hr Hst) as (_ & -> & ->).
    destruct (a_writes c _ _ _ _ (proj1 Hr) Hst (flow_idle _ _ _ _ _ Hfl2)) as (x' & ? & Hc & _). by eexists.
Qed.

Lemma ends_peers s pk e d :
  link_inv s →
  (a_stage (ep (left s)) = Joined pk e d → pk = Bp q) ∧
  (a_stage (ep (right s)) = Joined pk e d → pk = Ap q).
Proof.
  intros (hc & hs & mu & md & _ & He). pose proof (ends_swap _ _ _ _ _ _ _ _ He) as He'.
  split; [apply (ends_peer _ _ _ _ _ _ _ _ _ _ _ He)|apply (ends_peer _ _ _ _ _ _ _ _ _ _ _ He')].
Qed.

(** Both ends are in good order. *)
Lemma link_ok s : link_inv s → a_ok (Bp q) (ep (left s)) ∧ a_ok (Ap q) (ep (right s)).
Proof. intros (hc & hs & mu & md & _ & (el & dl & er & dr & [Hl _] & [Hr _] & _)). by split. Qed.

(** Once the client has joined, the server needs no more bytes. *)
Lemma last_turn_ready s pk e d :
  link_inv s → a_stage (ep (left s)) = Joined pk e d →
  a_ready (ep (right s)) = true ∨ ∃ e' d', a_stage (ep (right s)) = Joined (Ap q) e' d'.
Proof.
  intros (hc & hs & mu & md & Hph & He) Hst.
  assert (_step hc = Finished) as Hf.
  { destruct He as (el & dl & er & dr & Hl & _). by destruct (end_joined _ _ _ _ _ _ _ _ Hl Hst). }
  destruct (final_sessions q) as [_ F2]. apply ends_swap in He. destruct Hph; try discriminate Hf.
  destruct (ends_join _ _ server_fin _ _ _ _ _ eq_refl eq_refl eq_refl F2 He) as [(_ & ? & _)|[Hj _]];
    [by left|by right].
Qed.
End phases.
