(* ===== verification/Crouton.v ===== *)
(** The Crouton adapter: [SecretHandshake] and [SecretHandshakeStream] of
    crouton/SecretHandshakeStream.cc and .hh.

    The raw stream is an [io::IStream] of the Crouton library, whose code is
    not part of the repository: the class [IStream] has the operations the
    adapter calls, on an arbitrary state, and [IStreamLaws] what it relies on:
    an operation completes, or it does not, which is the outcome [Unresolved] of
    the operation and of all that waits for it. [IStreamResolves] is a stream
    whose operations complete. A coroutine returns a value or an [error];
    awaiting a failed operation passes its error on ([await]). A coroutine that
    is not awaited runs to its end at the point where it is called.

    The theorems: the handshake loop ends after at most three rounds, with the
    session of a finished handshake or with an error, unless the raw stream
    leaves it waiting; an open stream writes exactly the sealed message of what it is
    given, and its reads return the plaintext in order, without loss or
    repetition; corrupt data and truncation are reported and close the
    stream. *)
From Stdlib Require Import ZArith Lia Strings.Byte.
From stdpp Require Import base list numbers option tactics relations strings.
From S2P Require Import Prelude Crypto Shs Handshake Pieces Driver Boxes Streams Attack.

Open Scope Z_scope.

(** * Errors and coroutines *)

(** [SecretHandshakeError], [CroutonError::InvalidState], and errors of the
    raw stream. *)
Inductive error :=
| SecretHandshakeError (code : Z)
| InvalidState
| RawError (code : Z).

Definition DataError : error := SecretHandshakeError 3.

(** [ErrorDomainInfo<SecretHandshakeError>::description]: the table is indexed
    with the code, whatever it is. *)
Definition kErrorNames : list string := [EmptyString; "protocol error"; "authentication error"; "data error"]%string.
Definition error_description (code : Z) : outcome string :=
  if (0 <=? code) && (code <? len kErrorNames)
  then match kErrorNames !! Z.to_nat code with Some s => Ok s | None => Fault OutOfBounds end
  else Fault OutOfBounds.

(** * The raw stream *)

Class IStream (S : Type) := {
  s_isOpen : S → bool;
  s_open : M S (unit + error);
  s_close : M S (unit + error);
  s_closeWrite : M S (unit + error);
  (** [read(MutableBytes)]: the bytes it stored *)
  s_read : Z → M S (bytes + error);
  (** [readNoCopy()]: empty at the end of the stream *)
  s_readNoCopy : M S (bytes + error);
  s_write : bytes → M S (unit + error);
}.

(** A read stores no more than fits in the buffer; the stream's operations
    return, or do not complete. *)
Class IStreamLaws (S : Type) `{IStream S} := {
  s_open_settles s : settles (λ _, True) (s_open s).1;
  s_close_settles s : settles (λ _, True) (s_close s).1;
  s_closeWrite_settles s : settles (λ _, True) (s_closeWrite s).1;
  s_readNoCopy_settles s : settles (λ _, True) (s_readNoCopy s).1;
  s_write_settles b s : settles (λ _, True) (s_write b s).1;
  s_read_settles n s : 0 <= n →
    settles (λ r, match r with inl b => len b <= n | inr _ => True end) (s_read n s).1;
}.

(** A stream whose operations complete. *)
Class IStreamResolves (S : Type) `{IStream S} := {
  s_open_returns s : ∃ r s', s_open s = (Ok r, s');
  s_close_returns s : ∃ r s', s_close s = (Ok r, s');
  s_closeWrite_returns s : ∃ r s', s_closeWrite s = (Ok r, s');
  s_readNoCopy_returns s : ∃ r s', s_readNoCopy s = (Ok r, s');
  s_write_returns b s : ∃ r s', s_write b s = (Ok r, s');
  s_read_returns n s : 0 <= n → ∃ r s', s_read n s = (Ok r, s') ∧
    match r with inl b => len b <= n | inr _ => True end;
}.

#[export] Instance resolves_laws {S : Type} `{IStreamResolves S} : IStreamLaws S.
Proof.
  constructor.
  - intros s. by destruct (s_open_returns s) as (r & s' & ->).
  - intros s. by destruct (s_close_returns s) as (r & s' & ->).
  - intros s. by destruct (s_closeWrite_returns s) as (r & s' & ->).
  - intros s. by destruct (s_readNoCopy_returns s) as (r & s' & ->).
  - intros b s. by destruct (s_write_returns b s) as (r & s' & ->).
  - intros n s Hn. by destruct (s_read_returns n s Hn) as (r & s' & -> & ?).
Qed.

(** A stream that fails where it would not complete. *)
Definition failing {S} (K : IStream S) : IStream S := {|
  s_isOpen := s_isOpen;
  s_open := resolved_as (inr (RawError 0)) s_open;
  s_close := resolved_as (inr (RawError 0)) s_close;
  s_closeWrite := resolved_as (inr (RawError 0)) s_closeWrite;
  s_read n := resolved_as (inr (RawError 0)) (s_read n);
  s_readNoCopy := resolved_as (inr (RawError 0)) s_readNoCopy;
  s_write b := resolved_as (inr (RawError 0)) (s_write b);
|}.

Lemma failing_resolves {S} (K : IStream S) : IStreamLaws S → @IStreamResolves S (failing K).
Proof.
  intros [Lo Lc Lcw Lrn Lw Lr].
  assert (∀ A (m : M S (A + error)) s, settles (λ _, True) (m s).1 →
            ∃ r s', resolved_as (inr (RawError 0)) m s = (Ok r, s')) as Hres.
  { intros A m s Hm. destruct (resolved_as_returns _ (inr (RawError 0)) m s Hm Logic.I) as (r & s' & ? & _).
    by exists r, s'. }
  constructor; cbn; auto.
  intros n s Hn. exact (resolved_as_returns _ (inr (RawError 0)) _ s (Lr n s Hn) Logic.I).
Qed.

Section adapter.
Context {P : Primitives} {S : Type} `{IStream S}.

(** * SecretHandshake *)

(** The object's [_handshake] pointer, and the stream it is given. *)
Record run := MkRun { r_hs : option Handshake; r_raw : option S }.

Definition set_hs v (x : run) := MkRun v (r_raw x).
Definition set_raw v (x : run) := MkRun (r_hs x) v.

Definition SecretHandshake (c : Context) (serverKey : option bytes) (ephemeral : bytes) : Handshake :=
  match serverKey with
  | Some pk => ClientHandshake c pk ephemeral
  | None => ServerHandshake c ephemeral
  end.

(** A call through [_handshake->]. *)
Definition on_hs {A} (m : M Handshake A) : M run A := λ x,
  match r_hs x with
  | None => (Fault NullDeref, x)
  | Some h => let '(r, h') := m h in (r, set_hs (Some h') x)
  end.

(** A call through [stream->]. *)
Definition on_raw {A} (m : M S A) : M run A := λ x,
  match r_raw x with
  | None => (Fault NullDeref, x)
  | Some s => let '(r, s') := m s in (r, set_raw (Some s') x)
  end.

(** [dynamic_cast<ServerHandshake&>( *_handshake).setClientAuthorizer(auth)] *)
Definition hs_setClientAuthorizer (auth : bytes → bool) : M run unit := λ x,
  match r_hs x with
  | None => (Fault NullDeref, x)
  | Some h =>
      match h_kind h with
      | Client => (Fault BadCast, x)
      | Server _ => (Ok tt, set_hs (Some (setClientAuthorizer auth h)) x)
      end
  end.

(** The body of the [do] loop: its two halves. *)
Definition hs_send : M run (unit + error) :=
  toSend ← on_hs bytesToSend;
  if 0 <? len toSend then
    await (on_raw (s_write toSend)) (λ _, plain (on_hs sendCompleted))
  else ret tt.

Definition hs_receive : M run (unit + error) :=
  sizeToRead ← on_hs bytesToRead;
  if 0 <? sizeToRead then
    await (on_raw (s_read sizeToRead)) (λ b,
      on_hs (fillInput b);;
      if len b =? sizeToRead then on_hs readCompleted;; ret tt
      else plain (on_hs readFailed))
  else ret tt.

Definition hs_round : M run (unit + error) := await hs_send (λ _, hs_receive).

(** The condition of the loop. *)
Definition hs_goes_on (h : Handshake) : bool := negb (finished h) && bool_decide (_error h = NoError).

Fixpoint hs_loop (fuel : nat) : M run (unit + error) :=
  match fuel with
  | O => throw OutOfFuel
  | Datatypes.S fuel =>
      await hs_round (λ _,
        h ← on_hs get;
        if hs_goes_on h then hs_loop fuel else ret tt)
  end.

Definition hs_rounds : nat := 3.

(** The end of [handshake]: the error, or the session. *)
Definition hs_result : M run (Session + error) :=
  h ← on_hs get;
  if bool_decide (_error h ≠ NoError) then
    modify (set_hs None);; mret (inr (SecretHandshakeError (Error_val (_error h))))
  else
    s ← on_hs session;
    modify (set_hs None);; ret s.

(** Its beginning. *)
Definition hs_begin : M run (unit + error) :=
  x ← get;
  assert_ (bool_decide (is_Some (r_raw x)));;
  open ← on_raw (gets s_isOpen);
  if open : bool then ret tt else on_raw s_open.

Definition hs_handshake : M run (Session + error) :=
  await hs_begin (λ _, await (hs_loop hs_rounds) (λ _, hs_result)).

(** * SecretHandshakeStream *)

(** [SecretHandshakeStreamDelegate]; its notifications are counted. *)
Record Delegate := MkDelegate { authorizeSecretHandshake : bytes → bool }.

Record SecretHandshakeStream := MkStreamObj {
  _stream : option S;
  _handshake : option Handshake;
  _delegate : option Delegate;
  _peerPublicKey : bytes;
  _writer : option EncryptionStream;
  _reader : option DecryptionStream;
  _lastReadSize : Z;
  _lastWriteSize : Z;
  _open : bool;
  closedNotifications : nat;
}.

Definition set_run (r : run) x := MkStreamObj (r_raw r) (r_hs r) (_delegate x)
  (_peerPublicKey x) (_writer x) (_reader x) (_lastReadSize x) (_lastWriteSize x) (_open x)
  (closedNotifications x).
Definition set_opened (s : Session) x := MkStreamObj (_stream x) (_handshake x) (_delegate x)
  (peerPublicKey s)
  (Some (EncryptionStream_of_session s Compact))
  (Some (DecryptionStream_of_session s Compact))
  (_lastReadSize x) (_lastWriteSize x) true (closedNotifications x).
Definition set_open v x := MkStreamObj (_stream x) (_handshake x) (_delegate x)
  (_peerPublicKey x) (_writer x) (_reader x) (_lastReadSize x) (_lastWriteSize x) v
  (closedNotifications x).
Definition set_stream v x := MkStreamObj v (_handshake x) (_delegate x)
  (_peerPublicKey x) (_writer x) (_reader x) (_lastReadSize x) (_lastWriteSize x) (_open x)
  (closedNotifications x).
Definition set_writer v x := MkStreamObj (_stream x) (_handshake x) (_delegate x)
  (_peerPublicKey x) v (_reader x) (_lastReadSize x) (_lastWriteSize x) (_open x)
  (closedNotifications x).
Definition set_reader v x := MkStreamObj (_stream x) (_handshake x) (_delegate x)
  (_peerPublicKey x) (_writer x) v (_lastReadSize x) (_lastWriteSize x) (_open x)
  (closedNotifications x).
Definition set_lastReadSize v x := MkStreamObj (_stream x) (_handshake x) (_delegate x)
  (_peerPublicKey x) (_writer x) (_reader x) v (_lastWriteSize x) (_open x)
  (closedNotifications x).
Definition set_lastWriteSize v x := MkStreamObj (_stream x) (_handshake x) (_delegate x)
  (_peerPublicKey x) (_writer x) (_reader x) (_lastReadSize x) v (_open x)
  (closedNotifications x).
Definition set_notified x := MkStreamObj (_stream x) (_handshake x) (_delegate x)
  (_peerPublicKey x) (_writer x) (_reader x) (_lastReadSize x) (_lastWriteSize x) (_open x)
  (Datatypes.S (closedNotifications x)).

Definition SecretHandshakeStream_init (stream : option S) (c : Context)
    (serverKey : option bytes) (ephemeral : bytes) : SecretHandshakeStream :=
  MkStreamObj stream (Some (SecretHandshake c serverKey ephemeral)) None [] None None 0 0 false 0.

Definition setDelegate (d : option Delegate) (x : SecretHandshakeStream) : SecretHandshakeStream :=
  MkStreamObj (_stream x) (_handshake x) d (_peerPublicKey x) (_writer x) (_reader x)
    (_lastReadSize x) (_lastWriteSize x) (_open x) (closedNotifications x).

Definition isOpen (x : SecretHandshakeStream) : bool := _open x.

Definition on_run {A} (m : M run A) : M SecretHandshakeStream A :=
  zoom (λ x, MkRun (_handshake x) (_stream x)) set_run m.

(** Calls through [_writer->] and [_reader->]. *)
Definition on_writer {A} (m : M EncryptionStream A) : M SecretHandshakeStream A := λ x,
  match _writer x with
  | None => (Fault NullDeref, x)
  | Some w => let '(r, w') := m w in (r, set_writer (Some w') x)
  end.
Definition on_reader {A} (m : M DecryptionStream A) : M SecretHandshakeStream A := λ x,
  match _reader x with
  | None => (Fault NullDeref, x)
  | Some w => let '(r, w') := m w in (r, set_reader (Some w') x)
  end.

Definition notifyClosed : M SecretHandshakeStream unit :=
  x ← get; match _delegate x with Some _ => modify set_notified | None => mret tt end.

(** [open]: the delegate becomes the handshake's authorizer; [open_finish] is
    what happens after the handshake. *)
Definition open_authorizer : M SecretHandshakeStream unit :=
  x ← get;
  match _delegate x with
  | Some d => on_run (hs_setClientAuthorizer (authorizeSecretHandshake d))
  | None => mret tt
  end.

Definition open_finish (session : Session + error) : M SecretHandshakeStream (unit + error) :=
  match session with
  | inl s => modify (set_opened s);; ret tt
  | inr e => await (on_run (on_raw s_close)) (λ _, notifyClosed;; mret (inr e))
  end.

Definition stream_open : M SecretHandshakeStream (unit + error) :=
  open_authorizer;;
  session ← on_run hs_handshake;
  open_finish session.

(** [peerPublicKey()] with its precondition. *)
Definition stream_peerPublicKey : M SecretHandshakeStream bytes :=
  x ← get; assert_ (_open x);; mret (_peerPublicKey x).

Definition stream_close : M SecretHandshakeStream (unit + error) :=
  modify (set_open false);;
  x ← get;
  if bool_decide (_stream x = None) then ret tt
  else
    result ← on_run (on_raw s_close);
    notifyClosed;;
    mret result.

Definition stream_closeWrite : M SecretHandshakeStream (unit + error) :=
  x ← get;
  assert_ (bool_decide (is_Some (_stream x)));;
  on_run (on_raw s_closeWrite).

(** The [while] loop of [peekNoCopy]: a turn of it, with its condition and the
    return after it, gives a result or goes on. *)
Definition peek_turn : M SecretHandshakeStream (option bytes + error) :=
  available ← on_reader (on_ds (gets bytesAvailable));
  if available =? 0 then
    await (on_run (on_raw s_readNoCopy)) (λ encBytes,
      if bool_decide (encBytes = []) then
        ok ← on_reader dec_close;
        if ok : bool then ret (Some []) else stream_close;; mret (inr DataError)
      else
        ok ← on_reader (dec_push encBytes);
        if ok : bool then ret None else stream_close;; mret (inr DataError))
  else b ← on_reader (on_ds (gets availableData)); ret (Some b).

Fixpoint peek_loop (fuel : nat) : M SecretHandshakeStream (bytes + error) :=
  match fuel with
  | O => throw OutOfFuel
  | Datatypes.S fuel =>
      await peek_turn (λ o, match o with Some b => ret b | None => peek_loop fuel end)
  end.

(** What comes before the loop. *)
Definition peek_begin : M SecretHandshakeStream (unit + error) :=
  x ← get;
  if negb (_open x) then mret (inr InvalidState)
  else
    if 0 <? _lastReadSize x then
      on_reader (on_ds (skip (_lastReadSize x)));; modify (set_lastReadSize 0);; ret tt
    else ret tt.

Definition peekNoCopy (fuel : nat) : M SecretHandshakeStream (bytes + error) :=
  await peek_begin (λ _, peek_loop fuel).

(** The rest of [readNoCopy]. *)
Definition read_done (maxLen : Z) (b : bytes) : M SecretHandshakeStream (bytes + error) :=
  let b := ztake maxLen b in
  modify (set_lastReadSize (len b));;
  ret b.

Definition readNoCopy (fuel : nat) (maxLen : Z) : M SecretHandshakeStream (bytes + error) :=
  await (peekNoCopy fuel) (read_done maxLen).

Definition stream_write (buffers : list bytes) : M SecretHandshakeStream (unit + error) :=
  x ← get;
  on_writer (on_es (skip (_lastWriteSize x)));;
  modify (set_lastWriteSize 0);;
  x ← get;
  if negb (_open x) then mret (inr InvalidState)
  else
    on_writer (push_parts buffers);;
    on_writer flush;;
    encBytes ← on_writer (on_es (gets availableData));
    modify (set_lastWriteSize (len encBytes));;
    on_run (on_raw (s_write encBytes)).

(** [write(ConstBytes)] *)
Definition stream_write_bytes (b : bytes) : M SecretHandshakeStream (unit + error) := stream_write [b].

(** * SecretHandshakeSocket *)

(** A new socket: a client stream without a raw stream. *)
Definition SecretHandshakeSocket_init (c : Context) (serverKey ephemeral : bytes)
  : SecretHandshakeStream :=
  SecretHandshakeStream_init None c (Some serverKey) ephemeral.

(** [stream()]: the raw stream of a new TCP socket, [tcp], is set on first
    use. *)
Definition socket_stream (tcp : S) : M SecretHandshakeStream unit :=
  x ← get; if bool_decide (_stream x = None) then modify (set_stream (Some tcp)) else mret tt.

Definition socket_open (tcp : S) : M SecretHandshakeStream (unit + error) :=
  socket_stream tcp;; stream_open.

End adapter.

(** * Runs of the handshake *)

(** Rounds of the loop that remain. *)
Definition rounds_left (h : Handshake) : nat :=
  match h_kind h, _step h with
  | _, Failed | _, Finished => 0
  | Client, ClientChallenge | Client, ServerChallenge => 2
  | Client, ClientAuth | Client, ServerAck => 1
  | Server _, ClientChallenge => 3
  | Server _, ServerChallenge | Server _, ClientAuth => 2
  | Server _, ServerAck => 1
  end.

Section runs.
Context {P : Primitives} {PL : PrimitivesLaws P} {S : Type} `{SL : IStreamResolves S}.
Implicit Types (h : Handshake) (s : S).

Lemma on_hs_run {A} (m : M Handshake A) h s r h' :
  m h = (r, h') → on_hs m (MkRun (Some h) (Some s)) = (r, MkRun (Some h') (Some s)).
Proof. unfold on_hs. cbn. by intros ->. Qed.

Lemma on_raw_run {A} (m : M S A) (o : option Handshake) s r s' :
  m s = (r, s') → on_raw m (MkRun o (Some s)) = (r, MkRun o (Some s')).
Proof. unfold on_raw. cbn. by intros ->. Qed.

(** The second half of a round. *)
Lemma round_read h s :
  settled h → _step h ≠ Failed →
  ∃ r h' s',
    hs_receive (MkRun (Some h) (Some s)) = (Ok r, MkRun (Some h') (Some s')) ∧
    rtc api_step h h' ∧ h_kind h' = h_kind h ∧
    match r with
    | inl _ => settled h' ∧
        (_step h' = Failed ∨
         _step h' = if 0 <? byteCountNeeded h then Step_of (Step_val (_step h) + 1) else _step h)
    | inr _ => True
    end.
Proof.
  intros Hset Hf. unfold hs_receive. pose proof (needed_nonneg h) as Hnn.
  destruct (decide (byteCountNeeded h = 0)) as [Hz|Hz].
  { set (h1 := set_inputBuffer (vec_resize (byteCountNeeded h) (_inputBuffer h)) h).
    destruct (call_step h CallBytesToRead (Ok tt) h1 (settled_inv h Hset) I eq_refl) as (Hr & Hi & _).
    rewrite (bind_Ok _ _ _ _ _ (on_hs_run bytesToRead h s (Ok (byteCountNeeded h)) h1 eq_refl)).
    rewrite Hz. eexists _, h1, s. split; [done|]. split_and!; try done; [|by right].
    constructor; [done|]. apply (settled_out h Hset). }
  destruct (s_read_returns (byteCountNeeded h) s Hnn) as (r & s' & Hrd & Hlen).
  destruct r as [b|e].
  - destruct (read_turn h b Hset ltac:(lia) Hlen)
      as (h1 & h2 & Hb & Hfill & _ & _ & _ & Hdone & Hfail).
    rewrite (bind_Ok _ _ _ _ _ (on_hs_run _ h s _ _ Hb)). ztest.
    rewrite (await_inl _ _ _ _ _ (on_raw_run _ (Some h1) s _ _ Hrd)).
    rewrite (bind_Ok _ _ _ _ _ (on_hs_run _ h1 s' _ _ Hfill)).
    destruct (len b =? byteCountNeeded h) eqn:E; zbool.
    + destruct (Hdone E) as (ok & h3 & Hc & Hs3 & Hr & Hk & Hst).
      rewrite (bind_Ok _ _ _ _ _ (on_hs_run _ h2 s' _ _ Hc)).
      eexists _, h3, s'. split; [done|]. split_and!; try done. destruct ok; [by right|by left].
    + destruct Hfail as (h3 & Hc & Hs3 & Hr & Hst).
      rewrite (plain_run _ _ _ _ (on_hs_run _ h2 s' _ _ Hc)).
      eexists _, h3, s'. split; [done|]. split_and!; [done| |done|by left].
      destruct (api_steps_inv h h3 (settled_inv h Hset) Hr) as (_ & (Hk & _) & _). done.
  - destruct (read_turn h [] Hset ltac:(lia) ltac:(cbn; lia)) as (h1 & _ & Hb & _ & Hr & _).
    rewrite (bind_Ok _ _ _ _ _ (on_hs_run _ h s _ _ Hb)). ztest.
    rewrite (await_inr _ _ _ _ _ (on_raw_run _ (Some h1) s _ _ Hrd)).
    eexists _, h1, s'. split; [done|]. split_and!; try done.
    destruct (api_steps_inv h h1 (settled_inv h Hset) Hr) as (_ & (Hk & _) & _). done.
Qed.

(** The first half. *)
Lemma round_send h s :
  settled h → _step h ≠ Failed →
  ∃ r h' s', hs_send (MkRun (Some h) (Some s)) = (Ok r, MkRun (Some h') (Some s')) ∧
    rtc api_step h h' ∧ h_kind h' = h_kind h ∧
    match r with
    | inl _ => settled h' ∧ _step h' = if sending h then Step_of (Step_val (_step h) + 1) else _step h
    | inr _ => True
    end.
Proof.
  intros Hset Hf. unfold hs_send. destruct (sending h) eqn:Hs.
  - destruct (send_turn h Hset Hs) as (b & h1 & Hb & Hne & Hc & Hset2 & Hr1 & Hr2 & Hi1 & Hk & Hst).
    rewrite (bind_Ok _ _ _ _ _ (on_hs_run _ h s _ _ Hb)).
    assert (0 < len b) by (destruct b; [done|len_lia]). ztest.
    destruct (s_write_returns b s) as ([u|e] & s1 & Hw).
    2: { rewrite (await_inr _ _ _ _ _ (on_raw_run _ (Some h1) s _ _ Hw)). eexists _, h1, s1.
         by split_and!. }
    rewrite (await_inl _ _ _ _ _ (on_raw_run _ (Some h1) s _ _ Hw)).
    erewrite plain_run by (by apply on_hs_run). by eexists _, (sent h1), s1.
  - destruct (idle_calls h 0 Hs (settled_out h Hset) Hf) as (Hb & _).
    rewrite (bind_Ok _ _ _ _ _ (on_hs_run _ h s _ _ Hb)). by eexists _, h, s.
Qed.

(** Each round brings the loop closer to its end. *)
Lemma round_spec h s :
  settled h → (0 < rounds_left h)%nat →
  ∃ r h' s', hs_round (MkRun (Some h) (Some s)) = (Ok r, MkRun (Some h') (Some s')) ∧
    rtc api_step h h' ∧
    match r with
    | inl _ => settled h' ∧ (rounds_left h' < rounds_left h)%nat
    | inr _ => True
    end.
Proof.
  intros Hset Hrl. unfold hs_round.
  assert (_step h ≠ Failed ∧ _step h ≠ Finished) as [Hf Hf'].
  { unfold rounds_left in Hrl. split; intros E; rewrite E in Hrl; destruct (h_kind h); lia. }
  destruct (round_send h s Hset Hf) as ([u|e] & h1 & s1 & Hsend & Hr1 & Hk & Hst).
  2: { rewrite (await_inr _ _ _ _ _ Hsend). by eexists _, h1, s1. }
  rewrite (await_inl _ _ _ _ _ Hsend). destruct Hst as [Hset1 Hst].
  destruct (round_read h1 s1 Hset1) as (r & h' & s' & Hrun & Hr3 & Hk' & Hpost).
  { rewrite Hst. by destruct h as [[] ? [] ? ? ? ?]. }
  rewrite Hrun. eexists _, h', s'. split; [done|]. split; [by etrans|].
  destruct r as [v|e]; [|done]. destruct Hpost as [? Hst']. split; [done|].
  unfold rounds_left, byteCountNeeded, client_byteCountNeeded, server_byteCountNeeded in *.
  rewrite Hk', Hk in *. rewrite Hst in *.
  destruct h as [[|f] ctx [] err i ib ob]; cbn in *; try done;
    destruct Hst' as [Hs'|Hs']; rewrite Hs' in *; vm_compute; lia.
Qed.

Lemma loop_spec fuel h s :
  settled h → (0 < rounds_left h <= fuel)%nat →
  ∃ r h' s', hs_loop fuel (MkRun (Some h) (Some s)) = (Ok r, MkRun (Some h') (Some s')) ∧
    rtc api_step h h' ∧
    match r with
    | inl _ => settled h' ∧ (_step h' = Failed ∨ _step h' = Finished)
    | inr _ => True
    end.
Proof.
  revert h s. induction fuel as [|fuel IH]; intros h s Hset Hrl; [lia|]. cbn [hs_loop].
  destruct (round_spec h s Hset) as ([u|e] & h1 & s1 & Hrun & Hr & Hpost); [lia| |].
  2: { rewrite (await_inr _ _ _ _ _ Hrun). by eexists _, h1, s1. }
  rewrite (await_inl _ _ _ _ _ Hrun). destruct Hpost as [Hset1 Hlt].
  rewrite (bind_Ok _ _ _ _ _ (on_hs_run get h1 s1 _ _ eq_refl)).
  pose proof (inv_error h1 (settled_inv h1 Hset1)) as He. unfold hs_goes_on, finished.
  case_bool_decide as Hfin; cbn [negb andb].
  { eexists _, h1, s1. split; [done|]. auto. }
  case_bool_decide as Herr.
  - destruct (IH h1 s1 Hset1) as (r & h' & s' & Hl & Hr' & Hpost).
    { split; [|lia]. apply He in Herr. unfold rounds_left.
      destruct (h_kind h1), (_step h1); try done; lia. }
    eexists _, h', s'. split; [done|]. split; [by etrans|done].
  - eexists _, h1, s1. split; [done|]. split; [done|]. split; [done|]. left.
    destruct (decide (_step h1 = Failed)); [done|]. by destruct Herr; apply He.
Qed.

(** The whole handshake. *)
Definition handshake_post (h0 : Handshake) (r : Session + error) (o : option Handshake) : Prop :=
  ∃ h', rtc api_step h0 h' ∧
  match r with
  | inl sess => _step h' = Finished ∧ session h' = (Ok sess, h') ∧ o = None
  | inr e =>
      (_step h' = Failed ∧ e = SecretHandshakeError (Error_val (_error h')) ∧ o = None) ∨
      o = Some h'
  end.

Lemma handshake_spec h s :
  settled h → (0 < rounds_left h)%nat →
  ∃ r o s', hs_handshake (MkRun (Some h) (Some s)) = (Ok r, MkRun o (Some s')) ∧
    handshake_post h r o.
Proof.
  intros Hset Hrl. unfold hs_handshake.
  assert (∃ r s1, hs_begin (MkRun (Some h) (Some s)) = (Ok r, MkRun (Some h) (Some s1)))
    as (r & s1 & Hopen).
  { unfold hs_begin. rewrite bind_get. cbn [r_raw].
    rewrite bool_decide_eq_true_2 by done. rewrite (bind_Ok (assert_ true) _ _ tt _ eq_refl).
    rewrite (bind_Ok _ _ _ _ _ (on_raw_run (gets s_isOpen) (Some h) s _ _ eq_refl)).
    destruct (s_isOpen s); [by eexists _, s|].
    destruct (s_open_returns s) as (r & s1 & Ho). exists r, s1. by apply on_raw_run. }
  destruct r as [u|e].
  2: { rewrite (await_inr _ _ _ _ _ Hopen). eexists _, _, s1. split; [done|].
       exists h. split; [done|]. by right. }
  rewrite (await_inl _ _ _ _ _ Hopen).
  destruct (loop_spec hs_rounds h s1 Hset) as ([v|e] & h' & s' & Hl & Hr & Hpost).
  { split; [done|]. unfold rounds_left, hs_rounds. destruct (h_kind h), (_step h); lia. }
  2: { rewrite (await_inr _ _ _ _ _ Hl). eexists _, _, s'. split; [done|].
       exists h'. split; [done|]. by right. }
  rewrite (await_inl _ _ _ _ _ Hl). destruct Hpost as [Hset' Hst]. unfold hs_result.
  rewrite (bind_Ok _ _ _ _ _ (on_hs_run get h' s' _ _ eq_refl)).
  pose proof (inv_error h' (settled_inv h' Hset')) as He. case_bool_decide as Herr.
  - rewrite bind_modify. eexists _, None, s'. split; [done|].
    exists h'. split; [done|]. left. split_and!; try done. destruct Hst as [|Hst]; [done|].
    destruct Herr. apply He. by rewrite Hst.
  - assert (_error h' = NoError) as Hne by (by destruct (_error h'); try done; destruct Herr).
    apply He in Hne. destruct Hst as [|Hst]; [done|].
    destruct (session_of_finished h' (settled_inv h' Hset') Hst) as [sess Hs].
    rewrite (bind_Ok _ _ _ _ _ (on_hs_run session h' s' _ _ Hs)).
    rewrite bind_modify. eexists _, None, s'. split; [done|].
    by exists h'.
Qed.

Lemma fresh_settled c sk e :
  let h := SecretHandshake c sk e in settled h ∧ (0 < rounds_left h)%nat ∧ initial h.
Proof.
  assert (initial (SecretHandshake c sk e)) as Hi by (destruct sk; constructor).
  cbv zeta. split; [|split]; [|destruct sk; cbn; lia|done].
  constructor; [by apply initial_inv|by destruct sk].
Qed.

End runs.

(** * Properties of an open stream *)

Section streams.
Context {P : Primitives} {PL : PrimitivesLaws P} {S : Type} `{SL : IStreamResolves S}.
Implicit Types (x : @SecretHandshakeStream S) (s : S).

Lemma on_writer_run {A} (m : M EncryptionStream A) x w r w' :
  _writer x = Some w → m w = (r, w') → on_writer m x = (r, set_writer (Some w') x).
Proof. unfold on_writer. by intros -> ->. Qed.

Lemma on_reader_run {A} (m : M DecryptionStream A) x w r w' :
  _reader x = Some w → m w = (r, w') → on_reader m x = (r, set_reader (Some w') x).
Proof. unfold on_reader. by intros -> ->. Qed.

Lemma on_stream_run {A} (m : M S A) x s r s' :
  _stream x = Some s → m s = (r, s') → on_run (on_raw m) x = (r, set_stream (Some s') x).
Proof.
  intros Hs Hm. destruct x. cbn in Hs. subst. unfold on_run, zoom, on_raw. cbn. by rewrite Hm.
Qed.

(** The writer of an open stream between two calls: what is in its buffer has
    been handed to the raw stream by the last [write]. *)
Definition writer_ok x (b : CryptoBox) : Prop :=
  ∃ w ready, _writer x = Some w ∧ enc_view w b ready [] ∧ _lastWriteSize x = len ready.

Lemma stream_write_run x s b buffers :
  writer_ok x b → _open x = true → _stream x = Some s →
  let ms := push_messages (concat buffers) in
  ∃ r x', stream_write buffers x = (Ok r, x') ∧
    (s_write (box_seal b ms) s).1 = Ok r ∧ _stream x' = Some (s_write (box_seal b ms) s).2 ∧
    writer_ok x' (box_after b (length ms)) ∧ _open x' = true ∧ _reader x' = _reader x ∧
    _lastReadSize x' = _lastReadSize x ∧ _peerPublicKey x' = _peerPublicKey x.
Proof.
  intros (w & ready & Hw & (Hb & Hv & Hmax) & Hl) Ho Hs ms. unfold stream_write.
  rewrite bind_get.
  destruct (skip_run (es w) ready [] (_lastWriteSize x) Hv ltac:(lia)) as (c' & Hsk & Hv').
  assert (on_es (skip (_lastWriteSize x)) w
          = (Ok (Z.min (_lastWriteSize x) (len ready)), MkEnc c' (_encryptor w))) as Hsk'
    by (unfold on_es, zoom; by rewrite Hsk).
  rewrite (bind_Ok _ _ _ _ _ (on_writer_run _ x _ _ _ Hw Hsk')).
  rewrite bind_modify, bind_get.
  cbn [_open set_lastWriteSize set_writer]. rewrite Ho. cbn [negb].
  rewrite zdrop_all in Hv' by lia.
  assert (enc_view (MkEnc c' (_encryptor w)) b [] []) as Hv1 by (by split_and!).
  destruct (push_parts_flush buffers _ b [] Hv1) as (w1 & w2 & Hp & Hf & Hv2).
  cbv zeta in Hv2. fold ms in Hv2. cbn [app] in Hv2.
  erewrite bind_Ok; [|eapply on_writer_run; [reflexivity|exact Hp]].
  erewrite bind_Ok; [|eapply on_writer_run; [reflexivity|exact Hf]].
  assert (on_es (gets availableData) w2 = (Ok (box_seal b ms), w2)) as Hav.
  { unfold on_es, zoom, gets. destruct Hv2 as (_ & Hv2 & _).
    rewrite (view_available _ _ _ Hv2). by destruct w2. }
  erewrite bind_Ok; [|eapply on_writer_run; [reflexivity|exact Hav]].
  rewrite bind_modify.
  destruct (s_write_returns (box_seal b ms) s) as (r & s' & Hws).
  erewrite on_stream_run; [|exact Hs|exact Hws]. rewrite Hws. eexists r, _. split; [done|].
  split_and!; try done. by exists w2, (box_seal b ms).
Qed.

(** ** Reading *)

(** A sequence of reads of the raw stream. *)
Inductive raw_reads : S → list bytes → S → Prop :=
| raw_reads_nil s : raw_reads s [] s
| raw_reads_cons s c s1 cs s2 :
    s_readNoCopy s = (Ok (inl c), s1) → raw_reads s1 cs s2 → raw_reads s (c :: cs) s2.

(** [received] are all bytes the stream has taken from the raw stream, [got]
    all bytes its reads have returned: [got] is followed by what the next read
    returns, and both together are the messages accepted in [received]. What
    is left of [received] is not yet a whole message. *)
Definition reader_ok x (b : CryptoBox) (received got : bytes) : Prop :=
  ∃ r msgs rest avail, _reader x = Some r ∧ accepts b received msgs rest ∧
    box_front (box_after b (length msgs)) rest = IncompleteInput ∧
    dec_view r (box_after b (length msgs)) avail rest ∧
    0 <= _lastReadSize x <= len avail ∧ concat msgs = got ++ zdrop (_lastReadSize x) avail.

Lemma reader_ok_clean x b received got : reader_ok x b received got → ¬ corrupted b received.
Proof.
  intros (r & msgs & rest & avail & _ & Ha & Hf & _) (msgs' & rest' & Ha' & Hf').
  destruct (accepts_unique b received msgs rest msgs' rest') as [-> ->]; congruence.
Qed.

Lemma stream_close_run x s :
  _stream x = Some s →
  ∃ r x', stream_close x = (Ok r, x') ∧ _open x' = false ∧ is_Some (_stream x').
Proof.
  intros Hs. unfold stream_close. rewrite bind_modify.
  rewrite bind_get. cbn [_stream set_open].
  rewrite bool_decide_eq_false_2 by (by rewrite Hs).
  destruct (s_close_returns s) as (r & s' & Hc).
  rewrite (bind_Ok _ _ _ _ _ (on_stream_run _ (set_open false x) s _ _ Hs Hc)).
  unfold notifyClosed. destruct (_delegate x) eqn:Ed; mrun; rewrite Ed; cbn; eauto 10.
Qed.

(** The raw stream ends, or fails, after at most [k] more reads. *)
Inductive ends_within : nat → S → Prop :=
| ends_eof k s s' : s_readNoCopy s = (Ok (inl []), s') → ends_within k s
| ends_error k s s' e : s_readNoCopy s = (Ok (inr e), s') → ends_within k s
| ends_more k s c s' :
    s_readNoCopy s = (Ok (inl c), s') → c ≠ [] → ends_within k s' →
    ends_within (Datatypes.S k) s.

(** The chunks [cs] of the raw stream after [received] are bad: some message
    does not authenticate, or the stream has ended inside of one. *)
Definition bad_data (b : CryptoBox) (received : bytes) (cs : list bytes) : Prop :=
  corrupted b (received ++ concat cs) ∨
  truncated b (received ++ concat cs) ∧ last cs = Some [].

(** What a peek or a read has done: it took the chunks [cs] from the raw
    stream; bad data close the stream, and nothing else does. When [n] bytes
    were asked for it returns some, unless the stream has ended. *)
Definition read_post x s (b : CryptoBox) (received got : bytes) (n : Z)
    (r : bytes + error) x' : Prop :=
  ∃ cs s', raw_reads s cs s' ∧
  match r with
  | inl bs =>
      reader_ok x' b (received ++ concat cs) (got ++ ztake (_lastReadSize x') bs) ∧
      ¬ bad_data b received cs ∧ (bs = [] → n = 0 ∨ last cs = Some []) ∧
      _stream x' = Some s' ∧ _open x' = true ∧ _writer x' = _writer x ∧
      _lastWriteSize x' = _lastWriteSize x
  | inr e =>
      _open x' = false ∧ e = DataError ∧ bad_data b received cs ∨
      _open x' = true ∧ ¬ bad_data b received cs ∧ ∃ s'', s_readNoCopy s' = (Ok (inr e), s'')
  end.

(** Data is not bad while the stream goes on and nothing has failed. *)
Lemma good_data x b received cs got :
  reader_ok x b (received ++ concat cs) got → last cs ≠ Some [] → ¬ bad_data b received cs.
Proof. intros Hok Hl [Hc|[_ ?]]; [|done]. by eapply reader_ok_clean. Qed.

(** Nor at an end of the stream with nothing left over. *)
Lemma good_end b received cs msgs :
  accepts b (received ++ concat cs) msgs [] → ¬ bad_data b received cs.
Proof.
  intros Ha. assert (box_front (box_after b (length msgs)) [] = IncompleteInput) as Hf
    by (unfold box_front, Wire.front; by destruct (_protocol _)).
  intros [(msgs' & rest' & Ha' & Hf')|[(msgs' & rest' & Ha' & Hf' & Hr) _]];
    (destruct (accepts_unique _ _ msgs [] msgs' rest' Ha) as [-> <-]; congruence).
Qed.

Lemma bad_data_cons b received c cs :
  cs ≠ [] ∨ c ≠ [] → bad_data b received (c :: cs) ↔ bad_data b (received ++ c) cs.
Proof.
  intros Hc. unfold bad_data. cbn [concat]. rewrite app_assoc.
  assert (last (c :: cs) = Some [] ↔ last cs = Some []) as Hl.
  { destruct cs as [|c' cs]; [|by rewrite last_cons_cons]. cbn. split; [|done].
    intros [= ->]. by destruct Hc. }
  by rewrite Hl.
Qed.

Lemma raw_reads_1 s c s1 : s_readNoCopy s = (Ok (inl c), s1) → raw_reads s [c] s1.
Proof. intros Hr. apply (raw_reads_cons s c s1 [] s1 Hr). constructor. Qed.

Lemma data_error x s :
  _stream x = Some s →
  ∃ x', (stream_close;; mret (inr DataError : bytes + error)) x = (Ok (inr DataError), x') ∧
    _open x' = false.
Proof.
  intros Hs. destruct (stream_close_run x s Hs) as (r & x' & Hc & Ho & _).
  exists x'. by rewrite (bind_Ok _ _ _ _ _ Hc).
Qed.

Lemma available_run x r :
  _reader x = Some r →
  on_reader (on_ds (gets bytesAvailable)) x = (Ok (_processedBytes (ds r)), x) ∧
  on_reader (on_ds (gets availableData)) x = (Ok (availableData (ds r)), x).
Proof.
  intros Hr. destruct x; cbn in Hr; subst. unfold on_reader, on_ds, zoom, gets. cbn.
  by destruct r.
Qed.

(** A turn of the loop in place. *)
Lemma peek_loop_unfold fuel x :
  peek_loop (Datatypes.S fuel) x =
  (available ← on_reader (on_ds (gets bytesAvailable));
   if available =? 0 then
     await (on_run (on_raw s_readNoCopy)) (λ encBytes,
       if bool_decide (encBytes = []) then
         ok ← on_reader dec_close;
         if ok : bool then ret [] else stream_close;; mret (inr DataError)
       else
         ok ← on_reader (dec_push encBytes);
         if ok : bool then peek_loop fuel else stream_close;; mret (inr DataError))
   else plain (on_reader (on_ds (gets availableData)))) x.
Proof.
  cbn [peek_loop]. unfold peek_turn. rewrite await_bind. apply bind_ext. intros n x1.
  destruct (n =? 0); [|by rewrite await_bind]. rewrite await_await. apply await_ext. intros c x2.
  case_bool_decide; rewrite await_bind; apply bind_ext; intros [] x3; try done;
    by rewrite await_bind.
Qed.

(** The reader after it has been given more bytes. *)
Lemma reader_pushed x b received got rd' msgs ms rest rest' c s :
  accepts b received msgs rest → accepts (box_after b (length msgs)) (rest ++ c) ms rest' →
  box_front (box_after (box_after b (length msgs)) (length ms)) rest' = IncompleteInput →
  dec_view rd' (box_after (box_after b (length msgs)) (length ms)) (concat ms) rest' →
  got = concat msgs → _lastReadSize x = 0 →
  reader_ok (set_reader (Some rd') (set_stream (Some s) x)) b (received ++ c) got.
Proof.
  intros Hacc Hacc2 Hfr Hdv -> Hlast. exists rd', (msgs ++ ms), rest', (concat ms).
  split_and!; try done; cbn; try lia.
  - by eapply accepts_app.
  - by rewrite length_app, <-box_after_after.
  - by rewrite length_app, <-box_after_after.
  - by rewrite Hlast, concat_app.
Qed.

(** With the last read's bytes dropped, the loop returns all that is
    available, or reads until something is. *)
Lemma peek_loop_spec k fuel x s b received got :
  reader_ok x b received got → _lastReadSize x = 0 → _stream x = Some s → _open x = true →
  ends_within k s → (k < fuel)%nat →
  ∃ r x', peek_loop fuel x = (Ok r, x') ∧ read_post x s b received got 1 r x' ∧
    match r with
    | inl bs => _lastReadSize x' = 0 ∧ ∃ rd, _reader x' = Some rd ∧ bs = availableData (ds rd)
    | inr _ => True
    end.
Proof.
  revert k x s received. induction fuel as [|fuel IH];
    intros k x s received Hok Hlast Hs Ho Hend Hf; [lia|].
  pose proof Hok as (rd & msgs & rest & avail & Hrd & Hacc & Hfr & Hdv & Hlr & Hc).
  pose proof Hdv as (Hbox & Hv). destruct (available_run x rd Hrd) as (Hav & Had).
  rewrite peek_loop_unfold, (bind_Ok _ _ _ _ _ Hav).
  destruct (_processedBytes (ds rd) =? 0) eqn:E; zbool.
  2: { rewrite (plain_run _ _ _ _ Had). eexists _, x. split; [done|]. split; [|by eauto].
       assert (reader_ok x b (received ++ concat []) got) as Hok' by (cbn [concat]; by rewrite app_nil_r).
       exists [], s. split; [constructor|]. pose proof (good_data x b received [] got Hok' ltac:(done)).
       rewrite Hlast, take_0, (app_nil_r got).
       assert (availableData (ds rd) ≠ []).
       { rewrite (view_available _ _ _ Hv). destruct Hv as [_ Hp]. intros ->. by rewrite Hp in E. }
       by split_and!. }
  assert (avail = []) as ->.
  { destruct Hv as [_ Hp]. rewrite E in Hp. destruct avail; [done|len_lia]. }
  inversion Hend as [? ? s1 Hread|? ? s1 e Hread|k' ? c s1 Hread Hne Hend']; subst.
  - (* end of the stream *)
    rewrite (await_inl _ _ _ _ _ (on_stream_run _ _ s _ _ Hs Hread)).
    rewrite bool_decide_eq_true_2 by done.
    destruct (dec_close_run rd _ _ _ Hdv) as (rd' & Hcl & Hdv').
    erewrite bind_Ok; [|eapply on_reader_run; [exact Hrd|exact Hcl]].
    case_bool_decide as Hrest.
    + subst rest. eexists _, _. split; [done|]. split.
      2: { split; [done|]. exists rd'. by rewrite (view_available _ _ _ (proj2 Hdv')). }
      exists [[]], s1. split; [by apply raw_reads_1|].
      assert (accepts b (received ++ concat [[]]) msgs []) as Hacc' by (cbn; by rewrite app_nil_r).
      pose proof (good_end b received [[]] msgs Hacc'). split_and!; try done; [|by right].
      exists rd', msgs, [], [].
      rewrite drop_nil, app_nil_r in Hc. cbn [_lastReadSize set_reader set_stream]. rewrite Hlast.
      cbn [Z.to_nat take drop]. rewrite !app_nil_r. by split_and!.
    + destruct (data_error (set_reader (Some rd') (set_stream (Some s1) x)) s1 eq_refl)
        as (x' & -> & Hcl').
      eexists _, x'. split; [done|]. split; [|done].
      exists [[]], s1. split; [by apply raw_reads_1|]. left. split; [done|]. split; [done|]. right.
      split; [|done]. exists msgs, rest. cbn [concat]. by rewrite !app_nil_r.
  - rewrite (await_inr _ _ _ _ _ (on_stream_run _ _ s _ _ Hs Hread)).
    eexists _, _. split; [done|]. split; [|done].
    exists [], s. split; [constructor|]. right. split; [done|]. split; [|by eauto].
    apply (good_data x b received [] got); [cbn [concat]; by rewrite app_nil_r|done].
  - rewrite (await_inl _ _ _ _ _ (on_stream_run _ _ s _ _ Hs Hread)).
    rewrite bool_decide_eq_false_2 by done.
    destruct (dec_push_run c rd _ _ _ Hdv) as (ok & rd' & ms2 & rest2 & rest3 & Hp & Hacc2 & Hdv2 & _ & Hrest & Hfr2).
    erewrite bind_Ok; [|eapply on_reader_run; [exact Hrd|exact Hp]].
    set (x1 := set_reader (Some rd') (set_stream (Some s1) x)). destruct ok.
    + rewrite Hrest in Hdv2 by done.
      assert (reader_ok x1 b (received ++ c) got) as Hok1.
      { eapply reader_pushed; try done. by rewrite Hc, drop_nil, app_nil_r. }
      destruct (IH k' x1 s1 _ Hok1 Hlast eq_refl Ho Hend' ltac:(lia))
        as (r & x' & Hl & (cs & s' & Hrs & Hpost) & Hr).
      exists r, x'. split; [done|]. split; [|done]. exists (c :: cs), s'.
      split; [by econstructor|]. pose proof (bad_data_cons b received c cs (or_intror Hne)) as Hbad.
      cbn [concat]. rewrite app_assoc. destruct r as [bs|e]; rewrite Hbad; [|done].
      destruct Hpost as (? & ? & Hnil & ?). split; [done|split; [done|split; [|done]]]. intros Hbs.
      destruct (Hnil Hbs) as [|Hl']; [done|right]. destruct cs; [done|]. by rewrite last_cons_cons.
    + destruct (data_error x1 s1 eq_refl) as (x' & -> & Hcl').
      eexists _, x'. split; [done|]. split; [|done].
      exists [c], s1. split; [by apply raw_reads_1|]. left. split; [done|]. split; [done|]. left.
      exists (msgs ++ ms2), rest2. cbn [concat]. rewrite app_nil_r.
      split; [by eapply accepts_app|]. by rewrite length_app, <-box_after_after.
Qed.

Lemma peek_spec k fuel x s b received got :
  reader_ok x b received got → _stream x = Some s → _open x = true →
  ends_within k s → (k < fuel)%nat →
  ∃ r x', peekNoCopy fuel x = (Ok r, x') ∧ read_post x s b received got 1 r x' ∧
    match r with
    | inl bs => _lastReadSize x' = 0 ∧ ∃ rd, _reader x' = Some rd ∧ bs = availableData (ds rd)
    | inr _ => True
    end.
Proof.
  intros Hok Hs Ho Hend Hf. unfold peekNoCopy, peek_begin. rewrite await_bind, bind_get, Ho.
  cbn [negb]. destruct (0 <? _lastReadSize x) eqn:E; zbool.
  2: { rewrite (await_inl (ret tt) _ x tt x eq_refl).
       destruct Hok as (rd & msgs & rest & avail & Hrd & Hacc & Hfr & Hdv & Hlr & Hc).
       apply (peek_loop_spec k); try done; [|lia]. by exists rd, msgs, rest, avail. }
  destruct Hok as (rd & msgs & rest & avail & Hrd & Hacc & Hfr & (Hbox & Hv) & Hlr & Hc).
  destruct (skip_run (ds rd) avail rest (_lastReadSize x) Hv ltac:(lia)) as (c' & Hsk & Hv').
  set (rd' := MkDec c' (_decryptor rd)).
  set (x1 := set_lastReadSize 0 (set_reader (Some rd') x)).
  rewrite (await_inl _ _ _ tt x1).
  2: { assert (on_ds (skip (_lastReadSize x)) rd
         = (Ok (Z.min (_lastReadSize x) (len avail)), rd')) as Hsk'
         by (unfold on_ds, zoom; by rewrite Hsk).
       by rewrite (bind_Ok _ _ _ _ _ (on_reader_run _ x rd _ _ Hrd Hsk')). }
  apply (peek_loop_spec k fuel x1 s b received got); try done.
  exists rd', msgs, rest, (zdrop (_lastReadSize x) avail). split_and!; try done.
  cbn. lia.
Qed.

Lemma read_spec k fuel x s b received got n :
  reader_ok x b received got → _stream x = Some s → _open x = true → 0 <= n →
  ends_within k s → (k < fuel)%nat →
  ∃ r x', readNoCopy fuel n x = (Ok r, x') ∧ read_post x s b received got n r x' ∧
    ∀ bs, r = inl bs → _lastReadSize x' = len bs ∧ len bs <= n.
Proof.
  intros Hok Hs Ho Hn Hend Hf.
  destruct (peek_spec k fuel x s b received got Hok Hs Ho Hend Hf)
    as ([bs|e] & x1 & Hp & (cs & s' & Hrs & Hpost) & Hbs); unfold readNoCopy.
  2: { rewrite (await_inr _ _ _ _ _ Hp). eexists _, x1. split; [done|].
       split; [by exists cs, s'|]. done. }
  rewrite (await_inl _ _ _ _ _ Hp). unfold read_done. rewrite bind_modify.
  destruct Hbs as (Hl & rd & Hrd & ->). rewrite Hl in Hpost.
  destruct Hpost as ((rd' & msgs & rest & avail & Hrd' & Hacc & Hfr & (Hbox & Hv) & _ & Hc) & Hpost).
  rewrite Hrd in Hrd'. injection Hrd' as <-. rewrite (view_available _ _ _ Hv) in *.
  eexists _, _. split; [done|]. split; [|intros bs [= <-]; cbn; split; [done|len_lia]].
  exists cs, s'. split; [done|]. destruct Hpost as (? & Hnil & ?). split.
  2: { split; [done|split; [|done]]. intros Hbs. destruct (decide (n = 0)) as [|Hn0]; [by left|right].
       destruct avail as [|c avail]; [by destruct (Hnil eq_refl)|].
       by destruct (Z.to_nat n) eqn:En; [lia|]. }
  cbn [_lastReadSize set_lastReadSize].
  rewrite (ztake_all (ztake n avail)) by done. exists rd, msgs, rest, avail.
  cbn [_lastReadSize set_lastReadSize]. split_and!; try done; [lia|rewrite length_take; lia|].
  rewrite Hl in Hc. cbn in Hc. rewrite app_nil_r in Hc. rewrite Hc, <-app_assoc. f_equal.
  rewrite <-zdrop_ztake by done. rewrite take_drop. done.
Qed.

(** ** Opening *)

(** The handshake object that [open] runs. *)
Definition opening_handshake (c : Context) (serverKey : option bytes) (e : bytes)
    (d : option Delegate) : Handshake :=
  match d with
  | Some d => setClientAuthorizer (authorizeSecretHandshake d) (SecretHandshake c serverKey e)
  | None => SecretHandshake c serverKey e
  end.

Lemma stream_open_run c serverKey e d s :
  (d ≠ None → serverKey = None) →
  let h0 := opening_handshake c serverKey e d in
  ∃ r x', stream_open (setDelegate d (SecretHandshakeStream_init (Some s) c serverKey e)) = (Ok r, x') ∧
    match r with
    | inl _ => ∃ h sess, rtc api_step h0 h ∧ _step h = Finished ∧ session h = (Ok sess, h) ∧
        _open x' = true ∧ _peerPublicKey x' = peerPublicKey sess ∧
        writer_ok x' (EncryptoBox_of_session sess Compact) ∧
        reader_ok x' (DecryptoBox_of_session sess Compact) [] []
    | inr _ => _open x' = false ∧ _writer x' = None ∧ _reader x' = None
    end.
Proof.
  intros Hd h0. set (x := setDelegate _ _).
  set (x1 := set_run (MkRun (Some h0) (Some s)) x).
  assert (settled h0 ∧ (0 < rounds_left h0)%nat) as [Hset Hrl].
  { destruct (fresh_settled c serverKey e) as (Hset & Hrl & _). unfold h0, opening_handshake.
    destruct d as [d|]; [|done]. rewrite (Hd ltac:(done)).
    split; [|cbn; lia]. constructor; [|done]. apply initial_inv. constructor. }
  assert ((match _delegate x with
           | Some d => on_run (hs_setClientAuthorizer (authorizeSecretHandshake d))
           | None => mret tt
           end) x = (Ok tt, x1)) as Hauth.
  { unfold x, x1, h0, opening_handshake. destruct d as [d|]; [|done]. by rewrite (Hd ltac:(done)). }
  unfold stream_open, open_authorizer. rewrite bind_bind, bind_get, (bind_Ok _ _ _ _ _ Hauth).
  destruct (handshake_spec h0 s Hset Hrl) as (r & o & s' & Hrun & h' & Hr & Hpost).
  rewrite (bind_Ok _ _ x1 r (set_run (MkRun o (Some s')) x1)).
  2: { unfold on_run, zoom. cbn [_handshake _stream x1 set_run r_hs r_raw]. by rewrite Hrun. }
  destruct r as [sess|er].
  - destruct Hpost as (Hfin & Hsess & ->). eexists _, _. split; [done|].
    exists h', sess. split_and!; try done.
    + by eexists _, []; split_and!.
    + eexists _, [], [], []. split_and!; try done. constructor.
  - cbn [open_finish]. destruct (s_close_returns s') as ([u|e'] & s2 & Hc).
    + erewrite await_inl; [|eapply on_stream_run; [reflexivity|exact Hc]].
      unfold notifyClosed. mrun. destruct d; cbn; eexists _, _; split; done.
    + erewrite await_inr; [|eapply on_stream_run; [reflexivity|exact Hc]].
      by eexists _, _.
Qed.

End streams.

(** * A scripted raw stream *)

(** Reads return the chunks of a script, writes are recorded. *)
Module Script.
Record script := MkScript { incoming : list bytes; outgoing : bytes; is_open : bool }.

Definition take_bytes (n : Z) : M script (bytes + error) := λ s,
  let all := concat (incoming s) in
  (Ok (inl (ztake n all)), MkScript [zdrop n all] (outgoing s) (is_open s)).

#[export] Instance script_stream : IStream script := {|
  s_isOpen := is_open;
  s_open := λ s, (Ok (inl tt), MkScript (incoming s) (outgoing s) true);
  s_close := λ s, (Ok (inl tt), MkScript (incoming s) (outgoing s) false);
  s_closeWrite := λ s, (Ok (inl tt), s);
  s_read := take_bytes;
  s_readNoCopy := λ s,
    match incoming s with
    | [] => (Ok (inl []), s)
    | c :: cs => (Ok (inl c), MkScript cs (outgoing s) (is_open s))
    end;
  s_write b := λ s, (Ok (inl tt), MkScript (incoming s) (outgoing s ++ b) (is_open s));
|}.

#[export] Instance script_laws : IStreamResolves script.
Proof.
  constructor; try (intros; by eexists _, _).
  - intros s. cbn. destruct (incoming s); by eexists _, _.
  - intros n s Hn. eexists _, _. split; [reflexivity|]. cbn beta iota. rewrite length_take. lia.
Qed.
End Script.

(** * Streams that may not complete *)

Section pending.
Context {P : Primitives} {S : Type} (K : IStream S).

Lemma on_raw_pending {A} (m m' : M S A) : same_or_pending m m' → same_or_pending (on_raw m) (on_raw m').
Proof.
  intros Hm x. unfold on_raw. destruct (r_raw x) as [s|]; [|by right].
  destruct (Hm s) as [Hp| ->]; [|by right]. destruct (m s). by left.
Qed.

Ltac pend := repeat first
  [ apply pending_refl
  | apply on_raw_pending, pending_resolved
  | apply pending_zoom
  | apply pending_bind; [|intros ?]
  | apply pending_await; [|intros ?]
  | case_match ].

Lemma hs_loop_pending fuel : same_or_pending (hs_loop (H := K) fuel) (hs_loop (H := failing K) fuel).
Proof.
  induction fuel as [|fuel IH]; [apply pending_refl|]. cbn [hs_loop].
  apply pending_await; [unfold hs_round, hs_send, hs_receive; pend|]. intros _.
  apply pending_bind; [apply pending_refl|]. intros h. destruct (hs_goes_on h); [apply IH|apply pending_refl].
Qed.

Lemma stream_open_pending : same_or_pending (stream_open (H := K)) (stream_open (H := failing K)).
Proof.
  unfold stream_open, open_finish, on_run. apply pending_bind; [apply pending_refl|]. intros _.
  apply pending_bind; [|intros r; pend]. apply pending_zoom. unfold hs_handshake.
  apply pending_await; [unfold hs_begin; pend|]. intros _.
  apply pending_await; [apply hs_loop_pending|]. intros _. apply pending_refl.
Qed.
End pending.

(** * Properties *)

Section pending_properties.
Context {P : Primitives} {PL : PrimitivesLaws P} {S : Type} `{SL : IStreamLaws S}.

(** C27: [open] of a new stream. A client stream with a delegate throws
    [bad_cast]: the delegate is made the authorizer of a server. Otherwise
    [open] returns, or it waits for an operation of the raw stream that does
    not complete. When it returns without an error the stream is open, with
    the keys and the peer of a finished handshake, whose authorizer was the
    delegate; on an error it stays closed and has no keys. When the operations
    of the raw stream complete, so does [open]. *)
Theorem open_result c serverKey e d (s : S) :
  let x0 := setDelegate d (SecretHandshakeStream_init (Some s) c serverKey e) in
  let h0 := opening_handshake c serverKey e d in
  match d, serverKey with
  | Some _, Some _ => (stream_open x0).1 = Fault BadCast
  | _, _ =>
      ((stream_open x0).1 = Fault Unresolved ∨
       ∃ r x', stream_open x0 = (Ok r, x') ∧
        match r with
        | inl _ => ∃ h sess, rtc api_step h0 h ∧ _step h = Finished ∧ session h = (Ok sess, h) ∧
            _open x' = true ∧ _peerPublicKey x' = peerPublicKey sess ∧
            writer_ok x' (EncryptoBox_of_session sess Compact) ∧
            reader_ok x' (DecryptoBox_of_session sess Compact) [] []
        | inr _ => _open x' = false ∧ _writer x' = None ∧ _reader x' = None
        end) ∧
      (IStreamResolves S → (stream_open x0).1 ≠ Fault Unresolved)
  end.
Proof.
  intros x0 h0. destruct d as [d|]; [destruct serverKey as [pk|]; [reflexivity|]|].
  all: split;
    [destruct (stream_open_pending H x0) as [Hp|Hp]; [by left|right]; rewrite Hp;
     pose proof (failing_resolves H SL) as SR; by apply (stream_open_run (H := failing H))
    |intros SR].
  - destruct (stream_open_run c None e (Some d) s ltac:(done)) as (r & x' & Hr & _). unfold x0. by rewrite Hr.
  - destruct (stream_open_run c serverKey e None s ltac:(done)) as (r & x' & Hr & _). unfold x0. by rewrite Hr.
Qed.
End pending_properties.

Section properties.
Context {P : Primitives} {PL : PrimitivesLaws P} {S : Type} `{SL : IStreamResolves S}.

(** The handshake coroutine returns, whatever the raw stream does, and
    its loop takes at most three rounds. A session is returned only by a
    handshake that has finished, reached by calls of its interface; a failed
    handshake is reported with its error code; any other error is the
    stream's. The handshake object is released in the first two cases. *)
Theorem handshake_returns c serverKey e (s : S) :
  let h0 := SecretHandshake c serverKey e in
  ∃ r o s', hs_handshake (MkRun (Some h0) (Some s)) = (Ok r, MkRun o (Some s')) ∧
    ∃ h', rtc api_step h0 h' ∧
    match r with
    | inl sess => _step h' = Finished ∧ session h' = (Ok sess, h') ∧ o = None
    | inr er =>
        (_step h' = Failed ∧ er = SecretHandshakeError (Error_val (_error h')) ∧ o = None) ∨
        o = Some h'
    end.
Proof. intros h0. destruct (fresh_settled c serverKey e) as (? & ? & _). by apply handshake_spec. Qed.

(** The errors that the adapter itself reports have a description. *)
Lemma errors_described h :
  inv h → _step h = Failed →
  (∃ name, error_description (Error_val (_error h)) = Ok name ∧ name ≠ EmptyString) ∧
  error_description 3 = Ok "data error"%string.
Proof.
  intros Hi Hf. split; [|done]. pose proof (inv_error h Hi) as He.
  destruct (_error h); [|by eexists..]. by destruct (proj1 He eq_refl).
Qed.

(** A socket that is opened runs the handshake of its client stream over the
    TCP stream it has made. *)
Lemma socket_open_fresh c serverKey e (tcp : S) :
  socket_open tcp (SecretHandshakeSocket_init c serverKey e)
  = stream_open (SecretHandshakeStream_init (Some tcp) c (Some serverKey) e).
Proof. reflexivity. Qed.

(** A client stream with a delegate cannot be opened: [open] casts the
    handshake to a server handshake, which throws. *)
Lemma open_delegate_client c pk e d (s : S) :
  (stream_open (setDelegate (Some d) (SecretHandshakeStream_init (Some s) c (Some pk) e))).1
  = Fault BadCast.
Proof. reflexivity. Qed.

(** [write] of a list of buffers to an open stream hands to the raw
    stream exactly the messages that the concatenated buffers are cut into,
    sealed under the current nonce, and returns the raw stream's result.
    Bytes of earlier writes are not sent again. *)
Theorem write_seals (x : @SecretHandshakeStream S) s b buffers :
  writer_ok x b → _open x = true → _stream x = Some s →
  let ms := push_messages (concat buffers) in
  ∃ r x', stream_write buffers x = (Ok r, x') ∧
    (s_write (box_seal b ms) s).1 = Ok r ∧ _stream x' = Some (s_write (box_seal b ms) s).2 ∧
    writer_ok x' (box_after b (length ms)) ∧ _open x' = true ∧ _reader x' = _reader x.
Proof.
  intros Hw Ho Hs ms.
  destruct (stream_write_run x s b buffers Hw Ho Hs) as (r & x' & ? & ? & ? & ? & ? & ? & _).
  exists r, x'. by split_and!.
Qed.

(** [write] on a stream that was never opened dereferences a null
    pointer, although it means to return [InvalidState]. *)
Lemma write_before_open c serverKey e buffers (s : S) :
  (stream_write buffers (SecretHandshakeStream_init (Some s) c serverKey e)).1 = Fault NullDeref.
Proof. reflexivity. Qed.

(** Over a hostile network (Attack.v) what the reads of a stream have returned
    comes from messages that the peer sealed, or there is a forgery. *)
Lemma read_attacked (x : @SecretHandshakeStream S) b received got sent :
  reader_ok x b received got →
  forged b sent received ∨
  ∃ kept, kept `sublist_of` sent ∧ got `prefix_of` concat kept ∧
    (_protocol b = BoxStream → kept `prefix_of` sent).
Proof. intros (r & msgs & rest & avail & _ & Ha & _ & _ & _ & Hc). by eapply accepted_reads. Qed.

(** C28: [readNoCopy] returns when the raw stream has ended or failed within
    [k] more reads. What the reads of a stream have returned, in order, is
    always a prefix of the messages accepted in the bytes received so far:
    nothing is lost, repeated or reordered, whatever the sizes asked for, and
    no bytes are returned only at the end of the stream. The read reports
    [DataError] and closes the stream exactly when the bytes it took from the
    raw stream are bad: a message in them does not authenticate, or the stream
    has ended inside a message. (An empty message of the compact protocol
    counts as accepted, authentic or not.) Any other error is the raw
    stream's. *)
Theorem read_in_order k fuel (x : @SecretHandshakeStream S) s b received got n :
  reader_ok x b received got → _stream x = Some s → _open x = true → 0 <= n →
  ends_within k s → (k < fuel)%nat →
  ∃ r x' cs s', readNoCopy fuel n x = (Ok r, x') ∧ raw_reads s cs s' ∧
    (corrupted b (received ++ concat cs) ∨
       truncated b (received ++ concat cs) ∧ last cs = Some []
     ↔ r = inr DataError ∧ _open x' = false) ∧
    match r with
    | inl bs => reader_ok x' b (received ++ concat cs) (got ++ bs) ∧ len bs <= n ∧
        (bs = [] → n = 0 ∨ last cs = Some []) ∧ _stream x' = Some s' ∧ _open x' = true
    | inr e => e = DataError ∧ _open x' = false ∨
        _open x' = true ∧ ∃ s'', s_readNoCopy s' = (Ok (inr e), s'')
    end.
Proof.
  intros Hok Hs Ho Hn Hend Hf.
  destruct (read_spec k fuel x s b received got n Hok Hs Ho Hn Hend Hf)
    as (r & x' & Hr & (cs & s' & Hrs & Hpost) & Hl).
  exists r, x', cs, s'. split; [done|]. split; [done|]. fold (bad_data b received cs).
  destruct r as [bs|e].
  - destruct (Hl bs eq_refl) as [Hl1 Hl2]. rewrite Hl1, ztake_all in Hpost by lia.
    destruct Hpost as (? & Hg & ? & ? & Ho' & _). split; [naive_solver|]. by split_and!.
  - destruct Hpost as [(Ho' & -> & Hb)|(Ho' & Hg & He)]; [naive_solver|]. split; [|by right].
    split; [done|]. intros [_ ?]. congruence.
Qed.

End properties.

(** * Witnesses *)

(** A client stream over a scripted server, with the toy primitives. *)
Module Demo.
Import Toy Script Handshake.Demo.
Definition peer : script := MkScript [m2 ++ m4] [] false.
Definition b0 : CryptoBox := MkBox (replicate 32 x07) zero_nonce Compact.

(** An open stream whose peer sends one message in two parts. *)
Definition traffic : bytes := Eval vm_compute in box_seal b0 [[x68; x69]].
Definition raw : script := MkScript [take 9 traffic; drop 9 traffic] [] true.
Definition open_stream : @SecretHandshakeStream script :=
  MkStreamObj (Some raw) None None [] (Some (MkEnc (MkStream [] 0) b0))
    (Some (MkDec (MkStream [] 0) b0)) 0 0 true 0.

Lemma handshake_returns_witness :
  ∃ r o s', hs_handshake (MkRun (Some client0) (Some peer)) = (Ok r, MkRun o (Some s')).
Proof.
  destruct (handshake_returns cctx (Some serverKey) (replicate 32 x61) peer) as (r & o & s' & H & _).
  exists r, o, s'. exact H.
Defined.

Lemma open_result_witness :
  ∃ r x', stream_open (setDelegate None
      (SecretHandshakeStream_init (Some peer) cctx (Some serverKey) (replicate 32 x61))) = (Ok r, x') ∧
    _open x' = true ∧ _peerPublicKey x' = serverKey.
Proof.
  pose proof (open_result cctx (Some serverKey) (replicate 32 x61) None peer) as H. cbv zeta in H.
  set (x0 := setDelegate _ _) in *.
  assert (match stream_open x0 with
          | (Ok (inl _), x') => _open x' && bool_decide (_peerPublicKey x' = serverKey)
          | _ => false
          end = true) as Hrun by (vm_compute; reflexivity).
  destruct H as [[Hp|(r & x' & Hr & _)] _].
  - destruct (stream_open x0) as [r x']. cbn in Hp. subst r. discriminate Hrun.
  - rewrite Hr in Hrun. exists r, x'. split; [exact Hr|]. destruct r as [u|er]; [|discriminate Hrun].
    apply andb_true_iff in Hrun as [Ho Hk]. apply bool_decide_eq_true in Hk. by split.
Defined.

Lemma write_seals_witness :
  ∃ r x', stream_write [[x68]; [x69]] open_stream = (Ok r, x') ∧
    _stream x' = Some (MkScript [take 9 traffic; drop 9 traffic] traffic true).
Proof.
  destruct (write_seals open_stream raw b0 [[x68]; [x69]]) as (r & x' & H & _ & Hs & _).
  - eexists _, []. repeat split. discriminate.
  - reflexivity.
  - reflexivity.
  - exists r, x'. split; [exact H|]. rewrite Hs. vm_compute. reflexivity.
Defined.

Lemma script_reads (s : script) cs s' :
  raw_reads s cs s' → concat cs ++ concat (incoming s') = concat (incoming s).
Proof.
  induction 1 as [s|s c s1 cs s2 Hr _ IH]; [done|]. cbn [concat]. rewrite <-app_assoc, IH.
  cbn in Hr. by destruct (incoming s) as [|c' cs'] eqn:E; injection Hr as <- <-; rewrite ?E.
Qed.

Lemma read_in_order_witness :
  ∃ r x', readNoCopy 3 100 open_stream = (Ok r, x') ∧ r = inl [x68; x69] ∧
    reader_ok x' b0 traffic [x68; x69].
Proof.
  destruct (read_in_order 2 3 open_stream raw b0 [] [] 100)
    as (r & x' & cs & s' & Hr & Hrs & _ & Hpost); try reflexivity.
  - eexists _, [], [], []. repeat split; try constructor; discriminate.
  - discriminate.
  - apply (ends_more 1 raw (take 9 traffic) (MkScript [drop 9 traffic] [] true)); [reflexivity|discriminate|].
    apply (ends_more 0 _ (drop 9 traffic) (MkScript [] [] true)); [reflexivity|discriminate|].
    eapply ends_eof. reflexivity.
  - lia.
  - assert ((readNoCopy 3 100 open_stream).1 = Ok (inl [x68; x69])) as Hd by (vm_compute; reflexivity).
    rewrite Hr in Hd. injection Hd as ->. exists (inl [x68; x69]), x'. split; [exact Hr|].
    split; [reflexivity|]. destruct Hpost as (Hok & _ & _ & Hst & _).
    assert (_stream x' = Some (MkScript [] [] true)) as Hst'.
    { replace x' with (readNoCopy 3 100 open_stream).2 by (rewrite Hr; reflexivity).
      vm_compute. reflexivity. }
    rewrite Hst in Hst'. injection Hst' as ->.
    pose proof (script_reads _ _ _ Hrs) as Hall. cbn [incoming concat] in Hall.
    rewrite app_nil_r in Hall. rewrite Hall in Hok. exact Hok.
Defined.

(** The same stream with its first message spoiled. *)
Definition spoiled : bytes := take 2 traffic ++ replicate 18 x2a.
Definition bad_stream : @SecretHandshakeStream script :=
  set_stream (Some (MkScript [spoiled] [] true)) open_stream.

Lemma read_corrupt_example : (readNoCopy 3 100 bad_stream).1 = Ok (inr DataError).
Proof. vm_compute. reflexivity. Qed.
End Demo.
