(* ===== verification/Connection.v ===== *)
(** The Cap'n Proto adapter: [WrappedStream] and the stream wrappers of
    capnproto/SecretConnection.cc and .hh.

    The inner stream is a [kj::AsyncIoStream], whose code is not part of the
    repository: the class [AsyncIoStream] has the operations the adapter
    calls, and [AsyncIoStreamLaws] what kj documents of them. A promise
    resolves to a value or to an exception, or it stays pending: an operation
    whose promise does not resolve, such as a read from a silent peer, is the
    outcome [Unresolved], and so is all that waits for it.
    [AsyncIoStreamResolves] is a stream whose operations do resolve. A
    continuation runs when the promise it is attached to has resolved. The
    application makes one write at a time and one read at a time, as the kj
    interface demands.

    [run_turn] is the body of [runHandshake], up to the next call of itself;
    Wrapper.v interleaves these turns with timers and other connections.

    The theorems: the handshake ends after at most five turns unless the
    inner stream leaves it waiting, and a stream is connected only with the session of a
    finished handshake whose peer was authorized; writes send exactly the
    sealed messages and leave nothing behind; reads return at least the
    minimum asked for, in order, until the inner stream ends. *)
From Stdlib Require Import ZArith Lia Strings.Byte.
From stdpp Require Import base list numbers option tactics relations strings.
From S2P Require Import Prelude Crypto Shs Handshake Pieces Driver Boxes Streams Attack.

Open Scope Z_scope.

(** The exceptions a promise can be rejected with: the two disconnections of
    [runHandshake], the timeout of [wrap], the corrupt-data error of
    [tryRead], a failed [KJ_REQUIRE_NONNULL], and those of the inner stream and
    of other kj operations. *)
Inductive exception :=
| UnauthorizedClientKey
| FailedToConnect
| HandshakeTimedOut
| CorruptInputData
| RequireNonNull
| InnerException (code : Z).

(** * The inner stream *)

Class AsyncIoStream (T : Type) := {
  k_write : bytes → M T (unit + exception);
  (** [read(buffer, n)]: the bytes read *)
  k_read : Z → M T (bytes + exception);
  (** [tryRead(buffer, minBytes, maxBytes)]: fewer bytes at the end *)
  k_tryRead : Z → Z → M T (bytes + exception);
  k_shutdownWrite : T → T;
  k_abortRead : T → T;
  (** [getpeername]: the address, or an exception when the stream is not a
      socket or not connected any more *)
  k_getpeername : M T (bytes + exception);
}.

(** [read] reads exactly what it is asked for, or is rejected; [tryRead]
    stores no more than fits; any of them, and [write], may stay pending.
    [getpeername] is not asynchronous. *)
Class AsyncIoStreamLaws (T : Type) `{AsyncIoStream T} := {
  k_write_settles b t : settles (λ _, True) (k_write b t).1;
  k_read_settles n t : 0 <= n →
    settles (λ r, match r with inl b => len b = n | inr _ => True end) (k_read n t).1;
  k_tryRead_settles n m t : 0 <= m →
    settles (λ r, match r with inl b => len b <= m | inr _ => True end) (k_tryRead n m t).1;
  k_getpeername_always t : ∃ r t', k_getpeername t = (Ok r, t');
}.

(** A stream whose operations resolve. *)
Class AsyncIoStreamResolves (T : Type) `{AsyncIoStream T} := {
  k_write_returns b t : ∃ r t', k_write b t = (Ok r, t');
  k_read_returns n t : 0 <= n → ∃ r t', k_read n t = (Ok r, t') ∧
    match r with inl b => len b = n | inr _ => True end;
  k_tryRead_returns n m t : 0 <= m → ∃ r t', k_tryRead n m t = (Ok r, t') ∧
    match r with inl b => len b <= m | inr _ => True end;
  k_getpeername_returns t : ∃ r t', k_getpeername t = (Ok r, t');
}.

#[export] Instance resolves_laws `{AsyncIoStreamResolves T} : AsyncIoStreamLaws T.
Proof.
  constructor.
  - intros b t. by destruct (k_write_returns b t) as (r & t' & ->).
  - intros n t Hn. by destruct (k_read_returns n t Hn) as (r & t' & -> & ?).
  - intros n m t Hm. by destruct (k_tryRead_returns n m t Hm) as (r & t' & -> & ?).
  - apply k_getpeername_returns.
Qed.

(** A stream that rejects what would stay pending. *)
Definition rejecting {T} (K : AsyncIoStream T) : AsyncIoStream T := {|
  k_write b := resolved_as (inr (InnerException 0)) (k_write b);
  k_read n := resolved_as (inr (InnerException 0)) (k_read n);
  k_tryRead n m := resolved_as (inr (InnerException 0)) (k_tryRead n m);
  k_shutdownWrite := k_shutdownWrite;
  k_abortRead := k_abortRead;
  k_getpeername := k_getpeername;
|}.

Lemma rejecting_resolves {T} (K : AsyncIoStream T) :
  AsyncIoStreamLaws T → @AsyncIoStreamResolves T (rejecting K).
Proof.
  intros [Lw Lr Lt Lp]. pose (no := InnerException 0). constructor; cbn.
  - intros b t. destruct (resolved_as_returns _ (inr no) _ t (Lw b t) I) as (r & t' & Hr & _).
    by exists r, t'.
  - intros n t Hn. exact (resolved_as_returns _ (inr no) _ t (Lr n t Hn) I).
  - intros n m t Hm. exact (resolved_as_returns _ (inr no) _ t (Lt n m t Hm) I).
  - exact Lp.
Qed.

(** The other operations of a socket, which the adapter only passes on. *)
Class Socket (T : Type) := {
  k_whenWriteDisconnected : M T (unit + exception);
  k_getsockopt : Z → Z → M T bytes;
  k_setsockopt : Z → Z → bytes → M T unit;
  k_getsockname : M T bytes;
  k_getFd : T → option Z;
}.

(** [sockaddr_in6], as Linux lays it out: the family in the first two bytes,
    and [sin6_addr] after the port and the flow label. *)
Definition sizeof_sockaddr_in6 : Z := 28.
Definition AF_INET : Z := 2.
Definition AF_INET6 : Z := 10.
Definition sin6_family (addr : bytes) : Z :=
  match addr with lo :: hi :: _ => b2z lo + 256 * b2z hi | _ => 0 end.
Definition sin6_addr (addr : bytes) : bytes := ztake 16 (zdrop 8 addr).

(** [getPeerName(stream)], from the address that [getpeername] gave: it fills
    the start of [addr], whose other bytes are what was on the stack. [ntop4]
    and [ntop6] are the textual forms that [inet_ntop] makes; for another
    family it fails and the name stays empty. *)
Definition peer_name (ntop4 ntop6 : bytes → bytes) (stack peer : bytes) : bytes :=
  let addr := ztake sizeof_sockaddr_in6 (ztake sizeof_sockaddr_in6 peer ++ zdrop (len peer) stack) in
  if sin6_family addr =? AF_INET then ntop4 (ztake 4 (sin6_addr addr))
  else if sin6_family addr =? AF_INET6 then ntop6 (sin6_addr addr)
  else [].

(** [SHSPeerIdentity]: the peer's key and the inner stream's own
    [kj::PeerIdentity]. *)
Record SHSPeerIdentity (I : Type) := MkIdentity { publicKey_of : bytes; inner_of : I }.
Arguments MkIdentity {I}.
Arguments publicKey_of {I}.
Arguments inner_of {I}.

Definition SHSPeerIdentity_toString {I} (i : SHSPeerIdentity I) : string := "(public key)".

(** [sockaddr_in], the address of an IPv4 peer, which is shorter: the port, the
    four bytes of the address and padding. *)
Definition sockaddr_in (port addr : bytes) : bytes := [x02; x00] ++ port ++ addr ++ replicate 8 x00.

(** [getPeerName] looks for the address where [sockaddr_in6] has it, which is
    in the padding of a [sockaddr_in]: all IPv4 peers have the same name. *)
Lemma ipv4_peers_look_alike ntop4 ntop6 stack port addr :
  length port = 2%nat → length addr = 4%nat →
  peer_name ntop4 ntop6 stack (sockaddr_in port addr) = ntop4 (replicate 4 x00).
Proof.
  intros Hp Ha. destruct port as [|p1 [|p2 []]]; try done.
  destruct addr as [|a1 [|a2 [|a3 [|a4 []]]]]; try done.
Qed.

Section adapter.
Context {P : Primitives} {T : Type} `{AsyncIoStream T}.

(** * WrappedStream *)

Record WrappedStream := MkWrapped {
  w_handshake : option Handshake;
  w_authorizer : option (bytes → bool);
  w_inner : T;
  w_session : option Session;
  w_encryptor : option EncryptionStream;
  w_decryptor : option DecryptionStream;
  w_isSocket : bool;
}.

Definition set_whandshake v x := MkWrapped v (w_authorizer x) (w_inner x) (w_session x)
  (w_encryptor x) (w_decryptor x) (w_isSocket x).
Definition set_inner v x := MkWrapped (w_handshake x) (w_authorizer x) v (w_session x)
  (w_encryptor x) (w_decryptor x) (w_isSocket x).
Definition set_encryptor v x := MkWrapped (w_handshake x) (w_authorizer x) (w_inner x)
  (w_session x) v (w_decryptor x) (w_isSocket x).
Definition set_decryptor v x := MkWrapped (w_handshake x) (w_authorizer x) (w_inner x)
  (w_session x) (w_encryptor x) v (w_isSocket x).
Definition set_connected (s : Session) x := MkWrapped (w_handshake x) (w_authorizer x) (w_inner x)
  (Some s)
  (Some (EncryptionStream_init (encryptionKey s) (encryptionNonce s) Compact))
  (Some (DecryptionStream_init (decryptionKey s) (decryptionNonce s) Compact))
  (w_isSocket x).

Definition WrappedStream_init (inner : T) (h : Handshake) (auth : option (bytes → bool))
    (isSocket : bool) :=
  MkWrapped (Some h) auth inner None None None isSocket.

Definition on_handshake {A} (m : M Handshake A) : M WrappedStream A := λ x,
  match w_handshake x with
  | None => (Fault NullDeref, x)
  | Some h => let '(r, h') := m h in (r, set_whandshake (Some h') x)
  end.

Definition on_inner {A} (m : M T A) : M WrappedStream A := zoom w_inner set_inner m.

(** [KJ_REQUIRE_NONNULL(_encryptor).m(...)] *)
Definition on_encryptor_ {A} (m : M EncryptionStream A) : M WrappedStream (A + exception) := λ x,
  match w_encryptor x with
  | None => (Ok (inr RequireNonNull), x)
  | Some w => match m w with
              | (Ok a, w') => (Ok (inl a), set_encryptor (Some w') x)
              | (Fault f, w') => (Fault f, set_encryptor (Some w') x)
              end
  end.
Definition on_decryptor_ {A} (m : M DecryptionStream A) : M WrappedStream (A + exception) := λ x,
  match w_decryptor x with
  | None => (Ok (inr RequireNonNull), x)
  | Some w => match m w with
              | (Ok a, w') => (Ok (inl a), set_decryptor (Some w') x)
              | (Fault f, w') => (Fault f, set_decryptor (Some w') x)
              end
  end.

Definition getpeername : M WrappedStream (bytes + exception) := on_inner k_getpeername.

(** [WrappedStream::getPeerName]. Of the name, which goes to the log, the
    address is kept ([peer_name] is its text); what matters here is that asking
    for it may throw. *)
Definition getPeerName : M WrappedStream (bytes + exception) :=
  x ← get; if w_isSocket x then getpeername else ret [].

(** What a call of [runHandshake] comes to: the session, or another call once
    the inner stream has written or read a message. *)
Inductive turn := Continue | Return (result : Session).

(** The body of [runHandshake] after it has asked for the peer's name.
    [Continue] is its recursive call, which begins by asking again. *)
Definition run_turn : M WrappedStream (turn + exception) :=
  h ← on_handshake get;
  if finished h then
    result ← on_handshake session;
    modify (set_whandshake None);;
    x ← get;
    match w_authorizer x with
    | Some f =>
        if f (peerPublicKey result) then ret (Return result) else mret (inr UnauthorizedClientKey)
    | None => ret (Return result)
    end
  else
    toSend ← on_handshake bytesToSend;
    if 0 <? len toSend then
      await (on_inner (k_write toSend)) (λ _,
        on_handshake sendCompleted;; await getPeerName (λ _, ret Continue))
    else
      readSize ← on_handshake bytesToRead;
      if 0 <? readSize then
        await (on_inner (k_read readSize)) (λ b,
          on_handshake (fillInput b);;
          on_handshake readCompleted;; await getPeerName (λ _, ret Continue))
      else
        h ← on_handshake get;
        assert_ (bool_decide (_error h ≠ NoError));;
        mret (inr FailedToConnect).

Fixpoint runHandshake (fuel : nat) : M WrappedStream (Session + exception) :=
  match fuel with
  | O => throw OutOfFuel
  | S fuel =>
      await run_turn (λ t,
        match t with Return result => ret result | Continue => runHandshake fuel end)
  end.

(** Four messages and the final check. *)
Definition handshake_turns : nat := 5.

(** The continuation of [connect], on a session or an exception. *)
Definition connect_done (r : Session + exception) : M WrappedStream (unit + exception) :=
  match r with
  | inl result => modify (set_connected result);; ret tt
  | inr e =>
      modify (λ x, set_inner (k_shutdownWrite (w_inner x)) x);;
      modify (λ x, set_inner (k_abortRead (w_inner x)) x);;
      mret (inr e)
  end.

(** The start of [connect] and of the first call of [runHandshake], whose
    exceptions its continuations do not see. *)
Definition connect_begin : M WrappedStream (unit + exception) :=
  await getPeerName (λ _, await getPeerName (λ _, ret tt)).

Definition connect : M WrappedStream (unit + exception) :=
  await connect_begin (λ _, r ← runHandshake handshake_turns; connect_done r).

(** The identity of the peer, if there is a session; a null pointer if
    not. *)
Definition getIdentity {I} (inner : I) (x : WrappedStream) : option (SHSPeerIdentity I) :=
  match w_session x with
  | Some keys => Some (MkIdentity (peerPublicKey keys) inner)
  | None => None
  end.

(** The body of [tryRead]: a result, or none when it calls itself again after
    the inner stream has read. *)
Definition tryRead_turn (minBytes maxBytes : Z) : M WrappedStream (option bytes + exception) :=
  await (on_decryptor_ (on_ds (gets bytesAvailable))) (λ available,
    if minBytes <=? available then
      await (on_decryptor_ (on_ds (pull maxBytes))) (λ b, ret (Some b))
    else
      await (on_inner (k_tryRead 1 maxBytes)) (λ b,
        if len b =? 0 then ret (Some [])
        else
          await (on_decryptor_ (dec_push b)) (λ ok,
            if ok : bool then ret None else mret (inr CorruptInputData)))).

Fixpoint tryRead (fuel : nat) (minBytes maxBytes : Z) : M WrappedStream (bytes + exception) :=
  match fuel with
  | O => throw OutOfFuel
  | S fuel =>
      await (tryRead_turn minBytes maxBytes) (λ o,
        match o with Some b => ret b | None => tryRead fuel minBytes maxBytes end)
  end.

Definition _endWrite : M WrappedStream (unit + exception) :=
  await (on_encryptor_ (on_es (gets availableData))) (λ avail,
    await (on_inner (k_write avail)) (λ _,
      await (on_encryptor_ (on_es (skip (len avail)))) (λ _, ret tt))).

(** [write(buffer, size)] *)
Definition write (data : bytes) : M WrappedStream (unit + exception) :=
  await (on_encryptor_ (enc_push data)) (λ _, _endWrite).

(** [write(pieces)] *)
Definition write_pieces (pieces : list bytes) : M WrappedStream (unit + exception) :=
  await (on_encryptor_ (push_parts pieces)) (λ _,
    await (on_encryptor_ flush) (λ _, _endWrite)).

(** ** Calls passed on to the inner stream *)

Definition shutdownWrite : M WrappedStream unit :=
  modify (λ x, set_inner (k_shutdownWrite (w_inner x)) x).
Definition abortRead : M WrappedStream unit :=
  modify (λ x, set_inner (k_abortRead (w_inner x)) x).

Section socket.
Context `{Socket T}.
Definition whenWriteDisconnected : M WrappedStream (unit + exception) :=
  on_inner k_whenWriteDisconnected.
Definition getsockopt (level option : Z) : M WrappedStream bytes := on_inner (k_getsockopt level option).
Definition setsockopt (level option : Z) (value : bytes) : M WrappedStream unit :=
  on_inner (k_setsockopt level option value).
Definition getsockname : M WrappedStream bytes := on_inner k_getsockname.
Definition getFd (x : WrappedStream) : option Z := k_getFd (w_inner x).
End socket.

(** * StreamWrapper *)

(** A wrapper's [newHandshake] and [_authorizer]: a server has an
    authorizer, a client the server's public key. *)
Inductive StreamWrapper :=
| ServerWrapper (c : Context) (auth : option (bytes → bool))
| ClientWrapper (c : Context) (serverKey : bytes).

Definition newHandshake (w : StreamWrapper) (ephemeral : bytes) : Handshake :=
  match w with
  | ServerWrapper c _ => ServerHandshake c ephemeral
  | ClientWrapper c pk => ClientHandshake c pk ephemeral
  end.

Definition wrapper_authorizer (w : StreamWrapper) : option (bytes → bool) :=
  match w with ServerWrapper _ auth => auth | ClientWrapper _ _ => None end.

(** [wrap(Own<AsyncIoStream>)]: the connected stream. *)
Definition wrap (w : StreamWrapper) (isSocket : bool) (inner : T) (ephemeral : bytes)
  : outcome (unit + exception) * WrappedStream :=
  connect (WrappedStream_init inner (newHandshake w ephemeral) (wrapper_authorizer w) isSocket).

End adapter.

Section lemmas.
Context {P : Primitives} {PL : PrimitivesLaws P} {T : Type} `{TL : AsyncIoStreamResolves T}.
Implicit Types (x : @WrappedStream T) (h : Handshake) (t : T).

Lemma on_handshake_run {A} (m : M Handshake A) x h r h' :
  w_handshake x = Some h → m h = (r, h') →
  on_handshake m x = (r, set_whandshake (Some h') x).
Proof. unfold on_handshake. by intros -> ->. Qed.

Lemma on_handshake_same {A} (m : M Handshake A) x h r :
  w_handshake x = Some h → m h = (r, h) → on_handshake m x = (r, x).
Proof. intros Hx Hm. rewrite (on_handshake_run _ _ _ _ _ Hx Hm). destruct x. cbn in *. by subst. Qed.

Lemma on_inner_run {A} (m : M T A) x r t' :
  m (w_inner x) = (r, t') → on_inner m x = (r, set_inner t' x).
Proof. unfold on_inner, zoom. by intros ->. Qed.

Lemma on_encryptor_run {A} (m : M EncryptionStream A) x w a w' :
  w_encryptor x = Some w → m w = (Ok a, w') →
  on_encryptor_ m x = (Ok (inl a), set_encryptor (Some w') x).
Proof. unfold on_encryptor_. by intros -> ->. Qed.

Lemma on_decryptor_run_ {A} (m : M DecryptionStream A) x w a w' :
  w_decryptor x = Some w → m w = (Ok a, w') →
  on_decryptor_ m x = (Ok (inl a), set_decryptor (Some w') x).
Proof. unfold on_decryptor_. by intros -> ->. Qed.

(** The parts of the object that the handshake leaves alone. *)
Definition same_rest x x' : Prop :=
  w_authorizer x' = w_authorizer x ∧ w_session x' = w_session x ∧
  w_encryptor x' = w_encryptor x ∧ w_decryptor x' = w_decryptor x.

Definition authorized_by (auth : option (bytes → bool)) (pk : bytes) : Prop :=
  match auth with Some f => f pk = true | None => True end.

Definition run_post x h (r : Session + exception) x' : Prop :=
  same_rest x x' ∧
  match r with
  | inl sess => ∃ h', rtc api_step h h' ∧ _step h' = Finished ∧ session h' = (Ok sess, h') ∧
      authorized_by (w_authorizer x) (peerPublicKey sess)
  | inr _ => True
  end.

Lemma run_post_step x x1 h h1 r x' :
  same_rest x x1 → rtc api_step h h1 → run_post x1 h1 r x' → run_post x h r x'.
Proof.
  intros (Ha & Hs & He & Hd) Hr ((Ha' & Hs' & He' & Hd') & Hp).
  split; [by split_and!; etrans|]. destruct r as [sess|e]; [|done].
  destruct Hp as (h' & Hr' & ? & ? & Hau). rewrite Ha in Hau. exists h'.
  split_and!; try done. by etrans.
Qed.

(** Asking for the name leaves everything but the inner stream alone. *)
Lemma getPeerName_run x :
  ∃ r t', getPeerName x = (Ok r, set_inner t' x).
Proof.
  unfold getPeerName. rewrite bind_get. destruct (w_isSocket x).
  - destruct (k_getpeername_returns (w_inner x)) as (r & t' & Hr). exists r, t'. by apply on_inner_run.
  - exists (inl []), (w_inner x). by destruct x.
Qed.

Lemma connect_begin_run x :
  ∃ r t', connect_begin x = (Ok r, set_inner t' x).
Proof.
  unfold connect_begin. destruct (getPeerName_run x) as ([b|e] & t1 & H1);
    [rewrite (await_inl _ _ _ _ _ H1)|rewrite (await_inr _ _ _ _ _ H1); by eexists _, _].
  destruct (getPeerName_run (set_inner t1 x)) as ([b2|e] & t2 & H2);
    [rewrite (await_inl _ _ _ _ _ H2)|rewrite (await_inr _ _ _ _ _ H2)]; by eexists _, t2.
Qed.

(** What one turn does: it brings a running handshake closer to its end, or
    ends it. *)
Definition turn_post x h (r : turn + exception) x' : Prop :=
  same_rest x x' ∧
  match r with
  | inl Continue => ∃ h', w_handshake x' = Some h' ∧ settled h' ∧ rtc api_step h h' ∧
      (moves_left h' < moves_left h)%nat
  | inl (Return sess) => _step h = Finished ∧ session h = (Ok sess, h) ∧
      authorized_by (w_authorizer x) (peerPublicKey sess)
  | inr _ => True
  end.

Lemma run_turn_finished x h :
  w_handshake x = Some h → inv h → _step h = Finished →
  ∃ r x', run_turn x = (Ok r, x') ∧ turn_post x h r x'.
Proof.
  intros Hx Hi Hfin. unfold run_turn, turn_post.
  erewrite bind_Ok; [|eapply on_handshake_same; [exact Hx|reflexivity]].
  unfold finished. rewrite bool_decide_eq_true_2 by done.
  destruct (session_of_finished h Hi Hfin) as [sess Hs].
  erewrite bind_Ok; [|eapply on_handshake_same; [exact Hx|exact Hs]].
  rewrite bind_modify, bind_get. cbn [w_authorizer set_whandshake].
  destruct (w_authorizer x) as [f|]; [destruct (f _) eqn:Ef|];
    (eexists _, _; split; [done|]; split; [done|]; try done; by split_and!).
Qed.

Lemma run_turn_failed x h :
  w_handshake x = Some h → inv h → _step h = Failed →
  ∃ r x', run_turn x = (Ok r, x') ∧ turn_post x h r x'.
Proof.
  intros Hx Hi Hfail. unfold run_turn.
  erewrite bind_Ok; [|eapply on_handshake_same; [exact Hx|reflexivity]].
  unfold finished. rewrite bool_decide_eq_false_2 by (by rewrite Hfail).
  assert (bytesToSend h = (Ok [], h)) as Hb
    by (unfold bytesToSend; mrun; by rewrite bool_decide_eq_true_2 by auto).
  erewrite bind_Ok; [|eapply on_handshake_same; [exact Hx|exact Hb]].
  change (0 <? len []) with false. cbv iota.
  assert (byteCountNeeded h = 0) as Hz
    by (unfold byteCountNeeded, client_byteCountNeeded, server_byteCountNeeded;
        rewrite Hfail; by destruct (h_kind h)).
  erewrite bind_Ok; [|eapply on_handshake_run; [exact Hx|apply bytesToRead_run]]. rewrite Hz.
  change (0 <? 0) with false. cbv iota.
  erewrite bind_Ok; [|eapply on_handshake_run; reflexivity].
  assert (_error h ≠ NoError) as He by (rewrite (inv_error h Hi); by intros []).
  cbn [_error set_inputBuffer]. rewrite bool_decide_eq_true_2 by done. by eexists _, _.
Qed.

Lemma run_turn_send x h :
  w_handshake x = Some h → settled h → sending h = true → _step h ≠ Finished → _step h ≠ Failed →
  ∃ r x', run_turn x = (Ok r, x') ∧ turn_post x h r x'.
Proof.
  intros Hx Hset Hs Hfin Hnf. unfold run_turn.
  erewrite bind_Ok; [|eapply on_handshake_same; [exact Hx|reflexivity]].
  unfold finished. rewrite bool_decide_eq_false_2 by done.
  destruct (send_turn h Hset Hs) as (b & h1 & Hb & Hne & Hc & Hset2 & Hr1 & Hr2 & Hi1 & Hk & Hst).
  erewrite bind_Ok; [|eapply on_handshake_run; [exact Hx|exact Hb]].
  assert (0 < len b) by (destruct b; [done|len_lia]). ztest.
  destruct (k_write_returns b (w_inner x)) as ([u|e] & t' & Hw).
  2: { erewrite await_inr; [|apply on_inner_run; exact Hw]. by eexists _, _. }
  erewrite await_inl; [|apply on_inner_run; exact Hw].
  erewrite bind_Ok; [|eapply on_handshake_run; [reflexivity|exact Hc]].
  match goal with |- context [await getPeerName _ ?y] =>
    destruct (getPeerName_run y) as ([nm|e] & t2 & Hname) end.
  2: { erewrite await_inr by exact Hname. by eexists _, _. }
  erewrite await_inl by exact Hname.
  eexists _, _. split; [reflexivity|]. split; [done|]. exists (sent h1). split_and!; try done.
  exact (moves_next h _ Hnf Hfin (or_intror eq_refl) (sent h1) Hst).
Qed.

Lemma run_turn_read x h :
  w_handshake x = Some h → settled h → sending h = false → _step h ≠ Finished → _step h ≠ Failed →
  ∃ r x', run_turn x = (Ok r, x') ∧ turn_post x h r x'.
Proof.
  intros Hx Hset Hs Hfin Hnf. unfold run_turn.
  erewrite bind_Ok; [|eapply on_handshake_same; [exact Hx|reflexivity]].
  unfold finished. rewrite bool_decide_eq_false_2 by done.
  destruct (idle_calls h 0 Hs (settled_out h Hset) Hnf) as (Hb & _).
  erewrite bind_Ok; [|eapply on_handshake_same; [exact Hx|exact Hb]].
  change (0 <? len []) with false. cbv iota.
  assert (0 < byteCountNeeded h) as Hn by (by destruct h as [[|] ? [] ? ? ? ?]).
  destruct (k_read_returns (byteCountNeeded h) (w_inner x)) as ([b|e] & t' & Hrd & Hl); [lia| |].
  2: { destruct (read_turn h [] Hset Hn ltac:(cbn; lia)) as (h1 & _ & Hbr & _ & Hr & _).
       erewrite bind_Ok; [|eapply on_handshake_run; [exact Hx|exact Hbr]]. ztest.
       erewrite await_inr; [|apply on_inner_run; exact Hrd]. by eexists _, _. }
  destruct (read_turn h b Hset Hn ltac:(lia)) as (h1 & h2 & Hbr & Hf & _ & _ & _ & Hdone & _).
  destruct (Hdone Hl) as (ok & h3 & Hc & Hset3 & Hr & Hk & Hst).
  erewrite bind_Ok; [|eapply on_handshake_run; [exact Hx|exact Hbr]]. ztest.
  erewrite await_inl; [|apply on_inner_run; exact Hrd].
  erewrite bind_Ok; [|eapply on_handshake_run; [reflexivity|exact Hf]].
  erewrite bind_Ok; [|eapply on_handshake_run; [reflexivity|exact Hc]].
  match goal with |- context [await getPeerName _ ?y] =>
    destruct (getPeerName_run y) as ([nm|e] & t2 & Hname) end.
  2: { erewrite await_inr by exact Hname. by eexists _, _. }
  erewrite await_inl by exact Hname.
  eexists _, _. split; [reflexivity|]. split; [done|]. exists h3. split_and!; try done.
  assert (_step h3 = Failed ∨ _step h3 = Step_of (Step_val (_step h) + 1)) as Hor
    by (destruct ok; auto).
  exact (moves_next h _ Hnf Hfin Hor h3 eq_refl).
Qed.

Lemma run_turn_spec x h :
  w_handshake x = Some h → settled h →
  ∃ r x', run_turn x = (Ok r, x') ∧ turn_post x h r x'.
Proof.
  intros Hx Hset. pose proof (settled_inv h Hset) as Hi.
  destruct (decide (_step h = Finished)) as [Hfin|Hfin]; [by apply run_turn_finished|].
  destruct (decide (_step h = Failed)) as [Hfail|Hnf]; [by apply run_turn_failed|].
  destruct (sending h) eqn:Hs; [by apply run_turn_send|by apply run_turn_read].
Qed.

Lemma runHandshake_spec fuel x h :
  w_handshake x = Some h → settled h → (moves_left h < fuel)%nat →
  ∃ r x', runHandshake fuel x = (Ok r, x') ∧ run_post x h r x'.
Proof.
  revert x h. induction fuel as [|fuel IH]; intros x h Hx Hset Hm; [lia|]. cbn [runHandshake].
  destruct (run_turn_spec x h Hx Hset) as ([[|sess]|e] & x1 & Ht & Hsame & Hpost).
  - destruct Hpost as (h1 & Hx1 & Hset1 & Hr1 & Hm1).
    erewrite await_inl by exact Ht. destruct (IH x1 h1 Hx1 Hset1 ltac:(lia)) as (r & x' & Hrun & Hp).
    exists r, x'. split; [exact Hrun|]. by eapply run_post_step.
  - erewrite await_inl by exact Ht. eexists _, _. split; [reflexivity|]. split; [done|].
    destruct Hpost as (? & ? & ?). exists h. by split_and!.
  - erewrite await_inr by exact Ht. by eexists _, _.
Qed.

Lemma newHandshake_settled w e :
  settled (newHandshake w e) ∧ initial (newHandshake w e) ∧
  (moves_left (newHandshake w e) < handshake_turns)%nat.
Proof.
  assert (initial (newHandshake w e)) as Hi by (destruct w; constructor).
  split_and!; [constructor; [by apply initial_inv|by destruct w]|done|].
  destruct w; cbn; unfold handshake_turns; lia.
Qed.

(** What [wrap] has come to. *)
Definition wrap_post {I} w e (pid : I) (r : unit + exception) x' : Prop :=
  match r with
  | inl _ => ∃ h sess, rtc api_step (newHandshake w e) h ∧ _step h = Finished ∧
      session h = (Ok sess, h) ∧ authorized_by (wrapper_authorizer w) (peerPublicKey sess) ∧
      getIdentity pid x' = Some (MkIdentity (peerPublicKey sess) pid) ∧
      w_encryptor x' = Some (EncryptionStream_init (encryptionKey sess) (encryptionNonce sess) Compact) ∧
      w_decryptor x' = Some (DecryptionStream_init (decryptionKey sess) (decryptionNonce sess) Compact)
  | inr _ => getIdentity pid x' = None ∧ w_encryptor x' = None ∧ w_decryptor x' = None
  end.

Lemma wrap_run {I} w sock (inner : T) e (pid : I) :
  ∃ r x', wrap w sock inner e = (Ok r, x') ∧ wrap_post w e pid r x'.
Proof.
  destruct (newHandshake_settled w e) as (Hset & _ & Hm). unfold wrap, connect.
  set (x0 := WrappedStream_init _ _ _ _).
  destruct (connect_begin_run x0) as ([u|e0] & t0 & Hb).
  2: { rewrite (await_inr _ _ _ _ _ Hb). by eexists _, _. }
  rewrite (await_inl _ _ _ _ _ Hb). set (x := set_inner t0 x0).
  destruct (runHandshake_spec handshake_turns x _ eq_refl Hset Hm)
    as ([sess|er] & x' & Hrun & (Ha & Hs & He & Hd) & Hpost);
    rewrite (bind_Ok _ _ _ _ _ Hrun).
  - destruct Hpost as (h & Hr & Hfin & Hsess & Hau). eexists _, _. split; [done|].
    exists h, sess. by split_and!.
  - eexists _, _. split; [done|]. unfold wrap_post, getIdentity. cbn. rewrite Hs, He, Hd. done.
Qed.

(** ** Writing *)

(** Between two writes nothing is left in the encryptor. *)
Definition encryptor_ok x (b : CryptoBox) : Prop :=
  ∃ w, w_encryptor x = Some w ∧ enc_view w b [] [].

Lemma endWrite_spec x w b out :
  w_encryptor x = Some w → enc_view w b out [] →
  ∃ r x', _endWrite x = (Ok r, x') ∧ (k_write out (w_inner x)).1 = Ok r ∧
    w_inner x' = (k_write out (w_inner x)).2 ∧
    x' = set_inner (w_inner x') (set_encryptor (w_encryptor x') x) ∧
    match r with inl _ => encryptor_ok x' b | inr _ => True end.
Proof.
  intros Hw (Hb & Hv & Hmax). unfold _endWrite.
  assert (on_es (gets availableData) w = (Ok out, w)) as Hav.
  { unfold on_es, zoom, gets. rewrite (view_available _ _ _ Hv). by destruct w. }
  erewrite await_inl; [|eapply on_encryptor_run; [exact Hw|exact Hav]].
  destruct (k_write_returns out (w_inner x)) as ([u|e] & t' & Hwr); rewrite Hwr.
  2: { erewrite await_inr; [|apply on_inner_run; exact Hwr]. by eexists _, _. }
  erewrite await_inl; [|apply on_inner_run; exact Hwr].
  destruct (skip_run (es w) out [] (len out) Hv ltac:(lia)) as (c' & Hsk & Hv').
  assert (on_es (skip (len out)) w = (Ok (Z.min (len out) (len out)), MkEnc c' (_encryptor w)))
    as Hsk' by (unfold on_es, zoom; by rewrite Hsk).
  erewrite await_inl; [|eapply on_encryptor_run; [reflexivity|exact Hsk']].
  rewrite zdrop_all in Hv' by lia. destruct u. eexists _, _. split; [done|].
  split_and!; try done. eexists. split; [reflexivity|]. by split_and!.
Qed.

Lemma write_spec x b data :
  encryptor_ok x b →
  let ms := push_messages data in
  ∃ r x', write data x = (Ok r, x') ∧ (k_write (box_seal b ms) (w_inner x)).1 = Ok r ∧
    w_inner x' = (k_write (box_seal b ms) (w_inner x)).2 ∧
    x' = set_inner (w_inner x') (set_encryptor (w_encryptor x') x) ∧
    match r with inl _ => encryptor_ok x' (box_after b (length ms)) | inr _ => True end.
Proof.
  intros (w & Hw & Hv) ms. destruct (enc_push_run data w b [] [] Hv) as (w' & Hp & Hv').
  cbn [app] in Hv'. cbv zeta in Hv'. fold ms in Hv'. unfold write.
  erewrite await_inl; [|eapply on_encryptor_run; [exact Hw|exact Hp]].
  by apply (endWrite_spec (set_encryptor (Some w') x) w').
Qed.

Lemma write_pieces_run x b pieces :
  encryptor_ok x b →
  let ms := push_messages (concat pieces) in
  ∃ r x', write_pieces pieces x = (Ok r, x') ∧ (k_write (box_seal b ms) (w_inner x)).1 = Ok r ∧
    w_inner x' = (k_write (box_seal b ms) (w_inner x)).2 ∧
    x' = set_inner (w_inner x') (set_encryptor (w_encryptor x') x) ∧
    match r with inl _ => encryptor_ok x' (box_after b (length ms)) | inr _ => True end.
Proof.
  intros (w & Hw & Hv) ms. destruct (push_parts_flush pieces w b [] Hv) as (w1 & w2 & Hp & Hf & Hv2).
  cbv zeta in Hv2. cbn [app] in Hv2. fold ms in Hv2. unfold write_pieces.
  erewrite await_inl; [|eapply on_encryptor_run; [exact Hw|exact Hp]].
  erewrite await_inl; [|eapply on_encryptor_run; [reflexivity|exact Hf]].
  by apply (endWrite_spec (set_encryptor (Some w2) (set_encryptor (Some w1) x)) w2).
Qed.

Lemma write_pieces_spec x b pieces :
  encryptor_ok x b →
  (write_pieces pieces x).1 = (write (concat pieces) x).1 ∧
  w_inner (write_pieces pieces x).2 = w_inner (write (concat pieces) x).2.
Proof.
  intros Hok. destruct (write_spec x b (concat pieces) Hok) as (r & x' & -> & Hr & Hi & _).
  destruct (write_pieces_run x b pieces Hok) as (r' & x2 & -> & Hr' & Hi' & _).
  split; [exact (eq_trans (eq_sym Hr') Hr)|exact (eq_trans Hi' (eq_sym Hi))].
Qed.

(** ** Reading *)

Inductive inner_reads (m : Z) : T → list bytes → T → Prop :=
| inner_reads_nil t : inner_reads m t [] t
| inner_reads_cons t c t1 cs t2 :
    k_tryRead 1 m t = (Ok (inl c), t1) → inner_reads m t1 cs t2 → inner_reads m t (c :: cs) t2.

(** [received] are the bytes taken from the inner stream, [got] those
    returned to the application. *)
Definition decryptor_ok x (b : CryptoBox) (received got : bytes) : Prop :=
  ∃ r msgs rest avail, w_decryptor x = Some r ∧ accepts b received msgs rest ∧
    dec_view r (box_after b (length msgs)) avail rest ∧ concat msgs = got ++ avail.

(** The inner stream ends, or fails, after at most [k] more reads. *)
Inductive inner_ends (m : Z) : nat → T → Prop :=
| inner_eof k t t' : k_tryRead 1 m t = (Ok (inl []), t') → inner_ends m k t
| inner_error k t t' e : k_tryRead 1 m t = (Ok (inr e), t') → inner_ends m k t
| inner_more k t c t' :
    k_tryRead 1 m t = (Ok (inl c), t') → c ≠ [] → inner_ends m k t' → inner_ends m (S k) t.

Definition tryRead_post (minBytes maxBytes : Z) x (b : CryptoBox) (received got : bytes)
    (r : bytes + exception) x' : Prop :=
  ∃ cs t', inner_reads maxBytes (w_inner x) cs t' ∧
  match r with
  | inl bs =>
      w_inner x' = t' ∧ decryptor_ok x' b (received ++ concat cs) (got ++ bs) ∧
      len bs <= maxBytes ∧ w_encryptor x' = w_encryptor x ∧
      (Z.min minBytes maxBytes <= len bs ∨ bs = [] ∧ last cs = Some [])
  | inr e => e = CorruptInputData ∨ ∃ t'', k_tryRead 1 maxBytes t' = (Ok (inr e), t'')
  end.

(** [tryRead] with the calls of its body in place. *)
Lemma tryRead_unfold fuel minBytes maxBytes x :
  tryRead (S fuel) minBytes maxBytes x =
  await (on_decryptor_ (on_ds (gets bytesAvailable))) (λ available,
    if minBytes <=? available then on_decryptor_ (on_ds (pull maxBytes))
    else
      await (on_inner (k_tryRead 1 maxBytes)) (λ b,
        if len b =? 0 then ret []
        else
          await (on_decryptor_ (dec_push b)) (λ ok,
            if ok : bool then tryRead fuel minBytes maxBytes
            else mret (inr CorruptInputData)))) x.
Proof.
  cbn [tryRead]. unfold tryRead_turn. rewrite await_await. apply await_ext. intros n x1.
  destruct (minBytes <=? n).
  - rewrite await_await. apply (await_ret (on_decryptor_ (on_ds (pull maxBytes)))).
  - rewrite await_await. apply await_ext. intros b x2. destruct (len b =? 0); [done|].
    rewrite await_await. apply await_ext. intros [] x3; done.
Qed.

Lemma tryRead_spec k fuel minBytes maxBytes x b received got :
  decryptor_ok x b received got → 0 <= minBytes → 0 <= maxBytes →
  inner_ends maxBytes k (w_inner x) → (k < fuel)%nat →
  ∃ r x', tryRead fuel minBytes maxBytes x = (Ok r, x') ∧
    tryRead_post minBytes maxBytes x b received got r x'.
Proof.
  intros Hok Hmin Hmax. revert k x received Hok.
  induction fuel as [|fuel IH]; intros k x received Hok Hend Hf; [lia|]. rewrite tryRead_unfold.
  pose proof Hok as (d & msgs & rest & avail & Hd & Hacc & Hdv & Hc).
  pose proof Hdv as (Hbox & Hv).
  assert (on_ds (gets bytesAvailable) d = (Ok (len avail), d)) as Hav.
  { unfold on_ds, zoom, gets, bytesAvailable. destruct Hv as [_ ->]. by destruct d. }
  assert (set_decryptor (Some d) x = x) as Hid by (destruct x; cbn in Hd; by subst).
  erewrite await_inl; [|eapply on_decryptor_run_; [exact Hd|exact Hav]]. rewrite Hid.
  destruct (minBytes <=? len avail) eqn:E; zbool.
  - destruct (pull_run (ds d) avail rest maxBytes Hv Hmax) as (c' & Hp & Hv').
    assert (on_ds (pull maxBytes) d = (Ok (ztake maxBytes avail), MkDec c' (_decryptor d))) as Hp'
      by (unfold on_ds, zoom; by rewrite Hp).
    erewrite on_decryptor_run_; [|exact Hd|exact Hp']. eexists _, _. split; [done|].
    exists [], (w_inner x). split; [constructor|]. cbn [concat]. rewrite app_nil_r.
    split_and!; try done; [|rewrite length_take; lia|left; rewrite length_take; lia].
    eexists _, msgs, rest, (zdrop maxBytes avail). split_and!; try done.
    by rewrite Hc, <-app_assoc, take_drop.
  - inversion Hend as [? ? t1 Hread|? ? t1 e Hread|k' ? c t1 Hread Hne Hend']; subst.
    + erewrite await_inl; [|apply on_inner_run; exact Hread].
      eexists _, _. split; [done|]. exists [[]], t1.
      split; [by apply (inner_reads_cons _ _ [] t1 []); [|constructor]|]. cbn [concat]. rewrite !app_nil_r.
      split_and!; try done.
      by right.
    + erewrite await_inr; [|apply on_inner_run; exact Hread].
      eexists _, _. split; [done|]. exists [], (w_inner x). split; [constructor|]. eauto.
    + erewrite await_inl; [|apply on_inner_run; exact Hread].
      assert (0 < len c) by (destruct c; [done|len_lia]). ztest.
      destruct (dec_push_run c d _ _ _ Hdv)
        as (ok & d' & ms2 & rest2 & rest3 & Hp & Hacc2 & Hdv2 & _ & Hrest & _).
      erewrite await_inl; [|eapply on_decryptor_run_; [exact Hd|exact Hp]].
      set (x1 := set_decryptor (Some d') (set_inner t1 x)). destruct ok.
      2: { eexists _, _. split; [done|]. exists [c], t1.
           split; [by apply (inner_reads_cons _ _ c t1 []); [|constructor]|]. by left. }
      rewrite Hrest in Hdv2 by done.
      destruct (IH k' x1 (received ++ c)) as (r & x' & Hrun & cs & t' & Hrs & Hpost);
        [|done|lia|].
      { exists d', (msgs ++ ms2), rest2, (avail ++ concat ms2). split_and!; try done.
        - by eapply accepts_app.
        - by rewrite length_app, <-box_after_after.
        - by rewrite concat_app, Hc, <-app_assoc. }
      exists r, x'. split; [done|]. exists (c :: cs), t'. split; [by econstructor|].
      destruct r as [bs|e]; [|done]. cbn [concat]. rewrite app_assoc.
      destruct Hpost as (? & ? & ? & ? & Hor). split_and!; try done.
      destruct Hor as [?|[? Hlast]]; [by left|right]. split; [done|]. by destruct cs.
Qed.

End lemmas.

(** * A scripted inner stream *)

Module KjScript.
Record script := MkScript { incoming : bytes; outgoing : bytes; is_shut : bool }.

#[export] Instance script_stream : AsyncIoStream script := {|
  k_write b := λ s, (Ok (inl tt), MkScript (incoming s) (outgoing s ++ b) (is_shut s));
  k_read n := λ s,
    if n <=? len (incoming s)
    then (Ok (inl (ztake n (incoming s))), MkScript (zdrop n (incoming s)) (outgoing s) (is_shut s))
    else (Ok (inr (InnerException 0)), s);
  k_tryRead n m := λ s,
    (Ok (inl (ztake m (incoming s))), MkScript (zdrop m (incoming s)) (outgoing s) (is_shut s));
  k_shutdownWrite s := MkScript (incoming s) (outgoing s) true;
  k_abortRead s := MkScript [] (outgoing s) (is_shut s);
  k_getpeername := λ s, (Ok (inl []), s);
|}.

#[export] Instance script_laws : AsyncIoStreamResolves script.
Proof.
  constructor.
  - intros. by eexists _, _.
  - intros n t Hn. cbn. destruct (n <=? len (incoming t)) eqn:E; zbool; eexists _, _; split; try done.
    by apply len_ztake.
  - intros n m t Hm. eexists _, _. split; [reflexivity|]. cbn beta iota. rewrite length_take. lia.
  - intros. by eexists _, _.
Qed.
End KjScript.

(** * Streams that may leave an operation pending *)

Section pending.
Context {P : Primitives} {T : Type} (K : AsyncIoStream T).

Lemma run_turn_pending : same_or_pending (run_turn (H := K)) (run_turn (H := rejecting K)).
Proof.
  unfold run_turn, on_inner.
  repeat first
    [ apply pending_refl
    | apply pending_zoom, pending_resolved
    | apply pending_bind; [|intros ?]
    | apply pending_await; [|intros ?]
    | case_match ].
Qed.

Lemma runHandshake_pending fuel :
  same_or_pending (runHandshake (H := K) fuel) (runHandshake (H := rejecting K) fuel).
Proof.
  induction fuel as [|fuel IH]; [apply pending_refl|]. cbn [runHandshake].
  apply pending_await; [apply run_turn_pending|]. intros [|s]; [apply IH|apply pending_refl].
Qed.

Lemma connect_pending : same_or_pending (connect (H := K)) (connect (H := rejecting K)).
Proof.
  unfold connect. apply pending_await; [apply pending_refl|]. intros _.
  apply pending_bind; [apply runHandshake_pending|]. intros r. apply pending_refl.
Qed.
End pending.

(** * Properties *)

Section pending_properties.
Context {P : Primitives} {PL : PrimitivesLaws P} {T : Type} `{TL : AsyncIoStreamLaws T}.

End pending_properties.

Section properties.
Context {P : Primitives} {PL : PrimitivesLaws P} {T : Type} `{TL : AsyncIoStreamResolves T}.

(** A write passes to the inner stream exactly the sealed messages of its
    data and returns that stream's result; after a successful write nothing
    is left in the encryptor. A write of pieces is the write of their
    concatenation. *)
Theorem connection_write_seals (x : @WrappedStream T) b pieces :
  encryptor_ok x b →
  let ms := push_messages (concat pieces) in
  ∃ r x', write (concat pieces) x = (Ok r, x') ∧
    (k_write (box_seal b ms) (w_inner x)).1 = Ok r ∧
    w_inner x' = (k_write (box_seal b ms) (w_inner x)).2 ∧
    match r with inl _ => encryptor_ok x' (box_after b (length ms)) | inr _ => True end ∧
    (write_pieces pieces x).1 = Ok r ∧ w_inner (write_pieces pieces x).2 = w_inner x'.
Proof.
  intros Hok ms. destruct (write_pieces_spec x b pieces Hok) as (Hr & Hi).
  destruct (write_spec x b (concat pieces) Hok) as (r & x' & Hw & ? & ? & _ & ?).
  rewrite Hw in Hr, Hi. exists r, x'. by split_and!.
Qed.

(** C30: [tryRead] resolves when the inner stream ends or fails within [k]
    more reads. What it returns continues what earlier reads returned, in the
    order of the accepted messages; it has at least the minimum and at most
    the maximum size asked for, or the inner stream has ended and nothing is
    returned. *)
Theorem tryRead_in_order k fuel minBytes maxBytes (x : @WrappedStream T) b received got :
  decryptor_ok x b received got → 0 <= minBytes → 0 <= maxBytes →
  inner_ends maxBytes k (w_inner x) → (k < fuel)%nat →
  ∃ r x', tryRead fuel minBytes maxBytes x = (Ok r, x') ∧
    tryRead_post minBytes maxBytes x b received got r x'.
Proof. apply tryRead_spec. Qed.

(** Over a hostile network (Attack.v) what the reads of a stream have returned
    comes from messages that the peer sealed, or there is a forgery. *)
Lemma tryRead_attacked (x : @WrappedStream T) b received got sent :
  decryptor_ok x b received got →
  forged b sent received ∨
  ∃ kept, kept `sublist_of` sent ∧ got `prefix_of` concat kept ∧
    (_protocol b = BoxStream → kept `prefix_of` sent).
Proof. intros (r & msgs & rest & avail & _ & Ha & _ & Hc). by eapply accepted_reads. Qed.

(** At the end of the inner stream [tryRead] returns no bytes although
    decrypted ones, fewer than the minimum, are available. *)
Lemma tryRead_eof_drops fuel minBytes maxBytes (x : @WrappedStream T) d t' :
  w_decryptor x = Some d → 0 < bytesAvailable (ds d) < minBytes →
  k_tryRead 1 maxBytes (w_inner x) = (Ok (inl []), t') →
  ∃ x', tryRead (S fuel) minBytes maxBytes x = (Ok (inl []), x') ∧ w_decryptor x' = Some d.
Proof.
  intros Hd Hav Hr. rewrite tryRead_unfold.
  assert (on_ds (gets bytesAvailable) d = (Ok (bytesAvailable (ds d)), d)) as Ha by (by destruct d).
  erewrite await_inl; [|eapply on_decryptor_run_; [exact Hd|exact Ha]]. ztest.
  erewrite await_inl; [|apply on_inner_run; exact Hr]. by eexists.
Qed.

End properties.

(** * Witnesses *)

Module Demo.
Import Toy KjScript Handshake.Demo.
Definition peer : script := MkScript (m2 ++ m4) [] false.
Definition b0 : CryptoBox := MkBox (replicate 32 x07) zero_nonce Compact.
Definition traffic : bytes := Eval vm_compute in box_seal b0 [[x68; x69]].
Definition connected (inner : script) (d : DecryptionStream) : @WrappedStream script :=
  MkWrapped None None inner None (Some (MkEnc (MkStream [] 0) b0)) (Some d) true.
Definition fresh : DecryptionStream := MkDec (MkStream [] 0) b0.


(** A peer that never answers: [wrap] stays pending. *)
Definition silent : AsyncIoStream script := {|
  k_write := k_write;
  k_read n := throw Unresolved;
  k_tryRead n m := throw Unresolved;
  k_shutdownWrite := k_shutdownWrite;
  k_abortRead := k_abortRead;
  k_getpeername := k_getpeername;
|}.

Lemma silent_laws : @AsyncIoStreamLaws script silent.
Proof. constructor; intros; cbn; try done. by eexists _, _. Qed.

Lemma wrap_waits :
  (wrap (H := silent) (ClientWrapper cctx serverKey) true peer (replicate 32 x61)).1 = Fault Unresolved.
Proof. vm_compute. reflexivity. Qed.

Lemma connection_write_seals_witness :
  ∃ r x', write [x68; x69] (connected peer fresh) = (Ok r, x') ∧
    w_inner x' = MkScript (m2 ++ m4) traffic false.
Proof.
  destruct (connection_write_seals (connected peer fresh) b0 [[x68]; [x69]])
    as (r & x' & Hw & _ & Hi & _).
  - eexists. repeat split. discriminate.
  - exists r, x'. split; [exact Hw|]. rewrite Hi. vm_compute. reflexivity.
Defined.

Lemma tryRead_in_order_witness :
  ∃ r x', tryRead 2 1 100 (connected (MkScript traffic [] false) fresh) = (Ok r, x') ∧
    tryRead_post 1 100 (connected (MkScript traffic [] false) fresh) b0 [] [] r x'.
Proof.
  apply (tryRead_in_order 1 2 1 100 (connected (MkScript traffic [] false) fresh) b0 [] []).
  - eexists _, [], [], []. repeat split; constructor.
  - discriminate.
  - discriminate.
  - apply (inner_more 100 0 _ traffic (MkScript [] [] false)); [reflexivity|discriminate|].
    eapply inner_eof. reflexivity.
  - lia.
Defined.

(** A message that the network has replaced by a blank (Attack.v): the adapter
    reads what comes after it. *)
Lemma deletion_unnoticed :
  (tryRead 2 1 100 (connected
     (MkScript (blank (replicate 16 x41) ++ box_seal (box_after b0 1) [[x68; x69]]) [] false) fresh)).1
  = Ok (inl [x68; x69]).
Proof. vm_compute. reflexivity. Qed.
End Demo.
