(* ===== verification/Wrapper.v ===== *)
(** The stream wrappers: [StreamWrapper] with its connect timeout,
    [wrap(AuthenticatedStream)] and [asyncWrap] of
    capnproto/SecretConnection.cc and .hh.

    [wrap] of an authenticated stream starts the handshake of Connection.v and
    joins it with a timer: whichever of the two promises resolves first decides,
    and the other one is cancelled. A promise that has not resolved is a state,
    [Wrapping]; it moves by single turns of [runHandshake] ([wrapping_turn]),
    between which anything else may happen, the timeout included
    ([wrapping_timeout]). Time is an integer, in nanoseconds.

    The theorems: turn by turn the promise comes to the result of [wrap] in one
    go, after at most five turns; in whatever order turns and the timer happen,
    it resolves only to a stream with an authenticated and authorized peer, and
    a stream that is not ready in time is rejected. *)
From Stdlib Require Import ZArith Lia Strings.Byte.
From stdpp Require Import base list numbers option tactics relations.
From S2P Require Import Prelude Crypto Shs Handshake Driver Boxes Streams Connection.

Open Scope Z_scope.

(** * StreamWrapper *)

(** A [kj::Timer]; a wrapper only keeps a pointer to it. *)
Inductive timer := Timer (id : nat).

(** The members of [StreamWrapper]; [_wrapper] has the context, the authorizer
    and what the subclass adds. *)
Record WrapperState := MkWrapper {
  _wrapper : StreamWrapper;
  _connectTimeout : option Z;
  _connectTimer : option timer;
  _isSocket : bool;
}.

Definition StreamWrapper_init (w : StreamWrapper) : WrapperState := MkWrapper w None None true.

Definition setConnectTimeout (timeout : Z) (t : timer) (w : WrapperState) : WrapperState :=
  MkWrapper (_wrapper w) (Some timeout) (Some t) (_isSocket w).

Definition setIsSocket (isSocket : bool) (w : WrapperState) : WrapperState :=
  MkWrapper (_wrapper w) (_connectTimeout w) (_connectTimer w) isSocket.

Definition isSocket (w : WrapperState) : bool := _isSocket w.

(** [kj::AuthenticatedStream] *)
Record AuthenticatedStream (S ID : Type) := MkAuth { stream : S; peerIdentity : ID }.
Arguments MkAuth {S ID}.
Arguments stream {S ID}.
Arguments peerIdentity {S ID}.

Section wrapping.
Context {P : Primitives} {T I : Type} `{AsyncIoStream T}.

(** The promise returned by [wrap], before it resolves: the stream that is
    being connected, when the timer fires, and the identity to pass on. *)
Record Wrapping := MkWrapping {
  conn : @WrappedStream T;
  deadline : option Z;
  innerId : I;
}.

Definition secret_stream : Type :=
  AuthenticatedStream (@WrappedStream T) (option (SHSPeerIdentity I)).

(** What a promise has come to. *)
Inductive promise (A : Type) :=
| Pending (p : Wrapping)
| Resolved (a : A)
| Rejected (e : exception).
Arguments Pending {A}.
Arguments Resolved {A}.
Arguments Rejected {A}.

(** The stream object that [wrap] makes. *)
Definition new_conn (w : WrapperState) (t : T) (ephemeral : bytes) : @WrappedStream T :=
  WrappedStream_init t (newHandshake (_wrapper w) ephemeral) (wrapper_authorizer (_wrapper w))
    (_isSocket w).

(** [wrap(AuthenticatedStream)], called at time [now], up to the point where
    the handshake has to wait. *)
Definition wrap_auth (w : WrapperState) (now : Z) (s : AuthenticatedStream T I)
    (ephemeral : bytes) : outcome (Wrapping + exception) :=
  match connect_begin (new_conn w (stream s) ephemeral) with
  | (Ok (inl _), conn) =>
      match _connectTimeout w with
      | Some timeout =>
          match _connectTimer w with
          | Some _ => Ok (inl (MkWrapping conn (Some (now + timeout)) (peerIdentity s)))
          | None => Ok (inr RequireNonNull)
          end
      | None => Ok (inl (MkWrapping conn None (peerIdentity s)))
      end
  | (Ok (inr e), _) => Ok (inr e)
  | (Fault f, _) => Fault f
  end.

(** One turn of [connect]: a turn of [runHandshake] and, when that was the
    last one, the continuation. *)
Definition connect_turn : M (@WrappedStream T) (option (unit + exception)) :=
  r ← run_turn;
  match r with
  | inl Continue => mret None
  | inl (Return result) => o ← connect_done (inl result); mret (Some o)
  | inr e => o ← connect_done (inr e); mret (Some o)
  end.

(** The last continuation of [wrap]: the connected stream with its
    identity. *)
Definition wrapped (innerId : I) (conn : @WrappedStream T) : secret_stream :=
  MkAuth conn (getIdentity innerId conn).

Definition wrapping_turn (p : Wrapping) : outcome (promise secret_stream) :=
  match connect_turn (conn p) with
  | (Ok None, x) => Ok (Pending (MkWrapping x (deadline p) (innerId p)))
  | (Ok (Some (inl _)), x) => Ok (Resolved (wrapped (innerId p) x))
  | (Ok (Some (inr e)), _) => Ok (Rejected e)
  | (Fault f, _) => Fault f
  end.

(** The timer's side of the join. *)
Definition wrapping_timeout (now : Z) (p : Wrapping) : option (promise secret_stream) :=
  match deadline p with
  | Some d => if d <=? now then Some (Rejected HandshakeTimedOut) else None
  | None => None
  end.

(** A promise left to itself for [n] turns. *)
Fixpoint settle (n : nat) (p : Wrapping) : outcome (promise secret_stream) :=
  match n with
  | O => Ok (Pending p)
  | S n =>
      match wrapping_turn p with
      | Ok (Pending p') => settle n p'
      | r => r
      end
  end.

(** Turns and the timer in any order; the clock does not go back. *)
Inductive wrapping_step : Z * promise secret_stream → Z * promise secret_stream → Prop :=
| step_turn now p q : wrapping_turn p = Ok q → wrapping_step (now, Pending p) (now, q)
| step_timeout now p q :
    wrapping_timeout now p = Some q → wrapping_step (now, Pending p) (now, q)
| step_clock now now' q : now <= now' → wrapping_step (now, q) (now', q).

(** * asyncWrap *)

(** The stream of a promise given to [asyncWrap], wrapped if there is a
    wrapper. *)
Inductive async_result := Unwrapped (s : AuthenticatedStream T I) | Wrapped_ (p : Wrapping).

Definition asyncWrap (wrapper : option WrapperState) (now : Z) (s : AuthenticatedStream T I)
    (ephemeral : bytes) : outcome (async_result + exception) :=
  match wrapper with
  | None => Ok (inl (Unwrapped s))
  | Some w =>
      match wrap_auth w now s ephemeral with
      | Ok (inl p) => Ok (inl (Wrapped_ p))
      | Ok (inr e) => Ok (inr e)
      | Fault f => Fault f
      end
  end.

End wrapping.

Arguments Pending {T I A}.
Arguments Resolved {T I A}.
Arguments Rejected {T I A}.
Arguments Wrapping T I : clear implicits.
Arguments promise T I A : clear implicits.
Arguments secret_stream T I : clear implicits.
Arguments async_result T I : clear implicits.

Section lemmas.
Context {P : Primitives} {PL : PrimitivesLaws P} {T I : Type} `{TL : AsyncIoStreamResolves T}.
Implicit Types (x : @WrappedStream T) (p : Wrapping T I) (w : WrapperState).

(** ** Turn by turn *)

(** [connect] is its turns. *)
Lemma connect_turns n x :
  (r ← runHandshake (S n); connect_done r) x =
  (o ← connect_turn; match o with
                     | None => r ← runHandshake n; connect_done r
                     | Some o => mret o
                     end) x.
Proof.
  unfold connect_turn. cbn [runHandshake]. unfold await, ret. unfold mbind, M_bind, mret, M_ret.
  destruct (run_turn x) as [[[[|s]|e]|f] x1]; try done; by destruct (connect_done _ _) as [[] ?].
Qed.

(** A promise that is left to itself comes to the result of [connect] with the
    same number of turns, if that ends. *)
Lemma settle_connect n p r x' :
  (r ← runHandshake n; connect_done r) (conn p) = (Ok r, x') →
  settle n p = Ok (match r with inl _ => Resolved (wrapped (innerId p) x') | inr e => Rejected e end).
Proof.
  revert p. induction n as [|n IH]; intros p Hc; [done|].
  rewrite connect_turns in Hc. cbn [settle]. unfold wrapping_turn.
  apply bind_Ok_inv in Hc as (o & x1 & Ht & Hc). rewrite Ht.
  destruct o as [[u|e]|]; [unfold mret, M_ret in Hc; by simplify_eq..|].
  by rewrite (IH (MkWrapping x1 (deadline p) (innerId p))).
Qed.

(** ** The invariant of a pending promise *)

(** The stream runs a handshake of this wrapper, which has not ended, and has
    no keys yet. *)
Record wrapping_ok (w : StreamWrapper) (e : bytes) p : Prop := {
  ok_handshake : ∃ h, w_handshake (conn p) = Some h ∧ settled h ∧
    rtc api_step (newHandshake w e) h;
  ok_authorizer : w_authorizer (conn p) = wrapper_authorizer w;
}.

(** A connected stream: its keys are those of a finished handshake, whose peer
    was authorized and is its identity. *)
Definition authentic (w : StreamWrapper) (e : bytes) (pid : I) (s : secret_stream T I) : Prop :=
  ∃ h sess, rtc api_step (newHandshake w e) h ∧ _step h = Finished ∧
    session h = (Ok sess, h) ∧ authorized_by (wrapper_authorizer w) (peerPublicKey sess) ∧
    peerIdentity s = Some (MkIdentity (peerPublicKey sess) pid) ∧
    w_encryptor (stream s)
      = Some (EncryptionStream_init (encryptionKey sess) (encryptionNonce sess) Compact) ∧
    w_decryptor (stream s)
      = Some (DecryptionStream_init (decryptionKey sess) (decryptionNonce sess) Compact).

Definition promise_ok (w : StreamWrapper) e pid dl (q : promise T I (secret_stream T I)) : Prop :=
  match q with
  | Pending p => wrapping_ok w e p ∧ innerId p = pid ∧ deadline p = dl
  | Resolved s => authentic w e pid s
  | Rejected _ => True
  end.

(** The turns a pending promise still needs, at most. *)
Definition turns_left p : nat :=
  match w_handshake (conn p) with Some h => S (moves_left h) | None => 0 end.

Lemma wrapping_turn_spec (w : StreamWrapper) e p :
  wrapping_ok w e p →
  ∃ q, wrapping_turn p = Ok q ∧ promise_ok w e (innerId p) (deadline p) q ∧
    match q with Pending p' => (turns_left p' < turns_left p)%nat | _ => True end.
Proof.
  intros [(h & Hx & Hset & Hr) Ha]. unfold wrapping_turn, connect_turn.
  destruct (run_turn_spec (conn p) h Hx Hset)
    as ([[|sess]|er] & x' & Ht & (Ha' & _) & Hpost); rewrite (bind_Ok _ _ _ _ _ Ht).
  - destruct Hpost as (h' & Hx' & Hset' & Hr' & Hm). eexists. split; [reflexivity|]. cbn.
    split_and!; [|done|done|].
    + constructor; cbn; [exists h'; split_and!; [done|done|by etrans]|by rewrite Ha'].
    + unfold turns_left. cbn. rewrite Hx, Hx'. lia.
  - destruct Hpost as (Hfin & Hs & Hau). eexists. split; [reflexivity|]. split; [|done].
    rewrite Ha in Hau. exists h, sess. by split_and!.
  - eexists. by split.
Qed.

(** A stream object whose name has been asked for. *)
Lemma new_conn_ok w (t t' : T) e dl (pid : I) :
  wrapping_ok (_wrapper w) e (MkWrapping (set_inner t' (new_conn w t e)) dl pid).
Proof.
  destruct (newHandshake_settled (_wrapper w) e) as (Hset & _).
  constructor; [|done]. by exists (newHandshake (_wrapper w) e).
Qed.

Lemma wrap_auth_ok w now s e p :
  wrap_auth w now s e = Ok (inl p) →
  wrapping_ok (_wrapper w) e p ∧ innerId p = peerIdentity s ∧
  connect_begin (new_conn w (stream s) e) = (Ok (inl tt), conn p) ∧
  deadline p = (λ d, now + d) <$> _connectTimeout w.
Proof.
  unfold wrap_auth. intros Hw. destruct (connect_begin_run (new_conn w (stream s) e)) as (r & t' & Hb).
  rewrite Hb in *. destruct r as [[]|ex]; [|done].
  destruct (_connectTimeout w), (_connectTimer w); simplify_eq/=; (split_and!; [apply new_conn_ok|done..]).
Qed.

(** A wrapper has a timer whenever it has a timeout: both are set together. *)
Definition wrapper_ok w : Prop := is_Some (_connectTimeout w) → is_Some (_connectTimer w).

(** [wrap] starts, unless asking for the peer's name throws. *)
Lemma wrap_auth_starts w now (s : AuthenticatedStream T I) e :
  wrapper_ok w →
  ∃ r, wrap_auth w now s e = Ok r ∧
    match r with
    | inl _ => True
    | inr ex => (connect_begin (new_conn w (stream s) e)).1 = Ok (inr ex)
    end.
Proof.
  unfold wrapper_ok, wrap_auth. intros Hok.
  destruct (connect_begin_run (new_conn w (stream s) e)) as (r & t' & ->). destruct r as [u|ex].
  - destruct (_connectTimeout w), (_connectTimer w); try by eexists. by destruct (Hok ltac:(by eexists)).
  - by exists (inr ex).
Qed.

Lemma promise_steps_ok (w : StreamWrapper) e pid dl c c' :
  promise_ok w e pid dl c.2 → rtc wrapping_step c c' → promise_ok w e pid dl c'.2.
Proof.
  intros Hok. induction 1 as [|c1 c2 c3 Hs _ IH]; [done|]. apply IH. clear IH.
  destruct Hs as [now p q Ht|now p q Ht|now now' q Hn]; cbn in *; [| |done].
  - destruct Hok as (Hp & <- & <-). destruct (wrapping_turn_spec w e p Hp) as (q' & Ht' & Hq & _).
    rewrite Ht in Ht'. by simplify_eq.
  - unfold wrapping_timeout in Ht. destruct (deadline p); [|done].
    destruct (_ <=? _); [|done]. by simplify_eq.
Qed.

End lemmas.

Section properties.
Context {P : Primitives} {PL : PrimitivesLaws P} {T I : Type} `{TL : AsyncIoStreamResolves T}.

(** The promise of [wrap(AuthenticatedStream)], left to itself, resolves
    within five turns, and to what the untimed [wrap] of the same stream comes
    to: the same connected stream, with the peer's key and the inner identity,
    or the same exception. *)
Theorem timed_wrap_equiv (w : WrapperState) now (s : AuthenticatedStream T I) e p :
  wrap_auth w now s e = Ok (inl p) →
  ∃ r x', wrap (_wrapper w) (_isSocket w) (stream s) e = (Ok r, x') ∧
    settle handshake_turns p =
      Ok (match r with
          | inl _ => Resolved (MkAuth x' (getIdentity (peerIdentity s) x'))
          | inr ex => Rejected ex
          end).
Proof.
  intros Hw. destruct (wrap_auth_ok _ _ _ _ _ Hw) as ([(h & Hx & Hset & _) _] & Hi & Hc & _).
  destruct (newHandshake_settled (_wrapper w) e) as (_ & _ & Hm).
  destruct (runHandshake_spec handshake_turns (conn p) h Hx Hset) as (r & x1 & Hrun & _).
  { destruct (connect_begin_run (new_conn w (stream s) e)) as (r0 & t' & Hb). rewrite Hc in Hb.
    injection Hb as _ Hb. rewrite Hb in Hx. cbn in Hx. by simplify_eq. }
  assert (∃ o x', (r ← runHandshake handshake_turns; connect_done r) (conn p) = (Ok o, x'))
    as (o & x' & Hcon).
  { rewrite (bind_Ok _ _ _ _ _ Hrun). destruct r; by eexists _, _. }
  exists o, x'. split; [unfold wrap, connect; by erewrite await_inl by exact Hc|].
  rewrite (settle_connect _ _ _ _ Hcon), Hi. done.
Qed.

(** C38: [wrap] of an authenticated stream starts, unless asking for the
    peer's name throws. In whatever order the turns
    of the handshake, the timer and the clock then go, no turn faults, and the
    promise resolves only to a stream whose keys are those of a finished
    handshake with an authorized peer, the one its identity names. While it is
    pending, every turn brings it closer to its end, and from the moment the
    connect timeout is over it can be rejected by the timer. *)
Theorem timed_wrap_safe (w : WrapperState) now (s : AuthenticatedStream T I) e :
  wrapper_ok w →
  (∃ ex, wrap_auth w now s e = Ok (inr ex) ∧
     (connect_begin (new_conn w (stream s) e)).1 = Ok (inr ex)) ∨
  ∃ p, wrap_auth w now s e = Ok (inl p) ∧
    ∀ now' q, rtc wrapping_step (now, Pending p) (now', q) →
    match q with
    | Resolved a => authentic (_wrapper w) e (peerIdentity s) a
    | Rejected _ => True
    | Pending p' =>
        (∃ q', wrapping_turn p' = Ok q' ∧
           match q' with Pending p'' => (turns_left p'' < turns_left p')%nat | _ => True end) ∧
        (∀ d, _connectTimeout w = Some d → now + d <= now' →
           wrapping_step (now', Pending p') (now', Rejected HandshakeTimedOut))
    end.
Proof.
  intros Hwok. destruct (wrap_auth_starts w now s e Hwok) as ([p|ex] & Hw & Hex);
    [right|left; by exists ex]. exists p. split; [done|].
  intros now' q Hsteps. destruct (wrap_auth_ok _ _ _ _ _ Hw) as (Hok & Hi & _ & Hd).
  pose proof (promise_steps_ok (_wrapper w) e (peerIdentity s) (deadline p) (now, Pending p) _
    (conj Hok (conj Hi eq_refl)) Hsteps) as Hq.
  cbn in Hq. destruct q as [p'|a|ex]; [|done|done]. destruct Hq as (Hp & _ & Hd'). split.
  - destruct (wrapping_turn_spec _ _ _ Hp) as (q' & Ht & _ & Hm). by exists q'.
  - intros d Ed Hle. apply step_timeout. unfold wrapping_timeout.
    rewrite Hd', Hd, Ed. cbn. by ztest.
Qed.

End properties.

(** * Witnesses *)

Module Demo.
Import Toy KjScript Handshake.Demo Connection.Demo.

Definition wrapper : WrapperState :=
  setConnectTimeout 100 (Timer 0) (StreamWrapper_init (ClientWrapper cctx serverKey)).
Definition source : AuthenticatedStream script unit := MkAuth peer tt.

(** The scripted server is in time: the stream is connected to it. *)
Lemma timed_wrap_equiv_witness :
  ∃ p s, wrap_auth wrapper 7 source (replicate 32 x61) = Ok (inl p) ∧
    settle handshake_turns p = Ok (Resolved s) ∧
    publicKey_of <$> peerIdentity s = Some serverKey.
Proof.
  assert (∃ p, wrap_auth wrapper 7 source (replicate 32 x61) = Ok (inl p)) as [p Hp]
    by (eexists; vm_compute; reflexivity).
  exists p. destruct (timed_wrap_equiv wrapper 7 source (replicate 32 x61) p Hp) as (r & x' & Hw & Hs).
  assert ((wrap (ClientWrapper cctx serverKey) true peer (replicate 32 x61)).1 = Ok (inl tt)) as Hr
    by (vm_compute; reflexivity).
  assert (publicKey_of <$> getIdentity tt
    (wrap (ClientWrapper cctx serverKey) true peer (replicate 32 x61)).2 = Some serverKey) as Hk
    by (vm_compute; reflexivity).
  change (wrap (ClientWrapper cctx serverKey) true peer (replicate 32 x61) = (Ok r, x')) in Hw.
  rewrite Hw in Hr, Hk. injection Hr as ->. eexists. split; [exact Hp|].
  split; [exact Hs|exact Hk].
Defined.

(** It is late: the timer rejects the promise. *)
Lemma timed_wrap_safe_witness :
  ∃ p, wrap_auth wrapper 7 source (replicate 32 x61) = Ok (inl p) ∧
    wrapping_step (107, Pending p) (107, Rejected HandshakeTimedOut).
Proof.
  destruct (timed_wrap_safe wrapper 7 source (replicate 32 x61)) as [(ex & Hex & _)|(p & Hp & Hq)].
  - intros _. eexists. reflexivity.
  - discriminate Hex.
  - exists p. split; [exact Hp|].
    apply (proj2 (Hq 107 (Pending p) ltac:(by apply rtc_once, step_clock)) 100 eq_refl). done.
Defined.
End Demo.
