(* ===== verification/KjEnd.v ===== *)
(** The Cap'n Proto adapter as an end of a connection: [WrappedStream] of
    Connection.v satisfies the interface of Link.v.

    Its bytes are those of a [KjScript] stream, which has a buffer of received
    bytes and one of bytes to be sent. A turn is a turn of [connect]
    (Wrapper.v), and it has a [read] of the handshake wait until the whole
    message is there. A turn of a read is [tryRead_turn], which waits for bytes
    unless enough are available; [tryRead] is its iteration. *)
From Stdlib Require Import ZArith Lia Strings.Byte.
From stdpp Require Import base list numbers option tactics.
From S2P Require Import Prelude Crypto Shs Handshake Pieces Driver Protocol Boxes Streams Channel.
From S2P Require Import Link Connection Wrapper.

Open Scope Z_scope.
Import KjScript.

Section kj_end.
Context {P : Primitives}.

Abbreviation WS := (@WrappedStream script).
Implicit Types (x : WS).

Definition kj_stage x : stage :=
  match w_handshake x, w_encryptor x, w_decryptor x, w_session x with
  | Some h, _, _, _ => Shaking h
  | None, Some e, Some d, Some sess => Joined (peerPublicKey sess) e d
  | _, _, _, _ => Down
  end.

(** The next turn of the handshake does not wait for bytes. *)
Definition kj_ready x : bool :=
  match w_handshake x with
  | Some h => sending h || (byteCountNeeded h <=? len (incoming (w_inner x)))
  | None => false
  end.

Definition kj_turn x : option WS :=
  match connect_turn x with
  | (Ok None, x') | (Ok (Some (inl _)), x') => Some x'
  | _ => None
  end.

Definition kj_turns x : nat :=
  match w_handshake x with Some h => S (moves_left h) | None => 0 end.

Definition kj_write (c : write_call) x : option WS :=
  match (match c with WriteBytes data => write data x | WritePieces pieces => write_pieces pieces x end) with
  | (Ok (inl tt), x') => Some x'
  | _ => None
  end.

(** A read of between [r.1] and [r.2] bytes. *)
Definition kj_read_ready (r : Z * Z) x : bool :=
  (0 <=? r.1) && (0 <=? r.2) &&
  match w_decryptor x with
  | Some d => (r.1 <=? bytesAvailable (ds d)) || (0 <? r.2) && (0 <? len (incoming (w_inner x)))
  | None => false
  end.

Definition kj_read (r : Z * Z) x : option (option bytes * WS) :=
  match tryRead_turn r.1 r.2 x with
  | (Ok (inl o), x') => Some (o, x')
  | _ => None
  end.

Definition kj_ok (pk : bytes) x : Prop :=
  authorized_by (w_authorizer x) pk ∧
  (is_Some (w_handshake x) ∧ w_encryptor x = None ∧ w_decryptor x = None ∨
   w_handshake x = None ∧ ∃ e d sess, w_encryptor x = Some e ∧ w_decryptor x = Some d ∧
     w_session x = Some sess ∧ peerPublicKey sess = pk).

#[export] Instance kj_adapter : Adapter WS (Z * Z) := {|
  a_stage := kj_stage;
  a_in x := incoming (w_inner x);
  a_out x := outgoing (w_inner x);
  a_net i o x := set_inner (MkScript i o (is_shut (w_inner x))) x;
  a_ready := kj_ready;
  a_turn := kj_turn;
  a_turns := kj_turns;
  a_write := kj_write;
  a_read_ready := kj_read_ready;
  a_read := kj_read;
  a_ok := kj_ok;
|}.

(** The script has a peer's name, so that [connect] begins. *)
Lemma script_named x : ∃ b, getPeerName x = (Ok (inl b), x).
Proof. unfold getPeerName. rewrite bind_get. destruct x as [? ? ? ? ? ? []]; by eexists. Qed.

(** An end as [wrap] makes it. *)
Definition kj_new (w : StreamWrapper) (ephemeral : bytes) : WS :=
  WrappedStream_init (MkScript [] [] false) (newHandshake w ephemeral) (wrapper_authorizer w) true.

Lemma kj_new_begins w ephemeral : connect_begin (kj_new w ephemeral) = (Ok (inl tt), kj_new w ephemeral).
Proof. done. Qed.
End kj_end.

(** * The turns of the handshake *)

Section turns.
Context {P : Primitives} {PL : PrimitivesLaws P}.
Implicit Types (x : @WrappedStream script) (h : Handshake).

(** A turn of the handshake in which the end sends its message. *)
Lemma run_turn_sends t x :
  turn_ok t → w_handshake x = Some (snd_pre t) →
  run_turn x = (Ok (inl Continue), set_whandshake (Some (snd_post t))
    (set_inner (MkScript (incoming (w_inner x)) (outgoing (w_inner x) ++ t_msg t)
                  (is_shut (w_inner x))) x)).
Proof.
  intros Ht Hx. destruct (snd_pre_facts t Ht) as [_ Hf]. pose proof (ok_pos t Ht). unfold run_turn.
  erewrite bind_Ok; [|eapply on_handshake_same; [exact Hx|reflexivity]].
  unfold finished. rewrite bool_decide_eq_false_2 by done.
  erewrite bind_Ok; [|eapply on_handshake_run; [exact Hx|by apply snd_pre_send]].
  ztest. erewrite await_inl; [|apply on_inner_run; reflexivity].
  erewrite bind_Ok; [|eapply on_handshake_run; [reflexivity|]].
  2: { apply snd_mid_completed; [done|by apply msg_not_nil]. }
  edestruct script_named as [nm Hname]. erewrite await_inl by exact Hname. done.
Qed.

(** A turn in which it receives one. *)
Lemma run_turn_receives t x rest :
  turn_ok t → w_handshake x = Some (rcv_pre t) → incoming (w_inner x) = t_msg t ++ rest →
  run_turn x = (Ok (inl Continue), set_whandshake (Some (rcv_post t))
    (set_inner (MkScript rest (outgoing (w_inner x)) (is_shut (w_inner x))) x)).
Proof.
  intros Ht Hx Hin. destruct (rcv_pre_facts t [] Ht) as (Hn & _ & Hf & _).
  destruct (rcv_idle t [] 0 Ht) as (Hb & _). rewrite <-(rcv_pre_nil t Ht) in Hn, Hb.
  pose proof (ok_pos t Ht). unfold run_turn.
  erewrite bind_Ok; [|eapply on_handshake_same; [exact Hx|reflexivity]].
  unfold finished. rewrite bool_decide_eq_false_2 by done.
  erewrite bind_Ok; [|eapply on_handshake_same; [exact Hx|exact Hb]].
  change (0 <? len []) with false. cbv iota.
  erewrite bind_Ok; [|eapply on_handshake_run; [exact Hx|apply bytesToRead_run]]. rewrite Hn. ztest.
  assert (k_read (len (t_msg t)) (w_inner x)
    = (Ok (inl (t_msg t)), MkScript rest (outgoing (w_inner x)) (is_shut (w_inner x)))) as Hr.
  { cbn. rewrite Hin. destruct (_ <=? _) eqn:E; zbool; [|len_lia].
    by rewrite ztake_app_len, zdrop_app_len. }
  erewrite await_inl; [|apply on_inner_run; exact Hr].
  rewrite (ok_rcv_in t Ht).
  erewrite bind_Ok; [|eapply on_handshake_run; [reflexivity|apply rcv_fill]].
  erewrite bind_Ok; [|eapply on_handshake_run; [reflexivity|by apply rcv_completed]].
  edestruct script_named as [nm Hname]. erewrite await_inl by exact Hname. done.
Qed.

(** The last turn. *)
Lemma turn_connects x h sess :
  w_handshake x = Some h → _step h = Finished → session h = (Ok sess, h) →
  authorized_by (w_authorizer x) (peerPublicKey sess) →
  connect_turn x = (Ok (Some (inl tt)), set_connected sess (set_whandshake None x)).
Proof.
  intros Hx Hf Hs Ha. unfold connect_turn.
  assert (run_turn x = (Ok (inl (Return sess)), set_whandshake None x)) as Hr.
  { unfold run_turn. erewrite bind_Ok; [|eapply on_handshake_same; [exact Hx|reflexivity]].
    unfold finished. rewrite bool_decide_eq_true_2 by done.
    erewrite bind_Ok; [|eapply on_handshake_same; [exact Hx|exact Hs]].
    rewrite bind_modify, bind_get. cbn [w_authorizer set_whandshake].
    destruct (w_authorizer x) as [f|]; [|done]. cbn in Ha. by rewrite Ha. }
  by rewrite (bind_Ok _ _ _ _ _ Hr).
Qed.

Lemma turn_continues x x' :
  run_turn x = (Ok (inl Continue), x') → connect_turn x = (Ok None, x').
Proof. intros Hr. unfold connect_turn. by rewrite (bind_Ok _ _ _ _ _ Hr). Qed.

(** What a write of [data] does to a connected end, in one call or in
    pieces. *)
Definition wrote_all (data : bytes) x x' : Prop :=
  ∃ e e', w_encryptor x = Some e ∧
    x' = set_inner (MkScript (incoming (w_inner x))
           (outgoing (w_inner x) ++ box_seal (_encryptor e) (push_messages data))
           (is_shut (w_inner x))) (set_encryptor (Some e') x) ∧
    enc_view e' (box_after (_encryptor e) (length (push_messages data))) [] [].

Lemma write_wrote data x x' e :
  w_encryptor x = Some e → enc_view e (_encryptor e) [] [] →
  write data x = (Ok (inl tt), x') → wrote_all data x x'.
Proof.
  intros He Hv Hw. destruct (write_spec x (_encryptor e) data) as (o & x1 & Hw1 & Ho & Hi & Hx & Hok);
    [by exists e|]. rewrite Hw in Hw1. cbn in Ho, Hi. simplify_eq.
  destruct Hok as (e' & He' & Hv'). exists e, e'. split_and!; [done| |done].
  by rewrite Hx, He', Hi.
Qed.

Lemma pieces_wrote pieces x x' e :
  w_encryptor x = Some e → enc_view e (_encryptor e) [] [] →
  write_pieces pieces x = (Ok (inl tt), x') → wrote_all (concat pieces) x x'.
Proof.
  intros He Hv Hw.
  destruct (write_pieces_run x (_encryptor e) pieces) as (o & x1 & Hw1 & Ho & Hi & Hx & Hok);
    [by exists e|]. rewrite Hw in Hw1. cbn in Ho, Hi. simplify_eq.
  destruct Hok as (e' & He' & Hv'). exists e, e'. split_and!; [done| |done].
  by rewrite Hx, He', Hi.
Qed.

(** Only a connected end writes and reads. *)
Lemma no_encryptor {A} (m : M EncryptionStream A) x :
  w_encryptor x = None → on_encryptor_ m x = (Ok (inr RequireNonNull), x).
Proof. unfold on_encryptor_. by intros ->. Qed.

Lemma no_decryptor {A} (m : M DecryptionStream A) x :
  w_decryptor x = None → on_decryptor_ m x = (Ok (inr RequireNonNull), x).
Proof. unfold on_decryptor_. by intros ->. Qed.

Lemma write_connected data x x' : write data x = (Ok (inl tt), x') → is_Some (w_encryptor x).
Proof.
  intros H. destruct (w_encryptor x) eqn:E; [by eexists|]. unfold write in H.
  by erewrite await_inr in H by (by apply no_encryptor).
Qed.

Lemma pieces_connected ps x x' : write_pieces ps x = (Ok (inl tt), x') → is_Some (w_encryptor x).
Proof.
  intros H. destruct (w_encryptor x) eqn:E; [by eexists|]. unfold write_pieces in H.
  by erewrite await_inr in H by (by apply no_encryptor).
Qed.

End turns.

(** * The laws *)

Section kj_laws.
Context {P : Primitives} {PL : PrimitivesLaws P}.
Implicit Types (x : @WrappedStream script) (h : Handshake).

Lemma kj_stage_shaking x h : kj_stage x = Shaking h ↔ w_handshake x = Some h.
Proof.
  unfold kj_stage. destruct (w_handshake x); [by split; intros [= ->]|].
  split; [|done]. by destruct (w_encryptor x), (w_decryptor x), (w_session x).
Qed.

Lemma kj_stage_joined x pk e d :
  kj_stage x = Joined pk e d →
  w_handshake x = None ∧ w_encryptor x = Some e ∧ w_decryptor x = Some d ∧
  ∃ sess, w_session x = Some sess ∧ peerPublicKey sess = pk.
Proof.
  unfold kj_stage.
  destruct (w_handshake x), (w_encryptor x), (w_decryptor x), (w_session x); intros [=]; subst; eauto 10.
Qed.

(** A connected end has its streams and its peer's key. *)
Lemma kj_ok_joined pk x :
  kj_ok pk x → is_Some (w_encryptor x) ∨ is_Some (w_decryptor x) → ∃ e d, kj_stage x = Joined pk e d.
Proof.
  intros (_ & [(_ & He & Hd)|(Hh & e & d & sess & He & Hd & Hs & Hpk)]) Hor.
  - rewrite He, Hd in Hor. by destruct Hor as [[? ?]|[? ?]].
  - exists e, d. unfold kj_stage. by rewrite Hh, He, Hd, Hs, Hpk.
Qed.

Lemma kj_sends t pk x :
  turn_ok t → kj_ok pk x → kj_stage x = Shaking (snd_pre t) →
  kj_ready x = true ∧
  ∃ x', kj_turn x = Some x' ∧ kj_ok pk x' ∧ (kj_turns x' < kj_turns x)%nat ∧
    incoming (w_inner x') = incoming (w_inner x) ∧
    outgoing (w_inner x') = outgoing (w_inner x) ++ t_msg t ∧ kj_stage x' = Shaking (snd_post t).
Proof.
  intros Ht Hok Hh%kj_stage_shaking. split; [unfold kj_ready; by rewrite Hh, (ok_sending t Ht)|].
  unfold kj_turn. rewrite (turn_continues _ _ (run_turn_sends t x Ht Hh)). eexists. split; [done|].
  unfold kj_turns, kj_ok in *. cbn. rewrite Hh. split_and!; [by apply Hok| |by apply le_n_S, snd_moves|done..].
  left. destruct Hok as [_ [(_ & ? & ?)|[Hn _]]]; [by split_and!|congruence].
Qed.

Lemma kj_receives t pk x :
  turn_ok t → kj_ok pk x → kj_stage x = Shaking (rcv_pre t) → kj_ready x = true →
  (len (t_msg t) <= len (incoming (w_inner x)) → ∃ rest, incoming (w_inner x) = t_msg t ++ rest) →
  ∃ x', kj_turn x = Some x' ∧ kj_ok pk x' ∧ (kj_turns x' < kj_turns x)%nat ∧
    outgoing (w_inner x') = outgoing (w_inner x) ∧
    incoming (w_inner x) = t_msg t ++ incoming (w_inner x') ∧ kj_stage x' = Shaking (rcv_post t).
Proof.
  intros Ht Hok Hh%kj_stage_shaking Hrdy Hlong. unfold kj_ready in Hrdy.
  destruct (rcv_pre_facts t [] Ht) as (Hn & _ & _ & Hns). rewrite <-(rcv_pre_nil t Ht) in Hn.
  rewrite Hh, Hns, Hn in Hrdy. cbn [orb] in Hrdy. zbool. destruct (Hlong ltac:(lia)) as [rest Hin].
  unfold kj_turn. rewrite (turn_continues _ _ (run_turn_receives t x rest Ht Hh Hin)).
  eexists. split; [done|]. unfold kj_turns, kj_ok in *. cbn. rewrite Hh.
  split_and!; [by apply Hok| |by apply le_n_S, rcv_moves_on|done..].
  left. destruct Hok as [_ [(_ & ? & ?)|[Hno _]]]; [by split_and!|congruence].
Qed.

Lemma kj_joins h sess x :
  kj_ok (peerPublicKey sess) x → kj_stage x = Shaking h → _step h = Finished → session h = (Ok sess, h) →
  kj_ready x = true ∧
  ∃ x', kj_turn x = Some x' ∧ kj_ok (peerPublicKey sess) x' ∧ (kj_turns x' < kj_turns x)%nat ∧
    incoming (w_inner x') = incoming (w_inner x) ∧ outgoing (w_inner x') = outgoing (w_inner x) ∧
    kj_stage x' = joined_with sess.
Proof.
  intros Hok Hh%kj_stage_shaking Hf Hs. split.
  { unfold kj_ready. rewrite Hh, (finished_needs_nothing h Hf). apply orb_true_iff. right. apply Z.leb_le. lia. }
  unfold kj_turn. rewrite (turn_connects x h sess Hh Hf Hs (proj1 Hok)). eexists. split; [done|].
  unfold kj_turns, kj_ok in *. cbn. rewrite Hh. split_and!; [apply Hok| |lia|done..].
  right. split; [done|]. by eexists _, _, _.
Qed.

Lemma kj_writes c pk e d x :
  kj_ok pk x → kj_stage x = Joined pk e d → enc_view e (_encryptor e) [] [] →
  let ms := push_messages (payload c) in
  ∃ x' e', kj_write c x = Some x' ∧ kj_ok pk x' ∧ incoming (w_inner x') = incoming (w_inner x) ∧
    outgoing (w_inner x') = outgoing (w_inner x) ++ box_seal (_encryptor e) ms ∧
    kj_stage x' = Joined pk e' d ∧ enc_view e' (box_after (_encryptor e) (length ms)) [] [].
Proof.
  intros [Hau _] (Hh & He & Hd & sess & Hs & Hpk)%kj_stage_joined Hv ms.
  assert (∃ x', kj_write c x = Some x' ∧ wrote_all (payload c) x x') as (x' & Hw & e1 & e' & He1 & -> & Hv').
  { unfold kj_write. destruct c as [data|pieces]; cbn [payload] in *.
    - destruct (write_spec x (_encryptor e) data) as (r & x1 & Hw & Hr & _); [by exists e|].
      cbn in Hr. simplify_eq. rewrite Hw. eexists. split; [done|]. by eapply write_wrote.
    - destruct (write_pieces_run x (_encryptor e) pieces) as (r & x1 & Hw & Hr & _); [by exists e|].
      cbn in Hr. simplify_eq. rewrite Hw. eexists. split; [done|]. by eapply pieces_wrote. }
  rewrite He in He1. apply Some_inj in He1 as <-.
  eexists _, e'. split; [done|]. unfold kj_ok, kj_stage. cbn. rewrite Hh, Hd, Hs, Hpk.
  split_and!; try done. right. split; [done|]. by eexists _, _, _.
Qed.

Lemma kj_reads r pk e d x :
  kj_ok pk x → kj_stage x = Joined pk e d → readable d (incoming (w_inner x)) → kj_read_ready r x = true →
  ∃ o x' d', kj_read r x = Some (o, x') ∧ kj_ok pk x' ∧ outgoing (w_inner x') = outgoing (w_inner x) ∧
    kj_stage x' = Joined pk e d' ∧
    match o with
    | None => ∃ c, c ≠ [] ∧ incoming (w_inner x) = c ++ incoming (w_inner x') ∧ dec_push c d = (Ok true, d')
    | Some b => incoming (w_inner x') = incoming (w_inner x) ∧
        r.1 <= bytesAvailable (ds d) ∧ 0 <= r.2 ∧ on_ds (pull r.2) d = (Ok b, d')
    end.
Proof.
  intros [Hau _] (Hh & He & Hd & sess & Hs & Hpk)%kj_stage_joined [(bx & av & part & Hv) Hpush] Hrdy.
  destruct r as [n m]. unfold kj_read_ready in Hrdy. rewrite Hd in Hrdy. cbn [fst snd] in Hrdy.
  apply andb_true_iff in Hrdy as [Hnm Hrdy]. zbool. unfold kj_read, tryRead_turn. cbn [fst snd].
  assert (on_ds (gets bytesAvailable) d = (Ok (bytesAvailable (ds d)), d)) as Hav by (by destruct d).
  assert (set_decryptor (Some d) x = x) as Hid by (destruct x; cbn in Hd; by subst).
  erewrite await_inl; [|eapply on_decryptor_run_; [exact Hd|exact Hav]]. rewrite Hid.
  unfold kj_ok, kj_stage. destruct (n <=? bytesAvailable (ds d)) eqn:Em; zbool.
  - destruct (pull_run (ds d) av part m (proj2 Hv) ltac:(lia)) as (s' & Hp & _).
    erewrite await_inl; [|eapply on_decryptor_run_; [exact Hd|by eapply on_ds_run]].
    eexists _, _, _. split; [done|]. cbn. rewrite Hh, He, Hs, Hpk. split_and!; try done.
    + right. split; [done|]. by eexists _, _, _.
    + by apply on_ds_run.
  - cbn [orb] in Hrdy. zbool. erewrite await_inl; [|apply on_inner_run; reflexivity].
    pose proof (take_drop (Z.to_nat m) (incoming (w_inner x))) as Htd.
    assert ((len (ztake m (incoming (w_inner x))) =? 0) = false) as ->.
    { apply Z.eqb_neq. rewrite length_take. lia. }
    destruct (Hpush _ _ (eq_sym Htd)) as [d' Hp].
    erewrite await_inl; [|eapply on_decryptor_run_; [exact Hd|exact Hp]].
    eexists _, _, _. split; [done|]. cbn. rewrite Hh, He, Hs, Hpk. split_and!; try done.
    + right. split; [done|]. by eexists _, _, _.
    + eexists. split; [|split; [symmetry; exact Htd|exact Hp]]. intros E.
      apply (f_equal length) in E. rewrite length_take in E. cbn in E. lia.
Qed.

Lemma kj_can_read pk e d x :
  kj_ok pk x → kj_stage x = Joined pk e d → readable d (incoming (w_inner x)) →
  incoming (w_inner x) ≠ [] ∨ availableData (ds d) ≠ [] →
  ∃ r, kj_read_ready r x = true ∧ ∀ b x', kj_read r x = Some (Some b, x') → b ≠ [].
Proof.
  intros Hok Hst Hre Hmore. exists (1, 1).
  pose proof (kj_stage_joined _ _ _ _ Hst) as (Hh & He & Hd & _).
  pose proof Hre as [(bx & av & part & _ & Hv) Hpush]. rewrite (view_available _ _ _ Hv) in Hmore.
  assert (1 <= bytesAvailable (ds d) ∨ av = []) as Hav.
  { unfold bytesAvailable. rewrite (proj2 Hv). destruct av; [by right|left; len_lia]. }
  assert (kj_read_ready (1, 1) x = true) as Hrdy.
  { unfold kj_read_ready. rewrite Hd. cbn [fst snd andb Z.leb Z.compare]. destruct Hav as [Hav| ->].
    - by rewrite (proj2 (Z.leb_le _ _) Hav).
    - destruct Hmore as [Hne|?]; [|done]. apply orb_true_iff. right.
      destruct (incoming (w_inner x)); [done|]. cbn [andb Z.ltb Z.compare]. apply Z.ltb_lt. len_lia. }
  split; [done|]. intros b x' Hr.
  destruct (kj_reads (1, 1) pk e d x Hok Hst Hre Hrdy)
    as (o & x1 & d' & Hr1 & _ & _ & _ & Ho). rewrite Hr in Hr1. apply Some_inj in Hr1.
  injection Hr1 as <- <-. destruct Ho as (_ & Hn & _ & Hp). cbn [fst snd] in Hn, Hp.
  destruct (pull_run (ds d) av part 1 Hv ltac:(lia)) as (s' & Hp1 & _).
  rewrite (on_ds_run _ _ _ _ Hp1) in Hp. injection Hp as <- _. unfold bytesAvailable in Hn.
  rewrite (proj2 Hv) in Hn. destruct av; [cbn in Hn; lia|done].
Qed.

#[export] Instance kj_laws : AdapterLaws (@WrappedStream script) (Z * Z).
Proof.
  constructor.
  - intros i o x. by split_and!.
  - intros x Hr. cbn in *. unfold kj_ready in Hr. destruct (w_handshake x) as [h|] eqn:Hh; [|done].
    exists h. by apply kj_stage_shaking.
  - intros t pk x. apply kj_sends.
  - intros t pk x Ht Hok Hh%kj_stage_shaking Hl. cbn in *. unfold kj_ready.
    destruct (rcv_pre_facts t [] Ht) as (Hn & _). rewrite <-(rcv_pre_nil t Ht) in Hn.
    rewrite Hh, Hn. apply orb_true_iff. right. by apply Z.leb_le.
  - intros t sess x Ht Hok Hst Hrdy Hlong _.
    destruct (kj_receives t _ x Ht Hok Hst Hrdy Hlong) as (x' & Hx & Hok' & Hlt & Hout & Hin & Hst').
    exists x'. split_and!; try done. right. split; [done|by left].
  - intros h sess x Hok Hst Hf _ _ Hs. by apply (kj_joins h).
  - intros c pk x x' Hok Hw. apply kj_ok_joined; [done|left]. cbn in Hw. unfold kj_write in Hw.
    destruct c as [data|pieces].
    + destruct (write data x) as [[[[]|]|] x1] eqn:E; try done. by eapply write_connected.
    + destruct (write_pieces pieces x) as [[[[]|]|] x1] eqn:E; try done. by eapply pieces_connected.
  - intros c pk e d x. apply kj_writes.
  - intros r pk x Hok Hr. apply kj_ok_joined; [done|right]. cbn in Hr. unfold kj_read_ready in Hr.
    destruct (w_decryptor x); [by eexists|]. by rewrite andb_false_r in Hr.
  - intros r pk e d x Hok Hst Hre Hrdy.
    destruct (kj_reads r pk e d x Hok Hst Hre Hrdy) as (o & x' & d' & ? & ? & ? & ? & Ho).
    exists o, x', d'. split_and!; try done. destruct o; [|done]. destruct Ho as (? & _ & ? & ?). eauto.
  - intros pk e d x. apply kj_can_read.
Qed.
End kj_laws.
