(* ===== verification/CroutonEnd.v ===== *)
(** The Crouton adapter as an end of a connection: [SecretHandshakeStream] of
    Crouton.v satisfies the interface of Link.v.

    [open] and [readNoCopy] are coroutines that give up control where they
    wait for the raw stream. Here they are cut into turns, so that the two ends
    of a connection can be interleaved: [open_turn] is half a round of the
    handshake's loop, and what follows when that was the last one; [read_turn]
    is a turn of the loop of [peekNoCopy], with what comes before and after it.
    That the coroutines are the iteration of their turns is proved.

    The raw stream is a [Socket], which has a buffer of received bytes and one
    of bytes to be sent. The bytes of the last write and of the last read,
    which the object drops on the next call, do not count as part of its
    streams. *)
From Stdlib Require Import ZArith Lia Strings.Byte.
From stdpp Require Import base list numbers option tactics.
From S2P Require Import Prelude Crypto Shs Handshake Pieces Driver Protocol Boxes Streams Channel.
From S2P Require Import Link Crouton.

Open Scope Z_scope.

(** * The turns of the coroutines *)

(** Where [open] is. *)
Inductive open_pc := OpenSend | OpenReceive | OpenDone (r : unit + error).

Section turns.
Context {P : Primitives} {S : Type} `{IStream S}.
Implicit Types x : @SecretHandshakeStream S.

(** The handshake has come to [session]; [open] ends. *)
Definition open_end (session : Session + error) : M SecretHandshakeStream open_pc :=
  r ← open_finish session; mret (OpenDone r).

Definition open_begin : M SecretHandshakeStream open_pc :=
  open_authorizer;;
  r ← on_run hs_begin;
  match r with inl _ => mret OpenSend | inr e => open_end (inr e) end.

Definition open_turn (pc : open_pc) : M SecretHandshakeStream open_pc :=
  match pc with
  | OpenSend =>
      r ← on_run hs_send;
      match r with inl _ => mret OpenReceive | inr e => open_end (inr e) end
  | OpenReceive =>
      r ← on_run hs_receive;
      match r with
      | inl _ =>
          h ← on_run (on_hs get);
          if hs_goes_on h then mret OpenSend else session ← on_run hs_result; open_end session
      | inr e => open_end (inr e)
      end
  | OpenDone r => mret (OpenDone r)
  end.

Fixpoint open_run (fuel : nat) (pc : open_pc) : M SecretHandshakeStream (unit + error) :=
  match pc, fuel with
  | OpenDone r, _ => mret r
  | _, O => throw OutOfFuel
  | _, Datatypes.S fuel => pc' ← open_turn pc; open_run fuel pc'
  end.

(** A turn of [readNoCopy]: it has a result, or has to be taken again. *)
Definition read_turn (maxLen : Z) : M SecretHandshakeStream (option bytes + error) :=
  await peek_begin (λ _, await peek_turn (λ o,
    match o with Some b => await (read_done maxLen b) (λ b, ret (Some b)) | None => ret None end)).

(** ** The coroutines are the iteration of their turns *)

Lemma on_run_at {A} (m m' : M run A) x : (∀ y, m y = m' y) → on_run m x = on_run m' x.
Proof. intros Hm. unfold on_run, zoom. by rewrite Hm. Qed.

Lemma on_run_bind {A B} (m : M run A) (f : A → M run B) x :
  on_run (a ← m; f a) x = (a ← on_run m; on_run (f a)) x.
Proof.
  unfold on_run, zoom, mbind, M_bind. destruct x. cbn.
  destruct (m _) as [[a|e] [o s]]; [|done]. cbn. by destruct (f a _) as [? []].
Qed.

Lemma on_run_await {A B} (m : M run (A + error)) (f : A → M run (B + error)) x :
  on_run (await m f) x = await (on_run m) (λ a, on_run (f a)) x.
Proof.
  unfold await. rewrite on_run_bind. apply bind_ext. intros [a|e] x1; [done|]. by destruct x1.
Qed.

Lemma open_run_done fuel r x : open_run fuel (OpenDone r) x = (Ok r, x).
Proof. by destruct fuel. Qed.

Lemma open_run_turn fuel pc x :
  (∀ r, pc ≠ OpenDone r) → open_run (Datatypes.S fuel) pc x = (pc' ← open_turn pc; open_run fuel pc') x.
Proof. by destruct pc as [| |r]; intros Hn; try destruct (Hn r). Qed.

Lemma open_end_run fuel session x :
  (pc ← open_end session; open_run fuel pc) x = open_finish session x.
Proof.
  unfold open_end. rewrite bind_bind. destruct (open_finish session x) as [[r|e] x1] eqn:E.
  - rewrite (bind_Ok _ _ _ _ _ E), bind_ret. apply open_run_done.
  - by rewrite (bind_Fault _ _ _ _ _ E).
Qed.

(** One round of the loop, and what comes after it. *)
Lemma loop_round fuel (k : unit → M run (Session + error)) x :
  on_run (await (hs_loop (Datatypes.S fuel)) k) x =
  await (on_run hs_send) (λ _, await (on_run hs_receive) (λ _,
    h ← on_run (on_hs get);
    if hs_goes_on h then on_run (await (hs_loop fuel) k) else on_run (k tt))) x.
Proof.
  transitivity (on_run (await hs_send (λ _, await hs_receive (λ _,
    h ← on_hs get; if hs_goes_on h then await (hs_loop fuel) k else k tt))) x).
  { apply on_run_at. intros y. change (hs_loop (Datatypes.S fuel)) with
      (await hs_round (λ _, h ← on_hs get; if hs_goes_on h then hs_loop fuel else ret tt)).
    unfold hs_round. rewrite !await_await. apply await_ext. intros u y0. apply await_ext.
    intros v y1. rewrite await_bind. apply bind_ext. intros h y2. by destruct (hs_goes_on h). }
  rewrite on_run_await. apply await_ext. intros u y. rewrite on_run_await. apply await_ext.
  intros v y1. rewrite on_run_bind. apply bind_ext. intros h y2. by destruct (hs_goes_on h).
Qed.

Lemma loop_turns fuel x :
  (session ← on_run (await (hs_loop fuel) (λ _, hs_result)); open_finish session) x
  = open_run (2 * fuel) OpenSend x.
Proof.
  revert x. induction fuel as [|fuel IH]; intros x; [by destruct x|].
  rewrite (bind_at _ _ _ _ (loop_round fuel (λ _, hs_result) x)), bind_await.
  replace (2 * Datatypes.S fuel)%nat with (Datatypes.S (Datatypes.S (2 * fuel))) by lia.
  rewrite open_run_turn by done. cbn [open_turn]. rewrite bind_bind. apply bind_ext.
  intros [u|e] x1; [|by rewrite open_end_run]. rewrite bind_ret, bind_await, open_run_turn by done.
  cbn [open_turn]. rewrite bind_bind. apply bind_ext.
  intros [v|e] x2; [|by rewrite open_end_run]. rewrite !bind_bind. apply bind_ext. intros h x3.
  destruct (hs_goes_on h); [by rewrite bind_ret, IH|].
  rewrite bind_bind. apply bind_ext. intros session x4. by rewrite open_end_run.
Qed.

(** [open], as turns. *)
Lemma stream_open_turns x :
  stream_open x = (pc ← open_begin; open_run (2 * hs_rounds) pc) x.
Proof.
  unfold stream_open, open_begin, hs_handshake. rewrite bind_bind. apply bind_ext. intros u x1.
  rewrite (bind_at _ _ _ _ (on_run_await hs_begin (λ _, await (hs_loop hs_rounds) (λ _, hs_result)) x1)).
  rewrite bind_await, bind_bind. apply bind_ext. intros [v|e] x2; [|by rewrite open_end_run].
  by rewrite bind_ret, loop_turns.
Qed.

(** A turn of the loop that goes on leaves the sizes alone. *)
Definition same_reading x x' : Prop := _open x' = _open x ∧ _lastReadSize x' = _lastReadSize x.

Lemma same_reading_trans x x' x'' : same_reading x x' → same_reading x' x'' → same_reading x x''.
Proof. unfold same_reading. intros [] []. split; congruence. Qed.

Lemma on_reader_same {A} (m : M DecryptionStream A) x r x' : on_reader m x = (r, x') → same_reading x x'.
Proof.
  unfold on_reader. destruct (_reader x); [|by intros [= <- <-]]. destruct (m d). by intros [= <- <-].
Qed.

Lemma on_run_same {A} (m : M run A) x r x' : on_run m x = (r, x') → same_reading x x'.
Proof. unfold on_run, zoom. destruct (m _). by intros [= <- <-]. Qed.

Lemma peek_turn_again x x' : peek_turn x = (Ok (inl None), x') → same_reading x x'.
Proof.
  unfold peek_turn. intros (n & x1 & H1 & Hr)%bind_Ok_inv. apply on_reader_same in H1.
  eapply same_reading_trans; [exact H1|]. destruct (n =? 0).
  2: { apply bind_Ok_inv in Hr as (b & x2 & H2 & [=]). }
  unfold await in Hr. apply bind_Ok_inv in Hr as ([c|e] & x2 & H2 & Hr); [|done].
  apply on_run_same in H2. eapply same_reading_trans; [exact H2|].
  case_bool_decide; apply bind_Ok_inv in Hr as (ok & x3 & H3 & Hr); apply on_reader_same in H3;
    destruct ok; try done; try (apply bind_Ok_inv in Hr as (? & ? & _ & [=])).
  by injection Hr as <-.
Qed.

Lemma peek_begin_again x x' : peek_begin x = (Ok (inl tt), x') → _open x' = true ∧ _lastReadSize x' <= 0.
Proof.
  unfold peek_begin. rewrite bind_get. destruct (_open x) eqn:Ho; cbn [negb]; [|done].
  destruct (0 <? _lastReadSize x) eqn:El; zbool; [|intros [= <-]; split; [done|lia]].
  intros (n & x1 & H1 & Hr)%bind_Ok_inv. apply on_reader_same in H1 as [Ho1 _].
  rewrite bind_modify in Hr. injection Hr as <-. cbn. split; [congruence|lia].
Qed.

Lemma peek_begin_idle x : _open x = true → _lastReadSize x <= 0 → peek_begin x = (Ok (inl tt), x).
Proof.
  intros Ho Hl. unfold peek_begin. rewrite bind_get, Ho. cbn [negb].
  by rewrite (proj2 (Z.ltb_ge _ _) Hl).
Qed.

(** [readNoCopy], as turns. *)
Lemma readNoCopy_turns fuel maxLen x :
  readNoCopy (Datatypes.S fuel) maxLen x =
  await (read_turn maxLen) (λ o, match o with Some b => ret b | None => readNoCopy fuel maxLen end) x.
Proof.
  unfold readNoCopy, peekNoCopy, read_turn. cbn [peek_loop]. rewrite !await_await.
  destruct (peek_begin x) as [[[[]|e]|f] x1] eqn:E1.
  2: by rewrite !(await_inr _ _ _ _ _ E1).
  2: by unfold await, mbind, M_bind; rewrite E1.
  rewrite !(await_inl _ _ _ _ _ E1), !await_await.
  destruct (peek_turn x1) as [[[[b|]|e]|f] x2] eqn:E2.
  - by rewrite !(await_inl _ _ _ _ _ E2), await_await.
  - rewrite !(await_inl _ _ _ _ _ E2). destruct (peek_begin_again _ _ E1) as [Ho Hl].
    destruct (peek_turn_again _ _ E2) as [Ho' Hl']. rewrite <-Ho' in Ho. rewrite <-Hl' in Hl.
    change (await (peek_loop fuel) (read_done maxLen) x2 =
      await (await peek_begin (λ _, peek_loop fuel)) (read_done maxLen) x2).
    by rewrite await_await, (await_inl _ _ _ _ _ (peek_begin_idle x2 Ho Hl)).
  - by rewrite !(await_inr _ _ _ _ _ E2).
  - by unfold await, mbind, M_bind; rewrite E2.
Qed.
End turns.

(** * The raw stream *)

Module Socket.
Record socket := MkSocket { received : bytes; sent : bytes; up : bool }.

Definition take_received (n : Z) : M socket (bytes + error) := λ s,
  (Ok (inl (ztake n (received s))), MkSocket (zdrop n (received s)) (sent s) (up s)).

#[export] Instance socket_stream : IStream socket := {|
  s_isOpen := up;
  s_open := λ s, (Ok (inl tt), MkSocket (received s) (sent s) true);
  s_close := λ s, (Ok (inl tt), MkSocket (received s) (sent s) false);
  s_closeWrite := λ s, (Ok (inl tt), s);
  s_read := take_received;
  s_readNoCopy := λ s, take_received (len (received s)) s;
  s_write b := λ s, (Ok (inl tt), MkSocket (received s) (sent s ++ b) (up s));
|}.

#[export] Instance socket_laws : IStreamResolves socket.
Proof.
  constructor; try (intros; by eexists _, _).
  intros n s Hn. eexists _, _. split; [reflexivity|]. cbn beta iota. rewrite length_take. lia.
Qed.
End Socket.
Import Socket.

(** * The end *)

(** Without the bytes of the last write, and of the last read. *)
Definition skipped_es (n : Z) (e : EncryptionStream) : EncryptionStream := (on_es (skip n) e).2.
Definition skipped_ds (n : Z) (d : DecryptionStream) : DecryptionStream := (on_ds (skip n) d).2.

Section crouton_end.
Context {P : Primitives}.

(** A stream object on which [open] has been called. *)
Record CroutonEnd := MkCr { cr_pc : open_pc; cr_obj : @SecretHandshakeStream socket }.
Implicit Types x : CroutonEnd.

Definition cr_stage x : stage :=
  match cr_pc x with
  | OpenDone _ =>
      match _open (cr_obj x), _writer (cr_obj x), _reader (cr_obj x) with
      | true, Some w, Some d =>
          Joined (_peerPublicKey (cr_obj x)) (skipped_es (_lastWriteSize (cr_obj x)) w)
            (skipped_ds (_lastReadSize (cr_obj x)) d)
      | _, _, _ => Down
      end
  | _ => match _handshake (cr_obj x) with Some h => Shaking h | None => Down end
  end.

Definition cr_in x : bytes := match _stream (cr_obj x) with Some s => received s | None => [] end.
Definition cr_out x : bytes := match _stream (cr_obj x) with Some s => sent s | None => [] end.
Definition cr_net (i o : bytes) x : CroutonEnd := MkCr (cr_pc x) (set_stream (Some (MkSocket i o true)) (cr_obj x)).

(** The next turn of [open] does not wait for bytes. *)
Definition cr_ready x : bool :=
  match cr_pc x, _handshake (cr_obj x) with
  | OpenSend, Some _ => true
  | OpenReceive, Some h => byteCountNeeded h <=? len (cr_in x)
  | _, _ => false
  end.

Definition cr_turn x : option CroutonEnd :=
  match open_turn (cr_pc x) (cr_obj x) with
  | (Ok (OpenDone (inr _)), _) | (Fault _, _) => None
  | (Ok pc, o) => Some (MkCr pc o)
  end.

Definition cr_turns x : nat :=
  match cr_pc x, _handshake (cr_obj x) with
  | OpenSend, Some h => 2 * moves_left h + 2
  | OpenReceive, Some h => 2 * moves_left h + 1
  | _, _ => 0
  end.

Definition cr_write (c : write_call) x : option CroutonEnd :=
  match (match c with
         | WriteBytes data => stream_write_bytes data (cr_obj x)
         | WritePieces pieces => stream_write pieces (cr_obj x)
         end) with
  | (Ok (inl tt), o) => Some (MkCr (cr_pc x) o)
  | _ => None
  end.

(** A read of at most [maxLen] bytes. *)
Definition cr_read_ready (maxLen : Z) x : bool :=
  (0 <=? maxLen) &&
  match cr_stage x with
  | Joined _ _ d => negb (bytesAvailable (ds d) =? 0) || (0 <? len (cr_in x))
  | _ => false
  end.

Definition cr_read (maxLen : Z) x : option (option bytes * CroutonEnd) :=
  match read_turn maxLen (cr_obj x) with
  | (Ok (inl o), obj) => Some (o, MkCr (cr_pc x) obj)
  | _ => None
  end.

(** The object before [open] has got to a session. *)
Definition opening (o : @SecretHandshakeStream socket) : Prop :=
  is_Some (_handshake o) ∧ _open o = false ∧ _writer o = None ∧ _lastReadSize o = 0 ∧ _lastWriteSize o = 0.

(** And afterwards. *)
Definition opened (pk : bytes) (o : @SecretHandshakeStream socket) : Prop :=
  _open o = true ∧ _peerPublicKey o = pk ∧ (∃ b, writer_ok o b) ∧
  ∃ d b avail part, _reader o = Some d ∧ dec_view d b avail part ∧ 0 <= _lastReadSize o <= len avail.

Definition cr_ok (pk : bytes) x : Prop :=
  is_Some (_stream (cr_obj x)) ∧
  match cr_pc x with
  | OpenSend => opening (cr_obj x) ∧ ∀ h, _handshake (cr_obj x) = Some h → _step h ≠ Finished
  | OpenReceive => opening (cr_obj x) ∧ ∀ h, _handshake (cr_obj x) = Some h → sending h = false
  | OpenDone _ => opened pk (cr_obj x)
  end.

#[export] Instance crouton_adapter : Adapter CroutonEnd Z := {|
  a_stage := cr_stage;
  a_in := cr_in;
  a_out := cr_out;
  a_net := cr_net;
  a_ready := cr_ready;
  a_turn := cr_turn;
  a_turns := cr_turns;
  a_write := cr_write;
  a_read_ready := cr_read_ready;
  a_read := cr_read;
  a_ok := cr_ok;
|}.

(** An end whose [open] has been called, on a socket that is up. *)
Definition cr_fresh (c : Context) (serverKey : option bytes) (ephemeral : bytes)
    (auth : option (bytes → bool)) : @SecretHandshakeStream socket :=
  setDelegate (MkDelegate <$> auth)
    (SecretHandshakeStream_init (Some (MkSocket [] [] true)) c serverKey ephemeral).

Definition cr_new (c : Context) (serverKey : option bytes) (ephemeral : bytes)
    (auth : option (bytes → bool)) : CroutonEnd :=
  MkCr OpenSend (open_begin (cr_fresh c serverKey ephemeral auth)).2.

Lemma cr_new_begins c serverKey ephemeral auth :
  (auth ≠ None → serverKey = None) →
  (open_begin (cr_fresh c serverKey ephemeral auth)).1 = Ok OpenSend.
Proof. intros Ha. destruct auth as [f|]; [|done]. by rewrite (Ha ltac:(done)). Qed.
End crouton_end.

(** * The turns of the handshake *)

Section handshaking.
Context {P : Primitives} {PL : PrimitivesLaws P}.
Implicit Types (h : Handshake) (s : socket) (o : @SecretHandshakeStream socket).

Lemma send_message t s :
  turn_ok t →
  hs_send (MkRun (Some (snd_pre t)) (Some s)) =
    (Ok (inl tt), MkRun (Some (snd_post t)) (Some (MkSocket (received s) (sent s ++ t_msg t) (up s)))).
Proof.
  intros Ht. pose proof (ok_pos t Ht). unfold hs_send.
  rewrite (bind_Ok _ _ _ _ _ (on_hs_run _ _ s _ _ (snd_pre_send t Ht))). ztest.
  erewrite await_inl by (by apply on_raw_run).
  apply plain_run, on_hs_run, snd_mid_completed; [done|by apply msg_not_nil].
Qed.

Lemma send_nothing t s :
  turn_ok t → hs_send (MkRun (Some (rcv_pre t)) (Some s)) = (Ok (inl tt), MkRun (Some (rcv_pre t)) (Some s)).
Proof.
  intros Ht. destruct (rcv_idle t [] 0 Ht) as (Hb & _). rewrite <-(rcv_pre_nil t Ht) in Hb.
  unfold hs_send. by rewrite (bind_Ok _ _ _ _ _ (on_hs_run _ _ s _ _ Hb)).
Qed.

Lemma receive_message t s rest :
  turn_ok t → received s = t_msg t ++ rest →
  hs_receive (MkRun (Some (rcv_pre t)) (Some s)) =
    (Ok (inl tt), MkRun (Some (rcv_post t)) (Some (MkSocket rest (sent s) (up s)))).
Proof.
  intros Ht Hin. destruct (rcv_pre_facts t [] Ht) as (Hn & _). rewrite <-(rcv_pre_nil t Ht) in Hn.
  pose proof (ok_pos t Ht). unfold hs_receive.
  rewrite (bind_Ok _ _ _ _ _ (on_hs_run _ _ s _ _ (bytesToRead_run (rcv_pre t)))). rewrite Hn. ztest.
  assert (s_read (len (t_msg t)) s = (Ok (inl (t_msg t)), MkSocket rest (sent s) (up s))) as Hr
    by (cbn; unfold take_received; by rewrite Hin, ztake_app_len, zdrop_app_len).
  rewrite (await_inl _ _ _ _ _ (on_raw_run _ _ s _ _ Hr)), (ok_rcv_in t Ht).
  rewrite (bind_Ok _ _ _ _ _ (on_hs_run _ _ _ _ _ (rcv_fill t))). rewrite Z.eqb_refl.
  by rewrite (bind_Ok _ _ _ _ _ (on_hs_run _ _ _ _ _ (rcv_completed t Ht))).
Qed.

Lemma receive_nothing h s :
  byteCountNeeded h = 0 → _inputBuffer h = [] →
  hs_receive (MkRun (Some h) (Some s)) = (Ok (inl tt), MkRun (Some h) (Some s)).
Proof.
  intros Hn Hi. unfold hs_receive.
  rewrite (bind_Ok _ _ _ _ _ (on_hs_run _ _ s _ _ (bytesToRead_run h))). rewrite Hn, Hi.
  assert (set_inputBuffer (vec_resize 0 []) h = h) as -> by (by destruct h; cbn in *; subst). done.
Qed.

Lemma on_run_run {A} (m : M run A) o h s r ho so :
  _handshake o = Some h → _stream o = Some s →
  m (MkRun (Some h) (Some s)) = (r, MkRun ho so) → on_run m o = (r, set_run (MkRun ho so) o).
Proof. intros Hh Hs Hm. unfold on_run, zoom. by rewrite Hh, Hs, Hm. Qed.

(** The turn after which the handshake has finished. *)
Lemma open_ends o h s sess :
  _handshake o = Some h → _stream o = Some s → _step h = Finished → _error h = NoError →
  session h = (Ok sess, h) →
  (h ← on_run (on_hs get);
   if hs_goes_on h then mret OpenSend else session ← on_run hs_result; open_end session) o
  = (Ok (OpenDone (inl tt)), set_opened sess (set_run (MkRun None (Some s)) o)).
Proof.
  intros Hh Hs Hf He Hsess.
  erewrite bind_Ok by (eapply on_run_run; [done..|by apply on_hs_run]).
  unfold hs_goes_on, finished. rewrite bool_decide_eq_true_2 by done. cbn [negb andb].
  assert (hs_result (MkRun (Some h) (Some s)) = (Ok (inl sess), MkRun None (Some s))) as Hres.
  { unfold hs_result. erewrite bind_Ok by (by apply on_hs_run).
    rewrite bool_decide_eq_false_2 by (by intros Hn; destruct Hn).
    erewrite bind_Ok by (by apply on_hs_run). by rewrite bind_modify. }
  by erewrite bind_Ok by (by eapply on_run_run).
Qed.
End handshaking.

(** * The laws *)

Section crouton_laws.
Context {P : Primitives} {PL : PrimitivesLaws P}.
Implicit Types (h : Handshake) (s : socket) (x : CroutonEnd).

Lemma cr_stage_shaking x h :
  cr_stage x = Shaking h →
  _handshake (cr_obj x) = Some h ∧ (cr_pc x = OpenSend ∨ cr_pc x = OpenReceive).
Proof.
  unfold cr_stage. destruct (cr_pc x) as [| |r].
  - destruct (_handshake (cr_obj x)); [|done]. intros [= ->]. by split; [|left].
  - destruct (_handshake (cr_obj x)); [|done]. intros [= ->]. by split; [|right].
  - by destruct (_open (cr_obj x)), (_writer (cr_obj x)), (_reader (cr_obj x)).
Qed.

Lemma cr_sends t pk x :
  turn_ok t → cr_ok pk x → cr_stage x = Shaking (snd_pre t) →
  cr_ready x = true ∧
  ∃ x', cr_turn x = Some x' ∧ cr_ok pk x' ∧ (cr_turns x' < cr_turns x)%nat ∧
    cr_in x' = cr_in x ∧ cr_out x' = cr_out x ++ t_msg t ∧ cr_stage x' = Shaking (snd_post t).
Proof.
  intros Ht [[s Hs] Hok] [Hh Hpc]%cr_stage_shaking. destruct x as [pc o]. cbn [cr_pc cr_obj] in *.
  destruct Hpc as [-> | ->].
  2: { destruct Hok as [_ Hno]. pose proof (ok_sending t Ht) as E. by rewrite (Hno _ Hh) in E. }
  destruct Hok as [(_ & Ho) _]. split; [unfold cr_ready; cbn; by rewrite Hh|].
  unfold cr_turn. cbn [cr_pc cr_obj open_turn].
  erewrite bind_Ok by (eapply on_run_run; [done..|by apply send_message]).
  eexists. split; [done|]. unfold cr_turns, cr_in, cr_out. cbn. rewrite Hh, Hs.
  split; [split; [by eexists|]|].
  { split; [by split; [by eexists|]|]. intros h Hsome. apply Some_inj in Hsome as <-. apply (ok_snd_idle t Ht). }
  pose proof (snd_moves t Ht). split_and!; [lia|done..].
Qed.

(** The object after the turn in which the handshake has finished. *)
Lemma cr_settled pk o h s sess :
  opening o → _step h = Finished → _error h = NoError → session h = (Ok sess, h) →
  pk = peerPublicKey sess → _handshake o = Some h → _stream o = Some s →
  ∃ o', (h ← on_run (on_hs get);
         if hs_goes_on h then mret OpenSend else session ← on_run hs_result; open_end session) o
        = (Ok (OpenDone (inl tt)), o') ∧ _stream o' = Some s ∧
    let x' := MkCr (OpenDone (inl tt)) o' in cr_ok pk x' ∧ cr_stage x' = joined_with sess.
Proof.
  intros (_ & _ & _ & Hlr & Hlw) Hf He Hsess -> Hh Hs. eexists.
  split; [by eapply open_ends|]. split; [done|]. cbv zeta. split.
  - split; [by eexists|]. cbn. split_and!; try done.
    + exists (EncryptoBox_of_session sess Compact). eexists _, []. cbn. rewrite Hlw. by split_and!.
    + eexists _, _, [], []. cbn. rewrite Hlr. by split_and!.
  - unfold cr_stage. cbn. rewrite Hlr, Hlw. done.
Qed.

Lemma cr_receives t sess x :
  turn_ok t → cr_ok (peerPublicKey sess) x → cr_stage x = Shaking (rcv_pre t) → cr_ready x = true →
  (len (t_msg t) <= len (cr_in x) → ∃ rest, cr_in x = t_msg t ++ rest) →
  (_step (rcv_post t) = Finished → session (rcv_post t) = (Ok sess, rcv_post t)) →
  ∃ x', cr_turn x = Some x' ∧ cr_ok (peerPublicKey sess) x' ∧ (cr_turns x' < cr_turns x)%nat ∧
    cr_out x' = cr_out x ∧
    (cr_in x' = cr_in x ∧ cr_stage x' = cr_stage x ∨
     cr_in x = t_msg t ++ cr_in x' ∧ settles sess (rcv_post t) (cr_stage x')).
Proof.
  intros Ht [[s Hs] Hok] Hst Hrdy Hlong Hsess. pose proof Hst as [Hh Hpc]%cr_stage_shaking.
  destruct x as [pc o]. cbn [cr_pc cr_obj] in *. unfold cr_turn, cr_in, cr_out, cr_turns in *.
  cbn [cr_pc cr_obj] in *. rewrite Hs, Hh in *. destruct Hpc as [-> | ->]; cbn [open_turn].
  - erewrite bind_Ok by (eapply on_run_run; [done..|by apply send_nothing]).
    eexists. split; [done|]. destruct Hok as [(_ & Ho) _]. split; [split; [by eexists|]|].
    { cbn. split; [by split; [by eexists|]|]. intros h Hsome. apply Some_inj in Hsome as <-.
      by destruct (rcv_pre_facts t [] Ht) as (_ & _ & _ & ?). }
    rewrite Hst. cbn. split_and!; [lia|done|by left].
  - destruct Hok as [Hop _]. unfold cr_ready, cr_in in Hrdy. cbn in Hrdy. rewrite Hs, Hh in Hrdy.
    destruct (rcv_pre_facts t [] Ht) as (Hn & _). rewrite <-(rcv_pre_nil t Ht) in Hn. rewrite Hn in Hrdy. zbool.
    destruct (Hlong Hrdy) as [rest Hin]. pose proof (rcv_moves_on t Ht).
    erewrite bind_Ok by (eapply on_run_run; [done..|by apply (receive_message t s rest)]).
    set (o1 := set_run _ o). set (s1 := MkSocket rest (sent s) (up s)).
    assert (opening o1) as Hop1 by (destruct Hop as (_ & ?); by split; [by eexists|]).
    assert (_error (rcv_post t) = NoError) as He by apply (ok_rcv_error t Ht).
    destruct (decide (_step (rcv_post t) = Finished)) as [Hf|Hf].
    + destruct (cr_settled _ o1 _ s1 sess Hop1 Hf He (Hsess Hf) eq_refl eq_refl eq_refl)
        as (o' & -> & Hs' & Hok' & Hst'). eexists. split; [done|]. split; [done|]. cbn. rewrite Hs'.
      split_and!; [lia|done|]. right. split; [done|]. by right.
    + erewrite bind_Ok by (eapply on_run_run; [done..|by apply on_hs_run]).
      unfold hs_goes_on, finished. rewrite bool_decide_eq_false_2 by done.
      rewrite bool_decide_eq_true_2 by done. cbn [negb andb].
      eexists. split; [done|]. split; [split; [by eexists|]|].
      { split; [done|]. cbn. intros h Hsome. by apply Some_inj in Hsome as <-. }
      cbn. split_and!; [lia|done|]. right. split; [done|]. by left.
Qed.

Lemma cr_joins h sess x :
  cr_ok (peerPublicKey sess) x → cr_stage x = Shaking h →
  _step h = Finished → _error h = NoError → _inputBuffer h = [] → session h = (Ok sess, h) →
  cr_ready x = true ∧
  ∃ x', cr_turn x = Some x' ∧ cr_ok (peerPublicKey sess) x' ∧ (cr_turns x' < cr_turns x)%nat ∧
    cr_in x' = cr_in x ∧ cr_out x' = cr_out x ∧ cr_stage x' = joined_with sess.
Proof.
  intros [[s Hs] Hok] [Hh Hpc]%cr_stage_shaking Hf He Hib Hsess. destruct x as [pc o].
  cbn [cr_pc cr_obj] in *. destruct Hpc as [-> | ->]; [by destruct Hok as [_ Hn]; destruct (Hn h Hh)|].
  destruct Hok as [Hop _]. unfold cr_ready, cr_turn, cr_turns, cr_in, cr_out. cbn [cr_pc cr_obj open_turn].
  rewrite Hh, Hs, (finished_needs_nothing h Hf). split; [apply Z.leb_le; lia|].
  erewrite bind_Ok by (eapply on_run_run; [done..|apply receive_nothing; [by apply finished_needs_nothing|done]]).
  destruct (cr_settled (peerPublicKey sess) (set_run (MkRun (Some h) (Some s)) o) h s sess) as (o' & -> & Hs' & Hok' & Hst'); try done.
  { destruct Hop as (_ & ?). by split; [by eexists|]. }
  eexists. split; [done|]. split; [done|]. cbn. rewrite Hs'. by split_and!; [lia|..].
Qed.

(** ** Data *)

Lemma cr_stage_joined x pk e d :
  cr_stage x = Joined pk e d →
  (∃ r, cr_pc x = OpenDone r) ∧ ∃ w rd, _writer (cr_obj x) = Some w ∧ _reader (cr_obj x) = Some rd ∧
    e = skipped_es (_lastWriteSize (cr_obj x)) w ∧ d = skipped_ds (_lastReadSize (cr_obj x)) rd.
Proof.
  unfold cr_stage. destruct (cr_pc x) as [| |r]; [by destruct (_handshake (cr_obj x))..|].
  destruct (_open (cr_obj x)), (_writer (cr_obj x)), (_reader (cr_obj x)); intros [=]; subst; eauto 10.
Qed.

Lemma cr_ok_opened pk x r :
  cr_ok pk x → cr_pc x = OpenDone r → ∃ e d, cr_stage x = Joined pk e d.
Proof.
  intros [_ Hok] Hpc. rewrite Hpc in Hok. destruct Hok as (Ho & Hpk & (b & w & rdy & Hw & _) & (d & ? & ? & ? & Hd & _)).
  unfold cr_stage. rewrite Hpc, Ho, Hw, Hd, Hpk. by eexists _, _.
Qed.

(** What is left of a writer whose bytes have all been handed over. *)
Lemma skipped_view w b ready :
  enc_view w b ready [] → enc_view (skipped_es (len ready) w) b [] [].
Proof.
  intros (Hb & Hv & Hm). unfold skipped_es.
  destruct (skip_run (es w) ready [] (len ready) Hv ltac:(lia)) as (c & Hs & Hv').
  rewrite zdrop_all in Hv' by lia. unfold on_es, zoom. rewrite Hs. by split_and!.
Qed.

Lemma writer_box (o : @SecretHandshakeStream socket) w b :
  writer_ok o b → _writer o = Some w → _encryptor (skipped_es (_lastWriteSize o) w) = b ∧
    enc_view (skipped_es (_lastWriteSize o) w) b [] [].
Proof.
  intros (w' & ready & Hw & Hv & ->) Hw'. rewrite Hw in Hw'. apply Some_inj in Hw' as <-.
  apply skipped_view in Hv. by split; [apply Hv|].
Qed.

Lemma cr_writes c pk e d x :
  cr_ok pk x → cr_stage x = Joined pk e d → enc_view e (_encryptor e) [] [] →
  let ms := push_messages (payload c) in
  ∃ x' e', cr_write c x = Some x' ∧ cr_ok pk x' ∧ cr_in x' = cr_in x ∧
    cr_out x' = cr_out x ++ box_seal (_encryptor e) ms ∧ cr_stage x' = Joined pk e' d ∧
    enc_view e' (box_after (_encryptor e) (length ms)) [] [].
Proof.
  intros [[s Hs] Hok] ([r Hpc] & w & rd & Hw & Hrd & -> & ->)%cr_stage_joined _. rewrite Hpc in Hok.
  destruct Hok as (Ho & Hpk & [b Hwok] & (d & b' & av & part & Hd & Hdv & Hlr)).
  destruct (writer_box _ _ _ Hwok Hw) as [-> _]. rewrite Hrd in Hd. apply Some_inj in Hd as <-.
  assert (∃ buffers, payload c = concat buffers ∧ cr_write c x =
    match stream_write buffers (cr_obj x) with
    | (Ok (inl tt), o) => Some (MkCr (cr_pc x) o)
    | _ => None
    end) as (buffers & -> & ->).
  { destruct c as [data|pieces]; [exists [data]|by exists pieces]. split; [|done]. cbn. by rewrite app_nil_r. }
  destruct (stream_write_run (cr_obj x) s b buffers Hwok Ho Hs)
    as (res & o' & -> & Hres & Hs' & Hw' & Ho' & Hrd' & Hlr' & Hpk'). cbn in Hres. simplify_eq.
  rewrite Hrd in Hrd'. cbn in Hs'.
  cbv zeta. pose proof Hw' as (w' & ready & Hw1 & _). destruct (writer_box _ _ _ Hw' Hw1) as [_ Hv'].
  eexists _, _. split; [done|]. unfold cr_ok, cr_in, cr_out, cr_stage. cbn [cr_pc cr_obj].
  rewrite Hpc, Hs, Hs', Ho', Hw1, Hrd', Hlr', Hpk'. split; [split; [by eexists|]|].
  { split_and!; try done; [by eexists|]. exists rd, b', av, part. by rewrite Hlr'. }
  split_and!; [done..|]. exact Hv'.
Qed.

Lemma skip_reader rd b av part n :
  dec_view rd b av part → 0 <= n →
  ∃ k, on_ds (skip n) rd = (Ok k, skipped_ds n rd) ∧ dec_view (skipped_ds n rd) b (zdrop n av) part.
Proof.
  intros [Hb Hv] Hn. unfold skipped_ds. destruct (skip_run (ds rd) av part n Hv Hn) as (c & Hs & Hv').
  unfold on_ds, zoom. rewrite Hs. eexists. by split.
Qed.

Lemma skipped_none rd b av part : dec_view rd b av part → skipped_ds 0 rd = rd.
Proof.
  intros [_ [_ Hp]]. unfold skipped_ds, on_ds, zoom, skip. mrun. rewrite Hp.
  rewrite Z.min_l by lia. by destruct rd.
Qed.

(** A pull is a look at the bytes followed by a skip. *)
Lemma pull_skips rd b av part n :
  dec_view rd b av part → 0 <= n →
  on_ds (pull n) rd = (Ok (ztake n av), skipped_ds (len (ztake n av)) rd).
Proof.
  intros [Hb Hv] Hn. unfold skipped_ds, on_ds, zoom, pull. mrun. rewrite (view_available _ _ _ Hv).
  assert (len (ztake n av) = Z.min (len av) n) as Hl by (rewrite length_take; lia). rewrite Hl.
  assert (ztake (Z.min (len av) n) av = ztake n av) as ->.
  { destruct (decide (n <= len av)); [f_equal; lia|]. rewrite !ztake_all by lia. done. }
  destruct (skip_run (ds rd) av part (Z.min (len av) n) Hv ltac:(lia)) as (c & Hs & Hv'). 
  destruct (0 <? _) eqn:E; zbool; [unfold mbind, M_bind; by rewrite Hs|].
  unfold mret, M_ret. unfold skip, mbind, M_bind, get. rewrite (proj2 Hv).
  replace (Z.min (Z.min (len av) n) (len av)) with 0 by lia. by destruct rd.
Qed.

(** The bytes of the last read are dropped. *)
Lemma peek_begin_run (o : @SecretHandshakeStream socket) rd b av part :
  _open o = true → _reader o = Some rd → dec_view rd b av part → 0 <= _lastReadSize o ->
  peek_begin o = (Ok (inl tt), set_lastReadSize 0 (set_reader (Some (skipped_ds (_lastReadSize o) rd)) o)).
Proof.
  intros Ho Hrd Hv Hl. unfold peek_begin. rewrite bind_get, Ho. cbn [negb].
  destruct (0 <? _lastReadSize o) eqn:E; zbool.
  - destruct (skip_reader rd b av part _ Hv Hl) as (k & Hs & _).
    by rewrite (bind_Ok _ _ _ _ _ (on_reader_run _ o rd _ _ Hrd Hs)), bind_modify.
  - assert (_lastReadSize o = 0) as Hz by lia. rewrite Hz, (skipped_none _ _ _ _ Hv).
    destruct o. cbn in *. by subst.
Qed.

(** A turn of a read that finds nothing available takes what has arrived. *)
Lemma peek_takes (o : @SecretHandshakeStream socket) s d d' b av part :
  _reader o = Some d → _stream o = Some s → dec_view d b av part → av = [] → received s ≠ [] →
  dec_push (received s) d = (Ok true, d') →
  peek_turn o = (Ok (inl None), set_reader (Some d') (set_stream (Some (MkSocket [] (sent s) (up s))) o)).
Proof.
  intros Hd Hs [_ [_ Hp]] -> Hne Hpush. unfold peek_turn.
  rewrite (bind_Ok _ _ _ _ _ (proj1 (available_run o d Hd))). rewrite Hp.
  change (len (@nil byte) =? 0) with true. cbv iota.
  assert (s_readNoCopy s = (Ok (inl (received s)), MkSocket [] (sent s) (up s))) as Hr.
  { cbn. unfold take_received. by rewrite ztake_all, zdrop_all by lia. }
  rewrite (await_inl _ _ _ _ _ (on_stream_run _ o s _ _ Hs Hr)). rewrite bool_decide_eq_false_2 by done.
  by erewrite bind_Ok by (by eapply on_reader_run).
Qed.

Lemma peek_returns_available (o : @SecretHandshakeStream socket) d b av part :
  _reader o = Some d → dec_view d b av part → av ≠ [] → peek_turn o = (Ok (inl (Some av)), o).
Proof.
  intros Hd [_ Hv] Hne. unfold peek_turn. destruct (available_run o d Hd) as [H1 H2].
  rewrite (bind_Ok _ _ _ _ _ H1), (proj2 Hv).
  assert ((len av =? 0) = false) as -> by (apply Z.eqb_neq; destruct av; [done|len_lia]).
  by rewrite (bind_Ok _ _ _ _ _ H2), (view_available _ _ _ Hv).
Qed.

Lemma cr_reads n pk e d x :
  cr_ok pk x → cr_stage x = Joined pk e d → readable d (cr_in x) → cr_read_ready n x = true →
  ∃ r x' d', cr_read n x = Some (r, x') ∧ cr_ok pk x' ∧ cr_out x' = cr_out x ∧
    cr_stage x' = Joined pk e d' ∧
    match r with
    | None => ∃ c, c ≠ [] ∧ cr_in x = c ++ cr_in x' ∧ dec_push c d = (Ok true, d')
    | Some b => cr_in x' = cr_in x ∧ 0 <= n ∧ availableData (ds d) ≠ [] ∧ on_ds (pull n) d = (Ok b, d')
    end.
Proof.
  intros [[s Hs] Hok] Hst [_ Hpush] Hrdy. unfold cr_read_ready in Hrdy. rewrite Hst in Hrdy.
  pose proof Hst as ([r Hpc] & w & rd & Hw & Hrd & -> & ->)%cr_stage_joined. rewrite Hpc in Hok.
  destruct Hok as (Ho & Hpk & Hwok & (rd' & b & av & part & Hd & Hdv & Hlr)).
  rewrite Hrd in Hd. apply Some_inj in Hd as <-.
  destruct (skip_reader rd b av part _ Hdv (proj1 Hlr)) as (k & _ & Hdv1).
  set (d := skipped_ds _ rd) in *. set (av1 := zdrop _ av) in *.
  apply andb_true_iff in Hrdy as [Hn Hrdy]. zbool. unfold cr_in in *. rewrite Hs in *.
  unfold cr_read, read_turn.
  rewrite (await_inl _ _ _ _ _ (peek_begin_run (cr_obj x) rd b av part Ho Hrd Hdv (proj1 Hlr))).
  set (o1 := set_lastReadSize 0 _). unfold cr_ok, cr_out, cr_stage.
  destruct (decide (av1 = [])) as [Hav|Hav].
  - assert (received s ≠ []) as Hne.
    { unfold bytesAvailable in Hrdy. rewrite (proj2 (proj2 Hdv1)), Hav in Hrdy.
      intros E. by rewrite E in Hrdy. }
    destruct (Hpush (received s) []) as [d' Hp]; [by rewrite app_nil_r|].
    destruct (dec_push_run (received s) d _ _ _ Hdv1) as (ok & d1 & msgs & rest & rest' & Hp1 & _ & Hdv2 & _).
    rewrite Hp in Hp1. injection Hp1 as <- <-.
    erewrite await_inl by (by eapply peek_takes). eexists None, _, d'. split; [done|].
    cbn. rewrite Hpc, Ho, Hw, Hpk, Hs. rewrite (skipped_none _ _ _ _ Hdv2).
    split; [split; [by eexists|]|].
    { split_and!; try done. eexists d', _, _, _. split_and!; [done|exact Hdv2|done|cbn; lia]. }
    split_and!; try done. exists (received s). by rewrite app_nil_r.
  - erewrite await_inl by (by eapply peek_returns_available). rewrite (view_available _ _ _ (proj2 Hdv1)).
    eexists (Some (ztake n av1)), _, _. split; [done|].
    cbn. rewrite Hpc, Ho, Hw, Hpk, Hs. split; [split; [by eexists|]|].
    { split_and!; try done. eexists d, _, _, _. split_and!; [done|exact Hdv1|cbn; lia|]. cbn. rewrite length_take. lia. }
    split_and!; try done. by eapply pull_skips.
Qed.

Lemma cr_can_read pk e d x :
  cr_ok pk x → cr_stage x = Joined pk e d → readable d (cr_in x) →
  cr_in x ≠ [] ∨ availableData (ds d) ≠ [] →
  ∃ n, cr_read_ready n x = true ∧ ∀ b x', cr_read n x = Some (Some b, x') → b ≠ [].
Proof.
  intros Hok Hst Hre Hmore. exists 1. pose proof Hre as [(bx & av & part & _ & Hv) _].
  rewrite (view_available _ _ _ Hv) in Hmore.
  assert (cr_read_ready 1 x = true) as Hrdy.
  { unfold cr_read_ready. rewrite Hst. cbn [andb Z.leb Z.compare]. unfold bytesAvailable. rewrite (proj2 Hv).
    destruct av as [|a av]; [|done]. destruct Hmore as [Hne|?]; [|done]. apply orb_true_iff. right.
    apply Z.ltb_lt. destruct (cr_in x); [done|len_lia]. }
  split; [done|]. intros b x' Hr.
  destruct (cr_reads 1 pk e d x Hok Hst Hre Hrdy) as (o & x1 & d' & Hr1 & _ & _ & _ & Hb).
  rewrite Hr in Hr1. apply Some_inj in Hr1. injection Hr1 as <- <-. destruct Hb as (_ & _ & Hne & Hp).
  rewrite (view_available _ _ _ Hv) in Hne.
  destruct (pull_run (ds d) av part 1 Hv ltac:(lia)) as (s' & Hp1 & _).
  rewrite (on_ds_run _ _ _ _ Hp1) in Hp. injection Hp as <- _. by destruct av.
Qed.

#[export] Instance crouton_laws : AdapterLaws CroutonEnd Z.
Proof.
  constructor.
  - intros i o x. split_and!; try done. intros pk [Hs Hok]. split; [by eexists|]. cbn.
    by destruct (cr_pc x).
  - intros x Hr. cbn in *. unfold cr_ready, cr_stage in *.
    destruct (cr_pc x), (_handshake (cr_obj x)); try done; by eexists.
  - intros t pk x. apply cr_sends.
  - intros t pk x Ht Hok [Hh Hpc]%cr_stage_shaking Hl. cbn in *. unfold cr_ready.
    destruct (rcv_pre_facts t [] Ht) as (Hn & _). rewrite <-(rcv_pre_nil t Ht) in Hn.
    destruct Hpc as [-> | ->]; rewrite Hh; [done|]. rewrite Hn. by apply Z.leb_le.
  - intros t sess x. apply cr_receives.
  - intros h sess x. apply cr_joins.
  - intros c pk x x' Hok Hw.
    destruct (cr_pc x) as [| |r] eqn:Hpc; [..|by eapply cr_ok_opened].
    all: exfalso; destruct Hok as [_ Hop]; rewrite Hpc in Hop; destruct Hop as [(_ & _ & Hn & _) _];
      cbn in Hw; unfold cr_write, stream_write_bytes, stream_write, on_writer, mbind, M_bind, get in Hw;
      rewrite Hn in Hw; by destruct c.
  - intros c pk e d x. apply cr_writes.
  - intros n pk x Hok Hr. cbn in Hr. unfold cr_read_ready in Hr.
    destruct (cr_pc x) as [| |r] eqn:Hpc; [..|by eapply cr_ok_opened].
    all: unfold cr_stage in Hr; rewrite Hpc in Hr; destruct (_handshake (cr_obj x));
      by rewrite andb_false_r in Hr.
  - intros n pk e d x Hok Hst Hre Hrdy.
    destruct (cr_reads n pk e d x Hok Hst Hre Hrdy) as (o & x' & d' & ? & ? & ? & ? & Ho).
    exists o, x', d'. split_and!; try done. destruct o; [|done]. destruct Ho as (? & ? & _ & ?). eauto.
  - intros pk e d x. apply cr_can_read.
Qed.
End crouton_laws.
