(* ===== verification/EndToEnd.v ===== *)
(** Two adapters connected to each other: the composition of Protocol.v,
    Channel.v, Connection.v and Crouton.v.

    A client and a server stand at the two ends of a byte connection (Link.v).
    Each of them is a [WrappedStream] of the Cap'n Proto adapter (KjEnd.v) or a
    [SecretHandshakeStream] of the Crouton adapter (CroutonEnd.v), in any
    combination: both speak the same protocol.

    The theorems: no handshake is rejected, no write and no read fails, each end
    knows the other one's key, and what one end has read is a prefix of what the
    other has written; and from every state both ends can still join. *)
From Stdlib Require Import ZArith Lia Strings.Byte.
From stdpp Require Import base list numbers option tactics relations.
From S2P Require Import Prelude Crypto Shs Handshake Protocol Boxes Streams.
From S2P Require Import Link Connection Wrapper KjEnd Crouton CroutonEnd.

Open Scope Z_scope.

(** The two adapters of the program. *)
Inductive library := CapnProto | CroutonLib.

Section system.
Context {P : Primitives}.

Definition end_state (k : library) : Type :=
  match k with CapnProto => @WrappedStream KjScript.script | CroutonLib => CroutonEnd end.
Definition read_call (k : library) : Type := match k with CapnProto => Z * Z | CroutonLib => Z end.

#[export] Instance end_adapter k : Adapter (end_state k) (read_call k) :=
  match k with CapnProto => kj_adapter | CroutonLib => crouton_adapter end.

#[export] Instance end_laws {PL : PrimitivesLaws P} k : AdapterLaws (end_state k) (read_call k).
Proof. destruct k; [exact kj_laws|exact crouton_laws]. Qed.

(** The ends as the applications make them, for the parties of Protocol.v, with
    the server's authorizer as the wrapper's or the delegate's. *)
Definition client_end (k : library) (q : parties) : end_state k :=
  match k with
  | CapnProto => kj_new (ClientWrapper (client_ctx q) (Bp q)) (p_a q)
  | CroutonLib => cr_new (client_ctx q) (Some (Bp q)) (p_a q) None
  end.

Definition server_end (k : library) (q : parties) : end_state k :=
  match k with
  | CapnProto => kj_new (ServerWrapper (server_ctx q) (p_auth q)) (p_b q)
  | CroutonLib => cr_new (server_ctx q) None (p_b q) (p_auth q)
  end.

Definition link_start (kc ks : library) (q : parties) : link (end_state kc) (end_state ks) :=
  MkLink (new_peer (client_end kc q)) (new_peer (server_end ks q)).

(** An end of which no call fails: no turn of connecting that does not wait,
    no such turn of a read, and, once it has joined, no write. *)
Definition never_fails {X R} `{Adapter X R} (p : Peer X) : Prop :=
  (a_ready (ep p) = true → is_Some (a_turn (ep p))) ∧
  (∀ r, a_read_ready r (ep p) = true → is_Some (a_read r (ep p))) ∧
  (∀ c pk e d, a_stage (ep p) = Joined pk e d → is_Some (a_write c (ep p))).

(** The key of the peer that an end has joined. *)
Definition joined_peer {X R} `{Adapter X R} (p : Peer X) : option bytes :=
  match a_stage (ep p) with Joined pk _ _ => Some pk | _ => None end.
End system.

(** * The handshake *)

Section start.
Context {P : Primitives} {PL : PrimitivesLaws P}.

(** The handshakes of the Cap'n Proto adapter have no authorizer of their own:
    the adapter asks when the handshake has finished. *)
Definition shaking_parties (ks : library) (q : parties) : parties :=
  match ks with
  | CapnProto => MkParties (p_K q) (p_A q) (p_B q) (p_a q) (p_b q) None
  | CroutonLib => q
  end.

Lemma shaking_authorized ks q :
  authorized (p_auth q) (Ap q) → authorized (p_auth (shaking_parties ks q)) (Ap (shaking_parties ks q)).
Proof. by destruct ks. Qed.

Lemma client_begins k q :
  let x := client_end k q in
  a_ok (Bp q) x ∧ a_stage x = Shaking (snd_pre (turn1 q)) ∧ a_in x = [] ∧ a_out x = [].
Proof.
  destruct k; (split_and!; [|reflexivity..]).
  - split; [done|]. left. by split_and!; [eexists|..].
  - split; [by eexists|]. split; [by split_and!; [eexists|..]|].
    intros h Hh. by apply Some_inj in Hh as <-.
Qed.

Lemma server_begins k q :
  authorized (p_auth q) (Ap q) →
  let y := server_end k q in
  a_ok (Ap q) y ∧ a_stage y = Shaking (rcv_pre (turn1 (shaking_parties k q))) ∧ a_in y = [] ∧ a_out y = [].
Proof.
  intros Ha. destruct k; [split_and!; [|reflexivity..]|].
  - split; [exact Ha|]. left. by split_and!; [eexists|..].
  - unfold server_end, cr_new, cr_fresh, shaking_parties, turn1, sst. cbn [rcv_pre]. clear Ha.
    destruct q as [K A B a b [f|]]; (split_and!; [|reflexivity..]); (split; [by eexists|]);
      (split; [by split_and!; [eexists|..]|]); intros h Hh; by apply Some_inj in Hh as <-.
Qed.

Lemma link_start_inv kc ks q :
  authorized (p_auth q) (Ap q) → link_inv (shaking_parties ks q) (link_start kc ks q).
Proof.
  intros Ha. apply link_begins. pose proof (client_begins kc q). pose proof (server_begins ks q Ha).
  by split; destruct ks.
Qed.
End start.

(** * Properties *)

Section properties.
Context {P : Primitives} {PL : PrimitivesLaws P}.

(** C1: Two adapters connected to each other make a secure connection,
    whichever of the two libraries each end uses. For an honest client that the
    server authorizes, whatever the network does with the bytes, in whatever
    order the ends take turns, write and read, and even while the handshake is
    still going on at the other end: no turn of the handshake fails or is
    rejected; no write and no read of an end that has joined fails; an end that
    has joined has the other one's public key; and what an end has read is a
    prefix of what the other one has written. *)
Theorem adapters_end_to_end kc ks q s :
  authorized (p_auth q) (Ap q) → rtc link_step (link_start kc ks q) s →
  never_fails (left s) ∧ never_fails (right s) ∧
  (∀ pk, joined_peer (left s) = Some pk → pk = Bp q) ∧
  (∀ pk, joined_peer (right s) = Some pk → pk = Ap q) ∧
  heard (right s) `prefix_of` wrote (left s) ∧ heard (left s) `prefix_of` wrote (right s).
Proof.
  intros Ha Hs. pose proof (link_inv_steps _ (shaking_authorized ks q Ha) _ _ (link_start_inv kc ks q Ha) Hs) as Hi.
  destruct (ends_safe _ (shaking_authorized ks q Ha) s Hi) as (Htl & Htr & Hrl & Hrr).
  assert (∀ pk e d, (a_stage (ep (left s)) = Joined pk e d → pk = Bp q) ∧
                    (a_stage (ep (right s)) = Joined pk e d → pk = Ap q)) as Hpk.
  { intros pk e d. destruct ks; apply (ends_peers _ s pk e d Hi). }
  unfold never_fails, joined_peer. split_and!; try done.
  - intros c pk e d Hst. pose proof (proj1 (Hpk pk e d) Hst). subst.
    destruct ks; apply (ends_writes _ s c Hi); by eexists _, _.
  - intros c pk e d Hst. pose proof (proj2 (Hpk pk e d) Hst). subst.
    destruct ks; apply (ends_writes _ s c Hi); by eexists _, _.
  - intros pk. destruct (a_stage (ep (left s))) as [|pk' e d|] eqn:E; [done| |done].
    intros [= <-]. by apply (Hpk pk' e d).
  - intros pk. destruct (a_stage (ep (right s))) as [|pk' e d|] eqn:E; [done| |done].
    intros [= <-]. by apply (Hpk pk' e d).
  - destruct Hi as (hc & hs & mu & md & _ & He). apply (ends_prefix _ _ _ _ _ _ _ _ He).
  - destruct Hi as (hc & hs & mu & md & _ & He). apply (ends_prefix _ _ _ _ _ _ _ _ He).
Qed.

(** C17: The adapters never get stuck, whichever libraries the ends use. From
    every state they can get into, the network can deliver and the ends can act
    so that both have joined, with each other's keys, and each has read
    everything that the other one has written. *)
Theorem adapters_can_join kc ks q s :
  authorized (p_auth q) (Ap q) → rtc link_step (link_start kc ks q) s →
  ∃ s', rtc link_step s s' ∧ joined_peer (left s') = Some (Bp q) ∧ joined_peer (right s') = Some (Ap q) ∧
    heard (right s') = wrote (left s) ∧ heard (left s') = wrote (right s).
Proof.
  intros Ha Hs. pose proof (shaking_authorized ks q Ha) as Ha'.
  pose proof (link_inv_steps _ Ha' _ _ (link_start_inv kc ks q Ha) Hs) as Hi.
  destruct (joins_and_hears _ Ha' s Hi) as (s' & Hs' & [(e & d & Hl) (e' & d' & Hr)] & Hh1 & Hh2).
  exists s'. unfold joined_peer. rewrite Hl, Hr. by destruct ks.
Qed.
End properties.

(** * Witnesses *)

Module Demo.
Import Toy Protocol.Demo.

(** What an end does, as a function. *)
Section acts.
Context {X R : Type} `{Adapter X R}.

Definition turn_of (p : Peer X) : option (Peer X) :=
  if a_ready (ep p) then x ← a_turn (ep p); Some (MkPeer x (wrote p) (heard p)) else None.
Definition write_of (c : write_call) (p : Peer X) : option (Peer X) :=
  x ← a_write c (ep p); Some (MkPeer x (wrote p ++ payload c) (heard p)).
Definition read_of (r : R) (p : Peer X) : option (Peer X) :=
  if a_read_ready r (ep p) then
    o ← a_read r (ep p); Some (MkPeer o.2 (wrote p) (heard p ++ default [] o.1))
  else None.

Lemma turn_of_act p p' : turn_of p = Some p' → peer_act p p'.
Proof.
  unfold turn_of. destruct p as [x wr g]. cbn [ep wrote heard]. destruct (a_ready x) eqn:Hr; [|done].
  intros (x' & Ht & [= <-])%bind_Some. by constructor.
Qed.

Lemma write_of_act c p p' : write_of c p = Some p' → peer_act p p'.
Proof.
  unfold write_of. destruct p as [x wr g]. cbn [ep wrote heard].
  intros (x' & Hw & [= <-])%bind_Some. by constructor.
Qed.

Lemma read_of_act r p p' : read_of r p = Some p' → peer_act p p'.
Proof.
  unfold read_of. destruct p as [x wr g]. cbn [ep wrote heard]. destruct (a_read_ready r x) eqn:Hr; [|done].
  intros ([o x'] & Ht & [= <-])%bind_Some. by apply (act_read r).
Qed.
End acts.

(** And the system. *)
Inductive action {R Q : Type} :=
| TurnL | TurnR | WriteL (c : write_call) | WriteR (c : write_call) | ReadL (r : R) | ReadR (r : Q)
| Up | Downward.
Arguments action : clear implicits.

Section runs.
Context {X R Y Q : Type} `{Adapter X R} `{Adapter Y Q}.

Definition act (a : action R Q) (s : link X Y) : option (link X Y) :=
  match a with
  | TurnL => l ← turn_of (left s); Some (MkLink l (right s))
  | TurnR => r ← turn_of (right s); Some (MkLink (left s) r)
  | WriteL c => l ← write_of c (left s); Some (MkLink l (right s))
  | WriteR c => r ← write_of c (right s); Some (MkLink (left s) r)
  | ReadL c => l ← read_of c (left s); Some (MkLink l (right s))
  | ReadR c => r ← read_of c (right s); Some (MkLink (left s) r)
  | Up => Some (MkLink (set_outbox [] (left s))
                  (set_inbox (inbox (right s) ++ outbox (left s)) (right s)))
  | Downward => Some (MkLink (set_inbox (inbox (left s) ++ outbox (right s)) (left s))
                        (set_outbox [] (right s)))
  end.

Lemma act_step a s s' : act a s = Some s' → link_step s s'.
Proof.
  destruct s as [l r], a; cbn [act left right]; intros Ha; simplify_option_eq;
    eauto using link_step, turn_of_act, write_of_act, read_of_act.
  - apply link_up. constructor. by rewrite app_nil_r.
  - apply link_down. constructor. by rewrite app_nil_r.
Qed.

Fixpoint run (acts : list (action R Q)) (s : link X Y) : option (link X Y) :=
  match acts with [] => Some s | a :: acts => s1 ← act a s; run acts s1 end.

Lemma run_steps acts s s' : run acts s = Some s' → rtc link_step s s'.
Proof.
  revert s. induction acts as [|a acts IH]; cbn; intros s Hr; [by simplify_eq|].
  simplify_option_eq. eapply rtc_l; [by apply (act_step a)|by apply IH].
Qed.
End runs.

Definition hello : bytes := [x68; x69].

(** A Crouton client and a Cap'n Proto server, which writes before the client
    has read the last message of the handshake. *)
Definition mixed : link (end_state CroutonLib) (end_state CapnProto) := link_start CroutonLib CapnProto q.

Definition schedule : list (action Z (Z * Z)) :=
  [TurnL; Up; TurnR; TurnR; Downward; TurnL; TurnL; Up; TurnR; TurnR; TurnR; WriteR (WriteBytes hello);
   Downward; TurnL; WriteL (WritePieces [[x79]; [x7a]]); ReadL 1; ReadL 1; ReadL 100; Up].

Definition state : link (end_state CroutonLib) (end_state CapnProto) :=
  default mixed (run schedule mixed).

Lemma state_reached : rtc link_step (link_start CroutonLib CapnProto q) state.
Proof. apply (run_steps schedule). vm_compute. reflexivity. Qed.

Lemma adapters_end_to_end_witness :
  heard (left state) = hello ∧ heard (left state) `prefix_of` wrote (right state) ∧
  heard (right state) `prefix_of` wrote (left state).
Proof.
  split; [vm_compute; reflexivity|].
  destruct (adapters_end_to_end CroutonLib CapnProto q state q_authorized state_reached)
    as (_ & _ & _ & _ & H1 & H2).
  split; [exact H2|exact H1].
Defined.

(** And the other way round. *)
Lemma adapters_can_join_witness :
  ∃ s', rtc link_step (link_start CapnProto CroutonLib q) s' ∧ joined_peer (left s') = Some (Bp q) ∧
    joined_peer (right s') = Some (Ap q) ∧ heard (right s') = [] ∧ heard (left s') = [].
Proof.
  exact (adapters_can_join CapnProto CroutonLib q (link_start CapnProto CroutonLib q) q_authorized
    (rtc_refl _ _)).
Defined.
End Demo.
