(* ===== verification/RpcContext.v ===== *)
(** The thread-local RPC context: [RPCContext] of capnproto/SecretRPC.cc and
    .hh, which servers and clients of one thread share.

    A context is an object with a reference count; a thread-local pointer
    remembers the one that a thread has. [release] is the end of an
    [kj::Own<RPCContext>]; with the last one the destructor runs, on the thread
    that gave it up, and requires that the pointer of that thread is to this
    object.

    The theorem is about programs whose threads give up only references they
    have got themselves: the destructor's requirement then holds, the pointer
    never dangles, a thread has one context as long as it holds a reference, and
    two threads never share one. *)
From Stdlib Require Import ZArith Lia.
From stdpp Require Import base list numbers option tactics relations gmap.
From S2P Require Import Prelude.

Open Scope nat_scope.

(** The pointers of the threads, and the reference counts of the contexts. *)
Record Runtime := MkRuntime {
  threadSecretContext : gmap nat nat;
  contexts : gmap nat nat;
  nextContext : nat;
}.

Definition set_pointer p r := MkRuntime p (contexts r) (nextContext r).
Definition set_contexts c n r := MkRuntime (threadSecretContext r) c n.

(** [RPCContext::RPCContext], on thread [th]. *)
Definition RPCContext_new (th : nat) : M Runtime nat :=
  r ← get;
  let id := nextContext r in
  modify (set_contexts (<[id := 1]> (contexts r)) (S id));;
  modify (set_pointer (<[th := id]> (threadSecretContext r)));;
  mret id.

(** [kj::addRef] on a context that has been freed is undefined behaviour. *)
Definition addRef (id : nat) : M Runtime unit :=
  r ← get;
  match contexts r !! id with
  | Some n => modify (set_contexts (<[id := S n]> (contexts r)) (nextContext r))
  | None => throw UseAfterFree
  end.

Definition getThreadLocal (th : nat) : M Runtime nat :=
  r ← get;
  match threadSecretContext r !! th with
  | Some existing => addRef existing;; mret existing
  | None => RPCContext_new th
  end.

(** [RPCContext::~RPCContext] on thread [th]; false when the requirement
    fails, after which the pointers are left as they are. *)
Definition RPCContext_destroy (th id : nat) : M Runtime bool :=
  r ← get;
  if bool_decide (threadSecretContext r !! th = Some id) then
    modify (set_pointer (delete th (threadSecretContext r)));; mret true
  else mret false.

(** The end of a reference. *)
Definition release (th id : nat) : M Runtime bool :=
  r ← get;
  match contexts r !! id with
  | Some (S (S n)) => modify (set_contexts (<[id := S n]> (contexts r)) (nextContext r));; mret true
  | Some _ =>
      ok ← RPCContext_destroy th id;
      modify (λ r, set_contexts (delete id (contexts r)) (nextContext r) r);;
      mret ok
  | None => throw UseAfterFree
  end.

(** [kj::AsyncIoContext], with the three parts the program uses; the context
    with number [id] has the one that [kj::setupAsyncIo] made for it. *)
Record AsyncIoContext (W Pv Lv : Type) := MkIoContext {
  waitScope : W; provider : Pv; lowLevelProvider : Lv }.
Arguments waitScope {W Pv Lv}.
Arguments provider {W Pv Lv}.
Arguments lowLevelProvider {W Pv Lv}.

Section accessors.
Context {W Pv Lv : Type} (ioContext : nat → AsyncIoContext W Pv Lv).

(** The accessors of a context, which may not have been freed. *)
Definition getIoContext (id : nat) : M Runtime (AsyncIoContext W Pv Lv) :=
  r ← get;
  match contexts r !! id with Some _ => mret (ioContext id) | None => throw UseAfterFree end.
Definition getWaitScope (id : nat) : M Runtime W := io ← getIoContext id; mret (waitScope io).
Definition getIoProvider (id : nat) : M Runtime Pv := io ← getIoContext id; mret (provider io).
Definition getLowLevelIoProvider (id : nat) : M Runtime Lv :=
  io ← getIoContext id; mret (lowLevelProvider io).

Lemma getIoContext_live id r :
  is_Some (contexts r !! id) → getIoContext id r = (Ok (ioContext id), r).
Proof. intros [n Hn]. unfold getIoContext. by rewrite bind_get, Hn. Qed.
End accessors.

(** * Programs *)

(** The references that are held: by which thread, and to which context. *)
Record System := MkSystem { runtime : Runtime; held : gmap nat (nat * nat) }.

Definition system0 : System := MkSystem (MkRuntime ∅ ∅ 0) ∅.

(** A thread gets a reference, or gives up one of its own. *)
Inductive system_step : System → System → Prop :=
| step_get rt hd th ref id rt' :
    hd !! ref = None → getThreadLocal th rt = (Ok id, rt') →
    system_step (MkSystem rt hd) (MkSystem rt' (<[ref := (th, id)]> hd))
| step_release rt hd ref th id ok rt' :
    hd !! ref = Some (th, id) → release th id rt = (Ok ok, rt') →
    system_step (MkSystem rt hd) (MkSystem rt' (delete ref hd)).

(** The references to a context. *)
Definition refs_to (id : nat) (hd : gmap nat (nat * nat)) : gmap nat (nat * nat) :=
  filter (λ p, p.2.2 = id) hd.

Record sys_inv (s : System) : Prop := {
  sys_held : ∀ ref th id, held s !! ref = Some (th, id) →
    threadSecretContext (runtime s) !! th = Some id;
  sys_live : ∀ th id, threadSecretContext (runtime s) !! th = Some id →
    is_Some (contexts (runtime s) !! id);
  sys_count : ∀ id n, contexts (runtime s) !! id = Some n →
    0 < n ∧ n = size (refs_to id (held s)) ∧ id < nextContext (runtime s);
  sys_inj : ∀ th th' id, threadSecretContext (runtime s) !! th = Some id →
    threadSecretContext (runtime s) !! th' = Some id → th = th';
}.

Lemma refs_to_get hd ref th id id' :
  hd !! ref = None →
  size (refs_to id' (<[ref := (th, id)]> hd)) =
    (if decide (id = id') then S (size (refs_to id' hd)) else size (refs_to id' hd)).
Proof.
  intros Hn. unfold refs_to. case_decide as Hid.
  - rewrite map_filter_insert_True by done. apply map_size_insert_None.
    apply map_lookup_filter_None. by left.
  - by rewrite map_filter_insert_not' by (intros; simplify_eq/=; done || congruence).
Qed.

Lemma refs_to_release hd ref th id id' :
  hd !! ref = Some (th, id) →
  size (refs_to id' hd) =
    (if decide (id = id') then S (size (refs_to id' (delete ref hd)))
     else size (refs_to id' (delete ref hd))).
Proof.
  intros Hr. rewrite <-(insert_delete_id hd ref (th, id) Hr) at 1.
  apply refs_to_get, lookup_delete_eq.
Qed.

(** The two ways to get a context. *)
Lemma getThreadLocal_existing rt th id n :
  threadSecretContext rt !! th = Some id → contexts rt !! id = Some n →
  getThreadLocal th rt = (Ok id, set_contexts (<[id := S n]> (contexts rt)) (nextContext rt) rt).
Proof. intros Hp Hc. unfold getThreadLocal, addRef. mrun. rewrite Hp. mrun. by rewrite Hc. Qed.

Lemma getThreadLocal_new rt th :
  threadSecretContext rt !! th = None →
  getThreadLocal th rt = (Ok (nextContext rt),
    MkRuntime (<[th := nextContext rt]> (threadSecretContext rt))
      (<[nextContext rt := 1]> (contexts rt)) (S (nextContext rt))).
Proof. intros Hp. unfold getThreadLocal. mrun. by rewrite Hp. Qed.

Lemma sys_inv_existing rt hd th ref id n :
  sys_inv (MkSystem rt hd) → hd !! ref = None →
  threadSecretContext rt !! th = Some id → contexts rt !! id = Some n →
  sys_inv (MkSystem (set_contexts (<[id := S n]> (contexts rt)) (nextContext rt) rt)
             (<[ref := (th, id)]> hd)).
Proof.
  intros [Hh Hl Hc Hi] Hn Hp Hcn. cbn in *. constructor; cbn; [| | |done].
  - intros ref' th' id'. rewrite lookup_insert_Some. naive_solver.
  - intros th' id' Hp'. apply Hl in Hp'. rewrite lookup_insert_is_Some'. auto.
  - intros id' n' Hc'. rewrite (refs_to_get _ _ _ _ _ Hn).
    apply lookup_insert_Some in Hc' as [[-> <-]|[Hne Hc']].
    + destruct (Hc _ _ Hcn) as (? & -> & ?). case_decide; [lia|done].
    + destruct (Hc _ _ Hc') as (? & -> & ?). by case_decide.
Qed.

Lemma sys_inv_new rt hd th ref :
  sys_inv (MkSystem rt hd) → hd !! ref = None → threadSecretContext rt !! th = None →
  sys_inv (MkSystem (MkRuntime (<[th := nextContext rt]> (threadSecretContext rt))
      (<[nextContext rt := 1]> (contexts rt)) (S (nextContext rt)))
    (<[ref := (th, nextContext rt)]> hd)).
Proof.
  intros [Hh Hl Hc Hi] Hn Hp. cbn in *.
  assert (∀ th' id', threadSecretContext rt !! th' = Some id' → id' < nextContext rt) as Hlt.
  { intros th' id' Hp'. destruct (Hl _ _ Hp') as [n Hn']. apply (Hc _ _ Hn'). }
  constructor; cbn.
  - intros ref' th' id'. rewrite !lookup_insert_Some. intros [[_ [= <- <-]]|[_ Hr]]; [by left|].
    right. apply Hh in Hr. split; [congruence|done].
  - intros th' id'. rewrite lookup_insert_Some, lookup_insert_is_Some'. naive_solver.
  - intros id' n'. rewrite lookup_insert_Some, (refs_to_get _ _ _ _ _ Hn).
    intros [[<- <-]|[Hne Hc']]; case_decide; try done.
    + assert (refs_to (nextContext rt) hd = ∅) as ->; [|rewrite map_size_empty; lia].
      apply map_empty_filter. intros r [t i] Hr Hi'. cbn in Hi'. subst i.
      apply Hh, Hlt in Hr. lia.
    + destruct (Hc _ _ Hc') as (? & -> & ?). split_and!; [done|done|lia].
  - intros t1 t2 id. rewrite !lookup_insert_Some.
    intros [[-> <-]|[? H1]] [[-> E]|[? H2]]; try done.
    + apply Hlt in H2. lia.
    + subst id. apply Hlt in H1. lia.
    + by eapply Hi.
Qed.

(** Giving up a reference that is not the last one, and the last one. *)
Lemma sys_inv_release rt hd ref th id :
  sys_inv (MkSystem rt hd) → hd !! ref = Some (th, id) →
  ∃ rt', release th id rt = (Ok true, rt') ∧ sys_inv (MkSystem rt' (delete ref hd)) ∧
    (size (refs_to id (delete ref hd)) = 0 → threadSecretContext rt' !! th = None).
Proof.
  intros [Hh Hl Hc Hi] Hr. cbn in *. pose proof (Hh _ _ _ Hr) as Hp.
  destruct (Hl _ _ Hp) as [n Hcn]. destruct (Hc _ _ Hcn) as (Hpos & Hsz & Hlt).
  rewrite (refs_to_release _ _ _ _ _ Hr) in Hsz. rewrite decide_True in Hsz by done.
  unfold release. rewrite bind_get, Hcn. destruct n as [|[|n]]; [lia| |].
  - unfold RPCContext_destroy. mrun. rewrite bool_decide_eq_true_2 by done. mrun.
    eexists. split; [reflexivity|]. split; [|intros _; apply lookup_delete_eq]. constructor; cbn.
    + intros ref' th' id'. rewrite !lookup_delete_Some. intros [Hne Hr']. pose proof (Hh _ _ _ Hr').
      split; [|done]. intros <-. assert (id' = id) as -> by congruence.
      assert (refs_to id (delete ref hd) = ∅) as He by (apply map_size_empty_inv; lia).
      apply map_empty_filter in He. eapply (He ref' (th, id)); [|done].
      by apply lookup_delete_Some.
    + intros th' id'. rewrite lookup_delete_Some, lookup_delete_is_Some. intros [Hne Hp'].
      split; [|by eapply Hl]. intros <-. apply Hne. by eapply Hi.
    + intros id' n'. rewrite lookup_delete_Some. intros [Hne Hc'].
      destruct (Hc _ _ Hc') as (? & Hs & ?). rewrite (refs_to_release _ _ _ _ _ Hr) in Hs.
      rewrite decide_False in Hs by done. done.
    + intros t1 t2 i. rewrite !lookup_delete_Some. intros [_ ?] [_ ?]. by eapply Hi.
  - eexists. split; [reflexivity|]. split; [|lia]. constructor; cbn; [| | |done].
    + intros ref' th' id'. rewrite lookup_delete_Some. intros [_ ?]. by eapply Hh.
    + intros th' id' Hp'. rewrite lookup_insert_is_Some'. right. by eapply Hl.
    + intros id' n'. rewrite lookup_insert_Some. intros [[<- <-]|[Hne Hc']]; [lia|].
      destruct (Hc _ _ Hc') as (? & Hs & ?). rewrite (refs_to_release _ _ _ _ _ Hr) in Hs.
      rewrite decide_False in Hs by done. done.
Qed.

Lemma sys_get rt hd th ref :
  sys_inv (MkSystem rt hd) → hd !! ref = None →
  ∃ id rt', getThreadLocal th rt = (Ok id, rt') ∧ sys_inv (MkSystem rt' (<[ref := (th, id)]> hd)).
Proof.
  intros Hs Hn. destruct (threadSecretContext rt !! th) as [id|] eqn:Hp.
  - destruct (sys_live _ Hs _ _ Hp) as [n Hc]. eexists _, _.
    split; [by eapply getThreadLocal_existing|by apply sys_inv_existing].
  - eexists _, _. split; [by apply getThreadLocal_new|by apply sys_inv_new].
Qed.

Lemma sys_reachable_inv s : rtc system_step system0 s → sys_inv s.
Proof.
  assert (sys_inv system0) as H0 by (constructor; cbn; intros *; by rewrite ?lookup_empty).
  intros Hs. induction Hs as [|s1 s2 s3 Hstep _ IH]; [done|]. apply IH.
  destruct Hstep as [rt hd th ref id rt' Hn Hg|rt hd ref th id ok rt' Hr Hg].
  - destruct (sys_get rt hd th ref H0 Hn) as (id' & rt1 & Hg' & ?). rewrite Hg' in Hg. by simplify_eq.
  - destruct (sys_inv_release _ _ _ _ _ H0 Hr) as (rt1 & Hg' & ? & _). rewrite Hg' in Hg. by simplify_eq.
Qed.

(** As long as every thread gives up its own references only, the runtime
    never touches a context that has been freed, and the requirement of the
    destructor holds. All references of one thread are to one context, which
    is not that of any other thread; and when the last of them is given up, the
    thread has no context any more, so that the next one starts afresh. *)
Theorem contexts_per_thread s :
  rtc system_step system0 s →
  (∀ th, ∃ id rt', getThreadLocal th (runtime s) = (Ok id, rt')) ∧
  (∀ ref th id, held s !! ref = Some (th, id) →
     (∃ rt', release th id (runtime s) = (Ok true, rt') ∧
        ((∀ ref' id', held s !! ref' = Some (th, id') → ref' = ref) →
         threadSecretContext rt' !! th = None)) ∧
     (∀ ref' th' id', held s !! ref' = Some (th', id') → (th = th' ↔ id = id'))).
Proof.
  intros Hs. apply sys_reachable_inv in Hs. destruct s as [rt hd]. cbn. split.
  - intros th. destruct (sys_get rt hd th (fresh (dom hd)) Hs) as (id & rt' & ? & _); [|by eauto].
    apply not_elem_of_dom, is_fresh.
  - intros ref th id Hr. split.
    + destruct (sys_inv_release _ _ _ _ _ Hs Hr) as (rt' & Hrel & _ & Hnone).
      exists rt'. split; [done|]. intros Hlast. apply Hnone, map_size_empty_iff, map_empty_filter.
      intros ref' [th' id'] Hr' Hid. cbn in Hid. subst id'. apply lookup_delete_Some in Hr' as [Hne Hr'].
      pose proof (sys_held _ Hs _ _ _ Hr) as Hp. pose proof (sys_held _ Hs _ _ _ Hr') as Hp'.
      assert (th' = th) as -> by (by eapply (sys_inj _ Hs)). apply Hne. symmetry. by eapply Hlast.
    + intros ref' th' id' Hr'. pose proof (sys_held _ Hs _ _ _ Hr) as Hp.
      pose proof (sys_held _ Hs _ _ _ Hr') as Hp'. cbn in *.
      split; [intros <-; congruence|intros <-; by eapply (sys_inj _ Hs)].
Qed.

(** A reference that is given up on another thread leaves that thread's
    pointer to a freed context behind. *)
Lemma release_elsewhere_dangles :
  ∃ id rt rt', getThreadLocal 1 (runtime system0) = (Ok id, rt) ∧
    release 2 id rt = (Ok false, rt') ∧ (getThreadLocal 1 rt').1 = Fault UseAfterFree.
Proof. eexists _, _, _. split_and!; vm_compute; reflexivity. Qed.

(** * Witnesses *)

Module Demo.
(** Thread 1 has two references, thread 2 one. *)
Definition two_threads : System :=
  MkSystem (MkRuntime {[1 := 0; 2 := 1]} {[0 := 2; 1 := 1]} 2)
    {[0 := (1, 0); 1 := (1, 0); 2 := (2, 1)]}.

Lemma reached : rtc system_step system0 two_threads.
Proof.
  eapply rtc_l; [apply (step_get _ _ 1 0); [reflexivity|vm_compute; reflexivity]|].
  eapply rtc_l; [apply (step_get _ _ 1 1); [reflexivity|vm_compute; reflexivity]|].
  eapply rtc_l; [apply (step_get _ _ 2 2); [reflexivity|vm_compute; reflexivity]|].
  vm_compute. constructor.
Qed.

Lemma contexts_per_thread_witness :
  ∃ rt', release 2 1 (runtime two_threads) = (Ok true, rt') ∧ threadSecretContext rt' !! 2 = None.
Proof.
  destruct (contexts_per_thread two_threads reached) as [_ H].
  destruct (proj1 (H 2 2 1 eq_refl)) as (rt' & Hr & Hl). exists rt'. split; [exact Hr|]. apply Hl.
  intros ref' id' E. unfold two_threads in E. cbn [held] in E.
  rewrite !lookup_insert_Some, lookup_singleton_Some in E. naive_solver.
Defined.
End Demo.
