(* ===== verification/RpcServer.v ===== *)
(** The RPC server: [SecretRPCServer] of capnproto/SecretRPC.cc and .hh.

    The server is an event loop. Its [kj::TaskSet] is a map from task numbers
    to the promises that have not resolved yet ([task]); an event of the
    environment ([event]: an address is parsed, a connection comes in, a
    handshake makes a turn, the timer fires, a peer disconnects, the
    application passes a stream in) runs the continuation of one of them
    ([handle]). [server_step] is any enabled event.

    The capabilities, the RPC system on a connected stream and the listener
    belong to capnp and kj: a connection is the stream, the main interface that
    the application's factory made for it and the reader options. The handler
    of a failed accept returns a null [kj::Promise], which the following
    [then] waits for: that is a null dereference ([NullDeref]), as is the
    wrapper of a listening server that was constructed without one. A [Turn] is
    an event of its own: it happens when the operation of the stream that a
    handshake waits for has resolved, and with a silent peer it never happens.

    The theorems: while the server listens, exactly one accept is pending, and
    the two null dereferences are its only faults; every connection that is
    served has an authenticated and authorized peer, and its main interface was
    made for that peer; an event of one task leaves the others alone; a
    connection that was accepted is out of its handshake after five turns or
    fifteen seconds. *)
From Stdlib Require Import ZArith Lia Strings.Byte.
From stdpp Require Import base list numbers option tactics relations gmap strings.
From S2P Require Import Prelude Crypto Shs Handshake Driver Boxes Streams Connection Wrapper.
From S2P Require Import RpcContext.

Open Scope Z_scope.

(** [kj::SECONDS] *)
Definition kj_SECONDS : Z := 1000000000.

(** [_portPromise]: null in a server that does not listen. *)
Inductive port_promise := NoPort | PortPending | PortReady (port : Z) | PortBroken (e : exception).

Section server.
Context {P : Primitives} {T I Cap Opts : Type} `{AsyncIoStream T}.

(** * Connections *)

(** A stream that reached the server: as it came, or wrapped. *)
Inductive rpc_stream := PlainStream (t : T) | SecretStream (x : @WrappedStream T).
Inductive rpc_identity := PlainIdentity (i : I) | SHSIdentity (i : SHSPeerIdentity I).

Definition rpc_auth_stream : Type := AuthenticatedStream rpc_stream (option rpc_identity).

Definition of_plain (s : AuthenticatedStream T I) : rpc_auth_stream :=
  MkAuth (PlainStream (stream s)) (Some (PlainIdentity (peerIdentity s))).
Definition of_secret (s : secret_stream T I) : rpc_auth_stream :=
  MkAuth (SecretStream (stream s)) (SHSIdentity <$> peerIdentity s).

(** [dynamic_cast<const SHSPeerIdentity*>] *)
Definition as_SHSPeerIdentity (i : option rpc_identity) : option (SHSPeerIdentity I) :=
  match i with Some (SHSIdentity i) => Some i | _ => None end.

Definition MainInterfaceFactory : Type := option (SHSPeerIdentity I) → Cap.

(** [Impl::Connection] *)
Record Connection := MkConnection {
  c_stream : rpc_auth_stream;
  c_mainInterface : Cap;
  c_readerOpts : Opts;
}.

(** * The server *)

(** [Impl::ExportedCap] *)
Record ExportedCap := MkExportedCap { ec_name : string; ec_cap : Cap }.

Inductive task :=
| ParsingAddress
| Accepting
| StreamPromised (opts : Opts)
| WrappingStream (limit : option Z) (opts : Opts) (p : Wrapping T I)
| Serving (c : Connection).

(** [Impl]; [_context] is a reference to the context of a thread, [now] is the
    time of its timer, [failures] what [taskFailed] got. *)
Record Impl := MkImpl {
  _mainInterfaceFactory : MainInterfaceFactory;
  _context : nat;
  _portPromise : port_promise;
  _tasks : gmap nat task;
  nextTask : nat;
  _readerOptions : Opts;
  _shsWrapper : option WrapperState;
  _exportMap : gmap string ExportedCap;
  _listener : option Z;
  now : Z;
  failures : list exception;
}.

Definition set_port v s := MkImpl (_mainInterfaceFactory s) (_context s) v (_tasks s) (nextTask s)
  (_readerOptions s) (_shsWrapper s) (_exportMap s) (_listener s) (now s) (failures s).
Definition set_tasks v n s := MkImpl (_mainInterfaceFactory s) (_context s) (_portPromise s) v n
  (_readerOptions s) (_shsWrapper s) (_exportMap s) (_listener s) (now s) (failures s).
Definition set_listener v s := MkImpl (_mainInterfaceFactory s) (_context s) (_portPromise s) (_tasks s)
  (nextTask s) (_readerOptions s) (_shsWrapper s) (_exportMap s) v (now s) (failures s).
Definition set_now v s := MkImpl (_mainInterfaceFactory s) (_context s) (_portPromise s) (_tasks s)
  (nextTask s) (_readerOptions s) (_shsWrapper s) (_exportMap s) (_listener s) v (failures s).
Definition set_failures v s := MkImpl (_mainInterfaceFactory s) (_context s) (_portPromise s) (_tasks s)
  (nextTask s) (_readerOptions s) (_shsWrapper s) (_exportMap s) (_listener s) (now s) v.

(** [_tasks.add(promise)]; [settle_task] puts what has become of a task in its
    place, and [end_task] takes away a task that has resolved. *)
Definition add_task (t : task) : M Impl unit :=
  modify (λ s, set_tasks (<[nextTask s := t]> (_tasks s)) (S (nextTask s)) s).
Definition settle_task (k : nat) (t : task) : M Impl unit :=
  modify (λ s, set_tasks (<[k := t]> (_tasks s)) (nextTask s) s).
Definition end_task (k : nat) : M Impl unit :=
  modify (λ s, set_tasks (delete k (_tasks s)) (nextTask s) s).

(** [taskFailed], called by the task set when a task is rejected. *)
Definition taskFailed (e : exception) : M Impl unit :=
  modify (λ s, set_failures (failures s ++ [e]) s).

Definition fail_task (k : nat) (e : exception) : M Impl unit := end_task k;; taskFailed e.

(** The two constructors of [Impl], on the context they have got. *)
Definition Impl_init (f : MainInterfaceFactory) (context : nat) (opts : Opts)
    (w : option WrapperState) : Impl :=
  MkImpl f context NoPort ∅ 0 opts w ∅ None 0 [].

Definition Impl_listen (f : MainInterfaceFactory) (context : nat) (opts : Opts)
    (w : option WrapperState) : Impl :=
  (add_task ParsingAddress (set_port PortPending (Impl_init f context opts w))).2.

(** The constructors and the destructor of [SecretRPCServer], on thread
    [th]. *)
Definition SecretRPCServer_listen (th : nat) (w : option WrapperState) (f : MainInterfaceFactory)
    (opts : Opts) : M Runtime Impl :=
  context ← getThreadLocal th; mret (Impl_listen f context opts w).

Definition SecretRPCServer_new (th : nat) (w : option WrapperState) (f : MainInterfaceFactory)
    (opts : Opts) : M Runtime Impl :=
  context ← getThreadLocal th; mret (Impl_init f context opts w).

Definition SecretRPCServer_destroy (th : nat) (s : Impl) : M Runtime bool :=
  release th (_context s).

Definition acceptLoop : M Impl unit := add_task Accepting.

(** The continuation of [parseAddress]: the listener has [port]. *)
Definition addressParsed (k : nat) (port : Z) : M Impl unit :=
  modify (set_listener (Some port));;
  modify (set_port (PortReady port));;
  acceptLoop;;
  end_task k.

(** [parseAddress] or [listen] failed; the fulfiller is destroyed. *)
Definition addressFailed (k : nat) (e : exception) : M Impl unit :=
  modify (set_port (PortBroken e));; fail_task k e.

(** [getPeerName] of a stream, which asks it for its address; the address is
    for the log, but the stream may throw. *)
Definition stream_getpeername (s : rpc_stream) : outcome (bytes + exception) * rpc_stream :=
  match s with
  | PlainStream t => let '(r, t') := k_getpeername t in (r, PlainStream t')
  | SecretStream x => let '(r, x') := getpeername x in (r, SecretStream x')
  end.

Definition startConnection (s : rpc_auth_stream) (opts : Opts) : M Impl (unit + exception) :=
  match stream_getpeername (stream s) with
  | (Ok (inl _), str) =>
      x ← get;
      let peerID := as_SHSPeerIdentity (peerIdentity s) in
      let mainInterface := _mainInterfaceFactory x peerID in
      add_task (Serving (MkConnection (MkAuth str (peerIdentity s)) mainInterface opts));;
      ret tt
  | (Ok (inr e), _) => mret (inr e)
  | (Fault f, _) => throw f
  end.

(** A task that ends with a connection. *)
Definition start_and_end (k : nat) (s : rpc_auth_stream) (opts : Opts) : M Impl unit :=
  r ← startConnection s opts;
  match r with inl _ => end_task k | inr e => fail_task k e end.

(** The continuations of [acceptAuthenticated]. The first one asks for the
    peer's name before it goes on accepting. *)
Definition accepted (k : nat) (s : AuthenticatedStream T I) (ephemeral : bytes) : M Impl unit :=
  match k_getpeername (stream s) with
  | (Ok (inl _), t) =>
      acceptLoop;;
      x ← get;
      w ← deref (_shsWrapper x);
      match wrap_auth w (now x) (MkAuth t (peerIdentity s)) ephemeral with
      | Ok (inl p) => settle_task k (WrappingStream (Some (now x + 15 * kj_SECONDS)) (_readerOptions x) p)
      | Ok (inr e) => fail_task k e
      | Fault f => throw f
      end
  | (Ok (inr e), _) => fail_task k e
  | (Fault f, _) => throw f
  end.

(** The error handler goes on accepting and returns [nullptr], a promise with
    no node, on which the task then waits. *)
Definition acceptFailed (k : nat) : M Impl unit :=
  acceptLoop;; throw NullDeref.

(** [acceptStream], before and after its stream is there. *)
Definition acceptStream (opts : Opts) : M Impl unit := add_task (StreamPromised opts).

Definition SecretRPCServer_acceptStream (opts : Opts) : M Impl unit := acceptStream opts.

Definition streamReady (k : nat) (opts : Opts) (s : AuthenticatedStream T I) (ephemeral : bytes)
  : M Impl unit :=
  x ← get;
  match asyncWrap (_shsWrapper x) (now x) s ephemeral with
  | Ok (inl (Unwrapped s)) => start_and_end k (of_plain s) opts
  | Ok (inl (Wrapped_ p)) => settle_task k (WrappingStream None opts p)
  | Ok (inr e) => fail_task k e
  | Fault f => throw f
  end.

(** What a promise that was being wrapped has come to. *)
Definition wrapResult (k : nat) (limit : option Z) (opts : Opts)
    (q : promise T I (secret_stream T I)) : M Impl unit :=
  match q with
  | Pending p => settle_task k (WrappingStream limit opts p)
  | Resolved s => start_and_end k (of_secret s) opts
  | Rejected e => fail_task k e
  end.

(** The exception of [timeoutAfter], an exception of kj. *)
Context (operationTimedOut : exception).

(** * Events *)

Inductive event :=
| AddressParsed (k : nat) (port : Z)
| AddressFailed (k : nat) (e : exception)
| Accepted (k : nat) (s : AuthenticatedStream T I) (ephemeral : bytes)
| AcceptFailed (k : nat)
| StreamReady (k : nat) (s : AuthenticatedStream T I) (ephemeral : bytes)
| StreamFailed (k : nat) (e : exception)
| Turn (k : nat)
| ConnectTimeout (k : nat)
| AcceptTimeout (k : nat)
| Disconnected (k : nat)
| CallAcceptStream (opts : Opts)
| Clock (t : Z).

(** The task an event is about. *)
Definition task_of (ev : event) : option nat :=
  match ev with
  | AddressParsed k _ | AddressFailed k _ | Accepted k _ _ | AcceptFailed k | StreamReady k _ _
  | StreamFailed k _ | Turn k | ConnectTimeout k | AcceptTimeout k | Disconnected k => Some k
  | CallAcceptStream _ | Clock _ => None
  end.

(** What the server does on an event; [None] when the event cannot happen
    now. *)
Definition handle (ev : event) (s : Impl) : option (outcome unit * Impl) :=
  match ev, task_of ev ≫= (_tasks s !!.) with
  | AddressParsed k port, Some ParsingAddress => Some (addressParsed k port s)
  | AddressFailed k e, Some ParsingAddress => Some (addressFailed k e s)
  | Accepted k c ephemeral, Some Accepting => Some (accepted k c ephemeral s)
  | AcceptFailed k, Some Accepting => Some (acceptFailed k s)
  | StreamReady k c ephemeral, Some (StreamPromised opts) => Some (streamReady k opts c ephemeral s)
  | StreamFailed k e, Some (StreamPromised _) => Some (fail_task k e s)
  | Turn k, Some (WrappingStream limit opts p) =>
      Some (match wrapping_turn p with
            | Ok q => wrapResult k limit opts q s
            | Fault f => (Fault f, s)
            end)
  | ConnectTimeout k, Some (WrappingStream limit opts p) =>
      match wrapping_timeout (now s) p with
      | Some q => Some (wrapResult k limit opts q s)
      | None => None
      end
  | AcceptTimeout k, Some (WrappingStream (Some limit) _ _) =>
      if limit <=? now s then Some (fail_task k operationTimedOut s) else None
  | Disconnected k, Some (Serving _) => Some (end_task k s)
  | CallAcceptStream opts, _ => Some (SecretRPCServer_acceptStream opts s)
  | Clock t, _ => if now s <=? t then Some (modify (set_now t) s) else None
  | _, _ => None
  end.

Definition server_step (s s' : Impl) : Prop := ∃ ev, handle ev s = Some (Ok tt, s').

(** * Exported capabilities *)

(** [Impl::restore]: an unknown name fails a [KJ_REQUIRE]. *)
Definition restore (name : string) (s : Impl) : Cap + string :=
  match _exportMap s !! name with
  | Some e => inl (ec_cap e)
  | None => inr name
  end.

(** [Connection::restore]; a null object ID asks for the main interface. *)
Definition Connection_restore (objectId : option string) (c : Connection) (s : Impl) : Cap + string :=
  match objectId with
  | None => inl (c_mainInterface c)
  | Some name => restore name s
  end.

(** The parts of the context. *)
Section accessors.
Context {W Pv Lv : Type} (ioContext : nat → AsyncIoContext W Pv Lv).
Definition SecretRPCServer_getWaitScope (s : Impl) : M Runtime W := getWaitScope ioContext (_context s).
Definition SecretRPCServer_getIoProvider (s : Impl) : M Runtime Pv := getIoProvider ioContext (_context s).
Definition SecretRPCServer_getLowLevelIoProvider (s : Impl) : M Runtime Lv :=
  getLowLevelIoProvider ioContext (_context s).
End accessors.

(** [getPort]: a branch of the promise. *)
Definition getPort (s : Impl) : M unit port_promise :=
  match _portPromise s with NoPort => throw NullDeref | p => mret p end.

End server.

Arguments rpc_stream T : clear implicits.
Arguments rpc_identity I : clear implicits.
Arguments rpc_auth_stream T I : clear implicits.
Arguments MainInterfaceFactory I Cap : clear implicits.
Arguments Connection T I Cap Opts : clear implicits.
Arguments task T I Cap Opts : clear implicits.
Arguments Impl T I Cap Opts : clear implicits.
Arguments event T I Opts : clear implicits.

(** Takes the handler of an event apart: [Ht] is the task it is about. *)
Ltac run_event ev Hh Ht :=
  unfold handle in Hh;
  destruct ev; cbn [task_of mbind option_bind] in *;
  try (match type of Hh with context [_tasks ?s !! ?k] =>
         destruct (_tasks s !! k) as [[| |?|? ? ?|?]|] eqn:Ht end; try done); simplify_eq;
  unfold addressParsed, addressFailed, accepted, acceptFailed, streamReady, wrapResult,
    start_and_end, startConnection, ret, fail_task, SecretRPCServer_acceptStream, acceptStream,
    acceptLoop, add_task, settle_task, end_task, taskFailed, deref in Hh;
  mrun_in Hh; repeat (case_match; simplify_eq); simplify_eq; cbn.

(** * The invariant *)

Section invariant.
Context {P : Primitives} {PL : PrimitivesLaws P} {T I Cap Opts : Type} `{TL : AsyncIoStreamResolves T}.
Context (timedOut : exception).
Implicit Types (s : Impl T I Cap Opts) (m : gmap nat (task T I Cap Opts)) (t : task T I Cap Opts).

(** A connection of a server with a wrapper: the stream came out of a
    handshake with this wrapper, and the main interface was made for the peer
    of that handshake. *)
Definition served (w : StreamWrapper) (f : MainInterfaceFactory I Cap) (c : Connection T I Cap Opts)
  : Prop :=
  ∃ e pid a, authentic w e pid a ∧ c_stream c = of_secret a ∧
    c_mainInterface c = f (peerIdentity a).

(** A connection of a server without one: the stream as it came in, and a main
    interface for nobody in particular. *)
Definition served_plain (f : MainInterfaceFactory I Cap) (c : Connection T I Cap Opts) : Prop :=
  ∃ a, c_stream c = of_plain a ∧ c_mainInterface c = f None.

Definition task_ok (ow : option WrapperState) (f : MainInterfaceFactory I Cap) t : Prop :=
  match t with
  | WrappingStream _ _ p => ∃ w e, ow = Some w ∧ wrapping_ok (_wrapper w) e p
  | Serving c => match ow with Some w => served (_wrapper w) f c | None => served_plain f c end
  | _ => True
  end.

Definition tasks_ok (ow : option WrapperState) f m (n : nat) : Prop :=
  ∀ k t, m !! k = Some t → (k < n)%nat ∧ task_ok ow f t.

(** The accept loop: at most one pending accept if there is a listener, none
    before. *)
Definition listening (l : option Z) m : Prop :=
  match l with
  | Some _ => (∀ k k', m !! k = Some Accepting → m !! k' = Some Accepting → k' = k) ∧
              (∀ k, m !! k ≠ Some ParsingAddress)
  | None => (∀ k, m !! k ≠ Some Accepting) ∧
            (∀ k k', m !! k = Some ParsingAddress → m !! k' = Some ParsingAddress → k = k')
  end.

Record server_inv s : Prop := {
  inv_tasks : tasks_ok (_shsWrapper s) (_mainInterfaceFactory s) (_tasks s) (nextTask s);
  inv_listen : listening (_listener s) (_tasks s);
  inv_port : ∀ p, _portPromise s = PortReady p ↔ _listener s = Some p;
  inv_wrapper : ∀ w, _shsWrapper s = Some w → wrapper_ok w;
}.

Lemma tasks_ok_empty ow f n : tasks_ok ow f ∅ n.
Proof. intros k t Hk. by rewrite lookup_empty in Hk. Qed.

Lemma tasks_ok_add ow f m n t : tasks_ok ow f m n → task_ok ow f t → tasks_ok ow f (<[n := t]> m) (S n).
Proof.
  intros Hm Ht k t' Hk. destruct (decide (k = n)) as [->|Hne].
  - rewrite lookup_insert_eq in Hk. simplify_eq. by split; [lia|].
  - rewrite lookup_insert_ne in Hk by done. apply Hm in Hk as [? ?]. by split; [lia|].
Qed.

Lemma tasks_ok_settle ow f m n k t t0 :
  m !! k = Some t0 → tasks_ok ow f m n → task_ok ow f t → tasks_ok ow f (<[k := t]> m) n.
Proof.
  intros Hk Hm Ht k' t' Hk'. destruct (decide (k' = k)) as [->|Hne].
  - rewrite lookup_insert_eq in Hk'. simplify_eq. apply Hm in Hk as [? ?]. by split.
  - rewrite lookup_insert_ne in Hk' by done. by apply Hm.
Qed.

Lemma tasks_ok_end ow f m n k : tasks_ok ow f m n → tasks_ok ow f (delete k m) n.
Proof. intros Hm k' t' Hk'. apply lookup_delete_Some in Hk' as [_ ?]. by apply Hm. Qed.

Lemma tasks_fresh ow f m n : tasks_ok ow f m n → m !! n = None.
Proof.
  intros Hm. destruct (m !! n) as [t|] eqn:E; [|done]. apply Hm in E as [? _]. lia.
Qed.

(** Tasks other than the accept loop's come and go without an effect on
    it. *)
Definition ordinary t : Prop :=
  match t with Accepting | ParsingAddress => False | _ => True end.

Lemma listening_ext l m m' :
  (∀ k u, ¬ ordinary u → m' !! k = Some u ↔ m !! k = Some u) → listening l m → listening l m'.
Proof.
  intros E. pose proof (λ k, E k Accepting (λ H, H)) as Ea.
  pose proof (λ k, E k ParsingAddress (λ H, H)) as Ep.
  destruct l; cbn; intros [Ha Hp]; (split; [|naive_solver]).
  - intros k k'. rewrite !Ea. apply Ha.
  - naive_solver.
Qed.

Lemma listening_add l m n t :
  m !! n = None → ordinary t → listening l m → listening l (<[n := t]> m).
Proof.
  intros Hn Ht. apply listening_ext. intros k u Hu. destruct (decide (k = n)) as [->|Hne].
  - rewrite lookup_insert_eq, Hn. naive_solver.
  - by rewrite lookup_insert_ne.
Qed.

Lemma listening_settle l m k t t0 :
  m !! k = Some t0 → ordinary t0 → ordinary t → listening l m → listening l (<[k := t]> m).
Proof.
  intros Hk H0 Ht. apply listening_ext. intros k' u Hu. destruct (decide (k' = k)) as [->|Hne].
  - rewrite lookup_insert_eq, Hk. naive_solver.
  - by rewrite lookup_insert_ne.
Qed.

Lemma listening_end l m k t0 :
  m !! k = Some t0 → ordinary t0 → listening l m → listening l (delete k m).
Proof.
  intros Hk H0. apply listening_ext. intros k' u Hu. destruct (decide (k' = k)) as [->|Hne].
  - rewrite lookup_delete_eq, Hk. naive_solver.
  - by rewrite lookup_delete_ne.
Qed.

(** A pending accept is replaced by a new one, of number [n], and an ordinary
    task in its place or nothing. *)
Lemma listening_next l m k n t :
  m !! k = Some Accepting → m !! n = None → ordinary t → listening l m →
  listening l (<[k := t]> (<[n := Accepting]> m)) ∧
  listening l (delete k (<[n := Accepting]> m)).
Proof.
  intros Hk Hn Ht Hl. assert (k ≠ n) as Hkn by congruence.
  destruct l as [p|]; cbn in *; destruct Hl as [Ha Hp]; [|by destruct (Ha k)].
  split; split.
  - intros k1 k2. rewrite !lookup_insert_Some. naive_solver.
  - intros k1. rewrite !lookup_insert_Some. naive_solver.
  - intros k1 k2. rewrite !lookup_delete_Some, !lookup_insert_Some. naive_solver.
  - intros k1. rewrite lookup_delete_Some, lookup_insert_Some. naive_solver.
Qed.

(** It is given up. *)
Lemma listening_stop l m k : m !! k = Some Accepting → listening l m → listening l (delete k m).
Proof.
  intros Hk. destruct l as [p|]; cbn; intros [Ha Hp]; [|by destruct (Ha k)].
  split; [intros k1 k2|intros k1]; rewrite !lookup_delete_Some; naive_solver.
Qed.

(** The accept loop begins when the address has been parsed. *)
Lemma listening_begin m k n p :
  m !! k = Some ParsingAddress → m !! n = None → listening None m →
  listening (Some p) (delete k (<[n := Accepting]> m)).
Proof.
  intros Hk Hn [Ha Hp]. assert (k ≠ n) as Hkn by congruence. split.
  - intros k1 k2. rewrite !lookup_delete_Some, !lookup_insert_Some. naive_solver.
  - intros k'. rewrite lookup_delete_Some, lookup_insert_Some. intros [? [[? [=]]|[? Hk']]].
    by destruct (Hp k k' Hk Hk').
Qed.

Lemma listening_give_up m k l :
  m !! k = Some ParsingAddress → listening l m → l = None ∧ listening l (delete k m).
Proof.
  intros Hk. destruct l as [p|]; cbn; intros [Ha Hp]; [by destruct (Hp k)|].
  split; [done|]. split.
  - intros k'. rewrite lookup_delete_Some. naive_solver.
  - intros k1 k2. rewrite !lookup_delete_Some. naive_solver.
Qed.

(** The configuration of a server, which no event changes. *)
Definition same_config s s' : Prop :=
  _shsWrapper s' = _shsWrapper s ∧ _mainInterfaceFactory s' = _mainInterfaceFactory s ∧
  _exportMap s' = _exportMap s ∧ _readerOptions s' = _readerOptions s.

(** A handler returns and keeps the invariant and the configuration. *)
Definition handled s (r : outcome unit * Impl T I Cap Opts) : Prop :=
  r.1 = Ok tt ∧ server_inv r.2 ∧ same_config s r.2.

Lemma fail_task_ok s k t e :
  server_inv s → _tasks s !! k = Some t → ordinary t → handled s (fail_task k e s).
Proof.
  intros Hi Hk Ho. split_and!; try done. destruct Hi as [Hm Hl Hp Hwok].
  constructor; cbn; [by apply tasks_ok_end|by eapply listening_end|done..].
Qed.

Lemma settle_task_ok s k t t' :
  server_inv s → _tasks s !! k = Some t → ordinary t → ordinary t' →
  task_ok (_shsWrapper s) (_mainInterfaceFactory s) t' → handled s (settle_task k t' s).
Proof.
  intros [Hm Hl Hp Hwok] Hk Ho Ho' Ht. split_and!; try done.
  constructor; cbn; [by eapply tasks_ok_settle|by eapply listening_settle|done..].
Qed.

(** A task that ends with a new connection. *)
Lemma getpeername_runs (str : rpc_stream T) :
  ∃ r str', stream_getpeername str = (Ok r, str') ∧
    match str with
    | PlainStream _ => ∃ u : T, str' = PlainStream u
    | SecretStream x => ∃ u : T, str' = SecretStream (set_inner u x)
    end.
Proof.
  destruct str as [t|x]; cbn.
  - destruct (k_getpeername_returns t) as (r & t' & ->). eexists _, _. split; [done|]. by exists t'.
  - unfold getpeername. destruct (k_getpeername_returns (w_inner x)) as (r & t' & Hr).
    rewrite (on_inner_run _ _ _ _ Hr). eexists _, _. split; [done|]. by exists t'.
Qed.

Lemma start_ok s k t a opts :
  server_inv s → _tasks s !! k = Some t → ordinary t →
  (∀ r str, stream_getpeername (stream a) = (Ok r, str) →
   task_ok (_shsWrapper s) (_mainInterfaceFactory s) (Serving (MkConnection (MkAuth str (peerIdentity a))
        (_mainInterfaceFactory s (as_SHSPeerIdentity (peerIdentity a))) opts))) →
  handled s (start_and_end k a opts s).
Proof.
  intros Hi Hk Ho Ht. unfold start_and_end, startConnection.
  destruct (getpeername_runs (stream a)) as (r & str & Hr & _). specialize (Ht _ _ Hr). rewrite Hr.
  destruct r as [b|ex]; [|rewrite bind_ret; by eapply fail_task_ok].
  destruct Hi as [Hm Hl Hp Hwok]. pose proof (tasks_fresh _ _ _ _ Hm) as Hn.
  assert (k ≠ nextTask s) by congruence. split_and!; try done. constructor; cbn; [| |done..].
  - by apply tasks_ok_end, tasks_ok_add.
  - apply (listening_end _ _ _ t); [|done|by apply listening_add].
    by apply lookup_insert_Some; right.
Qed.

Lemma of_secret_identity (a : secret_stream T I) :
  as_SHSPeerIdentity (peerIdentity (of_secret a)) = peerIdentity a.
Proof. by destruct a as [x [i|]]. Qed.

(** What has become of a promise that was being wrapped. *)
Lemma wrapResult_ok s k limit opts p q w e pid dl :
  server_inv s → _tasks s !! k = Some (WrappingStream limit opts p) →
  _shsWrapper s = Some w → promise_ok (_wrapper w) e pid dl q →
  handled s (wrapResult k limit opts q s).
Proof.
  intros Hi Hk Hw Hq. destruct q as [p'|a|ex]; cbn [wrapResult promise_ok] in *.
  - eapply settle_task_ok; try done. destruct Hq as (Hp & _). by exists w, e.
  - eapply start_ok; try done. intros r str Hr. cbn [task_ok]. rewrite Hw, of_secret_identity.
    destruct (getpeername_runs (stream (of_secret a))) as (r' & str' & Hr' & t' & Hstr).
    rewrite Hr in Hr'. injection Hr' as <- <-. rewrite Hstr.
    exists e, pid, (MkAuth (set_inner t' (stream a)) (peerIdentity a)). by split_and!.
  - by eapply fail_task_ok.
Qed.

(** An accept that is over, with the accept loop going on. *)
Lemma accept_next_ok s k t :
  server_inv s → _tasks s !! k = Some Accepting → ordinary t →
  task_ok (_shsWrapper s) (_mainInterfaceFactory s) t →
  handled s ((acceptLoop;; settle_task k t) s).
Proof.
  intros [Hm Hl Hp Hwok] Hk Ho Ht. pose proof (tasks_fresh _ _ _ _ Hm) as Hn.
  split_and!; try done. constructor; cbn; [| |done..].
  - eapply (tasks_ok_settle _ _ _ _ k _ Accepting); [|by apply tasks_ok_add|done].
    apply lookup_insert_Some. right. split; [congruence|done].
  - by apply listening_next.
Qed.

Lemma accept_fail_ok s k e :
  server_inv s → _tasks s !! k = Some Accepting →
  handled s ((acceptLoop;; fail_task k e) s) ∧ handled s (fail_task k e s).
Proof.
  intros [Hm Hl Hp Hwok] Hk. pose proof (tasks_fresh _ _ _ _ Hm) as Hn.
  split; (split_and!; try done; constructor; cbn; [| |done..]).
  - by apply tasks_ok_end, tasks_ok_add.
  - by apply (listening_next _ _ _ _ (StreamPromised (_readerOptions s))).
  - by apply tasks_ok_end.
  - by apply listening_stop.
Qed.

(** What the accept handler does: with a name for the peer the loop goes on
    before anything else can fail. *)
Definition named (a : AuthenticatedStream T I) : Prop :=
  ∃ b u, k_getpeername (stream a) = (Ok (inl b), u).

Lemma accepted_runs s k a e :
  server_inv s → is_Some (_shsWrapper s) → _tasks s !! k = Some Accepting →
  (∃ t, accepted k a e s = (acceptLoop;; settle_task k t) s ∧ named a ∧ ordinary t ∧
     task_ok (_shsWrapper s) (_mainInterfaceFactory s) t ∧
     ∃ p, t = WrappingStream (Some (now s + 15 * kj_SECONDS)) (_readerOptions s) p) ∨
  (∃ ex, accepted k a e s = (acceptLoop;; fail_task k ex) s ∧ named a) ∨
  (∃ ex, accepted k a e s = fail_task k ex s ∧ ¬ named a).
Proof.
  intros [Hm Hl Hp Hwok] [w Hw] Hk. unfold accepted, named.
  destruct (k_getpeername_returns (stream a)) as ([b|ex] & t' & ->).
  2: { right; right. exists ex. split; [done|]. by intros (? & ? & [=]). }
  destruct (wrap_auth_starts w (now s) (MkAuth t' (peerIdentity a)) e (Hwok w Hw)) as (r & Hwrap & _).
  unfold acceptLoop, add_task. rewrite bind_modify, bind_get. cbn [_shsWrapper set_tasks now].
  rewrite Hw. cbn [deref]. rewrite bind_ret, Hwrap. destruct r as [p|ex].
  - left. eexists. split; [reflexivity|]. split; [by eexists _, _|]. split; [done|].
    split; [|by eexists]. exists w, e. split; [done|]. by destruct (wrap_auth_ok _ _ _ _ _ Hwrap).
  - right; left. exists ex. split; [done|]. by eexists _, _.
Qed.

(** Without a wrapper the handler of an accepted connection dereferences a null
    pointer, if it gets as far as that. *)
Lemma accepted_no_wrapper s k a e :
  _shsWrapper s = None →
  (named a ∧ (accepted k a e s).1 = Fault NullDeref) ∨
  (∃ ex, accepted k a e s = fail_task k ex s ∧ ¬ named a).
Proof.
  intros Hw. unfold accepted, named.
  destruct (k_getpeername_returns (stream a)) as ([b|ex] & t' & ->).
  - left. split; [by eexists _, _|]. unfold acceptLoop, add_task. rewrite bind_modify, bind_get.
    cbn [_shsWrapper set_tasks]. by rewrite Hw.
  - right. exists ex. split; [done|]. by intros (? & ? & [=]).
Qed.

(** The events whose handlers fault. *)
Definition faults (ev : event T I Opts) s : Prop :=
  match ev with
  | AcceptFailed _ => True
  | Accepted _ a _ => named a ∧ _shsWrapper s = None
  | _ => False
  end.

Lemma accepted_ok s k a e :
  server_inv s → _tasks s !! k = Some Accepting → ¬ faults (Accepted k a e) s →
  handled s (accepted k a e s).
Proof.
  intros Hi Hk Hf. destruct (_shsWrapper s) as [w|] eqn:Hw.
  - destruct (accepted_runs s k a e Hi ltac:(by rewrite Hw) Hk)
      as [(t & -> & _ & ? & ? & _)|[(ex & -> & _)|(ex & -> & _)]].
    + by apply accept_next_ok.
    + apply (accept_fail_ok s k ex Hi Hk).
    + apply (accept_fail_ok s k ex Hi Hk).
  - destruct (accepted_no_wrapper s k a e Hw) as [[Hn _]|(ex & -> & _)]; [by destruct Hf|].
    apply (accept_fail_ok s k ex Hi Hk).
Qed.

Lemma addressParsed_ok s k port :
  server_inv s → _tasks s !! k = Some ParsingAddress → handled s (addressParsed k port s).
Proof.
  intros [Hm Hl Hp Hwok] Hk. pose proof (tasks_fresh _ _ _ _ Hm) as Hn.
  destruct (listening_give_up _ _ _ Hk Hl) as [Hnone _]. rewrite Hnone in Hl.
  split_and!; try done. constructor; cbn; [| | |done].
  - by apply tasks_ok_end, tasks_ok_add.
  - by apply listening_begin.
  - intros p. split; by intros [= ->].
Qed.

Lemma addressFailed_ok s k e :
  server_inv s → _tasks s !! k = Some ParsingAddress → handled s (addressFailed k e s).
Proof.
  intros [Hm Hl Hp Hwok] Hk. destruct (listening_give_up _ _ _ Hk Hl) as [Hnone Hl'].
  split_and!; try done. constructor; cbn; [by apply tasks_ok_end|done| |done].
  intros p. change (PortBroken e = PortReady p ↔ _listener s = Some p). rewrite Hnone. by split.
Qed.

Lemma streamReady_ok s k opts a e :
  server_inv s → _tasks s !! k = Some (StreamPromised opts) → handled s (streamReady k opts a e s).
Proof.
  intros Hi Hk. pose proof (inv_wrapper s Hi) as Hwok. unfold streamReady. rewrite bind_get. unfold asyncWrap.
  destruct (_shsWrapper s) as [w|] eqn:Hw.
  - destruct (wrap_auth_starts w (now s) a e (Hwok w eq_refl)) as ([p|ex] & Hwrap & _); rewrite Hwrap;
      [|by eapply fail_task_ok].
    destruct (wrap_auth_ok _ _ _ _ _ Hwrap) as (Hok & _).
    eapply settle_task_ok; try done. cbn. rewrite Hw. by exists w, e.
  - eapply start_ok; try done. intros r str Hr. cbn [task_ok]. rewrite Hw.
    destruct (getpeername_runs (stream (of_plain a))) as (r' & str' & Hr' & t' & Hstr).
    rewrite Hr in Hr'. injection Hr' as <- <-. rewrite Hstr.
    by exists (MkAuth t' (peerIdentity a)).
Qed.

Lemma acceptStream_ok s opts : server_inv s → handled s (acceptStream opts s).
Proof.
  intros [Hm Hl Hp Hwok]. split_and!; try done. pose proof (tasks_fresh _ _ _ _ Hm) as Hn.
  constructor; cbn; [by apply tasks_ok_add|by apply listening_add|done..].
Qed.

(** * Events *)

Lemma handle_ok ev s r :
  server_inv s → ¬ faults ev s → handle timedOut ev s = Some r → handled s r.
Proof.
  intros Hi Hnf Hh. unfold handle in Hh.
  destruct ev; cbn [task_of mbind option_bind] in Hh;
    try (match type of Hh with context [_tasks s !! ?k] =>
           destruct (_tasks s !! k) as [[| |o|lim o p|c]|] eqn:Ht end; try done); simplify_eq.
  - by apply addressParsed_ok.
  - by apply addressFailed_ok.
  - by apply accepted_ok.
  - by apply streamReady_ok.
  - by eapply fail_task_ok.
  - destruct (inv_tasks s Hi _ _ Ht) as (_ & w & e & Hw & Hok).
    destruct (wrapping_turn_spec _ _ _ Hok) as (q & Hq & Hp & _). rewrite Hq.
    by eapply wrapResult_ok.
  - destruct (inv_tasks s Hi _ _ Ht) as (_ & w & e & Hw & Hok).
    destruct (wrapping_timeout (now s) p) as [q|] eqn:Hq; simplify_eq.
    eapply (wrapResult_ok _ _ _ _ _ _ _ e (innerId p) None); try done.
    unfold wrapping_timeout in Hq. by repeat case_match; simplify_eq.
  - destruct lim as [lim|]; [|done]. case_match; simplify_eq. by eapply fail_task_ok.
  - destruct Hi as [Hm Hl Hp Hwok]. split_and!; try done.
    constructor; cbn; [by apply tasks_ok_end|by eapply listening_end|done..].
  - by apply acceptStream_ok.
  - case_match; simplify_eq. destruct Hi. by split_and!.
Qed.

Lemma handle_faults ev s r :
  faults ev s → handle timedOut ev s = Some r → r.1 = Fault NullDeref.
Proof.
  intros Hf Hh. unfold handle in Hh. destruct ev as [| |k a e|k| | | | | | | |]; try done;
    cbn [task_of mbind option_bind] in Hh; destruct (_tasks s !! k) as [[| | | |]|]; try done; simplify_eq.
  - destruct Hf as [Hn Hw].
    by destruct (accepted_no_wrapper s k a e Hw) as [[_ ?]|(ex & _ & Hnn)]; [|destruct Hnn].
  - done.
Qed.

(** Which events are handled, and which are not. *)
Lemma handle_faults_iff ev s r s' :
  server_inv s → handle timedOut ev s = Some (r, s') →
  match ev with
  | AcceptFailed _ => r = Fault NullDeref
  | Accepted _ a _ => r = Fault NullDeref ∧ named a ∧ _shsWrapper s = None ∨
                      r = Ok tt ∧ (named a → is_Some (_shsWrapper s))
  | _ => r = Ok tt
  end.
Proof.
  intros Hi Hh. pose proof (λ r, handle_faults ev s r) as Hf. pose proof (λ r, handle_ok ev s r Hi) as Hok.
  destruct ev as [| |k a e|k| | | | | | | |]; cbn [faults] in *;
    try (by destruct (Hok _ ltac:(by intros []) Hh) as (? & _)).
  2: exact (Hf _ Logic.I Hh).
  destruct (k_getpeername_returns (stream a)) as ([b|ex] & t' & Hn).
  - assert (named a) as Hnm by (by exists b, t'). destruct (_shsWrapper s) as [w|].
    + right. destruct (Hok _ ltac:(by intros [_ ?]) Hh) as (? & _). by split; [|eexists].
    + left. by split; [exact (Hf _ (conj Hnm eq_refl) Hh)|].
  - assert (¬ named a) as Hnm by (intros (? & ? & ?); congruence).
    right. destruct (Hok _ ltac:(by intros [? _]) Hh) as (? & _). done.
Qed.

(** An event that is handled keeps the invariant and the configuration. *)
Lemma handle_returns ev s s' :
  server_inv s → handle timedOut ev s = Some (Ok tt, s') →
  ¬ faults ev s ∧ server_inv s' ∧ same_config s s'.
Proof.
  intros Hi Hh. assert (¬ faults ev s) as Hf
    by (intros Hf; by specialize (handle_faults _ _ _ Hf Hh)).
  by destruct (handle_ok _ _ _ Hi Hf Hh) as (_ & ? & ?).
Qed.

(** A server as it is constructed, with a wrapper or without. *)
Inductive server_start : Impl T I Cap Opts → Prop :=
| start_idle f ctx opts ow :
    (∀ w, ow = Some w → wrapper_ok w) → server_start (Impl_init f ctx opts ow)
| start_listen f ctx opts ow :
    (∀ w, ow = Some w → wrapper_ok w) → server_start (Impl_listen f ctx opts ow).

Definition server_reachable s : Prop := ∃ s0, server_start s0 ∧ rtc (server_step timedOut) s0 s.

Lemma server_start_inv s : server_start s → server_inv s.
Proof.
  destruct 1 as [f ctx opts ow Hw|f ctx opts ow Hw].
  - constructor; [apply tasks_ok_empty| |by intros p|done].
    split; [intros k|intros k k']; cbn; by rewrite lookup_empty.
  - constructor; [|split| |].
    + apply (tasks_ok_add _ _ ∅ 0); [apply tasks_ok_empty|done].
    + intros k. cbn. rewrite lookup_insert_Some, lookup_empty. naive_solver.
    + intros k k'. cbn. rewrite !lookup_insert_Some, !lookup_empty. naive_solver.
    + by intros p.
    + done.
Qed.

Lemma server_steps_inv s s' :
  server_inv s → rtc (server_step timedOut) s s' → server_inv s' ∧ same_config s s'.
Proof.
  intros Hi. induction 1 as [s|s s1 s' [ev Hh] _ IH]; [by split|].
  destruct (handle_returns _ _ _ Hi Hh) as (_ & Hi1 & (? & ? & ? & ?)).
  destruct (IH Hi1) as (? & (? & ? & ? & ?)). split; [done|]. split_and!; cbn in *; congruence.
Qed.

(** An event runs one task: the others stay as they are. *)
Lemma handle_frame ev s r s' k t :
  server_inv s → handle timedOut ev s = Some (r, s') → task_of ev ≠ Some k →
  _tasks s !! k = Some t → _tasks s' !! k = Some t.
Proof.
  intros Hi Hh Hne Hk. pose proof (tasks_fresh _ _ _ _ (inv_tasks s Hi)) as Hn.
  assert (nextTask s ≠ k) as Hnk by congruence. run_event ev Hh Ht.
  all: by rewrite ?lookup_delete_ne, ?lookup_insert_ne by congruence.
Qed.

Lemma server_reachable_inv s : server_reachable s → server_inv s.
Proof. intros (s0 & H0 & Hs). by eapply server_steps_inv; [apply server_start_inv|]. Qed.

(** The fate of the task itself. *)
Lemma wrapResult_task s k limit opts q :
  server_inv s → is_Some (_tasks s !! k) →
  _tasks (wrapResult k limit opts q s).2 !! k =
    match q with Pending p => Some (WrappingStream limit opts p) | _ => None end.
Proof.
  intros Hi [t Hk]. destruct q as [p|a|ex]; cbn.
  - apply lookup_insert_eq.
  - unfold start_and_end, startConnection.
    destruct (getpeername_runs (stream (of_secret a))) as ([b|e] & str & -> & _);
      apply lookup_delete_eq.
  - apply lookup_delete_eq.
Qed.

Lemma turns_left_bound (p : Wrapping T I) : (turns_left p <= handshake_turns)%nat.
Proof.
  unfold turns_left, handshake_turns. destruct (w_handshake (conn p)) as [h|]; [|lia].
  unfold moves_left. destruct (_step h); lia.
Qed.

(** A turn of a handshake ends the task or brings it nearer to its end. *)
Lemma turn_decreases s k limit opts p w e :
  server_inv s → _tasks s !! k = Some (WrappingStream limit opts p) →
  _shsWrapper s = Some w → wrapping_ok (_wrapper w) e p →
  ∃ s', handle timedOut (Turn k) s = Some (Ok tt, s') ∧
    match _tasks s' !! k with
    | Some (WrappingStream _ _ p') => (turns_left p' < turns_left p)%nat
    | Some _ => False
    | None => True
    end.
Proof.
  intros Hi Hk Hw Hok. destruct (wrapping_turn_spec _ _ _ Hok) as (q & Hq & Hp & Hm).
  assert (handle timedOut (Turn k) s = Some (wrapResult k limit opts q s)) as Hh
    by (unfold handle; cbn; by rewrite Hk, Hq).
  destruct (handle_ok (Turn k) _ _ Hi ltac:(by intros []) Hh) as (Hret & _).
  pose proof (wrapResult_task s k limit opts q Hi ltac:(by eexists)) as Ht.
  destruct (wrapResult k limit opts q s) as [r s']. cbn in *. subst r. exists s'.
  split; [done|]. rewrite Ht. by destruct q.
Qed.

(** ** The timer of an accepted connection *)

Lemma handle_nextTask ev s r s' :
  handle timedOut ev s = Some (r, s') → (nextTask s <= nextTask s')%nat.
Proof. intros Hh. run_event ev Hh Ht; lia. Qed.

(** The number of a task that is over is not used again. *)
Lemma handle_gone ev s r s' k :
  handle timedOut ev s = Some (r, s') → (k < nextTask s)%nat → _tasks s !! k = None →
  _tasks s' !! k = None.
Proof.
  intros Hh Hk Hn. assert (nextTask s ≠ k) by lia. run_event ev Hh Ht.
  all: by rewrite ?lookup_delete_None, ?lookup_insert_ne by congruence; auto.
Qed.

(** A connection that came in and has to be through its handshake by
    [limit]: it is still in the handshake, or the task is over. *)
Definition timed_slot (limit : Z) (k : nat) s : Prop :=
  (k < nextTask s)%nat ∧
  match _tasks s !! k with
  | None => True
  | Some (WrappingStream l _ _) => l = Some limit
  | Some _ => False
  end.

Lemma accepted_slot k a e s s' :
  server_inv s → handle timedOut (Accepted k a e) s = Some (Ok tt, s') →
  timed_slot (now s + 15 * kj_SECONDS) k s'.
Proof.
  intros Hi Hh. pose proof (handle_nextTask _ _ _ _ Hh) as Hle.
  destruct (handle_returns _ _ _ Hi Hh) as (Hnf & _ & _).
  unfold handle in Hh. cbn [task_of mbind option_bind] in Hh.
  destruct (_tasks s !! k) as [[| | | |]|] eqn:Hk; try done. apply Some_inj in Hh.
  destruct (inv_tasks s Hi _ _ Hk) as [Hlt _]. split; [lia|].
  destruct (_shsWrapper s) as [w|] eqn:Hw.
  - destruct (accepted_runs s k a e Hi ltac:(by rewrite Hw) Hk)
      as [(t & E & _ & _ & _ & p & ->)|[(ex & E & _)|(ex & E & _)]]; rewrite E in Hh;
      injection Hh as <-; cbn; by rewrite ?lookup_insert_eq, ?lookup_delete_eq.
  - destruct (accepted_no_wrapper s k a e Hw) as [[Hn _]|(ex & E & _)]; [by destruct Hnf|].
    rewrite E in Hh. injection Hh as <-. cbn. by rewrite lookup_delete_eq.
Qed.

Lemma timed_slot_step limit k s s' :
  server_inv s → timed_slot limit k s → server_step timedOut s s' → timed_slot limit k s'.
Proof.
  intros Hi [Hlt Hk] [ev Hh]. pose proof (handle_nextTask _ _ _ _ Hh). split; [lia|].
  destruct (_tasks s !! k) as [t|] eqn:Ht; [|by rewrite (handle_gone ev s _ s' k Hh)].
  destruct t as [| | |l o p|]; try done. subst l. destruct (decide (task_of ev = Some k)) as [Hev|Hev].
  2: by rewrite (handle_frame ev s _ s' k _ Hi Hh Hev Ht).
  pose proof (λ q, wrapResult_task s k (Some limit) o q Hi ltac:(by eexists)) as Hw.
  unfold handle in Hh. destruct ev; cbn in Hev; simplify_eq; cbn [task_of mbind option_bind] in Hh;
    rewrite Ht in Hh; try done.
  - destruct (wrapping_turn p) as [q|f]; [|done]. apply Some_inj in Hh. specialize (Hw q).
    rewrite Hh in Hw. cbn [snd] in Hw. rewrite Hw. by destruct q.
  - destruct (wrapping_timeout (now s) p) as [q|]; [|done]. apply Some_inj in Hh. specialize (Hw q).
    rewrite Hh in Hw. cbn [snd] in Hw. rewrite Hw. by destruct q.
  - case_match; [|done]. apply Some_inj in Hh. injection Hh as <-. cbn. by rewrite lookup_delete_eq.
Qed.

Lemma timed_slot_steps limit k s s' :
  server_inv s → timed_slot limit k s → rtc (server_step timedOut) s s' → timed_slot limit k s'.
Proof.
  intros Hi Hk Hs. induction Hs as [|s s1 s2 H1 _ IH]; [done|].
  assert (server_inv s1) as Hi1 by (destruct H1 as [ev Hh]; by destruct (handle_returns _ _ _ Hi Hh) as (_ & ? & _)).
  apply IH; [done|]. by apply (timed_slot_step limit k s s1).
Qed.

(** ** The accept loop *)

(** Events of the accept loop, and those of it that have a name for the
    peer. *)
Definition accepts_event (ev : event T I Opts) : bool :=
  match ev with Accepted _ _ _ | AcceptFailed _ | AddressParsed _ _ => true | _ => false end.
Definition named_event (ev : event T I Opts) : Prop :=
  match ev with Accepted _ a _ => named a | _ => True end.

(** Only these events begin an accept or change the listener. *)
Lemma other_events ev s r s' k :
  accepts_event ev = false → handle timedOut ev s = Some (r, s') →
  _listener s' = _listener s ∧ (_tasks s' !! k = Some Accepting → _tasks s !! k = Some Accepting).
Proof.
  intros Ha Hh. run_event ev Hh Ht; try discriminate Ha;
    (split; [done|]; rewrite ?lookup_delete_Some, ?lookup_insert_Some; naive_solver).
Qed.

(** An accept stays pending until its own event. *)
Lemma other_events_keep ev s r s' k :
  server_inv s → accepts_event ev = false → handle timedOut ev s = Some (r, s') →
  _tasks s !! k = Some Accepting → _tasks s' !! k = Some Accepting.
Proof.
  intros Hi Ha Hh Hk. eapply (handle_frame ev); try done. intros Hev.
  unfold handle in Hh. destruct ev; simplify_eq/=; by rewrite Hk in Hh.
Qed.

Definition accepting s : Prop :=
  match _listener s with Some _ => ∃ k, _tasks s !! k = Some Accepting | None => True end.

Lemma accepting_next s k t e :
  server_inv s → _tasks s !! k = Some Accepting →
  accepting ((acceptLoop;; settle_task k t) s).2 ∧ accepting ((acceptLoop;; fail_task k e) s).2.
Proof.
  intros Hi Hk. pose proof (tasks_fresh _ _ _ _ (inv_tasks s Hi)) as Hn.
  assert (k ≠ nextTask s) by congruence. unfold accepting, fail_task, settle_task, end_task. mrun.
  destruct (_listener s); [|done]. split; exists (nextTask s).
  - rewrite lookup_insert_ne by done. apply lookup_insert_eq.
  - rewrite lookup_delete_ne by done. apply lookup_insert_eq.
Qed.

Lemma accepting_step ev s r s' :
  server_inv s → named_event ev → handle timedOut ev s = Some (Ok r, s') → accepting s → accepting s'.
Proof.
  intros Hi Hn Hh Ha. destruct r. destruct (handle_returns ev s s' Hi Hh) as (Hnf & _ & _).
  destruct (accepts_event ev) eqn:Hev.
  2: { destruct (other_events ev s _ s' 0 Hev Hh) as [Hl _]. unfold accepting in *. rewrite Hl.
       destruct (_listener s); [|done]. destruct Ha as [k Hk]. exists k. by eapply other_events_keep. }
  unfold handle in Hh. destruct ev as [k p| |k a e|k| | | | | | | |]; try discriminate Hev;
    cbn [task_of mbind option_bind] in Hh;
    destruct (_tasks s !! k) as [[| | | |]|] eqn:Hk; try done; apply Some_inj in Hh.
  - replace s' with (addressParsed k p s).2 by (by rewrite Hh).
    unfold accepting, addressParsed, acceptLoop, add_task, end_task. mrun. exists (nextTask s). pose proof (tasks_fresh _ _ _ _ (inv_tasks s Hi)).
    rewrite lookup_delete_ne by congruence. apply lookup_insert_eq.
  - cbn in Hn, Hnf. assert (is_Some (_shsWrapper s)) as Hw
      by (destruct (_shsWrapper s); [by eexists|by destruct Hnf]).
    destruct (accepted_runs s k a e Hi Hw Hk)
      as [(t & E & _)|[(ex & E & _)|(ex & _ & ?)]]; [..|done]; rewrite E in Hh;
      match type of Hh with ?m = _ => replace s' with (m.2) by (by rewrite Hh) end.
    + by apply (accepting_next s k t timedOut).
    + by apply (accepting_next s k Accepting ex).
Qed.

Definition named_step s s' : Prop := ∃ ev, named_event ev ∧ handle timedOut ev s = Some (Ok tt, s').

Lemma named_steps_accepting s s' :
  server_inv s → accepting s → rtc named_step s s' → server_inv s' ∧ accepting s'.
Proof.
  intros Hi Ha Hs. induction Hs as [|s s1 s2 (ev & Hn & Hh) _ IH]; [done|].
  apply IH; [by destruct (handle_returns _ _ _ Hi Hh) as (_ & ? & _)|by eapply accepting_step].
Qed.

(** A server that has stopped accepting does not begin again. *)
Lemma stopped_stays s s' p :
  server_inv s → _listener s = Some p → (∀ k, _tasks s !! k ≠ Some Accepting) →
  rtc (server_step timedOut) s s' → _listener s' = Some p ∧ ∀ k, _tasks s' !! k ≠ Some Accepting.
Proof.
  intros Hi Hl Hno Hs. induction Hs as [|s s1 s2 [ev Hh] _ IH]; [done|].
  assert (accepts_event ev = false) as Hev.
  { pose proof (inv_listen s Hi) as Hli. rewrite Hl in Hli. destruct Hli as [_ Hpa].
    unfold handle in Hh. destruct ev as [k ?| |k ? ?|k| | | | | | | |]; try done;
      cbn [task_of mbind option_bind] in Hh; specialize (Hno k); specialize (Hpa k);
      by destruct (_tasks s !! k) as [[| | | |]|]. }
  apply IH; [by destruct (handle_returns _ _ _ Hi Hh) as (_ & ? & _)|..].
  - by rewrite (proj1 (other_events ev s _ _ 0 Hev Hh)).
  - intros k Hk. by apply (Hno k), (other_events ev s _ _ k Hev Hh).
Qed.

End invariant.

#[export] Hint Resolve server_reachable_inv : shs.

(** * Properties *)

Section properties.
Context {P : Primitives} {PL : PrimitivesLaws P} {T I Cap Opts : Type} `{TL : AsyncIoStreamResolves T}.
Context (timedOut : exception).
Implicit Types s : Impl T I Cap Opts.

(** C20: The server keeps accepting. Whatever has happened, handshakes that
    failed included, a server that has a listener has exactly one pending accept
    and has published the listener's port, as long as every connection it
    accepted had a name for its peer; before that it accepts nothing. An event's
    handler faults, with a null dereference, in two cases exactly: an accept
    failed, or a connection with a name was accepted by a server that has no
    wrapper; every other event is handled. *)
Theorem server_keeps_accepting s0 s :
  server_start s0 → rtc (named_step timedOut) s0 s →
  match _listener s with
  | Some port => _portPromise s = PortReady port ∧
      ∃ k, ∀ k', _tasks s !! k' = Some Accepting ↔ k' = k
  | None => ∀ k, _tasks s !! k ≠ Some Accepting
  end ∧
  ∀ ev r s', handle timedOut ev s = Some (r, s') →
    match ev with
    | AcceptFailed _ => r = Fault NullDeref
    | Accepted _ a _ => r = Fault NullDeref ∧ named a ∧ _shsWrapper s = None ∨
                        r = Ok tt ∧ (named a → is_Some (_shsWrapper s))
    | _ => r = Ok tt
    end.
Proof.
  intros H0 Hs. apply server_start_inv in H0 as Hi0.
  destruct (named_steps_accepting timedOut s0 s Hi0) as [Hi Ha]; [by destruct H0|done|].
  split; [|intros ev r s'; by apply handle_faults_iff].
  pose proof (inv_listen s Hi) as Hl. pose proof (inv_port s Hi) as Hp. unfold listening in Hl.
  unfold accepting in Ha. destruct (_listener s) as [port|]; [|apply Hl]. split; [by apply Hp|].
  destruct Ha as [k Hk]. exists k. intros k'. split; [|by intros ->]. intros Hk'. by apply (proj1 Hl).
Qed.

(** C22: When the address of an accepted connection cannot be had, as with a peer
    that has already gone, the server stops accepting for good: the accept
    handler throws before it goes on, so that no accept is pending any more,
    and no later event begins one. *)
Theorem unnamed_accept_stops s k a e ex t' port :
  server_reachable timedOut s → _listener s = Some port → _tasks s !! k = Some Accepting →
  k_getpeername (stream a) = (Ok (inr ex), t') →
  ∃ s', handle timedOut (Accepted k a e) s = Some (Ok tt, s') ∧ failures s' = failures s ++ [ex] ∧
    ∀ s'', rtc (server_step timedOut) s' s'' →
      _listener s'' = Some port ∧ ∀ k', _tasks s'' !! k' ≠ Some Accepting.
Proof.
  intros Hr Hl Hk Hn. assert (server_inv s) as Hi by eauto with shs.
  assert (handle timedOut (Accepted k a e) s = Some (fail_task k ex s)) as Hh
    by (unfold handle; cbn; rewrite Hk; unfold accepted; by rewrite Hn).
  destruct (handle_returns timedOut (Accepted k a e) s (fail_task k ex s).2 Hi Hh) as (_ & Hi' & _).
  eexists. split; [exact Hh|].
  split; [done|]. intros s'' Hs. eapply (stopped_stays timedOut (fail_task k ex s).2); try done.
  pose proof (inv_listen s Hi) as Hli. rewrite Hl in Hli. intros k'.
  change (delete k (_tasks s) !! k' ≠ Some Accepting). unfold not. rewrite lookup_delete_Some. intros [Hne Hk']. apply Hne. by apply (proj1 Hli).
Qed.

(** C10: Every connection a server with a wrapper serves came out of a finished
    handshake with that wrapper: the peer has proved who it is, the authorizer
    has accepted it, the connection's streams have the keys of that session,
    and the main interface is the one the factory made for that peer. *)
Theorem server_serves_authentic s k c w :
  server_reachable timedOut s → _tasks s !! k = Some (Serving c) → _shsWrapper s = Some w →
  ∃ e h sess pid x,
    rtc api_step (newHandshake (_wrapper w) e) h ∧ _step h = Finished ∧
    session h = (Ok sess, h) ∧
    authorized_by (wrapper_authorizer (_wrapper w)) (peerPublicKey sess) ∧
    stream (c_stream c) = SecretStream x ∧
    w_encryptor x
      = Some (EncryptionStream_init (encryptionKey sess) (encryptionNonce sess) Compact) ∧
    w_decryptor x
      = Some (DecryptionStream_init (decryptionKey sess) (decryptionNonce sess) Compact) ∧
    c_mainInterface c
      = _mainInterfaceFactory s (Some (MkIdentity (peerPublicKey sess) pid)).
Proof.
  intros Hr Hk Hw. assert (server_inv s) as Hi by eauto with shs.
  destruct (inv_tasks s Hi _ _ Hk) as [_ Hok]. cbn in Hok. rewrite Hw in Hok.
  destruct Hok as (e & pid & a & (h & sess & ? & ? & ? & ? & Hid & ? & ?) & Hs & Hm).
  exists e, h, sess, pid, (stream a). rewrite Hs, Hm, Hid. by split_and!.
Qed.

(** An event of one connection, accept or stream leaves all other tasks of
    the server as they are. *)
Theorem server_isolates s ev r s' k t :
  server_reachable timedOut s → handle timedOut ev s = Some (r, s') → task_of ev ≠ Some k →
  _tasks s !! k = Some t → _tasks s' !! k = Some t.
Proof. intros Hr. apply handle_frame. eauto with shs. Qed.

(** C36: A connection that the listener accepted does not stay in the handshake
    for ever. From the moment it is accepted its task is in the handshake, with
    a limit fifteen seconds later, or it is over. In the handshake it needs at
    most five more turns, each turn ends the task or leaves fewer, and the
    timer ends it as soon as the limit has passed, and not before. *)
Theorem server_handshake_ends s0 k a e s1 s :
  server_reachable timedOut s0 → handle timedOut (Accepted k a e) s0 = Some (Ok tt, s1) →
  rtc (server_step timedOut) s1 s →
  let limit := now s0 + 15 * kj_SECONDS in
  match _tasks s !! k with
  | None => True
  | Some (WrappingStream l opts p) =>
      (turns_left p <= handshake_turns)%nat ∧
      (∃ s', handle timedOut (Turn k) s = Some (Ok tt, s') ∧
         match _tasks s' !! k with
         | Some (WrappingStream _ _ p') => (turns_left p' < turns_left p)%nat
         | Some _ => False
         | None => True
         end) ∧
      (limit <= now s →
         ∃ s', handle timedOut (AcceptTimeout k) s = Some (Ok tt, s') ∧ _tasks s' !! k = None) ∧
      (now s < limit → handle timedOut (AcceptTimeout k) s = None)
  | Some _ => False
  end.
Proof.
  intros Hr Hacc Hs limit. assert (server_inv s0) as Hi0 by eauto with shs.
  destruct (handle_returns timedOut _ _ _ Hi0 Hacc) as (_ & Hi1 & _).
  destruct (server_steps_inv timedOut s1 s Hi1 Hs) as [Hi _].
  destruct (timed_slot_steps timedOut limit k s1 s Hi1 (accepted_slot timedOut k a e s0 s1 Hi0 Hacc) Hs)
    as [_ Hslot].
  destruct (_tasks s !! k) as [[| | |l opts p|]|] eqn:Hk; try done. subst l.
  destruct (inv_tasks s Hi _ _ Hk) as (_ & w & e' & Hw & Hok).
  split; [apply turns_left_bound|]. split; [by eapply turn_decreases|].
  split; intros Hl; unfold handle; cbn; rewrite Hk; ztest; [|done].
  eexists. split; [reflexivity|]. apply lookup_delete_eq.
Qed.

(** A connection offers its main interface and nothing else: no capability is
    ever exported under a name. *)
Lemma restore_main_only s c :
  server_reachable timedOut s →
  Connection_restore None c s = inl (c_mainInterface c) ∧
  ∀ name, Connection_restore (Some name) c s = inr name.
Proof.
  intros (s0 & H0 & Hs). split; [done|]. intros name. unfold Connection_restore, restore.
  destruct (server_steps_inv timedOut s0 s (server_start_inv s0 H0) Hs) as (_ & _ & _ & He & _).
  rewrite He. by destruct H0.
Qed.

(** A listening server that was constructed without a wrapper dereferences a
    null pointer when the first connection comes in. *)
Lemma accept_without_wrapper f ctx opts (a : AuthenticatedStream T I) e port :
  named a →
  ∃ s, handle timedOut (AddressParsed 0 port) (Impl_listen f ctx opts None : Impl T I Cap Opts)
         = Some (Ok tt, s) ∧
    ∃ s', handle timedOut (Accepted 1 a e) s = Some (Fault NullDeref, s').
Proof.
  intros (b & u & Hn). eexists. split; [vm_compute; reflexivity|].
  eexists. unfold handle. cbn. unfold accepted. rewrite Hn. reflexivity.
Qed.

End properties.

(** * Executable runs *)

Section runs.
Context {P : Primitives} {T I Cap Opts : Type} `{AsyncIoStream T}.
Context (timedOut : exception).

(** The server after a sequence of events, if each of them can happen. *)
Fixpoint run_events (evs : list (event T I Opts)) (s : Impl T I Cap Opts)
  : option (Impl T I Cap Opts) :=
  match evs with
  | [] => Some s
  | ev :: evs =>
      match handle timedOut ev s with
      | Some (Ok _, s') => run_events evs s'
      | _ => None
      end
  end.

Lemma run_events_named evs s s' :
  run_events evs s = Some s' → Forall named_event evs → rtc (named_step timedOut) s s'.
Proof.
  revert s. induction evs as [|ev evs IH]; cbn; intros s; [by intros [= ->]|].
  destruct (handle timedOut ev s) as [[[[]|f] s1]|] eqn:E; try done.
  intros Hr [Hn Hns]%Forall_cons. eapply rtc_l; [by exists ev|by apply IH].
Qed.

Lemma run_events_rtc evs s s' : run_events evs s = Some s' → rtc (server_step timedOut) s s'.
Proof.
  revert s. induction evs as [|ev evs IH]; cbn; intros s; [by intros [= ->]|].
  destruct (handle timedOut ev s) as [[[[]|f] s1]|] eqn:E; try done.
  intros Hr. eapply rtc_l; [by exists ev|by apply IH].
Qed.
End runs.

(** * Witnesses *)

Module Demo.
Import Toy KjScript Handshake.Demo.

Definition clientKey : bytes := publicKey (keyPair cctx).
Definition timedOut : exception := InnerException 1.
Definition wrapper : WrapperState :=
  StreamWrapper_init (ServerWrapper sctx (Some (λ pk, bool_decide (pk = clientKey)))).

(** The main interface is the key of the peer it is for. *)
Definition factory (id : option (SHSPeerIdentity nat)) : bytes := default [] (publicKey_of <$> id).

Definition server : Impl script nat bytes unit := Impl_listen factory 0 tt (Some wrapper).
Definition client : AuthenticatedStream script nat := MkAuth (MkScript (m1 ++ m3) [] false) 9%nat.

(** A client connects; another one hangs up in the handshake. *)
Definition start : list (event script nat unit) := [AddressParsed 0 7777; Clock 1000].
Definition shaking : list (event script nat unit) :=
  start ++ [Accepted 1 client (replicate 32 x62); Turn 1; Clock 2000; Turn 1].
Definition serving : list (event script nat unit) :=
  shaking ++ [Turn 1; Turn 1; Accepted 2 (MkAuth (MkScript m1 [] false) 8%nat) (replicate 32 x62);
              Turn 2; Turn 2; Turn 1; Turn 2].

Definition after (evs : list (event script nat unit)) : Impl script nat bytes unit :=
  default server (run_events timedOut evs server).

Lemma reach evs : run_events timedOut evs server = Some (after evs) → server_reachable timedOut (after evs).
Proof.
  intros H. exists server. split; [constructor; by intros ? [= <-] [? ?]|].
  by apply (run_events_rtc timedOut evs).
Qed.

Lemma serving_reached : server_reachable timedOut (after serving).
Proof. apply reach. vm_compute. reflexivity. Qed.

Lemma start_reached : server_reachable timedOut (after start).
Proof. apply reach. vm_compute. reflexivity. Qed.

Lemma shaking_reached : server_reachable timedOut (after shaking).
Proof. apply reach. vm_compute. reflexivity. Qed.

Lemma server_keeps_accepting_witness :
  _listener (after serving) = Some 7777 ∧
  ∃ k, ∀ k', _tasks (after serving) !! k' = Some Accepting ↔ k' = k.
Proof.
  assert (_listener (after serving) = Some 7777) as Hl by (vm_compute; reflexivity).
  split; [exact Hl|].
  destruct (server_keeps_accepting timedOut server (after serving)) as [H _].
  - constructor. intros ? [= <-] [? [=]].
  - apply (run_events_named timedOut serving); [vm_compute; reflexivity|].
    apply Forall_forall. intros [] _; try exact I. eexists _, _. reflexivity.
  - rewrite Hl in H. apply H.
Defined.

(** The connection of the client has the task number 4. *)
Lemma server_serves_authentic_witness :
  ∃ c, _tasks (after serving) !! 4%nat = Some (Serving c) ∧ c_mainInterface c = clientKey ∧
    ∃ x, stream (c_stream c) = SecretStream x ∧ is_Some (w_decryptor x).
Proof.
  assert (match _tasks (after serving) !! 4%nat with
          | Some (Serving c) => bool_decide (c_mainInterface c = clientKey)
          | _ => false
          end = true) as Hc by (vm_compute; reflexivity).
  destruct (_tasks (after serving) !! 4%nat) as [[| | | |c]|] eqn:E; try discriminate Hc.
  exists c. split; [reflexivity|]. split; [by apply bool_decide_eq_true in Hc|].
  destruct (server_serves_authentic timedOut (after serving) 4 c wrapper serving_reached E)
    as (e & h & sess & pid & x & _ & _ & _ & _ & Hx & _ & Hd & _).
  - vm_compute. reflexivity.
  - exists x. split; [exact Hx|]. rewrite Hd. eexists. reflexivity.
Defined.

(** A turn of the client's handshake does not disturb the pending accept. *)
Lemma server_isolates_witness :
  ∃ r s', handle timedOut (Turn 1) (after shaking) = Some (r, s') ∧
    _tasks s' !! 2%nat = Some Accepting.
Proof.
  assert (bool_decide (is_Some (handle timedOut (Turn 1) (after shaking))) = true) as Hs
    by (vm_compute; reflexivity).
  destruct (handle timedOut (Turn 1) (after shaking)) as [[r s']|] eqn:E; [|discriminate Hs].
  exists r, s'. split; [reflexivity|].
  apply (server_isolates timedOut (after shaking) (Turn 1) r s' 2 Accepting shaking_reached E).
  - discriminate.
  - vm_compute. reflexivity.
Defined.

(** The client that was accepted at the time 1000 is still in its handshake. *)
Definition arrived : Impl script nat bytes unit :=
  after (start ++ [Accepted 1 client (replicate 32 x62)]).

Lemma server_handshake_ends_witness :
  ∃ l opts p, _tasks (after shaking) !! 1%nat = Some (WrappingStream l opts p) ∧
    (turns_left p <= 5)%nat ∧ now (after shaking) = 2000 ∧
    handle timedOut (AcceptTimeout 1) (after shaking) = None.
Proof.
  assert (match _tasks (after shaking) !! 1%nat with
          | Some (WrappingStream _ _ _) => true
          | _ => false
          end = true) as Hs by (vm_compute; reflexivity).
  pose proof (server_handshake_ends timedOut (after start) 1 client (replicate 32 x62) arrived
    (after shaking) start_reached) as Hend.
  destruct (_tasks (after shaking) !! 1%nat) as [[| | |l opts p|]|] eqn:E; try discriminate Hs.
  destruct Hend as (Ht & _ & _ & Hnot).
  - vm_compute. reflexivity.
  - apply (run_events_rtc timedOut [Turn 1; Clock 2000; Turn 1]). vm_compute. reflexivity.
  - exists l, opts, p. split; [reflexivity|]. split; [exact Ht|].
    assert (now (after shaking) = 2000) as Hnow by (vm_compute; reflexivity).
    split; [exact Hnow|]. apply Hnot. rewrite Hnow. vm_compute. reflexivity.
Defined.

(** Streams whose peer may be gone. *)
Record visitor := MkVisitor { v_script : script; v_gone : bool }.

Definition of_visitor {A} (m : M script A) : M visitor A :=
  zoom v_script (λ s v, MkVisitor s (v_gone v)) m.

#[local] Instance visitor_stream : AsyncIoStream visitor := {|
  k_write b := of_visitor (k_write b);
  k_read n := of_visitor (k_read n);
  k_tryRead n m := of_visitor (k_tryRead n m);
  k_shutdownWrite v := MkVisitor (k_shutdownWrite (v_script v)) (v_gone v);
  k_abortRead v := MkVisitor (k_abortRead (v_script v)) (v_gone v);
  k_getpeername := λ v, (Ok (if v_gone v then inr (InnerException 107) else inl []), v);
|}.

#[local] Instance visitor_laws : AsyncIoStreamResolves visitor.
Proof.
  constructor; intros; cbn [k_write k_read k_tryRead k_getpeername visitor_stream];
    unfold of_visitor, zoom.
  - destruct (k_write_returns b (v_script t)) as (r & t' & ->). by eexists _, _.
  - destruct (k_read_returns n (v_script t) ltac:(done)) as (r & t' & -> & ?). by eexists _, _.
  - destruct (k_tryRead_returns n m (v_script t) ltac:(done)) as (r & t' & -> & ?). by eexists _, _.
  - by eexists _, _.
Qed.

Definition listening_server : Impl visitor nat bytes unit := Impl_listen factory 0 tt (Some wrapper).
Definition opened : Impl visitor nat bytes unit := (addressParsed 0 7777 listening_server).2.
Definition gone : AuthenticatedStream visitor nat := MkAuth (MkVisitor (MkScript [] [] false) true) 9%nat.

Lemma unnamed_accept_stops_witness :
  ∃ s', handle timedOut (Accepted 1 gone []) opened = Some (Ok tt, s') ∧
    failures s' = [InnerException 107] ∧
    ∀ s'', rtc (server_step timedOut) s' s'' →
      _listener s'' = Some 7777 ∧ ∀ k', _tasks s'' !! k' ≠ Some Accepting.
Proof.
  apply (unnamed_accept_stops timedOut opened 1 gone [] (InnerException 107) (stream gone) 7777).
  - exists listening_server. split; [constructor; intros ? [= <-] [? [=]]|].
    apply rtc_once. exists (AddressParsed 0 7777). vm_compute. reflexivity.
  - vm_compute. reflexivity.
  - vm_compute. reflexivity.
  - reflexivity.
Defined.
End Demo.
