(* ===== verification/RpcClient.v ===== *)
(** The RPC client: [SecretRPCClient] of capnproto/SecretRPC.cc and .hh.

    The client resolves an address, connects, wraps the stream and then starts
    the RPC system on it; [_setupPromise] is the promise of all that, and
    [_clientContext] is there once it has resolved. [getMain] uses the context,
    or waits on a branch of the promise. As in RpcServer.v an [event] of the
    environment runs one continuation.

    The RPC system itself belongs to capnp; [bootstrap] and [rpc_restore] are
    the capabilities it gives out for a host on a stream.

    The theorems: every main capability is that of the server whose key the
    client was given, over a stream that has been authenticated; the assertion
    that the context is there never fails; every call of the inner
    [Impl::getMain] is answered as soon as the setup has come to an end. The
    client objects, which can be moved, are in RpcHandles.v. *)
From Stdlib Require Import ZArith Lia Strings.Byte.
From stdpp Require Import base list numbers option tactics relations gmap strings.
From S2P Require Import Prelude Crypto Shs Handshake Driver Boxes Streams Connection Wrapper.
From S2P Require Import RpcContext RpcServer.

Open Scope Z_scope.

(** [capnp::rpc::twoparty::Side] *)
Inductive side := SERVER | CLIENT.

Section client.
Context {P : Primitives} {T Cap Opts : Type} `{AsyncIoStream T}.
Context (bootstrap : rpc_stream T → Opts → side → Cap).
Context (rpc_restore : rpc_stream T → Opts → side → string → Cap).

(** [Impl::ClientContext] *)
Record ClientContext := MkClientContext { cc_stream : rpc_stream T; cc_readerOpts : Opts }.

Definition ClientContext_getMain (c : ClientContext) : Cap :=
  bootstrap (cc_stream c) (cc_readerOpts c) SERVER.

Definition ClientContext_restore (name : string) (c : ClientContext) : Cap :=
  rpc_restore (cc_stream c) (cc_readerOpts c) SERVER name.

(** How far [_setupPromise] has got: the address, the connection, a stream
    promised by the caller, the handshake, or its end. *)
Inductive setup :=
| ResolvingAddress
| Connecting
| StreamPending
| SetupWrapping (p : Wrapping T unit)
| SetupDone
| SetupFailed (e : exception).

(** [Impl], with the calls of [getMain] that wait on a branch of the promise
    and the answers given. *)
Record ClientImpl := MkClient {
  cl_context : nat;
  cl_shsWrapper : option WrapperState;
  cl_readerOpts : Opts;
  _setupPromise : setup;
  _clientContext : option ClientContext;
  branches : gmap nat unit;
  answers : gmap nat (Cap + exception);
  nextCall : nat;
}.

Definition set_setup v c := MkClient (cl_context c) (cl_shsWrapper c) (cl_readerOpts c) v (_clientContext c)
  (branches c) (answers c) (nextCall c).
Definition set_context v c := MkClient (cl_context c) (cl_shsWrapper c) (cl_readerOpts c) (_setupPromise c) v
  (branches c) (answers c) (nextCall c).
Definition set_branches v n c := MkClient (cl_context c) (cl_shsWrapper c) (cl_readerOpts c) (_setupPromise c)
  (_clientContext c) v (answers c) n.
Definition set_answers v n c := MkClient (cl_context c) (cl_shsWrapper c) (cl_readerOpts c) (_setupPromise c)
  (_clientContext c) (branches c) v n.

(** [Impl] on the context it has got, with an address to resolve and with a
    promised stream. *)
Definition ClientImpl_address (context : nat) (w : option WrapperState) (opts : Opts) : ClientImpl :=
  MkClient context w opts ResolvingAddress None ∅ ∅ 0.
Definition ClientImpl_stream (context : nat) (w : option WrapperState) (opts : Opts) : ClientImpl :=
  MkClient context w opts StreamPending None ∅ ∅ 0.

(** The constructors and the destructor of [SecretRPCClient], on thread [th].
    The first one has a reference of its own to the context until it returns. *)
Definition SecretRPCClient_address (th : nat) (w : option WrapperState) (opts : Opts)
  : M Runtime ClientImpl :=
  context ← getThreadLocal th;
  _context ← getThreadLocal th;
  release th context;;
  mret (ClientImpl_address _context w opts).

Definition SecretRPCClient_stream (th : nat) (w : option WrapperState) (opts : Opts)
  : M Runtime ClientImpl :=
  context ← getThreadLocal th; mret (ClientImpl_stream context w opts).

Definition SecretRPCClient_destroy (th : nat) (c : ClientImpl) : M Runtime bool :=
  release th (cl_context c).

Section accessors.
Context {W Pv Lv : Type} (ioContext : nat → AsyncIoContext W Pv Lv).
Definition SecretRPCClient_getWaitScope (c : ClientImpl) : M Runtime W :=
  getWaitScope ioContext (cl_context c).
Definition SecretRPCClient_getIoProvider (c : ClientImpl) : M Runtime Pv :=
  getIoProvider ioContext (cl_context c).
Definition SecretRPCClient_getLowLevelIoProvider (c : ClientImpl) : M Runtime Lv :=
  getLowLevelIoProvider ioContext (cl_context c).
End accessors.

(** The continuation of the setup: the stream is ready. *)
Definition setup_done (s : rpc_stream T) : M ClientImpl unit :=
  c ← get;
  modify (set_context (Some (MkClientContext s (cl_readerOpts c))));;
  modify (set_setup SetupDone).

(** The continuation of [parseAddress]: [connectAttach] starts to connect to the
    address, which lives as long as the attempt. *)
Definition connectAttach : M ClientImpl unit := modify (set_setup Connecting).

(** [asyncWrap] of the stream that the promise gave. *)
Definition streamArrived (t : T) (ephemeral : bytes) : M ClientImpl unit :=
  c ← get;
  match cl_shsWrapper c with
  | None => setup_done (PlainStream t)
  | Some w =>
      match connect_begin (new_conn w t ephemeral) with
      | (Ok (inl _), conn) => modify (set_setup (SetupWrapping (MkWrapping conn None tt)))
      | (Ok (inr e), _) => modify (set_setup (SetupFailed e))
      | (Fault f, _) => throw f
      end
  end.

(** A turn of the handshake of [wrap(Own<AsyncIoStream>)], which has no
    timeout. *)
Definition setupTurn (p : Wrapping T unit) : M ClientImpl unit :=
  match wrapping_turn p with
  | Ok (Pending p') => modify (set_setup (SetupWrapping p'))
  | Ok (Resolved s) => setup_done (SecretStream (stream s))
  | Ok (Rejected e) => modify (set_setup (SetupFailed e))
  | Fault f => throw f
  end.

Definition answer (k : nat) (r : Cap + exception) : M ClientImpl unit :=
  modify (λ c, set_answers (<[k := r]> (answers c)) (nextCall c) c).

(** [getMain], call number [nextCall]. *)
Definition getMain : M ClientImpl nat :=
  c ← get;
  let k := nextCall c in
  match _clientContext c with
  | Some client =>
      modify (λ c, set_answers (<[k := inl (ClientContext_getMain client)]> (answers c)) (S k) c);;
      mret k
  | None => modify (λ c, set_branches (<[k := tt]> (branches c)) (S k) c);; mret k
  end.

(** The continuation of a branch, once the setup promise has resolved. *)
Definition branchRuns (k : nat) (r : unit + exception) : M ClientImpl unit :=
  modify (λ c, set_branches (delete k (branches c)) (nextCall c) c);;
  c ← get;
  match r with
  | inl _ =>
      match _clientContext c with
      | Some client => answer k (inl (ClientContext_getMain client))
      | None => throw AssertFailed
      end
  | inr e => answer k (inr e)
  end.

(** * Events *)

Inductive client_event :=
| AddressResolved
| StreamArrived (t : T) (ephemeral : bytes)
| SetupFails (e : exception)
| SetupTurn
| CallGetMain
| BranchRuns (k : nat).

Definition client_handle (ev : client_event) (c : ClientImpl) : option (outcome unit * ClientImpl) :=
  match ev, _setupPromise c with
  | AddressResolved, ResolvingAddress => Some (connectAttach c)
  | StreamArrived t e, Connecting | StreamArrived t e, StreamPending => Some (streamArrived t e c)
  | SetupFails e, ResolvingAddress | SetupFails e, Connecting | SetupFails e, StreamPending =>
      Some (modify (set_setup (SetupFailed e)) c)
  | SetupTurn, SetupWrapping p => Some (setupTurn p c)
  | CallGetMain, _ => Some ((getMain;; mret tt) c)
  | BranchRuns k, SetupDone =>
      if bool_decide (is_Some (branches c !! k)) then Some (branchRuns k (inl tt) c) else None
  | BranchRuns k, SetupFailed e =>
      if bool_decide (is_Some (branches c !! k)) then Some (branchRuns k (inr e) c) else None
  | _, _ => None
  end.

Definition client_step (c c' : ClientImpl) : Prop := ∃ ev, client_handle ev c = Some (Ok tt, c').

End client.

Arguments ClientImpl T Cap Opts : clear implicits.
Arguments client_event T : clear implicits.
Arguments setup T : clear implicits.
Arguments ClientContext T Opts : clear implicits.

(** * The invariant *)

Section invariant.
Context {P : Primitives} {PL : PrimitivesLaws P} {T Cap Opts : Type} `{TL : AsyncIoStreamResolves T}.
Context (bootstrap : rpc_stream T → Opts → side → Cap).
Implicit Types (c : ClientImpl T Cap Opts).

(** A stream of a client with a wrapper has been authenticated; without one it
    is the stream that came in. *)
Definition client_stream_ok (ow : option WrapperState) (s : rpc_stream T) : Prop :=
  match ow with
  | Some w => ∃ e (a : secret_stream T unit), authentic (_wrapper w) e tt a ∧
      s = SecretStream (stream a)
  | None => ∃ t, s = PlainStream t
  end.

Definition setup_ok (ow : option WrapperState) (opts : Opts) (st : setup T)
    (ctx : option (ClientContext T Opts)) : Prop :=
  match st with
  | SetupWrapping p => ctx = None ∧ ∃ w e, ow = Some w ∧ wrapping_ok (_wrapper w) e p
  | SetupDone => ∃ s, ctx = Some (MkClientContext s opts) ∧ client_stream_ok ow s
  | _ => ctx = None
  end.

(** An answer is the main capability of the context, or the exception the
    setup has failed with. *)
Definition answer_ok c (r : Cap + exception) : Prop :=
  match r with
  | inl cap => ∃ ctx, _clientContext c = Some ctx ∧ cap = ClientContext_getMain bootstrap ctx
  | inr e => _setupPromise c = SetupFailed e
  end.

Record client_inv c : Prop := {
  inv_setup : setup_ok (cl_shsWrapper c) (cl_readerOpts c) (_setupPromise c) (_clientContext c);
  inv_answers : map_Forall (λ _ r, answer_ok c r) (answers c);
  inv_calls : ∀ k, (k < nextCall c)%nat ↔ is_Some (branches c !! k) ∨ is_Some (answers c !! k);
  inv_once : ∀ k, is_Some (branches c !! k) → answers c !! k = None;
}.

(** A handler returns and keeps the invariant and the configuration. *)
Definition client_handled c (r : outcome unit * ClientImpl T Cap Opts) : Prop :=
  r.1 = Ok tt ∧ client_inv r.2 ∧ cl_shsWrapper r.2 = cl_shsWrapper c ∧
  cl_readerOpts r.2 = cl_readerOpts c.

(** While the setup goes on, nothing has been answered, so that it may change. *)
Lemma pending_no_answers c :
  client_inv c → _clientContext c = None → (∀ e, _setupPromise c ≠ SetupFailed e) → answers c = ∅.
Proof.
  intros Hi Hc He. apply map_empty. intros k. destruct (answers c !! k) as [[cap|e]|] eqn:E; [..|done].
  - by destruct (inv_answers c Hi k _ E) as (ctx & Hctx & _); congruence.
  - by destruct (He e (inv_answers c Hi k _ E)).
Qed.

Lemma setup_moves c st ctx :
  client_inv c → _clientContext c = None → (∀ e, _setupPromise c ≠ SetupFailed e) →
  setup_ok (cl_shsWrapper c) (cl_readerOpts c) st ctx →
  client_inv (set_setup st (set_context ctx c)).
Proof.
  intros Hi Hc He Hst. pose proof (pending_no_answers c Hi Hc He) as Ha. destruct Hi as [_ _ Hk Ho].
  constructor; cbn; try done. rewrite Ha. apply map_Forall_empty.
Qed.

Lemma set_context_id c ctx : _clientContext c = ctx → set_context ctx c = c.
Proof. destruct c. cbn. by intros ->. Qed.

(** A move of the setup that does not finish it. *)
Lemma setup_step_ok c st :
  client_inv c → _clientContext c = None → (∀ e, _setupPromise c ≠ SetupFailed e) →
  setup_ok (cl_shsWrapper c) (cl_readerOpts c) st None →
  client_handled c (modify (set_setup st) c).
Proof.
  intros Hi Hc He Hst. pose proof (setup_moves c st None Hi Hc He Hst) as Hi'.
  rewrite set_context_id in Hi' by done. by split_and!.
Qed.

Lemma setup_done_ok c s :
  client_inv c → _clientContext c = None → (∀ e, _setupPromise c ≠ SetupFailed e) →
  client_stream_ok (cl_shsWrapper c) s → client_handled c (setup_done s c).
Proof.
  intros Hi Hc He Hs. split_and!; try done. apply setup_moves; try done. by exists s.
Qed.

Lemma streamArrived_ok c t e :
  client_inv c → _clientContext c = None → (∀ e, _setupPromise c ≠ SetupFailed e) →
  client_handled c (streamArrived t e c).
Proof.
  intros Hi Hc He. unfold streamArrived. rewrite bind_get.
  destruct (cl_shsWrapper c) as [w|] eqn:Hw.
  - destruct (connect_begin_run (new_conn w t e)) as ([u|ex] & t' & ->); [|by apply setup_step_ok].
    apply setup_step_ok; try done. split; [done|]. exists w, e. split; [done|]. apply new_conn_ok.
  - apply setup_done_ok; try done. rewrite Hw. by exists t.
Qed.

Lemma setupTurn_ok c p :
  client_inv c → _setupPromise c = SetupWrapping p → client_handled c (setupTurn p c).
Proof.
  intros Hi Hs. pose proof (inv_setup c Hi) as Hst. rewrite Hs in Hst.
  destruct Hst as (Hc & w & e & Hw & Hok).
  assert (∀ e, _setupPromise c ≠ SetupFailed e) as He by (by rewrite Hs).
  destruct (wrapping_turn_spec _ _ _ Hok) as (q & Hq & Hp & _). unfold setupTurn. rewrite Hq.
  destruct q as [p'|a|ex]; cbn [promise_ok] in Hp.
  - destruct Hp as (Hp & _). apply setup_step_ok; try done. split; [done|]. by exists w, e.
  - apply setup_done_ok; try done. rewrite Hw. destruct (innerId p). by exists e, a.
  - by apply setup_step_ok.
Qed.

Lemma answer_ok_same c c' r :
  _clientContext c' = _clientContext c → _setupPromise c' = _setupPromise c →
  answer_ok c r → answer_ok c' r.
Proof. unfold answer_ok. intros -> ->. done. Qed.

Lemma getMain_run c :
  getMain bootstrap c = (Ok (nextCall c),
    match _clientContext c with
    | Some ctx => set_answers (<[nextCall c := inl (ClientContext_getMain bootstrap ctx)]> (answers c))
                    (S (nextCall c)) c
    | None => set_branches (<[nextCall c := tt]> (branches c)) (S (nextCall c)) c
    end).
Proof. unfold getMain. rewrite bind_get. by destruct (_clientContext c). Qed.

Lemma getMain_ok c : client_inv c → client_handled c ((getMain bootstrap;; mret tt) c).
Proof.
  intros Hi. pose proof Hi as [Hs Ha Hk Ho]. rewrite (bind_Ok _ _ _ _ _ (getMain_run c)).
  assert (branches c !! nextCall c = None ∧ answers c !! nextCall c = None) as [Hb Hn].
  { pose proof (Hk (nextCall c)) as Hn. rewrite !eq_None_not_Some.
    split; intros ?; apply (Nat.lt_irrefl (nextCall c)), Hn; auto. }
  destruct (_clientContext c) as [ctx|] eqn:Hc; (split_and!; [done| |done..]); constructor; cbn.
  - by rewrite Hc.
  - apply map_Forall_insert_2; [by exists ctx|exact Ha].
  - intros k. rewrite lookup_insert_is_Some'. pose proof (Hk k).
    destruct (decide (k = nextCall c)) as [->|]; [naive_solver lia|].
    split; [intros; assert (k < nextCall c)%nat by lia; naive_solver|].
    intros [?|[?|?]]; [|congruence|]; apply Nat.lt_lt_succ_r; naive_solver.
  - intros k Hk'. rewrite lookup_insert_ne; [by apply Ho|]. intros <-. rewrite Hb in Hk'. by destruct Hk'.
  - by rewrite Hc.
  - exact Ha.
  - intros k. rewrite lookup_insert_is_Some'. pose proof (Hk k).
    destruct (decide (k = nextCall c)) as [->|]; [naive_solver lia|].
    split; [intros; assert (k < nextCall c)%nat by lia; naive_solver|].
    intros [[?|?]|?]; [congruence| |]; apply Nat.lt_lt_succ_r; naive_solver.
  - intros k. rewrite lookup_insert_is_Some'. intros [<-|?]; [done|by apply Ho].
Qed.

(** What the end of the setup means for a branch. *)
Definition setup_result (st : setup T) : option (unit + exception) :=
  match st with
  | SetupDone => Some (inl tt)
  | SetupFailed e => Some (inr e)
  | _ => None
  end.

Lemma branchRuns_ok c k r :
  client_inv c → is_Some (branches c !! k) → setup_result (_setupPromise c) = Some r →
  client_handled c (branchRuns bootstrap k r c) ∧
  ∃ a, answers (branchRuns bootstrap k r c).2 !! k = Some a ∧ answer_ok c a.
Proof.
  intros Hi Hb Hr.
  assert (∃ a, answer_ok c a ∧ branchRuns bootstrap k r c =
    (Ok tt, set_answers (<[k := a]> (answers c)) (nextCall c)
              (set_branches (delete k (branches c)) (nextCall c) c))) as (a & Ha & ->).
  { pose proof (inv_setup c Hi) as Hst. unfold branchRuns. rewrite bind_modify, bind_get.
    destruct (_setupPromise c) as [| | | | |e] eqn:Hs; try discriminate Hr; injection Hr as <-.
    - destruct Hst as (s & Hc & _). cbn [_clientContext set_branches]. rewrite Hc.
      eexists. split; [|reflexivity]. by eexists.
    - eexists. split; [|reflexivity]. done. }
  split; [|exists a; split; [apply lookup_insert_eq|done]].
  destruct Hi as [Hs Hans Hk Ho]. split_and!; [done| |done..]. constructor; cbn; [exact Hs| | |].
  - apply map_Forall_insert_2; [done|exact Hans].
  - intros k'. rewrite (Hk k'), lookup_insert_is_Some', lookup_delete_is_Some.
    destruct (decide (k = k')) as [<-|]; naive_solver.
  - intros k'. rewrite lookup_delete_is_Some. intros [Hne Hb']. rewrite lookup_insert_ne by done.
    by apply Ho.
Qed.

Lemma client_handle_ok ev c r :
  client_inv c → client_handle bootstrap ev c = Some r → client_handled c r.
Proof.
  intros Hi Hh. pose proof (inv_setup c Hi) as Hst. unfold client_handle in Hh.
  destruct ev as [|t e|e| | |k];
    destruct (_setupPromise c) as [| | |p| |ex] eqn:Hs; try done; simplify_eq.
  - apply setup_step_ok; [done..|by rewrite Hs|done].
  - apply streamArrived_ok; [done..|by rewrite Hs].
  - apply streamArrived_ok; [done..|by rewrite Hs].
  - apply setup_step_ok; [done..|by rewrite Hs|done].
  - apply setup_step_ok; [done..|by rewrite Hs|done].
  - apply setup_step_ok; [done..|by rewrite Hs|done].
  - by apply setupTurn_ok.
  - by apply getMain_ok.
  - by apply getMain_ok.
  - by apply getMain_ok.
  - by apply getMain_ok.
  - by apply getMain_ok.
  - by apply getMain_ok.
  - case_bool_decide as Hb; simplify_eq. apply branchRuns_ok; [done..|by rewrite Hs].
  - case_bool_decide as Hb; simplify_eq. apply branchRuns_ok; [done..|by rewrite Hs].
Qed.

Inductive client_start : ClientImpl T Cap Opts → Prop :=
| start_address ctx w opts : client_start (ClientImpl_address ctx w opts)
| start_stream ctx w opts : client_start (ClientImpl_stream ctx w opts).

Definition client_reachable c : Prop := ∃ c0, client_start c0 ∧ rtc (client_step bootstrap) c0 c.

Lemma client_start_inv c : client_start c → client_inv c.
Proof.
  destruct 1; (constructor; cbn; [done|apply map_Forall_empty| |]); intros k; rewrite !lookup_empty.
  - split; [lia|]. intros [[? ?]|[? ?]]; done.
  - done.
  - split; [lia|]. intros [[? ?]|[? ?]]; done.
  - done.
Qed.

Lemma client_reachable_inv c : client_reachable c → client_inv c.
Proof.
  intros (c0 & H0 & Hs). apply client_start_inv in H0. induction Hs as [|c1 c2 c3 [ev Hh] _ IH]; [done|].
  apply IH. by destruct (client_handle_ok _ _ _ H0 Hh) as (_ & ? & _).
Qed.

End invariant.

#[export] Hint Resolve client_reachable_inv : shs.

(** * Properties *)

Section properties.
Context {P : Primitives} {PL : PrimitivesLaws P} {T Cap Opts : Type} `{TL : AsyncIoStreamResolves T}.
Context (bootstrap : rpc_stream T → Opts → side → Cap).
Implicit Types (c : ClientImpl T Cap Opts).

(** Capabilities come from an authenticated stream, in every state that satisfies
    the invariant. *)
Lemma answers_authentic c k cap w cx pk :
  client_inv bootstrap c → answers c !! k = Some (inl cap) →
  cl_shsWrapper c = Some w → _wrapper w = ClientWrapper cx pk →
  ∃ x e h sess, cap = bootstrap (SecretStream x) (cl_readerOpts c) SERVER ∧
    rtc api_step (ClientHandshake cx pk e) h ∧ _step h = Finished ∧
    session h = (Ok sess, h) ∧ peerPublicKey sess = pk ∧
    w_encryptor x
      = Some (EncryptionStream_init (encryptionKey sess) (encryptionNonce sess) Compact) ∧
    w_decryptor x
      = Some (DecryptionStream_init (decryptionKey sess) (decryptionNonce sess) Compact).
Proof.
  intros Hi Ha Hw Hpk. destruct (inv_answers _ c Hi _ _ Ha) as (ctx & Hc & ->).
  pose proof (inv_setup _ c Hi) as Hst. rewrite Hc in Hst.
  destruct (_setupPromise c); try (by destruct Hst); try done.
  destruct Hst as (s & [= ->] & Hs). rewrite Hw in Hs.
  destruct Hs as (e & a & (h & sess & Hsteps & Hf & Hsess & _ & _ & He & Hd) & ->).
  rewrite Hpk in Hsteps. cbn [newHandshake] in Hsteps. exists (stream a), e, h, sess. split_and!; try done.
  by eapply client_session_peer.
Qed.

(** C21: A main capability that a client with a wrapper gives out is the
    bootstrap capability of the server side of its one stream; that stream
    carries the session of a finished handshake, and the peer of that session
    is the server whose key the client was given. *)
Theorem client_main_authentic c k cap w cx pk :
  client_reachable bootstrap c → answers c !! k = Some (inl cap) →
  cl_shsWrapper c = Some w → _wrapper w = ClientWrapper cx pk →
  ∃ x e h sess, cap = bootstrap (SecretStream x) (cl_readerOpts c) SERVER ∧
    rtc api_step (ClientHandshake cx pk e) h ∧ _step h = Finished ∧
    session h = (Ok sess, h) ∧ peerPublicKey sess = pk ∧
    w_encryptor x
      = Some (EncryptionStream_init (encryptionKey sess) (encryptionNonce sess) Compact) ∧
    w_decryptor x
      = Some (DecryptionStream_init (decryptionKey sess) (decryptionNonce sess) Compact).
Proof. intros Hr. apply answers_authentic. eauto with shs. Qed.

(** The calls of [Impl::getMain], which belong to the [Impl] and not to a
    client object (those are in RpcHandles.v): no event of the [Impl] faults; in
    particular the context is there when a branch of the setup promise runs.
    Every call has been answered once or is waiting, and a waiting one is
    answered as soon as the setup has come to an end: with the main capability,
    or with the exception the setup failed with. *)
Theorem client_answers_all c :
  client_reachable bootstrap c →
  (∀ ev r c', client_handle bootstrap ev c = Some (r, c') → r = Ok tt) ∧
  ∀ k, (k < nextCall c)%nat →
    (is_Some (answers c !! k) ∧ branches c !! k = None) ∨
    (is_Some (branches c !! k) ∧ answers c !! k = None ∧
     match _setupPromise c with
     | SetupDone => ∃ ctx c', _clientContext c = Some ctx ∧
         client_handle bootstrap (BranchRuns k) c = Some (Ok tt, c') ∧
         answers c' !! k = Some (inl (ClientContext_getMain bootstrap ctx))
     | SetupFailed e => ∃ c', client_handle bootstrap (BranchRuns k) c = Some (Ok tt, c') ∧
         answers c' !! k = Some (inr e)
     | _ => True
     end).
Proof.
  intros Hr. assert (client_inv bootstrap c) as Hi by eauto with shs. split.
  - intros ev r c' Hh. by destruct (client_handle_ok _ _ _ _ Hi Hh).
  - intros k Hk. apply (inv_calls _ c Hi) in Hk as Hor.
    destruct (branches c !! k) as [u|] eqn:Hb; [|left; split; [destruct Hor as [[]|]; done|done]].
    assert (is_Some (branches c !! k)) as Hs by (by eexists).
    right. split_and!; [by eexists|by apply (inv_once _ c Hi)|].
    destruct (_setupPromise c) eqn:Hset; try done.
    + destruct (branchRuns_ok _ c k (inl tt) Hi Hs) as ((Hret & _) & a & Ha & Hok); [by rewrite Hset|].
      pose proof (inv_setup _ c Hi) as Hst. rewrite Hset in Hst. destruct Hst as (st & Hc & _).
      destruct a as [cap|e]; [|cbn in Hok; congruence]. destruct Hok as (ctx & Hctx & ->).
      destruct (branchRuns bootstrap k (inl tt) c) as [r c'] eqn:Hrun. cbn in Hret, Ha. subst r.
      exists ctx, c'. split_and!; [done| |done].
      unfold client_handle. by rewrite Hset, bool_decide_eq_true_2, Hrun.
    + destruct (branchRuns_ok _ c k (inr e) Hi Hs) as ((Hret & _) & a & Ha & Hok); [by rewrite Hset|].
      pose proof (inv_setup _ c Hi) as Hst. rewrite Hset in Hst. cbn in Hst.
      destruct a as [cap|e']; [destruct Hok as (ctx & Hctx & _); congruence|].
      cbn in Hok. assert (e' = e) as -> by congruence.
      destruct (branchRuns bootstrap k (inr e) c) as [r c'] eqn:Hrun. cbn in Hret, Ha. subst r.
      exists c'. split; [|done]. unfold client_handle. by rewrite Hset, bool_decide_eq_true_2, Hrun.
Qed.

End properties.

(** * Witnesses *)

Module Demo.
Import Toy KjScript Handshake.Demo Connection.Demo.

(** The capability is the key of the peer of the stream. *)
Definition bootstrap (s : rpc_stream script) (_ : unit) (_ : side) : bytes :=
  match s with
  | SecretStream x => default [] (publicKey_of <$> getIdentity tt x)
  | PlainStream _ => []
  end.
Definition wrapper : WrapperState := StreamWrapper_init (ClientWrapper cctx serverKey).
Definition client : ClientImpl script bytes unit := ClientImpl_address 0 (Some wrapper) tt.

Fixpoint run_client (evs : list (client_event script)) (c : ClientImpl script bytes unit)
  : option (ClientImpl script bytes unit) :=
  match evs with
  | [] => Some c
  | ev :: evs =>
      match client_handle bootstrap ev c with
      | Some (Ok _, c') => run_client evs c'
      | _ => None
      end
  end.

Lemma client_run_rtc evs c c' : run_client evs c = Some c' → rtc (client_step bootstrap) c c'.
Proof.
  revert c. induction evs as [|ev evs IH]; cbn; intros c; [by intros [= ->]|].
  destruct (client_handle bootstrap ev c) as [[[[]|f] c1]|] eqn:E; try done.
  intros Hr. eapply rtc_l; [by exists ev|by apply IH].
Qed.

(** One call before the connection is there, one after. *)
Definition connecting : list (client_event script) :=
  [CallGetMain; AddressResolved; StreamArrived peer (replicate 32 x61);
   SetupTurn; SetupTurn; SetupTurn; SetupTurn; SetupTurn].
Definition connected : list (client_event script) := connecting ++ [CallGetMain; BranchRuns 0].

Definition after (evs : list (client_event script)) : ClientImpl script bytes unit :=
  default client (run_client evs client).

Lemma client_reach evs : run_client evs client = Some (after evs) → client_reachable bootstrap (after evs).
Proof. intros H. exists client. split; [constructor|]. by apply (client_run_rtc evs). Qed.

Lemma connected_reached : client_reachable bootstrap (after connected).
Proof. apply client_reach. vm_compute. reflexivity. Qed.

Lemma connecting_reached : client_reachable bootstrap (after connecting).
Proof. apply client_reach. vm_compute. reflexivity. Qed.

Lemma client_main_authentic_witness :
  answers (after connected) !! 0%nat = Some (inl serverKey) ∧
  ∃ x, serverKey = bootstrap (SecretStream x) tt SERVER ∧ is_Some (w_decryptor x).
Proof.
  assert (answers (after connected) !! 0%nat = Some (inl serverKey)) as Ha
    by (vm_compute; reflexivity).
  split; [exact Ha|].
  destruct (client_main_authentic bootstrap (after connected) 0 serverKey wrapper cctx serverKey
              connected_reached Ha) as (x & e & h & sess & Hb & _ & _ & _ & _ & _ & Hd).
  - vm_compute. reflexivity.
  - reflexivity.
  - exists x. split; [|rewrite Hd; eexists; reflexivity].
    destruct (cl_readerOpts (after connected)). exact Hb.
Defined.

Lemma client_answers_all_witness :
  is_Some (branches (after connecting) !! 0%nat) ∧
  ∀ ev r c', client_handle bootstrap ev (after connecting) = Some (r, c') → r = Ok tt.
Proof.
  split; [eexists; vm_compute; reflexivity|].
  apply (proj1 (client_answers_all bootstrap (after connecting) connecting_reached)).
Defined.
End Demo.
