(* ===== verification/RpcHandles.v ===== *)
(** The objects of class [SecretRPCClient], which can be moved.

    RpcClient.v models an [Impl], which stays where it is on the heap. The
    application has a [SecretRPCClient] that points to it, and that pointer goes
    from one object to another when the client is moved. The continuation that
    the public [getMain] attaches to the setup captures the address of the
    [SecretRPCClient], and goes through its pointer when it runs.

    [Clients] are the live objects with their pointers, the [Impl]s, and the
    object that each waiting continuation has captured.

    The theorem: for a client that stays where it is, [getMain] and its
    continuation do what they do in RpcClient.v, whatever becomes of other
    clients. For one that is moved in between, the continuation goes through a
    null pointer ([moved_getMain_faults]); the [getMain] of [Impl], which the
    public one does not call, would not. *)
From Stdlib Require Import ZArith Lia Strings.Byte.
From stdpp Require Import base list numbers option tactics relations gmap strings.
From S2P Require Import Prelude Crypto Shs Handshake Driver Boxes Streams Connection Wrapper.
From S2P Require Import RpcContext RpcServer RpcClient.

Open Scope nat_scope.

Section handles.
Context {P : Primitives} {T Cap Opts : Type} `{AsyncIoStream T}.
Context (bootstrap : rpc_stream T → Opts → side → Cap).

Record Clients := MkClients {
  handles : gmap nat (option nat);
  impls : gmap nat (ClientImpl T Cap Opts);
  captured : gmap (nat * nat) nat;
}.

Definition set_handles v s := MkClients v (impls s) (captured s).
Definition set_impls v s := MkClients (handles s) v (captured s).
Definition set_captured v s := MkClients (handles s) (impls s) v.

(** [_impl->] in object [n]. *)
Definition impl_of (n : nat) : M Clients nat :=
  s ← get;
  match handles s !! n with
  | Some (Some i) => mret i
  | Some None => throw NullDeref
  | None => throw UseAfterFree
  end.

Definition on_impl_of {A} (i : nat) (m : M (ClientImpl T Cap Opts) A) : M Clients A := λ s,
  match impls s !! i with
  | None => (Fault UseAfterFree, s)
  | Some c => let '(r, c') := m c in (r, set_impls (<[i := c']> (impls s)) s)
  end.

(** [SecretRPCClient::getMain] of object [n]; the continuation has number
    [k] on its [Impl]. *)
Definition SecretRPCClient_getMain (n : nat) : M Clients nat :=
  i ← impl_of n;
  c ← on_impl_of i get;
  k ← on_impl_of i (getMain bootstrap);
  (match _clientContext c with
   | Some _ => mret tt
   | None => modify (λ s, set_captured (<[(i, k) := n]> (captured s)) s)
   end);;
  mret k.

(** The move constructor: [n'] is the new object. *)
Definition SecretRPCClient_move (n n' : nat) : M Clients unit :=
  s ← get;
  match handles s !! n with
  | None => throw UseAfterFree
  | Some p => modify (set_handles (<[n' := p]> (<[n := None]> (handles s))))
  end.

(** The continuation of [getMain] number [k], when the setup of [i] has
    resolved: it goes through the object it has captured. When the setup was
    rejected it does not run, and the exception is the answer. *)
Definition getMain_continues (i k : nat) : M Clients unit :=
  c ← on_impl_of i get;
  match _setupPromise c with
  | SetupDone =>
      s ← get;
      n ← deref (captured s !! (i, k));
      j ← impl_of n;
      cj ← on_impl_of j get;
      match _clientContext cj with
      | Some client =>
          on_impl_of i (modify (λ c, set_branches (delete k (branches c)) (nextCall c) c));;
          on_impl_of i (answer k (inl (ClientContext_getMain bootstrap client)))
      | None => throw AssertFailed
      end
  | SetupFailed e => on_impl_of i (branchRuns bootstrap k (inr e))
  | _ => mret tt
  end.

(** ** Clients that stay *)

Lemma on_impl_of_run {A} i (m : M (ClientImpl T Cap Opts) A) s c r c' :
  impls s !! i = Some c → m c = (r, c') →
  on_impl_of i m s = (r, set_impls (<[i := c']> (impls s)) s).
Proof. unfold on_impl_of. by intros -> ->. Qed.

Lemma on_impl_same {A} i (m : M (ClientImpl T Cap Opts) A) s c r :
  impls s !! i = Some c → m c = (r, c) → on_impl_of i m s = (r, s).
Proof. intros Hi Hm. rewrite (on_impl_of_run _ _ _ _ _ _ Hi Hm), insert_id by done. by destruct s. Qed.

Lemma impl_of_run n i s : handles s !! n = Some (Some i) → impl_of n s = (Ok i, s).
Proof. intros Hn. unfold impl_of. by rewrite bind_get, Hn. Qed.

(** [getMain] of an object is [getMain] of its [Impl], and the object is
    captured if the call has to wait. *)
Lemma object_getMain n i c s :
  handles s !! n = Some (Some i) → impls s !! i = Some c →
  let '(r, c') := getMain bootstrap c in
  ∃ s', SecretRPCClient_getMain n s = (r, s') ∧ impls s' = <[i := c']> (impls s) ∧
    handles s' = handles s ∧
    captured s' = match _clientContext c with
                  | Some _ => captured s
                  | None => <[(i, nextCall c) := n]> (captured s)
                  end.
Proof.
  intros Hn Hi. destruct (getMain bootstrap c) as [r c'] eqn:E.
  unfold SecretRPCClient_getMain. rewrite (bind_Ok _ _ _ _ _ (impl_of_run _ _ _ Hn)).
  rewrite (bind_Ok _ _ _ _ _ (on_impl_same i get s c (Ok c) Hi eq_refl)).
  assert (r = Ok (nextCall c)) as ->.
  { revert E. unfold getMain. rewrite bind_get. by destruct (_clientContext c); intros [= <- _]. }
  rewrite (bind_Ok _ _ _ _ _ (on_impl_of_run _ _ _ _ _ _ Hi E)).
  destruct (_clientContext c); by eexists.
Qed.

(** The continuation of a call on an object that still has its [Impl]. *)
Lemma continues_unmoved n i k c s :
  handles s !! n = Some (Some i) → impls s !! i = Some c → captured s !! (i, k) = Some n →
  getMain_continues i k s =
    match _setupPromise c with
    | SetupDone => let '(r, c') := branchRuns bootstrap k (inl tt) c in
                   match r with
                   | Ok _ => (r, set_impls (<[i := c']> (impls s)) s)
                   | Fault f => (Fault f, s)
                   end
    | SetupFailed e => on_impl_of i (branchRuns bootstrap k (inr e)) s
    | _ => (Ok tt, s)
    end.
Proof.
  intros Hn Hi Hc. unfold getMain_continues.
  rewrite (bind_Ok _ _ _ _ _ (on_impl_same i get s c (Ok c) Hi eq_refl)).
  destruct (_setupPromise c); try done. rewrite bind_get, Hc. unfold deref.
  rewrite bind_ret, (bind_Ok _ _ _ _ _ (impl_of_run _ _ _ Hn)).
  rewrite (bind_Ok _ _ _ _ _ (on_impl_same i get s c (Ok c) Hi eq_refl)).
  unfold branchRuns. rewrite bind_modify, bind_get. cbn [_clientContext set_branches].
  destruct (_clientContext c) as [client|]; [|done].
  erewrite bind_Ok; [|eapply on_impl_of_run; [exact Hi|reflexivity]].
  erewrite on_impl_of_run; [|apply lookup_insert_eq|reflexivity].
  cbn. by rewrite insert_insert_eq.
Qed.

(** ** Programs with clients *)

(** The events of a setup; calls of [getMain] and their continuations go
    through the objects. *)
Definition setup_event (ev : client_event T) : Prop :=
  match ev with CallGetMain | BranchRuns _ => False | _ => True end.

Inductive clients_step : Clients → Clients → Prop :=
| cs_new s n i c : handles s !! n = None → impls s !! i = None → client_start c →
    clients_step s (MkClients (<[n := Some i]> (handles s)) (<[i := c]> (impls s)) (captured s))
| cs_event s i c ev c' : setup_event ev → impls s !! i = Some c →
    client_handle bootstrap ev c = Some (Ok tt, c') →
    clients_step s (set_impls (<[i := c']> (impls s)) s)
| cs_getMain s n k s' : SecretRPCClient_getMain n s = (Ok k, s') → clients_step s s'
| cs_move s n n' s' : handles s !! n' = None → SecretRPCClient_move n n' s = (Ok tt, s') →
    clients_step s s'
| cs_continue s i k c s' : impls s !! i = Some c → is_Some (branches c !! k) →
    is_Some (setup_result (_setupPromise c)) → getMain_continues i k s = (Ok tt, s') →
    clients_step s s'.

Definition clients0 : Clients := MkClients ∅ ∅ ∅.

Record clients_inv (s : Clients) : Prop := {
  ci_impls : ∀ i c, impls s !! i = Some c → client_reachable bootstrap c;
  ci_captured : ∀ i k n, captured s !! (i, k) = Some n →
    handles s !! n = Some None ∨ handles s !! n = Some (Some i);
  ci_handles : ∀ n i, handles s !! n = Some (Some i) → is_Some (impls s !! i);
}.

Lemma reachable_step c ev c' :
  client_reachable bootstrap c → client_handle bootstrap ev c = Some (Ok tt, c') →
  client_reachable bootstrap c'.
Proof. intros (c0 & H0 & Hs) Hh. exists c0. split; [done|]. eapply rtc_r; [done|by exists ev]. Qed.

(** An [Impl] moves on, and nothing else changes. *)
Lemma clients_inv_impl s i c' :
  clients_inv s → client_reachable bootstrap c' → clients_inv (set_impls (<[i := c']> (impls s)) s).
Proof.
  intros [Hi Hc Hh] Hr. constructor; cbn; [|done|].
  - intros j c. rewrite lookup_insert_Some. intros [[_ <-]|[_ ?]]; [done|by eapply Hi].
  - intros n j Hn. rewrite lookup_insert_is_Some'. right. by eapply Hh.
Qed.

Lemma clients_inv_new s n i c :
  clients_inv s → handles s !! n = None → client_start c →
  clients_inv (MkClients (<[n := Some i]> (handles s)) (<[i := c]> (impls s)) (captured s)).
Proof.
  intros [Hi Hc Hh] Hn Hs. constructor; cbn.
  - intros j c'. rewrite lookup_insert_Some. intros [[_ <-]|[_ ?]]; [by exists c|by eapply Hi].
  - intros j k n' Hk. destruct (Hc _ _ _ Hk); rewrite lookup_insert_ne by congruence; auto.
  - intros n' j. rewrite lookup_insert_is_Some', lookup_insert_Some.
    intros [[_ [= ->]]|[_ Hj]]; [by left|right; by eapply Hh].
Qed.

Lemma clients_inv_getMain s n k s' :
  clients_inv s → SecretRPCClient_getMain n s = (Ok k, s') → clients_inv s'.
Proof.
  intros Hinv Hg. pose proof Hinv as [Hi Hc Hh].
  destruct (handles s !! n) as [[i|]|] eqn:Hn;
    [|unfold SecretRPCClient_getMain, impl_of in Hg; mrun_in Hg; by rewrite Hn in Hg..].
  destruct (Hh _ _ Hn) as [c Hic]. pose proof (object_getMain n i c s Hn Hic) as Hobj.
  destruct (getMain bootstrap c) as [r c'] eqn:E. destruct Hobj as (s1 & Hs1 & Him & Hha & Hca).
  rewrite Hg in Hs1. injection Hs1 as <- <-.
  assert (client_reachable bootstrap c') as Hr.
  { apply (reachable_step c CallGetMain); [by eapply Hi|]. unfold client_handle.
    rewrite (bind_Ok _ _ _ _ _ E). by destruct (_setupPromise c). }
  destruct (clients_inv_impl s i c' Hinv Hr) as [Hi' Hc' Hh']. cbn in *.
  constructor; rewrite ?Him, ?Hha; [done| |done]. rewrite Hca.
  intros j k' n'. destruct (_clientContext c); [apply Hc|]. rewrite lookup_insert_Some.
  intros [[[= <- <-] <-]|[_ Hk]]; [by right|by eapply Hc].
Qed.

Lemma clients_inv_move s n n' s' :
  clients_inv s → handles s !! n' = None → SecretRPCClient_move n n' s = (Ok tt, s') →
  clients_inv s'.
Proof.
  intros [Hi Hc Hh] Hn' Hm. unfold SecretRPCClient_move in Hm. mrun_in Hm.
  destruct (handles s !! n) as [p|] eqn:Hn; [|done]. injection Hm as <-.
  assert (n' ≠ n) as Hne by congruence. constructor; cbn; [done|..].
  - intros i k m Hk. rewrite lookup_insert_ne; [|intros <-; destruct (Hc _ _ _ Hk); congruence].
    destruct (decide (m = n)) as [-> |]; [left; apply lookup_insert_eq|].
    rewrite lookup_insert_ne by done. by eapply Hc.
  - intros m i. rewrite !lookup_insert_Some.
    intros [[_ ->]|[_ [[_ ?]|[_ Hm]]]]; [by eapply Hh|done|by eapply Hh].
Qed.

(** A continuation that returns has found its object where it was. *)
Lemma continues_captured s i k c s' :
  clients_inv s → impls s !! i = Some c → _setupPromise c = SetupDone →
  getMain_continues i k s = (Ok tt, s') →
  ∃ n, captured s !! (i, k) = Some n ∧ handles s !! n = Some (Some i).
Proof.
  intros Hinv Hi Hs Hg. unfold getMain_continues in Hg.
  rewrite (bind_Ok _ _ _ _ _ (on_impl_same i get s c (Ok c) Hi eq_refl)), Hs, bind_get in Hg.
  destruct (captured s !! (i, k)) as [n|] eqn:Hc; [|done]. unfold deref in Hg. rewrite bind_ret in Hg.
  exists n. split; [done|]. destruct (ci_captured s Hinv _ _ _ Hc) as [Hn|Hn]; [|done].
  unfold impl_of in Hg. mrun_in Hg. by rewrite Hn in Hg.
Qed.

Lemma clients_inv_continue s i k c s' :
  clients_inv s → impls s !! i = Some c → is_Some (branches c !! k) →
  is_Some (setup_result (_setupPromise c)) → getMain_continues i k s = (Ok tt, s') → clients_inv s'.
Proof.
  intros Hinv Hi Hb Hres Hg. pose proof (ci_impls s Hinv _ _ Hi) as Hr.
  assert (∀ r c', setup_result (_setupPromise c) = Some r →
    branchRuns bootstrap k r c = (Ok tt, c') → client_reachable bootstrap c') as Hstep.
  { intros r c' Hr1 Hb1. apply (reachable_step c (BranchRuns k) c' Hr). unfold client_handle.
    destruct (_setupPromise c); try done; injection Hr1 as <-;
      rewrite bool_decide_eq_true_2 by done; by rewrite Hb1. }
  destruct (_setupPromise c) as [| | | | |e] eqn:Hs; try by destruct Hres.
  - destruct (continues_captured _ _ _ _ _ Hinv Hi Hs Hg) as (n & Hc & Hn).
    rewrite (continues_unmoved n i k c s Hn Hi Hc), Hs in Hg.
    destruct (branchRuns bootstrap k (inl tt) c) as [[[]|f] c'] eqn:E; [|done].
    injection Hg as <-. apply clients_inv_impl; [done|]. by eapply Hstep.
  - unfold getMain_continues in Hg.
    rewrite (bind_Ok _ _ _ _ _ (on_impl_same i get s c (Ok c) Hi eq_refl)), Hs in Hg.
    destruct (branchRuns bootstrap k (inr e) c) as [r c'] eqn:E.
    rewrite (on_impl_of_run _ _ _ _ _ _ Hi E) in Hg. injection Hg as -> <-.
    apply clients_inv_impl; [done|]. by eapply Hstep.
Qed.

Lemma clients_reachable_inv s : rtc clients_step clients0 s → clients_inv s.
Proof.
  assert (clients_inv clients0) as H0 by (constructor; cbn; intros *; by rewrite lookup_empty).
  intros Hs. induction Hs as [|s1 s2 s3 Hstep _ IH]; [done|]. apply IH. destruct Hstep.
  - by apply clients_inv_new.
  - apply clients_inv_impl; [done|]. eapply reachable_step; [by eapply (ci_impls _ H0)|done].
  - by eapply clients_inv_getMain.
  - by eapply clients_inv_move.
  - by eapply clients_inv_continue.
Qed.

End handles.

Arguments Clients T Cap Opts : clear implicits.

(** * Properties *)

Section properties.
Context {P : Primitives} {PL : PrimitivesLaws P} {T Cap Opts : Type} `{TL : AsyncIoStreamResolves T}.
Context (bootstrap : rpc_stream T → Opts → side → Cap).
Implicit Types (s : Clients T Cap Opts).

(** C23: Clients that are not moved while they wait. Whatever objects a program
    constructs, uses and moves, each [Impl] is in a state of RpcClient.v; and
    when a call of [getMain] waits on an object that still has the [Impl] on
    which it was made, its continuation returns and answers it, with the main
    capability or the exception of the setup. *)
Theorem unmoved_getMain_answered s :
  rtc (clients_step bootstrap) clients0 s →
  (∀ i c, impls s !! i = Some c → client_reachable bootstrap c) ∧
  ∀ n i k c r, handles s !! n = Some (Some i) → impls s !! i = Some c →
    captured s !! (i, k) = Some n → is_Some (branches c !! k) →
    setup_result (_setupPromise c) = Some r →
    ∃ s' c' a, getMain_continues bootstrap i k s = (Ok tt, s') ∧ impls s' !! i = Some c' ∧
      answers c' !! k = Some a ∧ answer_ok bootstrap c a.
Proof.
  intros Hs. apply clients_reachable_inv in Hs. split; [by apply ci_impls|].
  intros n i k c r Hn Hi Hc Hb Hr.
  pose proof (client_reachable_inv _ _ (ci_impls _ _ Hs _ _ Hi)) as Hinv.
  destruct (branchRuns_ok bootstrap c k r Hinv Hb Hr) as [(Hok & _) (a & Ha & Haok)].
  destruct (branchRuns bootstrap k r c) as [o c'] eqn:E. cbn in Hok, Ha. subst o.
  exists (set_impls (<[i := c']> (impls s)) s), c', a. rewrite (continues_unmoved _ n i k c s Hn Hi Hc).
  split_and!; [|apply lookup_insert_eq|done..].
  destruct (_setupPromise c); try done; injection Hr as <-; [by rewrite E|].
  by erewrite on_impl_of_run.
Qed.

(** When the client is moved while [getMain] waits, the continuation goes
    through the null pointer of the object it was called on. *)
Lemma moved_getMain_faults s n n' i k c :
  handles s !! n = Some (Some i) → handles s !! n' = None → impls s !! i = Some c →
  captured s !! (i, k) = Some n → _setupPromise c = SetupDone →
  ∃ s', SecretRPCClient_move n n' s = (Ok tt, s') ∧
    (getMain_continues bootstrap i k s').1 = Fault NullDeref.
Proof.
  intros Hn Hn' Hi Hc Hs. unfold SecretRPCClient_move. rewrite bind_get, Hn. eexists.
  split; [reflexivity|]. unfold getMain_continues.
  erewrite bind_Ok; [|by eapply (on_impl_same i get)]. rewrite Hs, bind_get. cbn [captured set_handles].
  rewrite Hc. unfold deref. rewrite bind_ret. unfold impl_of. mrun.
  rewrite lookup_insert_ne by congruence. by rewrite lookup_insert_eq.
Qed.

End properties.

(** * Witnesses *)

Module Demo.
Import Toy KjScript.

Definition main (_ : rpc_stream script) (_ : unit) (_ : side) : nat := 7.
Definition raw : script := MkScript [] [] false.

(** A client without a wrapper: [getMain] is called, another client is
    constructed and moved, and the stream arrives. *)
Definition waiting : ClientImpl script nat unit :=
  (getMain main (ClientImpl_stream 0 None tt)).2.
Definition connected : ClientImpl script nat unit := (streamArrived raw [] waiting).2.
Definition state : Clients script nat unit :=
  MkClients {[0 := Some 0; 1 := None; 2 := Some 1]}
    {[0 := connected; 1 := ClientImpl_stream 0 None tt]} {[(0, 0) := 0]}.

Lemma moving_reached : rtc (clients_step main) clients0 state.
Proof.
  eapply rtc_l; [apply (cs_new _ _ 0 0 (ClientImpl_stream 0 None tt)); try reflexivity; constructor|].
  eapply rtc_l; [apply (cs_getMain _ _ 0 0); vm_compute; reflexivity|].
  eapply rtc_l; [apply (cs_new _ _ 1 1 (ClientImpl_stream 0 None tt)); try reflexivity; constructor|].
  eapply rtc_l; [apply (cs_move _ _ 1 2); [reflexivity|vm_compute; reflexivity]|].
  eapply rtc_l; [apply (cs_event _ _ 0 waiting (StreamArrived raw []) connected);
    [exact I|vm_compute; reflexivity|vm_compute; reflexivity]|].
  assert (∀ p q : Clients script nat unit, p = q → rtc (clients_step main) p q) as Heq
    by (intros ? ? ->; constructor).
  apply Heq. vm_compute. reflexivity.
Qed.

Lemma unmoved_getMain_answered_witness :
  ∃ s' c' a, getMain_continues main 0 0 state = (Ok tt, s') ∧ impls s' !! 0 = Some c' ∧
    answers c' !! 0 = Some a ∧ answer_ok main connected a.
Proof.
  destruct (unmoved_getMain_answered main state moving_reached) as [_ H].
  apply (H 0 0 0 connected (inl tt)); try (vm_compute; reflexivity).
  vm_compute. eexists. reflexivity.
Defined.
End Demo.
