(* ===== verification/RpcLink.v ===== *)
(** An RPC client and an RPC server connected to each other: the composition of
    RpcServer.v and RpcClient.v over a byte connection (Link.v).

    A [SecretRPCServer] has accepted a connection, which is one of its tasks,
    and a [SecretRPCClient] has connected. The server goes on with whatever else
    it does: other connections, the clock, more accepts. Both run their
    handshakes by the events of their event loops, and the network moves bytes
    between the two streams. No timer of this connection fires
    (RpcTimeout.v has them). The network moves
    bytes until the client has its connection: the RPC traffic on it, and the
    reads and writes that carry it, are capnp's (for the streams underneath see
    EndToEnd.v).

    The theorems: neither handshake fails; the server's main interface is made
    for the client's key, and every main capability that the client hands out is
    that of a stream whose peer has the server's key; and from every state both
    can get to the connection, with every call of [getMain] answered. *)
From Stdlib Require Import ZArith Lia Strings.Byte.
From stdpp Require Import base list numbers option tactics relations gmap strings.
From S2P Require Import Prelude Crypto Shs Handshake Driver Protocol Boxes Streams.
From S2P Require Import Link Connection Wrapper KjEnd CroutonEnd EndToEnd RpcContext RpcServer RpcClient.

Open Scope Z_scope.
Import KjScript.

Section rpc.
Context {P : Primitives} {I Cap Opts : Type}.
Context (timedOut : exception) (bootstrap : rpc_stream script → Opts → side → Cap).

Abbreviation WS := (@WrappedStream script).
Abbreviation Server := (Impl script I Cap Opts).
Abbreviation Client := (ClientImpl script Cap Opts).

(** The server, the number of the connection's task, and the client. *)
Record rpc := MkRpc { srv : Server; conn_task : nat; cl : Client }.

(** The streams of the connection, wherever the two programs have them. *)
Definition task_stream (t : task script I Cap Opts) : option WS :=
  match t with
  | WrappingStream _ _ p => Some (conn p)
  | Serving c => match stream (c_stream c) with SecretStream x => Some x | PlainStream _ => None end
  | _ => None
  end.
Definition server_at (st : rpc) : option WS := _tasks (srv st) !! conn_task st ≫= task_stream.

Definition client_at (st : rpc) : option WS :=
  match _setupPromise (cl st) with SetupWrapping p => Some (conn p) | _ => None end.

(** The network changes the bytes of a stream. *)
Definition task_net (i o : bytes) (t : task script I Cap Opts) : task script I Cap Opts :=
  match t with
  | WrappingStream l opts p =>
      WrappingStream l opts (MkWrapping (a_net i o (conn p)) (deadline p) (innerId p))
  | Serving c =>
      Serving (MkConnection
        (MkAuth (match stream (c_stream c) with
                 | SecretStream x => SecretStream (a_net i o x)
                 | PlainStream t => PlainStream t
                 end) (peerIdentity (c_stream c)))
        (c_mainInterface c) (c_readerOpts c))
  | t => t
  end.
Definition server_net (i o : bytes) (k : nat) (s : Server) : Server :=
  set_tasks (alter (task_net i o) k (_tasks s)) (nextTask s) s.

Definition client_net (i o : bytes) (c : Client) : Client :=
  match _setupPromise c with
  | SetupWrapping p => set_setup (SetupWrapping (MkWrapping (a_net i o (conn p)) (deadline p) (innerId p))) c
  | _ => c
  end.

(** The task that the connection has after a turn of it. *)
Definition next_conn (k : nat) (s s' : Server) : nat :=
  if bool_decide (is_Some (_tasks s' !! k)) then k else nextTask s.

Inductive rpc_step : rpc → rpc → Prop :=
| step_elsewhere ev st s' :
    handle timedOut ev (srv st) = Some (Ok tt, s') → task_of ev ≠ Some (conn_task st) →
    rpc_step st (MkRpc s' (conn_task st) (cl st))
| step_turn st y s' :
    server_at st = Some y → a_ready y = true →
    handle timedOut (Turn (conn_task st)) (srv st) = Some (Ok tt, s') →
    rpc_step st (MkRpc s' (next_conn (conn_task st) (srv st) s') (cl st))
| step_client ev st c' :
    client_handle bootstrap ev (cl st) = Some (Ok tt, c') →
    (ev = SetupTurn → ∃ x, client_at st = Some x ∧ a_ready x = true) →
    rpc_step st (MkRpc (srv st) (conn_task st) c')
| step_up st x y b rest :
    client_at st = Some x → server_at st = Some y → a_out x = b ++ rest →
    rpc_step st (MkRpc (server_net (a_in y ++ b) (a_out y) (conn_task st) (srv st)) (conn_task st)
                   (client_net (a_in x) rest (cl st)))
| step_down st x y b rest :
    client_at st = Some x → server_at st = Some y → a_out y = b ++ rest →
    rpc_step st (MkRpc (server_net (a_in y) rest (conn_task st) (srv st)) (conn_task st)
                   (client_net (a_in x ++ b) (a_out x) (cl st))).

(** The connection begins: the server has just accepted it, and the client has
    just got its stream. *)
Inductive rpc_start (q : parties) (f : MainInterfaceFactory I Cap) (pid : I) (opts : Opts) : rpc → Prop :=
| start_rpc s0 s k c0 c w w' :
    server_reachable timedOut s0 → _shsWrapper s0 = Some w →
    _wrapper w = ServerWrapper (server_ctx q) (p_auth q) → _mainInterfaceFactory s0 = f →
    handle timedOut (Accepted k (MkAuth (MkScript [] [] false) pid) (p_b q)) s0 = Some (Ok tt, s) →
    client_reachable bootstrap c0 → cl_shsWrapper c0 = Some w' →
    _wrapper w' = ClientWrapper (client_ctx q) (Bp q) → cl_readerOpts c0 = opts →
    client_handle bootstrap (StreamArrived (MkScript [] [] false) (p_a q)) c0 = Some (Ok tt, c) →
    rpc_start q f pid opts (MkRpc s k c).
End rpc.
Arguments rpc I Cap Opts : clear implicits.

(** * The invariant *)

Section invariant.
Context {P : Primitives} {PL : PrimitivesLaws P} {I Cap Opts : Type}.
Context (timedOut : exception) (bootstrap : rpc_stream script → Opts → side → Cap).
Context (q : parties) (f : MainInterfaceFactory I Cap) (pid : I) (opts : Opts).
Hypothesis Hauth : authorized (p_auth q) (Ap q).

Abbreviation WS := (@WrappedStream script).
Abbreviation step := (rpc_step timedOut bootstrap).
Implicit Types (st : rpc I Cap Opts) (x y : WS).

(** The handshakes, which have no authorizer of their own. *)
Abbreviation q' := (shaking_parties CapnProto q).

Definition client_id : SHSPeerIdentity I := MkIdentity (Ap q) pid.

(** The connection's task has the stream [y]. *)
Definition serves y (t : task script I Cap Opts) : Prop :=
  match t with
  | WrappingStream _ _ p => conn p = y ∧ innerId p = pid ∧ ∃ h, a_stage y = Shaking h
  | Serving c =>
      c_stream c = MkAuth (SecretStream y) (Some (SHSIdentity client_id)) ∧
      c_mainInterface c = f (Some client_id) ∧ ∃ e d, a_stage y = Joined (Ap q) e d
  | _ => False
  end.

(** The client has the stream [x]. *)
Definition connects x (c : ClientImpl script Cap Opts) : Prop :=
  match _setupPromise c with
  | SetupWrapping p => conn p = x ∧ ∃ h, a_stage x = Shaking h
  | SetupDone => _clientContext c = Some (MkClientContext (SecretStream x) opts) ∧
      ∃ e d, a_stage x = Joined (Bp q) e d
  | _ => False
  end.

Record rpc_inv st : Prop := {
  ri_server : server_inv (srv st);
  ri_factory : _mainInterfaceFactory (srv st) = f;
  ri_client : client_inv bootstrap (cl st);
  ri_opts : cl_readerOpts (cl st) = opts;
  ri_link : ∃ x y t, connects x (cl st) ∧ _tasks (srv st) !! conn_task st = Some t ∧ serves y t ∧
    link_inv q' (MkLink (new_peer x) (new_peer y));
}.

Lemma serves_stream y t : serves y t → task_stream t = Some y.
Proof. destruct t; try done; cbn; [by intros (-> & _)|]. by intros (-> & _). Qed.

(** ** The turns *)

(** A turn of a promise that succeeds. *)
Lemma wrapping_turns (J : Type) (p : Wrapping script J) x' :
  a_turn (conn p) = Some x' →
  wrapping_turn p = Ok (Pending (MkWrapping x' (deadline p) (innerId p))) ∨
  wrapping_turn p = Ok (Resolved (wrapped (innerId p) x')).
Proof.
  cbn. unfold kj_turn, wrapping_turn.
  destruct (connect_turn (conn p)) as [[[[[]|e]|]|e] x1]; try done; intros [= <-]; auto.
Qed.

Lemma still_shaking (J : Type) w e (p : Wrapping script J) :
  wrapping_ok w e p → ∃ h, a_stage (conn p) = Shaking h.
Proof. intros [(h & Hh & _) _]. exists h. by apply kj_stage_shaking. Qed.

Lemma now_joined (J : Type) w e (j : J) x' pk :
  authentic w e j (wrapped j x') → kj_ok pk x' →
  (∃ e d, a_stage x' = Joined pk e d) ∧ getIdentity j x' = Some (MkIdentity pk j).
Proof.
  intros (h & sess & _ & _ & _ & _ & _ & Hen & _) Hok. cbn in Hen.
  destruct (kj_ok_joined pk x' Hok) as (e' & d' & Hst); [left; by eexists|]. split; [by eexists _, _|].
  apply kj_stage_joined in Hst as (_ & _ & _ & s & Hs & <-). unfold getIdentity. by rewrite Hs.
Qed.

(** The client's turn. *)
Lemma client_turns st x p y t :
  rpc_inv st → _setupPromise (cl st) = SetupWrapping p → conn p = x → a_ready x = true →
  _tasks (srv st) !! conn_task st = Some t → serves y t →
  link_inv q' (MkLink (new_peer x) (new_peer y)) →
  ∃ c' x', client_handle bootstrap SetupTurn (cl st) = Some (Ok tt, c') ∧ (a_turns x' < a_turns x)%nat ∧
    connects x' c' ∧ link_inv q' (MkLink (new_peer x') (new_peer y)) ∧
    branches c' = branches (cl st) ∧ rpc_inv (MkRpc (srv st) (conn_task st) c').
Proof.
  intros [Hs Hf Hc Ho _] Hp <- Hrdy Ht Hsv Hi. pose proof Hi as (hc & hs & mu & md & Hph & He).
  destruct (client_turn_ok q' (shaking_authorized CapnProto q Hauth) _ _ _ _ _ _ Hph He Hrdy)
    as (x' & Hx & Hlt & Hi'). cbn [ep wrote heard new_peer left] in *.
  pose proof (inv_setup _ _ Hc) as Hst. rewrite Hp in Hst. destruct Hst as (Hn & w & e & Hw & Hok).
  destruct (setupTurn_ok bootstrap (cl st) p Hc Hp) as (_ & Hc' & _ & Ho').
  assert (connects x' (setupTurn p (cl st)).2 ∧ (setupTurn p (cl st)).1 = Ok tt ∧
    branches (setupTurn p (cl st)).2 = branches (cl st)) as (Hcon & Hrun & Hb).
  { destruct (wrapping_turn_spec _ _ _ Hok) as (r & Hr & Hpr & _). unfold setupTurn in *.
    destruct (wrapping_turns _ p x' Hx) as [Hturn|Hturn]; rewrite Hturn in *; injection Hr as <-.
    - destruct Hpr as (Hok' & _). split; [|done]. split; [done|]. exact (still_shaking _ _ _ _ Hok').
    - pose proof (link_ok q' _ Hi') as [Hkj _]. cbn in Hpr.
      destruct (innerId p). destruct (now_joined _ _ _ _ _ _ Hpr Hkj) as [Hj _].
      split; [|done]. split; [rewrite <-Ho; reflexivity|exact Hj]. }
  exists (setupTurn p (cl st)).2, x'.
  assert (client_handle bootstrap SetupTurn (cl st) = Some (Ok tt, (setupTurn p (cl st)).2)) as Hh.
  { unfold client_handle. rewrite Hp, <-Hrun. by rewrite <-surjective_pairing. }
  split_and!; try done. constructor; [done|done|done|cbn [cl]; congruence|]. by exists x', y, t.
Qed.

(** A connection that is started gets a task of its own. *)
Lemma start_run k y (id : option (rpc_identity I)) (o : Opts) (s : Impl script I Cap Opts) :
  start_and_end k (MkAuth (SecretStream y) id) o s = (Ok tt, set_tasks
    (delete k (<[nextTask s := Serving (MkConnection (MkAuth (SecretStream y) id)
       (_mainInterfaceFactory s (as_SHSPeerIdentity id)) o)]> (_tasks s))) (S (nextTask s)) s).
Proof. by destruct y. Qed.

(** The server's turn. *)
Lemma server_turns st x y t :
  rpc_inv st → connects x (cl st) → _tasks (srv st) !! conn_task st = Some t → serves y t →
  a_ready y = true → link_inv q' (MkLink (new_peer x) (new_peer y)) →
  ∃ s' t' y', handle timedOut (Turn (conn_task st)) (srv st) = Some (Ok tt, s') ∧
    (a_turns y' < a_turns y)%nat ∧ let k' := next_conn (conn_task st) (srv st) s' in
    _tasks s' !! k' = Some t' ∧ serves y' t' ∧ link_inv q' (MkLink (new_peer x) (new_peer y')) ∧
    rpc_inv (MkRpc s' k' (cl st)).
Proof.
  intros [Hs Hf Hc Ho _] Hcon Ht Hsv Hrdy Hi. pose proof Hi as (hc & hs & mu & md & Hph & He).
  destruct (server_turn_ok q' (shaking_authorized CapnProto q Hauth) _ _ _ _ _ _ Hph He Hrdy)
    as (y' & Hy & Hlt & Hi'). cbn [ep wrote heard new_peer right] in *.
  destruct t as [| |?|limit o p|c]; try done.
  2: { destruct Hsv as (_ & _ & e & d & Hst). apply a_ready_shaking in Hrdy as [h Hh]. congruence. }
  destruct Hsv as (<- & Hpid & _).
  destruct (inv_tasks _ Hs _ _ Ht) as (Hk & w & e & Hw & Hok).
  destruct (wrapping_turn_spec _ _ _ Hok) as (r & Hr & Hpr & _).
  assert (handle timedOut (Turn (conn_task st)) (srv st) = Some (wrapResult (conn_task st) limit o r (srv st))) as Hh
    by (unfold handle; cbn; by rewrite Ht, Hr).
  destruct (handle_ok timedOut (Turn (conn_task st)) _ _ Hs ltac:(by intros []) Hh) as (Hrun & Hs' & (_ & Hf' & _)).
  set (s' := (wrapResult (conn_task st) limit o r (srv st)).2) in *.
  assert (∃ t', let k' := next_conn (conn_task st) (srv st) s' in _tasks s' !! k' = Some t' ∧ serves y' t')
    as (t' & Ht' & Hsv').
  { assert (conn_task st ≠ nextTask (srv st)) as Hne by lia.
    destruct (wrapping_turns _ p y' Hy) as [Hturn|Hturn]; rewrite Hturn in Hr; injection Hr as <-.
    - destruct Hpr as (Hok' & _). eexists. cbv zeta. unfold next_conn, s', wrapResult, settle_task. cbn.
      rewrite lookup_insert_eq, bool_decide_eq_true_2 by done. rewrite lookup_insert_eq. split; [done|].
      split; [done|]. split; [done|]. exact (still_shaking _ _ _ _ Hok').
    - pose proof (link_ok q' _ Hi') as [_ Hkj]. cbn in Hpr.
      destruct (now_joined _ _ _ _ _ _ Hpr Hkj) as [Hj Hid].
      eexists. cbv zeta. unfold next_conn, s', wrapResult, of_secret, wrapped. cbn [stream peerIdentity].
      rewrite start_run. cbn [snd _tasks set_tasks]. rewrite lookup_delete_eq, bool_decide_eq_false_2 by (by intros []).
      rewrite lookup_delete_ne, lookup_insert_eq by done. split; [done|].
      rewrite Hid, Hpid, Hf. by split_and!. }
  exists s', t', y'. split; [by rewrite Hh, (surjective_pairing (wrapResult _ _ _ _ _)), Hrun|].
  split_and!; try done. constructor; [done|cbn [srv]; congruence|done|done|]. by exists x, y', t'.
Qed.

(** ** The network *)

Lemma net_stage i o x : a_stage (a_net i o x) = a_stage x.
Proof. apply (a_net_spec i o x). Qed.

Lemma serves_net i o y t : serves y t → serves (a_net i o y) (task_net i o t) ∧ ordinary (task_net i o t).
Proof.
  destruct t as [| |?|limit op p|c]; try done; cbn [serves task_net].
  - intros (<- & ? & Hst). split; [|done]. by rewrite net_stage.
  - intros (Hc & ? & Hst). split; [|done]. rewrite Hc, net_stage. by split_and!.
Qed.

Lemma task_net_ok ow i o y t :
  serves y t → task_ok ow f t → task_ok ow f (task_net i o t).
Proof.
  destruct t as [| |?|limit op p|c]; try done; cbn [serves task_net task_ok].
  - intros _ (w & e & Hw & Hok). exists w, e. split; [done|]. by destruct Hok.
  - intros (Hc & _ & _). destruct ow as [w|].
    + intros (e & j & a & Hau & Hst & Hm). exists e, j, (MkAuth (a_net i o (stream a)) (peerIdentity a)).
      split; [exact Hau|]. rewrite Hst. by split.
    + intros (a & Hst & _). by rewrite Hc in Hst.
Qed.

Lemma server_net_ok i o st y t :
  rpc_inv st → _tasks (srv st) !! conn_task st = Some t → serves y t →
  let s' := server_net i o (conn_task st) (srv st) in
  server_inv s' ∧ _mainInterfaceFactory s' = f ∧ _tasks s' !! conn_task st = Some (task_net i o t) ∧
  serves (a_net i o y) (task_net i o t).
Proof.
  intros [Hs Hf _ _ _] Ht Hsv s'. destruct (serves_net i o y t Hsv) as [Hsv' Hord].
  assert (s' = (settle_task (conn_task st) (task_net i o t) (srv st)).2) as ->.
  { unfold s', server_net, settle_task. cbn. f_equal. apply map_eq. intros k.
    destruct (decide (k = conn_task st)) as [->|Hne].
    - by rewrite lookup_alter_eq, lookup_insert_eq, Ht.
    - by rewrite lookup_alter_ne, lookup_insert_ne by done. }
  destruct (settle_task_ok (srv st) (conn_task st) t (task_net i o t) Hs Ht) as (_ & Hs' & (_ & Hf' & _)).
  - by destruct t.
  - done.
  - rewrite Hf. eapply task_net_ok; [done|]. rewrite <-Hf. by eapply inv_tasks.
  - split_and!; [done|congruence|apply lookup_insert_eq|done].
Qed.

Lemma client_net_ok i o st x p :
  rpc_inv st → _setupPromise (cl st) = SetupWrapping p → conn p = x → connects x (cl st) →
  let c' := client_net i o (cl st) in
  client_inv bootstrap c' ∧ cl_readerOpts c' = opts ∧ connects (a_net i o x) c' ∧ branches c' = branches (cl st).
Proof.
  intros [_ _ Hc Ho _] Hp <- Hcon c'. unfold connects in Hcon. rewrite Hp in Hcon. destruct Hcon as [_ Hst].
  pose proof (inv_setup _ _ Hc) as Hse. rewrite Hp in Hse. destruct Hse as (Hn & w & e & Hw & Hok).
  set (p' := MkWrapping (a_net i o (conn p)) (deadline p) (innerId p)).
  assert (c' = set_setup (SetupWrapping p') (cl st)) as -> by (unfold c', client_net; by rewrite Hp).
  destruct (setup_step_ok bootstrap (cl st) (SetupWrapping p') Hc Hn) as (_ & Hc' & _).
  - by rewrite Hp.
  - split; [done|]. exists w, e. split; [done|]. by destruct Hok.
  - split; [done|]. split; [done|]. split; [|done]. split; [done|]. by rewrite net_stage.
Qed.

(** The client's stream, while it is in the handshake. *)
Lemma client_at_wrapping st x x0 :
  client_at st = Some x → connects x0 (cl st) → x = x0 ∧ ∃ p, _setupPromise (cl st) = SetupWrapping p ∧ conn p = x0.
Proof.
  unfold client_at, connects. destruct (_setupPromise (cl st)) as [| | |p| |]; try done.
  intros [= <-] [<- _]. split; [done|by exists p].
Qed.

Lemma rpc_net i o i' o' st x y t :
  rpc_inv st → connects x (cl st) → is_Some (client_at st) →
  _tasks (srv st) !! conn_task st = Some t → serves y t →
  link_inv q' (MkLink (new_peer (a_net i o x)) (new_peer (a_net i' o' y))) →
  let st' := MkRpc (server_net i' o' (conn_task st) (srv st)) (conn_task st) (client_net i o (cl st)) in
  rpc_inv st' ∧ client_at st' = Some (a_net i o x) ∧ server_at st' = Some (a_net i' o' y) ∧
  branches (cl st') = branches (cl st).
Proof.
  intros Hi Hcon [x0 Hx] Ht Hsv Hl. destruct (client_at_wrapping _ _ _ Hx Hcon) as (-> & p & Hp & Hcp).
  destruct (client_net_ok i o st x p Hi Hp Hcp Hcon) as (Hc' & Ho' & Hcon' & Hb').
  destruct (server_net_ok i' o' st y t Hi Ht Hsv) as (Hs' & Hf' & Ht' & Hsv'). cbv zeta. split_and!.
  - constructor; try done. by exists (a_net i o x), (a_net i' o' y), (task_net i' o' t).
  - unfold client_at, client_net. cbn [cl]. rewrite Hp. cbn. by rewrite Hcp.
  - unfold server_at. cbn [srv conn_task]. rewrite Ht'. by apply serves_stream.
  - done.
Qed.

(** ** The steps *)

(** Calls of the application leave the stream alone. *)
Lemma client_calls ev (c c' : ClientImpl script Cap Opts) :
  client_handle bootstrap ev c = Some (Ok tt, c') → ev = CallGetMain ∨ (∃ k, ev = BranchRuns k) →
  _setupPromise c' = _setupPromise c ∧ _clientContext c' = _clientContext c.
Proof.
  intros Hh [-> | [k ->]]; cbn in Hh.
  - rewrite (bind_Ok _ _ _ _ _ (getMain_run bootstrap c)) in Hh. destruct (_clientContext c) eqn:E;
      apply Some_inj in Hh; injection Hh as <-; cbn; by rewrite E.
  - unfold branchRuns, answer in Hh. rewrite !bind_modify, bind_get in Hh.
    destruct (_setupPromise c) eqn:Es; try done; (case_bool_decide; [|done]); apply Some_inj in Hh.
    + cbn in Hh. destruct (_clientContext c) eqn:E; [|done]. injection Hh as <-. cbn. by rewrite Es, E.
    + injection Hh as <-. cbn. by rewrite Es.
Qed.

Lemma connects_same x (c c' : ClientImpl script Cap Opts) :
  _setupPromise c' = _setupPromise c → _clientContext c' = _clientContext c → connects x c → connects x c'.
Proof. unfold connects. by intros -> ->. Qed.

Lemma rpc_client_event ev st c' x y t :
  rpc_inv st → client_handle bootstrap ev (cl st) = Some (Ok tt, c') →
  ev = CallGetMain ∨ (∃ k, ev = BranchRuns k) → connects x (cl st) →
  _tasks (srv st) !! conn_task st = Some t → serves y t →
  link_inv q' (MkLink (new_peer x) (new_peer y)) → rpc_inv (MkRpc (srv st) (conn_task st) c').
Proof.
  intros [Hs Hf Hc Ho _] Hh Hev Hcon Ht Hsv Hl.
  destruct (client_handle_ok bootstrap _ _ _ Hc Hh) as (_ & Hc' & _ & Ho').
  destruct (client_calls _ _ _ Hh Hev) as [E1 E2]. cbn [snd] in *.
  constructor; [done|done|done|cbn [cl]; congruence|]. exists x, y, t. split_and!; try done.
  by eapply connects_same.
Qed.

Lemma rpc_inv_step st st' : rpc_inv st → step st st' → rpc_inv st'.
Proof.
  intros Hi Hstep. pose proof Hi as [Hs Hf Hc Ho (x & y & t & Hcon & Ht & Hsv & Hl)].
  assert (server_at st = Some y) as Hy by (unfold server_at; rewrite Ht; by apply serves_stream).
  destruct Hstep as [ev st s' Hh Hne|st y1 s' Hy1 Hrdy Hh|ev st c' Hh Hrdy|st x1 y1 b rest Hx1 Hy1 Hb|st x1 y1 b rest Hx1 Hy1 Hb].
  - destruct (handle_returns timedOut _ _ _ Hs Hh) as (_ & Hs' & (_ & Hf' & _)). cbn [snd] in *.
    constructor; [done|cbn [srv]; congruence|done|done|]. exists x, y, t. split_and!; try done.
    exact (handle_frame timedOut ev _ _ _ _ _ Hs Hh Hne Ht).
  - rewrite Hy in Hy1. apply Some_inj in Hy1 as <-.
    destruct (server_turns st x y t Hi Hcon Ht Hsv Hrdy Hl) as (s1 & t' & y' & Hh' & _ & _ & _ & _ & Hi').
    rewrite Hh in Hh'. apply Some_inj in Hh'. by injection Hh' as <-.
  - destruct ev as [|t0 e|e| | |k]; [..|by eapply rpc_client_event; eauto|by eapply rpc_client_event; eauto].
    1-3: exfalso; unfold connects in Hcon; cbn in Hh; by destruct (_setupPromise (cl st)).
    destruct (Hrdy eq_refl) as (x1 & Hx1 & Hr). destruct (client_at_wrapping _ _ _ Hx1 Hcon) as (-> & p & Hp & Hcp).
    destruct (client_turns st x p y t Hi Hp Hcp Hr Ht Hsv Hl) as (c1 & x' & Hh' & _ & _ & _ & _ & Hi').
    rewrite Hh in Hh'. apply Some_inj in Hh'. by injection Hh' as <-.
  - rewrite Hy in Hy1. apply Some_inj in Hy1 as <-. destruct (client_at_wrapping _ _ _ Hx1 Hcon) as (-> & _).
    eapply rpc_net; [done|done|by eexists|done|done|].
    apply (link_inv_step q' (shaking_authorized CapnProto q Hauth) _ _ Hl), link_up.
    by apply (transfer_bytes (new_peer x) (new_peer y) b rest).
  - rewrite Hy in Hy1. apply Some_inj in Hy1 as <-. destruct (client_at_wrapping _ _ _ Hx1 Hcon) as (-> & _).
    eapply rpc_net; [done|done|by eexists|done|done|].
    apply (link_inv_step q' (shaking_authorized CapnProto q Hauth) _ _ Hl), link_down.
    by apply (transfer_bytes (new_peer y) (new_peer x) b rest).
Qed.

Lemma rpc_inv_steps st st' : rpc_inv st → rtc step st st' → rpc_inv st'.
Proof. intros Hi Hs. induction Hs; eauto using rpc_inv_step. Qed.

(** ** The beginning *)

Lemma script_begins x : connect_begin x = (Ok (inl tt), x).
Proof. unfold connect_begin. destruct (script_named x) as [b Hb]. by rewrite !(await_inl _ _ _ _ _ Hb). Qed.

Lemma accepted_starts (s0 s : Impl script I Cap Opts) k w :
  server_inv s0 → _shsWrapper s0 = Some w →
  handle timedOut (Accepted k (MkAuth (MkScript [] [] false) pid) (p_b q)) s0 = Some (Ok tt, s) →
  ∃ limit o dl, _tasks s !! k =
    Some (WrappingStream limit o (MkWrapping (new_conn w (MkScript [] [] false) (p_b q)) dl pid)).
Proof.
  intros Hi Hw Hh. pose proof (inv_wrapper _ Hi w Hw) as Hwok. unfold handle in Hh.
  cbn [task_of mbind option_bind] in Hh. destruct (_tasks s0 !! k) as [[]|] eqn:Hk; try done.
  apply Some_inj in Hh. unfold accepted in Hh. cbn [k_getpeername script_stream stream peerIdentity] in Hh.
  unfold acceptLoop, add_task in Hh. rewrite bind_modify, bind_get in Hh. cbn [_shsWrapper set_tasks now] in Hh.
  rewrite Hw in Hh. cbn [deref] in Hh. rewrite bind_ret in Hh. unfold wrap_auth in Hh.
  cbn [stream peerIdentity] in Hh. rewrite script_begins in Hh.
  destruct (_connectTimeout w) eqn:Et; [destruct (Hwok ltac:(by rewrite Et)) as [tm Htm]; rewrite Htm in Hh|];
    unfold settle_task in Hh; injection Hh as <-; cbn; rewrite lookup_insert_eq; by eexists _, _, _.
Qed.

Lemma rpc_start_inv st : rpc_start timedOut bootstrap q f pid opts st → rpc_inv st.
Proof.
  destruct 1 as [s0 s k c0 c w w' Hs0 Hw Hww Hf Hh Hc0 Hw' Hww' Ho Hch].
  apply server_reachable_inv in Hs0. apply client_reachable_inv in Hc0.
  destruct (accepted_starts _ _ _ _ Hs0 Hw Hh) as (limit & o & dl & Ht).
  destruct (handle_returns timedOut _ _ _ Hs0 Hh) as (_ & Hs & (_ & Hf' & _)).
  destruct (client_handle_ok bootstrap _ _ _ Hc0 Hch) as (_ & Hc & _ & Ho'). cbn [snd] in *.
  set (x := new_conn w' (MkScript [] [] false) (p_a q)). set (y := new_conn w (MkScript [] [] false) (p_b q)) in *.
  assert (_setupPromise c = SetupWrapping (MkWrapping x None tt)) as Hp.
  { cbn in Hch. assert (streamArrived (MkScript [] [] false) (p_a q) c0 = (Ok tt, c)) as Hrun
      by (destruct (_setupPromise c0); try done; by apply Some_inj in Hch).
    unfold streamArrived in Hrun. rewrite bind_get, Hw', script_begins in Hrun. by injection Hrun as <-. }
  constructor; [done|cbn [srv]; congruence|done|cbn [cl]; congruence|]. exists x, y. eexists.
  split; [|split; [exact Ht|]].
  - unfold connects. cbn [cl]. rewrite Hp. split; [done|]. by eexists.
  - split; [split; [done|]; split; [done|by eexists]|].
    apply link_begins. split.
    + unfold x, new_conn. rewrite Hww'. split; [|done]. split; [done|]. left. by split_and!; [eexists|..].
    + unfold y, new_conn. rewrite Hww. split; [|done]. split; [exact Hauth|]. left. by split_and!; [eexists|..].
Qed.

(** ** Progress *)

Definition connected st : Prop :=
  _setupPromise (cl st) = SetupDone ∧ ∃ c, _tasks (srv st) !! conn_task st = Some (Serving c).

Lemma server_at_serves st y t :
  _tasks (srv st) !! conn_task st = Some t → serves y t → server_at st = Some y.
Proof. unfold server_at. intros -> Hsv. by apply serves_stream. Qed.

(** The network delivers everything. *)
Lemma rpc_delivers st x y :
  rpc_inv st → client_at st = Some x → server_at st = Some y →
  ∃ st' x' y', rtc step st st' ∧ rpc_inv st' ∧ client_at st' = Some x' ∧ server_at st' = Some y' ∧
    a_turns x' = a_turns x ∧ a_turns y' = a_turns y ∧ a_out x' = [] ∧ a_out y' = [].
Proof.
  intros Hi Hx Hy.
  assert (∀ st x y, rpc_inv st → client_at st = Some x → server_at st = Some y → ∀ i o i' o',
    let st' := MkRpc (server_net i' o' (conn_task st) (srv st)) (conn_task st) (client_net i o (cl st)) in
    client_at st' = Some (a_net i o x) ∧ server_at st' = Some (a_net i' o' y)) as Hnet.
  { clear Hi Hx Hy st x y. intros st x y [_ _ _ _ (x0 & y0 & t & Hcon & Ht & Hsv & _)] Hx Hy i o i' o' st'.
    destruct (client_at_wrapping _ _ _ Hx Hcon) as (-> & p & Hp & Hcp).
    rewrite (server_at_serves st y0 t Ht Hsv) in Hy. apply Some_inj in Hy as ->. split.
    - unfold st', client_at, client_net. cbn [cl]. rewrite Hp. cbn. by rewrite Hcp.
    - unfold st', server_at, server_net. cbn. rewrite lookup_alter_eq, Ht. cbn.
      by apply serves_stream, serves_net. }
  pose proof (step_up timedOut bootstrap st x y (a_out x) [] Hx Hy ltac:(by rewrite app_nil_r)) as S1.
  destruct (Hnet st x y Hi Hx Hy (a_in x) [] (a_in y ++ a_out x) (a_out y)) as [Hx1 Hy1].
  pose proof (rpc_inv_step _ _ Hi S1) as Hi1.
  pose proof (step_down timedOut bootstrap _ _ _ _ [] Hx1 Hy1 ltac:(by rewrite app_nil_r)) as S2.
  edestruct (Hnet _ _ _ Hi1 Hx1 Hy1) as [Hx2 Hy2]. pose proof (rpc_inv_step _ _ Hi1 S2) as Hi2.
  eexists _, _, _. split; [eapply rtc_l; [exact S1|]; apply rtc_once; exact S2|].
  split; [exact Hi2|]. split; [exact Hx2|]. split; [exact Hy2|]. by split_and!.
Qed.

Lemma rpc_connects_inv st : rpc_inv st → ∃ st', rtc step st st' ∧ rpc_inv st' ∧ connected st'.
Proof.
  intros Hi. pose proof Hi as [_ _ _ _ (x & y & t & Hcon & Ht & Hsv & Hl)].
  remember (a_turns x + a_turns y)%nat as n eqn:En. revert st x y t En Hi Hcon Ht Hsv Hl.
  induction (lt_wf n) as [n _ IH]. intros st x y t En Hi Hcon Ht Hsv Hl.
  pose proof (shaking_authorized CapnProto q Hauth) as Ha'.
  assert (∀ st1 x1 y1 t1, rpc_inv st1 → connects x1 (cl st1) → _tasks (srv st1) !! conn_task st1 = Some t1 →
    serves y1 t1 → link_inv q' (MkLink (new_peer x1) (new_peer y1)) → a_turns x1 = a_turns x →
    a_turns y1 = a_turns y → a_ready y1 = true → ∃ st', rtc step st1 st' ∧ rpc_inv st' ∧ connected st') as Hserver.
  { intros st1 x1 y1 t1 Hi1 Hcon1 Ht1 Hsv1 Hl1 Ex Ey Hr.
    destruct (server_turns st1 x1 y1 t1 Hi1 Hcon1 Ht1 Hsv1 Hr Hl1)
      as (s' & t' & y' & Hh & Hlt & Ht' & Hsv' & Hl' & Hi').
    edestruct (IH (a_turns x1 + a_turns y')%nat ltac:(lia) _ x1 y' t' eq_refl Hi') as (st' & Hs' & Hd); try done.
    exists st'. split; [|done]. eapply rtc_l; [|exact Hs'].
    eapply step_turn; [by eapply server_at_serves|done|exact Hh]. }
  unfold connects in Hcon. destruct (_setupPromise (cl st)) as [| | |p| |] eqn:Hp; try done.
  - destruct Hcon as [<- [h Hst]].
    assert (client_at st = Some (conn p)) as Hx by (unfold client_at; by rewrite Hp).
    destruct (rpc_delivers st (conn p) y Hi Hx (server_at_serves _ _ _ Ht Hsv))
      as (st1 & x1 & y1 & Hs1 & Hi1 & Hx1 & Hy1 & Ex & Ey & Ox & Oy).
    pose proof Hi1 as [_ _ _ _ (x0 & y0 & t1 & Hcon1 & Ht1 & Hsv1 & Hl1)].
    destruct (client_at_wrapping _ _ _ Hx1 Hcon1) as (<- & p1 & Hp1 & Hcp1).
    rewrite (server_at_serves _ _ _ Ht1 Hsv1) in Hy1. apply Some_inj in Hy1 as ->.
    destruct (someone_ready q' Ha' _ Hl1 Ox Oy) as [Hr|[Hr|[Hj _]]].
    + destruct (client_turns st1 x1 p1 y1 t1 Hi1 Hp1 Hcp1 Hr Ht1 Hsv1 Hl1)
        as (c' & x' & Hh & Hlt & Hcon' & Hl' & _ & Hi').
      edestruct (IH (a_turns x' + a_turns y1)%nat ltac:(lia) _ x' y1 t1 eq_refl Hi') as (st' & Hs' & Hd); try done.
      exists st'. split; [|done]. etrans; [exact Hs1|]. eapply rtc_l; [|exact Hs'].
      eapply step_client; [exact Hh|]. intros _. by exists x1.
    + destruct (Hserver st1 x1 y1 t1) as (st' & Hs' & Hd); try done. exists st'. split; [|done]. by etrans.
    + exfalso. destruct Hj as (e & d & Hj). cbn in Hj. unfold connects in Hcon1. rewrite Hp1 in Hcon1.
      destruct Hcon1 as [_ [h1 Hst1]]. cbn in Hst1. congruence.
  - destruct Hcon as (Hctx & e & d & Hst).
    destruct (last_turn_ready q' _ _ _ _ Hl Hst) as [Hr|(e' & d' & Hj)].
    + apply (Hserver st x y t); try done. unfold connects. rewrite Hp. split; [done|by eexists _, _].
    + exists st. split; [done|]. split; [done|]. destruct t as [| |?|l o p|c]; try done.
      * destruct Hsv as (_ & _ & h & Hh). cbn in Hj, Hh. congruence.
      * split; [exact Hp|by exists c].
Qed.

(** A call of [getMain] that waits is answered. *)
Lemma branch_runs (c : ClientImpl script Cap Opts) ctx k :
  _setupPromise c = SetupDone → _clientContext c = Some ctx → is_Some (branches c !! k) →
  ∃ c', client_handle bootstrap (BranchRuns k) c = Some (Ok tt, c') ∧ branches c' = delete k (branches c) ∧
    _setupPromise c' = SetupDone.
Proof.
  intros Hs Hc Hk. cbn. rewrite Hs, bool_decide_eq_true_2 by done. unfold branchRuns, answer.
  rewrite bind_modify, bind_get. cbn [_clientContext set_branches]. rewrite Hc. by eexists.
Qed.

Lemma rpc_answers st :
  rpc_inv st → connected st →
  ∃ st', rtc step st st' ∧ rpc_inv st' ∧ connected st' ∧ branches (cl st') = ∅.
Proof.
  remember (size (branches (cl st))) as n eqn:En. revert st En. induction (lt_wf n) as [n _ IH].
  intros st En Hi [Hp Hsv]. destruct (decide (branches (cl st) = ∅)) as [He|He]; [by exists st; split_and!|].
  apply map_choose in He as (k & u & Hk).
  assert (∃ ctx, _clientContext (cl st) = Some ctx) as [ctx Hctx].
  { pose proof (inv_setup _ _ (ri_client st Hi)) as Hs. rewrite Hp in Hs. destruct Hs as (? & ? & _). by eexists. }
  destruct (branch_runs (cl st) ctx k Hp Hctx ltac:(by eexists)) as (c' & Hh & Hb & Hp').
  assert (step st (MkRpc (srv st) (conn_task st) c')) as Hst by (by eapply step_client).
  destruct (IH (size (branches c'))) with (st := MkRpc (srv st) (conn_task st) c')
    as (st' & Hs' & Hi' & Hd & Hb'); [|done|by eapply rpc_inv_step|by split|].
  - rewrite En, Hb, map_size_delete_Some by (by eexists). apply Nat.lt_pred_l. intros E.
    apply map_size_empty_inv in E. by rewrite E, lookup_empty in Hk.
  - exists st'. split_and!; try done. by eapply rtc_l.
Qed.

(** Calls are counted up. *)
Lemma rpc_step_calls st st' : step st st' → (nextCall (cl st) <= nextCall (cl st'))%nat.
Proof.
  destruct 1 as [| |ev st c' Hh _|st x y b rest Hx _ _|st x y b rest Hx _ _]; cbn; try lia.
  - unfold client_handle, connectAttach, streamArrived, setupTurn, setup_done, branchRuns, answer, getMain in Hh.
    mrun_in Hh. destruct ev; repeat (case_match; simplify_eq/=); lia.
  - unfold client_net. by destruct (_setupPromise (cl st)).
  - unfold client_net. by destruct (_setupPromise (cl st)).
Qed.
End invariant.

(** * Properties *)

Section properties.
Context {P : Primitives} {PL : PrimitivesLaws P} {I Cap Opts : Type}.
Context (timedOut : exception) (bootstrap : rpc_stream script → Opts → side → Cap).
Context (q : parties) (f : MainInterfaceFactory I Cap) (pid : I) (opts : Opts).

(** An RPC client and an RPC server that authorizes it make a connection of
    each other. Whatever else the server does, in whatever order the events of
    the two programs and the network happen: the handshake of neither side
    fails; every call of [getMain] that has been answered has got the main
    capability of a stream that has joined the server with the expected key;
    and the server, once it serves the connection, has the main interface that
    its factory makes for the client's key. *)
Theorem rpc_end_to_end st0 st :
  authorized (p_auth q) (Ap q) → rpc_start timedOut bootstrap q f pid opts st0 →
  rtc (rpc_step timedOut bootstrap) st0 st →
  (∀ e, _setupPromise (cl st) ≠ SetupFailed e) ∧
  (∀ n r, answers (cl st) !! n = Some r →
     ∃ x e d, r = inl (bootstrap (SecretStream x) opts SERVER) ∧ a_stage x = Joined (Bp q) e d) ∧
  match _tasks (srv st) !! conn_task st with
  | Some (WrappingStream _ _ _) => True
  | Some (Serving c) => c_mainInterface c = f (Some (MkIdentity (Ap q) pid))
  | _ => False
  end.
Proof.
  intros Ha H0 Hs. apply (rpc_start_inv timedOut bootstrap q f pid opts Ha) in H0.
  pose proof (rpc_inv_steps timedOut bootstrap q f pid opts Ha _ _ H0 Hs) as [_ _ Hc _ Hl].
  destruct Hl as (x & y & t & Hcon & Ht & Hsv & _). unfold connects in Hcon. split; [|split].
  - intros e He. by rewrite He in Hcon.
  - intros n r Hr. pose proof (inv_answers _ _ Hc n r Hr) as Hok. destruct r as [cap|e]; cbn in Hok.
    + destruct Hok as (ctx & Hctx & ->). pose proof (inv_setup _ _ Hc) as Hse.
      destruct (_setupPromise (cl st)) as [| | |p| |]; try done; [by destruct Hse; congruence|].
      destruct Hcon as (Hctx' & e & d & Hst). exists x, e, d. split; [|done].
      rewrite Hctx in Hctx'. by apply Some_inj in Hctx' as ->.
    + by rewrite Hok in Hcon.
  - rewrite Ht. destruct t; try done. by destruct Hsv as (_ & -> & _).
Qed.

(** The two never get stuck: from every state the network can deliver and the
    two programs can go on so that the client has its connection, the server
    serves it with the main interface for the client's key, and every call of
    [getMain] made so far has got its capability. *)
Theorem rpc_can_connect st0 st :
  authorized (p_auth q) (Ap q) → rpc_start timedOut bootstrap q f pid opts st0 →
  rtc (rpc_step timedOut bootstrap) st0 st →
  ∃ st', rtc (rpc_step timedOut bootstrap) st st' ∧ _setupPromise (cl st') = SetupDone ∧
    (∃ c, _tasks (srv st') !! conn_task st' = Some (Serving c) ∧
       c_mainInterface c = f (Some (MkIdentity (Ap q) pid))) ∧
    ∀ n, (n < nextCall (cl st))%nat → ∃ cap, answers (cl st') !! n = Some (inl cap).
Proof.
  intros Ha H0 Hs. apply (rpc_start_inv timedOut bootstrap q f pid opts Ha) in H0.
  pose proof (rpc_inv_steps timedOut bootstrap q f pid opts Ha _ _ H0 Hs) as Hi.
  destruct (rpc_connects_inv timedOut bootstrap q f pid opts Ha st Hi) as (st1 & Hs1 & Hi1 & Hd1).
  destruct (rpc_answers timedOut bootstrap q f pid opts Ha st1 Hi1 Hd1) as (st' & Hs' & Hi' & [Hp [c Hc]] & Hb).
  assert (rtc (rpc_step timedOut bootstrap) st st') as Hrun by (by etrans). exists st'. split_and!; try done.
  - exists c. split; [done|]. destruct (ri_link _ _ _ _ _ _ Hi') as (x & y & t & _ & Ht & Hsv & _).
    rewrite Hc in Ht. apply Some_inj in Ht as <-. by destruct Hsv as (_ & -> & _).
  - intros n Hn. assert (nextCall (cl st) <= nextCall (cl st'))%nat as Hle.
    { clear -Hrun. induction Hrun as [|? ? ? Hst _ IH]; [done|]. apply rpc_step_calls in Hst. lia. }
    destruct (proj1 (inv_calls _ _ (ri_client _ _ _ _ _ _ Hi') n) ltac:(lia)) as [[u Hu]|[[cap|e] Hr]].
    + by rewrite Hb, lookup_empty in Hu.
    + by exists cap.
    + pose proof (inv_answers _ _ (ri_client _ _ _ _ _ _ Hi') n _ Hr) as He. cbn in He. congruence.
Qed.
End properties.

(** * Witnesses *)

Module Demo.
Import Toy Protocol.Demo.

(** The main interface is the key of the peer it is for, and so is the
    capability of a stream. *)
Definition factory (id : option (SHSPeerIdentity nat)) : bytes := default [] (publicKey_of <$> id).
Definition bootstrap (s : rpc_stream script) (_ : unit) (_ : side) : bytes :=
  match s with
  | SecretStream x => default [] (publicKey_of <$> getIdentity tt x)
  | PlainStream _ => []
  end.
Definition timedOut : exception := InnerException 1.
Definition no_bytes : script := MkScript [] [] false.

Definition listener : Impl script nat bytes unit :=
  Impl_listen factory 0 tt (Some (StreamWrapper_init (ServerWrapper (server_ctx q) (p_auth q)))).
Definition caller : ClientImpl script bytes unit :=
  ClientImpl_address 0 (Some (StreamWrapper_init (ClientWrapper (client_ctx q) (Bp q)))) tt.

Abbreviation event_of := (λ ev s, from_option snd s (handle timedOut ev s)).
Abbreviation client_event_of := (λ ev c, from_option snd c (client_handle bootstrap ev c)).

(** The server listens, the client is about to connect. *)
Definition listening_server : Impl script nat bytes unit := event_of (AddressParsed 0 7777) listener.
Definition connecting_client : ClientImpl script bytes unit :=
  client_event_of AddressResolved (client_event_of CallGetMain caller).

Definition start : rpc nat bytes unit :=
  MkRpc (event_of (Accepted 1 (MkAuth no_bytes 9%nat) (p_b q)) listening_server) 1
    (client_event_of (StreamArrived no_bytes (p_a q)) connecting_client).

Lemma started : rpc_start timedOut bootstrap q factory 9%nat tt start.
Proof.
  apply (start_rpc timedOut bootstrap q factory 9%nat tt listening_server (srv start) 1 connecting_client (cl start)
    (StreamWrapper_init (ServerWrapper (server_ctx q) (p_auth q)))
    (StreamWrapper_init (ClientWrapper (client_ctx q) (Bp q)))).
  - exists listener. split; [constructor; intros ? [= <-] [? [=]]|]. apply rtc_once. by exists (AddressParsed 0 7777).
  - reflexivity.
  - reflexivity.
  - reflexivity.
  - vm_compute. reflexivity.
  - exists caller. split; [constructor|]. eapply rtc_l; [by exists CallGetMain|]. apply rtc_once.
    by exists AddressResolved.
  - reflexivity.
  - reflexivity.
  - reflexivity.
  - vm_compute. reflexivity.
Qed.

(** What happens, as a function. *)
Inductive action := ServerTurn | ClientTurn | CallMain | RunBranch (k : nat) | Up | Down.

Definition act (a : action) (st : rpc nat bytes unit) : option (rpc nat bytes unit) :=
  match a with
  | ServerTurn =>
      y ← server_at st;
      match a_ready y, handle timedOut (Turn (conn_task st)) (srv st) with
      | true, Some (Ok tt, s') => Some (MkRpc s' (next_conn (conn_task st) (srv st) s') (cl st))
      | _, _ => None
      end
  | ClientTurn =>
      x ← client_at st;
      match a_ready x, client_handle bootstrap SetupTurn (cl st) with
      | true, Some (Ok tt, c') => Some (MkRpc (srv st) (conn_task st) c')
      | _, _ => None
      end
  | CallMain =>
      match client_handle bootstrap CallGetMain (cl st) with
      | Some (Ok tt, c') => Some (MkRpc (srv st) (conn_task st) c')
      | _ => None
      end
  | RunBranch k =>
      match client_handle bootstrap (BranchRuns k) (cl st) with
      | Some (Ok tt, c') => Some (MkRpc (srv st) (conn_task st) c')
      | _ => None
      end
  | Up => x ← client_at st; y ← server_at st;
      Some (MkRpc (server_net (a_in y ++ a_out x) (a_out y) (conn_task st) (srv st)) (conn_task st)
              (client_net (a_in x) [] (cl st)))
  | Down => x ← client_at st; y ← server_at st;
      Some (MkRpc (server_net (a_in y) [] (conn_task st) (srv st)) (conn_task st)
              (client_net (a_in x ++ a_out y) (a_out x) (cl st)))
  end.

Lemma act_rpc_step a st st' : act a st = Some st' → rpc_step timedOut bootstrap st st'.
Proof.
  destruct a; cbn [act].
  - intros (y & Hy & Hr)%bind_Some. destruct (a_ready y) eqn:E; [|done].
    destruct (handle _ _ _) as [[[[]|] s']|] eqn:Hh; try done. injection Hr as <-. by eapply step_turn.
  - intros (x & Hx & Hr)%bind_Some. destruct (a_ready x) eqn:E; [|done].
    destruct (client_handle _ _ _) as [[[[]|] c']|] eqn:Hh; try done. injection Hr as <-.
    eapply step_client; [exact Hh|]. intros _. by exists x.
  - destruct (client_handle _ _ _) as [[[[]|] c']|] eqn:Hh; try done. intros [= <-]. by eapply step_client.
  - destruct (client_handle _ _ _) as [[[[]|] c']|] eqn:Hh; try done. intros [= <-]. by eapply step_client.
  - intros (x & Hx & (y & Hy & [= <-])%bind_Some)%bind_Some. apply step_up; [done..|]. by rewrite app_nil_r.
  - intros (x & Hx & (y & Hy & [= <-])%bind_Some)%bind_Some. apply step_down; [done..|]. by rewrite app_nil_r.
Qed.

Fixpoint play (acts : list action) (st : rpc nat bytes unit) : option (rpc nat bytes unit) :=
  match acts with [] => Some st | a :: acts => st1 ← act a st; play acts st1 end.

Lemma play_steps acts st st' : play acts st = Some st' → rtc (rpc_step timedOut bootstrap) st st'.
Proof.
  revert st. induction acts as [|a acts IH]; cbn; intros st Hr; [by simplify_eq|].
  apply bind_Some in Hr as (st1 & Ha & Hr). eapply rtc_l; [by apply (act_rpc_step a)|by apply IH].
Qed.

(** The whole handshake; the call made before it is answered after it. *)
Definition acts : list action :=
  [ClientTurn; Up; ServerTurn; ServerTurn; Down; ClientTurn; CallMain; ClientTurn; Up; ServerTurn; ServerTurn;
   ServerTurn; Down; ClientTurn; ClientTurn; RunBranch 0].

Definition met : rpc nat bytes unit := default start (play acts start).

Lemma met_reached : rtc (rpc_step timedOut bootstrap) start met.
Proof. apply (play_steps acts). vm_compute. reflexivity. Qed.

Lemma rpc_end_to_end_witness :
  (∃ c, _tasks (srv met) !! conn_task met = Some (Serving c) ∧ c_mainInterface c = Ap q) ∧
  answers (cl met) !! 0%nat = Some (inl (Bp q)).
Proof.
  destruct (rpc_end_to_end timedOut bootstrap q factory 9%nat tt start met q_authorized started met_reached)
    as (_ & _ & Hserver).
  split; [|vm_compute; reflexivity].
  destruct (_tasks (srv met) !! conn_task met) as [[| |?|l o p|c]|] eqn:E; try contradiction.
  - exfalso. assert (match _tasks (srv met) !! conn_task met with Some (Serving _) => true | _ => false end = true)
      as Hv by (vm_compute; reflexivity). rewrite E in Hv. discriminate Hv.
  - exists c. split; [reflexivity|exact Hserver].
Defined.

Lemma rpc_can_connect_witness :
  ∃ st', rtc (rpc_step timedOut bootstrap) start st' ∧ _setupPromise (cl st') = SetupDone ∧
    ∃ cap, answers (cl st') !! 0%nat = Some (inl cap).
Proof.
  destruct (rpc_can_connect timedOut bootstrap q factory 9%nat tt start start q_authorized started (rtc_refl _ _))
    as (st' & Hs & Hp & _ & Hall).
  exists st'. split; [exact Hs|]. split; [exact Hp|]. apply Hall. vm_compute. lia.
Defined.
End Demo.
