(* ===== verification/RpcTimeout.v ===== *)
(** The connection of an RPC client and server when the timers fire: RpcLink.v
    with the two timeouts of the server's side of the connection.

    [acceptLoop] gives a handshake fifteen seconds, and the wrapper may have a
    connect timeout of its own. When one of them is over the server gives the
    connection up: the task ends, its failure is reported, and the stream is
    closed. The bytes it had sent may still arrive, then the client reads the
    end of the stream. The client has no timeout.

    The theorems: a client's setup fails only if the server has given the
    connection up, and then the server's log has one of the two timeouts;
    whatever capability the client has handed out belongs to a stream that was
    authenticated with the server's key; and from every state the client's setup
    comes to an end and every call of [getMain] is answered, with a capability
    if the server has not given up. *)
From Stdlib Require Import ZArith Lia Strings.Byte.
From stdpp Require Import base list numbers option tactics relations gmap strings.
From S2P Require Import Prelude Crypto Shs Handshake Driver Protocol Boxes Streams.
From S2P Require Import Link Connection Wrapper KjEnd EndToEnd RpcContext RpcServer RpcClient RpcLink.

Open Scope Z_scope.
Import KjScript.

Section timed.
Context {P : Primitives} {I Cap Opts : Type}.
Context (timedOut : exception) (bootstrap : rpc_stream script → Opts → side → Cap).

(** The two programs; [lost] is there when the server has given up, with the
    bytes that are still on their way to the client. *)
Record timed := MkTimed { programs : rpc I Cap Opts; lost : option bytes }.

Definition is_timeout (k : nat) (ev : event script I Opts) : Prop :=
  ev = ConnectTimeout k ∨ ev = AcceptTimeout k.

Inductive timed_step : timed → timed → Prop :=
| timed_link st st' :
    rpc_step timedOut bootstrap st st' → timed_step (MkTimed st None) (MkTimed st' None)
| timed_gives_up ev st y s' :
    server_at st = Some y → is_timeout (conn_task st) ev →
    handle timedOut ev (srv st) = Some (Ok tt, s') →
    timed_step (MkTimed st None) (MkTimed (MkRpc s' (conn_task st) (cl st)) (Some (a_out y)))
| timed_server ev st b s' :
    handle timedOut ev (srv st) = Some (Ok tt, s') →
    timed_step (MkTimed st (Some b)) (MkTimed (MkRpc s' (conn_task st) (cl st)) (Some b))
| timed_arrives st x b rest :
    client_at st = Some x →
    timed_step (MkTimed st (Some (b ++ rest)))
      (MkTimed (MkRpc (srv st) (conn_task st) (client_net (a_in x ++ b) (a_out x) (cl st))) (Some rest))
| timed_client ev st b c' :
    client_handle bootstrap ev (cl st) = Some (Ok tt, c') →
    (ev = SetupTurn → b = [] ∨ ∃ x, client_at st = Some x ∧ a_ready x = true) →
    timed_step (MkTimed st (Some b)) (MkTimed (MkRpc (srv st) (conn_task st) c') (Some b)).
End timed.
Arguments timed I Cap Opts : clear implicits.

(** * The invariant *)

Section invariant.
Context {P : Primitives} {PL : PrimitivesLaws P} {I Cap Opts : Type}.
Context (timedOut : exception) (bootstrap : rpc_stream script → Opts → side → Cap).
Context (q : parties) (f : MainInterfaceFactory I Cap) (pid : I) (opts : Opts).
Hypothesis Hauth : authorized (p_auth q) (Ap q).

Abbreviation step := (timed_step timedOut bootstrap).
Abbreviation Client := (ClientImpl script Cap Opts).
Abbreviation Server := (Impl script I Cap Opts).
Implicit Types (st : rpc I Cap Opts) (s : timed I Cap Opts) (c : Client).

(** The client was made for the server's key. *)
Definition client_for c : Prop :=
  cl_readerOpts c = opts ∧
  ∃ w, cl_shsWrapper c = Some w ∧ _wrapper w = ClientWrapper (client_ctx q) (Bp q).

(** The client has got its stream. *)
Definition has_stream c : Prop :=
  match _setupPromise c with SetupWrapping _ | SetupDone | SetupFailed _ => True | _ => False end.

Definition gave_up (s : Server) : Prop := timedOut ∈ failures s ∨ HandshakeTimedOut ∈ failures s.

Record gone_inv st : Prop := {
  gi_server : server_inv (srv st);
  gi_failed : gave_up (srv st);
  gi_client : client_inv bootstrap (cl st);
  gi_stream : has_stream (cl st);
}.

Definition timed_inv s : Prop :=
  client_for (cl (programs s)) ∧
  match lost s with
  | None => rpc_inv bootstrap q f pid opts (programs s)
  | Some _ => gone_inv (programs s)
  end.

(** ** The client *)

Lemma client_for_step ev c c' :
  client_inv bootstrap c → client_handle bootstrap ev c = Some (Ok tt, c') → client_for c → client_for c'.
Proof.
  intros Hi Hh (Ho & w & Hw & Hk). destruct (client_handle_ok bootstrap _ _ _ Hi Hh) as (_ & _ & Hw' & Ho').
  cbn [snd] in *. split; [congruence|]. exists w. by rewrite Hw'.
Qed.

Lemma client_for_net i o c : client_for c → client_for (client_net i o c).
Proof. unfold client_net. by destruct (_setupPromise c). Qed.

Lemma client_for_link st st' :
  client_inv bootstrap (cl st) → rpc_step timedOut bootstrap st st' → client_for (cl st) → client_for (cl st').
Proof.
  intros Hi Hs Hf. destruct Hs as [| |ev st c' Hh _|st x y b rest Hx Hy Hb|st x y b rest Hx Hy Hb]; cbn; try done;
    [by eapply client_for_step|by apply client_for_net..].
Qed.

(** A turn of a client in the handshake, whatever its stream does. *)
Lemma client_turn_any c p :
  client_inv bootstrap c → _setupPromise c = SetupWrapping p →
  ∃ c', client_handle bootstrap SetupTurn c = Some (Ok tt, c') ∧ nextCall c' = nextCall c ∧ has_stream c' ∧
    ∀ p', _setupPromise c' = SetupWrapping p' → (turns_left p' < turns_left p)%nat.
Proof.
  intros Hi Hp. pose proof (inv_setup _ _ Hi) as Hst. rewrite Hp in Hst. destruct Hst as (_ & w & e & _ & Hok).
  destruct (wrapping_turn_spec _ _ _ Hok) as (r & Hr & _ & Hlt). cbn. rewrite Hp. unfold setupTurn. rewrite Hr.
  destruct r as [p'|a|ex]; (eexists; split; [reflexivity|]; split; [done|]; split; [done|]); cbn; try done.
  intros p1 [= <-]. exact Hlt.
Qed.

Lemma has_stream_step ev c c' :
  client_inv bootstrap c → client_handle bootstrap ev c = Some (Ok tt, c') → has_stream c → has_stream c'.
Proof.
  intros Hi Hh Hs. destruct ev as [|t e|e| | |k].
  1-3: exfalso; unfold has_stream in Hs; cbn in Hh; by destruct (_setupPromise c).
  - destruct (_setupPromise c) as [| | |p| |] eqn:Hp; cbn in Hh; rewrite Hp in Hh; try done.
    destruct (client_turn_any c p Hi Hp) as (c1 & Hh1 & _ & Hs1 & _). cbn in Hh1. rewrite Hp in Hh1.
    rewrite Hh in Hh1. apply Some_inj in Hh1. by injection Hh1 as <-.
  - destruct (client_calls bootstrap _ _ _ Hh) as [E _]; [by left|]. unfold has_stream in *. by rewrite E.
  - destruct (client_calls bootstrap _ _ _ Hh) as [E _]; [by right; eexists|]. unfold has_stream in *. by rewrite E.
Qed.

(** More bytes for a client in the handshake. *)
Lemma client_net_inv i o c p :
  client_inv bootstrap c → _setupPromise c = SetupWrapping p →
  client_inv bootstrap (client_net i o c) ∧ has_stream (client_net i o c).
Proof.
  intros Hi Hp. pose proof (inv_setup _ _ Hi) as Hst. rewrite Hp in Hst. destruct Hst as (Hn & w & e & Hw & Hok).
  unfold client_net. rewrite Hp. split; [|done].
  destruct (setup_step_ok bootstrap c
    (SetupWrapping (MkWrapping (a_net i o (conn p)) (deadline p) (innerId p))) Hi Hn) as (_ & Hc' & _); [..|done].
  - by rewrite Hp.
  - split; [done|]. exists w, e. split; [done|]. by destruct Hok.
Qed.

(** ** The server *)

Lemma failures_kept ev (s s' : Server) e :
  handle timedOut ev s = Some (Ok tt, s') → e ∈ failures s → e ∈ failures s'.
Proof.
  intros Hh He. run_event ev Hh Ht; try done; set_solver.
Qed.

Lemma gave_up_kept ev (s s' : Server) :
  handle timedOut ev s = Some (Ok tt, s') → gave_up s → gave_up s'.
Proof. intros Hh [H|H]; [left|right]; by eapply failures_kept. Qed.

Lemma timeout_gives_up ev k (s s' : Server) :
  handle timedOut ev s = Some (Ok tt, s') → is_timeout k ev → gave_up s'.
Proof.
  intros Hh [-> | ->]; unfold handle in Hh; cbn in Hh; destruct (_tasks s !! k) as [[| |?|l o p|c]|]; try done.
  - unfold wrapping_timeout in Hh. destruct (deadline p) as [d|]; [|done]. destruct (d <=? now s); [|done].
    apply Some_inj in Hh. injection Hh as <-. right. set_solver.
  - destruct l as [l|]; [|done]. destruct (l <=? now s); [|done]. apply Some_inj in Hh. injection Hh as <-.
    left. set_solver.
Qed.

(** ** The steps *)

Lemma timed_inv_step s s' : timed_inv s → step s s' → timed_inv s'.
Proof.
  intros [Hfor Hi] Hs.
  destruct Hs as [st st' Hs|ev st y s' Hy Hev Hh|ev st b s' Hh|st x b rest Hx|ev st b c' Hh Hev]; cbn in *.
  - split; [|exact (rpc_inv_step timedOut bootstrap q f pid opts Hauth _ _ Hi Hs)]. eapply client_for_link; [apply (ri_client _ _ _ _ _ _ Hi)|done..].
  - split; [done|]. destruct Hi as [Hsi _ Hc _ (x & ? & ? & Hcon & _)].
    destruct (handle_returns timedOut _ _ _ Hsi Hh) as (_ & Hs' & _). constructor; [done|by eapply timeout_gives_up|done|].
    unfold connects in Hcon. unfold has_stream. cbn. by destruct (_setupPromise (cl st)).
  - split; [done|]. destruct Hi as [Hsi Hg Hc Hst].
    destruct (handle_returns timedOut _ _ _ Hsi Hh) as (_ & Hs' & _). constructor; [done|by eapply gave_up_kept|done..].
  - split; [by apply client_for_net|]. destruct Hi as [Hsi Hg Hc Hst].
    unfold client_at in Hx. destruct (_setupPromise (cl st)) as [| | |p| |] eqn:Hp; try done.
    destruct (client_net_inv (a_in x ++ b) (a_out x) _ _ Hc Hp) as [Hc' Hs']. by constructor.
  - destruct Hi as [Hsi Hg Hc Hst]. split; [by eapply client_for_step|].
    destruct (client_handle_ok bootstrap _ _ _ Hc Hh) as (_ & Hc' & _).
    constructor; [done..|]. exact (has_stream_step _ _ _ Hc Hh Hst).
Qed.

Lemma timed_inv_steps s s' : timed_inv s → rtc step s s' → timed_inv s'.
Proof. intros Hi Hs. induction Hs; eauto using timed_inv_step. Qed.

Lemma timed_start_inv st : rpc_start timedOut bootstrap q f pid opts st → timed_inv (MkTimed st None).
Proof.
  intros H0. split; [|by eapply rpc_start_inv].
  destruct H0 as [s0 s k c0 c w w' _ _ _ _ _ Hc0 Hw' Hww' Ho Hch]. cbn.
  apply client_reachable_inv in Hc0. eapply client_for_step; [done|done|]. split; [done|by exists w'].
Qed.

(** ** Progress *)

Definition resolved c : Prop := is_Some (setup_result (_setupPromise c)).

(** The rest of the bytes arrives. *)
Lemma gone_arrives st x b :
  client_at st = Some x → step (MkTimed st (Some b))
    (MkTimed (MkRpc (srv st) (conn_task st) (client_net (a_in x ++ b) (a_out x) (cl st))) (Some [])).
Proof. intros Hx. rewrite <-(app_nil_r b) at 1. by apply timed_arrives. Qed.

Lemma gone_resolves st b :
  timed_inv (MkTimed st (Some b)) →
  ∃ st' b', rtc step (MkTimed st (Some b)) (MkTimed st' (Some b')) ∧ resolved (cl st') ∧
    nextCall (cl st') = nextCall (cl st).
Proof.
  intros Hi. pose proof (gi_stream _ (proj2 Hi)) as Hst. unfold has_stream in Hst. cbn in Hst.
  destruct (_setupPromise (cl st)) as [| | |p| |] eqn:Hp; try done;
    [|exists st, b; unfold resolved; rewrite Hp; by split_and!; [|eexists|]..].
  assert (client_at st = Some (conn p)) as Hx by (unfold client_at; by rewrite Hp).
  set (st1 := MkRpc (srv st) (conn_task st) (client_net (a_in (conn p) ++ b) (a_out (conn p)) (cl st))).
  assert (step (MkTimed st (Some b)) (MkTimed st1 (Some []))) as S1 by (by apply gone_arrives).
  apply timed_inv_step with (s' := MkTimed st1 (Some [])) in Hi; [|done].
  assert (nextCall (cl st1) = nextCall (cl st)) as <- by (unfold st1, client_net; cbn [cl]; by rewrite Hp).
  assert (∃ p1, _setupPromise (cl st1) = SetupWrapping p1) as [p1 Hp1]
    by (unfold st1, client_net; cbn [cl]; rewrite Hp; by eexists).
  enough (∃ st', rtc step (MkTimed st1 (Some [])) (MkTimed st' (Some [])) ∧ resolved (cl st') ∧
    nextCall (cl st') = nextCall (cl st1)) as (st' & Hs' & Hr)
    by (exists st', []; split; [by eapply rtc_l|done]).
  clearbody st1. clear st b p Hst Hp Hx S1. remember (turns_left p1) as n eqn:En.
  revert st1 p1 En Hp1 Hi. induction (lt_wf n) as [n _ IH]. intros st p -> Hp Hi.
  destruct (client_turn_any (cl st) p (gi_client _ (proj2 Hi)) Hp) as (c' & Hh & Hn & Hs' & Hlt).
  set (st1 := MkRpc (srv st) (conn_task st) c').
  assert (step (MkTimed st (Some [])) (MkTimed st1 (Some []))) as S1 by (eapply timed_client; [exact Hh|by left]).
  unfold has_stream in Hs'. destruct (_setupPromise c') as [| | |p'| |] eqn:Hp'; try done.
  - destruct (IH (turns_left p') (Hlt p' eq_refl) st1 p' eq_refl Hp') as (st' & Hs1 & Hr & Hn');
      [by eapply timed_inv_step|].
    exists st'. split; [by eapply rtc_l|]. split; [done|]. by rewrite Hn'.
  - exists st1. split; [by apply rtc_once|]. split; [|done]. unfold resolved. cbn. rewrite Hp'. by eexists.
  - exists st1. split; [by apply rtc_once|]. split; [|done]. unfold resolved. cbn. rewrite Hp'. by eexists.
Qed.

(** A waiting call is answered once the setup has come to an end. *)
Lemma branch_answered c k r :
  client_inv bootstrap c → is_Some (branches c !! k) → setup_result (_setupPromise c) = Some r →
  ∃ c', client_handle bootstrap (BranchRuns k) c = Some (Ok tt, c') ∧
    branches c' = delete k (branches c) ∧ nextCall c' = nextCall c.
Proof.
  intros Hi Hk Hr. destruct (branchRuns_ok bootstrap c k r Hi Hk Hr) as ((Hret & _) & _).
  assert (client_handle bootstrap (BranchRuns k) c = Some (branchRuns bootstrap k r c)) as Hh.
  { unfold client_handle. destruct (_setupPromise c); try done; cbn in Hr; injection Hr as <-;
      by rewrite bool_decide_eq_true_2. }
  exists (branchRuns bootstrap k r c).2. rewrite Hh, <-Hret, <-surjective_pairing. split; [done|].
  unfold branchRuns, answer in *. rewrite bind_modify, bind_get in *.
  destruct r as [[]|e]; cbn in *; [|done]. by destruct (_clientContext c).
Qed.

Lemma gone_answers st b :
  timed_inv (MkTimed st (Some b)) → resolved (cl st) →
  ∃ st', rtc step (MkTimed st (Some b)) (MkTimed st' (Some b)) ∧ resolved (cl st') ∧
    nextCall (cl st') = nextCall (cl st) ∧ branches (cl st') = ∅.
Proof.
  remember (size (branches (cl st))) as n eqn:En. revert st En. induction (lt_wf n) as [n _ IH].
  intros st En Hi Hres. destruct (decide (branches (cl st) = ∅)) as [He|He]; [by exists st; split_and!|].
  apply map_choose in He as (k & u & Hk). pose proof Hres as [r Hr].
  destruct (branch_answered (cl st) k r (gi_client _ (proj2 Hi)) ltac:(by eexists) Hr) as (c' & Hh & Hb & Hn).
  set (st1 := MkRpc (srv st) (conn_task st) c').
  assert (step (MkTimed st (Some b)) (MkTimed st1 (Some b))) as S1 by (by eapply timed_client).
  destruct (IH (size (branches c'))) with (st := st1) as (st' & Hs' & Hr' & Hn' & Hb'); [|done|..].
  - rewrite En, Hb, map_size_delete_Some by (by eexists). apply Nat.lt_pred_l. intros E.
    apply map_size_empty_inv in E. by rewrite E, lookup_empty in Hk.
  - by eapply timed_inv_step.
  - destruct (client_calls bootstrap _ _ _ Hh) as [E _]; [by right; eexists|]. unfold resolved in *.
    cbn [cl st1]. by rewrite E.
  - exists st'. split; [by eapply rtc_l|]. split; [done|]. split; [by rewrite Hn'|done].
Qed.

(** With nothing waiting, everything has been answered. *)
Lemma all_answered c n :
  client_inv bootstrap c → branches c = ∅ → (n < nextCall c)%nat → is_Some (answers c !! n).
Proof.
  intros Hi Hb Hn. destruct (proj1 (inv_calls _ c Hi n) Hn) as [[u Hu]|?]; [|done].
  by rewrite Hb, lookup_empty in Hu.
Qed.

Lemma timed_links st st' :
  rtc (rpc_step timedOut bootstrap) st st' → rtc step (MkTimed st None) (MkTimed st' None).
Proof. intros Hs. induction Hs; [done|]. eapply rtc_l; [by apply timed_link|done]. Qed.

Lemma rpc_steps_calls st st' :
  rtc (rpc_step timedOut bootstrap) st st' → (nextCall (cl st) <= nextCall (cl st'))%nat.
Proof. intros Hs. induction Hs as [|? ? ? H _ IH]; [done|]. apply rpc_step_calls in H. lia. Qed.

(** An answer is a capability, unless the setup has failed. *)
Lemma answers_unless_failed c n r :
  client_inv bootstrap c → (∀ e, _setupPromise c ≠ SetupFailed e) → answers c !! n = Some r → ∃ cap, r = inl cap.
Proof.
  intros Hi Hf Hr. pose proof (inv_answers _ c Hi n r Hr) as Ho. destruct r as [cap|e]; [by exists cap|].
  by destruct (Hf e Ho).
Qed.

Lemma link_not_failed st e : rpc_inv bootstrap q f pid opts st → _setupPromise (cl st) ≠ SetupFailed e.
Proof.
  intros [_ _ _ _ (x & y & t & Hcon & _)] He. unfold connects in Hcon. by rewrite He in Hcon.
Qed.
End invariant.

(** * Properties *)

Section properties.
Context {P : Primitives} {PL : PrimitivesLaws P} {I Cap Opts : Type}.
Context (timedOut : exception) (bootstrap : rpc_stream script → Opts → side → Cap).
Context (q : parties) (f : MainInterfaceFactory I Cap) (pid : I) (opts : Opts).

(** C2: An RPC client and an RPC server that authorizes it, with the server's
    timeouts, in whatever order turns, timers, deliveries and calls happen.
    Every capability that the client has handed out is the main capability of a
    stream with the session of a finished handshake, whose peer has the server's
    key. As long as the server has not given up, the client's setup has not
    failed, and the server is in the handshake or serves the connection with the
    main interface for the client's key; when it has given up, one of the two
    timeouts has been reported as the failure of a task. *)
Theorem timeouts_safe st0 s :
  authorized (p_auth q) (Ap q) → rpc_start timedOut bootstrap q f pid opts st0 →
  rtc (timed_step timedOut bootstrap) (MkTimed st0 None) s →
  (∀ n cap, answers (cl (programs s)) !! n = Some (inl cap) →
     ∃ x e h sess, cap = bootstrap (SecretStream x) opts SERVER ∧
       rtc api_step (ClientHandshake (client_ctx q) (Bp q) e) h ∧ _step h = Finished ∧
       session h = (Ok sess, h) ∧ peerPublicKey sess = Bp q ∧
       w_encryptor x = Some (EncryptionStream_init (encryptionKey sess) (encryptionNonce sess) Compact) ∧
       w_decryptor x = Some (DecryptionStream_init (decryptionKey sess) (decryptionNonce sess) Compact)) ∧
  match lost s with
  | None =>
      (∀ e, _setupPromise (cl (programs s)) ≠ SetupFailed e) ∧
      match _tasks (srv (programs s)) !! conn_task (programs s) with
      | Some (WrappingStream _ _ _) => True
      | Some (Serving c) => c_mainInterface c = f (Some (MkIdentity (Ap q) pid))
      | _ => False
      end
  | Some _ => timedOut ∈ failures (srv (programs s)) ∨ HandshakeTimedOut ∈ failures (srv (programs s))
  end.
Proof.
  intros Ha H0 Hs. apply (timed_start_inv timedOut bootstrap q f pid opts Ha) in H0.
  pose proof (timed_inv_steps timedOut bootstrap q f pid opts Ha _ _ H0 Hs) as [(Ho & w & Hw & Hk) Hi].
  split.
  - intros n cap Hr. rewrite <-Ho. eapply answers_authentic; [|done..].
    destruct (lost s); [apply (gi_client _ _ _ Hi)|apply (ri_client _ _ _ _ _ _ Hi)].
  - destruct (lost s); [apply (gi_failed _ _ _ Hi)|]. split; [intros e; by eapply link_not_failed|].
    destruct Hi as [_ _ _ _ (x & y & t & _ & Ht & Hsv & _)]. rewrite Ht.
    destruct t; try done. by destruct Hsv as (_ & -> & _).
Qed.

(** C18: Nothing gets stuck when the timers may fire. From every state the
    client's setup can come to an end and every call of [getMain] made so far
    has got an answer; and if the server has not given up, the client has its
    connection, the server serves it with the main interface for the client's
    key, and every answer is a capability. *)
Theorem timeouts_resolve st0 s :
  authorized (p_auth q) (Ap q) → rpc_start timedOut bootstrap q f pid opts st0 →
  rtc (timed_step timedOut bootstrap) (MkTimed st0 None) s →
  ∃ s', rtc (timed_step timedOut bootstrap) s s' ∧
    is_Some (setup_result (_setupPromise (cl (programs s')))) ∧
    (∀ n, (n < nextCall (cl (programs s)))%nat → is_Some (answers (cl (programs s')) !! n)) ∧
    (lost s = None →
       _setupPromise (cl (programs s')) = SetupDone ∧
       (∃ c, _tasks (srv (programs s')) !! conn_task (programs s') = Some (Serving c) ∧
          c_mainInterface c = f (Some (MkIdentity (Ap q) pid))) ∧
       ∀ n r, answers (cl (programs s')) !! n = Some r → ∃ cap, r = inl cap).
Proof.
  intros Ha H0 Hs. apply (timed_start_inv timedOut bootstrap q f pid opts Ha) in H0.
  pose proof (timed_inv_steps timedOut bootstrap q f pid opts Ha _ _ H0 Hs) as Hi.
  destruct s as [st [b|]]; cbn [programs lost].
  - destruct (gone_resolves timedOut bootstrap q f pid opts Ha st b Hi) as (st1 & b1 & Hs1 & Hr1 & Hn1).
    pose proof (timed_inv_steps timedOut bootstrap q f pid opts Ha _ _ Hi Hs1) as Hi1.
    destruct (gone_answers timedOut bootstrap q f pid opts Ha st1 b1 Hi1 Hr1) as (st2 & Hs2 & Hr2 & Hn2 & Hb2).
    pose proof (timed_inv_steps timedOut bootstrap q f pid opts Ha _ _ Hi1 Hs2) as [_ Hi2].
    exists (MkTimed st2 (Some b1)). split; [by etrans|]. split; [done|]. split; [|done].
    intros n Hn. eapply all_answered; [apply (gi_client _ _ _ Hi2)|done|]. cbn [programs] in *. lia.
  - pose proof (proj2 Hi) as Hl. cbn in Hl.
    destruct (rpc_connects_inv timedOut bootstrap q f pid opts Ha st Hl) as (st1 & Hs1 & Hi1 & Hd1).
    destruct (rpc_answers timedOut bootstrap q f pid opts Ha st1 Hi1 Hd1) as (st' & Hs' & Hi' & [Hp [c Hc]] & Hb).
    assert (rtc (rpc_step timedOut bootstrap) st st') as Hrun by (by etrans).
    pose proof (ri_client _ _ _ _ _ _ Hi') as Hci. exists (MkTimed st' None). split; [by apply timed_links|].
    cbn [programs]. split; [rewrite Hp; by eexists|]. split; [|intros _; split; [done|split]].
    + intros n Hn. eapply all_answered; [done..|]. apply rpc_steps_calls in Hrun. lia.
    + exists c. split; [done|]. destruct (ri_link _ _ _ _ _ _ Hi') as (x & y & t & _ & Ht & Hsv & _).
      rewrite Hc in Ht. apply Some_inj in Ht as <-. by destruct Hsv as (_ & -> & _).
    + intros n r. eapply answers_unless_failed; [done|]. intros e. by rewrite Hp.
Qed.
End properties.

(** * Witnesses *)

Module Demo.
Import Toy Protocol.Demo RpcLink.Demo.

(** The server waits for the client's first message until its fifteen seconds
    are over; the client has called [getMain] before. *)
Definition late : rpc nat bytes unit :=
  MkRpc (event_of (Clock (20 * kj_SECONDS)) (srv start)) (conn_task start) (cl start).
Definition given_up : timed nat bytes unit :=
  MkTimed (MkRpc (event_of (AcceptTimeout (conn_task late)) (srv late)) (conn_task late) (cl late)) (Some []).

Lemma given_up_reached : rtc (timed_step timedOut bootstrap) (MkTimed start None) given_up.
Proof.
  apply (rtc_l _ _ (MkTimed late None)).
  - apply timed_link. apply (step_elsewhere timedOut bootstrap (Clock (20 * kj_SECONDS)) start (srv late));
      [vm_compute; reflexivity|discriminate].
  - apply rtc_once. assert (a_out <$> server_at late = Some []) as Hy by (vm_compute; reflexivity).
    destruct (server_at late) as [y|] eqn:E; [|discriminate Hy]. injection Hy as Hy.
    unfold given_up. rewrite <-Hy.
    apply (timed_gives_up timedOut bootstrap (AcceptTimeout (conn_task late)) late y);
      [exact E|right; reflexivity|vm_compute; reflexivity].
Qed.

Lemma timeouts_safe_witness :
  timedOut ∈ failures (srv (programs given_up)) ∨ HandshakeTimedOut ∈ failures (srv (programs given_up)).
Proof.
  destruct (timeouts_safe timedOut bootstrap q factory 9%nat tt start given_up q_authorized started given_up_reached)
    as [_ H]. exact H.
Defined.

Lemma timeouts_resolve_witness :
  ∃ s', rtc (timed_step timedOut bootstrap) given_up s' ∧ is_Some (answers (cl (programs s')) !! 0%nat).
Proof.
  destruct (timeouts_resolve timedOut bootstrap q factory 9%nat tt start given_up q_authorized started
    given_up_reached) as (s' & Hs & _ & Hall & _).
  exists s'. split; [exact Hs|]. apply Hall. vm_compute. lia.
Defined.
End Demo.
