(* ===== verification/RpcProgram.v ===== *)
(** Programs with several RPC servers and clients, on several threads.

    Every [SecretRPCServer] and [SecretRPCClient] holds a reference to the
    [RPCContext] of the thread that constructed it (RpcContext.v). A program
    constructs such objects, runs their events (RpcServer.v, RpcClient.v) and
    destroys each one on its own thread.

    The theorem: the objects of one thread share one context, those of
    different threads do not; no object ever refers to a context that has been
    freed; constructors and destructors never fault, and the destructor's
    requirement holds. *)
From Stdlib Require Import ZArith Lia Strings.Byte.
From stdpp Require Import base list numbers option tactics relations gmap strings.
From S2P Require Import Prelude Crypto Shs Handshake Driver Boxes Streams Connection Wrapper.
From S2P Require Import RpcContext RpcServer RpcClient.

Open Scope nat_scope.

Section program.
Context {P : Primitives} {T I Cap Opts : Type} `{AsyncIoStream T}.
Context (bootstrap : rpc_stream T → Opts → side → Cap) (timedOut : exception).

Inductive rpc_object :=
| Server (s : Impl T I Cap Opts)
| Client (c : ClientImpl T Cap Opts).

Definition context_of (o : rpc_object) : nat :=
  match o with Server s => _context s | Client c => cl_context c end.

(** The four public constructors. *)
Inductive construction :=
| ListenOn (w : option WrapperState) (f : MainInterfaceFactory I Cap) (opts : Opts)
| ServeStreams (w : option WrapperState) (f : MainInterfaceFactory I Cap) (opts : Opts)
| ConnectTo (w : option WrapperState) (opts : Opts)
| ConnectOver (w : option WrapperState) (opts : Opts).

Definition construct (th : nat) (c : construction) : M Runtime rpc_object :=
  match c with
  | ListenOn w f opts => s ← SecretRPCServer_listen th w f opts; mret (Server s)
  | ServeStreams w f opts => s ← SecretRPCServer_new th w f opts; mret (Server s)
  | ConnectTo w opts => c ← SecretRPCClient_address th w opts; mret (Client c)
  | ConnectOver w opts => c ← SecretRPCClient_stream th w opts; mret (Client c)
  end.

Definition destroy (th : nat) (o : rpc_object) : M Runtime bool :=
  match o with
  | Server s => SecretRPCServer_destroy th s
  | Client c => SecretRPCClient_destroy th c
  end.

Inductive object_step : rpc_object → rpc_object → Prop :=
| server_moves s s' : server_step timedOut s s' → object_step (Server s) (Server s')
| client_moves c c' : client_step bootstrap c c' → object_step (Client c) (Client c').

(** The objects that are alive, and the thread of each. *)
Record Program := MkProgram { p_runtime : Runtime; p_objects : gmap nat (nat * rpc_object) }.

Definition program0 : Program := MkProgram (runtime system0) ∅.

Inductive program_step : Program → Program → Prop :=
| p_construct rt objs n th c o rt' :
    objs !! n = None → construct th c rt = (Ok o, rt') →
    program_step (MkProgram rt objs) (MkProgram rt' (<[n := (th, o)]> objs))
| p_event rt objs n th o o' :
    objs !! n = Some (th, o) → object_step o o' →
    program_step (MkProgram rt objs) (MkProgram rt (<[n := (th, o')]> objs))
| p_destroy rt objs n th o ok rt' :
    objs !! n = Some (th, o) → destroy th o rt = (Ok ok, rt') →
    program_step (MkProgram rt objs) (MkProgram rt' (delete n objs)).

End program.

Arguments rpc_object T I Cap Opts : clear implicits.
Arguments Program T I Cap Opts : clear implicits.
Arguments construction I Cap Opts : clear implicits.

(** * The references of a program *)

Section lemmas.
Context {P : Primitives} {T I Cap Opts : Type} `{AsyncIoStream T}.
Context (bootstrap : rpc_stream T → Opts → side → Cap) (timedOut : exception).
Implicit Types (o : rpc_object T I Cap Opts) (p : Program T I Cap Opts).

(** The references a program's objects hold. *)
Definition references (objs : gmap nat (nat * rpc_object T I Cap Opts)) : gmap nat (nat * nat) :=
  prod_map id context_of <$> objs.

Definition as_system p : System := MkSystem (p_runtime p) (references (p_objects p)).

(** One [getThreadLocal], and the two with a [release] of the constructor that
    takes an address. *)
Lemma twice_and_release rt hd th ref :
  sys_inv (MkSystem rt hd) → hd !! ref = None →
  ∃ id rt', (context ← getThreadLocal th; _context ← getThreadLocal th;
             release th context;; mret _context) rt = (Ok id, rt') ∧
    sys_inv (MkSystem rt' (<[ref := (th, id)]> hd)).
Proof.
  intros Hs Hn. set (tmp := fresh ({[ref]} ∪ dom hd)).
  assert (tmp ∉ ({[ref]} ∪ dom hd : gset nat)) as Hf by apply is_fresh.
  apply not_elem_of_union in Hf as [Hne Hf]. apply not_elem_of_dom in Hf.
  rewrite not_elem_of_singleton in Hne.
  destruct (sys_get rt hd th tmp Hs Hf) as (id & rt1 & H1 & Hs1).
  destruct (sys_get rt1 _ th ref Hs1) as (id2 & rt2 & H2 & Hs2); [by rewrite lookup_insert_ne|].
  destruct (sys_inv_release _ _ tmp th id Hs2) as (rt3 & H3 & Hs3 & _).
  { rewrite lookup_insert_ne by done. apply lookup_insert_eq. }
  exists id2, rt3. rewrite (bind_Ok _ _ _ _ _ H1), (bind_Ok _ _ _ _ _ H2), (bind_Ok _ _ _ _ _ H3).
  split; [done|]. by rewrite delete_insert_ne, delete_insert_id in Hs3 by done.
Qed.

Lemma construct_ok rt hd n th (c : construction I Cap Opts) :
  sys_inv (MkSystem rt hd) → hd !! n = None →
  ∃ o rt', construct (T := T) th c rt = (Ok o, rt') ∧
    sys_inv (MkSystem rt' (<[n := (th, context_of o)]> hd)).
Proof.
  intros Hs Hn. destruct (sys_get rt hd th n Hs Hn) as (id & rt' & Hg & Hs').
  destruct c as [w f opts|w f opts|w opts|w opts]; cbn;
    unfold SecretRPCServer_listen, SecretRPCServer_new, SecretRPCClient_address, SecretRPCClient_stream.
  3: { destruct (twice_and_release rt hd th n Hs Hn) as (id' & rt2 & H2 & Hs2).
       exists (Client (ClientImpl_address id' w opts)), rt2. split; [|done].
       mrun_in H2. mrun. repeat (case_match; simplify_eq/=; try done). }
  all: eexists _, rt'; mrun; rewrite Hg; cbn; split; [reflexivity|done].
Qed.

Lemma destroy_ok rt objs n th o :
  sys_inv (MkSystem rt (references objs)) → objs !! n = Some (th, o) →
  ∃ rt', destroy th o rt = (Ok true, rt') ∧ sys_inv (MkSystem rt' (references (delete n objs))).
Proof.
  intros Hs Hn. destruct (sys_inv_release _ _ n th (context_of o) Hs) as (rt' & Hr & Hs' & _).
  { unfold references. by rewrite lookup_fmap, Hn. }
  exists rt'. split; [by destruct o|]. unfold references. by rewrite fmap_delete.
Qed.

(** No event changes the context. *)
Lemma server_keeps_context ev (s : Impl T I Cap Opts) r s' :
  handle timedOut ev s = Some (r, s') → _context s' = _context s.
Proof. intros Hh. run_event ev Hh Ht; done. Qed.

Lemma client_keeps_context ev (c : ClientImpl T Cap Opts) r c' :
  client_handle bootstrap ev c = Some (r, c') → cl_context c' = cl_context c.
Proof.
  intros Hh. unfold client_handle in Hh.
  destruct ev, (_setupPromise c); try done; simplify_eq;
    unfold connectAttach, streamArrived, setupTurn, setup_done, getMain, branchRuns, answer in Hh;
    mrun_in Hh; repeat (case_match; simplify_eq/=); try by simplify_eq/=.
Qed.

Lemma object_keeps_context o o' : object_step bootstrap timedOut o o' → context_of o' = context_of o.
Proof.
  destruct 1 as [s s' [ev Hh]|c c' [ev Hh]];
    [by eapply server_keeps_context|by eapply client_keeps_context].
Qed.

Lemma program_inv p :
  rtc (program_step bootstrap timedOut) program0 p → sys_inv (as_system p).
Proof.
  assert (sys_inv (as_system (program0 : Program T I Cap Opts))) as H0
    by exact (sys_reachable_inv system0 (rtc_refl _ _)).
  intros Hs. induction Hs as [|p1 p2 p3 Hstep _ IH]; [done|]. apply IH.
  destruct Hstep as [rt objs n th c o rt' Hn Hc|rt objs n th o o' Hn Ho|rt objs n th o ok rt' Hn Hd];
    unfold as_system, references; cbn [p_runtime p_objects].
  - destruct (construct_ok rt (references objs) n th c H0) as (o' & rt1 & Hc' & Hs).
    { unfold references. by rewrite lookup_fmap, Hn. }
    rewrite Hc in Hc'. simplify_eq. by rewrite fmap_insert.
  - rewrite fmap_insert. cbn. rewrite (object_keeps_context _ _ Ho), insert_id; [done|].
    by rewrite lookup_fmap, Hn.
  - destruct (destroy_ok rt objs n th o H0 Hn) as (rt1 & Hd' & Hs). rewrite Hd in Hd'. by simplify_eq.
Qed.
End lemmas.

(** * Properties *)

Section properties.
Context {P : Primitives} {T I Cap Opts : Type} `{AsyncIoStream T}.
Context (bootstrap : rpc_stream T → Opts → side → Cap) (timedOut : exception).
Implicit Types (o : rpc_object T I Cap Opts) (p : Program T I Cap Opts).

(** C37: Servers and clients share the context of their thread. Whatever a
    program has constructed, run and destroyed, each object on its own thread,
    the context of every object is alive and is the one of its thread; two
    objects have the same context exactly when they are on the same thread; and
    every further construction and destruction goes through, the destructor's
    requirement included. *)
Theorem program_contexts p :
  rtc (program_step bootstrap timedOut) program0 p →
  (∀ th (c : construction I Cap Opts), ∃ o rt', construct th c (p_runtime p) = (Ok o, rt')) ∧
  (∀ n th o, p_objects p !! n = Some (th, o) →
     threadSecretContext (p_runtime p) !! th = Some (context_of o) ∧
     is_Some (contexts (p_runtime p) !! context_of o) ∧
     (∃ rt', destroy th o (p_runtime p) = (Ok true, rt')) ∧
     ∀ n' th' o', p_objects p !! n' = Some (th', o') → (th = th' ↔ context_of o = context_of o')).
Proof.
  intros Hp. apply program_inv in Hp. destruct p as [rt objs]. unfold as_system in Hp. cbn in *. split.
  - intros th c.
    destruct (construct_ok (T := T) rt (references objs) (fresh (dom (references objs))) th c Hp)
      as (o & rt' & ? & _); [apply not_elem_of_dom, is_fresh|by eauto].
  - assert (∀ n th o, objs !! n = Some (th, o) →
      threadSecretContext rt !! th = Some (context_of o)) as Hthread.
    { intros n th o Hn. apply (sys_held _ Hp n). cbn. unfold references. by rewrite lookup_fmap, Hn. }
    intros n th o Hn. pose proof (Hthread _ _ _ Hn) as Ht. split_and!; [done|by eapply (sys_live _ Hp)|..].
    + destruct (destroy_ok rt objs n th o Hp Hn) as (rt' & ? & _). by eauto.
    + intros n' th' o' Hn'. pose proof (Hthread _ _ _ Hn') as Ht'.
      split; [intros <-; congruence|]. intros E. rewrite <-E in Ht'. by eapply (sys_inj _ Hp).
Qed.

(** What an object hands out of its context is there, and is the same for all
    objects of a thread. *)
Section accessors.
Context {W Pv Lv : Type} (ioContext : nat → AsyncIoContext W Pv Lv).

Definition object_getWaitScope o : M Runtime W :=
  match o with
  | Server s => SecretRPCServer_getWaitScope ioContext s
  | Client c => SecretRPCClient_getWaitScope ioContext c
  end.
Definition object_getIoProvider o : M Runtime Pv :=
  match o with
  | Server s => SecretRPCServer_getIoProvider ioContext s
  | Client c => SecretRPCClient_getIoProvider ioContext c
  end.
Definition object_getLowLevelIoProvider o : M Runtime Lv :=
  match o with
  | Server s => SecretRPCServer_getLowLevelIoProvider ioContext s
  | Client c => SecretRPCClient_getLowLevelIoProvider ioContext c
  end.

Lemma accessors_of_thread p n th o :
  rtc (program_step bootstrap timedOut) program0 p → p_objects p !! n = Some (th, o) →
  ∃ id, threadSecretContext (p_runtime p) !! th = Some id ∧
    object_getWaitScope o (p_runtime p) = (Ok (waitScope (ioContext id)), p_runtime p) ∧
    object_getIoProvider o (p_runtime p) = (Ok (provider (ioContext id)), p_runtime p) ∧
    object_getLowLevelIoProvider o (p_runtime p)
      = (Ok (lowLevelProvider (ioContext id)), p_runtime p).
Proof.
  intros Hp Hn. apply program_inv in Hp. destruct p as [rt objs]. cbn in *.
  assert (threadSecretContext rt !! th = Some (context_of o)) as Ht.
  { apply (sys_held _ Hp n). cbn. unfold references. by rewrite lookup_fmap, Hn. }
  exists (context_of o). split; [done|].
  pose proof (getIoContext_live ioContext _ _ (sys_live _ Hp _ _ Ht)) as Hio. cbn in Hio.
  destruct o; cbn [context_of] in Hio |- *; split_and!; exact (bind_Ok _ (λ io, mret (_ io)) _ _ _ Hio).
Qed.
End accessors.

End properties.

(** * Witnesses *)

Module Demo.
Import Toy KjScript.

Definition main (_ : rpc_stream script) (_ : unit) (_ : side) : nat := 0.
Definition refused : exception := InnerException 1.
Definition factory (_ : option (SHSPeerIdentity unit)) : nat := 0.

(** The objects of the program below, on contexts 0 and 1. *)
Definition server : Impl script unit nat unit := Impl_listen factory 0 tt None.
Definition client : ClientImpl script nat unit := ClientImpl_address 0 None tt.
Definition elsewhere : ClientImpl script nat unit := ClientImpl_stream 1 None tt.

(** A server and a client on thread 1, of which the client has resolved its
    address, and a client on thread 2. *)
Definition program : Program script unit nat unit :=
  MkProgram (MkRuntime {[1 := 0; 2 := 1]} {[0 := 2; 1 := 1]} 2)
    (<[1 := (1, Client (set_setup Connecting client))]>
       {[2 := (2, Client elsewhere); 1 := (1, Client client); 0 := (1, Server server)]}).

Lemma program_reached : rtc (program_step main refused) program0 program.
Proof.
  eapply rtc_l; [apply (p_construct _ _ _ _ 0 1 (ListenOn None factory tt)); vm_compute; reflexivity|].
  eapply rtc_l; [apply (p_construct _ _ _ _ 1 1 (ConnectTo None tt)); vm_compute; reflexivity|].
  eapply rtc_l; [apply (p_construct _ _ _ _ 2 2 (ConnectOver None tt)); vm_compute; reflexivity|].
  eapply rtc_l; [apply (p_event _ _ _ _ 1 1 (Client client) (Client (set_setup Connecting client)));
    [reflexivity|constructor; exists AddressResolved; reflexivity]|].
  assert (∀ p q : Program script unit nat unit, p = q → rtc (program_step main refused) p q) as Heq
    by (intros ? ? ->; constructor).
  apply Heq. vm_compute. reflexivity.
Qed.

Lemma program_contexts_witness :
  (∃ rt', destroy 1 (Server server : rpc_object script unit nat unit) (p_runtime program)
     = (Ok true, rt')) ∧
  context_of (Server server : rpc_object script unit nat unit)
    = context_of (Client client : rpc_object script unit nat unit).
Proof.
  destruct (program_contexts main refused program program_reached) as [_ H].
  destruct (H 0 1 (Server server) eq_refl) as (_ & _ & Hd & Hs). split; [exact Hd|].
  apply (proj1 (Hs 1 1 (Client (set_setup Connecting client)) eq_refl)). reflexivity.
Defined.
End Demo.
