(* ===== verification/CApi.v ===== *)
(** The C interface: the glue functions at the end of src/SecretHandshake.cc
    and src/SecretStream.cc, declared in include/SecretHandshake.h and
    include/SecretStream.h.

    A C handle is a pointer to the C++ object, so that a C call is the C++
    call; structures are reinterpreted in place (the layouts agree field by
    field), and enumerators are cast through their integer values. *)
From Stdlib Require Import ZArith Lia Strings.Byte.
From stdpp Require Import base list numbers option tactics relations.
From S2P Require Import Prelude Crypto Shs Handshake Boxes.

Open Scope Z_scope.

(** * The C types *)

Inductive SHSError := SHSNoError | SHSProtocolError | SHSAuthError.
Inductive SHSStatus := C_Success | C_OutTooSmall | C_IncompleteInput | C_CorruptData.
Inductive SHSCryptoBoxProtocol := C_Compact | C_BoxStream.
Record SHSPeekResult := MkSHSPeek {
  c_status : SHSStatus; c_decryptedSize : Z; c_encryptedSize : Z }.

(** ** Casts through the integer values of the enumerators *)

Definition status_int (s : status_t) : Z :=
  match s with Success => 0 | OutTooSmall => 1 | IncompleteInput => 2 | CorruptData => 3 end.
Definition SHSProtocol_int (p : SHSCryptoBoxProtocol) : Z :=
  match p with C_Compact => 0 | C_BoxStream => 1 end.

Definition to_SHSError (n : Z) : option SHSError :=
  if n =? 0 then Some SHSNoError else if n =? 1 then Some SHSProtocolError
  else if n =? 2 then Some SHSAuthError else None.
Definition to_SHSStatus (n : Z) : option SHSStatus :=
  if n =? 0 then Some C_Success else if n =? 1 then Some C_OutTooSmall
  else if n =? 2 then Some C_IncompleteInput else if n =? 3 then Some C_CorruptData else None.
Definition to_Protocol (n : Z) : option Protocol :=
  if n =? 0 then Some Compact else if n =? 1 then Some BoxStream else None.

(** A cast to an enumeration that has no such enumerator is undefined. *)
Definition cast {X A} (o : option A) : M X A :=
  match o with Some a => mret a | None => throw IndeterminateRead end.

Section glue.
Context {P : Primitives}.

(** * Handshakes *)

Definition SHSKeyPair_Regenerate (sk : bytes) : KeyPair := KeyPair_of_signingKey sk.

Definition SHSHandshake_CreateClient (appID : bytes) (kp : KeyPair) (serverKey ephemeral : bytes)
  : Handshake := ClientHandshake (MkContext appID kp) serverKey ephemeral.
Definition SHSHandshake_CreateServer (appID : bytes) (kp : KeyPair) (ephemeral : bytes)
  : Handshake := ServerHandshake (MkContext appID kp) ephemeral.

Definition SHSHandshake_GetBytesNeeded : M Handshake Z := gets byteCountNeeded.

(** Returns the pointer; the buffer is the object's input buffer. *)
Definition SHSHandshake_GetInputBuffer : M Handshake unit := bytesToRead;; mret tt.

(** The inline function of the header: the buffer's size. *)
Definition SHSHandshake_GetBytesToRead : M Handshake Z :=
  SHSHandshake_GetInputBuffer;; SHSHandshake_GetBytesNeeded.

Definition SHSHandshake_ReadCompleted : M Handshake bool := readCompleted.
Definition SHSHandshake_ReceivedBytes (src : bytes) : M Handshake Z := receivedBytes src.
Definition SHSHandshake_GetBytesToSend : M Handshake bytes := bytesToSend.
Definition SHSHandshake_SendCompleted : M Handshake unit := sendCompleted.
Definition SHSHandshake_CopyBytesToSend (capacity : Z) : M Handshake (Z * bytes) :=
  copyBytesToSend capacity.
Definition SHSHandshake_GetError : M Handshake SHSError :=
  e ← gets _error; cast (to_SHSError (Error_val e)).
Definition SHSHandshake_Finished : M Handshake bool := gets finished.
Definition SHSHandshake_GetSession : M Handshake Session := session.

(** * Boxes *)

Definition SHSEncryptoBox_Create (s : Session) (p : SHSCryptoBoxProtocol) : option CryptoBox :=
  EncryptoBox_of_session s <$> to_Protocol (SHSProtocol_int p).
Definition SHSEncryptoBox_GetEncryptedSize (b : CryptoBox) (inputSize : Z) : Z :=
  encryptedSize (_protocol b) inputSize.
Definition SHSEncryptoBox_Encrypt (inp : input_data) (out : output_buffer)
  : M boxenv (SHSStatus * output_buffer) :=
  '(st, out) ← encrypt inp out;
  st ← cast (to_SHSStatus (status_int st));
  mret (st, out).

Definition SHSDecryptoBox_Create (s : Session) (p : SHSCryptoBoxProtocol) : option CryptoBox :=
  DecryptoBox_of_session s <$> to_Protocol (SHSProtocol_int p).
Definition SHSDecryptoBox_MinPeekSize (b : CryptoBox) : Z := minPeekSize b.
Definition SHSDecryptoBox_Peek (inp : input_data) : M boxenv SHSPeekResult :=
  r ← peek inp;
  st ← cast (to_SHSStatus (status_int (pr_status r)));
  mret (MkSHSPeek st (pr_decryptedSize r) (pr_encryptedSize r)).
Definition SHSDecryptoBox_Decrypt (inp : input_data) (out : output_buffer)
  : M boxenv (SHSStatus * input_data * output_buffer) :=
  '(st, inp, out) ← decrypt inp out;
  st ← cast (to_SHSStatus (status_int st));
  mret (st, inp, out).

End glue.

(** * Properties *)

Section properties.
Context {P : Primitives} {PL : PrimitivesLaws P}.

(** Through the C interface a message encrypted with a session is
    decrypted with the mirrored session: with either protocol, for any
    message of at most 65535 bytes, wherever the buffers are, [Encrypt]
    and [Decrypt] report success, the plaintext is the message, and the
    sizes are those announced by [GetEncryptedSize]. *)
Theorem c_box_roundtrip s pk cp eb db m inp out m2 inp2 out2 msg :
  SHSEncryptoBox_Create s cp = Some eb → SHSDecryptoBox_Create (mirror s pk) cp = Some db →
  regions_ok (MkEnv eb m) inp out → regions_ok (MkEnv db m2) inp2 out2 →
  mread m (in_data inp) (in_size inp) = Some msg → in_size inp <= kMaxMessageSize →
  SHSEncryptoBox_GetEncryptedSize eb (in_size inp) <= out_size out →
  ∃ sealed m', SHSEncryptoBox_Encrypt inp out (MkEnv eb m) =
      (Ok (C_Success, MkOut (out_data out) (SHSEncryptoBox_GetEncryptedSize eb (in_size inp))), m') ∧
    mread (mem m') (out_data out) (len sealed) = Some sealed ∧
    len sealed = SHSEncryptoBox_GetEncryptedSize eb (in_size inp) ∧
    (mread m2 (in_data inp2) (len sealed) = Some sealed → len sealed <= in_size inp2 →
     len msg <= out_size out2 →
     ∃ m2', SHSDecryptoBox_Decrypt inp2 out2 (MkEnv db m2) =
         (Ok (C_Success, MkIn (in_data inp2 + len sealed) (in_size inp2 - len sealed),
              MkOut (out_data out2) (len msg)), m2') ∧
       mread (mem m2') (out_data out2) (len msg) = Some msg ∧ the_box m2' = the_box m').
Proof.
  intros Heb Hdb Hreg Hreg2 Hmsg Hmax Hsz.
  assert (eb = db) as <- by (destruct cp; cbn in Heb, Hdb; simplify_eq; done).
  destruct (encrypt_ok (MkEnv eb m) inp out Hreg Hmax Hsz) as (msg' & m1 & Hmsg' & Hw & Henc).
  cbn [the_box mem] in *. rewrite Hmsg in Hmsg'. injection Hmsg' as <-.
  destruct (mread_Some _ _ _ _ Hmsg) as (_ & Hn0 & _ & _ & Hl).
  unfold SHSEncryptoBox_GetEncryptedSize in *.
  rewrite encryptedSize_exact in *
    by (unfold size_max, kMaxMessageSize in *; destruct (_protocol eb); cbn; lia).
  set (sealed := Wire.seal _ _ _ msg) in *.
  assert (len sealed = Wire.overhead (_protocol eb) + len msg) as Hls by apply seal_len.
  eexists sealed, _. split; [unfold SHSEncryptoBox_Encrypt; rewrite (bind_Ok _ _ _ _ _ Henc); by rewrite Hl|].
  split; [eapply mread_mwrite; exact Hw|]. split; [by rewrite Hls, Hl|].
  intros Hr Hi Ho. destruct Hreg2 as (_ & _ & _ & Hoa & Hoz & Hout). cbn [mem] in *.
  destruct (mwrite m2 (out_data out2) msg) as [m2'|] eqn:Hm;
    [|by rewrite mwrite_is_Some in Hm by lia].
  rewrite Hls in *.
  pose proof (decrypt_run (MkEnv eb m2) inp2 out2 msg m2' Hr ltac:(lia) Hi Ho Hm) as Hd.
  eexists. split; [unfold SHSDecryptoBox_Decrypt; by rewrite (bind_Ok _ _ _ _ _ Hd)|].
  split; [eapply mread_mwrite; exact Hm|done].
Qed.

(** The C error code is the enumerator of the same name as the C++ one,
    and a failed handshake is the one whose error code is not [SHSNoError]. *)
Theorem c_error_faithful h :
  reachable h →
  ∃ c, SHSHandshake_GetError h = (Ok c, h) ∧
    (c = SHSNoError ↔ _error h = NoError) ∧ (c = SHSProtocolError ↔ _error h = ProtocolError) ∧
    (c = SHSAuthError ↔ _error h = AuthError) ∧ (c ≠ SHSNoError ↔ _step h = Failed).
Proof.
  intros Hr. assert (inv h) as [He _ _ _] by auto with shs.
  destruct h as [k ctx st err i ib ob]; cbn in He.
  destruct err; (eexists; split; [reflexivity|]; cbn; split_and!; try done);
    destruct st; naive_solver.
Qed.

End properties.

(** * Witnesses *)

Module Demo.
Import Toy.
Definition sess : Session := MkSession (replicate 32 x07) zero_nonce (replicate 32 x08) zero_nonce [].
Definition eb : CryptoBox := MkBox (replicate 32 x07) zero_nonce BoxStream.
Definition memory : bytes := [x68; x69] ++ replicate 50 x00.

Lemma c_box_roundtrip_witness :
  ∃ (sealed : bytes) m', SHSEncryptoBox_Encrypt (MkIn 0 2) (MkOut 0 52) (MkEnv eb memory)
      = (Ok (C_Success, MkOut 0 36), m') ∧ len sealed = 36.
Proof.
  destruct (c_box_roundtrip sess [] C_BoxStream eb eb memory (MkIn 0 2) (MkOut 0 52)
    memory (MkIn 0 52) (MkOut 0 52) [x68; x69]) as (sealed & m' & He & _ & Hl & _);
    try reflexivity; try (repeat split; vm_compute; discriminate); try (vm_compute; discriminate).
  exists sealed, m'. split; [exact He|exact Hl].
Defined.

Lemma c_error_faithful_witness :
  ∃ c, SHSHandshake_GetError Handshake.Demo.server0 = (Ok c, Handshake.Demo.server0) ∧
    (c = SHSNoError ↔ _error Handshake.Demo.server0 = NoError).
Proof.
  destruct (c_error_faithful Handshake.Demo.server0) as (c & Hc & Hn & _).
  - exists Handshake.Demo.server0. split; [constructor|apply rtc_refl].
  - exists c. split; [exact Hc|exact Hn].
Defined.

End Demo.
