(* ===== verification/CHandles.v ===== *)
(** The objects behind the C interface: handles, allocation and erasure.

    A handle of the C interface is the address of a C++ object ([external] and
    [internal] are casts). [World] has the objects that are allocated and the
    memory of the application; the functions of CApi.v run on the object of a
    handle ([on_handshake_at], [on_encryptor_at], [on_decryptor_at]), and a
    handle that is null or has been freed is undefined behaviour. The erasing
    functions of the headers write to the application's memory.

    The theorems: a program that makes its calls on live handles of the right
    type, in any order, never causes undefined behaviour, and fails an assertion
    in one case only (a message reported as sent after its handshake has
    failed); every handle keeps its type and its object until
    it is freed, and a call touches no other object; what the erasing functions
    and the destructors leave behind does not depend on the secrets. *)
From Stdlib Require Import ZArith Lia Strings.Byte.
From stdpp Require Import base list numbers option tactics relations gmap.
From S2P Require Import Prelude Crypto Shs Handshake Boxes CApi.

Open Scope Z_scope.

(** * Objects *)

Inductive cobject :=
| CHandshake (h : Handshake)
| CEncryptoBox (b : CryptoBox)
| CDecryptoBox (b : CryptoBox).

Record World := MkWorld { objects : gmap nat cobject; nextObject : nat; memory : bytes }.

Definition set_objects o n w := MkWorld o n (memory w).
Definition set_memory m w := MkWorld (objects w) (nextObject w) m.

(** A pointer; 0 is the null pointer. *)
Abbreviation handle := nat.

Section glue.
Context {P : Primitives}.

(** [new] *)
Definition new_object (o : cobject) : M World handle :=
  w ← get;
  modify (set_objects (<[nextObject w := o]> (objects w)) (S (nextObject w)));;
  mret (nextObject w).

(** [delete], which does nothing with a null pointer. *)
Definition delete_object (p : handle) : M World unit :=
  w ← get;
  if bool_decide (p = 0%nat) then mret tt
  else if bool_decide (is_Some (objects w !! p))
       then modify (set_objects (delete p (objects w)) (nextObject w))
       else throw UseAfterFree.

(** [internal(h)->m()] *)
Definition on_handshake_at {A} (p : handle) (m : M Handshake A) : M World A := λ w,
  match objects w !! p with
  | Some (CHandshake h) =>
      let '(r, h') := m h in (r, set_objects (<[p := CHandshake h']> (objects w)) (nextObject w) w)
  | _ => (Fault UseAfterFree, w)
  end.

(** A call of a box, on the application's memory. *)
Definition on_encryptor_at {A} (p : handle) (m : M boxenv A) : M World A := λ w,
  match objects w !! p with
  | Some (CEncryptoBox b) =>
      let '(r, e) := m (MkEnv b (memory w)) in
      (r, MkWorld (<[p := CEncryptoBox (the_box e)]> (objects w)) (nextObject w) (mem e))
  | _ => (Fault UseAfterFree, w)
  end.
Definition on_decryptor_at {A} (p : handle) (m : M boxenv A) : M World A := λ w,
  match objects w !! p with
  | Some (CDecryptoBox b) =>
      let '(r, e) := m (MkEnv b (memory w)) in
      (r, MkWorld (<[p := CDecryptoBox (the_box e)]> (objects w)) (nextObject w) (mem e))
  | _ => (Fault UseAfterFree, w)
  end.

Definition SHSHandshake_Free : handle → M World unit := delete_object.
Definition SHSEncryptoBox_Free : handle → M World unit := delete_object.
Definition SHSDecryptoBox_Free : handle → M World unit := delete_object.

(** * Keys and erasure *)

Definition SHSKeyPair_Generate (seed : bytes) : KeyPair := KeyPair_generate seed.
Definition SHSAppID_FromString (str : bytes) : bytes := appIDFromString str.

(** What [~CryptoBox] leaves of a box. *)
Definition CryptoBox_destroy (b : CryptoBox) : CryptoBox :=
  MkBox (wipe (_key b)) (_nonce b) (_protocol b).

(** [SHSErase(dst, size)] *)
Definition SHSErase (dst size : Z) : M World unit :=
  w ← get;
  old ← in_bounds (mread (memory w) dst size);
  m ← in_bounds (mwrite (memory w) dst (wipe old));
  modify (set_memory m).

Definition sizeof_SHSSigningKey : Z := 32.
Definition sizeof_SHSSession : Z := 32 + 24 + 32 + 24 + 32.

Definition SHSSigningKey_Erase (key : Z) : M World unit := SHSErase key sizeof_SHSSigningKey.

(** The signing key is the first member of a key pair. *)
Definition SHSKeyPair_Erase (kp : Z) : M World unit := SHSErase kp sizeof_SHSSigningKey.
Definition SHSSession_Erase (s : Z) : M World unit := SHSErase s sizeof_SHSSession.

(** * Programs *)

(** The functions on a handshake; [FillInput] is the application's copy to the
    pointer that [GetInputBuffer] returned. *)
Inductive hcall :=
| GetBytesNeeded | GetInputBuffer | FillInput (src : bytes) | ReadCompleted
| ReceivedBytes (src : bytes) | GetBytesToSend | SendCompleted | CopyBytesToSend (capacity : Z)
| GetError | IsFinished | GetSession.

Definition do_hcall (c : hcall) : M Handshake unit :=
  match c with
  | GetBytesNeeded => SHSHandshake_GetBytesNeeded;; mret tt
  | GetInputBuffer => SHSHandshake_GetInputBuffer
  | FillInput src => fillInput src
  | ReadCompleted => SHSHandshake_ReadCompleted;; mret tt
  | ReceivedBytes src => SHSHandshake_ReceivedBytes src;; mret tt
  | GetBytesToSend => SHSHandshake_GetBytesToSend;; mret tt
  | SendCompleted => SHSHandshake_SendCompleted
  | CopyBytesToSend n => SHSHandshake_CopyBytesToSend n;; mret tt
  | GetError => SHSHandshake_GetError;; mret tt
  | IsFinished => SHSHandshake_Finished;; mret tt
  | GetSession => SHSHandshake_GetSession;; mret tt
  end.

Inductive ccall :=
| NewClient (appID : bytes) (kp : KeyPair) (serverKey ephemeral : bytes)
| NewServer (appID : bytes) (kp : KeyPair) (ephemeral : bytes)
| OnHandshake (p : handle) (c : hcall)
| FreeHandshake (p : handle)
| NewEncryptor (s : Session) (cp : SHSCryptoBoxProtocol)
| Encrypt (p : handle) (inp : input_data) (out : output_buffer)
| FreeEncryptor (p : handle)
| NewDecryptor (s : Session) (cp : SHSCryptoBoxProtocol)
| Peek (p : handle) (inp : input_data)
| Decrypt (p : handle) (inp : input_data) (out : output_buffer)
| FreeDecryptor (p : handle)
| Erase (dst size : Z).

(** A cast of the protocol that has no such enumerator is undefined. *)
Definition do_ccall (c : ccall) : M World unit :=
  match c with
  | NewClient appID kp pk e =>
      new_object (CHandshake (SHSHandshake_CreateClient appID kp pk e));; mret tt
  | NewServer appID kp e => new_object (CHandshake (SHSHandshake_CreateServer appID kp e));; mret tt
  | OnHandshake p c => on_handshake_at p (do_hcall c)
  | FreeHandshake p => SHSHandshake_Free p
  | NewEncryptor s cp =>
      b ← cast (SHSEncryptoBox_Create s cp); new_object (CEncryptoBox b);; mret tt
  | Encrypt p inp out => on_encryptor_at p (SHSEncryptoBox_Encrypt inp out);; mret tt
  | FreeEncryptor p => SHSEncryptoBox_Free p
  | NewDecryptor s cp =>
      b ← cast (SHSDecryptoBox_Create s cp); new_object (CDecryptoBox b);; mret tt
  | Peek p inp => on_decryptor_at p (SHSDecryptoBox_Peek inp);; mret tt
  | Decrypt p inp out => on_decryptor_at p (SHSDecryptoBox_Decrypt inp out);; mret tt
  | FreeDecryptor p => SHSDecryptoBox_Free p
  | Erase dst size => SHSErase dst size
  end.

End glue.

(** ** Correct use *)

(** Sizes are not negative, and the application copies no more than the buffer
    it was given holds. *)
Definition hcall_ok (h : Handshake) (c : hcall) : Prop :=
  match c with
  | FillInput src => len src <= len (_inputBuffer h)
  | CopyBytesToSend n => 0 <= n
  | _ => True
  end.

(** A call as the headers ask for it: the handle is live and of the right type
    (or null, when it is freed), and buffers are inside the memory. *)
Definition ccall_ok (w : World) (c : ccall) : Prop :=
  match c with
  | OnHandshake p c => ∃ h, objects w !! p = Some (CHandshake h) ∧ hcall_ok h c
  | FreeHandshake p => p = 0%nat ∨ ∃ h, objects w !! p = Some (CHandshake h)
  | Encrypt p inp out =>
      ∃ b, objects w !! p = Some (CEncryptoBox b) ∧ regions_ok (MkEnv b (memory w)) inp out
  | FreeEncryptor p => p = 0%nat ∨ ∃ b, objects w !! p = Some (CEncryptoBox b)
  | Peek p inp => ∃ b, objects w !! p = Some (CDecryptoBox b) ∧
      regions_ok (MkEnv b (memory w)) inp (MkOut 0 0)
  | Decrypt p inp out =>
      ∃ b, objects w !! p = Some (CDecryptoBox b) ∧ regions_ok (MkEnv b (memory w)) inp out
  | FreeDecryptor p => p = 0%nat ∨ ∃ b, objects w !! p = Some (CDecryptoBox b)
  | Erase dst size => 0 <= dst ∧ 0 <= size ∧ dst + size <= len (memory w)
  | _ => True
  end.

(** The one call that runs into an assertion: a message is reported as sent
    after its handshake has failed. *)
Definition hcall_aborts (h : Handshake) (c : hcall) : Prop :=
  c = SendCompleted ∧ _step h = Failed ∧ _outputBuffer h ≠ [].
Definition aborts (w : World) (c : ccall) : Prop :=
  match c with
  | OnHandshake p c => ∃ h, objects w !! p = Some (CHandshake h) ∧ hcall_aborts h c
  | _ => False
  end.

(** The handle a call works on, and the one it frees. *)
Definition target (c : ccall) : option handle :=
  match c with
  | OnHandshake p _ | Encrypt p _ _ | Peek p _ | Decrypt p _ _ => Some p
  | _ => None
  end.
Definition freed (c : ccall) : option handle :=
  match c with FreeHandshake p | FreeEncryptor p | FreeDecryptor p => Some p | _ => None end.

(** What an object may become: a handshake goes on by calls of its interface, a
    box keeps its key and protocol. *)
Definition evolves `{Primitives} (o o' : cobject) : Prop :=
  match o, o' with
  | CHandshake h, CHandshake h' => rtc api_step h h'
  | CEncryptoBox b, CEncryptoBox b' | CDecryptoBox b, CDecryptoBox b' =>
      _key b' = _key b ∧ _protocol b' = _protocol b
  | _, _ => False
  end.

Definition world0 (m : bytes) : World := MkWorld ∅ 1 m.

Inductive c_step `{Primitives} : World → World → Prop :=
| c_call w c r w' : ccall_ok w c → do_ccall c w = (r, w') → c_step w w'.

(** * Lemmas *)

Section lemmas.
Context {P : Primitives} {PL : PrimitivesLaws P}.
Implicit Types (w : World) (h : Handshake) (b : CryptoBox).

(** The results a correct call can have. *)
Definition benign (r : outcome unit) : Prop :=
  r = Ok tt ∨ r = Fault LogicError ∨ r = Fault InvalidArgument.

Record world_ok w : Prop := {
  world_next : (0 < nextObject w)%nat;
  world_fresh : ∀ p o, objects w !! p = Some o → (0 < p < nextObject w)%nat;
  world_reach : ∀ p h, objects w !! p = Some (CHandshake h) → reachable h;
}.

(** The C functions that change a handshake are calls of its interface. *)
Definition as_call (c : hcall) : option call :=
  match c with
  | GetInputBuffer => Some CallBytesToRead
  | FillInput src => Some (CallFillInput src)
  | ReadCompleted => Some CallReadCompleted
  | ReceivedBytes src => Some (CallReceivedBytes src)
  | GetBytesToSend => Some CallBytesToSend
  | SendCompleted => Some CallSendCompleted
  | CopyBytesToSend n => Some (CallCopyBytesToSend n)
  | GetSession => Some CallSession
  | GetBytesNeeded | GetError | IsFinished => None
  end.

Lemma do_hcall_call h c :
  do_hcall c h = match as_call c with Some k => do_call k h | None => (Ok tt, h) end.
Proof.
  destruct c; try reflexivity. unfold do_hcall, SHSHandshake_GetError. mrun. by destruct (_error h).
Qed.

Lemma as_call_aborts h c k :
  as_call c = Some k → send_after_failure h k ↔ hcall_aborts h c.
Proof. unfold send_after_failure, hcall_aborts. destruct c; intros [= <-]; naive_solver. Qed.

Lemma do_hcall_run h c :
  reachable h → hcall_ok h c →
  ∃ r h', do_hcall c h = (r, h') ∧
    (benign r ∧ ¬ hcall_aborts h c ∨ r = Fault AssertFailed ∧ hcall_aborts h c) ∧
    rtc api_step h h' ∧ reachable h'.
Proof.
  intros Hr Hok. rewrite do_hcall_call. destruct (as_call c) as [k|] eqn:Ek.
  2: { exists (Ok tt), h. split_and!; [done| |done|done]. left. split; [by left|]. by intros (-> & _). }
  assert (call_ok h k) as Hk by (destruct c; cbn in Ek; simplify_eq; done).
  pose proof (do_call_post h k ltac:(auto with shs) Hk) as (_ & _ & _ & He).
  destruct (do_call k h) as [r h'] eqn:Ed. cbn in He. exists r, h'.
  assert (api_step h h') as Hs by (by econstructor). split_and!; [done| |by apply rtc_once|].
  - rewrite <-(as_call_aborts h c k Ek). destruct r as [[]|e]; [left; split; [by left|done]|].
    destruct He as [[-> ?]|[-> ?]]; [left; split; [by right; left|done]|by right].
  - destruct Hr as (h0 & H0 & Hsteps). exists h0. split; [done|]. by eapply rtc_r.
Qed.

(** A box keeps its key and protocol. *)
Definition same_box b b' : Prop := _key b' = _key b ∧ _protocol b' = _protocol b.

Lemma status_cast (st : status_t) : ∃ c, to_SHSStatus (status_int st) = Some c.
Proof. destruct st; by eexists. Qed.

Lemma c_encrypt_run e inp out :
  regions_ok e inp out →
  ∃ r e', (SHSEncryptoBox_Encrypt inp out;; mret tt) e = (r, e') ∧ benign r ∧
    same_box (the_box e) (the_box e').
Proof.
  intros Hreg. pose proof Hreg as (_ & Hz & _). unfold SHSEncryptoBox_Encrypt.
  destruct (Z.lt_ge_cases kMaxMessageSize (in_size inp)) as [Hbig|Hmax].
  { exists (Fault InvalidArgument), e. unfold mbind, M_bind.
    rewrite encrypt_too_large by done. split_and!; [done|by right; right|done]. }
  destruct (Z.lt_ge_cases (out_size out) (Wire.overhead (_protocol (the_box e)) + in_size inp))
    as [Hsmall|Hsz].
  - unfold mbind, M_bind. rewrite encrypt_small_out by done. exists (Ok tt), e.
    split_and!; [done|by left|done].
  - destruct (encrypt_ok e inp out Hreg Hmax) as (msg & m' & _ & _ & Henc).
    { rewrite encryptedSize_exact; [done|lia|].
      unfold size_max, kMaxMessageSize in *. destruct (_protocol _); cbn; lia. }
    unfold mbind, M_bind. rewrite Henc. eexists (Ok tt), _. split_and!; [done|by left|done].
Qed.

Lemma c_decrypt_run e inp out :
  regions_ok e inp out →
  ∃ r e', (SHSDecryptoBox_Decrypt inp out;; mret tt) e = (r, e') ∧ benign r ∧
    same_box (the_box e) (the_box e').
Proof.
  intros Hreg. destruct (decrypt_cases e inp out Hreg) as (st & inp' & out' & e' & Hd & Hspec).
  exists (Ok tt), e'. unfold SHSDecryptoBox_Decrypt, mbind, M_bind. rewrite Hd.
  split_and!; [by destruct st|by left|].
  unfold decrypt_spec in Hspec. destruct st; [by destruct Hspec as (-> & _)|..];
    destruct Hspec as (He & _); [by rewrite He..|by rewrite He].
Qed.

Lemma peek_returns e inp out : regions_ok e inp out → ∃ r, peek inp e = (Ok r, e).
Proof.
  intros Hreg. unfold peek. rewrite bind_get. destruct (_protocol (the_box e)).
  - destruct (in_size inp <? 2) eqn:E; zbool; [by eexists|]. destruct Hreg as (? & ? & ? & _).
    rewrite (bind_Ok _ _ _ _ _ (load_run _ _ _ _ (mread_is_Some (mem e) (in_data inp) 2
      ltac:(lia) ltac:(lia) ltac:(lia)))).
    by eexists.
  - destruct (header_cases e inp out Hreg)
      as [(_ & hd & Hh)|[(_ & ? & hd & _ & _ & Hh)|(_ & boxed & hb & _ & _ & Hh)]];
      rewrite (bind_Ok _ _ _ _ _ Hh); by eexists.
Qed.

Lemma c_peek_run e inp out :
  regions_ok e inp out → (SHSDecryptoBox_Peek inp;; mret tt) e = (Ok tt, e).
Proof.
  intros Hreg. destruct (peek_returns e inp out Hreg) as [r Hp].
  unfold SHSDecryptoBox_Peek, mbind, M_bind. rewrite Hp. by destruct (pr_status r).
Qed.

(** What a correct call does to the world. *)
Definition call_effect (c : ccall) w (r : outcome unit) w' : Prop :=
  (benign r ∧ ¬ aborts w c ∨ r = Fault AssertFailed ∧ aborts w c) ∧ world_ok w' ∧
  (∀ p o, objects w !! p = Some o → freed c ≠ Some p →
     ∃ o', objects w' !! p = Some o' ∧ evolves o o' ∧ (target c ≠ Some p → o' = o)) ∧
  (∀ p, freed c = Some p → objects w' !! p = None).

Lemma evolves_refl o : evolves o o.
Proof. destruct o; cbn; [constructor|done|done]. Qed.

(** A call on the object of a live handle. *)
Lemma effect_update c w p o o' n m r :
  world_ok w → objects w !! p = Some o → n = nextObject w → target c = Some p → freed c = None →
  benign r ∧ ¬ aborts w c ∨ r = Fault AssertFailed ∧ aborts w c →
  evolves o o' → (∀ h, o' = CHandshake h → reachable h) →
  call_effect c w r (MkWorld (<[p := o']> (objects w)) n m).
Proof.
  intros Hw Hp -> Ht Hf Hb He Hr. split_and!; [done| | |by rewrite Hf].
  - constructor; cbn; [apply Hw|..]; intros q x; rewrite lookup_insert_Some;
      intros [[<- Hx]|[_ Hx]].
    + by eapply world_fresh.
    + by eapply world_fresh.
    + by apply Hr.
    + by eapply world_reach.
  - intros q x Hq _. cbn. destruct (decide (p = q)) as [<-|Hne].
    + exists o'. rewrite lookup_insert_eq. assert (x = o) as -> by congruence. by split_and!.
    + exists x. rewrite lookup_insert_ne by done. split_and!; [done|apply evolves_refl|done].
Qed.

(** A new object. *)
Lemma effect_new c w o :
  world_ok w → target c = None → freed c = None → (∀ h, o = CHandshake h → reachable h) →
  call_effect c w (Ok tt)
    (MkWorld (<[nextObject w := o]> (objects w)) (S (nextObject w)) (memory w)).
Proof.
  intros Hw Ht Hf Hr. assert (objects w !! nextObject w = None) as Hn.
  { destruct (objects w !! nextObject w) eqn:E; [|done]. apply (world_fresh w Hw) in E. lia. }
  split_and!; [left; split; [by left|intros Ha; by destruct c]| | |by rewrite Hf].
  - constructor; cbn; [lia|..]; intros q x; rewrite lookup_insert_Some;
      intros [[<- Hx]|[_ Hx]].
    + pose proof (world_next w Hw). lia.
    + apply (world_fresh w Hw) in Hx. lia.
    + by apply Hr.
    + by eapply world_reach.
  - intros q x Hq _. exists x. cbn. rewrite lookup_insert_ne by congruence.
    split_and!; [done|apply evolves_refl|done].
Qed.

(** [delete], of a live handle or of the null pointer. *)
Lemma effect_free c w p :
  world_ok w → freed c = Some p → target c = None → p = 0%nat ∨ is_Some (objects w !! p) →
  ∃ w', delete_object p w = (Ok tt, w') ∧ call_effect c w (Ok tt) w'.
Proof.
  intros Hw Hf Ht Hp. unfold delete_object. rewrite bind_get.
  assert (∀ q o, objects w !! q = Some o → q ≠ 0%nat) as Hz
    by (intros q o Hq; apply (world_fresh w Hw) in Hq; lia).
  destruct (decide (p = 0%nat)) as [->|Hne].
  - exists w. rewrite bool_decide_eq_true_2 by done. split; [done|].
    split_and!; [left; split; [by left|intros Ha; by destruct c]|done| |].
    + intros q o Hq _. exists o. split_and!; [done|apply evolves_refl|done].
    + rewrite Hf. intros q [= <-]. destruct (objects w !! 0%nat) eqn:E; [|done]. by destruct (Hz _ _ E).
  - destruct Hp as [?|Hs]; [done|]. rewrite bool_decide_eq_false_2, bool_decide_eq_true_2 by done.
    eexists. split; [reflexivity|]. split_and!; [left; split; [by left|intros Ha; by destruct c]| | |].
    + constructor; cbn; [apply Hw|..]; intros q x; rewrite lookup_delete_Some; intros [_ Hx];
        [by eapply world_fresh|by eapply world_reach].
    + intros q o Hq Hfq. exists o. cbn. rewrite lookup_delete_ne by congruence.
      split_and!; [done|apply evolves_refl|done].
    + rewrite Hf. intros q [= <-]. apply lookup_delete_eq.
Qed.

(** Dropping the result of a call on an object. *)
Lemma on_encryptor_unit {A} p (m : M boxenv A) w :
  (on_encryptor_at p m;; mret tt) w = on_encryptor_at p (m;; mret tt) w.
Proof.
  unfold on_encryptor_at, mbind, M_bind. destruct (objects w !! p) as [[]|]; try done.
  by destruct (m _) as [[]].
Qed.
Lemma on_decryptor_unit {A} p (m : M boxenv A) w :
  (on_decryptor_at p m;; mret tt) w = on_decryptor_at p (m;; mret tt) w.
Proof.
  unfold on_decryptor_at, mbind, M_bind. destruct (objects w !! p) as [[]|]; try done.
  by destruct (m _) as [[]].
Qed.

Lemma SHSErase_run w dst size :
  0 <= dst → 0 <= size → dst + size <= len (memory w) →
  ∃ old m, mread (memory w) dst size = Some old ∧ mwrite (memory w) dst (wipe old) = Some m ∧
    SHSErase dst size w = (Ok tt, set_memory m w).
Proof.
  intros Hd Hs Hl. pose proof (mread_is_Some (memory w) dst size Hd Hs Hl) as Hr.
  set (old := ztake _ _) in Hr. pose proof (mread_Some _ _ _ _ Hr) as (_ & _ & _ & _ & Hlen).
  assert (is_Some (mwrite (memory w) dst (wipe old))) as [m Hm].
  { eexists. apply mwrite_is_Some; [done|]. rewrite wipe_len. lia. }
  exists old, m. split_and!; try done. unfold SHSErase. rewrite bind_get, Hr. cbn [in_bounds].
  by rewrite bind_ret, Hm.
Qed.

Lemma do_ccall_effect c w :
  world_ok w → ccall_ok w c → ∃ r w', do_ccall c w = (r, w') ∧ call_effect c w r w'.
Proof.
  intros Hw Hok. destruct c as [aid kp pk e|aid kp e|p c|p|s cp|p inp out|p|s cp|p inp|p inp out|p|d n];
    cbn [do_ccall ccall_ok] in *.
  - eexists _, _. split; [reflexivity|]. apply effect_new; [done..|]. intros h [= <-].
    eexists. split; [apply initial_client|constructor].
  - eexists _, _. split; [reflexivity|]. apply effect_new; [done..|]. intros h [= <-].
    eexists. split; [apply initial_server|constructor].
  - destruct Hok as (h & Hp & Hc).
    destruct (do_hcall_run h c (world_reach w Hw _ _ Hp) Hc) as (r & h' & Hrun & Hb & Hs & Hr).
    unfold on_handshake_at. rewrite Hp, Hrun. eexists _, _. split; [reflexivity|].
    eapply effect_update; try done; [|by intros ? [= <-]]. cbn [aborts].
    destruct Hb as [[? Hn]|[? ?]]; [left|right; by eauto].
    split; [done|]. intros (h1 & Hp1 & ?). assert (h1 = h) as -> by congruence. done.
  - destruct (effect_free (FreeHandshake p) w p) as (w' & ? & ?); [done..| |by eauto].
    destruct Hok as [?|[? ?]]; eauto.
  - destruct cp; (eexists _, _; split; [reflexivity|]; by apply effect_new).
  - destruct Hok as (b & Hp & Hreg). rewrite on_encryptor_unit. unfold on_encryptor_at. rewrite Hp.
    destruct (c_encrypt_run _ _ _ Hreg) as (r & e' & -> & Hb & Hsame).
    eexists _, _. split; [reflexivity|]. eapply effect_update; try done. left. by split; [|intros []].
  - destruct (effect_free (FreeEncryptor p) w p) as (w' & ? & ?); [done..| |by eauto].
    destruct Hok as [?|[? ?]]; eauto.
  - destruct cp; (eexists _, _; split; [reflexivity|]; by apply effect_new).
  - destruct Hok as (b & Hp & Hreg). rewrite on_decryptor_unit. unfold on_decryptor_at. rewrite Hp.
    rewrite (c_peek_run _ _ _ Hreg). eexists _, _. split; [reflexivity|].
    eapply effect_update; try done. left. split; [by left|by intros []].
  - destruct Hok as (b & Hp & Hreg). rewrite on_decryptor_unit. unfold on_decryptor_at. rewrite Hp.
    destruct (c_decrypt_run _ _ _ Hreg) as (r & e' & -> & Hb & Hsame).
    eexists _, _. split; [reflexivity|]. eapply effect_update; try done. left. by split; [|intros []].
  - destruct (effect_free (FreeDecryptor p) w p) as (w' & ? & ?); [done..| |by eauto].
    destruct Hok as [?|[? ?]]; eauto.
  - destruct Hok as (? & ? & ?). destruct (SHSErase_run w d n) as (old & m & _ & _ & ->); [done..|].
    eexists _, _. split; [reflexivity|].
    split_and!; [left; split; [by left|by intros []]|by destruct Hw| |done].
    intros q o Hq _. exists o. split_and!; [done|apply evolves_refl|done].
Qed.

Lemma c_reachable_ok m w : rtc c_step (world0 m) w → world_ok w.
Proof.
  assert (world_ok (world0 m)) as H0
    by (constructor; cbn; [lia|..]; intros *; by rewrite lookup_empty).
  intros Hs. induction Hs as [|w1 w2 w3 [w c r w' Hok Hc] _ IH]; [done|]. apply IH.
  destruct (do_ccall_effect c w H0 Hok) as (r' & w'' & Hc' & (_ & ? & _)). congruence.
Qed.
End lemmas.

(** * Properties *)

Section properties.
Context {P : Primitives} {PL : PrimitivesLaws P}.
Implicit Types w : World.

(** C39: A program that calls the C functions in any order on live handles of
    the right type (or frees a null one), with buffers inside its memory,
    starting with no objects, never causes undefined behaviour: a call
    returns, or throws [logic_error] or [invalid_argument], except that
    [SHSHandshake_SendCompleted] fails the assertion of [nextStep] exactly
    when its handshake has failed with a message pending. Every handle that is not freed keeps
    an object of its type: a handshake moves on by calls of its interface, a
    box keeps its key and protocol, and a call leaves all objects but its own
    as they are. A handle that has been freed has no object. *)
Theorem c_handles_typed m w c :
  rtc c_step (world0 m) w → ccall_ok w c →
  ∃ r w', do_ccall c w = (r, w') ∧
    (r = Ok tt ∨ r = Fault LogicError ∨ r = Fault InvalidArgument ∨ r = Fault AssertFailed) ∧
    (r = Fault AssertFailed ↔ aborts w c) ∧
    (∀ p o, objects w !! p = Some o → freed c ≠ Some p →
       ∃ o', objects w' !! p = Some o' ∧ evolves o o' ∧ (target c ≠ Some p → o' = o)) ∧
    (∀ p, freed c = Some p → objects w' !! p = None).
Proof.
  intros Hs Hok. destruct (do_ccall_effect c w (c_reachable_ok m w Hs) Hok)
    as (r & w' & Hc & (Hb & _ & Ho & Hf)).
  unfold benign in Hb. exists r, w'. split_and!; try done; naive_solver.
Qed.

(** Erasing forgets. Of two programs whose memories differ only in a
    session, both memories are the same after [SHSSession_Erase], and nothing
    outside the session has changed; and what the destructors of two sessions,
    of two boxes with different keys, or of two key pairs with different
    signing keys leave behind is the same. *)
Theorem erasure_forgets pre post s1 s2 o n w1 w2 b1 b2 kp1 kp2 :
  len (Session_bytes s1) = sizeof_SHSSession → len (Session_bytes s2) = sizeof_SHSSession →
  w1 = MkWorld o n (pre ++ Session_bytes s1 ++ post) →
  w2 = MkWorld o n (pre ++ Session_bytes s2 ++ post) →
  len (_key b1) = len (_key b2) → _nonce b1 = _nonce b2 → _protocol b1 = _protocol b2 →
  len (signingKey kp1) = len (signingKey kp2) → publicKey kp1 = publicKey kp2 →
  (∃ junk, len junk = sizeof_SHSSession ∧
     SHSSession_Erase (len pre) w1 = (Ok tt, MkWorld o n (pre ++ junk ++ post)) ∧
     SHSSession_Erase (len pre) w2 = (Ok tt, MkWorld o n (pre ++ junk ++ post))) ∧
  Session_destroy s1 = Session_destroy s2 ∧ CryptoBox_destroy b1 = CryptoBox_destroy b2 ∧
  KeyPair_destroy kp1 = KeyPair_destroy kp2.
Proof.
  intros H1 H2 -> -> Hb Hn Hp Hk Hpk.
  assert (wipe (Session_bytes s1) = wipe (Session_bytes s2)) as Hw by (apply wipe_forgets; lia).
  assert (∀ s, len (Session_bytes s) = sizeof_SHSSession →
    SHSSession_Erase (len pre) (MkWorld o n (pre ++ Session_bytes s ++ post))
      = (Ok tt, MkWorld o n (pre ++ wipe (Session_bytes s) ++ post))) as Her.
  { intros s Hs. unfold SHSSession_Erase, SHSErase. rewrite bind_get. cbn [memory].
    rewrite mread_at by done. cbn [in_bounds]. rewrite bind_ret.
    rewrite mwrite_at by (rewrite ?wipe_len; done). done. }
  split_and!.
  - exists (wipe (Session_bytes s1)). split; [by rewrite wipe_len|].
    split; [by apply Her|]. rewrite Hw. by apply Her.
  - exact Hw.
  - unfold CryptoBox_destroy. rewrite Hn, Hp. f_equal. apply wipe_forgets. lia.
  - unfold KeyPair_destroy. rewrite Hpk. f_equal. apply wipe_forgets. lia.
Qed.

(** The application ID of a string: its first 32 bytes, and zeroes. *)
Lemma app_id_from_string str :
  len (SHSAppID_FromString str) = 32 ∧
  SHSAppID_FromString str = ztake 32 str ++ replicate (Z.to_nat (32 - len str)) x00.
Proof.
  unfold SHSAppID_FromString, appIDFromString. rewrite fillWithString_pads by done.
  split; [by apply vec_resize_length|done].
Qed.
End properties.

(** * Witnesses *)

Module Demo.
Import Toy Handshake.Demo.
Definition s1 : Session :=
  MkSession (replicate 32 x01) (replicate 24 x02) (replicate 32 x03) (replicate 24 x04)
    (replicate 32 x05).
Definition s2 : Session :=
  MkSession (replicate 32 x11) (replicate 24 x12) (replicate 32 x13) (replicate 24 x14)
    (replicate 32 x15).

Definition opened : World := (do_ccall (NewEncryptor s1 C_Compact) (world0 (replicate 64 x2a))).2.

Lemma opened_reached : rtc c_step (world0 (replicate 64 x2a)) opened.
Proof. apply rtc_once. by apply (c_call _ (NewEncryptor s1 C_Compact) (Ok tt)). Qed.

(** The box is used, and freed. *)
Lemma c_handles_typed_witness :
  (∃ w', do_ccall (Encrypt 1 (MkIn 0 10) (MkOut 16 48)) opened = (Ok tt, w')) ∧
  ∃ r w', do_ccall (FreeEncryptor 1) opened = (r, w') ∧ objects w' !! 1%nat = None.
Proof.
  split.
  - destruct (c_handles_typed (replicate 64 x2a) opened (Encrypt 1 (MkIn 0 10) (MkOut 16 48))
                opened_reached) as (r & w' & H & _).
    + eexists. split; [reflexivity|]. repeat split; discriminate.
    + assert ((do_ccall (Encrypt 1 (MkIn 0 10) (MkOut 16 48)) opened).1 = Ok tt) as Hr
        by (vm_compute; reflexivity).
      rewrite H in Hr. cbn in Hr. subst r. exists w'. exact H.
  - destruct (c_handles_typed (replicate 64 x2a) opened (FreeEncryptor 1) opened_reached)
      as (r & w' & H & _ & _ & _ & Hf).
    + right. eexists. reflexivity.
    + exists r, w'. split; [exact H|]. apply Hf. reflexivity.
Defined.

Lemma erasure_forgets_witness :
  ∃ junk, SHSSession_Erase 1 (MkWorld ∅ 1 ([x00] ++ Session_bytes s1 ++ []))
            = (Ok tt, MkWorld ∅ 1 ([x00] ++ junk ++ [])) ∧
          SHSSession_Erase 1 (MkWorld ∅ 1 ([x00] ++ Session_bytes s2 ++ []))
            = (Ok tt, MkWorld ∅ 1 ([x00] ++ junk ++ [])).
Proof.
  destruct (erasure_forgets [x00] [] s1 s2 ∅ 1 _ _
    (MkBox (replicate 32 x01) zero_nonce Compact) (MkBox (replicate 32 x02) zero_nonce Compact)
    (MkKeyPair (replicate 32 x01) []) (MkKeyPair (replicate 32 x02) [])
    eq_refl eq_refl eq_refl eq_refl eq_refl eq_refl eq_refl eq_refl eq_refl)
    as ((junk & _ & H1 & H2) & _).
  exists junk. split; [exact H1|exact H2].
Defined.
End Demo.
